(* ===== verification/_CoqProject ===== *)
-Q . S2P
Prelude.v
Address.v
IntrusiveList.v
RootAllocator.v
Blocks.v
RootAllocatorLinks.v
RootAllocatorSpec.v
RootAllocatorDisplay.v
RootAllocatorInit.v
Bitfields.v
Topology.v
Slot.v
FreeLists.v
Slab.v
SlabSpec.v
SlabLocal.v
Treiber.v
SlabSteps.v
SlabConcurrent.v
SlabHistories.v
SlabInterrupts.v
LocalInterrupts.v
LoomTopology.v
FreeListTests.v
SlabTests.v
Insertions.v
Sync.v
Locked.v
SharedAllocator.v
Proto.v
SpanStack.v
Decoder.v
KTrace.v
KTraceLocal.v
SpanGenerations.v
SpansConcurrent.v
SpansReturn.v
Fmt.v
Apic.v
Hal.v
Entry.v
Display.v
Console.v
Boot.v
Start.v
Ktest.v
Host.v
Xtask.v
TestRun.v
