(* ===== verification/Prelude.v ===== *)
(** * A verification development for platypos

    platypos is a small operating-system kernel in Rust with its host-side
    tools. This library models the parts of it that carry logic of their own
    and proves what makes them correct. This header documents the whole; each
    file opens with what it holds.

    ** The program and the files

    The kernel ([kernel/]) starts from a memory map, builds its physical
    memory allocator, and emits traces through [tracing]; [slab/] is the
    concurrent slab that the trace subscriber ([ktrace/]) keeps its spans
    in; [common/], [hal/] and [hal-x86_64/] hold the locks, the interrupt
    guards, the processor topology and the drivers that these use;
    [ktrace/proto] is the format of trace messages, which [ktrace/decoder]
    reads on the host. [ktest/] is the harness of the kernel's tests, and
    [xtask/] the host's tool that builds the kernel, boots it in QEMU and
    prints what it sends.

    - [Prelude] (this file): what running Rust code comes to ([rust]: a
      value or a panic, with undefined behaviour as one of the panics),
      [Result], the build profile that decides about [debug_assert!] and
      arithmetic overflow, [usize] arithmetic, shared list lemmas and tactics.
    - [Address]: [kernel/src/mm/address.rs], [mm.rs], [mm/map.rs],
      [error.rs], [arch/x86_64/mm.rs]. Addresses and pages as newtypes over
      [usize] behind the class [Address] (the trait), [AddressRange], the
      memory map and the accessor of physical memory, and how these render.
    - [IntrusiveList]: the cursor operations of the intrusive-collections
      lists that the allocator uses, on lists of pointers: a cursor is a
      position, the null cursor the length.
    - [RootAllocator]: [kernel/src/mm/root_allocator.rs], every operation.
      The state is the memory that holds the [Run] structures (a map from
      pointers), the three lists linked through them, and nothing else.
    - [Blocks], [RootAllocatorLinks], [RootAllocatorSpec],
      [RootAllocatorInit]: the allocator's theory. [Blocks] has the abstract
      run list (ranges with statuses) and joining in it; the second relates
      the linked structure to such a list and proves the cursor-level
      operations against it; the third states the invariant [inv] and the
      specification of [allocate] and [deallocate]; the fourth does the same
      for [build].
    - [RootAllocatorDisplay]: the allocator's report of its state.
    - [Topology]: [hal/src/topology.rs], [hal-x86_64/src/topology.rs].
    - [Bitfields]: the 64-bit words of the slab ([Lifecycle], [Idx],
      [Entry]). The bit order belongs to the modular-bitfield crate: a class
      with its laws ([ModularBitfield]) and an instance.
    - [Slot], [FreeLists], [Slab]: [slab/src/slot.rs], [free_lists.rs],
      [lib.rs], one definition per function. The compare-and-exchange loops
      of a slot take as argument the words that other processors put in
      place in the meantime ([cas_loop]).
    - [SlabSpec]: the abstract slab (a map from indices to values with
      reference counts) and the refinement of it by [Slab]. [SlabLocal]: the
      slab when only one processor uses it.
    - [Treiber]: the global free list under concurrency, as a step relation
      with a program counter per processor.
    - [SlabSteps], [SlabConcurrent], [SlabHistories]: the slab under
      concurrency. The first divides every call into actions with at most
      one access to shared memory each ([act]) and interleaves those of all
      processors ([play]); run alone they make up the calls of [Slab]
      ([alone_run_call]). The second states the invariant between any two
      actions and proves every action against it; the third has what
      follows for executions.
    - [SlabInterrupts]: the slab when interrupt handlers use it; every
      processor has a stack of suspended calls. [LocalInterrupts]: what
      handlers do to a push or a pop on the processor's own list that they
      interrupt.
    - [LoomTopology], [FreeListTests], [SlabTests], [Insertions]: the
      concurrency tests in [hal/src/topology.rs], [slab/src/free_lists.rs]
      and [slab/src/lib.rs]. Loom runs a test under every schedule; here
      that is a quantifier, and the theorems hold for any number of threads
      and any values, not only the ones in the tests.
    - [Sync]: [hal/src/interrupts.rs], [common/src/sync.rs]. Interrupt
      guards; the interrupt-safe mutex as a step relation of processors with
      stacks of interrupted code; [Global].
    - [Locked]: data behind the interrupt-safe mutex, access by access.
      [SharedAllocator]: the allocator as [Allocator] shares it between
      processors and interrupt handlers, and [test_alloc] of
      [kernel/src/main.rs].
    - [Proto]: [ktrace/proto/src/lib.rs], [fields.rs]. serde's serialiser
      and deserialiser of maps are classes, connected by [WireFormat].
    - [Decoder]: [ktrace/decoder/src/lib.rs]. [memchr]'s search is a
      parameter, [postcard] the class [Postcard].
    - [KTrace]: [ktrace/src/lib.rs]. The subscriber's spans on [Slab], the
      queue (class [ThingBuf]), the serialiser (class [Serializer]) and the
      worker; the class [WireProtocol] says that both ends use one format.
    - [KTraceLocal], [SpanGenerations]: the subscriber on one processor,
      and that it can open and close spans as long as it keeps fewer than
      [MAX_SPANS] open. [SpansConcurrent]: its spans when several processors
      create, clone and close them at once, on the slab of [SlabSteps].
      [SpansReturn]: that these calls end.
    - [SpanStack]: [ktrace/src/stack.rs], which is not part of the build.
    - [Fmt]: [ktrace/decoder/src/fmt.rs]. The formatter's spans and stacks
      and the text of every message; colours and the symbol lookup are the
      class [Rendering].
    - [Apic], [Hal]: [hal-x86_64/src/interrupts/apic.rs], [handlers.rs],
      [interrupts.rs], [lib.rs]. The registers of the local APIC, the two
      8259 controllers, the descriptor table and its handlers, the serial
      port. Processor, controllers, table and port are classes of documented
      operations ([LocalApic], [Pic8259], [DescriptorTable], [Uart16550]).
    - [Entry]: the report of the memory map in
      [kernel/src/arch/x86_64/entry.rs].
    - [Display], [Console]: [arch/x86_64/display.rs], [console.rs]; the
      rendering of text is the class [TextRenderer].
    - [Boot]: [trace.rs], [panic.rs], [mm/heap_allocator.rs], and the state
      [Kernel] of all statics, the processor and the devices, with the monad
      of code that runs on it; [running] relates it to the subscriber's
      system of [KTrace].
    - [Start]: [start] of [entry.rs] with all it calls, and [kmain] of
      [main.rs]. [Allocator::build] and [apic::init_local] are here a second
      time, with their spans and messages ([build_allocator], [setup_apic]);
      [traced] relates them to [RootAllocator.build] and
      [Apic.apic_init_local], which have none. What code reports is a tree of
      flushes, messages and spans ([report]).
    - [Ktest]: [ktest/src/lib.rs], [assertions.rs], [ktest/macros], [kmain]
      in a test build, and the kernel's own tests. A test is a computation
      on [Kernel]; qemu_exit is the class [QemuExit].
    - [Host]: what the build tool sees of its host (files with a list of
      failures to come, standard output, the programs that it starts: class
      [Programs]) and [xtask/src/output.rs], [platform.rs],
      [tools/cargo.rs], [tools/gdb.rs].
    - [Xtask]: [xtask/src/command.rs], [tools/qemu.rs] and below, with
      [Decoder] and [Fmt] run on QEMU's output; addr2line is a class.
    - [TestRun]: the kernel's tests and the build tool together.

    ** What is proved

    Allocator: [allocate_spec] and [deallocate_spec] give result, invariant
    and the status of every page on every branch; [client_safety] and
    [build_client_safety] are what clients rely on, from any well-formed
    state and from [build]; [build_spec] treats initialisation, on memory
    maps of disjoint regions (it ends in the code's [todo!()] when the
    tracking pages do not hold enough runs), and [combine_loop_spec] its
    loop, on ranges whose starts and ends both increase;
    [allocate_deallocate_roundtrip], [double_free_refused] and
    [release_cycles] the interplay of the two operations;
    [shared_allocator_safe] carries safety over to all processors and their
    interrupt handlers, and [test_alloc_spec] says when the kernel's own test
    passes. Three defects are exhibited: [dev_cycles_panic],
    [combine_loop_nested], [empty_allocations_leak].

    Slab: [slab_refines_spec] (every trace of calls is one of the abstract
    slab), [slab_deref_safe], [slab_progress], [slab_stale_index],
    [slab_insert_full]; [freed_slot_not_shared] shows what the local lists
    cost, [single_processor_insert] that they cost nothing on one processor.
    Below it, [lifecycle_loops_atomic] and [lifecycle_word_roundtrip] for a
    slot, and [treiber_linearizable] and [treiber_solo_termination] for the
    global list. All processors may work at once on a new slab, under one
    condition: its entries carry the tag that the first push gives out, so
    the first push must be clear of pops that have read the initial entry of
    the same slot ([clear_step] for the list, [clear_play], [clear_spans],
    [clear_play_irq] for what is built on it). Then the slab is still that
    abstract slab ([slab_linearizable]), its plain fields are not raced for
    ([slab_race_free], except [next], see [next_field_race]), and every call
    gets on ([slab_calls_return]). Otherwise the list lacks the ABA
    protection that the tag is for ([new_slab_aba]), and concurrent calls
    can lose a value ([new_slab_loses_value], which [overtaking_not_clear]
    shows to violate the condition). As long as nothing is removed there is
    no push, and the slab works under every schedule
    ([concurrent_insertions_pass]). All this is for clients that use the
    indices and references which calls returned;
    [guessed_index_uninitialised] shows what forged indices can do.
    Interrupt handlers may make calls of their own wherever a call was
    interrupted ([slab_interruptible], [handlers_return]), except inside an
    access to the processor's own list: there only those do no harm that
    leave the list as it was ([restoring_interrupts_harmless]), while others
    break it ([interrupts_break_list]), and an insertion there loses a value,
    on every slab with a slot on that list and whatever the values
    ([interrupted_insert_loses_value]); the code does not turn interrupts off
    there. The other tests: [concurrent_push_passes], [concurrent_pop_passes],
    [test_single_processor_passes], [test_per_processor_passes],
    [test_migrate_entries_passes], [test_remove_with_references_passes].

    Synchronisation: [guards_nest], [mutex_exclusive],
    [mutex_no_self_deadlock], [locked_operations_atomic] (what is done under
    the lock is a sequence of whole operations), [global_init_once],
    [global_init_race].

    Traces: [attributes_roundtrip], [event_announced_length] and
    [record_field_total] for the protocol; [decode_delivers],
    [decode_withholds] and [decode_no_marker] for the decoder, and
    [read_initial_fails] and [decode_fails] for a drain that fails;
    [spans_refine_table] for the subscriber's spans, on top of the slab's
    invariant; [shared_spans_refine_table], [spans_not_leaked] and
    [span_calls_return] for spans that all processors share;
    [one_processor_spans] for when a span can be had; [messages_reach_host]
    from the subscriber's calls to the host's callback, for messages that fit
    their slots and fields that have values, and [overflow_written] for the
    messages that break the stream; [receive_all_well_nested] says which
    streams the formatter prints, and [lost_enter_panics] that a full queue
    can make it panic. [span_stack_spec] and [push_interrupted] are about the
    unused stack.

    The machine and the start: [apic_init_local_spec] (both registers bit by
    bit, on every branch), [interrupts_init_spec] (the 8259 controllers'
    vectors and the spurious one have handlers), [region_report_spec] (the
    combined memory map is the canonical one), [start_spec] (what [kmain] is
    handed, and every byte that the host has been sent by then),
    [panic_handler_spec] (when a panic is reported completely before the
    kernel stops, and how the report can be lost). Display and console:
    [draw_iter_spec], [write_spec], [cursor_bounds]; [draw_iter_unclipped]
    and [wrapped_line_overruns] show what happens at the edges.

    Tests and the build tool: [generate_test_spec], [run_tests_spec] and
    [kernel_tests_pass] for the harness, and [test_reports_unsent] that its
    reports stay in the queue; [cargo_build_spec], [symbolize_spec],
    [decode_output_spec] and [debug_session_spec] for the parts of the tool;
    [test_verdict_spec] for both together: [xtask test] succeeds exactly when
    the run was completed and every test passed.

    ** Conventions

    [usize] and [u64] are integers in [Z]; arithmetic on them is
    [add_usize], [sub_usize] and [mul_usize], which wrap or panic as the
    build profile has it (class [Profile]: [dev_profile] has debug
    assertions and overflow checks, [release_profile] neither). A theorem
    with a [Profile] argument holds in both. Code that returns [Result] is a
    [rust (result A E)], with the new state beside it where it has [&mut]
    access. Loops of the code are structural where they run along a list.
    Otherwise they take fuel and end in [Panic EndlessLoop] without: the
    combine loop gets one unit per range ([combine_loop_spec] shows that
    this is enough), the decoder one per buffered byte
    ([decode_buffered_fuel]), the compare-and-exchange loops one per word
    that another processor can put in place, [SlabSteps.alone] ten per call, and
    [pop_all] one more than there are slots. Concurrent loops run as long as
    the schedule has it; that they end when left alone is proved
    ([slab_calls_return], [span_calls_return], and the tests' threads can be
    joined from every state).

    ** What is not modelled

    Tracing calls inside the modelled functions, except those of [start] and
    all it calls, [kmain], the panic handler and the test harness, which make
    up what these do; the scratch heap of [Allocator::build], which is taken
    to be large enough; the local vector table of the APIC, which the code
    leaves as the firmware set it up; paging and the assembly behind the
    device classes; the parsing of the build tool's command line. Memory is
    sequentially consistent: the ordering arguments of the atomics are not
    represented. The cells of [slab/src/sync.rs] are the fields they wrap;
    what Loom checks about accesses to them is stated as race freedom. In
    [SlabSteps] a push to or a pop from a processor's own list is one action,
    since no other processor reaches it; interrupts within it are the subject
    of [LocalInterrupts]. The queue that the subscriber pushes its messages
    to belongs to thingbuf and is a sequential queue here; calls that share
    spans are interleaved without their messages. Of third-party code only
    what the source relies on appears, as parameters and classes with named
    laws: [modular-bitfield], serde, postcard, memchr, the sorting of ranges,
    [intrusive-collections] as lists with cursors, embedded-graphics,
    uart_16550, x86_64, linked_list_allocator, qemu_exit, addr2line, and the
    programs cargo, QEMU and GDB. What the endless loops at the end of
    [kmain] and of the panic handler do is not modelled; the definitions end
    where they begin. *)
From stdpp Require Export base list gmap numbers strings pretty.
#[global] Open Scope Z_scope.

(** * Outcomes *)

(** Why a piece of Rust code did not return. [UndefinedBehaviour] is what
    an [unsafe] block whose safety comment is violated produces: a
    dangling [UnsafeRef], an [assume_init] of uninitialised contents.
    [EndlessLoop] is a loop that does not come to an end, [PanicCalled] the
    [panic!] macro, and [ProtectionFault] the exception by which a
    processor refuses an instruction. *)
Inductive panic :=
  | AssertFailed
  | ArithmeticOverflow
  | IndexOutOfBounds
  | ExpectFailed
  | NotImplemented
  | EndlessLoop
  | PanicCalled
  | ProtectionFault
  | UndefinedBehaviour.

#[export] Instance panic_eq_dec : EqDecision panic.
Proof. solve_decision. Defined.

(** A computation either returns or panics; the kernel's panic handler
    never returns to the caller, so no state survives a panic. *)
Inductive rust (A : Type) :=
  | Ret (a : A)
  | Panic (why : panic).
Arguments Ret {A} a.
Arguments Panic {A} why.

#[export] Instance rust_ret : MRet rust := fun A a => Ret a.
#[export] Instance rust_bind : MBind rust := fun A B f m =>
  match m with Ret a => f a | Panic w => Panic w end.

(** [core::result::Result]. *)
Inductive result (A E : Type) :=
  | Ok (a : A)
  | Err (e : E).
Arguments Ok {A E} a.
Arguments Err {A E} e.

(** [assert!] and [expect] or [unwrap] of an [Option]. *)
Definition rassert (b : bool) : rust unit :=
  if b then Ret tt else Panic AssertFailed.

Definition expect {A} (o : option A) : rust A :=
  match o with Some a => Ret a | None => Panic ExpectFailed end.

(** [unwrap] of a [Result], and [is_err]. *)
Definition unwrap {A E} (r : result A E) : rust A :=
  match r with Ok a => Ret a | Err _ => Panic ExpectFailed end.

Definition is_err {A E} (r : result A E) : bool := match r with Ok _ => false | Err _ => true end.

(** The dereference of a raw pointer. *)
Definition deref {A} (o : option A) : rust A :=
  match o with Some a => Ret a | None => Panic UndefinedBehaviour end.

(** Slice indexing [xs[i]]. *)
Definition index {A} (xs : list A) (i : nat) : rust A :=
  match xs !! i with Some a => Ret a | None => Panic IndexOutOfBounds end.

(** * Build profile *)

(** Cargo's [dev] profile (the one [xtask] builds) turns on both
    [debug_assertions] and overflow checks; [release] turns both off. *)
Class Profile := { debug_assertions : bool }.

Definition dev_profile : Profile := {| debug_assertions := true |}.
Definition release_profile : Profile := {| debug_assertions := false |}.

Definition debug_assert `{Profile} (b : bool) : rust unit :=
  if debug_assertions then rassert b else Ret tt.

(** * Machine integers *)

(** [usize] and [u64] on the 64-bit target, as integers below [2^64]. *)
Definition usize_bound : Z := 2 ^ 64.
Definition is_usize (z : Z) : Prop := 0 <= z < usize_bound.

(** Result of an arithmetic operation whose exact value is [z]. *)
Definition usize_checked `{Profile} (z : Z) : rust Z :=
  if decide (0 <= z < usize_bound) then Ret z
  else if debug_assertions then Panic ArithmeticOverflow
  else Ret (z mod usize_bound).

(** [checked_add] below the type's bound, and [checked_sub]. *)
Definition checked_add (bound a b : Z) : option Z :=
  if decide (a + b < bound) then Some (a + b) else None.
Definition checked_sub (a b : Z) : option Z :=
  if decide (b <= a) then Some (a - b) else None.

Definition add_usize `{Profile} (a b : Z) : rust Z := usize_checked (a + b).
Definition sub_usize `{Profile} (a b : Z) : rust Z := usize_checked (a - b).
Definition mul_usize `{Profile} (a b : Z) : rust Z := usize_checked (a * b).

Section arithmetic.
Context `{Profile}.

Lemma usize_checked_ok z : is_usize z -> usize_checked z = Ret z.
Proof. intros Hz. unfold usize_checked. by rewrite decide_True. Qed.

Lemma add_usize_ok a b : is_usize (a + b) -> add_usize a b = Ret (a + b).
Proof. apply usize_checked_ok. Qed.

Lemma sub_usize_ok a b : is_usize (a - b) -> sub_usize a b = Ret (a - b).
Proof. apply usize_checked_ok. Qed.

Lemma mul_usize_ok a b : is_usize (a * b) -> mul_usize a b = Ret (a * b).
Proof. apply usize_checked_ok. Qed.

Lemma usize_checked_usize z z' : usize_checked z = Ret z' -> is_usize z'.
Proof.
  unfold usize_checked, is_usize. case_decide; [by intros [= <-]|].
  destruct debug_assertions; [done|]. intros [= <-].
  apply Z.mod_pos_bound. done.
Qed.
End arithmetic.

(** * Reasoning about outcomes *)

Section outcome.
Context {A B : Type}.
Implicit Types (m : rust A) (f : A -> rust B).

Lemma bind_Ret_inv m f y : m ≫= f = Ret y <-> exists x, m = Ret x /\ f x = Ret y.
Proof. destruct m; naive_solver. Qed.

Lemma rassert_inv b x : rassert b = Ret x <-> b = true.
Proof. destruct b, x; naive_solver. Qed.

Lemma expect_inv (o : option A) a : expect o = Ret a <-> o = Some a.
Proof. destruct o; naive_solver. Qed.

Lemma deref_inv (o : option A) a : deref o = Ret a <-> o = Some a.
Proof. destruct o; naive_solver. Qed.

Lemma index_inv (xs : list A) i a : index xs i = Ret a <-> xs !! i = Some a.
Proof. unfold index. destruct (xs !! i); naive_solver. Qed.
End outcome.

Lemma debug_assert_true `{Profile} : debug_assert true = Ret tt.
Proof. unfold debug_assert. by destruct debug_assertions. Qed.

(** [rust_inv H] peels the binds of [H : m = Ret x]. *)
Ltac rust_inv H :=
  repeat match type of H with
  | mbind _ _ = Ret _ =>
      let x := fresh "x" in let Hx := fresh "Hx" in
      apply bind_Ret_inv in H as (x & Hx & H)
  | rassert _ = Ret _ => apply rassert_inv in H
  | Ret _ = Ret _ => injection H as H
  | Panic _ = Ret _ => discriminate H
  end.

(** * Lists *)

Section lists.
Context {A : Type}.
Implicit Types (l k : list A) (x : A).

Lemma lookup_app_middle l x k : (l ++ x :: k) !! length l = Some x.
Proof. by apply list_lookup_middle. Qed.

Lemma delete_middle l x k : delete (length l) (l ++ x :: k) = l ++ k.
Proof. apply delete_middle. Qed.

Lemma insert_middle l x y k : <[length l := y]> (l ++ x :: k) = l ++ y :: k.
Proof.
  rewrite insert_app_r_alt by lia. by rewrite Nat.sub_diag.
Qed.
End lists.

(** * Strings *)

Section strings.
Implicit Types s t u : string.

Lemma string_app_cons c s t : (String c s +:+ t)%string = String c (s +:+ t).
Proof. done. Qed.

Lemma string_app_nil_l s : ("" +:+ s)%string = s.
Proof. done. Qed.

Lemma string_app_nil_r s : (s +:+ "")%string = s.
Proof. induction s as [|c s IH]; [done|]. by rewrite string_app_cons, IH. Qed.

Lemma string_app_assoc s t u :
  ((s +:+ t) +:+ u)%string = (s +:+ t +:+ u)%string.
Proof.
  induction s as [|c s IH]; [done|]. by rewrite !string_app_cons, IH.
Qed.
End strings.

(** Facts that [eauto with rust] may use, and the equations that
    [autorewrite with rust_rw] runs. *)
Create HintDb rust.
Create Rewrite HintDb rust_rw.
Create Rewrite HintDb strings_rw.
#[export] Hint Rewrite @debug_assert_true : rust_rw.
#[export] Hint Resolve usize_checked_usize : rust.
#[export] Hint Rewrite string_app_nil_r string_app_nil_l string_app_cons
  string_app_assoc : strings_rw.

(** Positions of a list that [f] maps to the same thing are the same. *)
Lemma omap_injective {A B} (f : A -> option B) (l : list A) j k x y b :
  NoDup (omap f l) -> l !! j = Some x -> l !! k = Some y -> f x = Some b -> f y = Some b -> j = k.
Proof.
  revert j k. induction l as [|z l IH]; intros j k Hnd Hj Hk Hx Hy; [done|].
  assert (Hin : forall n u, l !! n = Some u -> f u = Some b -> b ∈ omap f l).
  { intros n u Hn Hu. apply list_elem_of_omap. exists u. split; [by eapply list_elem_of_lookup_2|done]. }
  simpl in Hnd. destruct j as [|j], k as [|k]; simpl in Hj, Hk; simplify_eq; [done| | |].
  - rewrite Hx in Hnd. apply NoDup_cons in Hnd as [Hn _]. by destruct Hn; eapply Hin.
  - rewrite Hy in Hnd. apply NoDup_cons in Hnd as [Hn _]. by destruct Hn; eapply Hin.
  - f_equal. eapply IH; try done. destruct (f z); [by apply NoDup_cons in Hnd as [_ ?]|done].
Qed.

(** Different numbers below [n]. *)
Lemma nodup_bounded (l : list nat) n : NoDup l -> Forall (fun i => i < n)%nat l -> (length l <= n)%nat.
Proof.
  intros Hnd Hb. rewrite <-(length_seq n 0). apply submseteq_length, NoDup_submseteq; [done|].
  intros i Hi. rewrite Forall_forall in Hb. apply elem_of_seq. specialize (Hb _ Hi). lia.
Qed.

(** Position [j] of a list, in front of the others. *)
Lemma insert_first {A} (l : list A) j x y :
  l !! j = Some x -> exists rest, l ≡ₚ x :: rest /\ <[j := y]> l ≡ₚ y :: rest.
Proof.
  intros Hj. exists (take j l ++ drop (S j) l). pose proof (lookup_lt_Some _ _ _ Hj). split.
  - rewrite <-(take_drop_middle l j x) at 1 by done. solve_Permutation.
  - rewrite insert_take_drop by done. solve_Permutation.
Qed.

(** List [c] of a list of lists, in front of the others. *)
Lemma concat_insert {A} (lls : list (list A)) c l l' :
  lls !! c = Some l -> exists rest, concat lls ≡ₚ l ++ rest /\ concat (<[c := l']> lls) ≡ₚ l' ++ rest.
Proof.
  intros Hc. exists (concat (take c lls) ++ concat (drop (S c) lls)).
  pose proof (lookup_lt_Some _ _ _ Hc). split.
  - rewrite <-(take_drop_middle lls c l) at 1 by done. rewrite concat_app. simpl.
    solve_Permutation.
  - rewrite insert_take_drop by done. rewrite concat_app. simpl. solve_Permutation.
Qed.
