(* ===== verification/Address.v ===== *)
(** Addresses, page frames, address ranges and the memory map
    ([kernel/src/mm/address.rs], [mm/map.rs], [mm.rs], [error.rs] and the
    x86_64 bindings of [arch/x86_64/mm.rs]). An address type is an instance
    of the class [Address]; the operations that the macros
    [address_like_ops!] and [page_ops!] stamp out per type are written once
    over that class. *)
From Stdlib Require Import Ascii.
From S2P Require Import Prelude.

(** * Address types *)

Record PhysicalAddress := MkPhysicalAddress { physical_address : Z }.
Record VirtualAddress := MkVirtualAddress { virtual_address : Z }.
Record PageFrame := MkPageFrame { page_frame : Z }.
Record Page := MkPage { page : Z }.

#[export] Instance PhysicalAddress_eq_dec : EqDecision PhysicalAddress.
Proof. solve_decision. Defined.
#[export] Instance VirtualAddress_eq_dec : EqDecision VirtualAddress.
Proof. solve_decision. Defined.
#[export] Instance PageFrame_eq_dec : EqDecision PageFrame.
Proof. solve_decision. Defined.
#[export] Instance Page_eq_dec : EqDecision Page.
Proof. solve_decision. Defined.

(** The trait [Address]: a transparent wrapper of [usize]. *)
Class Address (A : Type) := {
  LABEL : string;
  new : Z -> A;
  as_usize : A -> Z;
  as_usize_new z : as_usize (new z) = z;
  new_as_usize a : new (as_usize a) = a;
}.

#[export] Instance Address_PhysicalAddress : Address PhysicalAddress.
Proof.
  refine {| LABEL := "PhysicalAddress"; new := MkPhysicalAddress;
            as_usize := physical_address |}; by try intros [].
Defined.
#[export] Instance Address_VirtualAddress : Address VirtualAddress.
Proof.
  refine {| LABEL := "VirtualAddress"; new := MkVirtualAddress;
            as_usize := virtual_address |}; by try intros [].
Defined.
#[export] Instance Address_PageFrame : Address PageFrame.
Proof.
  refine {| LABEL := "PageFrame"; new := MkPageFrame;
            as_usize := page_frame |}; by try intros [].
Defined.
#[export] Instance Address_Page : Address Page.
Proof.
  refine {| LABEL := "Page"; new := MkPage; as_usize := page |};
  by try intros [].
Defined.

#[global] Arguments new : simpl never.
#[global] Arguments as_usize : simpl never.
#[export] Hint Rewrite @as_usize_new @new_as_usize : rust_rw.

Section address_ops.
Context `{Profile} {A : Type} `{Address A}.
Implicit Types a b : A.

Definition ZERO : A := new 0.

(** [Add<usize>], [Sub<usize>] and [Sub<Self>]. *)
Definition add a (rhs : Z) : rust A :=
  v ← add_usize (as_usize a) rhs; Ret (new v).

Definition sub a (rhs : Z) : rust A :=
  v ← sub_usize (as_usize a) rhs; Ret (new v).

Definition distance a b : rust Z := sub_usize (as_usize a) (as_usize b).

(** [AddAssign] and [SubAssign]: the new value of [*self]. *)
Definition add_assign a (rhs : Z) : rust A :=
  v ← add_usize (as_usize a) rhs; Ret (new v).

Definition sub_assign a (rhs : Z) : rust A :=
  v ← sub_usize (as_usize a) rhs; Ret (new v).

Lemma add_ok a n :
  is_usize (as_usize a + n) -> add a n = Ret (new (as_usize a + n)).
Proof. intros ?. unfold add. by rewrite add_usize_ok. Qed.

Lemma sub_ok a n :
  is_usize (as_usize a - n) -> sub a n = Ret (new (as_usize a - n)).
Proof. intros ?. unfold sub. by rewrite sub_usize_ok. Qed.

(** The assignments store what the operators return, and one undoes the
    other. *)
Lemma assign_roundtrip a n b :
  is_usize (as_usize a) -> add_assign a n = Ret b -> is_usize (as_usize a + n) ->
  add a n = Ret b /\ sub_assign b n = Ret a.
Proof.
  intros Ha E Hn. split; [done|]. unfold add_assign in E. rewrite add_usize_ok in E by done.
  injection E as <-. unfold sub_assign. rewrite as_usize_new.
  rewrite sub_usize_ok, Z.add_simpl_r by (by rewrite Z.add_simpl_r). simpl. by rewrite new_as_usize.
Qed.

Lemma as_usize_inj a b : as_usize a = as_usize b -> a = b.
Proof.
  intros E. by rewrite <-(new_as_usize a), <-(new_as_usize b), E.
Qed.
End address_ops.

(** * Address ranges *)

Record AddressRange (A : Type) := MkAddressRange { start : A; size : Z }.
Arguments MkAddressRange {A} start size.
Arguments start {A} r : rename.
Arguments size {A} r : rename.

#[export] Instance AddressRange_eq_dec `{EqDecision A} : EqDecision (AddressRange A).
Proof. solve_decision. Defined.

Abbreviation PhysicalAddressRange := (AddressRange PhysicalAddress).
Abbreviation VirtualAddressRange := (AddressRange VirtualAddress).
Abbreviation PageFrameRange := (AddressRange PageFrame).
Abbreviation PageRange := (AddressRange Page).

Section address_range.
Context `{Profile} {A : Type} `{Address A}.
Implicit Types r : AddressRange A.

Definition from_start_size (s : A) (n : Z) : AddressRange A :=
  MkAddressRange s n.

(** [AddressRange::new]: asserts [end >= start]. *)
Definition range_new (s e : A) : rust (AddressRange A) :=
  _ ← rassert (bool_decide (as_usize s <= as_usize e));
  n ← distance e s;
  Ret (MkAddressRange s n).

Definition empty : AddressRange A := MkAddressRange ZERO 0.

(** [AddressRange::end] (exclusive). *)
Definition range_end r : rust A := add (start r) (size r).

Definition set_size r (n : Z) : AddressRange A := MkAddressRange (start r) n.

Definition shrink_left r (amount : Z) : rust (AddressRange A) :=
  n ← sub_usize (size r) amount;
  s ← add (start r) amount;
  Ret (MkAddressRange s n).

Definition shrink_right r (amount : Z) : rust (AddressRange A) :=
  n ← sub_usize (size r) amount;
  Ret (MkAddressRange (start r) n).

Definition extend_left r (amount : Z) : rust (AddressRange A) :=
  n ← add_usize (size r) amount;
  s ← sub (start r) amount;
  Ret (MkAddressRange s n).

Definition extend_right r (amount : Z) : rust (AddressRange A) :=
  n ← add_usize (size r) amount;
  Ret (MkAddressRange (start r) n).

(** [&&] evaluates its right operand only when the left one holds. *)
Definition contains r (other : AddressRange A) : rust bool :=
  if bool_decide (as_usize (start r) <= as_usize (start other)) then
    e ← range_end r;
    e' ← range_end other;
    Ret (bool_decide (as_usize e' <= as_usize e))
  else Ret false.

Definition intersects r (other : AddressRange A) : rust bool :=
  e' ← range_end other;
  if bool_decide (as_usize (start r) <= as_usize e') then
    e ← range_end r;
    Ret (bool_decide (as_usize (start other) <= as_usize e))
  else Ret false.
End address_range.

(** * Pages and page frames *)

(** [arch::PAGE_SIZE] on x86_64. *)
Definition PAGE_SIZE : Z := 4096.

(** [page_ops!(PageFrame, PhysicalAddress)] and [page_ops!(Page,
    VirtualAddress)], over a page type [P] and its address type [A]. *)
Section page_ops.
Context `{Profile} {P A : Type} `{Address P} `{Address A}.

Definition page_start (p : P) : rust A :=
  v ← mul_usize (as_usize p) PAGE_SIZE; Ret (new v).

Definition from_start (s : A) : result P unit :=
  if decide (as_usize s mod PAGE_SIZE = 0)
  then Ok (new (as_usize s / PAGE_SIZE)) else Err tt.

Definition containing (a : A) : P := new (as_usize a / PAGE_SIZE).

Definition size_bytes (r : AddressRange P) : rust Z :=
  mul_usize (size r) PAGE_SIZE.

Definition start_address (r : AddressRange P) : rust A :=
  page_start (start r).

Definition address_range (r : AddressRange P) : rust (AddressRange A) :=
  s ← start_address r;
  n ← mul_usize (size r) PAGE_SIZE;
  Ret (from_start_size s n).
End page_ops.
#[global] Arguments page_start {_ P A _ _} p.
#[global] Arguments start_address {_ P A _ _} r.
#[global] Arguments address_range {_ P A _ _} r.

(** * Kernel errors *)

Inductive ErrorKind := InsufficientMemory | AddressOutOfBounds | InvalidAddress.

Record Error := MkError { kind : ErrorKind }.

#[export] Instance ErrorKind_eq_dec : EqDecision ErrorKind.
Proof. solve_decision. Defined.
#[export] Instance Error_eq_dec : EqDecision Error.
Proof. solve_decision. Defined.

(** * The memory map *)

Inductive Kind :=
  | Usable
  | Reserved
  | AcpiTables
  | AcpiNonVolatile
  | Persistent
  | Uefi (typ : Z)
  | Bios (typ : Z).

#[export] Instance Kind_eq_dec : EqDecision Kind.
Proof. solve_decision. Defined.

Record Region := MkRegion {
  region_kind : Kind;
  region_start : PhysicalAddress;
  region_end : PhysicalAddress;
}.

Definition usable (r : Region) : bool := bool_decide (region_kind r = Usable).

Definition region_size `{Profile} (r : Region) : rust Z :=
  distance (region_end r) (region_start r).

Definition region_range `{Profile} (r : Region) : rust PhysicalAddressRange :=
  range_new (region_start r) (region_end r).

(** ** The bootloader's memory map *)

(** [bootloader_api]'s [MemoryRegionKind] is non-exhaustive: kinds the
    kernel does not name are [OtherKind]. *)
Inductive MemoryRegionKind :=
  | RegionUsable
  | RegionBootloader
  | UnknownUefi (typ : Z)
  | UnknownBios (typ : Z)
  | OtherKind (tag : Z).

#[export] Instance MemoryRegionKind_eq_dec : EqDecision MemoryRegionKind.
Proof. solve_decision. Defined.

Record MemoryRegion := MkMemoryRegion {
  mr_start : Z;
  mr_end : Z;
  mr_kind : MemoryRegionKind;
}.

(** [impl From<&MemoryRegion> for Region]; the [u64] to [usize] conversion
    never fails on this target. *)
Definition Region_from (r : MemoryRegion) : Region :=
  let kind := match mr_kind r with
              | RegionUsable => Usable
              | RegionBootloader => Reserved
              | UnknownUefi typ => Uefi typ
              | UnknownBios typ => Bios typ
              | _ => Reserved
              end in
  MkRegion kind (new (mr_start r)) (new (mr_end r)).

(** ** Access to physical memory *)

(** [MemoryAccess]: the virtual address at which all of physical memory is
    mapped. *)
Record MemoryAccess := MkMemoryAccess { base : Z }.

(** [isize::try_from] of a [usize]. *)
Definition try_isize (v : Z) : option Z :=
  if decide (v < 2 ^ 63) then Some v else None.

Definition map_permanent `{Profile} (access : MemoryAccess) (r : PageFrameRange)
    : rust (result Z Error) :=
  s ← start_address (A := PhysicalAddress) r;
  match try_isize (as_usize s) with
  | None => Ret (Err (MkError AddressOutOfBounds))
  | Some start_offset => Ret (Ok (base access + start_offset))
  end.

(** [with_memory]: [f] receives the mapped slice, given here by its address
    and its length in bytes. *)
Definition with_memory `{Profile} {T} (access : MemoryAccess) (r : PageFrameRange)
    (f : MemoryAccess -> Z -> Z -> rust T) : rust (result T Error) :=
  b ← map_permanent access r;
  match b with
  | Err e => Ret (Err e)
  | Ok b =>
      length ← mul_usize (size r) PAGE_SIZE;
      t ← f access b length;
      Ret (Ok t)
  end.

(** * Rendering *)

(** Lower-case hexadecimal digits, most significant first, of a [usize]. *)
Definition hex_digit (d : Z) : ascii :=
  if decide (d < 10) then ascii_of_nat (Z.to_nat (48 + d))
  else ascii_of_nat (Z.to_nat (87 + d)).

Fixpoint hex_digits (fuel : nat) (z : Z) (acc : string) : string :=
  match fuel with
  | O => acc
  | S fuel =>
      let acc := String (hex_digit (z mod 16)) acc in
      if decide (z / 16 = 0) then acc else hex_digits fuel (z / 16) acc
  end.

(** A [usize] has at most 16 hexadecimal digits. *)
Definition lower_hex (z : Z) : string := hex_digits 16 z "".

Fixpoint zeroes (n : nat) : string :=
  match n with O => "" | S n => String "0"%char (zeroes n) end.

(** The format spec [{:#012x}]: the [0x] prefix counts in the width of 12. *)
Definition format_012x (z : Z) : string :=
  let digits := lower_hex z in
  ("0x" +:+ zeroes (10 - String.length digits) +:+ digits)%string.

(** [Display] of the two address types, of the two page types, and of
    ranges of them. *)
Definition display_address `{Address A} (a : A) : string := format_012x (as_usize a).

Definition display_page `{Address P} (desc : string) (p : P) : string :=
  (desc +:+ " " +:+ format_012x (as_usize p))%string.

Definition display_range `{Profile} `{Address A} (display : A -> string)
    (r : AddressRange A) : rust string :=
  e ← range_end r;
  Ret (display (start r) +:+ " - " +:+ display e)%string.

Definition debug_range `{Profile} `{Address A} (display : A -> string)
    (r : AddressRange A) : rust string :=
  e ← range_end r;
  Ret (LABEL (A := A) +:+ "Range(" +:+ display (start r) +:+ " - " +:+ display e +:+ ")")%string.

Definition debug_address `{Address A} (display : A -> string) (a : A) : string :=
  (LABEL (A := A) +:+ "(" +:+ display a +:+ ")")%string.

(** [ByteSize]: human-readable sizes. *)
Definition SIZE_UNITS : list (Z * string) :=
  [(1024 * 1024 * 1024, "GiB"); (1024 * 1024, "MiB"); (1024, "KiB")]%string.

(** One iteration of the loop of [ByteSize::fmt]: the remaining bytes, the
    [needs_spacing] flag and what was written so far. *)
Definition fmt_unit (st : Z * bool * string) (unit : Z * string) : Z * bool * string :=
  let '(remaining, needs_spacing, out) := st in
  let '(size, suffix) := unit in
  let amount := remaining / size in
  let remaining := remaining mod size in
  if decide (amount > 0) then
    (remaining, true,
     (out +:+ (if needs_spacing then " " else "") +:+ pretty amount +:+ " " +:+ suffix)%string)
  else (remaining, needs_spacing, out).

Definition display_ByteSize (n : Z) : string :=
  let '(remaining, needs_spacing, out) :=
    fold_left fmt_unit SIZE_UNITS (n, false, ""%string) in
  if decide (remaining > 0) then
    (out +:+ (if needs_spacing then " " else "") +:+ pretty remaining +:+ " bytes")%string
  else out.

(** [Display] of a memory-map region; [kind] is rendered by the derived
    [Debug], which the [display_kind] argument stands for. *)
Definition display_region `{Profile} (display_kind : Kind -> string) (r : Region) : rust string :=
  n ← region_size r;
  Ret (display_address (region_start r) +:+ " - " +:+ display_address (region_end r)
       +:+ " " +:+ display_kind (region_kind r) +:+ " (" +:+ display_ByteSize n +:+ ")")%string.

(** * Reading of ranges *)

Definition lo `{Address A} (r : AddressRange A) : Z := as_usize (start r).
Definition hi `{Address A} (r : AddressRange A) : Z := lo r + size r.

(** A range whose start, size and exclusive end are all [usize] values. *)
Definition range_wf `{Address A} (r : AddressRange A) : Prop :=
  0 <= lo r /\ 0 <= size r /\ hi r < usize_bound.

Definition in_range `{Address A} (x : Z) (r : AddressRange A) : Prop :=
  lo r <= x < hi r.

(** Reads the hexadecimal digits of a rendered address back. *)
Definition hex_value (c : ascii) : Z :=
  let n := Z.of_nat (nat_of_ascii c) in
  if decide (n < 58) then n - 48 else n - 87.

Fixpoint parse_hex (acc : Z) (s : string) : Z :=
  match s with
  | EmptyString => acc
  | String c s => parse_hex (16 * acc + hex_value c) s
  end.

Definition parse_address (s : string) : Z :=
  match s with
  | String _ (String _ digits) => parse_hex 0 digits
  | _ => 0
  end.

(** The amounts of each unit that a byte count is shown as. *)
Definition gib (n : Z) : Z := n / 2 ^ 30.
Definition mib (n : Z) : Z := (n mod 2 ^ 30) / 2 ^ 20.
Definition kib (n : Z) : Z := (n mod 2 ^ 20) / 2 ^ 10.
Definition bytes (n : Z) : Z := n mod 2 ^ 10.

(** The non-zero amounts among them, each with its unit, and how one of
    them is written. *)
Definition size_parts (n : Z) : list (Z * string) :=
  filter (fun p => 0 < p.1)
    [(gib n, "GiB"); (mib n, "MiB"); (kib n, "KiB"); (bytes n, "bytes")]%string.

Definition write_part (p : Z * string) : string :=
  (pretty p.1 +:+ " " +:+ p.2)%string.

(** * Properties *)

#[export] Hint Unfold is_usize usize_bound range_wf lo hi : rust.

Section range_lemmas.
Context `{Profile} {A : Type} `{Address A}.
Implicit Types r : AddressRange A.

Lemma lo_new s n : lo (MkAddressRange (new s : A) n) = s.
Proof. apply as_usize_new. Qed.

Lemma hi_new s n : hi (MkAddressRange (new s : A) n) = s + n.
Proof. unfold hi. by rewrite lo_new. Qed.

Lemma range_end_ok r : range_wf r -> range_end r = Ret (new (hi r)).
Proof.
  intros (?&?&?). unfold range_end. apply add_ok.
  unfold is_usize, hi, lo in *. lia.
Qed.

Lemma range_eq r r' : lo r = lo r' -> size r = size r' -> r = r'.
Proof.
  destruct r, r'; unfold lo; simpl. intros E ->. f_equal. by apply as_usize_inj.
Qed.

Lemma range_rebuild r : MkAddressRange (new (lo r)) (size r) = r.
Proof. by apply range_eq; rewrite ?lo_new. Qed.

Lemma shrink_left_ok r n :
  range_wf r -> 0 <= n <= size r ->
  shrink_left r n = Ret (MkAddressRange (new (lo r + n)) (size r - n)).
Proof.
  intros (?&?&?) ?. unfold shrink_left, hi, lo in *.
  rewrite sub_usize_ok by (unfold is_usize; lia). simpl.
  by rewrite add_ok by (unfold is_usize; lia).
Qed.

Lemma shrink_right_ok r n :
  range_wf r -> 0 <= n <= size r ->
  shrink_right r n = Ret (MkAddressRange (start r) (size r - n)).
Proof.
  intros (?&?&?) ?. unfold shrink_right, hi, lo in *.
  by rewrite sub_usize_ok by (unfold is_usize; lia).
Qed.

Lemma extend_left_ok r n :
  range_wf r -> 0 <= n <= lo r ->
  extend_left r n = Ret (MkAddressRange (new (lo r - n)) (size r + n)).
Proof.
  intros (?&?&?) ?. unfold extend_left, hi, lo in *.
  rewrite add_usize_ok by (unfold is_usize; lia). simpl.
  by rewrite sub_ok by (unfold is_usize; lia).
Qed.

Lemma extend_right_ok r n :
  range_wf r -> 0 <= n -> hi r + n < usize_bound ->
  extend_right r n = Ret (MkAddressRange (start r) (size r + n)).
Proof.
  intros (?&?&?) ??. unfold extend_right, hi, lo in *.
  by rewrite add_usize_ok by (unfold is_usize; lia).
Qed.

Lemma intersects_ok r r' :
  range_wf r -> range_wf r' ->
  intersects r r' = Ret (bool_decide (lo r <= hi r' /\ lo r' <= hi r)).
Proof.
  intros Hr Hr'. unfold intersects. rewrite !range_end_ok by done. simpl.
  rewrite !as_usize_new. fold (lo r) (lo r').
  repeat case_bool_decide; try done; tauto.
Qed.

Lemma contains_ok r r' :
  range_wf r -> range_wf r' ->
  contains r r' = Ret (bool_decide (lo r <= lo r' /\ hi r' <= hi r)).
Proof.
  intros Hr Hr'. unfold contains. rewrite !range_end_ok by done. simpl.
  rewrite !as_usize_new. fold (lo r) (lo r').
  repeat case_bool_decide; try done; tauto.
Qed.
End range_lemmas.
#[export] Hint Rewrite @lo_new @hi_new : rust_rw.

Section rendering_lemmas.
Lemma hex_value_digit d : 0 <= d < 16 -> hex_value (hex_digit d) = d.
Proof.
  intros Hd. assert (Hn : (Z.to_nat d < 16)%nat) by lia.
  rewrite <-(Z2Nat.id d) by lia. revert Hn. generalize (Z.to_nat d) as n.
  intros n Hn. do 16 (destruct n as [|n]; [done|]). lia.
Qed.

Lemma parse_hex_digits fuel z acc :
  0 <= z < 16 ^ Z.of_nat fuel ->
  parse_hex 0 (hex_digits fuel z acc) = parse_hex z acc.
Proof.
  revert z acc. induction fuel as [|fuel IH]; intros z acc Hz; simpl.
  - f_equal. lia.
  - pose proof (Z.mod_pos_bound z 16). pose proof (Z.div_mod z 16).
    case_decide as Hd.
    + simpl. rewrite hex_value_digit by lia. f_equal. lia.
    + rewrite IH.
      * simpl. rewrite hex_value_digit by lia. f_equal. lia.
      * rewrite Nat2Z.inj_succ, Z.pow_succ_r in Hz by lia.
        split; [lia | apply Z.div_lt_upper_bound; lia].
Qed.

Lemma parse_hex_zeroes n s : parse_hex 0 (zeroes n +:+ s) = parse_hex 0 s.
Proof. by induction n. Qed.

Lemma parse_format_012x z : is_usize z -> parse_address (format_012x z) = z.
Proof.
  intros [Hz ?]. unfold format_012x, parse_address.
  change ("0x" +:+ ?s)%string with (String "0" (String "x" s)). simpl.
  rewrite parse_hex_zeroes. unfold lower_hex. by rewrite parse_hex_digits.
Qed.

Lemma size_decomposition n :
  n = gib n * 2 ^ 30 + mib n * 2 ^ 20 + kib n * 2 ^ 10 + bytes n.
Proof.
  unfold gib, mib, kib, bytes.
  change (2 ^ 30) with 1073741824. change (2 ^ 20) with 1048576.
  change (2 ^ 10) with 1024. Z.div_mod_to_equations. lia.
Qed.

Lemma mod_mod_pow z a b : 0 <= a <= b -> (z mod 2 ^ b) mod 2 ^ a = z mod 2 ^ a.
Proof.
  intros ?. apply Z.mod_mod_divide.
  exists (2 ^ (b - a)). rewrite <-Z.pow_add_r by lia. f_equal. lia.
Qed.

Lemma fmt_unit_eq r sp out u s :
  fmt_unit (r, sp, out) (u, s) =
  (r mod u, if decide (r / u > 0) then true else sp,
   if decide (r / u > 0) then
     (out +:+ (if sp : bool then " " else "") +:+ pretty (r / u) +:+ " " +:+ s)%string
   else out).
Proof. unfold fmt_unit. by case_decide. Qed.

Lemma display_ByteSize_parts n :
  display_ByteSize n = String.concat " " (write_part <$> size_parts n).
Proof.
  unfold display_ByteSize, SIZE_UNITS. cbn [fold_left].
  change (1024 * 1024 * 1024) with (2 ^ 30). change (1024 * 1024) with (2 ^ 20).
  change 1024 with (2 ^ 10).
  rewrite !fmt_unit_eq, !mod_mod_pow by lia.
  fold (gib n) (mib n) (kib n) (bytes n). unfold size_parts.
  generalize (gib n) (mib n) (kib n) (bytes n). intros g m k b.
  rewrite !filter_cons, filter_nil. cbn [fst].
  repeat case_decide; try lia; cbn -[pretty]; unfold write_part; cbn -[pretty];
    autorewrite with strings_rw; done.
Qed.
End rendering_lemmas.

Section range_properties.
Context `{Profile} {A : Type} `{Address A}.
Implicit Types r : AddressRange A.

(** [intersects] answers without a panic on well-formed ranges, and on
    non-empty ones it is true exactly when the two ranges share an address
    or merely touch end to start: the merge loop of the allocator relies
    on the second case, which the method's doc comment does not mention. *)
Theorem intersects_overlap_or_touch r r' :
  range_wf r -> range_wf r' -> 0 < size r -> 0 < size r' ->
  exists b, intersects r r' = Ret b /\
    (b = true <-> (exists x, in_range x r /\ in_range x r') \/ hi r = lo r' \/ hi r' = lo r).
Proof.
  intros Hr Hr' ??. eexists. split; [by apply intersects_ok|].
  rewrite bool_decide_eq_true. unfold in_range, hi in *. split.
  - intros [??]. destruct (decide (lo r + size r = lo r')); [tauto|].
    destruct (decide (lo r' + size r' = lo r)); [tauto|].
    left. exists (Z.max (lo r) (lo r')). lia.
  - intros [(x&?&?)|[?|?]]; lia.
Qed.

(** [shrink_left] cuts exactly the first [n] addresses off a range,
    and [extend_left] by the same amount restores it, in every build
    profile. *)
Theorem shrink_left_extend_left r n :
  range_wf r -> 0 <= n <= size r ->
  exists r', shrink_left r n = Ret r' /\ range_wf r' /\
    (forall x, in_range x r <-> lo r <= x < lo r + n \/ in_range x r') /\
    extend_left r' n = Ret r.
Proof.
  intros Hr Hn. eexists. split; [by apply shrink_left_ok|].
  assert (Hr' : range_wf (MkAddressRange (new (lo r + n) : A) (size r - n))).
  { unfold range_wf, hi in *. rewrite lo_new. simpl. lia. }
  split; [done|]. split.
  - intros x. unfold in_range, hi. rewrite lo_new. simpl. lia.
  - destruct Hr. rewrite extend_left_ok by (rewrite ?lo_new; simpl; auto; lia).
    f_equal. rewrite lo_new. simpl. rewrite <-(range_rebuild r) at 3.
    f_equal; [f_equal|]; lia.
Qed.
End range_properties.

(** Page frames and the physical addresses they start at convert back
    and forth: a frame's start address is page-aligned and converts back to
    the frame, an unaligned address is refused, and [containing] finds the
    one frame whose 4096 addresses include the given one. *)
Theorem page_frame_addresses `{Profile} (a : PhysicalAddress) (p : PageFrame) :
  is_usize (as_usize a) -> is_usize (as_usize p * PAGE_SIZE) -> 0 <= as_usize p ->
  (exists s, page_start (A := PhysicalAddress) p = Ret s /\ from_start (P := PageFrame) s = Ok p) /\
  (from_start (P := PageFrame) a = Err tt <-> as_usize a mod PAGE_SIZE <> 0) /\
  (containing (P := PageFrame) a = p <->
     as_usize p * PAGE_SIZE <= as_usize a < as_usize p * PAGE_SIZE + PAGE_SIZE).
Proof.
  intros Ha Hp Hp0. split; [|split].
  - eexists. unfold page_start. rewrite mul_usize_ok by done. simpl.
    split; [done|]. unfold from_start. rewrite as_usize_new.
    rewrite decide_True by (by apply Z_mod_mult).
    rewrite Z_div_mult by done. by rewrite new_as_usize.
  - unfold from_start. case_decide; naive_solver.
  - unfold containing, PAGE_SIZE in *. split.
    + intros <-. rewrite as_usize_new. Z.div_mod_to_equations. lia.
    + intros ?. apply as_usize_inj. rewrite as_usize_new. Z.div_mod_to_equations. lia.
Qed.

Lemma page_frame_addresses_witness :
  exists s, page_start (H := dev_profile) (A := PhysicalAddress) (MkPageFrame 3) = Ret s.
Proof.
  destruct (page_frame_addresses (H := dev_profile) (MkPhysicalAddress 12289) (MkPageFrame 3))
    as [(s & Hs & _) _]; [done..|]. by exists s.
Defined.

Lemma intersects_overlap_or_touch_witness :
  exists b, intersects (H := dev_profile) (MkAddressRange (MkPageFrame 2) 3)
              (MkAddressRange (MkPageFrame 5) 1) = Ret b.
Proof.
  destruct (intersects_overlap_or_touch (H := dev_profile)
    (MkAddressRange (MkPageFrame 2) 3) (MkAddressRange (MkPageFrame 5) 1))
    as (b & Hb & _); [done..|]. by exists b.
Defined.

Lemma shrink_left_extend_left_witness :
  exists r', shrink_left (H := dev_profile) (MkAddressRange (MkPageFrame 2) 3) 2 = Ret r'.
Proof.
  destruct (shrink_left_extend_left (H := dev_profile) (MkAddressRange (MkPageFrame 2) 3) 2)
    as (r' & Hr & _); [done..|]. by exists r'.
Defined.

(** A rendered address reads back as the address: [{:#012x}] loses no
    digit of a 64-bit value, whatever its width. *)
Theorem display_address_roundtrip `{Address A} (a : A) :
  is_usize (as_usize a) -> parse_address (display_address a) = as_usize a.
Proof. apply parse_format_012x. Qed.

Lemma display_address_roundtrip_witness :
  parse_address (display_address (MkVirtualAddress (2 ^ 64 - 1))) = 2 ^ 64 - 1.
Proof.
  refine (display_address_roundtrip (MkVirtualAddress (2 ^ 64 - 1)) _); done.
Defined.

(** A rendered byte size is the space-separated list of its non-zero
    GiB, MiB, KiB and byte amounts, and these amounts, each below the next
    larger unit, add up to the size. *)
Theorem display_ByteSize_spec n :
  display_ByteSize n = String.concat " " (write_part <$> size_parts n) /\
  n = gib n * 2 ^ 30 + mib n * 2 ^ 20 + kib n * 2 ^ 10 + bytes n /\
  0 <= mib n < 1024 /\ 0 <= kib n < 1024 /\ 0 <= bytes n < 1024.
Proof.
  split; [apply display_ByteSize_parts|]. split; [apply size_decomposition|].
  unfold mib, kib, bytes.
  change (2 ^ 30) with 1073741824. change (2 ^ 20) with 1048576.
  change (2 ^ 10) with 1024. Z.div_mod_to_equations. lia.
Qed.
