(* ===== verification/IntrusiveList.v ===== *)
(** The doubly linked lists of the [intrusive_collections] crate, as the
    allocator uses them: a list of pointers to the elements in order, and
    cursors that point either at an element or at the null object between
    the last element and the first. A cursor is a position: [i < length l]
    points at element [i], [length l] is the null object. *)
From S2P Require Import Prelude.

Section intrusive_list.
Context {P : Type} `{EqDecision P}.
Implicit Types (l : list P) (i : nat) (p : P).

(** [LinkedList::front_mut]: the first element, null on an empty list. *)
Definition front l : nat := 0.

Definition cursor_get l i : option P := l !! i.

(** [move_next] from the null object goes to the front. *)
Definition move_next l i : nat :=
  if decide (i = length l) then 0%nat else S i.

(** [move_prev] from the front goes to the null object, and from there to
    the back. *)
Definition move_prev l i : nat :=
  match i with O => length l | S i => i end.

Definition peek_next l i : option P := cursor_get l (move_next l i).
Definition peek_prev l i : option P := cursor_get l (move_prev l i).

(** [CursorMut::remove]: unlinks the element and moves to the next one. *)
Definition cursor_remove l i : option P * list P := (l !! i, delete i l).

(** [CursorMut::insert_before]: before the null object is the back of the
    list. The cursor keeps pointing at the same element, one further. *)
Definition insert_before l i p : list P * nat := (take i l ++ p :: drop i l, S i).

(** [cursor_mut_from_ptr]: the position of a pointer that must be linked
    into the list. *)
Fixpoint position l p : option nat :=
  match l with
  | [] => None
  | q :: l => if decide (q = p) then Some 0%nat else S <$> position l p
  end.

Definition cursor_from_ptr l p : rust nat := deref (position l p).

Definition pop_front l : option (P * list P) :=
  match l with [] => None | p :: l => Some (p, l) end.

Definition is_linked l p : bool := bool_decide (p ∈ l).

(** ** Lemmas *)

Lemma position_middle l p k : p ∉ l -> position (l ++ p :: k) p = Some (length l).
Proof.
  induction l as [|q l IH]; simpl; intros Hp.
  - by rewrite decide_True.
  - rewrite decide_False by set_solver. rewrite IH by set_solver. done.
Qed.

Lemma position_None l p : p ∉ l -> position l p = None.
Proof.
  induction l as [|q l IH]; simpl; [done|]. intros Hp.
  rewrite decide_False by set_solver. by rewrite IH by set_solver.
Qed.

Lemma cursor_from_ptr_middle l p k :
  p ∉ l -> cursor_from_ptr (l ++ p :: k) p = Ret (length l).
Proof. intros ?. unfold cursor_from_ptr. by rewrite position_middle. Qed.

Lemma cursor_get_middle l p k : cursor_get (l ++ p :: k) (length l) = Some p.
Proof. apply lookup_app_middle. Qed.

Lemma cursor_get_null l : cursor_get l (length l) = None.
Proof. by apply lookup_ge_None. Qed.

Lemma peek_next_middle l p k : peek_next (l ++ p :: k) (length l) = head k.
Proof.
  unfold peek_next, cursor_get, move_next. rewrite length_app. simpl.
  rewrite decide_False by lia. rewrite lookup_app_r by lia.
  replace (S (length l) - length l)%nat with 1%nat by lia. by destruct k.
Qed.

Lemma peek_prev_app l k : peek_prev (l ++ k) (length l) = last l.
Proof.
  unfold peek_prev, cursor_get.
  destruct l as [|q l] using rev_ind; simpl.
  - by apply lookup_ge_None.
  - rewrite length_app, last_snoc. simpl. rewrite Nat.add_1_r. simpl.
    rewrite <-app_assoc. apply lookup_app_middle.
Qed.

Lemma cursor_remove_middle l p k :
  cursor_remove (l ++ p :: k) (length l) = (Some p, l ++ k).
Proof. unfold cursor_remove. by rewrite lookup_app_middle, delete_middle. Qed.

Lemma insert_before_app l k p :
  insert_before (l ++ k) (length l) p = (l ++ p :: k, S (length l)).
Proof. unfold insert_before. by rewrite take_app_length, drop_app_length. Qed.

Lemma is_linked_true l p : is_linked l p = true <-> p ∈ l.
Proof. apply bool_decide_eq_true. Qed.

Lemma is_linked_false l p : is_linked l p = false <-> p ∉ l.
Proof. apply bool_decide_eq_false. Qed.
End intrusive_list.

#[global] Arguments cursor_remove : simpl never.
#[global] Arguments cursor_get : simpl never.
#[global] Arguments insert_before : simpl never.
#[global] Arguments peek_next : simpl never.
#[global] Arguments peek_prev : simpl never.
