(* ===== verification/RootAllocator.v ===== *)
(** The root allocator of physical memory
    ([kernel/src/mm/root_allocator.rs]): its data and its operations. Runs
    live in the tracking pages, so they are a store indexed by address, and
    the three intrusive lists are lists of such addresses. *)
From S2P Require Import Prelude Address IntrusiveList.

(** * Data *)

Inductive Status := Free | Allocated | Tracking | Unused.

#[export] Instance Status_eq_dec : EqDecision Status.
Proof. solve_decision. Defined.

Record RunState := MkRunState { range : PageFrameRange; status : Status }.

#[export] Instance RunState_eq_dec : EqDecision RunState.
Proof. solve_decision. Defined.

(** [UnsafeRef<Run>]: the address of a [Run]. *)
Abbreviation RunPtr := Z (only parsing).

(** [AllocatorInner] and its [AllocatorTracking], with the memory that
    holds the runs. *)
Record AllocatorInner := MkAllocatorInner {
  memory : gmap RunPtr RunState;
  runs : list RunPtr;
  free : list RunPtr;
  unused_runs : list RunPtr;
}.

Definition with_state (s : AllocatorInner) (p : RunPtr) (st : RunState) : AllocatorInner :=
  MkAllocatorInner (<[p := st]> (memory s)) (runs s) (free s) (unused_runs s).
Definition with_runs (s : AllocatorInner) (l : list RunPtr) : AllocatorInner :=
  MkAllocatorInner (memory s) l (free s) (unused_runs s).
Definition with_free (s : AllocatorInner) (l : list RunPtr) : AllocatorInner :=
  MkAllocatorInner (memory s) (runs s) l (unused_runs s).
Definition with_unused (s : AllocatorInner) (l : list RunPtr) : AllocatorInner :=
  MkAllocatorInner (memory s) (runs s) (free s) l.

(** Size in page frames of the scratch and tracking regions. *)
Definition SCRATCH_PAGES : Z := 2.
Definition MIN_TRACKING_PAGES : Z := 2.

Section operations.
Context `{Profile}.
Implicit Types (s : AllocatorInner) (p : RunPtr).

(** ** [Run] *)

(** [run.inner.borrow()]. *)
Definition run_state s p : rust RunState := deref (memory s !! p).

(** [free_link] and [link]; the latter is shared by [runs] and
    [unused_runs]. *)
Definition free_link_is_linked s p : bool := is_linked (free s) p.
Definition link_is_linked s p : bool := is_linked (runs s ++ unused_runs s) p.

Definition run_extend_left s p (amount : Z) : rust AllocatorInner :=
  st ← run_state s p;
  r ← extend_left (range st) amount;
  Ret (with_state s p (MkRunState r (status st))).

Definition run_extend_right s p (amount : Z) : rust AllocatorInner :=
  st ← run_state s p;
  r ← extend_right (range st) amount;
  Ret (with_state s p (MkRunState r (status st))).

Definition initialize s p (r : PageFrameRange) (status' : Status) : rust AllocatorInner :=
  st ← run_state s p;
  _ ← debug_assert (bool_decide (status st = Unused));
  Ret (with_state s p (MkRunState r status')).

(** ** [coalesce] *)

(** Unlinks the run at [i] (that is, [current]) from the free list if it
    is in it, and from [runs]; both halves of [coalesce] do this before
    they widen the neighbour. *)
Definition unlink_current s (i : nat) p (st : RunState) : rust AllocatorInner :=
  s ← (if decide (status st = Free) then
         _ ← debug_assert (free_link_is_linked s p);
         j ← cursor_from_ptr (free s) p;
         Ret (with_free s (cursor_remove (free s) j).2)
       else Ret s);
  Ret (with_runs s (cursor_remove (runs s) i).2).

Definition coalesce_next s (i : nat) : rust AllocatorInner :=
  match cursor_get (runs s) i with
  | None => Ret s
  | Some p =>
      current ← run_state s p;
      can_coalesce_next ←
        match peek_next (runs s) i with
        | Some n =>
            next ← run_state s n;
            if decide (status next = status current) then
              e ← range_end (range current);
              Ret (bool_decide (start (range next) = e))
            else Ret false
        | None => Ret false
        end;
      if can_coalesce_next : bool then
        let size := size (range current) in
        s ← unlink_current s i p current;
        n ← expect (cursor_get (runs s) i);
        s ← run_extend_left s n size;
        Ret (with_unused s (unused_runs s ++ [p]))
      else Ret s
  end.

Definition coalesce_prev s (i : nat) : rust AllocatorInner :=
  match cursor_get (runs s) i with
  | None => Ret s
  | Some p =>
      current ← run_state s p;
      can_coalesce_prev ←
        match peek_prev (runs s) i with
        | Some q =>
            prev ← run_state s q;
            if decide (status prev = status current) then
              e ← range_end (range prev);
              Ret (bool_decide (e = start (range current)))
            else Ret false
        | None => Ret false
        end;
      if can_coalesce_prev : bool then
        let size := size (range current) in
        s ← unlink_current s i p current;
        q ← expect (cursor_get (runs s) (move_prev (runs s) i));
        s ← run_extend_right s q size;
        Ret (with_unused s (unused_runs s ++ [p]))
      else Ret s
  end.

(** The cursor stays at position [i] from one half to the next: removing
    the current run moves it to the run that follows. *)
Definition coalesce s (i : nat) : rust AllocatorInner :=
  s ← coalesce_next s i;
  coalesce_prev s i.

(** ** [find_next] and [add_run] *)

Fixpoint find_next_from s (l : list RunPtr) (i : nat) (run_start : Z) : rust nat :=
  match l with
  | [] => Ret i
  | r :: l =>
      st ← run_state s r;
      if decide (as_usize (start (range st)) < run_start)
      then find_next_from s l (S i) run_start
      else Ret i
  end.

Definition find_next s p : rust nat :=
  st ← run_state s p;
  find_next_from s (runs s) (front (runs s)) (as_usize (start (range st))).

(** The three assertions that [run] does not overlap its neighbours. *)
Definition assert_no_overlap s (i : nat) (run : RunState) : rust unit :=
  _ ← match cursor_get (runs s) i with
      | Some n =>
          next ← run_state s n;
          e ← range_end (range run);
          rassert (bool_decide (as_usize e <= as_usize (start (range next))))
      | None =>
          match peek_prev (runs s) i with
          | Some l =>
              last ← run_state s l;
              e ← range_end (range last);
              rassert (bool_decide (as_usize e <= as_usize (start (range run))))
          | None => Ret tt
          end
      end;
  match peek_prev (runs s) i with
  | Some q =>
      prev ← run_state s q;
      e ← range_end (range prev);
      rassert (bool_decide (as_usize e <= as_usize (start (range run))))
  | None => Ret tt
  end.

Definition add_run s p (i : nat) : rust AllocatorInner :=
  _ ← rassert (negb (link_is_linked s p));
  _ ← rassert (negb (free_link_is_linked s p));
  run ← run_state s p;
  let s := if decide (status run = Free) then with_free s (free s ++ [p]) else s in
  _ ← assert_no_overlap s i run;
  let should_coalesce := negb (bool_decide (status run = Allocated)) in
  let '(l, i) := insert_before (runs s) i p in
  let s := with_runs s l in
  if should_coalesce then coalesce s (move_prev (runs s) i) else Ret s.

(** ** [allocate] and [deallocate] *)

(** The first-fit search over the free list. *)
Fixpoint find_free s (l : list RunPtr) (i : nat) (count : Z) : rust (option (nat * RunPtr)) :=
  match l with
  | [] => Ret None
  | p :: l =>
      st ← run_state s p;
      if decide (count <= size (range st)) then Ret (Some (i, p))
      else find_free s l (S i) count
  end.

Definition allocate s (count : Z) : rust (AllocatorInner * result PageFrameRange Error) :=
  free_cursor ← find_free s (free s) (front (free s)) count;
  match free_cursor with
  | None => Ret (s, Err (MkError InsufficientMemory))
  | Some (j, p) =>
      run ← run_state s p;
      if decide (size (range run) = count) then
        let s := with_state s p (MkRunState (range run) Allocated) in
        Ret (with_free s (cursor_remove (free s) j).2, Ok (range run))
      else
        let r := from_start_size (start (range run)) count in
        rest ← shrink_left (range run) count;
        let s := with_state s p (MkRunState rest (status run)) in
        match pop_front (unused_runs s) with
        | None => Panic ExpectFailed
        | Some (q, unused) =>
            let s := with_unused s unused in
            s ← initialize s q r Allocated;
            i ← cursor_from_ptr (runs s) p;
            s ← add_run s q i;
            Ret (s, Ok r)
        end
  end.

(** The first run, in order, whose range is [r]. *)
Fixpoint find_run s (l : list RunPtr) (i : nat) (r : PageFrameRange)
    : rust (option (nat * RunPtr)) :=
  match l with
  | [] => Ret None
  | p :: l =>
      st ← run_state s p;
      if decide (range st = r) then Ret (Some (i, p)) else find_run s l (S i) r
  end.

Definition deallocate s (r : PageFrameRange) : rust (AllocatorInner * result unit Error) :=
  cursor ← find_run s (runs s) (front (runs s)) r;
  match cursor with
  | None => Ret (s, Err (MkError AddressOutOfBounds))
  | Some (i, p) =>
      run ← run_state s p;
      if decide (status run <> Allocated) then Ret (s, Err (MkError InvalidAddress))
      else
        let s := with_state s p (MkRunState (range run) Free) in
        let s := with_free s (p :: free s) in
        s ← coalesce s i;
        Ret (s, Ok tt)
  end.

(** ** Initialisation *)

Definition new_allocator : AllocatorInner := MkAllocatorInner ∅ [] [] [].

Definition add_allocatable_range s (r : PageFrameRange) : rust AllocatorInner :=
  match pop_front (unused_runs s) with
  | None => Panic NotImplemented
  | Some (p, unused) =>
      let s := with_unused s unused in
      _ ← run_state s p;
      let s := with_state s p (MkRunState r Free) in
      i ← find_next s p;
      add_run s p i
  end.

(** Writes [n] fresh runs from address [ptr] on; [run_size] is
    [mem::size_of::<Run>()], which the compiler chooses. *)
Fixpoint write_runs (run_size : Z) s (ptr : RunPtr) (n : nat) : AllocatorInner :=
  match n with
  | O => s
  | S n =>
      let s := with_state s ptr (MkRunState empty Unused) in
      let s := with_unused s (unused_runs s ++ [ptr]) in
      write_runs run_size s (ptr + run_size) n
  end.

(** The size of [Layout::array::<Run>(n)], which is limited to
    [isize::MAX]. *)
Definition layout_array (run_size n : Z) : option Z :=
  if decide (n * run_size < 2 ^ 63) then Some (n * run_size) else None.

Definition init_tracking_space (run_size : Z) s (access : MemoryAccess)
    (r : PageFrameRange) : rust (AllocatorInner * result unit Error) :=
  bytes ← size_bytes r;
  let run_count := bytes / run_size in
  match layout_array run_size run_count with
  | None => Ret (s, Err (MkError AddressOutOfBounds))
  | Some layout =>
      bytes' ← size_bytes r;
      _ ← rassert (bool_decide (layout <= bytes'));
      ptr ← map_permanent access r;
      match ptr with
      | Err e => Ret (s, Err e)
      | Ok ptr =>
          let s := write_runs run_size s ptr (Z.to_nat run_count) in
          '(p, unused) ← expect (pop_front (unused_runs s));
          let s := with_unused s unused in
          s ← initialize s p r Tracking;
          i ← find_next s p;
          s ← add_run s p i;
          Ret (s, Ok tt)
      end
  end.
End operations.

(** * [Allocator::build] *)

Section build.
Context `{Profile}.

(** [ranges.sort_unstable_by_key(|r| r.start())]: the standard library
    leaves the order of equal keys open. *)
Variable sort_by_start : list PageFrameRange -> list PageFrameRange.

(** One region's verdict in the [find_map] that looks for scratch space:
    the scratch range and the initial tracking range. *)
Fixpoint reserved_intersects (reserved : list PageFrameRange) (r : Region) : rust bool :=
  match reserved with
  | [] => Ret false
  | reserved_region :: reserved =>
      a ← address_range (A := PhysicalAddress) reserved_region;
      b ← region_range r;
      i ← intersects a b;
      if i : bool then Ret true else reserved_intersects reserved r
  end.

Definition scratch_in (reserved : list PageFrameRange) (r : Region)
    : rust (option (PageFrameRange * PageFrameRange)) :=
  if usable r then
    n ← region_size r;
    if decide ((MIN_TRACKING_PAGES + SCRATCH_PAGES) * PAGE_SIZE <= n) then
      blocked ← reserved_intersects reserved r;
      if blocked : bool then Ret None
      else
        match from_start (P := PageFrame) (region_start r) with
        | Err _ => Panic ExpectFailed
        | Ok start_pf =>
            let initial_tracking := from_start_size start_pf SCRATCH_PAGES in
            e ← range_end initial_tracking;
            let scratch := from_start_size e MIN_TRACKING_PAGES in
            Ret (Some (scratch, initial_tracking))
        end
    else Ret None
  else Ret None.

Fixpoint find_scratch (reserved : list PageFrameRange) (memory_map : list Region)
    : rust (option (PageFrameRange * PageFrameRange)) :=
  match memory_map with
  | [] => Ret None
  | r :: memory_map =>
      o ← scratch_in reserved r;
      match o with
      | Some found => Ret (Some found)
      | None => find_scratch reserved memory_map
      end
  end.

(** The page-frame range of one usable region, less the pages that the
    initial tracking range takes from its start. *)
Definition region_pages (initial_tracking : PageFrameRange) (r : Region)
    : rust PageFrameRange :=
  match from_start (P := PageFrame) (region_start r) with
  | Err _ => Panic ExpectFailed
  | Ok start_pf =>
      n ← region_size r;
      _ ← rassert (bool_decide (n mod PAGE_SIZE = 0));
      let range := from_start_size start_pf (n / PAGE_SIZE) in
      if decide (start range = start initial_tracking)
      then shrink_left range MIN_TRACKING_PAGES
      else Ret range
  end.

Fixpoint collect_ranges (initial_tracking : PageFrameRange) (memory_map : list Region)
    : rust (list PageFrameRange) :=
  match memory_map with
  | [] => Ret []
  | r :: memory_map =>
      if usable r then
        range ← region_pages initial_tracking r;
        ranges ← collect_ranges initial_tracking memory_map;
        Ret (range :: ranges)
      else collect_ranges initial_tracking memory_map
  end.

(** The loop that combines overlapping ranges. Every iteration either
    removes an element or advances [i], so [length ranges] iterations are
    enough; running out of fuel would be an endless loop. *)
Fixpoint combine_loop (fuel : nat) (ranges : list PageFrameRange) (i : nat)
    : rust (list PageFrameRange) :=
  if decide (i < length ranges)%nat then
    match fuel with
    | O => Panic EndlessLoop
    | S fuel =>
        prev ← index ranges (i - 1);
        cur ← index ranges i;
        b ← intersects prev cur;
        if b : bool then
          e ← range_end cur;
          new_size ← distance e (start prev);
          let ranges := delete i ranges in
          combine_loop fuel (<[(i - 1)%nat := set_size prev new_size]> ranges) i
        else combine_loop fuel ranges (S i)
    end
  else Ret ranges.

Fixpoint add_allocatable_ranges s (ranges : list PageFrameRange) : rust AllocatorInner :=
  match ranges with
  | [] => Ret s
  | r :: ranges => s ← add_allocatable_range s r; add_allocatable_ranges s ranges
  end.

(** The closure run with the scratch memory mapped; the scratch heap that
    backs the vector of ranges is not modelled. *)
Definition build_inner (run_size : Z) (initial_tracking : PageFrameRange)
    (memory_map : list Region) (access : MemoryAccess) (ptr len : Z)
    : rust (result AllocatorInner Error) :=
  ranges ← collect_ranges initial_tracking memory_map;
  let ranges := sort_by_start ranges in
  ranges ← combine_loop (length ranges) ranges 1;
  '(s, res) ← init_tracking_space run_size new_allocator access initial_tracking;
  match res with
  | Err e => Ret (Err e)
  | Ok _ => s ← add_allocatable_ranges s ranges; Ret (Ok s)
  end.

Definition build (run_size : Z) (access : MemoryAccess) (memory_map : list Region)
    (reserved : list PageFrameRange) : rust (result AllocatorInner Error) :=
  found ← find_scratch reserved memory_map;
  match found with
  | None => Ret (Err (MkError InsufficientMemory))
  | Some (scratch, initial_tracking) =>
      r ← with_memory access scratch (build_inner run_size initial_tracking memory_map);
      match r with
      | Err e => Ret (Err e)
      | Ok r => Ret r
      end
  end.
End build.
