(* ===== verification/Blocks.v ===== *)
(** What the run list of the root allocator means: an ordered list of
    disjoint blocks of page frames, and the status of every page frame.
    This file is the abstract specification that the allocator's operations
    are proved to refine, and the facts about it that do not mention
    pointers. *)
From S2P Require Import Prelude Address RootAllocator.

Implicit Types (a b : RunState) (bs k l : list RunState) (x pg : Z).

(** * Definitions *)

Definition block_lo b : Z := lo (range b).
Definition block_hi b : Z := hi (range b).
Definition block_size b : Z := size (range b).

Definition block (x n : Z) (st : Status) : RunState :=
  MkRunState (MkAddressRange (new x) n) st.

(** Blocks in increasing order, disjoint, all above [x] and within the
    address space. *)
Fixpoint ordered x bs : Prop :=
  match bs with
  | [] => True
  | b :: bs =>
      x <= block_lo b /\ 0 <= block_size b /\ block_hi b < usize_bound /\
      ordered (block_hi b) bs
  end.

(** Where the blocks of [bs] end, when they start above [x]. *)
Definition top x bs : Z := default x (block_hi <$> last bs).

(** Two neighbours that [coalesce] would join. *)
Definition mergeable a b : Prop := status a = status b /\ block_hi a = block_lo b.

#[export] Instance mergeable_dec a b : Decision (mergeable a b).
Proof. solve_decision. Defined.

Definition merge a b : RunState := block (block_lo a) (block_size a + block_size b) (status b).

(** No two neighbouring blocks could still be joined. Allocated blocks are
    never joined, so that each can be freed on its own. *)
Fixpoint coalesced bs : Prop :=
  match bs with
  | a :: (b :: _) as t => ~ (mergeable a b /\ status a <> Allocated) /\ coalesced t
  | _ => True
  end.

(** The status of one page frame: that of the block that covers it. *)
Fixpoint page_status bs pg : option Status :=
  match bs with
  | [] => None
  | b :: bs => if decide (block_lo b <= pg < block_hi b) then Some (status b)
               else page_status bs pg
  end.

Definition pages_with (st : Status) bs : Z :=
  foldr (fun b n => (if decide (status b = st) then block_size b else 0) + n) 0 bs.

(** [coalesce] on blocks: join [b] with the block after it, then with the
    one before it. *)
Definition merge_next b k : list RunState :=
  match k with
  | n :: k' => if decide (mergeable b n) then merge b n :: k' else b :: k
  | [] => [b]
  end.

Fixpoint merge_prev l b k : list RunState :=
  match l with
  | [] => b :: k
  | [a] => if decide (mergeable a b) then merge a b :: k else a :: b :: k
  | a :: l => a :: merge_prev l b k
  end.

Definition coalesce_blocks l b k : list RunState :=
  match merge_next b k with
  | b' :: k' => merge_prev l b' k'
  | [] => l
  end.

(** * Facts *)

Lemma block_lo_block x n st : block_lo (block x n st) = x.
Proof. apply lo_new. Qed.
Lemma block_hi_block x n st : block_hi (block x n st) = x + n.
Proof. apply hi_new. Qed.
Lemma block_hi_eq b : block_hi b = block_lo b + block_size b.
Proof. done. Qed.
Lemma block_lo_merge a b : block_lo (merge a b) = block_lo a.
Proof. apply lo_new. Qed.
Lemma block_hi_merge a b :
  block_hi a = block_lo b -> block_hi (merge a b) = block_hi b.
Proof.
  unfold merge. rewrite block_hi_block. rewrite !block_hi_eq. lia.
Qed.
Lemma block_eq a b :
  block_lo a = block_lo b -> block_size a = block_size b -> status a = status b -> a = b.
Proof.
  destruct a as [r st], b as [r' st']. unfold block_lo, block_size.
  cbn [range status]. intros ?? ->. f_equal. by apply range_eq.
Qed.
Create Rewrite HintDb block_rw.
#[export] Hint Rewrite block_lo_block block_hi_block block_lo_merge : block_rw.

Lemma ordered_weaken x y bs : y <= x -> ordered x bs -> ordered y bs.
Proof. destruct bs; simpl; [done|]. intuition lia. Qed.

Lemma top_cons x b bs : top x (b :: bs) = top (block_hi b) bs.
Proof.
  unfold top. destruct bs as [|c bs]; [done|]. rewrite last_cons_cons.
  destruct (last (c :: bs)) eqn:E; [done|]. by apply last_None in E.
Qed.

Lemma top_snoc x bs b : top x (bs ++ [b]) = block_hi b.
Proof. unfold top. by rewrite last_snoc. Qed.

Lemma top_ge x bs : ordered x bs -> x <= top x bs.
Proof.
  revert x. induction bs as [|b bs IH]; intros x; [done|]. simpl.
  rewrite top_cons. intros (?&?&?&Ho). pose proof (IH _ Ho).
  assert (block_hi b = block_lo b + block_size b) by done. lia.
Qed.

Lemma ordered_app x l k : ordered x (l ++ k) <-> ordered x l /\ ordered (top x l) k.
Proof.
  revert x. induction l as [|b l IH]; intros x; simpl; [by intuition|].
  rewrite IH, top_cons. tauto.
Qed.

Lemma ordered_block_wf x bs b :
  0 <= x -> ordered x bs -> b ∈ bs -> range_wf (range b) /\ x <= block_lo b.
Proof.
  intros Hx Ho Hb. revert x Hx Ho. induction bs as [|c bs IH]; [set_solver|].
  intros x Hx (?&?&?&Ho).
  assert (block_hi c = block_lo c + block_size c) by apply block_hi_eq.
  apply elem_of_cons in Hb as [->|Hb].
  - unfold range_wf, block_lo, block_size, block_hi in *. lia.
  - destruct (IH Hb (block_hi c)) as [? ?]; [lia|done|]. split; [done|lia].
Qed.

Lemma coalesced_app l b k :
  coalesced (l ++ b :: k) <-> coalesced (l ++ [b]) /\ coalesced (b :: k).
Proof.
  induction l as [|a l IH]; simpl; [tauto|].
  destruct l as [|a' l]; simpl in *; tauto.
Qed.

Lemma coalesced_snoc2 l a b :
  coalesced (l ++ [a; b]) <-> coalesced (l ++ [a]) /\ ~ (mergeable a b /\ status a <> Allocated).
Proof. rewrite coalesced_app. simpl. tauto. Qed.

Lemma coalesced_cons b k : coalesced (b :: k) -> coalesced k.
Proof. destruct k; simpl; tauto. Qed.

Lemma coalesced_app_l l k : coalesced (l ++ k) -> coalesced l.
Proof.
  induction l as [|a l IH]; [done|]. destruct l as [|b l]; [done|].
  simpl in *. tauto.
Qed.

Lemma page_status_app l k pg :
  page_status (l ++ k) pg =
  match page_status l pg with Some st => Some st | None => page_status k pg end.
Proof. induction l as [|b l IH]; simpl; [done|]. by case_decide. Qed.

Lemma page_status_below x bs pg : ordered x bs -> pg < x -> page_status bs pg = None.
Proof.
  revert x. induction bs as [|b bs IH]; intros x; simpl; [done|].
  intros (?&?&?&Ho) ?. assert (block_hi b = block_lo b + block_size b) by done.
  rewrite decide_False by lia. apply (IH _ Ho). lia.
Qed.

Lemma page_status_above x bs pg : ordered x bs -> top x bs <= pg -> page_status bs pg = None.
Proof.
  revert x. induction bs as [|b bs IH]; intros x; simpl; [done|].
  rewrite top_cons. intros (?&?&?&Ho) ?. pose proof (top_ge _ _ Ho).
  rewrite decide_False by lia. by apply (IH _ Ho).
Qed.

(** The pages of one block of an ordered list have that block's status. *)
Lemma page_status_middle x l b k pg :
  ordered x (l ++ b :: k) -> block_lo b <= pg < block_hi b ->
  page_status (l ++ b :: k) pg = Some (status b).
Proof.
  intros Ho Hpg. rewrite page_status_app. apply ordered_app in Ho as [Hl Hb].
  destruct Hb as (?&?). rewrite (page_status_above _ _ _ Hl) by lia.
  simpl. by rewrite decide_True.
Qed.

Lemma page_status_outside l b k pg :
  ~ (block_lo b <= pg < block_hi b) ->
  page_status (l ++ b :: k) pg = page_status (l ++ k) pg.
Proof. intros ?. rewrite !page_status_app. simpl. by rewrite decide_False. Qed.

Lemma page_status_inv bs pg st :
  page_status bs pg = Some st ->
  exists b, b ∈ bs /\ status b = st /\ block_lo b <= pg < block_hi b.
Proof.
  induction bs as [|b bs IH]; simpl; [done|]. case_decide.
  - intros [= <-]. exists b. set_solver.
  - intros (c&?&?&?)%IH. exists c. set_solver.
Qed.

Lemma pages_with_app st l k : pages_with st (l ++ k) = pages_with st l + pages_with st k.
Proof. induction l as [|b l IH]; simpl; [done|]. rewrite IH. lia. Qed.

(** ** Coalescing *)

Lemma merge_prev_snoc l a b k :
  merge_prev (l ++ [a]) b k =
  l ++ (if decide (mergeable a b) then merge a b :: k else a :: b :: k).
Proof.
  induction l as [|c l IH]; [done|]. simpl. rewrite IH. by destruct l.
Qed.

(** Both halves replace two mergeable neighbours by their union, or change
    nothing. *)
Lemma merge_next_cases b k :
  (exists n k', k = n :: k' /\ mergeable b n /\ merge_next b k = merge b n :: k') \/
  ((forall n k', k = n :: k' -> ~ mergeable b n) /\ merge_next b k = b :: k).
Proof.
  destruct k as [|n k]; simpl; [right; naive_solver|].
  case_decide; [left; eauto|right; naive_solver].
Qed.

Lemma merge_prev_cases l b k :
  (exists l' a, l = l' ++ [a] /\ mergeable a b /\ merge_prev l b k = l' ++ merge a b :: k) \/
  ((forall l' a, l = l' ++ [a] -> ~ mergeable a b) /\ merge_prev l b k = l ++ b :: k).
Proof.
  destruct l as [|a l _] using rev_ind; [right; split; [intros [] ?|]; done|].
  rewrite merge_prev_snoc. case_decide.
  - left. eauto.
  - right. split; [|by rewrite <-app_assoc]. intros l' a' [_ ->]%app_inj_tail. done.
Qed.

Section merging.
Context (x : Z) (l k : list RunState) (a b : RunState).
Hypothesis Hord : ordered x (l ++ a :: b :: k).
Hypothesis Hmerge : mergeable a b.

Let merged := l ++ merge a b :: k.

Lemma merge_sizes :
  0 <= block_size a /\ 0 <= block_size b /\
  block_lo (merge a b) = block_lo a /\ block_hi (merge a b) = block_hi b /\
  block_hi a = block_lo b /\ block_lo a <= block_hi a <= block_hi b.
Proof.
  pose proof (proj1 (ordered_app _ _ _) Hord) as [_ (?&?&?&?&?&?&?)].
  pose proof Hmerge as [_ E].
  assert (block_hi b = block_lo b + block_size b) by done.
  assert (block_hi a = block_lo a + block_size a) by done.
  rewrite block_lo_merge, block_hi_merge by done. lia.
Qed.

Lemma merge_ordered : ordered x merged.
Proof.
  pose proof merge_sizes as (?&?&El&Eh&?&?).
  pose proof (proj1 (ordered_app _ _ _) Hord) as [? (?&?&?&?&?&?&?)].
  apply ordered_app. split; [done|]. cbn [ordered]. rewrite El, Eh.
  repeat split; try done. unfold merge, block, block_size; simpl.
  unfold block_size in *. lia.
Qed.

Lemma merge_page_status pg :
  page_status merged pg = page_status (l ++ a :: b :: k) pg.
Proof.
  pose proof merge_sizes as (?&?&El&Eh&?&?). unfold merged.
  rewrite !page_status_app. destruct (page_status l pg); [done|].
  cbn [page_status]. rewrite El, Eh. pose proof Hmerge as [Es _].
  repeat case_decide; try lia; rewrite ?Es; done.
Qed.

Lemma merge_pages_with st :
  pages_with st merged = pages_with st (l ++ a :: b :: k).
Proof.
  unfold merged. rewrite !pages_with_app. simpl.
  pose proof Hmerge as [-> _].
  change (block_size (merge a b)) with (block_size a + block_size b).
  case_decide; lia.
Qed.
End merging.

Lemma coalesced_join l b k :
  coalesced (l ++ [b]) -> coalesced (b :: k) -> coalesced (l ++ b :: k).
Proof. intros. by apply coalesced_app. Qed.

(** An unmergeable end can be appended to a coalesced list. *)
Lemma coalesced_snoc l b :
  coalesced l ->
  (forall l' a, l = l' ++ [a] -> ~ (mergeable a b /\ status a <> Allocated)) ->
  coalesced (l ++ [b]).
Proof.
  intros Hl Hn. destruct l as [|a l _] using rev_ind; [done|].
  rewrite <-app_assoc. apply coalesced_snoc2. split; [done|]. by eapply Hn.
Qed.

Lemma coalesced_head_cons b k :
  coalesced k -> (forall n k', k = n :: k' -> ~ mergeable b n) -> coalesced (b :: k).
Proof.
  intros Hk Hn. destruct k as [|n k]; [done|]. split; [|done].
  intros [? _]. by eapply Hn.
Qed.

(** [coalesce] does not change which pages have which status, keeps the
    blocks in order, and leaves nothing to coalesce around the block. *)
Record same_pages x bs bs' : Prop := {
  same_ordered : ordered x bs';
  same_status pg : page_status bs' pg = page_status bs pg;
  same_count st : pages_with st bs' = pages_with st bs;
}.

Lemma same_pages_refl x bs : ordered x bs -> same_pages x bs bs.
Proof. by split. Qed.

Lemma same_pages_trans x l k bs :
  same_pages x l k -> same_pages x k bs -> same_pages x l bs.
Proof.
  intros [???] [???]. split; [done|..]; intros; congruence.
Qed.

Lemma merge_same_pages x l a b k :
  ordered x (l ++ a :: b :: k) -> mergeable a b ->
  same_pages x (l ++ a :: b :: k) (l ++ merge a b :: k).
Proof.
  intros. split.
  - by apply merge_ordered.
  - intros. by eapply merge_page_status.
  - intros. by apply merge_pages_with.
Qed.

Lemma merge_next_same_pages x l b k :
  ordered x (l ++ b :: k) -> same_pages x (l ++ b :: k) (l ++ merge_next b k).
Proof.
  intros Ho. destruct (merge_next_cases b k) as [(n&k'&->&?&->)|[_ ->]].
  - by apply merge_same_pages.
  - by apply same_pages_refl.
Qed.

Lemma merge_prev_same_pages x l b k :
  ordered x (l ++ b :: k) -> same_pages x (l ++ b :: k) (merge_prev l b k).
Proof.
  intros Ho. destruct (merge_prev_cases l b k) as [(l'&a&->&?&->)|[_ ->]].
  - rewrite <-app_assoc in *. by apply merge_same_pages.
  - by apply same_pages_refl.
Qed.

Lemma coalesce_blocks_same_pages x l b k :
  ordered x (l ++ b :: k) -> same_pages x (l ++ b :: k) (coalesce_blocks l b k).
Proof.
  intros Ho. pose proof (merge_next_same_pages _ _ _ _ Ho) as Hn.
  unfold coalesce_blocks.
  destruct (merge_next_cases b k) as [(n&k'&->&?&E)|[_ E]]; rewrite E in *;
    (eapply same_pages_trans; [exact Hn|]; apply merge_prev_same_pages, Hn).
Qed.

Lemma merge_next_coalesced b k : coalesced k -> coalesced (merge_next b k).
Proof.
  intros Hk. destruct (merge_next_cases b k) as [(n&k'&->&Hm&->)|[Hn ->]].
  - destruct k' as [|m k']; [done|]. destruct Hk as [Hk ?]. split; [|done].
    unfold mergeable in *. rewrite block_hi_merge by apply Hm. done.
  - by apply coalesced_head_cons.
Qed.

Lemma merge_prev_coalesced l b k :
  status b <> Allocated -> coalesced l -> coalesced (b :: k) ->
  coalesced (merge_prev l b k).
Proof.
  intros Hb Hl Hk. destruct (merge_prev_cases l b k) as [(l'&a&->&Hm&->)|[Hn ->]].
  - apply coalesced_join.
    + apply coalesced_snoc; [by eapply coalesced_app_l|].
      intros l'' c -> [[Es Eh] ?]. rewrite block_lo_merge in Eh.
      rewrite <-app_assoc in Hl. apply coalesced_snoc2 in Hl as [_ []].
      destruct Hm as [Hs _]. simpl in Es. split; [split|]; congruence.
    + destruct k as [|n k]; [done|]. destruct Hk as [Hk ?]. split; [|done].
      unfold mergeable in *. rewrite block_hi_merge by apply Hm. done.
  - apply coalesced_join; [|done]. apply coalesced_snoc; [done|].
    intros l' a -> [? _]. by eapply Hn.
Qed.

Lemma merge_next_head b k :
  exists b' k', merge_next b k = b' :: k' /\ status b' = status b /\ block_lo b' = block_lo b.
Proof.
  destruct (merge_next_cases b k) as [(n&k'&->&[? ?]&->)|[_ ->]].
  - eexists _, _. split; [done|]. rewrite block_lo_merge. done.
  - eauto.
Qed.

Lemma coalesce_blocks_coalesced l b k :
  status b <> Allocated -> coalesced l -> coalesced k -> coalesced (coalesce_blocks l b k).
Proof.
  intros Hb Hl Hk. pose proof (merge_next_coalesced b k Hk) as Hn.
  unfold coalesce_blocks. destruct (merge_next_head b k) as (b'&k'&E&Es&_).
  rewrite E in *. apply merge_prev_coalesced; [congruence|done..].
Qed.

(** Nothing happens around a block that is already coalesced. *)
Lemma coalesce_blocks_id l b k :
  status b <> Allocated -> coalesced (l ++ b :: k) -> coalesce_blocks l b k = l ++ b :: k.
Proof.
  intros Hb [Hl Hk]%coalesced_app. unfold coalesce_blocks.
  destruct (merge_next_cases b k) as [(n&k'&->&?&_)|[_ ->]].
  { destruct Hk as [[] _]. done. }
  destruct (merge_prev_cases l b k) as [(l'&a&->&[? ?]&_)|[_ ->]]; [|done].
  rewrite <-app_assoc in Hl. apply coalesced_snoc2 in Hl as [_ []].
  split; [done|congruence].
Qed.
