(* ===== verification/RootAllocatorLinks.v ===== *)
(** How the root allocator's pointer structure represents a block list: the
    representation relation [linked], and for each operation the block-level
    function that it computes on represented states. *)
From S2P Require Import Prelude Address IntrusiveList RootAllocator Blocks.

Implicit Types (s : AllocatorInner) (p q : Z) (m : gmap Z RunState).
Implicit Types (b : RunState) (l k bs : list RunState).

(** * The representation relation *)

(** The runs at the pointers [ps] hold the blocks [bs]. *)
Definition holds m (ps : list Z) bs : Prop := Forall2 (fun p b => m !! p = Some b) ps bs.

(** [s] represents the block list [bs]: its run list holds the blocks, its
    free list has exactly the runs whose status is [Free], once each, and no
    run is in two lists that share a link. *)
Record linked s bs : Prop := {
  linked_runs : holds (memory s) (runs s) bs;
  linked_unused : Forall (fun p => is_Some (memory s !! p)) (unused_runs s);
  linked_nodup : NoDup (runs s ++ unused_runs s);
  linked_free_nodup : NoDup (free s);
  linked_free p : p ∈ free s <->
    p ∈ runs s /\ exists b, memory s !! p = Some b /\ status b = Free;
}.

(** * Facts about [holds] *)

Lemma holds_lookup m ps bs p : holds m ps bs -> p ∈ ps -> exists b, b ∈ bs /\ m !! p = Some b.
Proof.
  induction 1 as [|q b ps bs Hq _ IH]; [set_solver|].
  intros [->|Hp]%elem_of_cons; [exists b; set_solver|].
  destruct (IH Hp) as (c&?&?). exists c. set_solver.
Qed.

Lemma holds_insert m ps bs p b : p ∉ ps -> holds m ps bs -> holds (<[p := b]> m) ps bs.
Proof.
  intros Hp Hm. induction Hm as [|q c ps bs Hq _ IH]; constructor; [|set_solver].
  rewrite lookup_insert_ne; [done|set_solver].
Qed.

Lemma holds_app m ps ps' bs bs' :
  holds m ps bs -> holds m ps' bs' -> holds m (ps ++ ps') (bs ++ bs').
Proof. apply Forall2_app. Qed.

Lemma holds_cons m p ps b bs : m !! p = Some b -> holds m ps bs -> holds m (p :: ps) (b :: bs).
Proof. by constructor. Qed.

(** Splits a represented list where the block list is split. *)
Lemma holds_split m ps l b k :
  holds m ps (l ++ b :: k) ->
  exists pl p pk, ps = pl ++ p :: pk /\ m !! p = Some b /\ holds m pl l /\ holds m pk k.
Proof.
  intros (pl&ps'&?&Hk&->)%Forall2_app_inv_r.
  apply Forall2_cons_inv_r in Hk as (p&pk&?&?&->). eauto 10.
Qed.

(** ** Reading through the represented state *)

Section reading.
Context `{Profile}.

Lemma run_state_ok s p b : memory s !! p = Some b -> run_state s p = Ret b.
Proof. intros Hp. unfold run_state. by rewrite Hp. Qed.

Lemma linked_range_end bs b :
  ordered 0 bs -> b ∈ bs -> range_end (range b) = Ret (new (block_hi b)).
Proof. intros Ho Hb. apply range_end_ok. by eapply ordered_block_wf. Qed.
End reading.

Lemma linked_in_free s bs p b :
  linked s bs -> p ∈ runs s -> memory s !! p = Some b -> (p ∈ free s <-> status b = Free).
Proof. intros Hl Hp Hb. rewrite (linked_free _ _ Hl). naive_solver. Qed.

(** * Absorbing a run into its neighbour *)

(** The state after run [p] was unlinked, its pages added to run [q], and
    its structure kept for later use. *)
Lemma linked_absorb s bs pl pk p q l k c bp bq free' :
  linked s bs -> runs s ≡ₚ p :: q :: pl ++ pk ->
  holds (memory s) pl l -> holds (memory s) pk k ->
  memory s !! p = Some bp -> memory s !! q = Some bq ->
  status bp = status c -> status bq = status c ->
  (if decide (status c = Free) then free s ≡ₚ p :: free' else free' = free s) ->
  linked (MkAllocatorInner (<[q := c]> (memory s)) (pl ++ q :: pk) free' (unused_runs s ++ [p]))
         (l ++ c :: k).
Proof.
  intros Hl Hperm Hpl Hpk Hp Hq Hsp Hsq Hfree.
  pose proof (linked_nodup _ _ Hl) as Hnd. rewrite Hperm in Hnd.
  assert (Hq' : q ∉ pl ++ pk) by (apply NoDup_cons in Hnd as [_ Hnd]; apply NoDup_cons in Hnd; set_solver).
  assert (Hp' : p ∉ q :: pl ++ pk) by (apply NoDup_cons in Hnd; set_solver).
  assert (Hin : forall x, x ∈ runs s <-> x = p \/ x = q \/ x ∈ pl ++ pk)
    by (intros x; rewrite Hperm; set_solver).
  split; simpl.
  - apply holds_app; [apply holds_insert; set_solver|].
    apply holds_cons; [by rewrite lookup_insert_eq|apply holds_insert; set_solver].
  - apply Forall_app. split; [|constructor; [|done]].
    + eapply Forall_impl; [apply Hl|]. intros x Hx. simpl in Hx.
      destruct (decide (x = q)) as [->|]; [by rewrite lookup_insert_eq|by rewrite lookup_insert_ne].
    + rewrite lookup_insert_ne by set_solver. eauto.
  - assert (E : (pl ++ q :: pk) ++ unused_runs s ++ [p]
                ≡ₚ (p :: q :: pl ++ pk) ++ unused_runs s) by solve_Permutation.
    by rewrite E.
  - case_decide; [|subst; apply Hl].
    pose proof (linked_free_nodup _ _ Hl) as Hf. rewrite Hfree in Hf. by apply NoDup_cons in Hf as [_ ?].
  - intros x. pose proof (linked_free _ _ Hl x) as Hx. rewrite Hin in Hx.
    assert (Hpx : p ∉ free').
    { case_decide.
      - pose proof (linked_free_nodup _ _ Hl) as Hf. rewrite Hfree in Hf.
        by apply NoDup_cons in Hf as [? _].
      - subst. intros (?&b&?&?)%(linked_free _ _ Hl). congruence. }
    assert (Hfx : x ∈ free' <-> x ∈ free s /\ x <> p).
    { case_decide; [rewrite Hfree; set_solver|subst; set_solver]. }
    rewrite Hfx, Hx. destruct (decide (x = q)) as [->|Hne].
    + rewrite lookup_insert_eq. split.
      * intros [[_ (b&?&?)] _]. split; [set_solver|]. exists c. split; [done|congruence].
      * intros [_ (b&[= <-]&?)]. split; [|set_solver]. split; [set_solver|].
        exists bq. split; [done|congruence].
    + rewrite lookup_insert_ne by done. set_solver.
Qed.

(** * [coalesce] *)

(** All run structures the allocator owns, in use or not. *)
Definition pool s : list Z := runs s ++ unused_runs s.

Section coalesce.
Context `{Profile}.

Lemma unlink_current_ok s bs pl p pk b :
  linked s bs -> runs s = pl ++ p :: pk -> memory s !! p = Some b ->
  exists free',
    unlink_current s (length pl) p b =
      Ret (MkAllocatorInner (memory s) (pl ++ pk) free' (unused_runs s)) /\
    (if decide (status b = Free) then free s ≡ₚ p :: free' else free' = free s).
Proof.
  intros Hl Hr Hp. unfold unlink_current.
  assert (Hin : p ∈ runs s) by (rewrite Hr; set_solver).
  case_decide as Hf.
  - apply (linked_in_free _ _ _ _ Hl Hin Hp) in Hf.
    unfold free_link_is_linked. rewrite (proj2 (is_linked_true _ _) Hf), debug_assert_true.
    pose proof (linked_free_nodup _ _ Hl) as Hnd.
    apply list_elem_of_split in Hf as (f1&f2&Ef). rewrite Ef in Hnd |- *.
    apply NoDup_app in Hnd as (_&Hd&_).
    simpl. rewrite cursor_from_ptr_middle by (intros ?; by eapply Hd; set_solver).
    simpl. rewrite Hr, !delete_middle.
    eexists. split; [done|]. solve_Permutation.
  - simpl. rewrite Hr, delete_middle. eexists. split; [|done]. by destruct s.
Qed.

Lemma coalesce_next_ok s l b k :
  linked s (l ++ b :: k) -> ordered 0 (l ++ b :: k) ->
  exists s', coalesce_next s (length l) = Ret s' /\
    linked s' (l ++ merge_next b k) /\ pool s' ≡ₚ pool s.
Proof.
  intros Hl Ho. destruct (holds_split _ _ _ _ _ (linked_runs _ _ Hl)) as (pl&p&pk&Hr&Hp&Hpl&Hpk).
  rewrite <-(Forall2_length _ _ _ Hpl). unfold coalesce_next.
  rewrite Hr, cursor_get_middle, (run_state_ok _ _ _ Hp), peek_next_middle. simpl.
  destruct Hpk as [|n bn pk k Hn Hpk].
  { simpl. exists s. split; [done|]. split; [exact Hl|done]. }
  simpl. rewrite (run_state_ok _ _ _ Hn). simpl. destruct (decide (mergeable b bn)) as [[Es Eh]|Hm].
  - rewrite decide_True by done.
    rewrite (linked_range_end _ b Ho) by set_solver. simpl.
    rewrite bool_decide_true by (unfold block_lo, lo in Eh; rewrite Eh; by destruct (start (range bn))).
    destruct (unlink_current_ok _ _ _ _ _ _ Hl Hr Hp) as (free'&Hu&Hfree).
    rewrite Hu. simpl. rewrite cursor_get_middle. simpl.
    unfold run_extend_left, run_state. simpl. rewrite Hn. simpl.
    apply ordered_app in Ho as [Htop (?&?&?&?&?&?&_)]. apply top_ge in Htop.
    rewrite extend_left_ok; cycle 1.
    { unfold range_wf, block_lo, block_size, block_hi, hi in *. lia. }
    { unfold block_lo, block_size, block_hi, hi in *. lia. }
    simpl. eexists. split; [done|].
    assert (Em : MkRunState (MkAddressRange (new (lo (range bn) - size (range b)))
                   (size (range bn) + size (range b))) (status bn) = merge b bn).
    { unfold merge, block, block_lo, block_size, block_hi, hi in *. f_equal. f_equal; [f_equal|]; lia. }
    rewrite Em. split; [|unfold pool; simpl; rewrite Hr; solve_Permutation].
    apply (linked_absorb s (l ++ b :: bn :: k) pl pk p n l k (merge b bn) b bn free'); auto.
    { rewrite Hr. solve_Permutation. }
    { simpl. by rewrite <-Es. }
  - exists s. split; [|split; [exact Hl|done]].
    case_decide as Es; simpl; [|done].
    rewrite (linked_range_end _ b Ho) by set_solver. simpl.
    rewrite bool_decide_false; [done|]. intros E. apply Hm. split; [done|].
    unfold block_lo, lo. rewrite E. by rewrite as_usize_new.
Qed.

Lemma coalesce_prev_ok s l b k :
  linked s (l ++ b :: k) -> ordered 0 (l ++ b :: k) ->
  exists s', coalesce_prev s (length l) = Ret s' /\
    linked s' (merge_prev l b k) /\ pool s' ≡ₚ pool s.
Proof.
  intros Hl Ho. destruct (holds_split _ _ _ _ _ (linked_runs _ _ Hl)) as (pl&p&pk&Hr&Hp&Hpl&Hpk).
  rewrite <-(Forall2_length _ _ _ Hpl). unfold coalesce_prev.
  rewrite Hr, cursor_get_middle, (run_state_ok _ _ _ Hp), peek_prev_app. simpl.
  destruct l as [|a l _] using rev_ind.
  { apply Forall2_nil_inv_r in Hpl as ->. simpl. exists s. done. }
  apply Forall2_app_inv_r in Hpl as (pl'&pa&Hpl&Ha&->).
  apply Forall2_cons_inv_r in Ha as (a'&?&Ha&->%Forall2_nil_inv_r&->).
  rewrite last_snoc, (run_state_ok _ _ _ Ha), merge_prev_snoc. simpl.
  rewrite <-app_assoc in Hl, Ho. simpl in Hl, Ho.
  destruct (decide (mergeable a b)) as [[Es Eh]|Hm].
  - rewrite decide_True by done.
    rewrite (linked_range_end _ a Ho) by set_solver. simpl.
    rewrite bool_decide_true by (unfold block_lo, lo in Eh; rewrite Eh; by destruct (start (range b))).
    destruct (unlink_current_ok _ _ _ _ _ _ Hl Hr Hp) as (free'&Hu&Hfree).
    rewrite Hu. simpl. rewrite length_app, Nat.add_1_r. simpl.
    rewrite <-app_assoc. simpl. rewrite cursor_get_middle. simpl.
    unfold run_extend_right, run_state. simpl. rewrite Ha. simpl.
    apply ordered_app in Ho as [Htop (?&?&?&?&?&?&_)]. apply top_ge in Htop.
    rewrite extend_right_ok; cycle 1.
    { unfold range_wf, block_lo, block_size, block_hi, hi in *. lia. }
    { unfold block_size in *. lia. }
    { unfold block_lo, block_size, block_hi, hi in *. lia. }
    simpl. eexists. split; [done|].
    assert (Em : MkRunState (MkAddressRange (start (range a)) (size (range a) + size (range b)))
                   (status a) = merge a b).
    { unfold merge, block, block_lo, lo, block_size. rewrite Es. by rewrite new_as_usize. }
    rewrite Em. split; [|unfold pool; simpl; rewrite Hr; solve_Permutation].
    apply (linked_absorb s (l ++ a :: b :: k) pl' pk p a' l k (merge a b) b a free'); auto.
    rewrite Hr. solve_Permutation.
  - exists s. split; [|by split].
    case_decide as Es; simpl; [|done].
    rewrite (linked_range_end _ a Ho) by set_solver. simpl.
    rewrite bool_decide_false; [done|]. intros E. apply Hm. split; [done|].
    unfold block_lo, lo. rewrite <-E. by rewrite as_usize_new.
Qed.

(** [coalesce] computes [coalesce_blocks]. *)
Lemma coalesce_ok s l b k :
  linked s (l ++ b :: k) -> ordered 0 (l ++ b :: k) ->
  exists s', coalesce s (length l) = Ret s' /\
    linked s' (coalesce_blocks l b k) /\ pool s' ≡ₚ pool s.
Proof.
  intros Hl Ho. destruct (coalesce_next_ok _ _ _ _ Hl Ho) as (s1&E1&Hl1&Hp1).
  unfold coalesce. rewrite E1. simpl. unfold coalesce_blocks.
  pose proof (merge_next_same_pages _ _ _ _ Ho) as [Ho1 _ _].
  destruct (merge_next_head b k) as (b'&k'&E&_). rewrite E in *.
  destruct (coalesce_prev_ok _ _ _ _ Hl1 Ho1) as (s2&E2&Hl2&Hp2).
  exists s2. split; [done|]. split; [done|]. by rewrite Hp2.
Qed.
End coalesce.

(** * [add_run] *)

Lemma holds_split_at m ps l k :
  holds m ps (l ++ k) -> exists pl pk, ps = pl ++ pk /\ holds m pl l /\ holds m pk k.
Proof. intros (pl&pk&?&?&->)%Forall2_app_inv_r. eauto. Qed.

(** The spare runs only constrain the memory they occupy. *)
Lemma linked_add s pl pk p l k b :
  linked s (l ++ k) -> runs s = pl ++ pk ->
  holds (memory s) pl l -> holds (memory s) pk k ->
  memory s !! p = Some b -> p ∉ pool s ->
  linked (MkAllocatorInner (memory s) (pl ++ p :: pk)
            (if decide (status b = Free) then free s ++ [p] else free s) (unused_runs s))
         (l ++ b :: k).
Proof.
  unfold pool. intros Hl Hr Hpl Hpk Hp Hnew.
  assert (Hf : p ∉ free s) by (rewrite (linked_free _ _ Hl); set_solver).
  split; simpl.
  - apply holds_app; [done|]. by apply holds_cons.
  - apply Hl.
  - pose proof (linked_nodup _ _ Hl) as Hnd. rewrite Hr in Hnd, Hnew.
    assert (E : (pl ++ p :: pk) ++ unused_runs s ≡ₚ p :: (pl ++ pk) ++ unused_runs s)
      by solve_Permutation.
    rewrite E. apply NoDup_cons. by split.
  - pose proof (linked_free_nodup _ _ Hl). case_decide; [|done].
    rewrite Permutation_app_comm. simpl. by apply NoDup_cons.
  - intros q. pose proof (linked_free _ _ Hl q) as Hq. rewrite Hr in Hq.
    assert (Hin : q ∈ pl ++ p :: pk <-> q = p \/ q ∈ pl ++ pk) by set_solver.
    rewrite Hin. destruct (decide (q = p)) as [->|].
    + case_decide; [set_solver|]. split; [done|]. intros [_ (b'&?&?)]. congruence.
    + case_decide; [rewrite elem_of_app, list_elem_of_singleton|]; naive_solver.
Qed.

Section add_run.
Context `{Profile}.

Lemma assert_no_overlap_ok s pl pk l k b :
  linked s (l ++ k) -> runs s = pl ++ pk -> holds (memory s) pl l ->
  holds (memory s) pk k -> ordered 0 (l ++ b :: k) ->
  assert_no_overlap s (length pl) b = Ret tt.
Proof.
  intros Hl Hr Hpl Hpk Ho. unfold assert_no_overlap. rewrite Hr, peek_prev_app.
  assert (Hprev : match last pl with
    | Some q => prev ← run_state s q; e ← range_end (range prev);
        rassert (bool_decide (as_usize e <= as_usize (start (range b))))
    | None => Ret tt end = Ret tt).
  { destruct l as [|a l _] using rev_ind; [by apply Forall2_nil_inv_r in Hpl as ->|].
    apply Forall2_app_inv_r in Hpl as (pl'&pa&_&Ha&->).
    apply Forall2_cons_inv_r in Ha as (a'&?&Ha&->%Forall2_nil_inv_r&->).
    rewrite last_snoc, (run_state_ok _ _ _ Ha). simpl.
    rewrite (linked_range_end _ a Ho) by set_solver. simpl. rewrite as_usize_new.
    apply ordered_app in Ho as [_ (Ht&_)]. rewrite top_snoc in Ht.
    by rewrite bool_decide_true. }
  rewrite Hprev. unfold cursor_get. rewrite lookup_app_r, Nat.sub_diag by done.
  destruct Hpk as [|n bn pk k Hn Hpk]; simpl; [done|].
  rewrite (run_state_ok _ _ _ Hn). simpl.
  rewrite (linked_range_end _ b Ho) by set_solver. simpl. rewrite as_usize_new.
  apply ordered_app in Ho as [_ (_&_&_&Ht&_)]. by rewrite bool_decide_true.
Qed.

(** [add_run] inserts the block; a block that is not allocated is then
    coalesced with its neighbours. *)
Lemma add_run_ok s l k p b :
  linked s (l ++ k) -> memory s !! p = Some b -> p ∉ pool s -> ordered 0 (l ++ b :: k) ->
  exists s', add_run s p (length l) = Ret s' /\
    linked s' (if decide (status b = Allocated) then l ++ b :: k else coalesce_blocks l b k) /\
    pool s' ≡ₚ p :: pool s.
Proof.
  intros Hl Hp Hnew Ho.
  destruct (holds_split_at _ _ _ _ (linked_runs _ _ Hl)) as (pl&pk&Hr&Hpl&Hpk).
  assert (Hf : p ∉ free s) by (rewrite (linked_free _ _ Hl); unfold pool in Hnew; set_solver).
  pose proof (linked_add _ _ _ _ _ _ _ Hl Hr Hpl Hpk Hp Hnew) as Hl'.
  pose proof (Forall2_length _ _ _ Hpl) as Hlen. rewrite <-Hlen. unfold add_run.
  unfold link_is_linked, free_link_is_linked. unfold pool in Hnew.
  rewrite (proj2 (is_linked_false _ _) Hnew), (proj2 (is_linked_false _ _) Hf).
  simpl. rewrite (run_state_ok _ _ _ Hp). simpl.
  set (s1 := if decide (status b = Free) then with_free s (free s ++ [p]) else s) in *.
  assert (E1 : runs s1 = runs s /\ memory s1 = memory s /\ unused_runs s1 = unused_runs s)
    by (unfold s1; by case_decide).
  destruct E1 as (Er&Em&Eu).
  assert (Ea : assert_no_overlap s1 (length pl) b = assert_no_overlap s (length pl) b).
  { unfold assert_no_overlap, run_state. by rewrite Er, Em. }
  rewrite Ea, (assert_no_overlap_ok _ _ _ _ _ _ Hl Hr Hpl Hpk Ho). simpl.
  rewrite Er, Hr, take_app_length, drop_app_length.
  replace (MkAllocatorInner _ _ _ _) with (with_runs s1 (pl ++ p :: pk)) in Hl'
    by (unfold s1; by case_decide).
  assert (Hpool : pool (with_runs s1 (pl ++ p :: pk)) ≡ₚ p :: pool s).
  { unfold pool. simpl. rewrite Eu, Hr. solve_Permutation. }
  case_bool_decide as Ha; simpl.
  - rewrite decide_True by done. eauto.
  - rewrite decide_False, Hlen by done.
    destruct (coalesce_ok _ _ _ _ Hl' Ho) as (s2&E2&?&Hp2).
    exists s2. split; [done|]. split; [done|]. by rewrite Hp2.
Qed.
End add_run.

(** * Changing one run in place *)

Lemma linked_update s l k b c pl p pk free' :
  linked s (l ++ b :: k) -> runs s = pl ++ p :: pk ->
  holds (memory s) pl l -> holds (memory s) pk k ->
  NoDup free' -> (p ∈ free' <-> status c = Free) ->
  (forall q, q <> p -> q ∈ free' <-> q ∈ free s) ->
  linked (MkAllocatorInner (<[p := c]> (memory s)) (runs s) free' (unused_runs s)) (l ++ c :: k).
Proof.
  intros Hl Hr Hpl Hpk Hnf Hpf Hqf.
  pose proof (linked_nodup _ _ Hl) as Hnd. rewrite Hr in Hnd.
  assert (E : (pl ++ p :: pk) ++ unused_runs s ≡ₚ p :: (pl ++ pk) ++ unused_runs s)
    by solve_Permutation.
  rewrite E in Hnd. apply NoDup_cons in Hnd as [Hp _].
  split; simpl.
  - rewrite Hr. apply holds_app; [apply holds_insert; set_solver|].
    apply holds_cons; [by rewrite lookup_insert_eq|apply holds_insert; set_solver].
  - eapply Forall_impl; [apply Hl|]. intros x Hx. simpl in Hx.
    destruct (decide (x = p)) as [->|]; [by rewrite lookup_insert_eq|by rewrite lookup_insert_ne].
  - apply Hl.
  - done.
  - intros q. destruct (decide (q = p)) as [->|Hne].
    + rewrite Hpf, lookup_insert_eq, Hr. split; [|by intros [_ (b'&[= <-]&?)]].
      intros ?. split; [set_solver|]. eauto.
    + rewrite Hqf, lookup_insert_ne by done. apply Hl.
Qed.

(** A run that is not in use may be rewritten freely. *)
Lemma linked_spare s bs q c u :
  linked s bs -> unused_runs s = q :: u ->
  linked (MkAllocatorInner (<[q := c]> (memory s)) (runs s) (free s) u) bs /\
  q ∉ runs s ++ u.
Proof.
  intros Hl Hu. pose proof (linked_nodup _ _ Hl) as Hnd. rewrite Hu in Hnd.
  rewrite <-Permutation_middle in Hnd. apply NoDup_cons in Hnd as [Hq Hnd].
  split; [|done]. split; simpl; try done; try (by apply Hl).
  - apply holds_insert; [set_solver|apply Hl].
  - pose proof (linked_unused _ _ Hl) as Hf. rewrite Hu in Hf. apply Forall_cons in Hf as [_ Hf].
    eapply Forall_impl; [exact Hf|]. intros x Hx. simpl in Hx.
    destruct (decide (x = q)) as [->|]; [by rewrite lookup_insert_eq|by rewrite lookup_insert_ne].
  - intros x. rewrite (linked_free _ _ Hl). split; intros [Hx (b&Hb&?)]; (split; [done|]);
      exists b; (split; [|done]); rewrite lookup_insert_ne in *; try done; set_solver.
Qed.

(** * [allocate] *)

(** The two halves of a free block that [allocate] splits. *)
Definition taken b (n : Z) : RunState := block (block_lo b) n Allocated.
Definition remainder b (n : Z) : RunState := block (block_lo b + n) (block_size b - n) (status b).

(** [p] is the first run of the free list [fl] with room for [n] pages. *)
Definition first_fit m (fl : list Z) (n : Z) (p : Z) : Prop :=
  exists f1 f2 b, fl = f1 ++ p :: f2 /\ m !! p = Some b /\ n <= block_size b /\
    Forall (fun q => exists c, m !! q = Some c /\ block_size c < n) f1.

(** A spare run structure is there, and [initialize] accepts it. *)
Definition spare_run `{Profile} s : Prop :=
  exists q u c, unused_runs s = q :: u /\ memory s !! q = Some c /\
    (debug_assertions = true -> status c = Unused).

Section allocate.
Context `{Profile}.

Lemma find_free_ok s fl i n :
  Forall (fun p => is_Some (memory s !! p)) fl ->
  (find_free s fl i n = Ret None /\
     Forall (fun p => exists c, memory s !! p = Some c /\ block_size c < n) fl) \/
  (exists f1 p f2 b, fl = f1 ++ p :: f2 /\
     find_free s fl i n = Ret (Some ((i + length f1)%nat, p)) /\
     memory s !! p = Some b /\ n <= block_size b /\
     Forall (fun q => exists c, memory s !! q = Some c /\ block_size c < n) f1).
Proof.
  intros Hf. revert i. induction Hf as [|p fl [b Hp] _ IH]; intros i; [by left|].
  simpl. rewrite (run_state_ok _ _ _ Hp). simpl. case_decide as Hn.
  - right. exists [], p, fl, b. simpl. rewrite Nat.add_0_r. done.
  - destruct (IH (S i)) as [[E ?]|(f1&q&f2&c&->&E&?&?&?)]; rewrite E.
    + left. split; [done|]. constructor; [|done]. exists b. unfold block_size. split; [done|lia].
    + right. exists (p :: f1), q, f2, c. simpl. rewrite Nat.add_succ_r.
      split; [done|]. split; [done|]. split; [done|]. split; [done|].
      constructor; [|done]. exists b. unfold block_size. split; [done|lia].
Qed.

Lemma linked_free_some s bs :
  linked s bs -> Forall (fun p => is_Some (memory s !! p)) (free s).
Proof.
  intros Hl. apply Forall_forall. intros p (_&b&->&_)%(linked_free _ _ Hl). eauto.
Qed.

(** The block that a run in the free list holds. *)
Lemma linked_locate_free s bs p b :
  linked s bs -> p ∈ free s -> memory s !! p = Some b ->
  exists l k pl pk, bs = l ++ b :: k /\ runs s = pl ++ p :: pk /\ status b = Free /\
    holds (memory s) pl l /\ holds (memory s) pk k.
Proof.
  intros Hl Hp Hb. apply (linked_free _ _ Hl) in Hp as (Hin&b'&Hb'&Hs).
  rewrite Hb in Hb'. injection Hb' as <-.
  apply list_elem_of_split in Hin as (pl&pk&Er). pose proof (linked_runs _ _ Hl) as Hh.
  rewrite Er in Hh. apply Forall2_app_inv_l in Hh as (l&k'&Hpl&Hk&->).
  apply Forall2_cons_inv_l in Hk as (b''&k&Hb''&Hpk&->).
  rewrite Hb in Hb''. injection Hb'' as <-. eauto 12.
Qed.

(** Nothing in the free list is big enough. *)
Lemma allocate_none s bs n :
  linked s bs ->
  Forall (fun p => exists c, memory s !! p = Some c /\ block_size c < n) (free s) ->
  allocate s n = Ret (s, Err (MkError InsufficientMemory)).
Proof.
  intros Hl Hf. unfold allocate, front.
  destruct (find_free_ok s (free s) 0 n (linked_free_some _ _ Hl))
    as [[E _]|(f1&p&f2&b&Ef&_&Hb&Hn&_)].
  - by rewrite E.
  - rewrite Ef in Hf. apply Forall_app in Hf as [_ [(c&Hc&?) _]%Forall_cons_1].
    rewrite Hb in Hc. injection Hc as <-. lia.
Qed.

(** The run found by the search: the prefix of the free list before it is
    too small, so the search stops there. *)
Lemma find_free_first_fit s n p :
  first_fit (memory s) (free s) n p ->
  exists f1 f2, free s = f1 ++ p :: f2 /\
    find_free s (free s) 0 n = Ret (Some (length f1, p)).
Proof.
  intros (f1&f2&b&E&Hb&Hn&Hf). exists f1, f2. split; [done|]. rewrite E.
  change (length f1) with (0 + length f1)%nat. generalize 0%nat as i. clear E.
  induction Hf as [|q f1 (c&Hc&?) _ IH]; intros i; simpl.
  - rewrite (run_state_ok _ _ _ Hb). simpl. rewrite decide_True by done.
    by rewrite Nat.add_0_r.
  - rewrite (run_state_ok _ _ _ Hc). simpl.
    rewrite decide_False by (unfold block_size in *; lia).
    rewrite IH. by rewrite Nat.add_succ_r.
Qed.

(** The first fit is exactly as long as asked for: it is taken whole. *)
Lemma allocate_exact s l b k p pl pk :
  linked s (l ++ b :: k) -> runs s = pl ++ p :: pk ->
  holds (memory s) pl l -> holds (memory s) pk k -> memory s !! p = Some b ->
  first_fit (memory s) (free s) (block_size b) p ->
  exists s', allocate s (block_size b) = Ret (s', Ok (range b)) /\
    linked s' (l ++ MkRunState (range b) Allocated :: k) /\
    pool s' = pool s.
Proof.
  intros Hl Hr Hpl Hpk Hp Hfit. destruct (find_free_first_fit _ _ _ Hfit) as (f1&f2&Ef&E).
  unfold allocate, front. rewrite E. simpl. rewrite (run_state_ok _ _ _ Hp). simpl.
  rewrite decide_True by done. rewrite Ef, delete_middle.
  eexists. split; [done|]. split; [|done].
  pose proof (linked_free_nodup _ _ Hl) as Hnd. rewrite Ef in Hnd.
  rewrite <-Permutation_middle in Hnd. apply NoDup_cons in Hnd as [Hpf Hnd].
  apply (linked_update s l k b _ pl p pk (f1 ++ f2)); auto.
  - split; [done|]. intros [=].
  - intros q Hq. rewrite Ef. set_solver.
Qed.

Lemma taken_range b n : from_start_size (start (range b)) n = range (taken b n).
Proof.
  unfold taken, block, from_start_size, block_lo, lo. simpl. by rewrite new_as_usize.
Qed.

Lemma split_ordered x l b k n :
  ordered x (l ++ b :: k) -> 0 <= n <= block_size b ->
  ordered x (l ++ taken b n :: remainder b n :: k).
Proof.
  intros [Hl (?&?&?&?)]%ordered_app Hn. assert (block_hi b = block_lo b + block_size b) by done.
  apply ordered_app. split; [done|]. cbn [ordered].
  unfold taken, remainder. autorewrite with block_rw.
  replace (block_lo b + n + (block_size b - n)) with (block_hi b) by lia.
  repeat split; try done; unfold block, block_size; simpl; unfold block_size in *; lia.
Qed.

(** Shrinking the free run that is split leaves a represented state. *)
Lemma linked_shrink s l b k p pl pk n :
  linked s (l ++ b :: k) -> runs s = pl ++ p :: pk ->
  holds (memory s) pl l -> holds (memory s) pk k -> memory s !! p = Some b ->
  linked (with_state s p (remainder b n)) (l ++ remainder b n :: k).
Proof.
  intros Hl Hr Hpl Hpk Hp. apply (linked_update s l k b _ pl p pk (free s)); auto.
  - apply Hl.
  - simpl. eapply linked_in_free; [done| |done]. rewrite Hr. set_solver.
Qed.

Lemma allocate_split s l b k p pl pk n :
  linked s (l ++ b :: k) -> ordered 0 (l ++ b :: k) -> runs s = pl ++ p :: pk ->
  holds (memory s) pl l -> holds (memory s) pk k -> memory s !! p = Some b ->
  first_fit (memory s) (free s) n p -> 0 <= n < block_size b -> spare_run s ->
  exists s', allocate s n = Ret (s', Ok (range (taken b n))) /\
    linked s' (l ++ taken b n :: remainder b n :: k) /\
    pool s' ≡ₚ pool s.
Proof.
  intros Hl Ho Hr Hpl Hpk Hp Hfit Hn (q&u&c&Hu&Hc&Hdbg).
  destruct (find_free_first_fit _ _ _ Hfit) as (f1&f2&Ef&E).
  assert (Hwf : range_wf (range b)) by (by eapply ordered_block_wf; [|exact Ho|set_solver]).
  unfold allocate, front. rewrite E. simpl. rewrite (run_state_ok _ _ _ Hp). simpl.
  rewrite decide_False by (unfold block_size in *; lia).
  rewrite shrink_left_ok by (try done; unfold block_size in *; lia). simpl.
  change (MkRunState _ (status b)) with (remainder b n).
  rewrite Hu, taken_range. simpl.
  pose proof (linked_shrink s l b k p pl pk n Hl Hr Hpl Hpk Hp) as Hl1.
  assert (Hqp : q <> p).
  { pose proof (linked_nodup _ _ Hl) as Hnd. rewrite Hr, Hu in Hnd.
    apply NoDup_app in Hnd as (_&Hd&_). intros ->. apply (Hd p); set_solver. }
  destruct (linked_spare _ _ q (taken b n) u Hl1 Hu) as [Hl2 Hq2].
  unfold initialize, run_state. simpl. rewrite lookup_insert_ne, Hc by done. simpl.
  assert (Ed : debug_assert (bool_decide (status c = Unused)) = Ret tt).
  { unfold debug_assert. destruct debug_assertions; [|done]. by rewrite bool_decide_true by auto. }
  rewrite Ed. simpl. change (MkRunState (range (taken b n)) Allocated) with (taken b n).
  pose proof (linked_nodup _ _ Hl) as Hnd. rewrite Hr in Hnd.
  apply NoDup_app in Hnd as ((_&Hnp&_)%NoDup_app&_&_).
  rewrite Hr, cursor_from_ptr_middle by (intros ?; by eapply Hnp; set_solver). simpl.
  rewrite (Forall2_length _ _ _ Hpl).
  edestruct (add_run_ok _ l (remainder b n :: k) q (taken b n) Hl2) as (s'&Es&Hl'&Hp');
    [simpl; by rewrite lookup_insert_eq|done|apply split_ordered; [done|lia]|].
  unfold with_state, with_unused. simpl in Es |- *.
  change (MkRunState (MkAddressRange (new (block_lo b)) n) Allocated) with (taken b n).
  rewrite Es. simpl.
  exists s'. split; [done|]. split; [done|]. rewrite Hp'. unfold pool. simpl.
  rewrite Hu. solve_Permutation.
Qed.

(** Without a usable spare run structure a split does not return. *)
Lemma allocate_split_no_spare s l b k p pl pk n :
  linked s (l ++ b :: k) -> ordered 0 (l ++ b :: k) -> runs s = pl ++ p :: pk ->
  memory s !! p = Some b -> first_fit (memory s) (free s) n p -> 0 <= n < block_size b ->
  ~ spare_run s ->
  allocate s n = Panic (match unused_runs s with [] => ExpectFailed | _ => AssertFailed end).
Proof.
  intros Hl Ho Hr Hp Hfit Hn Hspare.
  destruct (find_free_first_fit _ _ _ Hfit) as (f1&f2&Ef&E).
  assert (Hwf : range_wf (range b)) by (by eapply ordered_block_wf; [|exact Ho|set_solver]).
  unfold allocate, front. rewrite E. simpl. rewrite (run_state_ok _ _ _ Hp). simpl.
  rewrite decide_False by (unfold block_size in *; lia).
  rewrite shrink_left_ok by (try done; unfold block_size in *; lia). simpl.
  destruct (unused_runs s) as [|q u] eqn:Hu; [done|]. simpl.
  pose proof (linked_unused _ _ Hl) as Hf. rewrite Hu in Hf.
  apply Forall_cons in Hf as [[c Hc] _].
  assert (Hqp : q <> p).
  { pose proof (linked_nodup _ _ Hl) as Hnd. rewrite Hr, Hu in Hnd.
    apply NoDup_app in Hnd as (_&Hd&_). intros ->. apply (Hd p); set_solver. }
  unfold initialize, run_state. simpl. rewrite lookup_insert_ne, Hc by done. simpl.
  unfold debug_assert. destruct debug_assertions eqn:Hdbg.
  - case_bool_decide as Hs; [|done]. exfalso. apply Hspare. exists q, u, c. auto.
  - exfalso. apply Hspare. exists q, u, c. split; [done|]. split; [done|]. congruence.
Qed.
End allocate.

(** * [deallocate] *)

Definition freed b : RunState := MkRunState (range b) Free.

(** [b] is the first block of its range: blocks of equal range can only be
    empty ones. *)
Definition first_of_range l b : Prop := Forall (fun a => range a <> range b) l.

Section deallocate.
Context `{Profile}.

Lemma find_run_ok s ps bs i r :
  holds (memory s) ps bs ->
  (find_run s ps i r = Ret None /\ Forall (fun b => range b <> r) bs) \/
  (exists l b k pl p pk, bs = l ++ b :: k /\ ps = pl ++ p :: pk /\
     memory s !! p = Some b /\ holds (memory s) pl l /\ holds (memory s) pk k /\
     range b = r /\ first_of_range l b /\
     find_run s ps i r = Ret (Some ((i + length pl)%nat, p))).
Proof.
  intros Hm. revert i. induction Hm as [|p b ps bs Hp Hps IH]; intros i; [by left|].
  simpl. rewrite (run_state_ok _ _ _ Hp). simpl. case_decide as Hr.
  - right. exists [], b, bs, [], p, ps. simpl. rewrite Nat.add_0_r.
    repeat split; try done; constructor.
  - destruct (IH (S i)) as [[E ?]|(l&c&k&pl&q&pk&->&->&Hq&Hpl&Hpk&<-&Hf&E)]; rewrite E.
    + left. split; [done|]. by constructor.
    + right. exists (b :: l), c, k, (p :: pl), q, pk. simpl. rewrite Nat.add_succ_r.
      repeat split; try done; by constructor.
Qed.

Lemma find_run_first s l b k :
  linked s (l ++ b :: k) -> first_of_range l b ->
  exists pl p pk, runs s = pl ++ p :: pk /\ memory s !! p = Some b /\
    holds (memory s) pl l /\ holds (memory s) pk k /\
    find_run s (runs s) 0 (range b) = Ret (Some (length pl, p)).
Proof.
  intros Hl Hf. destruct (holds_split _ _ _ _ _ (linked_runs _ _ Hl)) as (pl&p&pk&Hr&Hp&Hpl&Hpk).
  exists pl, p, pk. do 4 (split; [done|]). rewrite Hr.
  change (length pl) with (0 + length pl)%nat. generalize 0%nat as i.
  clear Hl Hr. unfold first_of_range in Hf. revert Hf.
  induction Hpl as [|q c pl l Hq _ IH]; intros Hf i; simpl.
  - rewrite (run_state_ok _ _ _ Hp). simpl. rewrite decide_True by done. by rewrite Nat.add_0_r.
  - apply Forall_cons in Hf as [? Hf]. rewrite (run_state_ok _ _ _ Hq). simpl.
    rewrite decide_False by done. rewrite IH by done. by rewrite Nat.add_succ_r.
Qed.

Lemma deallocate_missing s bs r :
  linked s bs -> Forall (fun b => range b <> r) bs ->
  deallocate s r = Ret (s, Err (MkError AddressOutOfBounds)).
Proof.
  intros Hl Hf. unfold deallocate, front.
  destruct (find_run_ok s (runs s) bs 0 r (linked_runs _ _ Hl))
    as [[E _]|(l&b&k&pl&p&pk&->&_&_&_&_&E&_&_)]; [by rewrite E|].
  apply Forall_app in Hf as [_ [? _]%Forall_cons_1]. done.
Qed.

Lemma deallocate_invalid s l b k :
  linked s (l ++ b :: k) -> first_of_range l b -> status b <> Allocated ->
  deallocate s (range b) = Ret (s, Err (MkError InvalidAddress)).
Proof.
  intros Hl Hf Hb. destruct (find_run_first _ _ _ _ Hl Hf) as (pl&p&pk&Hr&Hp&_&_&E).
  unfold deallocate, front. rewrite E. simpl. rewrite (run_state_ok _ _ _ Hp). simpl.
  by rewrite decide_True.
Qed.

Lemma freed_ordered x l b k : ordered x (l ++ b :: k) -> ordered x (l ++ freed b :: k).
Proof. by rewrite !ordered_app. Qed.

Lemma deallocate_ok s l b k :
  linked s (l ++ b :: k) -> ordered 0 (l ++ b :: k) -> first_of_range l b ->
  status b = Allocated ->
  exists s', deallocate s (range b) = Ret (s', Ok tt) /\
    linked s' (coalesce_blocks l (freed b) k) /\ pool s' ≡ₚ pool s.
Proof.
  intros Hl Ho Hf Hb. destruct (find_run_first _ _ _ _ Hl Hf) as (pl&p&pk&Hr&Hp&Hpl&Hpk&E).
  unfold deallocate, front. rewrite E. simpl. rewrite (run_state_ok _ _ _ Hp). simpl.
  rewrite decide_False by (rewrite Hb; naive_solver).
  assert (Hin : p ∈ runs s) by (rewrite Hr; set_solver).
  assert (Hpf : p ∉ free s).
  { rewrite (linked_in_free _ _ _ _ Hl Hin Hp), Hb. done. }
  pose proof (linked_update s l k b (freed b) pl p pk (p :: free s) Hl Hr Hpl Hpk) as Hl'.
  rewrite (Forall2_length _ _ _ Hpl).
  edestruct (coalesce_ok _ _ _ _ (Hl' ltac:(apply NoDup_cons; split; [done|apply Hl])
    ltac:(simpl; set_solver) ltac:(set_solver)) (freed_ordered _ _ _ _ Ho))
    as (s'&Es&Hls&Hps).
  unfold with_free, with_state. simpl. change (MkRunState (range b) Free) with (freed b).
  rewrite Es. simpl. eauto.
Qed.
End deallocate.

(** * Initialisation *)

Section initialisation.
Context `{Profile}.

Lemma linked_new : linked new_allocator [].
Proof. split; simpl; try constructor; set_solver. Qed.

(** [find_next] finds the first block that starts at or after the run. *)
Definition starts_below (x : Z) b : Prop := block_lo b < x.

Lemma find_next_ok s bs p b :
  linked s bs -> memory s !! p = Some b ->
  exists l k, bs = l ++ k /\ find_next s p = Ret (length l) /\
    Forall (starts_below (block_lo b)) l /\
    match k with c :: _ => block_lo b <= block_lo c | [] => True end.
Proof.
  intros Hl Hp. unfold find_next, front. rewrite (run_state_ok _ _ _ Hp). simpl.
  fold (lo (range b)) (block_lo b).
  enough (Hgen : forall i, exists l k, bs = l ++ k /\
    find_next_from s (runs s) i (block_lo b) = Ret (i + length l)%nat /\
    Forall (starts_below (block_lo b)) l /\
    match k with c :: _ => block_lo b <= block_lo c | [] => True end) by apply (Hgen 0%nat).
  pose proof (linked_runs _ _ Hl) as Hr. clear Hl.
  induction Hr as [|q c ps bs Hq _ IH]; intros i.
  - exists [], []. rewrite Nat.add_0_r. done.
  - simpl. rewrite (run_state_ok _ _ _ Hq). simpl. case_decide as Hc.
    + destruct (IH (S i)) as (l&k&->&E&?&?).
      exists (c :: l), k. simpl. rewrite Nat.add_succ_r. split_and!; [done|done|by constructor|done].
    + exists [], (c :: bs). rewrite Nat.add_0_r. split_and!; [done|done|constructor|].
      unfold block_lo, lo in *. lia.
Qed.

(** A range that overlaps none of the blocks. *)
Definition apart (r : PageFrameRange) bs : Prop :=
  Forall (fun b => 0 < block_size b /\ (block_hi b <= lo r \/ hi r <= block_lo b)) bs.

Lemma apart_ordered l k (r : PageFrameRange) st :
  range_wf r -> 0 < size r -> ordered 0 (l ++ k) -> apart r (l ++ k) ->
  Forall (starts_below (lo r)) l ->
  match k with c :: _ => lo r <= block_lo c | [] => True end ->
  ordered 0 (l ++ MkRunState r st :: k).
Proof.
  intros (?&?&?) Hsz [Ho Hk]%ordered_app [Hal Hak]%Forall_app Hl Hhd.
  assert (hi r = lo r + size r) by done.
  apply ordered_app. split; [done|]. simpl. unfold block_lo, block_size, block_hi. simpl.
  split_and!; try lia.
  - unfold top. destruct l as [|a l _] using rev_ind; simpl; [lia|].
    rewrite last_snoc. simpl. apply Forall_app in Hal as [_ [(?&?) _]%Forall_cons_1].
    apply Forall_app in Hl as [_ [Ha _]%Forall_cons_1]. unfold starts_below in Ha. lia.
  - destruct k as [|c k]; [done|]. apply Forall_cons in Hak as [(?&?) _].
    assert (block_hi c = block_lo c + block_size c) by done.
    simpl in *. split; [lia|]. by destruct Hk as (?&?&?&?).
Qed.

(** A new allocatable range is added as a free block, joined with its
    neighbours. *)
Lemma add_allocatable_range_ok s bs r :
  linked s bs -> ordered 0 bs -> unused_runs s <> [] ->
  range_wf r -> 0 < size r -> apart r bs ->
  exists s' l k, add_allocatable_range s r = Ret s' /\ bs = l ++ k /\
    ordered 0 (l ++ MkRunState r Free :: k) /\
    linked s' (coalesce_blocks l (MkRunState r Free) k) /\ pool s' ≡ₚ pool s.
Proof.
  intros Hl Ho Hu Hr Hsz Hap. unfold add_allocatable_range.
  destruct (unused_runs s) as [|q u] eqn:Eu; [done|]. clear Hu. simpl.
  pose proof (linked_unused _ _ Hl) as Hf. rewrite Eu in Hf.
  apply Forall_cons in Hf as [[c Hc] _].
  unfold run_state. simpl. rewrite Hc. simpl.
  destruct (linked_spare _ _ q (MkRunState r Free) u Hl Eu) as [Hl' Hq].
  assert (Hm : memory (with_state (with_unused s u) q (MkRunState r Free)) !! q
               = Some (MkRunState r Free)) by (simpl; by rewrite lookup_insert_eq).
  destruct (find_next_ok _ _ _ _ Hl' Hm) as (l&k&->&E&Hb&Hhd).
  assert (Ho' : ordered 0 (l ++ MkRunState r Free :: k)) by (by apply apart_ordered).
  destruct (add_run_ok _ l k q _ Hl' Hm Hq Ho') as (s'&Es&Hls&Hps).
  unfold with_state, with_unused. simpl. unfold with_state, with_unused in E. simpl in E.
  rewrite E. simpl. simpl in Es. rewrite Es.
  exists s', l, k. do 4 (split; [done|]). rewrite Hps. unfold pool. simpl. rewrite Eu.
  solve_Permutation.
Qed.

(** Every spare run structure is marked unused. *)
Definition fresh_spares s : Prop :=
  Forall (fun p => exists c, memory s !! p = Some c /\ status c = Unused) (unused_runs s).

Lemma write_runs_ok run_size s bs ptr n :
  0 < run_size -> linked s bs -> fresh_spares s -> Forall (fun p => p < ptr) (pool s) ->
  let s' := write_runs run_size s ptr n in
  linked s' bs /\ fresh_spares s' /\ runs s' = runs s /\
  length (unused_runs s') = (length (unused_runs s) + n)%nat.
Proof.
  intros Hrs. revert s ptr. induction n as [|n IH]; intros s ptr Hl Hf Hp; simpl.
  { rewrite Nat.add_0_r. done. }
  set (s1 := with_unused _ _).
  assert (Hnew : ptr ∉ pool s).
  { intros Hin. rewrite Forall_forall in Hp. apply Hp in Hin. lia. }
  unfold pool in Hnew. apply not_elem_of_app in Hnew as [Hn1 Hn2].
  assert (Hl1 : linked s1 bs).
  { split; simpl.
    - apply holds_insert; [done|apply Hl].
    - apply Forall_app. split; [|constructor; [by rewrite lookup_insert_eq|done]].
      eapply Forall_impl; [apply Hl|]. intros x Hx. simpl in Hx.
      destruct (decide (x = ptr)) as [->|];
        [by rewrite lookup_insert_eq|by rewrite lookup_insert_ne].
    - rewrite app_assoc, Permutation_app_comm. simpl. apply NoDup_cons.
      split; [set_solver|apply Hl].
    - apply Hl.
    - intros x. rewrite (linked_free _ _ Hl). split; intros [Hx (b&Hb&?)];
        (split; [done|]); exists b; (split; [|done]);
        rewrite lookup_insert_ne in *; try done; set_solver. }
  assert (Hf1 : fresh_spares s1).
  { apply Forall_app. split.
    - apply Forall_forall. intros x Hx. simpl. rewrite lookup_insert_ne by set_solver.
      unfold fresh_spares in Hf. rewrite Forall_forall in Hf. by apply Hf.
    - constructor; [|done]. simpl. rewrite lookup_insert_eq. by eexists. }
  assert (Hp1 : Forall (fun p => p < ptr + run_size) (pool s1)).
  { unfold pool, s1. simpl. rewrite app_assoc. apply Forall_app. split.
    - eapply Forall_impl; [exact Hp|]. simpl. lia.
    - constructor; [lia|done]. }
  destruct (IH s1 (ptr + run_size) Hl1 Hf1 Hp1) as (?&?&?&Hlen).
  split_and!; [done..|]. rewrite Hlen. unfold s1. simpl. rewrite length_app. simpl. lia.
Qed.

(** Adding a run that is not free to an empty run list links it, and that
    is all. *)
Lemma add_run_alone s p b :
  runs s = [] -> memory s !! p = Some b -> p ∉ unused_runs s -> p ∉ free s ->
  status b <> Free -> add_run s p 0 = Ret (with_runs s [p]).
Proof.
  intros Hr Hp Hu Hf Hs. unfold add_run, link_is_linked, free_link_is_linked.
  rewrite Hr. simpl.
  rewrite (proj2 (is_linked_false _ _) Hu), (proj2 (is_linked_false _ _) Hf). simpl.
  rewrite (run_state_ok _ _ _ Hp). simpl. rewrite decide_False by done.
  unfold assert_no_overlap. rewrite Hr. simpl.
  case_bool_decide; [done|]. simpl. unfold coalesce, coalesce_next, run_state. simpl.
  rewrite Hp. simpl. unfold coalesce_prev, run_state. simpl. by rewrite Hp.
Qed.

(** The tracking pages become one tracking block, and the rest of the run
    structures written into them are spare. *)
Lemma init_tracking_space_ok run_size access r :
  0 < run_size <= PAGE_SIZE -> range_wf r -> 0 < size r -> hi r * PAGE_SIZE < 2 ^ 63 ->
  exists s', init_tracking_space run_size new_allocator access r = Ret (s', Ok tt) /\
    linked s' [MkRunState r Tracking] /\ fresh_spares s' /\
    length (unused_runs s') = (Z.to_nat (size r * PAGE_SIZE / run_size) - 1)%nat.
Proof.
  intros Hrs Hr Hsz Hhi. pose proof Hr as (?&?&?). unfold init_tracking_space, size_bytes.
  assert (hi r = lo r + size r) by done.
  rewrite mul_usize_ok by (unfold is_usize, usize_bound, PAGE_SIZE in *; lia). simpl.
  set (n := size r * PAGE_SIZE / run_size).
  assert (Hn : 1 <= n) by (apply Z.div_le_lower_bound; unfold PAGE_SIZE in *; lia).
  assert (Hfit : n * run_size <= size r * PAGE_SIZE)
    by (rewrite Z.mul_comm; apply Z.mul_div_le; lia).
  unfold layout_array. rewrite decide_True by (unfold PAGE_SIZE in *; lia). simpl.
  rewrite bool_decide_true by done. simpl.
  unfold map_permanent, start_address, page_start.
  rewrite mul_usize_ok
    by (unfold lo in *; unfold is_usize, usize_bound, PAGE_SIZE in *; lia). simpl.
  unfold try_isize. rewrite as_usize_new, decide_True
    by (unfold lo in *; unfold PAGE_SIZE in *; lia). simpl.
  set (ptr := base access + _).
  destruct (write_runs_ok run_size new_allocator [] ptr (Z.to_nat n))
    as (Hl&Hf&Hruns&Hlen); [lia|apply linked_new|constructor|constructor|].
  set (s1 := write_runs _ _ _ _) in *. simpl in Hlen.
  destruct (unused_runs s1) as [|q u] eqn:Eu; [simpl in Hlen; lia|]. simpl.
  unfold fresh_spares in Hf. rewrite Eu in Hf. apply Forall_cons in Hf as [(c&Hc&Hs) Hf].
  unfold initialize, run_state. simpl. rewrite Hc. simpl.
  rewrite bool_decide_true, debug_assert_true by done. simpl.
  destruct (linked_spare _ _ q (MkRunState r Tracking) u Hl Eu) as [Hl' Hq].
  set (s2 := with_state (with_unused s1 u) q (MkRunState r Tracking)).
  assert (Hm : memory s2 !! q = Some (MkRunState r Tracking))
    by (simpl; by rewrite lookup_insert_eq).
  destruct (find_next_ok s2 [] q _ Hl' Hm) as (l&k&[-> ->]%eq_sym%app_nil&E&_).
  rewrite E. simpl. simpl in Hruns. rewrite Hruns in Hq. simpl in Hq.
  assert (Hfree : free s1 = []).
  { destruct (free s1) as [|x f] eqn:Ef; [done|]. exfalso.
    assert (Hx : x ∈ free s1) by (rewrite Ef; set_solver).
    apply (linked_free _ _ Hl) in Hx as [Hx _]. rewrite Hruns in Hx. set_solver. }
  rewrite (add_run_alone s2 q _ Hruns Hm Hq) by (simpl; rewrite ?Hfree; set_solver).
  simpl. eexists. split; [done|]. split; [|split; [|simpl in *; lia]].
  - pose proof (linked_add s2 [] [] q [] [] (MkRunState r Tracking) Hl' Hruns) as Ha. simpl in Ha.
    apply Ha; try constructor; [done|]. unfold pool. simpl. by rewrite Hruns.
  - unfold fresh_spares. simpl. apply Forall_forall. intros x Hx.
    rewrite lookup_insert_ne by set_solver. rewrite Forall_forall in Hf. by apply Hf.
Qed.
End initialisation.
