(* ===== verification/RootAllocatorSpec.v ===== *)
(** Correctness of the root allocator: its invariant, what [allocate] and
    [deallocate] do to every page frame on every branch, the safety of any
    sequence of calls, and the state that initialisation produces. *)
From S2P Require Import Prelude Address IntrusiveList RootAllocator Blocks RootAllocatorLinks.

Implicit Types (s : AllocatorInner) (b : RunState) (l k bs : list RunState).
Implicit Types (r : PageFrameRange) (n pg : Z).

(** * Definitions *)

(** The blocks of the run list, in order. *)
Definition view s : list RunState := omap (fun p => memory s !! p) (runs s).

Definition status_of s pg : option Status := page_status (view s) pg.

(** The allocator invariant: the three linked lists represent a block list
    that is ordered, disjoint and coalesced. *)
Record inv s : Prop := {
  inv_linked : linked s (view s);
  inv_ordered : ordered 0 (view s);
  inv_coalesced : coalesced (view s);
}.

(** Ranges that were handed out and not given back. *)
Definition allocated_ranges bs : list PageFrameRange :=
  range <$> filter (fun b => status b = Allocated) bs.

(** * Block-level facts *)

Lemma linked_view s bs : linked s bs -> view s = bs.
Proof.
  intros Hl. unfold view. pose proof (linked_runs _ _ Hl) as Hr. clear Hl.
  induction Hr as [|p b ps bs Hp _ IH]; [done|]. simpl. rewrite Hp. f_equal. exact IH.
Qed.

Lemma inv_intro s bs : linked s bs -> ordered 0 bs -> coalesced bs -> inv s.
Proof. intros Hl Ho Hc. pose proof (linked_view _ _ Hl) as <-. by split. Qed.

Lemma allocated_ranges_app l k :
  allocated_ranges (l ++ k) = allocated_ranges l ++ allocated_ranges k.
Proof. unfold allocated_ranges. by rewrite filter_app, fmap_app. Qed.

Lemma allocated_ranges_cons b k :
  allocated_ranges (b :: k) =
  if decide (status b = Allocated) then range b :: allocated_ranges k else allocated_ranges k.
Proof. unfold allocated_ranges. rewrite filter_cons. by case_decide. Qed.

Lemma allocated_ranges_coalesce l b k :
  status b <> Allocated ->
  allocated_ranges (coalesce_blocks l b k) = allocated_ranges (l ++ k).
Proof.
  intros Hb. unfold coalesce_blocks. destruct (merge_next_head b k) as (b'&k'&E&Es&_).
  assert (Hk : allocated_ranges k' = allocated_ranges k).
  { destruct (merge_next_cases b k) as [(n&k''&->&[Hn _]&E')|[_ E']]; rewrite E in E';
      injection E' as -> ->; [|done].
    rewrite allocated_ranges_cons, decide_False by congruence. done. }
  rewrite E, allocated_ranges_app, <-Hk.
  destruct (merge_prev_cases l b' k') as [(l'&a&->&[Ha _]&->)|[_ ->]];
    rewrite !allocated_ranges_app, ?allocated_ranges_cons.
  - simpl. rewrite !decide_False by congruence. by rewrite app_nil_r.
  - rewrite decide_False by congruence. done.
Qed.

(** Marking or splitting a free block does not make anything mergeable. *)
Lemma coalesced_taken l b k n :
  coalesced (l ++ b :: k) -> status b = Free ->
  coalesced (l ++ taken b n :: remainder b n :: k).
Proof.
  intros [Hl Hk]%coalesced_app Hs. apply coalesced_join.
  - apply coalesced_snoc; [by eapply coalesced_app_l|]. intros l' a _ [[??] ?]. done.
  - split; [intros [_ []]; done|]. destruct k as [|c k]; [done|].
    destruct Hk as [Hk ?]. split; [|done]. unfold mergeable, remainder in *.
    rewrite block_hi_block. rewrite block_hi_eq in Hk.
    replace (block_lo b + n + (block_size b - n)) with (block_lo b + block_size b) by lia. done.
Qed.

Lemma coalesced_marked l b k :
  coalesced (l ++ b :: k) -> coalesced (l ++ MkRunState (range b) Allocated :: k).
Proof.
  intros [Hl Hk]%coalesced_app. apply coalesced_join.
  - apply coalesced_snoc; [by eapply coalesced_app_l|]. intros l' a _ [[??] ?]. done.
  - apply coalesced_cons in Hk. destruct k as [|c k]; [done|].
    split; [intros [_ []]; done|done].
Qed.

Lemma in_range_block b pg : in_range pg (range b) <-> block_lo b <= pg < block_hi b.
Proof. done. Qed.

(** The page statuses after block [b] was rewritten to [c] in place. *)
Lemma page_status_replace x l b c k pg :
  ordered x (l ++ b :: k) -> range c = range b ->
  page_status (l ++ c :: k) pg =
  if decide (in_range pg (range b)) then Some (status c) else page_status (l ++ b :: k) pg.
Proof.
  intros Ho Er. assert (Hc : ordered x (l ++ c :: k)).
  { rewrite ordered_app in *. simpl in *. unfold block_lo, block_size, block_hi in *.
    by rewrite Er. }
  case_decide as Hpg.
  - eapply page_status_middle; [exact Hc|]. unfold block_lo, block_hi. by rewrite Er.
  - rewrite !page_status_outside; [done|done|]. unfold block_lo, block_hi. by rewrite Er.
Qed.

Lemma page_status_split x l b k n pg :
  ordered x (l ++ b :: k) -> 0 <= n <= block_size b ->
  page_status (l ++ taken b n :: remainder b n :: k) pg =
  if decide (in_range pg (range (taken b n))) then Some Allocated
  else page_status (l ++ b :: k) pg.
Proof.
  intros Ho Hn. pose proof (split_ordered _ _ _ _ _ Ho Hn) as Ho'.
  case_decide as Hpg; [by eapply page_status_middle|].
  rewrite page_status_outside by done. rewrite !page_status_app.
  destruct (page_status l pg) eqn:El; [done|]. cbn [page_status].
  unfold in_range, taken in Hpg. simpl in Hpg. rewrite lo_new, hi_new in Hpg.
  unfold remainder. autorewrite with block_rw.
  assert (block_hi b = block_lo b + block_size b) by done.
  repeat case_decide; try done; lia.
Qed.

(** * [allocate] on represented states *)

(** The block list after the first [n] pages of the free block [b] were
    handed out. *)
Definition carve l b k n : list RunState :=
  if decide (block_size b = n) then l ++ MkRunState (range b) Allocated :: k
  else l ++ taken b n :: remainder b n :: k.

Section carving.
Context (l k : list RunState) (b : RunState) (n : Z).
Hypothesis Hord : ordered 0 (l ++ b :: k).
Hypothesis Hn : 0 <= n <= block_size b.
Hypothesis Hfree : status b = Free.

Lemma taken_whole : block_size b = n -> range (taken b n) = range b.
Proof.
  intros <-. unfold taken, block, block_lo, block_size, lo. simpl.
  rewrite new_as_usize. by destruct (range b).
Qed.

Lemma carve_ordered : ordered 0 (carve l b k n).
Proof.
  unfold carve. case_decide; [|by apply split_ordered].
  pose proof Hord as Ho. rewrite ordered_app in *. simpl in *.
  unfold block_lo, block_size, block_hi in *. done.
Qed.

Lemma carve_coalesced : coalesced (l ++ b :: k) -> coalesced (carve l b k n).
Proof.
  intros Hc. unfold carve. case_decide; [by apply coalesced_marked|by apply coalesced_taken].
Qed.

Lemma carve_page_status pg :
  page_status (carve l b k n) pg =
  if decide (in_range pg (range (taken b n))) then Some Allocated
  else page_status (l ++ b :: k) pg.
Proof.
  unfold carve. case_decide as E; [|by eapply page_status_split].
  rewrite taken_whole by done. by eapply page_status_replace.
Qed.

Lemma carve_was_free pg :
  in_range pg (range (taken b n)) -> page_status (l ++ b :: k) pg = Some Free.
Proof.
  intros Hpg. rewrite <-Hfree. eapply page_status_middle; [exact Hord|].
  unfold in_range, taken in Hpg. simpl in Hpg. rewrite lo_new, hi_new in Hpg.
  assert (block_hi b = block_lo b + block_size b) by done. lia.
Qed.

Lemma carve_allocated_ranges :
  allocated_ranges (carve l b k n) ≡ₚ range (taken b n) :: allocated_ranges (l ++ b :: k).
Proof.
  unfold carve. rewrite (allocated_ranges_app _ (b :: k)), (allocated_ranges_cons b).
  rewrite (decide_False (P := status b = Allocated)) by congruence.
  case_decide as E.
  - rewrite allocated_ranges_app, allocated_ranges_cons, decide_True by done.
    rewrite taken_whole by done. simpl. solve_Permutation.
  - rewrite allocated_ranges_app, !allocated_ranges_cons.
    rewrite decide_True, decide_False by (simpl; congruence). solve_Permutation.
Qed.

Lemma carve_pages_with st :
  pages_with st (carve l b k n) =
  pages_with st (l ++ b :: k) +
  (if decide (st = Allocated) then n else 0) - (if decide (st = Free) then n else 0).
Proof.
  assert (Ht : block_size (taken b n) = n) by done.
  assert (Hr : block_size (remainder b n) = block_size b - n) by done.
  unfold carve. case_decide as E; rewrite !pages_with_app; simpl; rewrite ?Ht, ?Hr, Hfree.
  - change (block_size (MkRunState (range b) Allocated)) with (block_size b).
    destruct st; simpl; lia.
  - destruct st; simpl; lia.
Qed.
End carving.

Section allocate_cases.
Context `{Profile}.

Inductive allocate_result s n : rust (AllocatorInner * result PageFrameRange Error) -> Prop :=
  | AllocatedAt l b k p s' :
      view s = l ++ b :: k -> status b = Free -> 0 <= n <= block_size b ->
      memory s !! p = Some b -> first_fit (memory s) (free s) n p ->
      linked s' (carve l b k n) -> pool s' ≡ₚ pool s ->
      allocate_result s n (Ret (s', Ok (range (taken b n))))
  | NoRoom :
      Forall (fun b => status b = Free -> block_size b < n) (view s) ->
      allocate_result s n (Ret (s, Err (MkError InsufficientMemory)))
  | NoSpareRun b w :
      b ∈ view s -> status b = Free -> n < block_size b -> ~ spare_run s ->
      w = match unused_runs s with [] => ExpectFailed | _ => AssertFailed end ->
      allocate_result s n (Panic w).

Lemma spare_run_dec s : spare_run s \/ ~ spare_run s.
Proof.
  destruct (unused_runs s) as [|q u] eqn:Eu.
  { right. intros (?&?&?&E&_). congruence. }
  destruct (memory s !! q) as [c|] eqn:Ec.
  - destruct (decide (debug_assertions = true -> status c = Unused)) as [|Hn].
    + left. exists q, u, c. auto.
    + right. intros (q'&u'&c'&E&Ec'&?). rewrite Eu in E. injection E as <- <-.
      rewrite Ec in Ec'. injection Ec' as <-. auto.
  - right. intros (q'&u'&c'&E&Ec'&_). rewrite Eu in E. injection E as <- <-. congruence.
Qed.

Lemma allocate_total s n : inv s -> 0 <= n -> allocate_result s n (allocate s n).
Proof.
  intros [Hl Ho Hc] Hn.
  destruct (find_free_ok s (free s) 0 n (linked_free_some _ _ Hl))
    as [[_ Hnone]|(f1&p&f2&b&Ef&_&Hp&Hsz&Hf1)].
  - rewrite (allocate_none _ _ _ Hl Hnone). constructor. apply Forall_forall.
    intros b Hb Hs. apply list_elem_of_split in Hb as (l&k&E).
    pose proof (linked_runs _ _ Hl) as Hr. rewrite E in Hr.
    apply holds_split in Hr as (pl&p&pk&Er&Hp&_).
    assert (Hin : p ∈ free s).
    { apply (linked_free _ _ Hl). split; [rewrite Er; set_solver|eauto]. }
    rewrite Forall_forall in Hnone. apply Hnone in Hin as (c&Hc'&?). congruence.
  - assert (Hin : p ∈ free s) by (rewrite Ef; set_solver).
    assert (Hfit : first_fit (memory s) (free s) n p) by (exists f1, f2, b; auto).
    destruct (linked_locate_free _ _ _ _ Hl Hin Hp) as (l&k&pl&pk&E&Er&Hs&Hpl&Hpk).
    rewrite E in Hl, Ho. destruct (decide (block_size b = n)) as [<-|Hne].
    + edestruct (allocate_exact s l b k p pl pk) as (s'&Ea&Hl'&Hp'); try done.
      rewrite Ea, <-(taken_whole b (block_size b)) by done.
      apply (AllocatedAt _ _ l b k p s'); try done; [|by rewrite Hp'].
      unfold carve. by rewrite decide_True.
    + destruct (spare_run_dec s) as [Hsp|Hsp].
      * edestruct (allocate_split s l b k p pl pk n) as (s'&Ea&Hl'&Hp'); try done; [lia|].
        rewrite Ea. apply (AllocatedAt _ _ l b k p s'); try done.
        unfold carve. by rewrite decide_False.
      * erewrite (allocate_split_no_spare s l b k p pl pk n) by (done || lia).
        apply (NoSpareRun _ _ b); try done; [rewrite E; set_solver|lia].
Qed.
End allocate_cases.

(** * [deallocate] on represented states *)

Section deallocate_cases.
Context `{Profile}.

Inductive deallocate_result s r : rust (AllocatorInner * result unit Error) -> Prop :=
  | Deallocated l b k s' :
      view s = l ++ b :: k -> range b = r -> status b = Allocated -> first_of_range l b ->
      linked s' (coalesce_blocks l (freed b) k) -> pool s' ≡ₚ pool s ->
      deallocate_result s r (Ret (s', Ok tt))
  | NotAllocated l b k :
      view s = l ++ b :: k -> range b = r -> status b <> Allocated -> first_of_range l b ->
      deallocate_result s r (Ret (s, Err (MkError InvalidAddress)))
  | NotARun :
      Forall (fun b => range b <> r) (view s) ->
      deallocate_result s r (Ret (s, Err (MkError AddressOutOfBounds))).

Lemma first_of_range_dec bs r :
  (exists l b k, bs = l ++ b :: k /\ range b = r /\ first_of_range l b) \/
  Forall (fun b => range b <> r) bs.
Proof.
  induction bs as [|b bs IH]; [by right|].
  destruct (decide (range b = r)) as [Hr|Hr].
  { left. exists [], b, bs. split; [done|]. split; [done|constructor]. }
  destruct IH as [(l&c&k&->&<-&Hf)|?]; [|right; by constructor].
  left. exists (b :: l), c, k. split; [done|]. split; [done|by constructor].
Qed.

Lemma deallocate_total s r : inv s -> deallocate_result s r (deallocate s r).
Proof.
  intros [Hl Ho Hc].
  destruct (first_of_range_dec (view s) r) as [(l&b&k&E&<-&Hf)|Hf].
  - rewrite E in Hl, Ho. destruct (decide (status b = Allocated)) as [Hb|Hb].
    + destruct (deallocate_ok s l b k Hl Ho Hf Hb) as (s'&->&?&?).
      by apply (Deallocated _ _ l b k).
    + rewrite (deallocate_invalid s l b k) by done. by apply (NotAllocated _ _ l b k).
  - rewrite (deallocate_missing s (view s)) by done. by constructor.
Qed.

Lemma freed_block l b k s' :
  ordered 0 (l ++ b :: k) -> coalesced (l ++ b :: k) -> status b = Allocated ->
  linked s' (coalesce_blocks l (freed b) k) ->
  inv s' /\ forall pg, status_of s' pg =
    if decide (in_range pg (range b)) then Some Free else page_status (l ++ b :: k) pg.
Proof.
  intros Ho Hc Hb Hl'. pose proof (freed_ordered _ _ _ _ Ho) as Hof.
  pose proof (coalesce_blocks_same_pages _ _ _ _ Hof) as [Ho' Hst _]. split.
  - eapply inv_intro; [exact Hl'|done|]. apply coalesced_app in Hc as [Hl Hk].
    apply coalesce_blocks_coalesced; [done|by eapply coalesced_app_l|by eapply coalesced_cons].
  - intros pg. unfold status_of. rewrite (linked_view _ _ Hl'), Hst.
    by eapply page_status_replace.
Qed.
End deallocate_cases.

(** * What a page range's owner may rely on *)

(** In an ordered list, two blocks that share a page are the same block. *)
Lemma ordered_page_unique x l1 b1 k1 l2 b2 k2 pg :
  ordered x (l1 ++ b1 :: k1) -> l1 ++ b1 :: k1 = l2 ++ b2 :: k2 ->
  in_range pg (range b1) -> in_range pg (range b2) -> l1 = l2 /\ b1 = b2 /\ k1 = k2.
Proof.
  revert x l2. induction l1 as [|a l1 IH]; intros x [|c l2] Ho E H1 H2; simpl in *.
  - naive_solver.
  - exfalso. injection E as -> ->. destruct Ho as (?&?&?&Ho).
    apply ordered_app in Ho as [Ht (?&_)]. apply top_ge in Ht.
    rewrite in_range_block in *. lia.
  - exfalso. injection E as -> <-. destruct Ho as (?&?&?&Ho).
    apply ordered_app in Ho as [Ht (?&_)]. apply top_ge in Ht.
    rewrite in_range_block in *. lia.
  - injection E as -> E. destruct Ho as (_&_&_&Ho).
    destruct (IH _ _ Ho E H1 H2) as (->&->&->). done.
Qed.

Lemma inv_page_status s l b k pg :
  inv s -> view s = l ++ b :: k -> in_range pg (range b) -> status_of s pg = Some (status b).
Proof.
  intros [_ Ho _] E Hpg. unfold status_of. rewrite E in *. by eapply page_status_middle.
Qed.

(** * Sequences of calls *)

(** A client's view: the allocator and the ranges it was given and has not
    given back. *)
Fixpoint give_back r (live : list PageFrameRange) : list PageFrameRange :=
  match live with
  | [] => []
  | r' :: live => if decide (r' = r) then live else r' :: give_back r live
  end.

Lemma give_back_perm r live : r ∈ live -> live ≡ₚ r :: give_back r live.
Proof.
  induction live as [|r' live IH]; [set_solver|]. intros Hr. simpl.
  case_decide as E; [by subst|]. apply elem_of_cons in Hr as [->|Hr]; [done|].
  rewrite (IH Hr) at 1. apply Permutation_swap.
Qed.

(** The outstanding ranges that contain page [pg]. *)
Definition holders pg (live : list PageFrameRange) : list PageFrameRange :=
  filter (in_range pg) live.

Section client.
Context `{Profile}.

Inductive step : AllocatorInner * list PageFrameRange ->
                 AllocatorInner * list PageFrameRange -> Prop :=
  | step_allocate s s' live n r :
      is_usize n -> allocate s n = Ret (s', Ok r) -> step (s, live) (s', r :: live)
  | step_allocate_fails s s' live n e :
      is_usize n -> allocate s n = Ret (s', Err e) -> step (s, live) (s', live)
  | step_deallocate s s' live r :
      deallocate s r = Ret (s', Ok tt) -> step (s, live) (s', give_back r live)
  | step_deallocate_fails s s' live r e :
      deallocate s r = Ret (s', Err e) -> step (s, live) (s', live).

Definition client_inv (c : AllocatorInner * list PageFrameRange) : Prop :=
  inv c.1 /\ c.2 ≡ₚ allocated_ranges (view c.1).

Definition managed_pages s : Z := pages_with Free (view s) + pages_with Allocated (view s).

Lemma freed_pages_with l b k st :
  ordered 0 (l ++ b :: k) -> status b = Allocated ->
  pages_with st (coalesce_blocks l (freed b) k) =
  pages_with st (l ++ b :: k) -
  (if decide (st = Allocated) then block_size b else 0) +
  (if decide (st = Free) then block_size b else 0).
Proof.
  intros Ho Hb. pose proof (freed_ordered _ _ _ _ Ho) as Hof.
  rewrite (same_count _ _ _ (coalesce_blocks_same_pages _ _ _ _ Hof)).
  rewrite !pages_with_app. simpl. change (block_size (freed b)) with (block_size b).
  rewrite Hb. destruct st; simpl; lia.
Qed.

Lemma step_client_inv c c' :
  step c c' -> client_inv c ->
  client_inv c' /\ pool c'.1 ≡ₚ pool c.1 /\ managed_pages c'.1 = managed_pages c.1 /\
  pages_with Tracking (view c'.1) = pages_with Tracking (view c.1).
Proof.
  unfold client_inv, managed_pages. intros Hs [Hi Hlive].
  destruct Hs as [s s' live n r [Hn _] E|s s' live n e [Hn _] E|s s' live r E
                 |s s' live r e E]; simpl in *.
  - pose proof (allocate_total s n Hi Hn) as Hres. rewrite E in Hres.
    inversion Hres as [l b k p ? Ev Hb Hsz _ _ Hl' Hp' Eq| |]; subst; simplify_eq.
    destruct Hi as [_ Ho Hc]. rewrite Ev in Ho, Hc, Hlive |- *. rewrite (linked_view _ _ Hl').
    split_and!; try done.
    + eapply inv_intro; [exact Hl'|by apply carve_ordered|by apply carve_coalesced].
    + rewrite carve_allocated_ranges by done. by rewrite Hlive.
    + rewrite !carve_pages_with by done. simpl. lia.
    + rewrite carve_pages_with by done. simpl. lia.
  - pose proof (allocate_total s n Hi Hn) as Hres. rewrite E in Hres.
    inversion Hres; subst. done.
  - pose proof (deallocate_total s r Hi) as Hres. rewrite E in Hres.
    inversion Hres as [l b k ? Ev Hr Hb _ Hl' Hp' Eq| |]; subst; simplify_eq.
    destruct Hi as [_ Ho Hc]. rewrite Ev in Ho, Hc, Hlive |- *. rewrite (linked_view _ _ Hl').
    split_and!; try done.
    + by eapply freed_block.
    + rewrite allocated_ranges_coalesce by done.
      rewrite allocated_ranges_app, allocated_ranges_cons, decide_True in Hlive by done.
      rewrite <-Permutation_middle, <-allocated_ranges_app in Hlive.
      assert (Hin : range b ∈ live) by (rewrite Hlive; set_solver).
      rewrite (give_back_perm _ _ Hin) in Hlive. by apply Permutation_cons_inv in Hlive.
    + rewrite !freed_pages_with by done. simpl. lia.
    + rewrite freed_pages_with by done. simpl. lia.
  - pose proof (deallocate_total s r Hi) as Hres. rewrite E in Hres.
    inversion Hres; subst; done.
Qed.

Lemma holders_above x bs pg :
  ordered x bs -> pg < x -> holders pg (allocated_ranges bs) = [].
Proof.
  revert x. induction bs as [|b bs IH]; intros x; [done|].
  intros (?&?&?&Ho) Hpg. assert (block_hi b = block_lo b + block_size b) by done.
  specialize (IH _ Ho ltac:(lia)). rewrite allocated_ranges_cons. case_decide; [|done].
  unfold holders in *. rewrite filter_cons_False; [done|]. rewrite in_range_block. lia.
Qed.

Lemma holders_at_most_one x bs pg :
  ordered x bs -> (length (holders pg (allocated_ranges bs)) <= 1)%nat.
Proof.
  revert x. induction bs as [|b bs IH]; intros x; [simpl; lia|].
  intros (?&?&?&Ho). rewrite allocated_ranges_cons.
  case_decide; [|by eapply IH]. unfold holders. rewrite filter_cons.
  case_decide as Hpg; [|by eapply IH]. rewrite in_range_block in Hpg.
  pose proof (holders_above _ _ pg Ho ltac:(lia)) as E. unfold holders in E. rewrite E. simpl. lia.
Qed.

Lemma allocated_page s pg :
  inv s -> (status_of s pg = Some Allocated <->
            exists r, r ∈ allocated_ranges (view s) /\ in_range pg r).
Proof.
  intros Hi. split.
  - intros (b&Hb&Hs&Hpg)%page_status_inv. exists (range b). split; [|done].
    apply list_elem_of_fmap. exists b. split; [done|]. apply list_elem_of_filter. done.
  - intros (r&Hr&Hpg). apply list_elem_of_fmap in Hr as (b&->&Hb).
    apply list_elem_of_filter in Hb as [Hs Hb].
    apply list_elem_of_split in Hb as (l&k&E). rewrite <-Hs. by eapply inv_page_status.
Qed.

Lemma steps_client_inv c c' :
  rtc step c c' -> client_inv c ->
  client_inv c' /\ pool c'.1 ≡ₚ pool c.1 /\ managed_pages c'.1 = managed_pages c.1.
Proof.
  induction 1 as [|c c1 c' Hs _ IH]; [done|]. intros Hc.
  destruct (step_client_inv _ _ Hs Hc) as (Hc1&Hp&Hm&_).
  destruct (IH Hc1) as (?&Hp'&Hm'). split; [done|]. split; [by rewrite Hp'|congruence].
Qed.
End client.

(** * Allocating and giving back *)

Section cycles.
Context `{Profile}.

Lemma allocate_deallocate_ok s n s1 r :
  inv s -> 0 < n -> allocate s n = Ret (s1, Ok r) ->
  exists s2, deallocate s1 r = Ret (s2, Ok tt) /\ view s2 = view s /\ pool s2 ≡ₚ pool s.
Proof.
  intros Hi Hn E. pose proof (allocate_total s n Hi ltac:(lia)) as Hres. rewrite E in Hres.
  inversion Hres as [l b k p ? Ev Hb Hsz _ _ Hl' Hp'| |]; subst; simplify_eq.
  destruct Hi as [_ Ho Hc]. rewrite Ev in Ho, Hc |- *.
  assert (Hoc : ordered 0 (carve l b k n)) by (by apply carve_ordered).
  assert (Hcarve : exists k', carve l b k n = l ++ taken b n :: k' /\
            coalesce_blocks l (freed (taken b n)) k' = l ++ b :: k).
  { unfold carve. case_decide as Es.
    - exists k. assert (Et : MkRunState (range b) Allocated = taken b n).
      { by rewrite <-(taken_whole b n). }
      rewrite Et. split; [done|]. rewrite <-(coalesce_blocks_id l b k) by (done || congruence).
      f_equal. rewrite <-Et. unfold freed. simpl. rewrite <-Hb. by destruct b.
    - exists (remainder b n :: k). split; [done|].
      rewrite <-(coalesce_blocks_id l b k) by (done || congruence).
      unfold coalesce_blocks at 1. cbn [merge_next].
      assert (Hm : mergeable (freed (taken b n)) (remainder b n)).
      { split; [symmetry; exact Hb|]. unfold remainder. rewrite block_lo_block. apply hi_new. }
      rewrite decide_True by done.
      assert (Em : merge (freed (taken b n)) (remainder b n) = b).
      { apply block_eq; [rewrite block_lo_merge; apply lo_new| |done].
        unfold merge, block, block_size. simpl. unfold block_size. lia. }
      rewrite Em. unfold coalesce_blocks.
      destruct (merge_next_cases b k) as [(c&k'&->&?&_)|[_ ->]]; [|done].
      apply coalesced_app in Hc as [_ [[] _]]. split; [done|congruence]. }
  destruct Hcarve as (k'&Ec&Eid). rewrite Ec in Hl', Hoc.
  assert (Hfst : first_of_range l (taken b n)).
  { apply Forall_forall. intros a Ha Er. apply list_elem_of_split in Ha as (l1&l2&->).
    apply ordered_app in Ho as [Hl1 (Ht&_)]. apply ordered_app in Hl1 as [_ (_&_&_&Hl2)].
    apply top_ge in Hl2. rewrite <-app_assoc in *.
    assert (top 0 (l1 ++ a :: l2) = top (block_hi a) l2) as Et.
    { clear. revert l1. intros l1. unfold top. rewrite last_app.
      destruct (last (a :: l2)) eqn:E; [|by apply last_None in E].
      destruct l2 as [|c l2]; [by injection E as <-|]. rewrite last_cons_cons in E.
      by rewrite E. }
    rewrite Et in Ht. assert (block_lo a = block_lo b) as Elo.
    { unfold block_lo at 1. rewrite Er. apply lo_new. }
    assert (block_size a = n) as Esz by (unfold block_size; by rewrite Er).
    rewrite block_hi_eq in *. lia. }
  destruct (deallocate_ok s1 l (taken b n) k' Hl' Hoc Hfst eq_refl) as (s2&E2&Hl2&Hp2).
  exists s2. split; [done|]. rewrite (linked_view _ _ Hl2). split; [done|]. by rewrite Hp2.
Qed.

(** [i] rounds of allocating [n] pages and giving them back. *)
Fixpoint cycles (i : nat) n s : rust (AllocatorInner * result unit Error) :=
  match i with
  | O => Ret (s, Ok tt)
  | S i =>
      '(s, res) ← allocate s n;
      match res with
      | Err e => Ret (s, Err e)
      | Ok r =>
          '(s, res) ← deallocate s r;
          match res with
          | Err e => Ret (s, Err e)
          | Ok _ => cycles i n s
          end
      end
  end.

Lemma cycles_ok s n i :
  debug_assertions = false -> inv s -> 0 < n -> unused_runs s <> [] ->
  (exists b, b ∈ view s /\ status b = Free /\ n <= block_size b) ->
  exists s', cycles i n s = Ret (s', Ok tt) /\ view s' = view s /\ pool s' ≡ₚ pool s.
Proof.
  intros Hrel. revert s. induction i as [|i IH]; intros s Hi Hn Hu Hb; [by exists s|].
  simpl. pose proof (allocate_total s n Hi ltac:(lia)) as Hres.
  destruct (allocate s n) as [[s1 [r|e]]|w] eqn:E; cycle 1.
  - inversion Hres as [|Hno|]; subst. rewrite Forall_forall in Hno.
    destruct Hb as (b&Hb&Hs&?). specialize (Hno _ Hb Hs). lia.
  - inversion Hres as [| |b ? _ _ _ Hno]; subst. exfalso. apply Hno.
    pose proof (linked_unused _ _ (inv_linked _ Hi)) as Hf.
    destruct (unused_runs s) as [|q u] eqn:Eu; [done|].
    apply Forall_cons in Hf as [[c Hc] _]. exists q, u, c. split_and!; try done. congruence.
  - destruct (allocate_deallocate_ok s n s1 r Hi Hn E) as (s2&E2&Hv&Hp).
    simpl. rewrite E2. simpl. pose proof (deallocate_total s1 r) as Hd.
    assert (Hi1 : inv s1).
    { inversion Hres as [l b ? p ? Ev Hb' Hsz _ _ Hl' _| |]; subst.
      pose proof Hi as [_ Ho Hc]. rewrite Ev in Ho, Hc.
      eapply inv_intro; [exact Hl'|by apply carve_ordered|by apply carve_coalesced]. }
    specialize (Hd Hi1). rewrite E2 in Hd.
    inversion Hd as [l b ? ? Ev <- Hb' _ Hl' _| |]; subst.
    destruct Hi1 as [_ Ho Hc]. rewrite Ev in Ho, Hc.
    destruct (freed_block l b _ s2 Ho Hc Hb' Hl') as [Hi2 _].
    destruct (IH s2) as (s3&E3&Hv3&Hp3); [done|done| |by rewrite Hv|].
    + intros Hnil. pose proof (linked_runs _ _ (inv_linked _ Hi)) as H1.
      pose proof (linked_runs _ _ (inv_linked _ Hi2)) as H2.
      apply Forall2_length in H1, H2. apply Permutation_length in Hp. unfold pool in Hp.
      rewrite !length_app, Hnil in Hp. rewrite Hv in H2. simpl in Hp.
      destruct (unused_runs s); [done|]. simpl in Hp. lia.
    + exists s3. split; [done|]. split; [congruence|by rewrite Hp3].
Qed.
End cycles.

(** * Properties *)

(** A small allocator for the witnesses: one tracking run, eight free pages
    and two spare run structures. *)
Definition small_state : AllocatorInner :=
  MkAllocatorInner
    {[ 0 := block 0 2 Tracking; 64 := block 2 8 Free;
       128 := MkRunState empty Unused; 192 := MkRunState empty Unused ]}
    [0; 64] [64] [128; 192].

Lemma small_state_inv : inv small_state.
Proof.
  apply (inv_intro _ [block 0 2 Tracking; block 2 8 Free]).
  - split.
    + by repeat constructor.
    + repeat constructor; by eexists.
    + apply (bool_decide_unpack _). by vm_compute.
    + apply (bool_decide_unpack _). by vm_compute.
    + intros p. simpl. rewrite list_elem_of_singleton. split.
      * intros ->. split; [set_solver|]. by eexists.
      * intros [[->|[->|[]%elem_of_nil]%elem_of_cons]%elem_of_cons (b&Hb&Hs)]; [|done].
        vm_compute in Hb. injection Hb as <-. discriminate Hs.
  - by vm_compute.
  - simpl. split; [|done]. intros [[Hs _] _]. discriminate Hs.
Qed.

Section properties.
Context `{Profile}.

(** The pages after a run was carved, and after one was freed. *)
Lemma carved_pages s l b k n s' :
  inv s -> view s = l ++ b :: k -> status b = Free -> 0 <= n <= block_size b ->
  linked s' (carve l b k n) ->
  inv s' /\ (forall pg, in_range pg (range (taken b n)) -> status_of s pg = Some Free) /\
  (forall pg, status_of s' pg =
     if decide (in_range pg (range (taken b n))) then Some Allocated else status_of s pg).
Proof.
  intros [_ Ho Hc] Ev Hb Hsz Hl'. rewrite Ev in Ho, Hc. split_and!.
  - eapply inv_intro; [exact Hl'|by apply carve_ordered|by apply carve_coalesced].
  - intros pg Hpg. unfold status_of. rewrite Ev. by eapply carve_was_free.
  - intros pg. unfold status_of. rewrite (linked_view _ _ Hl'), Ev. by apply carve_page_status.
Qed.

Lemma freed_pages s l b k s' :
  inv s -> view s = l ++ b :: k -> status b = Allocated -> linked s' (coalesce_blocks l (freed b) k) ->
  inv s' /\ forall pg, status_of s' pg =
    if decide (in_range pg (range b)) then Some Free else status_of s pg.
Proof.
  intros [_ Ho Hc] Ev Hb Hl'. unfold status_of at 2. rewrite Ev in Ho, Hc |- *.
  by apply (freed_block l b k s').
Qed.

(** C1. [allocate], on every branch. When it succeeds the allocator stays
    well formed, the range has the requested length and starts where the
    first free run with room for it starts, all its pages were free and
    become allocated, and no other page changes. It reports insufficient
    memory only when every free run is too short, and then changes
    nothing. It panics only when it must split a run and no run structure
    that [initialize] accepts is left. *)
Theorem allocate_spec s n :
  inv s -> 0 <= n ->
  match allocate s n with
  | Ret (s', Ok r) =>
      inv s' /\ size r = n /\
      (exists p b, first_fit (memory s) (free s) n p /\ memory s !! p = Some b /\
         lo r = block_lo b) /\
      (forall pg, in_range pg r -> status_of s pg = Some Free) /\
      (forall pg, status_of s' pg =
         if decide (in_range pg r) then Some Allocated else status_of s pg)
  | Ret (s', Err e) =>
      s' = s /\ e = MkError InsufficientMemory /\
      (forall b, b ∈ view s -> status b = Free -> block_size b < n)
  | Panic _ => ~ spare_run s /\ (exists b, b ∈ view s /\ status b = Free /\ n < block_size b)
  end.
Proof.
  intros Hi Hn. destruct (allocate_total s n Hi Hn) as [l b k p s' Ev Hb Hsz Hp Hfit Hl' _|Hno|b w].
  - destruct (carved_pages s l b k n s' Hi Ev Hb Hsz Hl') as (?&?&?). split_and!; try done.
    exists p, b. split_and!; [done..|]. apply lo_new.
  - split_and!; [done..|]. rewrite Forall_forall in Hno. exact Hno.
  - eauto.
Qed.

(** C2. [deallocate], on every branch. It never panics. When it succeeds
    the range was an allocated run, all its pages become free, no other
    page changes, the allocator stays well formed (in particular adjacent
    free runs are joined), and no run structure is lost. On an error
    nothing changes: the address is out of bounds exactly when no run has
    that range, and invalid when the first such run is not allocated. *)
Theorem deallocate_spec s r :
  inv s ->
  match deallocate s r with
  | Ret (s', Ok _) =>
      inv s' /\ r ∈ allocated_ranges (view s) /\ pool s' ≡ₚ pool s /\
      (forall pg, status_of s' pg =
         if decide (in_range pg r) then Some Free else status_of s pg)
  | Ret (s', Err e) =>
      s' = s /\
      (e = MkError AddressOutOfBounds /\ ~ (exists b, b ∈ view s /\ range b = r) \/
       e = MkError InvalidAddress /\
         exists b, b ∈ view s /\ range b = r /\ status b <> Allocated)
  | Panic _ => False
  end.
Proof.
  intros Hi. destruct (deallocate_total s r Hi) as [l b k s' Ev <- Hb Hf Hl' Hp|l b k Ev <- Hb _|Hf].
  - destruct (freed_pages s l b k s' Hi Ev Hb Hl') as [? Hst]. split_and!; try done.
    rewrite Ev, allocated_ranges_app, allocated_ranges_cons, decide_True by done. set_solver.
  - split; [done|]. right. split; [done|]. exists b. rewrite Ev. set_solver.
  - split; [done|]. left. split; [done|]. intros (b&Hb&Hr).
    rewrite Forall_forall in Hf. by eapply Hf.
Qed.

(** Safety of every sequence of allocations and deallocations, with
    any arguments and any outcomes, from a well-formed allocator: the
    outstanding ranges are exactly the allocated runs, no page belongs to
    two of them, a page is marked allocated iff one of them contains it,
    the number of free plus allocated pages never changes, and no run
    structure is lost or duplicated. *)
Theorem client_safety s live s' live' :
  rtc step (s, live) (s', live') -> client_inv (s, live) ->
  inv s' /\ live' ≡ₚ allocated_ranges (view s') /\
  (forall pg, (length (holders pg live') <= 1)%nat) /\
  (forall pg, status_of s' pg = Some Allocated <-> exists r, r ∈ live' /\ in_range pg r) /\
  managed_pages s' = managed_pages s /\ pool s' ≡ₚ pool s.
Proof.
  intros Hs Hc. destruct (steps_client_inv _ _ Hs Hc) as ([Hi Hl]&Hp&Hm). simpl in *.
  split_and!; try done.
  - intros pg. unfold holders. rewrite Hl. eapply holders_at_most_one, Hi.
  - intros pg. rewrite allocated_page by done. by setoid_rewrite Hl.
Qed.

(** C38. Giving back what was just allocated restores the run list: the
    split and the join are inverse, for every request of at least one
    page. *)
Theorem allocate_deallocate_roundtrip s n s1 r :
  inv s -> 0 < n -> allocate s n = Ret (s1, Ok r) ->
  exists s2, deallocate s1 r = Ret (s2, Ok tt) /\ view s2 = view s /\ pool s2 ≡ₚ pool s.
Proof. apply allocate_deallocate_ok. Qed.

(** A double free of a non-empty range is always refused, and does
    not disturb the allocator. *)
Theorem double_free_refused s r s1 :
  inv s -> 0 < size r -> deallocate s r = Ret (s1, Ok tt) ->
  exists e, deallocate s1 r = Ret (s1, Err e).
Proof.
  intros Hi Hr E. pose proof (deallocate_total s r Hi) as Hres. rewrite E in Hres.
  inversion Hres as [l b k ? Ev Hrb Hb _ Hl' _| |]; subst; simplify_eq.
  destruct Hi as [_ Ho Hc]. rewrite Ev in Ho, Hc.
  destruct (freed_block l b k s1 Ho Hc Hb Hl') as [Hi1 Hst].
  destruct (deallocate_total s1 (range b) Hi1) as [l' c k' s2 Ev' Er Hcs|l' c k'|]; [|eauto..].
  exfalso. assert (Hpg : in_range (lo (range b)) (range b)).
  { unfold in_range. change (hi (range b)) with (lo (range b) + size (range b)). lia. }
  specialize (Hst (lo (range b))). rewrite decide_True in Hst by done.
  rewrite (inv_page_status s1 l' c k') in Hst by (done || by rewrite Er). congruence.
Qed.

(** C39. Without debug assertions an allocator can allocate and free
    forever: from any well-formed state with a spare run structure and a
    free run of at least [n] pages, any number of rounds of allocating [n]
    pages and giving them back succeeds and restores the run list. *)
Theorem release_cycles s n i :
  debug_assertions = false -> inv s -> 0 < n -> unused_runs s <> [] ->
  (exists b, b ∈ view s /\ status b = Free /\ n <= block_size b) ->
  exists s', cycles i n s = Ret (s', Ok tt) /\ view s' = view s.
Proof.
  intros Hrel Hi Hn Hu Hb. destruct (cycles_ok s n i Hrel Hi Hn Hu Hb) as (s'&?&?&_). eauto.
Qed.
End properties.

(** With debug assertions (the profile that is built and run) the same
    client eventually panics: [coalesce] returns run structures to the spare
    list with their last status, which [initialize] asserts to be [Unused],
    so once every spare run was used the next allocation fails although
    free memory and spare runs are left. *)
Theorem dev_cycles_panic :
  cycles (H := dev_profile) 3 3 small_state = Panic AssertFailed /\
  exists s', cycles (H := dev_profile) 2 3 small_state = Ret (s', Ok tt) /\
    view s' = view small_state /\ length (unused_runs s') = 2%nat.
Proof.
  split; [by vm_compute|]. eexists. split; [by vm_compute|]. by vm_compute.
Qed.

(** Empty allocations cannot all be given back: two requests for no
    pages get the same range, and once one of them was freed the other is
    refused. *)
Theorem empty_allocations_leak :
  exists s1 s2 s3 r,
    allocate (H := release_profile) small_state 0 = Ret (s1, Ok r) /\
    allocate (H := release_profile) s1 0 = Ret (s2, Ok r) /\
    deallocate (H := release_profile) s2 r = Ret (s3, Ok tt) /\
    deallocate (H := release_profile) s3 r = Ret (s3, Err (MkError InvalidAddress)) /\
    r ∈ allocated_ranges (view s3).
Proof.
  do 4 eexists. split; [by vm_compute|]. split; [by vm_compute|]. split; [by vm_compute|].
  split; [by vm_compute|]. apply (bool_decide_unpack _). by vm_compute.
Qed.

Lemma small_client_inv : client_inv (small_state, []).
Proof. split; [apply small_state_inv|]. by vm_compute. Qed.

Lemma allocate_spec_witness :
  match allocate (H := dev_profile) small_state 3 with
  | Ret (s', Ok r) => inv s' /\ size r = 3
  | _ => False
  end.
Proof.
  pose proof (allocate_spec (H := dev_profile) small_state 3 small_state_inv ltac:(lia)) as Hsp.
  destruct (allocate small_state 3) as [[s' [r|e]]|w] eqn:E.
  - destruct Hsp as (?&?&_). by split.
  - vm_compute in E. discriminate E.
  - vm_compute in E. discriminate E.
Defined.

Lemma deallocate_spec_witness :
  match deallocate (H := dev_profile) small_state (MkAddressRange (MkPageFrame 2) 8) with
  | Ret (s', Err e) => s' = small_state /\ e = MkError InvalidAddress
  | _ => False
  end.
Proof.
  pose proof (deallocate_spec (H := dev_profile) small_state (MkAddressRange (MkPageFrame 2) 8)
                small_state_inv) as Hsp.
  destruct (deallocate small_state _) as [[s' [r|e]]|w] eqn:E.
  - vm_compute in E. discriminate E.
  - destruct Hsp as [-> _]. split; [done|]. vm_compute in E. by injection E as <-.
  - done.
Defined.

(** One allocation of three pages. *)
Definition after_three : AllocatorInner :=
  match allocate (H := dev_profile) small_state 3 with
  | Ret (s', _) => s'
  | Panic _ => small_state
  end.

Lemma small_step :
  step (H := dev_profile) (small_state, []) (after_three, [MkAddressRange (MkPageFrame 2) 3]).
Proof. apply (step_allocate _ _ [] 3); by vm_compute. Qed.

Lemma after_three_inv : inv after_three.
Proof. by destruct (step_client_inv (H := dev_profile) _ _ small_step small_client_inv) as [[? _] _]. Qed.

Lemma client_safety_witness :
  inv after_three /\ managed_pages after_three = 8.
Proof.
  destruct (client_safety (H := dev_profile) _ _ _ _ (rtc_once _ _ small_step) small_client_inv) as (?&_&_&_&Hm&_).
  split; [done|]. rewrite Hm. by vm_compute.
Defined.

Lemma allocate_deallocate_roundtrip_witness :
  exists s2, deallocate (H := dev_profile) after_three (MkAddressRange (MkPageFrame 2) 3) = Ret (s2, Ok tt) /\
             view s2 = view small_state /\ pool s2 ≡ₚ pool small_state.
Proof.
  apply (allocate_deallocate_roundtrip (H := dev_profile) small_state 3 after_three _
           small_state_inv ltac:(lia)).
  by vm_compute.
Defined.

(** ... and giving it back. *)
Definition after_free : AllocatorInner :=
  match deallocate (H := dev_profile) after_three (MkAddressRange (MkPageFrame 2) 3) with
  | Ret (s', _) => s'
  | Panic _ => small_state
  end.

Lemma double_free_refused_witness :
  exists e, deallocate (H := dev_profile) after_free (MkAddressRange (MkPageFrame 2) 3) = Ret (after_free, Err e).
Proof.
  apply (double_free_refused (H := dev_profile) after_three (MkAddressRange (MkPageFrame 2) 3) after_free
           after_three_inv); by vm_compute.
Defined.

Lemma release_cycles_witness :
  exists s', cycles (H := release_profile) 1000 3 small_state = Ret (s', Ok tt) /\
             view s' = view small_state.
Proof.
  apply (release_cycles (H := release_profile) small_state 3 1000); try done.
  - apply small_state_inv.
  - exists (block 2 8 Free). split; [apply (bool_decide_unpack _); by vm_compute|]. done.
Defined.
