(* ===== verification/RootAllocatorDisplay.v ===== *)
(** The allocator's report of its state ([Display] for the allocator's runs
    in [kernel/src/mm/root_allocator.rs]): it walks the run list and, for
    every free run, the free list. *)
From Stdlib Require Import Ascii.
From S2P Require Import Prelude Address IntrusiveList RootAllocator Blocks RootAllocatorLinks.
From S2P Require Import RootAllocatorSpec.

Definition line_feed : string := String (ascii_of_nat 10) "".

Definition debug_Status (st : Status) : string :=
  match st with Free => "Free" | Allocated => "Allocated" | Tracking => "Tracking" | Unused => "Unused" end.

Section display.
Context `{Profile}.
Implicit Types (s : AllocatorInner) (p : RunPtr).

Definition display_frame (f : PageFrame) : string := display_page "PF" f.

(** [Display for RunState]; [Display for Run] is the same, as nothing holds
    the run's [RefCell] meanwhile. *)
Definition display_run (st : RunState) : rust string :=
  e ← range_end (range st);
  Ret (display_frame (start (range st)) +:+ " - " +:+ display_frame e +:+ " (" +:+
       pretty (size (range st)) +:+ " page frames) " +:+ debug_Status (status st)).

(** The neighbour that a cursor of the free list sees. *)
Definition display_neighbour s (r : option RunPtr) : rust string :=
  match r with
  | Some r =>
      st ← run_state s r;
      e ← range_end (range st);
      Ret (display_frame (start (range st)) +:+ " - " +:+ display_frame e +:+ line_feed)
  | None => Ret ("none" +:+ line_feed)
  end.

Definition display_entry s p : rust string :=
  st ← run_state s p;
  run ← display_run st;
  links ←
    (if decide (status st = Free) then
       _ ← debug_assert (free_link_is_linked s p);
       cursor ← cursor_from_ptr (free s) p;
       prev ← display_neighbour s (peek_prev (free s) cursor);
       next ← display_neighbour s (peek_next (free s) cursor);
       Ret ("    previous free: " +:+ prev +:+ "    next free: " +:+ next)
     else Ret "");
  Ret ("* " +:+ run +:+ line_feed +:+ links).

Fixpoint display_runs s (ps : list RunPtr) : rust string :=
  match ps with
  | [] => Ret ""
  | p :: ps => entry ← display_entry s p; rest ← display_runs s ps; Ret (entry +:+ rest)
  end.

(** [Display for DisplayAllocatorState]. *)
Definition display_state s : rust string :=
  entries ← display_runs s (runs s);
  Ret (entries +:+ pretty (Z.of_nat (length (unused_runs s))) +:+ " unused runs" +:+ line_feed).

(** * What it says *)

(** The text for a range of pages, and for a block with its neighbours in
    the free list. *)
Definition range_line (r : PageFrameRange) : string :=
  display_frame (start r) +:+ " - " +:+ display_frame (new (hi r)).

Definition neighbour_line (b : option RunState) : string :=
  from_option (fun b => range_line (range b)) "none" b +:+ line_feed.

Definition block_lines (b : RunState) (links : option (option RunState * option RunState)) : string :=
  "* " +:+ range_line (range b) +:+ " (" +:+ pretty (size (range b)) +:+ " page frames) " +:+
  debug_Status (status b) +:+ line_feed +:+
  match links with
  | Some (prev, next) => "    previous free: " +:+ neighbour_line prev +:+ "    next free: " +:+ neighbour_line next
  | None => ""
  end.

(** The blocks before and behind a run in the free list. *)
Definition free_neighbours s p : option (option RunState * option RunState) :=
  i ← position (free s) p;
  Some ((if decide (i = 0%nat) then None else free s !! (i - 1)%nat) ≫= fun q => memory s !! q,
        free s !! S i ≫= fun q => memory s !! q).

Lemma inv_block s p :
  inv s -> p ∈ runs s -> exists b, memory s !! p = Some b /\ b ∈ view s /\ range_wf (range b).
Proof.
  intros [Hl Ho _] Hp. destruct (holds_lookup _ _ _ _ (linked_runs _ _ Hl) Hp) as (b&Hb&Hm).
  exists b. split; [done|]. split; [done|]. by eapply ordered_block_wf; [|exact Ho|done].
Qed.

Lemma inv_free_block s p : inv s -> p ∈ free s -> exists b, memory s !! p = Some b /\ range_wf (range b).
Proof.
  intros Hi Hp. apply (linked_free _ _ (inv_linked _ Hi)) in Hp as [Hp _].
  destruct (inv_block _ _ Hi Hp) as (b&?&_&?). by exists b.
Qed.

Lemma display_neighbour_ok s (o : option RunPtr) :
  inv s -> (forall q, o = Some q -> q ∈ free s) ->
  display_neighbour s o = Ret (neighbour_line (o ≫= fun q => memory s !! q)).
Proof.
  intros Hi Ho. destruct o as [q|]; [|done]. destruct (inv_free_block s q Hi (Ho q eq_refl)) as (b&Hb&Hwf).
  unfold display_neighbour. rewrite (run_state_ok _ _ _ Hb). cbn [mbind rust_bind option_bind].
  rewrite range_end_ok by done. cbn [mbind rust_bind option_bind]. rewrite Hb.
  unfold neighbour_line, range_line. cbn [from_option]. by rewrite !string_app_assoc.
Qed.

Lemma position_spec l p : p ∈ l -> exists i, position l p = Some i /\ l !! i = Some p.
Proof.
  induction l as [|q l IH]; [by intros ?%elem_of_nil|]. intros Hp. cbn [position].
  destruct (decide (q = p)) as [->|Hne]; [by exists 0%nat|].
  apply elem_of_cons in Hp as [->|Hp]; [done|]. destruct (IH Hp) as (i&->&Hi). by exists (S i).
Qed.

Lemma peek_at l i p :
  l !! i = Some p ->
  peek_prev l i = (if decide (i = 0%nat) then None else l !! (i - 1)%nat) /\ peek_next l i = l !! S i.
Proof.
  intros Hi%lookup_lt_Some. unfold peek_prev, peek_next, cursor_get, move_prev, move_next.
  split; [|by rewrite decide_False by lia]. destruct i as [|i]; cbn.
  - by apply lookup_ge_None.
  - by rewrite Nat.sub_0_r.
Qed.

Lemma display_entry_ok s p :
  inv s -> p ∈ runs s ->
  exists b, memory s !! p = Some b /\
    display_entry s p = Ret (block_lines b (if decide (status b = Free) then free_neighbours s p else None)).
Proof.
  intros Hi Hp. destruct (inv_block _ _ Hi Hp) as (b&Hb&_&Hwf). exists b. split; [done|].
  unfold display_entry. rewrite (run_state_ok _ _ _ Hb). cbn [mbind rust_bind].
  unfold display_run. rewrite range_end_ok by done. cbn [mbind rust_bind].
  destruct (decide (status b = Free)) as [Hf|_]; cbn [mbind rust_bind].
  - assert (Hpf : p ∈ free s) by (by apply (linked_in_free _ _ _ _ (inv_linked _ Hi) Hp Hb)).
    unfold free_link_is_linked. rewrite (proj2 (is_linked_true _ _) Hpf), debug_assert_true. cbn [mbind rust_bind].
    destruct (position_spec _ _ Hpf) as (i&Ei&Hl). unfold cursor_from_ptr. rewrite Ei. cbn [deref mbind rust_bind].
    destruct (peek_at _ _ _ Hl) as [-> ->].
    assert (Hprev : forall q, (if decide (i = 0%nat) then None else free s !! (i - 1)%nat) = Some q -> q ∈ free s).
    { intros q. destruct (decide (i = 0%nat)); [done|]. apply list_elem_of_lookup_2. }
    rewrite (display_neighbour_ok s _ Hi Hprev). cbn [mbind rust_bind].
    rewrite (display_neighbour_ok s (free s !! S i) Hi) by (intros q; apply list_elem_of_lookup_2).
    cbn [mbind rust_bind]. unfold free_neighbours. rewrite Ei. cbn [mbind option_bind].
    unfold block_lines, range_line. by rewrite !string_app_assoc.
  - unfold block_lines, range_line. by rewrite !string_app_assoc.
Qed.

Lemma display_runs_ok s ps :
  inv s -> (forall p, p ∈ ps -> p ∈ runs s) ->
  display_runs s ps = Ret (foldr (fun p rest => from_option (fun b =>
    block_lines b (if decide (status b = Free) then free_neighbours s p else None)) "" (memory s !! p) +:+ rest)
    "" ps).
Proof.
  intros Hi. induction ps as [|p ps IH]; intros Hps; [done|]. cbn [display_runs foldr].
  destruct (display_entry_ok s p Hi ltac:(set_solver)) as (b&Hb&->). cbn [mbind rust_bind].
  rewrite IH by set_solver. cbn [mbind rust_bind]. by rewrite Hb.
Qed.

Lemma display_state_total s : inv s -> exists text, display_state s = Ret text.
Proof.
  intros Hi. unfold display_state. rewrite (display_runs_ok s (runs s) Hi) by done. by eexists.
Qed.

(** The report of a well-formed allocator never panics, under its debug
    assertion either: it has one entry per run, in address order, with the
    run's pages and status, and for exactly the free runs the neighbours in
    the free list; then the number of spare run structures. *)
Theorem display_state_spec s :
  inv s ->
  display_state s = Ret (
    foldr (fun p rest => from_option (fun b =>
      block_lines b (if decide (status b = Free) then free_neighbours s p else None)) "" (memory s !! p) +:+ rest)
      "" (runs s) +:+
    pretty (Z.of_nat (length (unused_runs s))) +:+ " unused runs" +:+ line_feed) /\
  forall p b, p ∈ runs s -> memory s !! p = Some b -> (status b = Free <-> is_Some (free_neighbours s p)).
Proof.
  intros Hi. split.
  - unfold display_state. by rewrite (display_runs_ok s (runs s) Hi).
  - intros p b Hp Hb. rewrite <-(linked_in_free _ _ _ _ (inv_linked _ Hi) Hp Hb). unfold free_neighbours. split.
    + intros Hf. destruct (position_spec _ _ Hf) as (i&->&_). by eexists.
    + destruct (decide (p ∈ free s)); [done|]. rewrite position_None by done. by intros [].
Qed.
End display.

Lemma display_state_spec_witness :
  exists text, display_state (H := dev_profile) small_state = Ret text /\ (0 < String.length text)%nat.
Proof.
  eexists. split; [exact (proj1 (display_state_spec (H := dev_profile) small_state small_state_inv))|].
  apply Nat.ltb_lt. vm_compute. reflexivity.
Defined.
