(* ===== verification/RootAllocatorInit.v ===== *)
(** Initialisation of the root allocator ([Allocator::build]): the loop that
    combines the usable ranges, the loop that adds them, and the state the
    allocator starts in for any memory map of disjoint usable regions. *)
From stdpp Require Import sorting.
From S2P Require Import Prelude Address IntrusiveList RootAllocator Blocks RootAllocatorLinks.
From S2P Require Import RootAllocatorSpec.

Implicit Types (s : AllocatorInner) (b : RunState) (l k bs : list RunState).
Implicit Types (r : PageFrameRange) (rs : list PageFrameRange) (n pg : Z).

(** * Lists of ranges *)

Definition covered pg rs : Prop := Exists (in_range pg) rs.

#[export] Instance in_range_dec pg r : Decision (in_range pg r).
Proof. unfold in_range. apply _. Defined.

Definition starts_before r r' : Prop := lo r <= lo r'.

(** Well formed and not empty. *)
Definition proper r : Prop := range_wf r /\ 0 < size r.

(** No page belongs to two of the ranges. *)
Definition disjoint_ranges rs : Prop := forall pg, (length (holders pg rs) <= 1)%nat.

Lemma holders_cons pg r rs :
  holders pg (r :: rs) = if decide (in_range pg r) then r :: holders pg rs else holders pg rs.
Proof. unfold holders. rewrite filter_cons. repeat case_decide; done. Qed.

Lemma holders_covered pg rs : holders pg rs = [] <-> ~ covered pg rs.
Proof.
  induction rs as [|r rs IH]; [by split; [intros _ []%Exists_nil|]|].
  rewrite holders_cons. unfold covered in *. rewrite Exists_cons. case_decide; naive_solver.
Qed.

Lemma disjoint_cons r rs :
  disjoint_ranges (r :: rs) <->
  disjoint_ranges rs /\ forall pg, in_range pg r -> ~ covered pg rs.
Proof.
  unfold disjoint_ranges. split.
  - intros Hd. split.
    + intros pg. specialize (Hd pg). rewrite holders_cons in Hd. case_decide; simpl in Hd; lia.
    + intros pg Hpg. specialize (Hd pg). rewrite holders_cons, decide_True in Hd by done.
      apply holders_covered. destruct (holders pg rs); [done|]. simpl in Hd. lia.
  - intros [Hd Hn] pg. rewrite holders_cons. case_decide as Hpg; [|done].
    rewrite (proj2 (holders_covered _ _) (Hn _ Hpg)). simpl. lia.
Qed.

Lemma disjoint_perm rs rs' : rs ≡ₚ rs' -> disjoint_ranges rs -> disjoint_ranges rs'.
Proof. intros Hp Hd pg. unfold holders. rewrite <-Hp. apply Hd. Qed.

Lemma covered_perm pg rs rs' : rs ≡ₚ rs' -> covered pg rs <-> covered pg rs'.
Proof. intros Hp. unfold covered. rewrite !Exists_exists. by setoid_rewrite Hp. Qed.

Lemma disjoint_unique rs r r' pg :
  disjoint_ranges rs -> r ∈ rs -> r' ∈ rs -> in_range pg r -> in_range pg r' -> r = r'.
Proof.
  intros Hd Hr Hr' H1 H2. specialize (Hd pg).
  assert (Hin : r ∈ holders pg rs) by (by apply list_elem_of_filter).
  assert (Hin' : r' ∈ holders pg rs) by (by apply list_elem_of_filter).
  destruct (holders pg rs) as [|x [|y h]]; [set_solver| |simpl in Hd; lia].
  apply list_elem_of_singleton in Hin as ->. by apply list_elem_of_singleton in Hin' as ->.
Qed.

Lemma proper_first r : proper r -> in_range (lo r) r.
Proof. intros [_ ?]. unfold in_range, hi. lia. Qed.

(** * The combining loop *)

Section combine.
Context `{Profile}.

(** What the loop does to the rest of the list when [p] is the range
    before the index. *)
Fixpoint combine_from (p : PageFrameRange) rs : list PageFrameRange :=
  match rs with
  | [] => [p]
  | c :: rs =>
      if decide (lo c <= hi p)
      then combine_from (MkAddressRange (start p) (hi c - lo p)) rs
      else p :: combine_from c rs
  end.

(** Neighbours start and end in order. *)
Fixpoint staircase rs : Prop :=
  match rs with
  | a :: ((b :: _) as rs) => lo a <= lo b /\ hi a <= hi b /\ staircase rs
  | _ => True
  end.

(** Neighbours leave at least one page between them. *)
Fixpoint gaps rs : Prop :=
  match rs with
  | a :: ((b :: _) as rs) => hi a < lo b /\ gaps rs
  | _ => True
  end.

Definition join (p c : PageFrameRange) : PageFrameRange :=
  MkAddressRange (start p) (hi c - lo p).

Lemma hi_join p c : hi (join p c) = hi c.
Proof. unfold join, hi, lo. simpl. lia. Qed.

Lemma join_proper p c :
  proper p -> proper c -> lo p <= lo c -> proper (join p c).
Proof.
  intros [(?&?&?) ?] [(?&?&?) ?] ?. unfold proper, range_wf. rewrite hi_join.
  change (lo (join p c)) with (lo p). change (size (join p c)) with (hi c - lo p).
  unfold hi in *. lia.
Qed.

Lemma join_staircase p c rs :
  staircase (p :: c :: rs) -> staircase (join p c :: rs).
Proof.
  intros (?&?&Hs). destruct rs as [|d rs]; [done|]. destruct Hs as (?&?&?).
  simpl. rewrite hi_join. split; [|done]. unfold join, lo in *. simpl. lia.
Qed.

Lemma join_pages p c pg :
  lo p <= lo c -> hi p <= hi c -> lo c <= hi p ->
  in_range pg (join p c) <-> in_range pg p \/ in_range pg c.
Proof.
  intros. unfold in_range. rewrite hi_join. change (lo (join p c)) with (lo p).
  unfold hi in *. lia.
Qed.

Lemma combine_step pre p c rs fuel :
  proper p -> proper c -> lo p <= lo c ->
  combine_loop (S fuel) (pre ++ p :: c :: rs) (S (length pre)) =
  if decide (lo c <= hi p)
  then combine_loop fuel (pre ++ join p c :: rs) (S (length pre))
  else combine_loop fuel ((pre ++ [p]) ++ c :: rs) (S (length (pre ++ [p]))).
Proof.
  intros Hp Hc Hle. pose proof Hp as [Hpw _]. pose proof Hc as [Hcw _].
  cbn [combine_loop]. rewrite decide_True by (rewrite length_app; simpl; lia).
  unfold index. replace (S (length pre) - 1)%nat with (length pre) by lia.
  rewrite lookup_app_middle. cbn [mbind rust_bind].
  assert (E : (pre ++ p :: c :: rs) = (pre ++ [p]) ++ c :: rs) by (by rewrite <-app_assoc).
  assert (El : S (length pre) = length (pre ++ [p])) by (rewrite length_app; simpl; lia).
  rewrite E, El, lookup_app_middle. cbn [mbind rust_bind].
  rewrite intersects_ok by done. cbn [mbind rust_bind].
  assert (lo p <= hi c) by (destruct Hcw as (?&?&?), Hc; unfold hi in *; lia).
  destruct (decide (lo c <= hi p)) as [Hd|Hd];
    [rewrite bool_decide_true by done|by rewrite bool_decide_false by tauto].
  rewrite range_end_ok by done. cbn [mbind rust_bind].
  unfold distance. rewrite as_usize_new, sub_usize_ok.
  - cbn [mbind rust_bind]. rewrite delete_middle, <-El, <-app_assoc. simpl.
    rewrite ?Nat.sub_0_r, insert_middle. done.
  - destruct Hcw as (?&?&?), Hpw as (?&?&?), Hc. unfold is_usize, hi, lo in *. lia.
Qed.

(** The loop stops within one iteration per remaining range. *)
Lemma combine_loop_ok fuel pre p rs :
  (length rs <= fuel)%nat -> Forall proper (p :: rs) -> staircase (p :: rs) ->
  combine_loop fuel (pre ++ p :: rs) (S (length pre)) = Ret (pre ++ combine_from p rs).
Proof.
  revert fuel pre p. induction rs as [|c rs IH]; intros fuel pre p Hf Hpr Hst.
  - destruct fuel; cbn [combine_loop];
      (rewrite decide_False; [done|rewrite length_app; simpl; lia]).
  - destruct fuel as [|fuel]; [simpl in Hf; lia|]. simpl in Hf.
    apply Forall_cons in Hpr as [Hp Hpr]. pose proof Hpr as [Hc Hrs]%Forall_cons_1.
    pose proof Hst as (Hle&Hhi&Hst').
    rewrite combine_step by done. simpl. case_decide.
    + apply IH; [lia| |by apply join_staircase].
      constructor; [by apply join_proper|done].
    + rewrite IH by (done || lia). by rewrite <-app_assoc.
Qed.

Lemma combine_from_spec p rs :
  Forall proper (p :: rs) -> staircase (p :: rs) ->
  Forall proper (combine_from p rs) /\ gaps (combine_from p rs) /\
  (exists n rs', combine_from p rs = MkAddressRange (start p) n :: rs') /\
  (forall pg, covered pg (combine_from p rs) <-> covered pg (p :: rs)) /\
  (length (combine_from p rs) <= S (length rs))%nat.
Proof.
  revert p. induction rs as [|c rs IH]; intros p Hpr Hst; cbn [combine_from].
  { split_and!; [done..| |done|simpl; lia]. exists (size p), []. by destruct p. }
  pose proof Hpr as [Hp [Hc Hrs]%Forall_cons_1]%Forall_cons_1.
  pose proof Hst as (Hle&Hhi&Hst'). case_decide as Hd.
  - destruct (IH (join p c)) as (?&?&(n&k&E)&Hcov&?);
      [constructor; [by apply join_proper|done]|by apply join_staircase|].
    fold (join p c). split; [done|]. split; [done|]. split; [by exists n, k|].
    split; [|simpl in *; lia].
    intros pg. rewrite Hcov. unfold covered. rewrite !Exists_cons, join_pages by done. tauto.
  - destruct (IH c) as (?&Hg&(n&k&E)&Hcov&?); [by constructor|done|]. split_and!.
    + by constructor.
    + rewrite E in *. simpl. split; [|done]. change (hi p < lo c). lia.
    + exists (size p), (combine_from c rs). by destruct p.
    + intros pg. specialize (Hcov pg). unfold covered in *.
      rewrite (Exists_cons _ p (c :: rs)), (Exists_cons _ p (combine_from c rs)). tauto.
    + simpl. lia.
Qed.

Lemma gaps_above p rs pg :
  gaps (p :: rs) -> Forall proper (p :: rs) -> covered pg rs -> hi p < pg.
Proof.
  revert p. induction rs as [|c rs IH]; intros p Hg Hpr; [by intros []%Exists_nil|].
  destruct Hg as [? Hg]. apply Forall_cons in Hpr as [_ Hpr].
  pose proof Hpr as [[(?&?&?) ?] _]%Forall_cons_1.
  intros [[? _]|Hc]%Exists_cons; [lia|]. specialize (IH _ Hg Hpr Hc). unfold hi in *. lia.
Qed.

Lemma gaps_disjoint rs : gaps rs -> Forall proper rs -> disjoint_ranges rs.
Proof.
  induction rs as [|p rs IH]; intros Hg Hpr; [intros pg; simpl; lia|].
  apply disjoint_cons. split.
  - apply IH; [destruct rs; [done|apply Hg]|by apply Forall_cons in Hpr as [_ ?]].
  - intros pg [_ ?] Hc. apply (gaps_above p) in Hc; [lia|done..].
Qed.

(** Disjoint ranges, sorted by where they start, are a staircase. *)
Lemma sorted_staircase rs :
  StronglySorted starts_before rs -> Forall proper rs -> disjoint_ranges rs ->
  staircase rs.
Proof.
  induction 1 as [|a rs Hs IH Ha]; [done|]. intros [Hpa Hpr]%Forall_cons_1 [Hd Hn]%disjoint_cons.
  specialize (IH Hpr Hd). destruct rs as [|b rs]; [done|].
  apply Forall_cons in Ha as [Hab _]. unfold starts_before in Hab. apply Forall_cons in Hpr as [Hpb _].
  split; [done|]. split; [|done]. destruct (decide (hi a <= lo b)) as [|Hlt].
  { destruct Hpb. unfold hi in *. lia. }
  exfalso. apply (Hn (lo b)); [unfold in_range; lia|]. left. by apply proper_first.
Qed.
End combine.

(** * Adding the ranges *)

Definition positive bs : Prop := Forall (fun b => 0 < block_size b) bs.

Lemma positive_coalesce l b k :
  positive (l ++ b :: k) -> positive (coalesce_blocks l b k).
Proof.
  assert (Hm : forall l a b k, positive (l ++ a :: b :: k) -> positive (l ++ merge a b :: k)).
  { intros ????. unfold positive. rewrite !Forall_app, !Forall_cons. unfold merge.
    intros (?&?&?&?). split_and!; try done. unfold block, block_size in *. simpl. lia. }
  intros Hp. unfold coalesce_blocks.
  destruct (merge_next_cases b k) as [(c&k'&->&_&->)|[_ ->]].
  - apply Hm in Hp. destruct (merge_prev_cases l (merge b c) k') as [(l'&a&->&_&->)|[_ ->]]; [|done].
    rewrite <-app_assoc in Hp. by apply Hm.
  - destruct (merge_prev_cases l b k) as [(l'&a&->&_&->)|[_ ->]]; [|done].
    rewrite <-app_assoc in Hp. by apply Hm.
Qed.

Lemma coalesce_blocks_length l b k :
  (length (coalesce_blocks l b k) <= length (l ++ b :: k))%nat.
Proof.
  unfold coalesce_blocks.
  destruct (merge_next_cases b k) as [(c&k'&->&_&->)|[_ ->]].
  - destruct (merge_prev_cases l (merge b c) k') as [(l'&a&->&_&->)|[_ ->]];
      rewrite !length_app; simpl; rewrite ?length_app; simpl; lia.
  - destruct (merge_prev_cases l b k) as [(l'&a&->&_&->)|[_ ->]];
      rewrite !length_app; simpl; rewrite ?length_app; simpl; lia.
Qed.

Lemma page_status_none bs b pg :
  page_status bs pg = None -> b ∈ bs -> ~ block_lo b <= pg < block_hi b.
Proof.
  induction bs as [|c bs IH]; [set_solver|]. simpl. case_decide; [done|].
  intros Hn [->|Hb]%elem_of_cons; [done|]. by apply IH.
Qed.

(** A range none of whose pages is accounted for overlaps no block. *)
Lemma apart_of_pages r bs :
  positive bs -> 0 < size r -> (forall pg, in_range pg r -> page_status bs pg = None) ->
  apart r bs.
Proof.
  unfold positive, apart. intros Hp Hr Hpg. apply Forall_forall. intros b Hb.
  rewrite Forall_forall in Hp. specialize (Hp _ Hb). split; [done|].
  assert (hi r = lo r + size r) by done.
  assert (block_hi b = block_lo b + block_size b) by done.
  destruct (decide (block_hi b <= lo r)) as [|H1]; [by left|].
  destruct (decide (hi r <= block_lo b)) as [|H2]; [by right|]. exfalso.
  apply (page_status_none bs b (Z.max (lo r) (block_lo b))); [apply Hpg|done|];
    unfold in_range; lia.
Qed.

(** The allocator while it is being filled. *)
Record filled s bs : Prop := {
  filled_linked : linked s bs;
  filled_ordered : ordered 0 bs;
  filled_coalesced : coalesced bs;
  filled_positive : positive bs;
}.

Section adding.
Context `{Profile}.

Lemma spare_count s bs s' bs' :
  linked s bs -> linked s' bs' -> pool s' ≡ₚ pool s ->
  (length (unused_runs s') + length bs' = length (unused_runs s) + length bs)%nat.
Proof.
  intros Hl Hl' Hp. apply Permutation_length in Hp. unfold pool in Hp.
  rewrite !length_app in Hp.
  pose proof (Forall2_length _ _ _ (linked_runs _ _ Hl)).
  pose proof (Forall2_length _ _ _ (linked_runs _ _ Hl')). lia.
Qed.

(** A free block that touches the range could be joined with it. *)
Definition separate r bs : Prop :=
  Forall (fun c => status c = Free -> hi r <> block_lo c /\ block_hi c <> lo r) bs.

Lemma separate_coalesce r l k :
  separate r (l ++ k) -> coalesce_blocks l (MkRunState r Free) k = l ++ MkRunState r Free :: k.
Proof.
  intros [Hl Hk]%Forall_app. unfold coalesce_blocks.
  destruct (merge_next_cases (MkRunState r Free) k) as [(c&k'&->&[Hs Hm]&_)|[_ ->]].
  - apply Forall_cons in Hk as [Hc _]. destruct (Hc (eq_sym Hs)) as [Hn _]. by destruct Hn.
  - destruct (merge_prev_cases l (MkRunState r Free) k) as [(l'&a&->&[Hs Hm]&_)|[_ ->]]; [|done].
    apply Forall_app in Hl as [_ [Ha _]%Forall_cons]. destruct (Ha Hs) as [_ Hn]. by destruct Hn.
Qed.

Lemma add_allocatable_range_filled s bs r :
  filled s bs -> unused_runs s <> [] -> proper r -> separate r bs ->
  (forall pg, in_range pg r -> page_status bs pg = None) ->
  exists s' bs', add_allocatable_range s r = Ret s' /\ filled s' bs' /\
    length (unused_runs s) = S (length (unused_runs s')) /\ bs' ≡ₚ MkRunState r Free :: bs /\
    (forall pg, page_status bs' pg =
       if decide (in_range pg r) then Some Free else page_status bs pg).
Proof.
  intros [Hl Ho Hc Hp] Hu [Hr Hsz] Hsep Hpg.
  destruct (add_allocatable_range_ok s bs r) as (s'&l&k&E&->&Ho'&Hl'&Hpool);
    [done..|by apply apart_of_pages|].
  pose proof (coalesced_app_l _ _ Hc) as Hcl.
  assert (Hck : coalesced k).
  { clear -Hc. induction l as [|a l IH]; [done|]. apply IH. by eapply coalesced_cons. }
  pose proof (coalesce_blocks_coalesced l (MkRunState r Free) k ltac:(done) Hcl Hck) as Hcc.
  rewrite separate_coalesce in Hl', Hcc by done.
  assert (Hperm : l ++ MkRunState r Free :: k ≡ₚ MkRunState r Free :: l ++ k) by solve_Permutation.
  exists s', (l ++ MkRunState r Free :: k).
  split; [done|]. split_and!; [split| |done|]; try done.
  - unfold positive in *. rewrite Hperm. by constructor.
  - pose proof (spare_count _ _ _ _ Hl Hl' Hpool) as Hn. apply Permutation_length in Hperm.
    simpl in Hperm. lia.
  - intros pg. case_decide as Hin.
    + by eapply (page_status_middle _ _ _ _ _ Ho').
    + by rewrite page_status_outside.
Qed.

(** Every range needs a spare run, and there is no other way to fail. *)
Lemma add_allocatable_ranges_filled rs s bs :
  filled s bs -> Forall proper rs -> gaps rs -> Forall (fun r => separate r bs) rs ->
  (forall pg, covered pg rs -> page_status bs pg = None) ->
  if decide (length rs <= length (unused_runs s))%nat then
    exists s' bs', add_allocatable_ranges s rs = Ret s' /\ filled s' bs' /\
      (forall pg, page_status bs' pg =
         if decide (covered pg rs) then Some Free else page_status bs pg)
  else add_allocatable_ranges s rs = Panic NotImplemented.
Proof.
  revert s bs. induction rs as [|r rs IH]; intros s bs Hf Hprs Hg Hsep Hnone.
  { rewrite decide_True by (simpl; lia). exists s, bs. done. }
  pose proof (gaps_disjoint _ Hg Hprs) as [_ Hn]%disjoint_cons.
  pose proof (fun pg => gaps_above r rs pg Hg Hprs) as Habove.
  apply Forall_cons in Hprs as [Hr Hpr]. apply Forall_cons in Hsep as [Hsr Hsrs].
  cbn [add_allocatable_ranges length].
  destruct (decide (unused_runs s = [])) as [Hu|Hu].
  { rewrite Hu, decide_False by (simpl; lia). unfold add_allocatable_range. by rewrite Hu. }
  destruct (add_allocatable_range_filled s bs r) as (s1&bs1&E1&Hf1&Hlen1&Hperm&Hst1); [done..| |].
  { intros pg Hpg. apply Hnone. by left. }
  rewrite E1. cbn [mbind rust_bind].
  specialize (IH s1 bs1 Hf1 Hpr). rewrite Hlen1.
  assert (IH' : if decide (length rs <= length (unused_runs s1))%nat then
    exists s' bs', add_allocatable_ranges s1 rs = Ret s' /\ filled s' bs' /\
      (forall pg, page_status bs' pg =
         if decide (covered pg rs) then Some Free else page_status bs1 pg)
    else add_allocatable_ranges s1 rs = Panic NotImplemented).
  { apply IH; [destruct rs; [done|apply Hg]| |].
    - apply Forall_forall. intros r' Hr'. rewrite Forall_forall in Hsrs, Hpr.
      unfold separate. rewrite Hperm. constructor; [|by apply Hsrs]. intros _.
      pose proof (Hpr _ Hr') as Hpr'. pose proof (Habove (lo r')) as Hlt.
      assert (Hcov : covered (lo r') rs) by (apply Exists_exists; exists r'; split; [done|by apply proper_first]).
      specialize (Hlt Hcov). destruct Hr as [_ ?], Hpr' as [_ ?].
      change (block_lo (MkRunState r Free)) with (lo r). change (block_hi (MkRunState r Free)) with (hi r).
      unfold hi in *. lia.
    - intros pg Hpg. rewrite Hst1, decide_False by naive_solver. apply Hnone. by right. }
  clear IH. case_decide as Hlen; [rewrite decide_True by lia|rewrite decide_False by lia; done].
  destruct IH' as (s2&bs2&E2&Hf2&Hst2). exists s2, bs2. split; [done|]. split; [done|].
  intros pg. rewrite Hst2, Hst1. pose proof (Exists_cons (in_range pg) r rs) as Hc.
  unfold covered in *. repeat case_decide; tauto.
Qed.
End adding.

(** * [Allocator::build] *)

(** The page frames of a region. *)
Definition pages_of (g : Region) : PageFrameRange :=
  MkAddressRange (new (as_usize (region_start g) / PAGE_SIZE))
    ((as_usize (region_end g) - as_usize (region_start g)) / PAGE_SIZE).

(** A usable region the allocator can take over: whole pages, below the half
    of the address space that [isize] covers, and not empty. *)
Record region_ok (g : Region) : Prop := {
  region_start_aligned : as_usize (region_start g) mod PAGE_SIZE = 0;
  region_end_aligned : as_usize (region_end g) mod PAGE_SIZE = 0;
  region_bounds : 0 <= as_usize (region_start g) < as_usize (region_end g);
  region_low : as_usize (region_end g) <= 2 ^ 63;
}.

Definition usable_regions (map : list Region) : list Region :=
  filter (fun g => region_kind g = Usable) map.

Record map_ok (map : list Region) : Prop := {
  map_regions : Forall region_ok (usable_regions map);
  map_disjoint : disjoint_ranges (pages_of <$> usable_regions map);
}.

(** Ranges of reserved page frames whose addresses fit. *)
Definition reserved_ok (reserved : list PageFrameRange) : Prop :=
  Forall (fun v => 0 <= lo v /\ 0 <= size v /\ hi v * PAGE_SIZE < usize_bound) reserved.

(** The region shares no address with, and does not touch, the range. *)
Definition clear_of (g : Region) (v : PageFrameRange) : Prop :=
  ~ (lo v * PAGE_SIZE <= as_usize (region_end g) /\ as_usize (region_start g) <= hi v * PAGE_SIZE).

#[export] Instance clear_of_dec g v : Decision (clear_of g v).
Proof. unfold clear_of. apply _. Defined.

(** A region with room for the scratch and tracking pages that keeps clear
    of the reserved ranges; the first one in the memory map is used. *)
Definition scratch_room (reserved : list PageFrameRange) (g : Region) : Prop :=
  region_kind g = Usable /\
  4 * PAGE_SIZE <= as_usize (region_end g) - as_usize (region_start g) /\
  Forall (clear_of g) reserved.

#[export] Instance scratch_room_dec reserved g : Decision (scratch_room reserved g).
Proof. unfold scratch_room. apply _. Defined.

Definition scratch_region reserved (map : list Region) : option Region :=
  head (filter (scratch_room reserved) map).

(** The tracking pages: the first two of that region. *)
Definition tracking_pages (g : Region) : PageFrameRange :=
  MkAddressRange (start (pages_of g)) SCRATCH_PAGES.

Definition trim (t r : PageFrameRange) : PageFrameRange :=
  if decide (lo r = lo t)
  then MkAddressRange (new (lo r + MIN_TRACKING_PAGES)) (size r - MIN_TRACKING_PAGES)
  else r.

Lemma lo_pages_of g : lo (pages_of g) = as_usize (region_start g) / PAGE_SIZE.
Proof. apply lo_new. Qed.

Lemma hi_pages_of g :
  region_ok g -> hi (pages_of g) = as_usize (region_end g) / PAGE_SIZE.
Proof.
  intros [Hs He _ _]. unfold hi. rewrite lo_pages_of. unfold pages_of, PAGE_SIZE in *. simpl.
  Z.div_mod_to_equations. lia.
Qed.

Lemma pages_of_proper g : region_ok g -> proper (pages_of g).
Proof.
  intros Hg. pose proof (hi_pages_of _ Hg). pose proof (lo_pages_of g) as Hlo.
  destruct Hg as [Hs He ? Hh]. unfold proper, range_wf, usize_bound.
  assert (hi (pages_of g) = lo (pages_of g) + size (pages_of g)) by done.
  unfold PAGE_SIZE in *. Z.div_mod_to_equations. lia.
Qed.

Section building.
Context `{Profile}.

Lemma region_size_ok g :
  region_ok g -> region_size g = Ret (as_usize (region_end g) - as_usize (region_start g)).
Proof.
  intros [_ _ ? ?]. unfold region_size, distance.
  by rewrite sub_usize_ok by (unfold is_usize, usize_bound; lia).
Qed.

Lemma region_range_ok g :
  region_ok g -> region_range g = Ret (MkAddressRange (region_start g)
    (as_usize (region_end g) - as_usize (region_start g))).
Proof.
  intros [_ _ ? ?]. unfold region_range, range_new, distance.
  rewrite bool_decide_true by lia. simpl.
  by rewrite sub_usize_ok by (unfold is_usize, usize_bound; lia).
Qed.

Lemma from_start_region g :
  region_ok g -> from_start (P := PageFrame) (region_start g) = Ok (start (pages_of g)).
Proof. intros [Hs _ _ _]. unfold from_start. by rewrite decide_True. Qed.

Lemma reserved_intersects_ok reserved g :
  reserved_ok reserved -> region_ok g ->
  reserved_intersects reserved g = Ret (negb (bool_decide (Forall (clear_of g) reserved))).
Proof.
  intros Hr Hg. induction Hr as [|v reserved (?&?&Hv) _ IH]; [done|].
  pose proof Hg as [_ _ ? ?]. assert (hi v = lo v + size v) by done.
  cbn [reserved_intersects].
  unfold address_range, start_address, page_start.
  fold (lo v). unfold PAGE_SIZE in *.
  rewrite !mul_usize_ok by (unfold is_usize; lia). cbn [mbind rust_bind].
  rewrite region_range_ok by done. cbn [mbind rust_bind].
  set (x := from_start_size _ _). set (y := MkAddressRange _ _).
  assert (Hx : lo x = lo v * 4096 /\ hi x = hi v * 4096 /\ size x = size v * 4096).
  { unfold x, from_start_size. rewrite lo_new, hi_new. simpl. lia. }
  assert (Hy : lo y = as_usize (region_start g) /\ hi y = as_usize (region_end g)).
  { unfold y, hi, lo. simpl. lia. }
  rewrite intersects_ok;
    [|unfold range_wf; lia|unfold range_wf, usize_bound; unfold y at 2; simpl; lia].
  destruct Hx as (->&->&_), Hy as [-> ->]. cbn [mbind rust_bind].
  change (lo v * 4096 <= as_usize (region_end g) /\ as_usize (region_start g) <= hi v * 4096)
    with (lo v * PAGE_SIZE <= as_usize (region_end g) /\
          as_usize (region_start g) <= hi v * PAGE_SIZE).
  destruct (decide (clear_of g v)) as [Hc|Hc].
  - rewrite bool_decide_false by done. rewrite IH. do 2 f_equal. apply bool_decide_ext.
    rewrite Forall_cons. tauto.
  - rewrite bool_decide_true by (unfold clear_of in Hc; tauto || (by apply dec_stable)).
    rewrite bool_decide_false; [done|]. rewrite Forall_cons. tauto.
Qed.

(** The scratch pages follow the tracking pages. *)
Definition scratch_pages (g : Region) : PageFrameRange :=
  MkAddressRange (new (hi (tracking_pages g))) MIN_TRACKING_PAGES.

Lemma lo_tracking g : lo (tracking_pages g) = lo (pages_of g).
Proof. done. Qed.
Lemma hi_tracking g : hi (tracking_pages g) = lo (pages_of g) + 2.
Proof. done. Qed.

Lemma tracking_pages_wf g : region_ok g -> range_wf (tracking_pages g).
Proof.
  intros Hg. destruct (pages_of_proper _ Hg) as [(?&?&?) ?].
  pose proof (lo_pages_of g). destruct Hg as [_ _ ? ?].
  unfold range_wf. rewrite hi_tracking, lo_tracking. simpl. unfold usize_bound, PAGE_SIZE in *.
  split_and!; [done|done|]. Z.div_mod_to_equations. lia.
Qed.

Lemma scratch_in_ok reserved g :
  reserved_ok reserved -> region_ok g -> region_kind g = Usable ->
  scratch_in reserved g =
    Ret (if decide (scratch_room reserved g)
         then Some (scratch_pages g, tracking_pages g) else None).
Proof.
  intros Hr Hg Hu. unfold scratch_in, usable. rewrite bool_decide_true by done.
  rewrite region_size_ok by done. cbn [mbind rust_bind].
  change ((MIN_TRACKING_PAGES + SCRATCH_PAGES) * PAGE_SIZE) with (4 * PAGE_SIZE).
  destruct (decide (4 * PAGE_SIZE <= _)) as [Hsz|Hsz];
    [|rewrite decide_False; [done|unfold scratch_room; tauto]].
  rewrite reserved_intersects_ok by done. cbn [mbind rust_bind].
  case_bool_decide as Hc; simpl; [|rewrite decide_False; [done|unfold scratch_room; tauto]].
  rewrite from_start_region by done. change (from_start_size (start (pages_of g)) SCRATCH_PAGES) with (tracking_pages g).
  rewrite range_end_ok by (by apply tracking_pages_wf). simpl.
  rewrite decide_True by done. done.
Qed.

Lemma find_scratch_ok reserved map :
  reserved_ok reserved -> Forall region_ok (usable_regions map) ->
  find_scratch reserved map =
    Ret ((fun g => (scratch_pages g, tracking_pages g)) <$> scratch_region reserved map).
Proof.
  intros Hr. unfold scratch_region. induction map as [|g map IH]; [done|].
  unfold usable_regions. rewrite filter_cons. cbn [find_scratch].
  destruct (decide (region_kind g = Usable)) as [Hu|Hu].
  - intros [Hg Hmap]%Forall_cons_1. rewrite scratch_in_ok by done.
    cbn [mbind rust_bind]. rewrite filter_cons. case_decide; [done|]. by apply IH.
  - intros Hmap. unfold scratch_in, usable. rewrite bool_decide_false by done.
    cbn [mbind rust_bind]. rewrite filter_cons, decide_False by (intros [? _]; done). by apply IH.
Qed.

Lemma region_pages_ok t g :
  region_ok g -> (lo (pages_of g) = lo t -> MIN_TRACKING_PAGES <= size (pages_of g)) ->
  region_pages t g = Ret (trim t (pages_of g)).
Proof.
  intros Hg Ht. pose proof (pages_of_proper _ Hg) as [Hwf _]. unfold region_pages.
  rewrite from_start_region, region_size_ok by done. cbn [mbind rust_bind].
  pose proof Hg as [Hs He _ _]. rewrite bool_decide_true
    by (unfold PAGE_SIZE in *; Z.div_mod_to_equations; lia). cbn [mbind rust_bind rassert].
  change (from_start_size (start (pages_of g))
    ((as_usize (region_end g) - as_usize (region_start g)) / PAGE_SIZE)) with (pages_of g). unfold trim.
  destruct (decide (lo (pages_of g) = lo t)) as [E|E].
  - rewrite decide_True by (by apply as_usize_inj).
    rewrite shrink_left_ok; [done|done|]. unfold MIN_TRACKING_PAGES in *. split; [done|auto].
  - rewrite decide_False; [done|]. intros E'. apply E. unfold lo. by rewrite E'.
Qed.

Lemma collect_ranges_ok t map :
  Forall region_ok (usable_regions map) ->
  Forall (fun g => lo (pages_of g) = lo t -> MIN_TRACKING_PAGES <= size (pages_of g))
    (usable_regions map) ->
  collect_ranges t map = Ret (trim t <$> (pages_of <$> usable_regions map)).
Proof.
  induction map as [|g map IH]; [done|]. unfold usable_regions. rewrite filter_cons.
  cbn [collect_ranges]. unfold usable. case_decide as Hu.
  - intros [Hg Hmap]%Forall_cons_1 [Ht Hts]%Forall_cons_1.
    rewrite bool_decide_true, region_pages_ok by done. cbn [mbind rust_bind].
    by rewrite IH by done.
  - intros Hmap Hts. rewrite bool_decide_false by done. by apply IH.
Qed.

Lemma scratch_region_in reserved map g :
  scratch_region reserved map = Some g -> scratch_room reserved g /\ g ∈ usable_regions map.
Proof.
  unfold scratch_region. intros E. assert (Hin : g ∈ filter (scratch_room reserved) map).
  { destruct (filter _ map) as [|x fl]; [done|]. injection E as ->. set_solver. }
  apply list_elem_of_filter in Hin as [Hr Hin]. split; [done|].
  apply list_elem_of_filter. split; [apply Hr|done].
Qed.
End building.

(** The tracking pages are cut off exactly one of the usable ranges. *)
Section trimming.
Context (map : list Region) (reserved : list PageFrameRange) (g : Region).
Hypothesis Hmap : map_ok map.
Hypothesis Hg : scratch_region reserved map = Some g.

Let t := tracking_pages g.
Let usable_pages := pages_of <$> usable_regions map.

Lemma scratch_facts :
  region_ok g /\ pages_of g ∈ usable_pages /\ 4 <= size (pages_of g).
Proof.
  destruct (scratch_region_in _ _ _ Hg) as [(_&Hsz&_) Hin].
  destruct Hmap as [Hok _]. rewrite Forall_forall in Hok. split; [by apply Hok|].
  split; [by apply list_elem_of_fmap_2|]. unfold pages_of. simpl. unfold PAGE_SIZE in *.
  Z.div_mod_to_equations. lia.
Qed.

Lemma usable_proper : Forall proper usable_pages.
Proof.
  apply Forall_fmap. eapply Forall_impl; [apply Hmap|]. intros x. apply pages_of_proper.
Qed.

Lemma at_tracking r : r ∈ usable_pages -> lo r = lo t -> r = pages_of g.
Proof.
  intros Hr E. destruct scratch_facts as (Hok&Hin&_).
  pose proof usable_proper as Hp. rewrite Forall_forall in Hp.
  apply (disjoint_unique usable_pages _ _ (lo r)); [apply Hmap|done|done| |].
  - by apply proper_first, Hp.
  - rewrite E. unfold t. rewrite lo_tracking. by apply proper_first, pages_of_proper.
Qed.

Lemma trim_proper : Forall proper (trim t <$> usable_pages).
Proof.
  apply Forall_fmap, Forall_forall. intros r Hr. unfold compose, trim. case_decide as E.
  - rewrite (at_tracking r) by done. destruct scratch_facts as (Hok&_&?).
    destruct (pages_of_proper _ Hok) as [(?&?&?) ?]. unfold proper, range_wf, MIN_TRACKING_PAGES.
    rewrite hi_new, lo_new. unfold hi in *. simpl in *. lia.
  - pose proof usable_proper as Hp. rewrite Forall_forall in Hp. by apply Hp.
Qed.

Lemma in_trim r pg :
  r ∈ usable_pages -> in_range pg (trim t r) <-> in_range pg r /\ ~ in_range pg t.
Proof.
  intros Hr. destruct scratch_facts as (Hok&Hin&Hsz).
  assert (Ht : in_range pg t -> in_range pg (pages_of g)).
  { unfold t, in_range. rewrite hi_tracking, lo_tracking. unfold hi. lia. }
  unfold trim. case_decide as E.
  - assert (hi t = lo t + 2) by done. unfold in_range, MIN_TRACKING_PAGES.
    rewrite hi_new, lo_new. unfold hi at 1. lia.
  - split; [|tauto]. intros Hpg. split; [done|]. intros Hpt. apply E.
    rewrite (disjoint_unique usable_pages r (pages_of g) pg); auto. apply Hmap.
Qed.

Lemma trim_disjoint : disjoint_ranges (trim t <$> usable_pages).
Proof.
  assert (Hsub : forall rs pg, (forall r, r ∈ rs -> r ∈ usable_pages) ->
    (length (holders pg (trim t <$> rs)) <= length (holders pg rs))%nat).
  { intros rs pg. induction rs as [|r rs IH]; intros Hin; [done|].
    rewrite fmap_cons, !holders_cons. specialize (IH ltac:(set_solver)).
    pose proof (in_trim r pg ltac:(set_solver)). repeat case_decide; simpl; try lia; tauto. }
  intros pg. etransitivity; [by apply Hsub|]. apply Hmap.
Qed.

Lemma trim_covered pg :
  covered pg (trim t <$> usable_pages) <-> covered pg usable_pages /\ ~ in_range pg t.
Proof.
  unfold covered. rewrite Exists_fmap, !Exists_exists. unfold compose. split.
  - intros (r&Hr&Hpg). apply in_trim in Hpg as [??]; [|done]. eauto.
  - intros [(r&Hr&?) ?]. exists r. split; [done|]. by apply in_trim.
Qed.
End trimming.

Section build.
Context `{Profile} (sort_by_start : list PageFrameRange -> list PageFrameRange).
Hypothesis sort_perm : forall rs, sort_by_start rs ≡ₚ rs.
Hypothesis sort_sorted : forall rs, StronglySorted starts_before (sort_by_start rs).

(** What [build] leaves: a filled allocator whose pages are accounted for
    by the tracking pages [t] and the usable pages [rs]. *)
Record built s (t : PageFrameRange) rs : Prop := {
  built_blocks : exists bs, filled s bs;
  built_status pg : status_of s pg =
    if decide (in_range pg t) then Some Tracking
    else if decide (covered pg rs) then Some Free else None;
}.

Lemma built_inv s t rs : built s t rs -> inv s.
Proof. intros [[bs [Hl Ho Hc _]] _]. by eapply inv_intro. Qed.

Lemma built_none_allocated s t rs : built s t rs -> allocated_ranges (view s) = [].
Proof.
  intros Hb. pose proof (built_inv _ _ _ Hb) as Hi. destruct Hb as [[bs [Hl Ho Hc Hp]] Hst].
  rewrite (linked_view _ _ Hl). unfold allocated_ranges.
  destruct (filter _ bs) as [|b fl] eqn:E; [done|]. exfalso.
  assert (Hin : b ∈ filter (fun b => status b = Allocated) bs) by (rewrite E; set_solver).
  apply list_elem_of_filter in Hin as [Hs Hin]. unfold positive in Hp.
  rewrite Forall_forall in Hp. specialize (Hp _ Hin).
  apply list_elem_of_split in Hin as (l&k&->). specialize (Hst (block_lo b)).
  rewrite (inv_page_status s l b k) in Hst; [|done|by apply linked_view|].
  - repeat case_decide; congruence.
  - apply in_range_block. rewrite block_hi_eq. lia.
Qed.

Lemma combine_sorted_ok rs :
  rs <> [] -> Forall proper rs -> disjoint_ranges rs ->
  exists out, combine_loop (length (sort_by_start rs)) (sort_by_start rs) 1 = Ret out /\
    Forall proper out /\ gaps out /\ (length out <= length rs)%nat /\
    (forall pg, covered pg out <-> covered pg rs).
Proof.
  intros Hne Hp Hd. pose proof (sort_perm rs) as Hperm. pose proof (sort_sorted rs) as Hs.
  assert (Hlen : length (sort_by_start rs) = length rs) by (by apply Permutation_length).
  destruct (sort_by_start rs) as [|p k] eqn:E; [by apply Permutation_nil_l in Hperm|].
  assert (Hpk : Forall proper (p :: k)) by (by rewrite Hperm).
  assert (Hst : staircase (p :: k)).
  { apply sorted_staircase; [done|done|]. by eapply disjoint_perm. }
  destruct (combine_from_spec p k Hpk Hst) as (Hpo&Hg&_&Hcov&Hl).
  exists (combine_from p k). split_and!; try done.
  - apply (combine_loop_ok (length (p :: k)) [] p k); [simpl; lia|done|done].
  - simpl in *. lia.
  - intros pg. rewrite Hcov. by apply covered_perm.
Qed.

(** The free memory of a map: the usable pages without the tracking pages
    [t], as well-formed ranges with gaps between them, so that no two could
    be one. *)
Record free_memory (map : list Region) (t : PageFrameRange) (out : list PageFrameRange) : Prop := {
  free_proper : Forall proper out;
  free_gaps : gaps out;
  free_pages pg : covered pg out <-> covered pg (pages_of <$> usable_regions map) /\ ~ in_range pg t;
  free_length : (length out <= length (usable_regions map))%nat;
}.

(** [size_of::<Run>()] says how many runs the tracking pages have room
    for; one is for these pages themselves. *)
Definition enough_runs (run_size : Z) (out : list PageFrameRange) : Prop :=
  Z.of_nat (length out) < SCRATCH_PAGES * PAGE_SIZE / run_size.

#[export] Instance enough_runs_dec run_size out : Decision (enough_runs run_size out).
Proof. unfold enough_runs. apply _. Defined.

Lemma build_inner_ok run_size access map reserved g ptr len :
  0 < run_size <= PAGE_SIZE -> map_ok map -> scratch_region reserved map = Some g ->
  exists out, free_memory map (tracking_pages g) out /\
    if decide (enough_runs run_size out) then
      exists s, build_inner sort_by_start run_size (tracking_pages g) map access ptr len = Ret (Ok s) /\
        built s (tracking_pages g) (pages_of <$> usable_regions map)
    else build_inner sort_by_start run_size (tracking_pages g) map access ptr len = Panic NotImplemented.
Proof.
  intros Hrs Hmap Hg. set (t := tracking_pages g).
  destruct (scratch_facts _ _ _ Hmap Hg) as (Hok&Hin&Hsz).
  unfold build_inner. rewrite collect_ranges_ok; [|apply Hmap|].
  2:{ apply Forall_forall. intros x Hx E. fold t in E.
      rewrite (at_tracking map reserved g Hmap Hg (pages_of x))
        by (done || by apply list_elem_of_fmap_2).
      unfold MIN_TRACKING_PAGES. lia. }
  cbn [mbind rust_bind]. set (rs := trim t <$> _).
  destruct (combine_sorted_ok rs) as (out&E&Hpo&Hgo&Hlo&Hco);
    [|by eapply trim_proper|by eapply trim_disjoint|].
  { intros En. unfold rs in En. apply fmap_nil_inv in En. rewrite En in Hin. set_solver. }
  exists out. assert (Hlen : length rs = length (usable_regions map)).
  { unfold rs. by rewrite !length_fmap. }
  assert (Hfree : forall pg, covered pg out <->
    covered pg (pages_of <$> usable_regions map) /\ ~ in_range pg t).
  { intros pg. rewrite Hco. apply (trim_covered map reserved g Hmap Hg). }
  split; [split; [done..|by rewrite <-Hlen]|].
  rewrite E. cbn [mbind rust_bind].
  pose proof (hi_pages_of _ Hok) as Hhi. pose proof Hok as [_ Hea [? ?] ?].
  assert (Ht : hi t = lo (pages_of g) + 2) by done.
  assert (hi (pages_of g) = lo (pages_of g) + size (pages_of g)) by done.
  destruct (init_tracking_space_ok run_size access t) as (s1&E1&Hl1&_&Hn1); [done| |done| |].
  { by apply tracking_pages_wf. }
  { rewrite Ht. unfold PAGE_SIZE in *. Z.div_mod_to_equations. lia. }
  rewrite E1. cbn [mbind rust_bind].
  pose proof (tracking_pages_wf g Hok) as (?&?&?).
  assert (Hf1 : filled s1 [MkRunState t Tracking]).
  { split; [done| | |].
    - simpl. unfold block_lo, block_size, block_hi. simpl. done.
    - done.
    - constructor; [done|constructor]. }
  pose proof (add_allocatable_ranges_filled out s1 _ Hf1 Hpo Hgo) as Hadd.
  change (size t) with SCRATCH_PAGES in Hn1.
  assert (Hdec : (length out <= length (unused_runs s1))%nat <-> enough_runs run_size out).
  { unfold enough_runs. rewrite Hn1.
    assert (1 <= SCRATCH_PAGES * PAGE_SIZE / run_size)
      by (apply Z.div_le_lower_bound; unfold SCRATCH_PAGES, PAGE_SIZE in *; lia). lia. }
  rewrite (decide_ext _ _ _ _ Hdec) in Hadd.
  specialize (Hadd ltac:(apply Forall_forall; intros r _; by repeat constructor)).
  assert (Hnone : forall pg, covered pg out -> page_status [MkRunState t Tracking] pg = None).
  { intros pg [_ Hnt]%Hfree. cbn [page_status range]. by rewrite decide_False. }
  specialize (Hadd Hnone). case_decide; [|by rewrite Hadd].
  destruct Hadd as (s2&bs2&E2&Hf2&Hst2). exists s2. rewrite E2. split; [done|].
  split; [by eexists|]. intros pg.
  unfold status_of. rewrite (linked_view _ _ (filled_linked _ _ Hf2)), Hst2.
  specialize (Hfree pg). cbn [page_status range status].
  change (block_lo (MkRunState t Tracking) <= pg < block_hi (MkRunState t Tracking))
    with (in_range pg t).
  repeat case_decide; tauto.
Qed.

Lemma build_exact run_size access map reserved :
  0 < run_size <= PAGE_SIZE -> map_ok map -> reserved_ok reserved ->
  match scratch_region reserved map with
  | None => build sort_by_start run_size access map reserved
              = Ret (Err (MkError InsufficientMemory))
  | Some g => exists out, free_memory map (tracking_pages g) out /\
      if decide (enough_runs run_size out) then
        exists s, build sort_by_start run_size access map reserved = Ret (Ok s) /\
          built s (tracking_pages g) (pages_of <$> usable_regions map)
      else build sort_by_start run_size access map reserved = Panic NotImplemented
  end.
Proof.
  intros Hrs Hmap Hres. unfold build.
  rewrite find_scratch_ok by (done || apply Hmap).
  destruct (scratch_region reserved map) as [g|] eqn:Hg; [|done].
  cbn [mbind rust_bind fmap option_fmap option_map].
  destruct (scratch_facts _ _ _ Hmap Hg) as (Hok&_&Hsz).
  pose proof (hi_pages_of _ Hok) as Hhi. pose proof Hok as [_ Hea [? ?] ?].
  assert (hi (pages_of g) = lo (pages_of g) + size (pages_of g)) by done.
  assert (Hlo : 0 <= lo (pages_of g)) by (rewrite lo_pages_of; by apply Z.div_pos).
  assert (Hb : (lo (pages_of g) + 2) * PAGE_SIZE < 2 ^ 63).
  { unfold PAGE_SIZE in *. Z.div_mod_to_equations. lia. }
  unfold with_memory, map_permanent, start_address, page_start, scratch_pages. simpl start.
  rewrite as_usize_new, hi_tracking, (mul_usize_ok (lo _ + 2))
    by (unfold is_usize, usize_bound, PAGE_SIZE in *; lia). cbn [mbind rust_bind].
  rewrite as_usize_new. unfold try_isize. rewrite decide_True by done. cbn [mbind rust_bind].
  rewrite mul_usize_ok by done. cbn [mbind rust_bind].
  edestruct (build_inner_ok run_size access map reserved g) as (out&Hf&Hd); [done..|].
  exists out. split; [exact Hf|]. case_decide; [|by rewrite Hd].
  destruct Hd as (s&E&Hs). rewrite E. by exists s.
Qed.

Lemma build_ok run_size access map reserved :
  0 < run_size <= PAGE_SIZE -> map_ok map -> reserved_ok reserved ->
  Z.of_nat (length (usable_regions map)) < SCRATCH_PAGES * PAGE_SIZE / run_size ->
  match scratch_region reserved map with
  | None => build sort_by_start run_size access map reserved
              = Ret (Err (MkError InsufficientMemory))
  | Some g => exists s, build sort_by_start run_size access map reserved = Ret (Ok s) /\
      built s (tracking_pages g) (pages_of <$> usable_regions map)
  end.
Proof.
  intros Hrs Hmap Hres Hspare. pose proof (build_exact run_size access map reserved Hrs Hmap Hres) as Hb.
  destruct (scratch_region reserved map) as [g|]; [|done]. destruct Hb as (out&Hf&Hb).
  rewrite decide_True in Hb; [done|]. pose proof (free_length _ _ _ Hf). unfold enough_runs. lia.
Qed.
End build.

(** * Calls never touch pages outside the usable memory *)

Section client_pages.
Context `{Profile}.

(** The pages a client may ever hold. *)
Definition manageable s pg : Prop :=
  status_of s pg = Some Free \/ status_of s pg = Some Allocated.

Lemma step_status c c' pg :
  step c c' -> client_inv c ->
  status_of c'.1 pg = status_of c.1 pg \/ (manageable c.1 pg /\ manageable c'.1 pg).
Proof.
  intros Hs [Hi _].
  destruct Hs as [s s' live n r [Hn _] E|s s' live n e [Hn _] E|s s' live r E
                 |s s' live r e E]; simpl in *; unfold manageable.
  - pose proof (allocate_total s n Hi Hn) as Hres. rewrite E in Hres.
    inversion Hres as [l b k p ? Ev Hb Hsz _ _ Hl' _| |]; subst; simplify_eq.
    destruct Hi as [_ Ho _]. unfold status_of in *. rewrite (linked_view _ _ Hl'), Ev in *.
    rewrite carve_page_status by done. case_decide; [|by left].
    right. split; [left; by eapply carve_was_free|by right].
  - pose proof (allocate_total s n Hi Hn) as Hres. rewrite E in Hres.
    inversion Hres; subst. by left.
  - pose proof (deallocate_total s r Hi) as Hres. rewrite E in Hres.
    inversion Hres as [l b k ? Ev <- Hb _ Hl' _| |]; subst; simplify_eq.
    pose proof Hi as [_ Ho Hc]. rewrite Ev in Ho, Hc.
    destruct (freed_block l b k s' Ho Hc Hb Hl') as [_ Hst]. rewrite Hst.
    case_decide; [|left; unfold status_of; by rewrite Ev].
    right. split; [right; rewrite <-Hb; by eapply inv_page_status|by left].
  - pose proof (deallocate_total s r Hi) as Hres. rewrite E in Hres.
    inversion Hres; subst; by left.
Qed.

Lemma steps_manageable c c' pg :
  rtc step c c' -> client_inv c -> manageable c'.1 pg -> manageable c.1 pg.
Proof.
  induction 1 as [|c c1 c' Hs _ IH]; [done|]. intros Hc Hm.
  destruct (step_client_inv _ _ Hs Hc) as (Hc1&_). specialize (IH Hc1 Hm).
  destruct (step_status _ _ pg Hs Hc) as [E|[? _]]; [|done].
  unfold manageable in *. by rewrite <-E.
Qed.
End client_pages.

(** * Properties *)

Section init_properties.
Context `{Profile}.

(** C24. The loop that combines the sorted ranges, on any list of
    well-formed non-empty ranges whose starts and whose ends are both in
    increasing order ([staircase]), as disjoint ranges sorted by their start
    are: it returns after at most one iteration per range; the result covers
    exactly the same pages, and its ranges are pairwise disjoint with at
    least one page between neighbours (so touching ranges are joined too).
    When a range ends before the one that starts before it, pages are lost,
    see [combine_loop_nested]. *)
Theorem combine_loop_spec p rs :
  Forall proper (p :: rs) -> staircase (p :: rs) ->
  exists out, combine_loop (length (p :: rs)) (p :: rs) 1 = Ret out /\
    Forall proper out /\ gaps out /\ disjoint_ranges out /\
    (forall pg, covered pg out <-> covered pg (p :: rs)).
Proof.
  intros Hp Hs. destruct (combine_from_spec p rs Hp Hs) as (?&?&_&?&_).
  exists (combine_from p rs). split_and!; try done; [|by apply gaps_disjoint].
  apply (combine_loop_ok (length (p :: rs)) [] p rs); [simpl; lia|done|done].
Qed.

Lemma build_result sort_by_start run_size access map reserved :
  (forall rs, sort_by_start rs ≡ₚ rs) ->
  (forall rs, StronglySorted starts_before (sort_by_start rs)) ->
  0 < run_size <= PAGE_SIZE -> map_ok map -> reserved_ok reserved ->
  Z.of_nat (length (usable_regions map)) < SCRATCH_PAGES * PAGE_SIZE / run_size ->
  match scratch_region reserved map with
  | None => build sort_by_start run_size access map reserved
              = Ret (Err (MkError InsufficientMemory))
  | Some g => exists s, build sort_by_start run_size access map reserved = Ret (Ok s) /\
      client_inv (s, []) /\
      (forall pg, status_of s pg =
         if decide (in_range pg (tracking_pages g)) then Some Tracking
         else if decide (covered pg (pages_of <$> usable_regions map)) then Some Free
         else None)
  end.
Proof.
  intros Hperm Hsort Hrs Hmap Hres Hspare.
  pose proof (build_ok sort_by_start Hperm Hsort run_size access map reserved) as Hb.
  specialize (Hb Hrs Hmap Hres Hspare).
  destruct (scratch_region reserved map) as [g|]; [|done]. destruct Hb as (s&E&Hs). exists s.
  split; [done|]. split; [split|apply Hs]; simpl.
  - by eapply built_inv.
  - by erewrite built_none_allocated by done.
Qed.

(** C9. [Allocator::build] on any memory map whose usable regions are
    page-aligned, non-empty, disjoint and below 2^63, with reserved ranges
    that fit the address space, whatever order the sort gives to equal keys
    and whatever the size of a run, up to a page. It fails exactly when no
    usable region has room for the scratch and tracking pages clear of the
    reserved ranges. Otherwise the usable pages without the first two pages
    of the first such region, the tracking pages, are some number of ranges
    with gaps between them. If the tracking pages have room for that many
    runs and one more, [build] returns a well-formed allocator with nothing
    allocated, in which the tracking pages are marked as such, all these
    ranges are free, and no other page is known. If they have not, it panics
    with [todo!()]. The scratch heap, which holds the list of ranges
    meanwhile, is not modelled; it is taken to be large enough. *)
Theorem build_spec sort_by_start run_size access map reserved :
  (forall rs, sort_by_start rs ≡ₚ rs) ->
  (forall rs, StronglySorted starts_before (sort_by_start rs)) ->
  0 < run_size <= PAGE_SIZE -> map_ok map -> reserved_ok reserved ->
  match scratch_region reserved map with
  | None => build sort_by_start run_size access map reserved
              = Ret (Err (MkError InsufficientMemory))
  | Some g => exists out, free_memory map (tracking_pages g) out /\
      if decide (enough_runs run_size out) then
        exists s, build sort_by_start run_size access map reserved = Ret (Ok s) /\
          client_inv (s, []) /\
          (forall pg, status_of s pg =
             if decide (in_range pg (tracking_pages g)) then Some Tracking
             else if decide (covered pg (pages_of <$> usable_regions map)) then Some Free
             else None)
      else build sort_by_start run_size access map reserved = Panic NotImplemented
  end.
Proof.
  intros Hperm Hsort Hrs Hmap Hres.
  pose proof (build_exact sort_by_start Hperm Hsort run_size access map reserved Hrs Hmap Hres) as Hb.
  destruct (scratch_region reserved map) as [g|]; [|done]. destruct Hb as (out&Hf&Hb).
  exists out. split; [done|]. case_decide; [|done]. destruct Hb as (s&E&Hs). exists s.
  split; [done|]. split; [split|apply Hs]; simpl.
  - by eapply built_inv.
  - by erewrite built_none_allocated by done.
Qed.

(** End to end: whatever a client calls after [build], a range it was
    given never contains a tracking page or a page that was not usable,
    and no page is in two outstanding ranges. *)
Theorem build_client_safety sort_by_start run_size access map reserved s s' live :
  (forall rs, sort_by_start rs ≡ₚ rs) ->
  (forall rs, StronglySorted starts_before (sort_by_start rs)) ->
  0 < run_size <= PAGE_SIZE -> map_ok map -> reserved_ok reserved ->
  Z.of_nat (length (usable_regions map)) < SCRATCH_PAGES * PAGE_SIZE / run_size ->
  build sort_by_start run_size access map reserved = Ret (Ok s) ->
  rtc step (s, []) (s', live) ->
  disjoint_ranges live /\
  exists g, scratch_region reserved map = Some g /\
    forall r pg, r ∈ live -> in_range pg r ->
      ~ in_range pg (tracking_pages g) /\ covered pg (pages_of <$> usable_regions map).
Proof.
  intros Hperm Hsort Hrs Hmap Hres Hspare E Hst.
  pose proof (build_ok sort_by_start Hperm Hsort run_size access map reserved) as Hb.
  specialize (Hb Hrs Hmap Hres Hspare).
  destruct (scratch_region reserved map) as [g|]; [|congruence]. destruct Hb as (s0&E0&Hs).
  rewrite E in E0. injection E0 as <-.
  assert (Hc : client_inv (s, [])).
  { split; simpl; [by eapply built_inv|by erewrite built_none_allocated by done]. }
  destruct (steps_client_inv _ _ Hst Hc) as ([Hi' Hl']&_&_). simpl in *. split.
  - intros pg. unfold holders. rewrite Hl'. eapply holders_at_most_one, Hi'.
  - exists g. split; [done|]. intros r pg Hr Hpg.
    assert (Hm : manageable s pg).
    { apply (steps_manageable _ _ pg Hst Hc). right. apply allocated_page; [done|].
      exists r. simpl. by rewrite <-Hl'. }
    unfold manageable in Hm. rewrite !(built_status _ _ _ Hs) in Hm.
    repeat case_decide; naive_solver.
Qed.
End init_properties.

(** The combining loop trusts that ranges end in the order they start:
    when a range lies strictly inside the one before it, the joined range is
    cut back to the end of the inner one, and usable pages are lost. *)
Theorem combine_loop_nested `{Profile} p c :
  proper p -> proper c -> lo p <= lo c -> hi c < hi p ->
  combine_loop 2 [p; c] 1 = Ret [MkAddressRange (start p) (hi c - lo p)] /\
  in_range (hi c) p /\ ~ covered (hi c) [MkAddressRange (start p) (hi c - lo p)].
Proof.
  intros Hp Hc Hle Hlt. pose proof Hc as [(?&?&?) ?]. assert (hi c = lo c + size c) by done.
  split_and!.
  - rewrite (combine_step [] p c [] 1) by done. rewrite decide_True by lia.
    cbn [combine_loop app length]. rewrite decide_False by (simpl; lia). done.
  - unfold in_range. lia.
  - intros [Hin|[]%Exists_nil]%Exists_cons. unfold in_range in Hin.
    change (hi (MkAddressRange (start p) (hi c - lo p))) with (lo p + (hi c - lo p)) in Hin. lia.
Qed.

Lemma combine_loop_nested_witness :
  combine_loop (H := dev_profile) 2
    [MkAddressRange (MkPageFrame 40) 10; MkAddressRange (MkPageFrame 42) 2] 1
  = Ret [MkAddressRange (MkPageFrame 40) 4].
Proof.
  destruct (combine_loop_nested (H := dev_profile) (MkAddressRange (MkPageFrame 40) 10)
    (MkAddressRange (MkPageFrame 42) 2)) as [E _]; [by split|by split|done|done|]. exact E.
Defined.

Lemma combine_loop_spec_witness :
  exists out, combine_loop (H := dev_profile) 3
    [MkAddressRange (MkPageFrame 40) 10; MkAddressRange (MkPageFrame 42) 9;
     MkAddressRange (MkPageFrame 51) 2] 1 = Ret out /\ gaps out.
Proof.
  destruct (combine_loop_spec (H := dev_profile) (MkAddressRange (MkPageFrame 40) 10)
    [MkAddressRange (MkPageFrame 42) 9; MkAddressRange (MkPageFrame 51) 2])
    as (out&E&_&Hg&_); [by repeat constructor|by vm_compute|]. by exists out.
Defined.

(** A memory map with two usable regions of sixteen pages each, given in
    the wrong order, and a reserved region between them. *)
Definition sample_map : list Region :=
  [MkRegion Usable (MkPhysicalAddress 0x100000) (MkPhysicalAddress 0x110000);
   MkRegion Reserved (MkPhysicalAddress 0x20000) (MkPhysicalAddress 0x100000);
   MkRegion Usable (MkPhysicalAddress 0x10000) (MkPhysicalAddress 0x20000)].

Definition sample_reserved : list PageFrameRange := [MkAddressRange (MkPageFrame 0x108) 2].


#[export] Instance starts_before_dec r r' : Decision (starts_before r r').
Proof. unfold starts_before. apply _. Defined.
#[export] Instance starts_before_total : Total starts_before.
Proof. intros r r'. unfold starts_before. lia. Qed.
#[export] Instance starts_before_trans : Transitive starts_before.
Proof. intros r r' r''. unfold starts_before. lia. Qed.

Definition sort_starts rs : list PageFrameRange := merge_sort starts_before rs.

Lemma sort_starts_perm rs : sort_starts rs ≡ₚ rs.
Proof. apply merge_sort_Permutation. Qed.
Lemma sort_starts_sorted rs : StronglySorted starts_before (sort_starts rs).
Proof. apply (StronglySorted_merge_sort _ _). Qed.

Lemma sample_map_ok : map_ok sample_map.
Proof.
  split.
  - repeat constructor; vm_compute; congruence.
  - apply (disjoint_perm [MkAddressRange (MkPageFrame 0x10) 16; MkAddressRange (MkPageFrame 0x100) 16]).
    { vm_compute. apply Permutation_swap. }
    apply gaps_disjoint; [by vm_compute|by repeat constructor].
Qed.

Lemma sample_reserved_ok : reserved_ok sample_reserved.
Proof. by repeat constructor. Qed.

Lemma sample_spare :
  Z.of_nat (length (usable_regions sample_map)) < SCRATCH_PAGES * PAGE_SIZE / 64.
Proof. by vm_compute. Qed.

Lemma sample_run_size : 0 < 64 <= PAGE_SIZE.
Proof. done. Qed.

Lemma sample_scratch :
  scratch_region sample_reserved sample_map =
    Some (MkRegion Usable (MkPhysicalAddress 0x10000) (MkPhysicalAddress 0x20000)).
Proof. by vm_compute. Qed.

Lemma build_spec_witness :
  exists s, build (H := dev_profile) sort_starts 64 (MkMemoryAccess 0) sample_map sample_reserved
              = Ret (Ok s) /\
    status_of s 0x10 = Some Tracking /\ status_of s 0x12 = Some Free /\
    status_of s 0x10f = Some Free /\ status_of s 0x20 = None.
Proof.
  pose proof (build_spec (H := dev_profile) sort_starts 64 (MkMemoryAccess 0) sample_map
    sample_reserved sort_starts_perm sort_starts_sorted sample_run_size sample_map_ok
    sample_reserved_ok) as Hb.
  rewrite sample_scratch in Hb. destruct Hb as (out&Hf&Hb).
  rewrite decide_True in Hb.
  - destruct Hb as (s&E&_&Hst). exists s.
    split; [exact E|]. rewrite !Hst. split_and!; vm_compute; reflexivity.
  - pose proof (free_length _ _ _ Hf). pose proof sample_spare. unfold enough_runs. lia.
Defined.

(** With runs of a page the tracking pages have room for two; three are
    needed, for two free ranges and for the tracking pages. *)
Lemma build_out_of_runs :
  build (H := dev_profile) sort_starts 4096 (MkMemoryAccess 0) sample_map sample_reserved
    = Panic NotImplemented.
Proof. vm_compute. reflexivity. Qed.

Lemma build_client_safety_witness :
  exists s, build (H := dev_profile) sort_starts 64 (MkMemoryAccess 0) sample_map sample_reserved
              = Ret (Ok s) /\ disjoint_ranges [].
Proof.
  destruct (build (H := dev_profile) sort_starts 64 (MkMemoryAccess 0) sample_map sample_reserved)
    as [[s|e]|w] eqn:E; [|vm_compute in E; discriminate E|vm_compute in E; discriminate E].
  exists s. split; [reflexivity|].
  destruct (build_client_safety (H := dev_profile) sort_starts 64 (MkMemoryAccess 0) sample_map
    sample_reserved s s [] sort_starts_perm sort_starts_sorted sample_run_size sample_map_ok
    sample_reserved_ok sample_spare E (rtc_refl _ _)) as [Hd _]. exact Hd.
Defined.
