(* ===== verification/Bitfields.v ===== *)
(** The packed words of the slab: [Lifecycle] ([slab/src/slot.rs]), [Idx]
    ([slab/src/lib.rs]) and [Entry] ([slab/src/free_lists.rs]). Their layout
    is the work of the [modular_bitfield] crate, which is not part of the
    repository: the class [ModularBitfield] states its documented layout
    (fields in declaration order from the least significant bit on, setters
    that refuse values too wide for their field), and everything else is
    proved against that interface. *)
From S2P Require Import Prelude.

(** * The interface of the bitfield crate *)

(** A field is its width in bits and its value. *)
Class ModularBitfield := {
  pack : list (Z * Z) -> Z;
  unpack : list Z -> Z -> list Z;
  pack_nil : pack [] = 0;
  pack_cons w v fields : pack ((w, v) :: fields) = v + 2 ^ w * pack fields;
  unpack_nil z : unpack [] z = [];
  unpack_cons w ws z : unpack (w :: ws) z = z mod 2 ^ w :: unpack ws (z / 2 ^ w);
}.

(** The layout itself, as an implementation of the interface. *)
Fixpoint lsb_pack (fields : list (Z * Z)) : Z :=
  match fields with
  | [] => 0
  | (w, v) :: fields => v + 2 ^ w * lsb_pack fields
  end.

Fixpoint lsb_unpack (ws : list Z) (z : Z) : list Z :=
  match ws with
  | [] => []
  | w :: ws => z mod 2 ^ w :: lsb_unpack ws (z / 2 ^ w)
  end.

Definition lsb_first : ModularBitfield.
Proof. by refine {| pack := lsb_pack; unpack := lsb_unpack |}. Defined.

(** A setter panics on a value that does not fit the field. *)
Definition set_field (width v : Z) : rust Z :=
  if decide (0 <= v < 2 ^ width) then Ret v else Panic ExpectFailed.

Lemma set_field_ok width v : 0 <= v < 2 ^ width -> set_field width v = Ret v.
Proof. intros. unfold set_field. by rewrite decide_True. Qed.

(** Values that fit their fields. *)
Definition fits (field : Z * Z) : Prop := 0 <= field.1 /\ 0 <= field.2 < 2 ^ field.1.

Section layout.
Context `{ModularBitfield}.

(** Unpacking undoes packing, for any number of fields of any width. *)
Lemma unpack_pack fields : Forall fits fields -> unpack fields.*1 (pack fields) = fields.*2.
Proof.
  induction 1 as [|[w v] fields [Hw Hv] _ IH]; [apply unpack_nil|]. simpl in *.
  rewrite unpack_cons, pack_cons. f_equal.
  - rewrite (Z.mul_comm (2 ^ w)), Z_mod_plus_full. by apply Z.mod_small.
  - rewrite (Z.mul_comm (2 ^ w)), Z_div_plus_full, Z.div_small by lia. done.
Qed.

Definition total_width (fields : list (Z * Z)) : Z :=
  foldr (fun f acc => f.1 + acc) 0 fields.

Lemma total_width_nonneg fields : Forall fits fields -> 0 <= total_width fields.
Proof. induction 1 as [|[w v] fields [Hw _] _ IH]; simpl in *; lia. Qed.

Lemma pack_bound fields : Forall fits fields -> 0 <= pack fields < 2 ^ total_width fields.
Proof.
  induction 1 as [|[w v] fields [Hw Hv] Hf IH]; [rewrite pack_nil; simpl; lia|].
  apply total_width_nonneg in Hf. simpl in *. rewrite pack_cons, Z.pow_add_r by lia. nia.
Qed.
End layout.

(** * [State] and [Lifecycle] *)

Inductive State := Allocated | Unallocated | Zombie.

#[export] Instance State_eq_dec : EqDecision State.
Proof. solve_decision. Defined.

(** The derived two-bit specifier numbers the variants in order. *)
Definition State_into_bits (s : State) : Z :=
  match s with Allocated => 0 | Unallocated => 1 | Zombie => 2 end.

Definition State_from_bits (z : Z) : option State :=
  if decide (z = 0) then Some Allocated
  else if decide (z = 1) then Some Unallocated
  else if decide (z = 2) then Some Zombie
  else None.

Record Lifecycle := MkLifecycle {
  state_bits : Z;
  generation : Z;
  refcount : Z;
}.

#[export] Instance Lifecycle_eq_dec : EqDecision Lifecycle.
Proof. solve_decision. Defined.

(** The getter decodes the bits, and panics on the one unused pattern. *)
Definition state (l : Lifecycle) : rust State := expect (State_from_bits (state_bits l)).

Definition lifecycle (s : State) (g r : Z) : Lifecycle := MkLifecycle (State_into_bits s) g r.

Section words.
Context `{ModularBitfield}.

Definition Lifecycle_into (l : Lifecycle) : Z :=
  pack [(2, state_bits l); (46, generation l); (16, refcount l)].

Definition Lifecycle_from (z : Z) : Lifecycle :=
  match unpack [2; 46; 16] z with
  | [s; g; r] => MkLifecycle s g r
  | _ => MkLifecycle 0 0 0
  end.

Definition set_state (l : Lifecycle) (s : State) : Lifecycle :=
  MkLifecycle (State_into_bits s) (generation l) (refcount l).

Definition set_generation (l : Lifecycle) (g : Z) : rust Lifecycle :=
  g ← set_field 46 g; Ret (MkLifecycle (state_bits l) g (refcount l)).

Definition set_refcount (l : Lifecycle) (r : Z) : rust Lifecycle :=
  r ← set_field 16 r; Ret (MkLifecycle (state_bits l) (generation l) r).

(** ** [Idx] *)

(** [Idx] is a transparent [u64]: generation in the low 46 bits, slot
    index in the high 18. *)
Record Idx := MkIdx { idx_generation : Z; idx_index : Z }.

Definition Idx_into (i : Idx) : Z := pack [(46, idx_generation i); (18, idx_index i)].

Definition Idx_from (z : Z) : Idx :=
  match unpack [46; 18] z with
  | [g; i] => MkIdx g i
  | _ => MkIdx 0 0
  end.

(** [Idx::new().with_generation(generation).with_index(index)]. *)
Definition Idx_new (g i : Z) : rust Idx :=
  g ← set_field 46 g; i ← set_field 18 i; Ret (MkIdx g i).

(** ** [Entry] *)

Record Entry := MkEntry { entry_index : Z; entry_tag : Z }.

Definition Entry_into (e : Entry) : Z := pack [(18, entry_index e); (46, entry_tag e)].

Definition Entry_from (z : Z) : Entry :=
  match unpack [18; 46] z with
  | [i; t] => MkEntry i t
  | _ => MkEntry 0 0
  end.

Definition Entry_new (i t : Z) : rust Entry :=
  i ← set_field 18 i; t ← set_field 46 t; Ret (MkEntry i t).

(** ** The words decode to what was packed *)

Lemma State_from_into s : State_from_bits (State_into_bits s) = Some s.
Proof. by destruct s. Qed.

Lemma State_bits_bound s : 0 <= State_into_bits s < 3.
Proof. destruct s; simpl; lia. Qed.

Definition lifecycle_ok (g r : Z) : Prop := 0 <= g < 2 ^ 46 /\ 0 <= r < 2 ^ 16.

Lemma state_lifecycle s g r : state (lifecycle s g r) = Ret s.
Proof. unfold state, lifecycle. simpl. by rewrite State_from_into. Qed.

Lemma Lifecycle_from_into s g r :
  lifecycle_ok g r -> Lifecycle_from (Lifecycle_into (lifecycle s g r)) = lifecycle s g r.
Proof.
  intros [? ?]. pose proof (State_bits_bound s). unfold Lifecycle_from, Lifecycle_into. simpl.
  pose proof (unpack_pack [(2, State_into_bits s); (46, g); (16, r)]) as E. simpl in E.
  rewrite E; [done|]. unfold fits. repeat constructor; simpl; lia.
Qed.

Lemma Idx_from_into g i :
  0 <= g < 2 ^ 46 -> 0 <= i < 2 ^ 18 -> Idx_from (Idx_into (MkIdx g i)) = MkIdx g i.
Proof.
  intros ??. unfold Idx_from, Idx_into. simpl.
  pose proof (unpack_pack [(46, g); (18, i)]) as E. simpl in E.
  rewrite E; [done|]. unfold fits. repeat constructor; simpl; lia.
Qed.

Lemma Entry_from_into i t :
  0 <= i < 2 ^ 18 -> 0 <= t < 2 ^ 46 -> Entry_from (Entry_into (MkEntry i t)) = MkEntry i t.
Proof.
  intros ??. unfold Entry_from, Entry_into. simpl.
  pose proof (unpack_pack [(18, i); (46, t)]) as E. simpl in E.
  rewrite E; [done|]. unfold fits. repeat constructor; simpl; lia.
Qed.

Lemma Entry_into_eq i t : Entry_into (MkEntry i t) = i + 2 ^ 18 * t.
Proof. unfold Entry_into. rewrite !pack_cons, pack_nil. simpl. lia. Qed.

Lemma Idx_into_eq g i : Idx_into (MkIdx g i) = g + 2 ^ 46 * i.
Proof. unfold Idx_into. rewrite !pack_cons, pack_nil. simpl. lia. Qed.

(** A small word, which is what a slot index stored as it is looks like,
    is the entry of that index with tag 0. *)
Lemma Entry_from_small i : 0 <= i < 2 ^ 18 -> Entry_from i = MkEntry i 0.
Proof.
  intros Hi. rewrite <-(Entry_from_into i 0) by lia. f_equal. rewrite Entry_into_eq. lia.
Qed.
End words.

#[export] Instance Idx_eq_dec : EqDecision Idx.
Proof. solve_decision. Defined.
#[export] Instance Idx_countable : Countable Idx.
Proof.
  apply (inj_countable' (fun i => (idx_generation i, idx_index i)) (fun p => MkIdx p.1 p.2)).
  by intros [].
Defined.

#[export] Hint Rewrite @state_lifecycle : rust_rw.

Section word_properties.
Context `{ModularBitfield}.

(** A lifecycle word is a 64-bit value from which state, generation and
    reference count can all be read back, so comparing two words (as the
    slot's compare-and-exchange does) compares the three fields. *)
Theorem lifecycle_word_roundtrip s g r s' g' r' :
  lifecycle_ok g r -> lifecycle_ok g' r' ->
  0 <= Lifecycle_into (lifecycle s g r) < 2 ^ 64 /\
  Lifecycle_from (Lifecycle_into (lifecycle s g r)) = lifecycle s g r /\
  (Lifecycle_into (lifecycle s g r) = Lifecycle_into (lifecycle s' g' r') <->
   s = s' /\ g = g' /\ r = r').
Proof.
  intros Hok Hok'. split; [|split; [by apply Lifecycle_from_into|split]].
  - destruct Hok. pose proof (State_bits_bound s).
    apply (pack_bound [(2, State_into_bits s); (46, g); (16, r)]).
    unfold fits. repeat constructor; simpl; lia.
  - intros E. assert (El : lifecycle s g r = lifecycle s' g' r').
    { by rewrite <-(Lifecycle_from_into s g r), E, Lifecycle_from_into. }
    unfold lifecycle in El. injection El as Es -> ->. split; [|done].
    apply (f_equal State_from_bits) in Es. rewrite !State_from_into in Es. by injection Es.
  - by intros (->&->&->).
Qed.

(** The index of an inserted value is never the number zero, which
    the tracing crate reserves: an index word is at least its generation,
    and generations of allocated slots start at one. *)
Theorem idx_word_nonzero g i :
  0 < g < 2 ^ 46 -> 0 <= i < 2 ^ 18 ->
  0 < Idx_into (MkIdx g i) < 2 ^ 64 /\ Idx_from (Idx_into (MkIdx g i)) = MkIdx g i.
Proof.
  intros ??. split; [rewrite Idx_into_eq; lia|]. apply Idx_from_into; lia.
Qed.
End word_properties.

Lemma lifecycle_word_roundtrip_witness :
  Lifecycle_from (H := lsb_first) (Lifecycle_into (H := lsb_first) (lifecycle Zombie 5 3)) =
  lifecycle Zombie 5 3.
Proof.
  destruct (lifecycle_word_roundtrip (H := lsb_first) Zombie 5 3 Allocated 0 0) as (_&E&_);
    [done|done|exact E].
Defined.

Lemma idx_word_nonzero_witness : 0 < Idx_into (H := lsb_first) (MkIdx 1 0) < 2 ^ 64.
Proof. destruct (idx_word_nonzero (H := lsb_first) 1 0) as [E _]; [done|done|exact E]. Defined.
