(* ===== verification/Topology.v ===== *)
(** Processor topology ([hal/src/topology.rs], [hal-x86_64/src/topology.rs]):
    which processor runs is an input of every operation, and a
    [PerProcessor] holds one optional value for each. *)
From S2P Require Import Prelude.

Class Topology := {
  MAX_PROCESSORS : Z;
  max_processors_u16 : 0 <= MAX_PROCESSORS < 2 ^ 16;
}.

(** The x86_64 topology supports 16 processors, and runs on one of them. *)
Definition x86_64_topology : Topology.
Proof. by refine {| MAX_PROCESSORS := 16 |}. Defined.

Definition x86_64_current_processor : Z := 0.

Abbreviation PerProcessor A := (list (option A)) (only parsing).

Section per_processor.
Context {A : Type}.
Implicit Types (p : PerProcessor A).

Definition per_processor_new `{Topology} : PerProcessor A :=
  replicate (Z.to_nat MAX_PROCESSORS) None.

(** [with_mut]: runs [f] on the cell of the current processor. *)
Definition with_mut {R} (current_processor : Z) p
    (f : option A -> rust (option A * R)) : rust (PerProcessor A * R) :=
  let idx := Z.to_nat current_processor in
  cell ← index p idx;
  '(cell, r) ← f cell;
  Ret (<[idx := cell]> p, r).

Lemma with_mut_ok {R} cpu p f cell cell' (r : R) :
  p !! Z.to_nat cpu = Some cell -> f cell = Ret (cell', r) ->
  with_mut cpu p f = Ret (<[Z.to_nat cpu := cell']> p, r).
Proof. intros Hc Hf. unfold with_mut, index. rewrite Hc. simpl. by rewrite Hf. Qed.

(** A processor only ever reaches its own cell, and every processor
    the topology can name has one: an access from a known processor runs
    on the value that processor last stored (initially none), and leaves
    the cells of all others alone. *)
Theorem per_processor_isolated `{Topology} {R} cpu other p (f : option A -> rust (option A * R)) :
  0 <= cpu < MAX_PROCESSORS -> 0 <= other < MAX_PROCESSORS ->
  length p = Z.to_nat MAX_PROCESSORS ->
  exists cell, p !! Z.to_nat cpu = Some cell /\
    match f cell with
    | Ret (cell', r) =>
        exists p', with_mut cpu p f = Ret (p', r) /\ length p' = length p /\
          p' !! Z.to_nat cpu = Some cell' /\
          (other <> cpu -> p' !! Z.to_nat other = p !! Z.to_nat other)
    | Panic w => with_mut cpu p f = Panic w
    end.
Proof.
  intros Hc Ho Hlen. destruct (lookup_lt_is_Some_2 p (Z.to_nat cpu)) as [cell Hcell]; [lia|].
  exists cell. split; [done|]. unfold with_mut, index. rewrite Hcell. simpl.
  destruct (f cell) as [[cell' r]|w]; simpl; [|done].
  eexists. split; [done|]. split; [by rewrite length_insert|].
  split; [by apply list_lookup_insert_eq; lia|].
  intros Hne. apply list_lookup_insert_ne. lia.
Qed.
End per_processor.

Lemma per_processor_isolated_witness :
  exists p', with_mut 3 (per_processor_new (A := Z) (H := x86_64_topology))
    (fun _ => Ret (Some 7, tt)) = Ret (p', tt) /\ p' !! 3%nat = Some (Some 7).
Proof.
  destruct (per_processor_isolated (H := x86_64_topology) 3 4
    (per_processor_new (A := Z) (H := x86_64_topology)) (fun _ => Ret (Some 7, tt)))
    as (cell&_&p'&E&_&Hc&_); [done|done|by vm_compute|].
  exists p'. split; [exact E|exact Hc].
Defined.
