(* ===== verification/Slot.v ===== *)
(** Slots of the slab ([slab/src/slot.rs]): the lifecycle word with its
    compare-and-exchange loops, the contents that are only initialised while
    the slot is allocated or a zombie, and the free-list pointer. *)
From S2P Require Import Prelude Bitfields.

(** [hal::topology::ProcessorId]. *)
Abbreviation ProcessorId := Z (only parsing).

Inductive LifecycleError :=
  | WrongGeneration (expected_generation actual_generation : Z)
  | WrongState (expected_state actual_state : State).

#[export] Instance LifecycleError_eq_dec : EqDecision LifecycleError.
Proof. solve_decision. Defined.

(** [contents] is [None] while the [MaybeUninit] is uninitialised. *)
Record Slot (T : Type) := MkSlot {
  lifecycle_word : Z;
  contents : option T;
  next : Z;
  processor : option ProcessorId;
}.
Arguments MkSlot {T}.
Arguments lifecycle_word {T}.
Arguments contents {T}.
Arguments next {T}.
Arguments processor {T}.

(** * Compare-and-exchange loops *)

(** A loop that computes a new word from the last one seen and tries to
    exchange it. [actuals] are the words that memory really holds at the
    successive attempts, which other processors decide; the result is [None]
    while the loop has not finished within them. On success it carries the
    word that was replaced. *)
Fixpoint cas_loop {A E} (update : Z -> rust (result (Z * A) E)) (prev : Z) (actuals : list Z)
    : rust (option (result (Z * (Z * A)) E)) :=
  r ← update prev;
  match r with
  | Err e => Ret (Some (Err e))
  | Ok new =>
      match actuals with
      | [] => Ret None
      | actual :: actuals =>
          if decide (actual = prev) then Ret (Some (Ok (prev, new)))
          else cas_loop update actual actuals
      end
  end.

(** Whatever the other processors do, a loop that succeeds has replaced a
    word that memory held by the update of that very word: the exchange is
    atomic. *)
Lemma cas_loop_atomic {A E} (update : Z -> rust (result (Z * A) E)) prev actuals w new :
  cas_loop update prev actuals = Ret (Some (Ok (w, new))) ->
  w ∈ actuals /\ update w = Ret (Ok new).
Proof.
  revert prev. induction actuals as [|a actuals IH]; intros prev; simpl; intros E0;
    apply bind_Ret_inv in E0 as ([new'|e]&Eu&E0); try discriminate E0.
  case_decide as Ea.
  - injection E0 as <- <-. subst a. split; [set_solver|done].
  - destruct (IH _ E0) as [? ?]. split; [set_solver|done].
Qed.

Section slot.
Context `{Profile} `{ModularBitfield} {T : Type}.
Implicit Types (s : Slot T) (value : T).

Definition new_unallocated (n : Z) : rust (Slot T) :=
  l ← set_generation (MkLifecycle 0 0 0) 0;
  l ← set_refcount (set_state l Unallocated) 0;
  Ret (MkSlot (Lifecycle_into l) None n None).

Definition with_word s (w : Z) : Slot T := MkSlot w (contents s) (next s) (processor s).

(** [slot.lifecycle.load()]. *)
Definition load s : Lifecycle := Lifecycle_from (lifecycle_word s).

(** [Slot::allocate] returns the new generation. Overwriting the contents
    does not drop what was there. *)
Definition allocate s value (current_processor : ProcessorId) : rust (Slot T * Z) :=
  let l := load s in
  next_generation ← expect (checked_add usize_bound (generation l) 1);
  l ← set_generation l next_generation;
  let l := set_state l Allocated in
  _ ← debug_assert (bool_decide (refcount l = 0));
  Ret (MkSlot (Lifecycle_into l) (Some value) (next s) (Some current_processor),
       next_generation).

(** The body of the loop of [acquire_reference]. *)
Definition acquire_update (expected_generation : Z) (prev_lifecycle : Z)
    : rust (result (Z * unit) LifecycleError) :=
  let l := Lifecycle_from prev_lifecycle in
  if decide (generation l <> expected_generation) then
    Ret (Err (WrongGeneration expected_generation (generation l)))
  else
    st ← state l;
    if decide (st <> Allocated) then Ret (Err (WrongState Allocated st))
    else
      r ← expect (checked_add (2 ^ 16) (refcount l) 1);
      l ← set_refcount l r;
      Ret (Ok (Lifecycle_into l, tt)).

(** The body of the loop of [release_reference]; the flag tells the caller
    to clear the slot. *)
Definition release_update (expected_generation : Z) (prev_lifecycle : Z)
    : rust (result (Z * bool) LifecycleError) :=
  let l := Lifecycle_from prev_lifecycle in
  if decide (generation l <> expected_generation) then
    Ret (Err (WrongGeneration expected_generation (generation l)))
  else
    st ← state l;
    if decide (st = Unallocated) then Ret (Err (WrongState Allocated Unallocated))
    else
      r ← expect (checked_sub (refcount l) 1);
      l ← set_refcount l r;
      st ← state l;
      let should_clear := bool_decide (st = Zombie) && bool_decide (refcount l = 0) in
      Ret (Ok (Lifecycle_into l, should_clear)).

(** The closure that [mark_unallocated] gives to [fetch_update], with the
    error that is made out of the refused word; the flag is
    [was_unallocated]. *)
Definition mark_update (expected_generation : Z) (prev_lifecycle : Z)
    : rust (result (Z * bool) LifecycleError) :=
  let l := Lifecycle_from prev_lifecycle in
  st ← (if decide (generation l <> expected_generation) then Ret None
        else st ← state l; Ret (Some st));
  match st with
  | None => Ret (Err (WrongGeneration expected_generation (generation l)))
  | Some st =>
      if decide (st <> Allocated) then Ret (Err (WrongState Allocated st))
      else if decide (refcount l > 0) then
        Ret (Ok (Lifecycle_into (set_state l Zombie), false))
      else Ret (Ok (Lifecycle_into (set_state l Unallocated), true))
  end.

(** A loop that no other processor interferes with: one attempt, at the
    word that was loaded. *)
Definition uncontended {A} (update : Z -> rust (result (Z * A) LifecycleError)) s
    : rust (Slot T * result A LifecycleError) :=
  o ← cas_loop update (lifecycle_word s) [lifecycle_word s];
  match o with
  | Some (Ok (_, (new, a))) => Ret (with_word s new, Ok a)
  | Some (Err e) => Ret (s, Err e)
  | None => Panic EndlessLoop
  end.

Definition acquire_reference s (expected_generation : Z) :=
  uncontended (acquire_update expected_generation) s.
Definition release_reference s (expected_generation : Z) :=
  uncontended (release_update expected_generation) s.
Definition mark_unallocated s (expected_generation : Z) :=
  uncontended (mark_update expected_generation) s.

(** [Slot::clear] drops the contents, which must be initialised. *)
Definition clear s : rust (Slot T * option ProcessorId) :=
  let l := load s in
  _ ← debug_assert (bool_decide (refcount l = 0));
  let l := set_state l Unallocated in
  _ ← deref (contents s);
  Ret (MkSlot (Lifecycle_into l) None (next s) None, processor s).

Definition set_next s (n : Z) : Slot T :=
  MkSlot (lifecycle_word s) (contents s) n (processor s).

(** ** The lifecycle of a slot, read from its word *)

(** The slot is in state [st], generation [g], with [r] references. *)
Record slot_is s (st : State) (g r : Z) : Prop := {
  slot_word : lifecycle_word s = Lifecycle_into (lifecycle st g r);
  slot_fields : lifecycle_ok g r;
}.

Lemma slot_is_load s st g r : slot_is s st g r -> load s = lifecycle st g r.
Proof. intros [E ?]. unfold load. by rewrite E, Lifecycle_from_into. Qed.

Lemma slot_is_inj s st g r st' g' r' :
  slot_is s st g r -> slot_is s st' g' r' -> st = st' /\ g = g' /\ r = r'.
Proof.
  intros Hs Hs'. pose proof (slot_is_load _ _ _ _ Hs) as E.
  rewrite (slot_is_load _ _ _ _ Hs') in E. unfold lifecycle in E. injection E as E -> ->.
  split; [|done]. apply (f_equal State_from_bits) in E. rewrite !State_from_into in E.
  by injection E.
Qed.

Lemma slot_is_with_next s st g r n : slot_is s st g r -> slot_is (set_next s n) st g r.
Proof. by intros [??]. Qed.

Lemma new_unallocated_ok n :
  exists s, new_unallocated n = Ret s /\ slot_is s Unallocated 0 0 /\
    contents s = None /\ next s = n /\ processor s = None.
Proof. eexists. split; [done|]. repeat split; done. Qed.

(** One uncontended loop, by the fields of the word. *)
Lemma uncontended_ok {A} (update : Z -> rust (result (Z * A) LifecycleError)) s :
  uncontended update s =
    (r ← update (lifecycle_word s);
     match r with
     | Ok (w, a) => Ret (with_word s w, Ok a)
     | Err e => Ret (s, Err e)
     end).
Proof.
  unfold uncontended. simpl. destruct (update _) as [[[w a]|e]|?]; simpl; [|done..].
  by rewrite decide_True.
Qed.

Lemma allocate_ok' s st g value cpu :
  slot_is s st g 0 -> g + 1 < 2 ^ 46 ->
  exists s', allocate s value cpu = Ret (s', g + 1) /\ slot_is s' Allocated (g + 1) 0 /\
    contents s' = Some value /\ next s' = next s.
Proof.
  intros Hs Hg. unfold allocate. rewrite (slot_is_load _ _ _ _ Hs). simpl.
  destruct Hs as [_ [??]]. unfold checked_add.
  rewrite decide_True by (unfold usize_bound; lia). simpl.
  unfold set_generation. rewrite set_field_ok by lia. simpl.
  rewrite debug_assert_true. simpl. eexists. split; [done|].
  repeat split; simpl; try done; lia.
Qed.

Lemma allocate_ok s g value cpu :
  slot_is s Unallocated g 0 -> g + 1 < 2 ^ 46 ->
  exists s', allocate s value cpu = Ret (s', g + 1) /\ slot_is s' Allocated (g + 1) 0 /\
    contents s' = Some value /\ next s' = next s.
Proof. apply allocate_ok'. Qed.

(** The updates of the three loops, by the fields of the word. *)
Lemma acquire_update_ok s st g r g' :
  slot_is s st g r ->
  acquire_update g' (lifecycle_word s) =
    if decide (g <> g') then Ret (Err (WrongGeneration g' g))
    else if decide (st <> Allocated) then Ret (Err (WrongState Allocated st))
    else if decide (r + 1 < 2 ^ 16)
    then Ret (Ok (Lifecycle_into (lifecycle st g (r + 1)), tt))
    else Panic ExpectFailed.
Proof.
  intros Hs. unfold acquire_update.
  change (Lifecycle_from (lifecycle_word s)) with (load s).
  rewrite (slot_is_load _ _ _ _ Hs). destruct Hs as [_ [_ ?]]. simpl.
  case_decide; [done|]. rewrite state_lifecycle. simpl. case_decide; [done|].
  unfold checked_add. case_decide; simpl; [|done].
  unfold set_refcount. rewrite set_field_ok by lia. done.
Qed.

Lemma release_update_ok s st g r g' :
  slot_is s st g r ->
  release_update g' (lifecycle_word s) =
    if decide (g <> g') then Ret (Err (WrongGeneration g' g))
    else if decide (st = Unallocated) then Ret (Err (WrongState Allocated Unallocated))
    else if decide (1 <= r)
    then Ret (Ok (Lifecycle_into (lifecycle st g (r - 1)),
                  bool_decide (st = Zombie) && bool_decide (r = 1)))
    else Panic ExpectFailed.
Proof.
  intros Hs. unfold release_update.
  change (Lifecycle_from (lifecycle_word s)) with (load s).
  rewrite (slot_is_load _ _ _ _ Hs). destruct Hs as [_ [_ ?]]. simpl.
  case_decide; [done|]. rewrite state_lifecycle. simpl. case_decide; [done|].
  unfold checked_sub. case_decide; simpl; [|done].
  unfold set_refcount. rewrite set_field_ok by lia. simpl.
  change (MkLifecycle (State_into_bits st) g (r - 1)) with (lifecycle st g (r - 1)).
  rewrite state_lifecycle. simpl. do 4 f_equal. apply bool_decide_ext. lia.
Qed.

Lemma mark_update_ok s st g r g' :
  slot_is s st g r ->
  mark_update g' (lifecycle_word s) =
    if decide (g <> g') then Ret (Err (WrongGeneration g' g))
    else if decide (st <> Allocated) then Ret (Err (WrongState Allocated st))
    else if decide (r > 0) then Ret (Ok (Lifecycle_into (lifecycle Zombie g r), false))
    else Ret (Ok (Lifecycle_into (lifecycle Unallocated g r), true)).
Proof.
  intros Hs. unfold mark_update.
  change (Lifecycle_from (lifecycle_word s)) with (load s).
  rewrite (slot_is_load _ _ _ _ Hs). destruct Hs as [_ [_ ?]]. simpl.
  destruct (decide (g <> g')); [done|]. rewrite state_lifecycle. simpl.
  destruct (decide (st <> Allocated)); [done|]. by destruct (decide (r > 0)).
Qed.

Lemma acquire_reference_ok s st g r g' :
  slot_is s st g r ->
  acquire_reference s g' =
    if decide (g <> g') then Ret (s, Err (WrongGeneration g' g))
    else if decide (st <> Allocated) then Ret (s, Err (WrongState Allocated st))
    else if decide (r + 1 < 2 ^ 16)
    then Ret (with_word s (Lifecycle_into (lifecycle st g (r + 1))), Ok tt)
    else Panic ExpectFailed.
Proof.
  intros Hs. unfold acquire_reference. rewrite uncontended_ok, (acquire_update_ok _ _ _ _ _ Hs).
  by repeat case_decide.
Qed.

Lemma release_reference_ok s st g r g' :
  slot_is s st g r ->
  release_reference s g' =
    if decide (g <> g') then Ret (s, Err (WrongGeneration g' g))
    else if decide (st = Unallocated) then Ret (s, Err (WrongState Allocated Unallocated))
    else if decide (1 <= r)
    then Ret (with_word s (Lifecycle_into (lifecycle st g (r - 1))),
              Ok (bool_decide (st = Zombie) && bool_decide (r = 1)))
    else Panic ExpectFailed.
Proof.
  intros Hs. unfold release_reference. rewrite uncontended_ok, (release_update_ok _ _ _ _ _ Hs).
  by repeat case_decide.
Qed.

Lemma mark_unallocated_ok s st g r g' :
  slot_is s st g r ->
  mark_unallocated s g' =
    if decide (g <> g') then Ret (s, Err (WrongGeneration g' g))
    else if decide (st <> Allocated) then Ret (s, Err (WrongState Allocated st))
    else if decide (r > 0) then Ret (with_word s (Lifecycle_into (lifecycle Zombie g r)), Ok false)
    else Ret (with_word s (Lifecycle_into (lifecycle Unallocated g r)), Ok true).
Proof.
  intros Hs. unfold mark_unallocated. rewrite uncontended_ok, (mark_update_ok _ _ _ _ _ Hs).
  by repeat case_decide.
Qed.

Lemma clear_ok s st g v :
  slot_is s st g 0 -> contents s = Some v ->
  exists s', clear s = Ret (s', processor s) /\ slot_is s' Unallocated g 0 /\
    contents s' = None /\ next s' = next s.
Proof.
  intros Hs Hv. unfold clear. rewrite (slot_is_load _ _ _ _ Hs). simpl.
  rewrite debug_assert_true, Hv. simpl. eexists. split; [done|].
  destruct Hs. repeat split; simpl; try done; apply slot_fields0.
Qed.
End slot.

Section slot_properties.
Context `{Profile} `{ModularBitfield}.

(** The lifecycle loops are atomic under any interference: whatever
    words other processors put in place between the attempts, an acquire
    that succeeds turned an allocated slot of the expected generation with
    [r] references into one with [r + 1]; a release took one reference
    away and asks for clearing exactly when it was a zombie's last; a
    removal turned an allocated slot into a zombie when it had references
    and into an unallocated one when it had none. *)
Theorem lifecycle_loops_atomic g prev actuals st g' r new :
  lifecycle_ok g' r ->
  let w := Lifecycle_into (lifecycle st g' r) in
  (cas_loop (acquire_update g) prev actuals = Ret (Some (Ok (w, (new, tt)))) ->
     g' = g /\ st = Allocated /\ r + 1 < 2 ^ 16 /\
     new = Lifecycle_into (lifecycle Allocated g (r + 1))) /\
  (forall clears, cas_loop (release_update g) prev actuals = Ret (Some (Ok (w, (new, clears)))) ->
     g' = g /\ st <> Unallocated /\ 0 < r /\ new = Lifecycle_into (lifecycle st g (r - 1)) /\
     (clears = true <-> st = Zombie /\ r = 1)) /\
  (forall freed, cas_loop (mark_update g) prev actuals = Ret (Some (Ok (w, (new, freed)))) ->
     g' = g /\ st = Allocated /\ (freed = true <-> r = 0) /\
     new = Lifecycle_into (lifecycle (if freed then Unallocated else Zombie) g r)).
Proof.
  intros Hok w.
  set (s := MkSlot w (None : option unit) 0 None).
  assert (Hs : slot_is s st g' r) by (by split).
  change w with (lifecycle_word s).
  split_and!; [|intros c|intros c]; intros [_ E]%cas_loop_atomic;
    [rewrite (acquire_update_ok _ _ _ _ _ Hs) in E|rewrite (release_update_ok _ _ _ _ _ Hs) in E
    |rewrite (mark_update_ok _ _ _ _ _ Hs) in E];
    (destruct (decide (g' <> g)) as [|Hg]; [discriminate E|]; apply dec_stable in Hg as ->).
  - destruct (decide (st <> Allocated)) as [|Hst]; [discriminate E|]. apply dec_stable in Hst as ->.
    case_decide; [|discriminate E]. by injection E as <-.
  - destruct (decide (st = Unallocated)); [discriminate E|].
    destruct (decide (1 <= r)); [|discriminate E]. injection E as <- <-.
    rewrite andb_true_iff, !bool_decide_eq_true. split_and!; try done. lia.
  - destruct (decide (st <> Allocated)) as [|Hst]; [discriminate E|]. apply dec_stable in Hst as ->.
    destruct Hok as [_ ?]. case_decide; injection E as <- <-;
      (split; [done|]; split; [done|]; split; [|done]); split; (done || lia).
Qed.
End slot_properties.

Section witnesses.
#[local] Existing Instance lsb_first.
#[local] Existing Instance dev_profile.

(** Two other references come and go before the exchange succeeds. *)
Lemma lifecycle_loops_atomic_witness :
  let w r := Lifecycle_into (lifecycle Allocated 3 r) in
  cas_loop (acquire_update 3) (w 0) [w 1; w 0; w 0] = Ret (Some (Ok (w 0, (w 1, tt)))) /\
  0 + 1 < 2 ^ 16.
Proof.
  intros w. assert (E : cas_loop (acquire_update 3) (w 0) [w 1; w 0; w 0]
    = Ret (Some (Ok (w 0, (w 1, tt))))) by (by vm_compute).
  split; [exact E|].
  destruct (lifecycle_loops_atomic 3 (w 0) [w 1; w 0; w 0] Allocated 3 0 (w 1))
    as [Ha _]; [done|].
  by destruct (Ha E) as (_&_&?&_).
Defined.
End witnesses.
