(* ===== verification/FreeLists.v ===== *)
(** The slab's free lists ([slab/src/free_lists.rs]): the global Treiber
    stack, here as its atomic actions and as the push and pop that one
    processor performs undisturbed, and the per-processor stacks. Both kinds
    of list are threaded through the [next] fields of the slots. *)
From S2P Require Import Prelude Bitfields Topology Slot.

Definition EMPTY : Z := 2 ^ 64 - 1.

Record GlobalFreeList := MkGlobalFreeList { head : Z; tag : Z }.

#[export] Instance GlobalFreeList_eq_dec : EqDecision GlobalFreeList.
Proof. solve_decision. Defined.

Definition global_new (h : Z) : GlobalFreeList := MkGlobalFreeList h 0.
Definition global_new_empty : GlobalFreeList := global_new EMPTY.

Section free_lists.
Context {bits : ModularBitfield} {T : Type}.
Implicit Types (f : GlobalFreeList) (storage : list (Slot T)) (i : nat).

(** ** Atomic actions of the global list *)

(** [self.tag.fetch_add(1)] and the entry to push. The index field's
    setter takes a [u32]. *)
Definition take_tag f i : rust (GlobalFreeList * Z) :=
  let new_tag := tag f in
  let f := MkGlobalFreeList (head f) ((new_tag + 1) mod 2 ^ 64) in
  index ← expect (if decide (Z.of_nat i < 2 ^ 32) then Some (Z.of_nat i) else None);
  e ← Entry_new index new_tag;
  Ret (f, Entry_into e).

(** [storage[index].set_next(old_head)]. *)
Definition link_slot storage i (old_head : Z) : rust (list (Slot T)) :=
  s ← index storage i;
  Ret (<[i := set_next s old_head]> storage).

(** [storage[index].next()]. *)
Definition slot_next storage i : rust Z :=
  s ← index storage i; Ret (next s).

(** [self.head.compare_exchange(old, new).is_ok()]. *)
Definition exchange_head f (old new : Z) : option GlobalFreeList :=
  if decide (head f = old) then Some (MkGlobalFreeList new (tag f)) else None.

Definition head_index (w : Z) : nat := Z.to_nat (entry_index (Entry_from w)).

(** ** [push] and [pop] of one processor *)

(** Undisturbed, the exchange succeeds at the first attempt. *)
Definition global_push f i storage : rust (GlobalFreeList * list (Slot T)) :=
  '(f, new_head) ← take_tag f i;
  let old_head := head f in
  storage ← link_slot storage i old_head;
  match exchange_head f old_head new_head with
  | Some f => Ret (f, storage)
  | None => Panic EndlessLoop
  end.

Definition global_pop f storage : rust (GlobalFreeList * option nat) :=
  let old_head := head f in
  if decide (old_head = EMPTY) then Ret (f, None)
  else
    new_head ← slot_next storage (head_index old_head);
    match exchange_head f old_head new_head with
    | Some f => Ret (f, Some (head_index old_head))
    | None => Panic EndlessLoop
    end.

(** ** The per-processor lists *)

Definition local_push (free_lists : list (option Z)) (cpu : Z) i storage
    : rust (list (option Z) * list (Slot T)) :=
  with_mut cpu free_lists (fun cell =>
    let old_head := default EMPTY cell in
    storage ← link_slot storage i old_head;
    Ret (Some (Z.of_nat i), storage)).

Definition local_pop (free_lists : list (option Z)) (cpu : Z) storage
    : rust (list (option Z) * option nat) :=
  with_mut cpu free_lists (fun cell =>
    match cell with
    | None => Ret (None, None)
    | Some old_head =>
        if decide (old_head = EMPTY) then Ret (Some old_head, None)
        else
          n ← slot_next storage (Z.to_nat old_head);
          Ret (Some n, Some (Z.to_nat old_head))
    end).

(** ** Chains *)

(** The word [w] heads a list of the slots [l], when [dec] reads a word's
    slot index. *)
Fixpoint chain (dec : Z -> nat) storage (w : Z) (l : list nat) : Prop :=
  match l with
  | [] => w = EMPTY
  | i :: l => w <> EMPTY /\ dec w = i /\
      exists s, storage !! i = Some s /\ chain dec storage (next s) l
  end.

Lemma chain_insert dec storage w l i s :
  i ∉ l -> chain dec storage w l -> chain dec (<[i := s]> storage) w l.
Proof.
  revert w. induction l as [|j l IH]; intros w; [done|]. simpl.
  intros [??]%not_elem_of_cons (?&?&s'&?&?).
  split; [done|]. split; [done|]. exists s'. rewrite list_lookup_insert_ne by done. auto.
Qed.

Lemma chain_update dec storage w l i s s' :
  storage !! i = Some s -> next s' = next s ->
  chain dec storage w l -> chain dec (<[i := s']> storage) w l.
Proof.
  intros Hi Hn. revert w. induction l as [|j l IH]; intros w; [done|]. simpl.
  intros (?&?&s0&Hj&Hc). split; [done|]. split; [done|].
  destruct (decide (i = j)) as [->|].
  - exists s'. rewrite list_lookup_insert_eq by (by eapply lookup_lt_Some).
    rewrite Hi in Hj. injection Hj as <-. rewrite Hn. auto.
  - exists s0. rewrite list_lookup_insert_ne by done. auto.
Qed.

Lemma chain_lt dec storage w l : chain dec storage w l -> Forall (fun i => i < length storage)%nat l.
Proof.
  revert w. induction l as [|j l IH]; intros w; [constructor|]. intros (_&_&s&Hj&Hc).
  constructor; [by eapply lookup_lt_Some|by eapply IH].
Qed.

(** The chain that a push makes. *)
Lemma chain_link dec storage w l i s w' :
  storage !! i = Some s -> i ∉ l -> w' <> EMPTY -> dec w' = i ->
  chain dec storage w l -> chain dec (<[i := set_next s w]> storage) w' (i :: l).
Proof.
  intros Hi Hl Hw' Hd Hc. simpl. split; [done|]. split; [done|].
  exists (set_next s w). split; [apply list_lookup_insert_eq; by eapply lookup_lt_Some|].
  by apply chain_insert.
Qed.

(** A slot index never looks like the end of a list. *)
Lemma Entry_into_not_empty (x t : Z) :
  0 <= x < 2 ^ 18 - 1 -> 0 <= t < 2 ^ 46 -> Entry_into (MkEntry x t) <> EMPTY.
Proof. intros. rewrite Entry_into_eq. unfold EMPTY. lia. Qed.

Lemma head_index_entry i (t : Z) :
  (Z.of_nat i < 2 ^ 18) -> 0 <= t < 2 ^ 46 ->
  head_index (Entry_into (MkEntry (Z.of_nat i) t)) = i.
Proof. intros ??. unfold head_index. rewrite Entry_from_into by lia. simpl. lia. Qed.

Lemma take_tag_ok f i :
  Z.of_nat i < 2 ^ 18 -> 0 <= tag f < 2 ^ 46 ->
  take_tag f i = Ret (MkGlobalFreeList (head f) (tag f + 1),
                      Entry_into (MkEntry (Z.of_nat i) (tag f))).
Proof.
  intros Hi Ht. unfold take_tag. rewrite decide_True by lia. simpl.
  unfold Entry_new. rewrite !set_field_ok by lia. simpl. rewrite Z.mod_small by lia. done.
Qed.

Lemma take_tag_overflow f i :
  2 ^ 46 <= tag f -> exists w, take_tag f i = Panic w.
Proof.
  intros Ht. unfold take_tag. destruct (decide _); [|by eexists].
  cbn [mbind rust_bind expect]. unfold Entry_new, set_field.
  destruct (decide (0 <= Z.of_nat i < _)); [|by eexists]. cbn [mbind rust_bind].
  rewrite decide_False by lia. by eexists.
Qed.

Lemma global_push_ok f l i s storage :
  chain head_index storage (head f) l -> storage !! i = Some s -> i ∉ l ->
  Z.of_nat (length storage) < 2 ^ 18 -> 0 <= tag f < 2 ^ 46 ->
  exists f', global_push f i storage = Ret (f', <[i := set_next s (head f)]> storage) /\
    chain head_index (<[i := set_next s (head f)]> storage) (head f') (i :: l) /\
    tag f' = tag f + 1.
Proof.
  intros Hc Hi Hl Hlen Ht. pose proof (lookup_lt_Some _ _ _ Hi).
  unfold global_push. rewrite take_tag_ok by lia. simpl.
  unfold link_slot, index. rewrite Hi. simpl. unfold exchange_head. rewrite decide_True by done.
  eexists. split; [done|]. split; [|done]. simpl head.
  apply chain_link; [done|done| | |done].
  - apply Entry_into_not_empty; lia.
  - apply head_index_entry; lia.
Qed.

Lemma global_pop_ok f l storage :
  chain head_index storage (head f) l ->
  match l with
  | [] => global_pop f storage = Ret (f, None)
  | i :: l => exists w, global_pop f storage = Ret (MkGlobalFreeList w (tag f), Some i) /\
               chain head_index storage w l
  end.
Proof.
  unfold global_pop. destruct l as [|i l]; simpl.
  - intros ->. by rewrite decide_True.
  - intros (Hne&Hi&s&Hs&Hc). rewrite decide_False by done.
    unfold slot_next, index. rewrite Hi, Hs. simpl. unfold exchange_head.
    rewrite decide_True by done. eauto.
Qed.

(** A per-processor list that was never used is empty. *)
Definition local_chain storage (cell : option Z) (l : list nat) : Prop :=
  chain Z.to_nat storage (default EMPTY cell) l.

Lemma local_push_ok free_lists cpu cell l i s storage :
  free_lists !! Z.to_nat cpu = Some cell -> local_chain storage cell l ->
  storage !! i = Some s -> i ∉ l -> Z.of_nat (length storage) < 2 ^ 18 ->
  local_push free_lists cpu i storage =
    Ret (<[Z.to_nat cpu := Some (Z.of_nat i)]> free_lists,
         <[i := set_next s (default EMPTY cell)]> storage) /\
  local_chain (<[i := set_next s (default EMPTY cell)]> storage) (Some (Z.of_nat i)) (i :: l).
Proof.
  intros Hcpu Hc Hi Hl Hlen. pose proof (lookup_lt_Some _ _ _ Hi). split.
  - apply (with_mut_ok _ _ _ _ _ _ Hcpu). unfold link_slot, index. by rewrite Hi.
  - apply chain_link; try done; simpl; unfold EMPTY; lia.
Qed.

Lemma local_pop_ok free_lists cpu cell l storage :
  free_lists !! Z.to_nat cpu = Some cell -> local_chain storage cell l ->
  match l with
  | [] => exists cell', local_pop free_lists cpu storage
            = Ret (<[Z.to_nat cpu := cell']> free_lists, None) /\ local_chain storage cell' []
  | i :: l => exists cell', local_pop free_lists cpu storage
            = Ret (<[Z.to_nat cpu := cell']> free_lists, Some i) /\ local_chain storage cell' l
  end.
Proof.
  intros Hcpu Hc. unfold local_chain in Hc. destruct l as [|i l].
  - exists cell. split; [|done]. apply (with_mut_ok _ _ _ _ _ _ Hcpu).
    destruct cell as [w|]; [|done]. simpl in Hc. by rewrite decide_True.
  - destruct Hc as (Hne&Hi&s&Hs&Hc). destruct cell as [w|]; [|done]. simpl in *.
    exists (Some (next s)). split; [|done]. apply (with_mut_ok _ _ _ _ _ _ Hcpu).
    rewrite decide_False by done. unfold slot_next, index. rewrite Hi, Hs. done.
Qed.
End free_lists.
