(* ===== verification/Slab.v ===== *)
(** The slab ([slab/src/lib.rs]): operations as one processor performs them
    from beginning to end. Their interleaving with those of other processors
    is the subject of [Treiber], for the global list alone, and of
    [SlabSteps]. *)
From S2P Require Import Prelude Bitfields Topology Slot FreeLists.

Record Slab (T : Type) := MkSlab {
  local_free_list : list (option Z);
  global_free_list : GlobalFreeList;
  slots : list (Slot T);
}.
Arguments MkSlab {T}.
Arguments local_free_list {T}.
Arguments global_free_list {T}.
Arguments slots {T}.

Section slab.
Context {prof : Profile} {bits : ModularBitfield} {topology : Topology} {T : Type}.
Implicit Types (sl : Slab T) (idx : Idx) (cpu : ProcessorId).

Definition with_slots sl (l : list (Slot T)) : Slab T :=
  MkSlab (local_free_list sl) (global_free_list sl) l.

Definition with_slot sl (i : nat) (s : Slot T) : Slab T :=
  with_slots sl (<[i := s]> (slots sl)).

(** All slots start on the global free list, in order. *)
Definition slab_new (SIZE : nat) : rust (Slab T) :=
  _ ← rassert (bool_decide (Z.of_nat SIZE < 2 ^ 18));
  slots ← mapM (fun i =>
      let next := if decide (i = SIZE - 1)%nat then EMPTY else Z.of_nat (i + 1) in
      new_unallocated next) (seq 0 SIZE);
  Ret (MkSlab per_processor_new (global_new 0) slots).

(** [index.try_into().unwrap()] to the [u32] that the index field's setter
    takes. *)
Definition make_idx (g : Z) (i : nat) : rust Idx :=
  i ← expect (if decide (Z.of_nat i < 2 ^ 32) then Some (Z.of_nat i) else None);
  Idx_new g i.

(** [local_free_list.pop(..).or_else(|| global_free_list.pop(..))]. *)
Definition pop_slot sl cpu : rust (Slab T * option nat) :=
  '(lf, popped) ← local_pop (local_free_list sl) cpu (slots sl);
  match popped with
  | Some i => Ret (MkSlab lf (global_free_list sl) (slots sl), Some i)
  | None =>
      '(gf, popped) ← global_pop (global_free_list sl) (slots sl);
      Ret (MkSlab lf gf (slots sl), popped)
  end.

Definition insert sl (value : T) cpu : rust (Slab T * result Idx T) :=
  '(sl, popped) ← pop_slot sl cpu;
  match popped with
  | None => Ret (sl, Err value)
  | Some i =>
      slot ← index (slots sl) i;
      '(slot, generation) ← allocate slot value cpu;
      idx ← make_idx generation i;
      Ret (with_slot sl i slot, Ok idx)
  end.

(** [return_slot]: clears the slot and puts it on the free list of the
    processor it was allocated on, if that is the current one. *)
Definition return_slot sl (i : nat) cpu : rust (Slab T) :=
  slot ← index (slots sl) i;
  '(slot, allocated_on) ← clear slot;
  let sl := with_slot sl i slot in
  if decide (allocated_on = Some cpu) then
    '(lf, slots) ← local_push (local_free_list sl) cpu i (slots sl);
    Ret (MkSlab lf (global_free_list sl) slots)
  else
    '(gf, slots) ← global_push (global_free_list sl) i (slots sl);
    Ret (MkSlab (local_free_list sl) gf slots).

Definition remove sl idx cpu : rust (Slab T * bool) :=
  let i := Z.to_nat (idx_index idx) in
  match slots sl !! i with
  | None => Ret (sl, false)
  | Some slot =>
      '(slot, res) ← mark_unallocated slot (idx_generation idx);
      let sl := with_slot sl i slot in
      match res with
      | Ok true => sl ← return_slot sl i cpu; Ret (sl, true)
      | Ok false => Ret (sl, true)
      | Err _ => Ret (sl, false)
      end
  end.

(** A [Ref] is the index it was obtained with; its pointer is the slot's
    contents. *)
Definition get sl idx : rust (Slab T * option Idx) :=
  let i := Z.to_nat (idx_index idx) in
  match slots sl !! i with
  | None => Ret (sl, None)
  | Some slot =>
      '(slot, res) ← acquire_reference slot (idx_generation idx);
      let sl := with_slot sl i slot in
      match res with
      | Ok _ => Ret (sl, Some idx)
      | Err _ => Ret (sl, None)
      end
  end.

(** [Ref::deref] assumes the contents to be initialised. *)
Definition ref_deref sl (r : Idx) : rust T :=
  slot ← deref (slots sl !! Z.to_nat (idx_index r));
  deref (contents slot).

Definition drop_reference sl idx cpu : rust (Slab T) :=
  let i := Z.to_nat (idx_index idx) in
  slot ← index (slots sl) i;
  '(slot, res) ← release_reference slot (idx_generation idx);
  let sl := with_slot sl i slot in
  match res with
  | Err _ => Panic ExpectFailed
  | Ok should_clear => if should_clear : bool then return_slot sl i cpu else Ret sl
  end.
End slab.
