(* ===== verification/SlabSpec.v ===== *)
(** Correctness of the slab: an abstract specification (which values were
    inserted under which index, which indices are live, which references are
    out), the invariant that relates a slab to it, and the refinement of the
    specification by every operation. *)
From S2P Require Import Prelude Bitfields Topology Slot FreeLists Slab.

(** * The free lists of a slab *)

Section lists.
Context {prof : Profile} {bits : ModularBitfield} {topology : Topology} {T : Type}.
Implicit Types (sl : Slab T) (storage : list (Slot T)) (l frees : list nat) (i : nat).

(** The global list is [gl], the per-processor lists are [lls]. *)
Record lists_are (lf : list (option Z)) (gf : GlobalFreeList) storage
    (gl : list nat) (lls : list (list nat)) : Prop := {
  lists_cells : length lf = Z.to_nat MAX_PROCESSORS;
  lists_global : chain head_index storage (head gf) gl;
  lists_local : Forall2 (local_chain storage) lf lls;
  lists_nodup : NoDup (gl ++ concat lls);
  lists_tag : 0 <= tag gf;
}.

Lemma lists_update lf gf storage gl lls i s s' :
  lists_are lf gf storage gl lls -> storage !! i = Some s -> next s' = next s ->
  lists_are lf gf (<[i := s']> storage) gl lls.
Proof.
  intros [? Hg Hl ? ?] Hi Hn. split; try done; [by eapply chain_update|].
  eapply Forall2_impl; [exact Hl|]. intros cell l. by apply chain_update with s.
Qed.

Lemma in_concat_lookup (lls : list (list nat)) c l i :
  lls !! c = Some l -> i ∈ l -> i ∈ concat lls.
Proof.
  intros Hc Hi. apply list_elem_of_lookup_2 in Hc. apply list_elem_of_In, in_concat.
  exists l. split; by apply list_elem_of_In.
Qed.

(** Popping: from the processor's own list first, then from the global one;
    the popped slot leaves the lists. *)
Lemma pop_slot_ok sl cpu gl lls :
  lists_are (local_free_list sl) (global_free_list sl) (slots sl) gl lls ->
  0 <= cpu < MAX_PROCESSORS ->
  exists lf gf gl' lls' o, pop_slot sl cpu = Ret (MkSlab lf gf (slots sl), o) /\
    lists_are lf gf (slots sl) gl' lls' /\ tag gf = tag (global_free_list sl) /\
    match o with
    | Some i => gl ++ concat lls ≡ₚ i :: gl' ++ concat lls'
    | None => gl' = gl /\ lls' = lls /\ gl = [] /\ lls !! Z.to_nat cpu = Some []
    end.
Proof.
  intros [Hc Hg Hl Hnd Ht] Hcpu.
  destruct (lookup_lt_is_Some_2 (local_free_list sl) (Z.to_nat cpu)) as [cell Hcell]; [lia|].
  destruct (Forall2_lookup_l _ _ _ _ _ Hl Hcell) as (l&Hll&Hch).
  pose proof (local_pop_ok _ _ _ _ _ Hcell Hch) as Hpop. unfold pop_slot.
  assert (Hset : forall cell' l', local_chain (slots sl) cell' l' ->
    Forall2 (local_chain (slots sl)) (<[Z.to_nat cpu := cell']> (local_free_list sl))
      (<[Z.to_nat cpu := l']> lls)).
  { intros cell' l' Hcl'. apply Forall2_insert; done. }
  destruct l as [|i l]; destruct Hpop as (cell'&E&Hcl'); rewrite E; cbn [mbind rust_bind].
  - pose proof (global_pop_ok _ _ _ Hg) as Hgp.
    assert (Hl' : Forall2 (local_chain (slots sl))
                    (<[Z.to_nat cpu := cell']> (local_free_list sl)) lls).
    { specialize (Hset _ _ Hcl'). by rewrite (list_insert_id lls) in Hset. }
    destruct gl as [|i gl].
    + rewrite Hgp. cbn [mbind rust_bind].
      do 2 eexists. exists [], lls, None. split; [done|]. split; [|done].
      split; [by rewrite length_insert|done|exact Hl'|done|done].
    + destruct Hgp as (w&E'&Hw). rewrite E'. cbn [mbind rust_bind].
      do 2 eexists. exists gl, lls, (Some i). split; [done|]. split; [|done].
      split; [by rewrite length_insert|exact Hw|exact Hl'| |done].
      by apply NoDup_cons in Hnd as [_ ?].
  - destruct (concat_insert lls (Z.to_nat cpu) (i :: l) l Hll) as (rest&E1&E2).
    assert (Hperm : gl ++ concat lls ≡ₚ i :: gl ++ concat (<[Z.to_nat cpu := l]> lls)).
    { rewrite E1, E2. simpl. solve_Permutation. }
    do 2 eexists. exists gl, (<[Z.to_nat cpu := l]> lls), (Some i).
    split; [done|]. split; [|split; [done|exact Hperm]].
    split; [by rewrite length_insert|exact Hg|by apply Hset| |done].
    rewrite Hperm in Hnd. by apply NoDup_cons in Hnd as [_ ?].
Qed.

(** Pushing a slot that is on no list. *)
Lemma lists_push_local lf gf storage gl lls cpu i s :
  lists_are lf gf storage gl lls -> 0 <= cpu < MAX_PROCESSORS ->
  storage !! i = Some s -> i ∉ gl ++ concat lls -> Z.of_nat (length storage) < 2 ^ 18 ->
  exists lf' s' lls', local_push lf cpu i storage = Ret (lf', <[i := s']> storage) /\
    (exists w, s' = set_next s w) /\
    lists_are lf' gf (<[i := s']> storage) gl lls' /\
    gl ++ concat lls' ≡ₚ i :: gl ++ concat lls.
Proof.
  intros [Hc Hg Hl Hnd Ht] Hcpu Hi Hni Hlen.
  destruct (lookup_lt_is_Some_2 lf (Z.to_nat cpu)) as [cell Hcell]; [lia|].
  destruct (Forall2_lookup_l _ _ _ _ _ Hl Hcell) as (l&Hll&Hch).
  apply not_elem_of_app in Hni as Hni'. destruct Hni' as [Hng Hnl].
  assert (Hil : i ∉ l) by (intros Hin; apply Hnl; by eapply in_concat_lookup).
  destruct (local_push_ok lf cpu cell l i s storage Hcell Hch Hi Hil Hlen) as [E Hch'].
  destruct (concat_insert lls (Z.to_nat cpu) l (i :: l) Hll) as (rest&E1&E2).
  assert (Hperm : gl ++ concat (<[Z.to_nat cpu := i :: l]> lls) ≡ₚ i :: gl ++ concat lls).
  { rewrite E1, E2. simpl. solve_Permutation. }
  do 2 eexists. exists (<[Z.to_nat cpu := i :: l]> lls).
  split; [exact E|]. split; [by eexists|]. split; [|exact Hperm].
  split; [by rewrite length_insert| | | |done].
  - by apply chain_insert.
  - apply Forall2_insert; [|exact Hch'].
    apply Forall2_same_length_lookup. split; [by eapply Forall2_length|].
    intros j c k Hj Hk. apply chain_insert.
    + intros Hin. apply Hnl. by eapply in_concat_lookup.
    + by eapply (Forall2_lookup_lr _ _ _ _ _ _ Hl).
  - rewrite Hperm. by apply NoDup_cons.
Qed.

Lemma lists_push_global lf gf storage gl lls i s :
  lists_are lf gf storage gl lls -> storage !! i = Some s -> i ∉ gl ++ concat lls ->
  Z.of_nat (length storage) < 2 ^ 18 -> tag gf < 2 ^ 46 ->
  exists gf' s', global_push gf i storage = Ret (gf', <[i := s']> storage) /\
    (exists w, s' = set_next s w) /\
    lists_are lf gf' (<[i := s']> storage) (i :: gl) lls.
Proof.
  intros [Hc Hg Hl Hnd Ht] Hi Hni Hlen Htag.
  apply not_elem_of_app in Hni as Hni'. destruct Hni' as [Hng Hnl].
  destruct (global_push_ok gf gl i s storage) as (gf'&E&Hg'&Ht'); [done..|].
  do 2 eexists. split; [exact E|]. split; [by eexists|].
  split; [done|exact Hg'| |by apply NoDup_cons|lia].
  apply Forall2_same_length_lookup. split; [by eapply Forall2_length|].
  intros j c k Hj Hk. apply chain_insert.
  - intros Hin. apply Hnl. by eapply in_concat_lookup.
  - by eapply (Forall2_lookup_lr _ _ _ _ _ _ Hl).
Qed.
End lists.

(** * The abstract slab *)

(** [given] maps every index that was ever returned to the value inserted
    under it, [live] are the indices not removed yet, [refs] the references
    that are out. *)
Record spec (T : Type) := MkSpec {
  given : gmap Idx T;
  live : gset Idx;
  refs : list Idx;
}.
Arguments MkSpec {T}.
Arguments given {T}.
Arguments live {T}.
Arguments refs {T}.

(** The index refers to slot [i]. *)
Definition here (i : nat) (x : Idx) : Prop := idx_index x = Z.of_nat i.

#[export] Instance here_dec i x : Decision (here i x).
Proof. unfold here. apply _. Defined.

Section invariant.
Context {prof : Profile} {bits : ModularBitfield} {topology : Topology} {T : Type}.
Implicit Types (sl : Slab T) (a : spec T) (s : Slot T) (x : Idx).

(** One slot, in state [st] with generation [g], against the part of the
    specification that concerns it; [fr]: the slot is on a free list. *)
Record slot_ok a (fr : Prop) (i : nat) s (st : State) (g : Z) : Prop := {
  so_is : slot_is s st g (Z.of_nat (length (filter (here i) (refs a))));
  so_ref_generation x : x ∈ refs a -> here i x -> idx_generation x = g;
  so_free : fr <-> st = Unallocated;
  so_unreferenced : st = Unallocated -> filter (here i) (refs a) = [];
  so_zombie : st = Zombie -> filter (here i) (refs a) <> [];
  so_contents : st <> Unallocated ->
    exists v, contents s = Some v /\ given a !! MkIdx g (Z.of_nat i) = Some v;
  so_live x : here i x -> (x ∈ live a <-> st = Allocated /\ idx_generation x = g);
  so_given x v : given a !! x = Some v -> here i x -> 0 < idx_generation x <= g;
}.

(** Every index mentioned refers to some slot. *)
Definition in_bounds sl x : Prop := 0 <= idx_index x < Z.of_nat (length (slots sl)).

Record slab_inv sl a : Prop := {
  inv_size : Z.of_nat (length (slots sl)) < 2 ^ 18;
  inv_slots : exists gl lls,
    lists_are (local_free_list sl) (global_free_list sl) (slots sl) gl lls /\
    forall i s, slots sl !! i = Some s ->
      exists st g, slot_ok a (i ∈ gl ++ concat lls) i s st g;
  inv_bounds x : x ∈ refs a \/ x ∈ live a \/ is_Some (given a !! x) -> in_bounds sl x;
}.

(** Slot [i] is the only one on which two specifications (and two sets of
    free slots) differ. *)
Record only_at (i : nat) a a' (fr fr' : nat -> Prop) : Prop := {
  oa_given x : ~ here i x -> given a' !! x = given a !! x;
  oa_live x : ~ here i x -> x ∈ live a' <-> x ∈ live a;
  oa_refs j : j <> i -> filter (here j) (refs a') ≡ₚ filter (here j) (refs a);
  oa_free j : j <> i -> fr' j <-> fr j;
}.

Lemma here_other i j x : here j x -> j <> i -> ~ here i x.
Proof. unfold here. lia. Qed.

Lemma filter_here_in i x (l : list Idx) : x ∈ filter (here i) l <-> here i x /\ x ∈ l.
Proof. apply list_elem_of_filter. Qed.

Lemma slot_ok_frame i j a a' fr fr' s st g :
  only_at i a a' fr fr' -> j <> i -> slot_ok a (fr j) j s st g -> slot_ok a' (fr' j) j s st g.
Proof.
  intros [Hg Hl Hr Hf] Hj [His Hrg Hfr Hun Hz Hc Hli Hgi].
  specialize (Hr _ Hj). specialize (Hf _ Hj). split.
  - by rewrite Hr.
  - intros x Hx Hh. apply (Hrg x); [|done].
    assert (Hin : x ∈ filter (here j) (refs a')) by (by apply filter_here_in).
    rewrite Hr in Hin. by apply filter_here_in in Hin as [_ ?].
  - by rewrite Hf.
  - intros Hu. specialize (Hun Hu). rewrite Hun in Hr. by apply Permutation_nil_r in Hr.
  - intros Hu E. apply (Hz Hu). rewrite E in Hr. by apply Permutation_nil_l in Hr.
  - intros Hu. destruct (Hc Hu) as (v&?&?). exists v. split; [done|]. rewrite Hg; [done|].
    by apply (here_other i j).
  - intros x Hh. rewrite Hl by (by eapply here_other). by apply Hli.
  - intros x v Hx Hh. rewrite Hg in Hx by (by eapply here_other). by eapply Hgi.
Qed.

(** Rebuilding the invariant after an operation on slot [i]. *)
Lemma slab_inv_update sl a i s s' lf gf a' gl lls gl' lls' :
  slab_inv sl a -> slots sl !! i = Some s ->
  (forall j s, slots sl !! j = Some s -> exists st g, slot_ok a (j ∈ gl ++ concat lls) j s st g) ->
  lists_are lf gf (<[i := s']> (slots sl)) gl' lls' ->
  only_at i a a' (fun j => j ∈ gl ++ concat lls) (fun j => j ∈ gl' ++ concat lls') ->
  (exists st g, slot_ok a' (i ∈ gl' ++ concat lls') i s' st g) ->
  (forall x, x ∈ refs a' -> here i x \/ x ∈ refs a) ->
  slab_inv (MkSlab lf gf (<[i := s']> (slots sl))) a'.
Proof.
  intros [Hsz _ Hb] Hi Hall Hl Ho Hnew Hrefs. pose proof (lookup_lt_Some _ _ _ Hi) as Hlt. split.
  - simpl. by rewrite length_insert.
  - exists gl', lls'. split; [exact Hl|]. intros j sj Hj. simpl in Hj.
    destruct (decide (i = j)) as [->|Hne].
    + rewrite list_lookup_insert_eq in Hj by done. by injection Hj as <-.
    + rewrite list_lookup_insert_ne in Hj by done. destruct (Hall _ _ Hj) as (st&g&Hok).
      exists st, g. by apply (slot_ok_frame i j a a' _ _ sj st g Ho).
  - intros x Hx. unfold in_bounds. simpl. rewrite length_insert.
    destruct (decide (here i x)) as [Hh|Hh]; [unfold here in Hh; lia|].
    apply Hb. destruct Hx as [Hx|[Hx|Hx]].
    + left. by destruct (Hrefs _ Hx).
    + right; left. by apply (oa_live _ _ _ _ _ Ho).
    + do 2 right. by rewrite <-(oa_given _ _ _ _ _ Ho).
Qed.

(** Where an index points to, and what the invariant says there. *)
Lemma locate sl a x :
  slab_inv sl a ->
  match slots sl !! Z.to_nat (idx_index x) with
  | Some _ => in_bounds sl x \/ idx_index x < 0
  | None => ~ in_bounds sl x
  end.
Proof.
  intros Hi. unfold in_bounds. destruct (slots sl !! _) eqn:E.
  - apply lookup_lt_Some in E. lia.
  - apply lookup_ge_None in E. lia.
Qed.
End invariant.

(** * The operations *)

Definition idx_valid (x : Idx) : Prop :=
  0 <= idx_generation x < 2 ^ 46 /\ 0 <= idx_index x < 2 ^ 18.

Definition spec_insert {T} (a : spec T) (x : Idx) (v : T) : spec T :=
  MkSpec (<[x := v]> (given a)) ({[x]} ∪ live a) (refs a).

Definition spec_remove {T} (a : spec T) (x : Idx) : spec T :=
  MkSpec (given a) (live a ∖ {[x]}) (refs a).

Definition spec_refs {T} (a : spec T) (rs : list Idx) : spec T :=
  MkSpec (given a) (live a) rs.

(** Slot [i] has used all its generations. *)
Definition exhausted `{ModularBitfield} {T} (sl : Slab T) (i : nat) : Prop :=
  exists s, slots sl !! i = Some s /\ slot_is s Unallocated (2 ^ 46 - 1) 0.

Section operations.
Context {prof : Profile} {bits : ModularBitfield} {topology : Topology} {T : Type}.
Implicit Types (sl : Slab T) (a : spec T) (s : Slot T) (x : Idx) (v : T).

Lemma make_idx_ok g i :
  0 <= g < 2 ^ 46 -> Z.of_nat i < 2 ^ 18 -> make_idx g i = Ret (MkIdx g (Z.of_nat i)).
Proof.
  intros ??. unfold make_idx. rewrite decide_True by lia. simpl.
  unfold Idx_new. by rewrite !set_field_ok by lia.
Qed.

Lemma idx_at i x : here i x -> x = MkIdx (idx_generation x) (Z.of_nat i).
Proof. unfold here. destruct x; simpl. by intros ->. Qed.

Lemma chain_unique dec (storage : list (Slot T)) w l l' :
  chain dec storage w l -> chain dec storage w l' -> l = l'.
Proof.
  revert w l'. induction l as [|i l IH]; intros w [|j l']; simpl; [done| | |].
  - by intros -> (?&_).
  - by intros (?&_) ->.
  - intros (_&<-&s&Hs&Hc) (_&<-&s'&Hs'&Hc'). rewrite Hs in Hs'. injection Hs' as <-.
    f_equal. by eapply IH.
Qed.

Lemma lists_unique lf gf (storage : list (Slot T)) gl lls gl' lls' :
  lists_are lf gf storage gl lls -> lists_are lf gf storage gl' lls' ->
  gl' = gl /\ lls' = lls.
Proof.
  intros [_ Hg Hl _ _] [_ Hg' Hl' _ _]. split; [by eapply chain_unique|].
  clear Hg Hg'. revert lls' Hl'. induction Hl as [|c l cs lls Hc _ IH]; intros lls' Hl'.
  - by inversion Hl'.
  - inversion Hl'; subst. f_equal; [by eapply chain_unique|by apply IH].
Qed.

Lemma lists_lt lf gf (storage : list (Slot T)) gl lls i :
  lists_are lf gf storage gl lls -> i ∈ gl ++ concat lls -> (i < length storage)%nat.
Proof.
  intros [_ Hg Hl _ _] [Hi|Hi]%elem_of_app.
  - apply chain_lt in Hg. rewrite Forall_forall in Hg. by apply Hg.
  - apply list_elem_of_In, in_concat in Hi as (l&Hll&Hi).
    apply list_elem_of_In in Hll, Hi. apply list_elem_of_lookup_1 in Hll as [c Hc].
    destruct (Forall2_lookup_r _ _ _ _ _ Hl Hc) as (cell&_&Hch).
    apply chain_lt in Hch. rewrite Forall_forall in Hch. by apply Hch.
Qed.

(** A slot that was on a free list. *)
Lemma free_slot a i s st g :
  slot_ok a True i s st g ->
  st = Unallocated /\ filter (here i) (refs a) = [] /\ slot_is s Unallocated g 0.
Proof.
  intros [His _ Hfr Hun _ _ _ _]. assert (st = Unallocated) as -> by (by apply Hfr).
  split; [done|]. rewrite (Hun eq_refl) in His. by rewrite (Hun eq_refl).
Qed.

(** The inserted value in its slot. *)
Lemma inserted_slot a i s' g v (fr : Prop) :
  ~ fr -> slot_is s' Allocated (g + 1) 0 -> contents s' = Some v -> 0 <= g ->
  filter (here i) (refs a) = [] ->
  (forall x v, given a !! x = Some v -> here i x -> 0 < idx_generation x <= g) ->
  (forall x, here i x -> x ∉ live a) ->
  slot_ok (spec_insert a (MkIdx (g + 1) (Z.of_nat i)) v) fr i s' Allocated (g + 1).
Proof.
  intros Hfr His Hc Hg Hr Hgi Hli. split; simpl.
  - by rewrite Hr.
  - intros x Hx Hh. assert (Hin : x ∈ filter (here i) (refs a)) by (by apply filter_here_in).
    rewrite Hr in Hin. set_solver.
  - done.
  - done.
  - done.
  - intros _. exists v. split; [done|]. by rewrite lookup_insert_eq.
  - intros x Hh. rewrite elem_of_union, elem_of_singleton. split.
    + intros [->|Hx]; [done|]. by destruct (Hli x Hh).
    + intros [_ E]. left. rewrite <-E. by apply idx_at.
  - intros x v' Hx Hh. apply lookup_insert_Some in Hx as [[<- _]|[_ Hx]]; [simpl; lia|].
    specialize (Hgi _ _ Hx Hh). lia.
Qed.

Lemma allocate_exhausted s g v cpu :
  slot_is s Unallocated g 0 -> 2 ^ 46 <= g + 1 ->
  g = 2 ^ 46 - 1 /\ allocate s v cpu = Panic ExpectFailed.
Proof.
  intros Hs Hg. pose proof Hs as [_ [[_ Hb] _]]. assert (g = 2 ^ 46 - 1) as -> by lia.
  split; [done|]. unfold allocate. rewrite (slot_is_load _ _ _ _ Hs). done.
Qed.

Lemma insert_ok sl a v cpu :
  slab_inv sl a -> 0 <= cpu < MAX_PROCESSORS ->
  match insert sl v cpu with
  | Ret (sl', Ok x) => idx_valid x /\ 0 < idx_generation x /\ given a !! x = None /\
      slab_inv sl' (spec_insert a x v)
  | Ret (sl', Err v') => v' = v /\ slab_inv sl' a /\ slots sl' = slots sl /\
      forall gl lls, lists_are (local_free_list sl') (global_free_list sl') (slots sl') gl lls ->
        gl = [] /\ lls !! Z.to_nat cpu = Some []
  | Panic w => w = ExpectFailed /\ exists i, exhausted sl i
  end.
Proof.
  intros Hinv Hcpu. pose proof Hinv as [Hsz (gl&lls&Hl&Hall) Hb].
  destruct (pop_slot_ok sl cpu gl lls Hl Hcpu) as (lf&gf&gl'&lls'&o&E&Hl'&_&Ho).
  unfold insert. rewrite E. cbn [mbind rust_bind]. destruct o as [i|]; cycle 1.
  { destruct Ho as (->&->&->&Hnil). split; [done|]. split; [|split; [done|]].
    - split; [done|by exists [], lls|done].
    - simpl. intros gl2 lls2 Hl2. by destruct (lists_unique _ _ _ _ _ _ _ Hl' Hl2) as [-> ->]. }
  assert (Hin : i ∈ gl ++ concat lls) by (rewrite Ho; set_solver).
  assert (Hni : i ∉ gl' ++ concat lls').
  { pose proof (lists_nodup _ _ _ _ _ Hl) as Hnd. rewrite Ho in Hnd.
    by apply NoDup_cons in Hnd as [? _]. }
  destruct (lookup_lt_is_Some_2 (slots sl) i) as [s Hs].
  { eapply lists_lt; [exact Hl|exact Hin]. }
  destruct (Hall _ _ Hs) as (st&g&Hok).
  assert (Hok' : slot_ok a True i s st g) by (destruct Hok; split; auto; tauto).
  destruct (free_slot _ _ _ _ _ Hok') as (->&Hr&His). pose proof (lookup_lt_Some _ _ _ Hs).
  unfold index. cbn [slots]. rewrite Hs. cbn [mbind rust_bind].
  pose proof His as [_ [[Hg0 Hg1] _]]. destruct (decide (g + 1 < 2 ^ 46)) as [Hg|Hg]; cycle 1.
  { destruct (allocate_exhausted s g v cpu His ltac:(lia)) as [-> ->]. simpl.
    split; [done|]. exists i, s. done. }
  destruct (allocate_ok s g v cpu His Hg) as (s'&->&His'&Hc'&Hn'). cbn [mbind rust_bind].
  rewrite make_idx_ok by lia. cbn [mbind rust_bind].
  split; [unfold idx_valid; simpl; lia|]. split; [simpl; lia|]. split.
  { destruct (given a !! _) as [v'|] eqn:Ev; [|done].
    apply (so_given _ _ _ _ _ _ Hok) in Ev; [simpl in Ev; lia|done]. }
  eapply (slab_inv_update sl a i s s'); [exact Hinv|exact Hs|exact Hall| | | |].
  - by eapply lists_update.
  - split; simpl.
    + intros x Hx. rewrite lookup_insert_ne; [done|]. intros <-. by apply Hx.
    + intros x Hx. rewrite elem_of_union, elem_of_singleton. split; [|by right].
      intros [->|?]; [|done]. by destruct Hx.
    + done.
    + intros j Hj. rewrite Ho, elem_of_cons. naive_solver.
  - exists Allocated, (g + 1). apply inserted_slot; try done.
    + apply (so_given _ _ _ _ _ _ Hok).
    + intros x Hh Hx. by apply (so_live _ _ _ _ _ _ Hok) in Hx as [? _].
  - simpl. auto.
Qed.

(** Clearing slot [i], which the specification already counts as removed
    and unreferenced, and putting it on a free list. *)
Lemma return_slot_ok sl a a' i s s' g v gl lls cpu :
  slab_inv sl a -> slots sl !! i = Some s ->
  (forall j s, slots sl !! j = Some s -> exists st g, slot_ok a (j ∈ gl ++ concat lls) j s st g) ->
  lists_are (local_free_list sl) (global_free_list sl) (slots sl) gl lls ->
  i ∉ gl ++ concat lls -> 0 <= cpu < MAX_PROCESSORS ->
  only_at i a a' (fun j => j ∈ gl ++ concat lls) (fun j => j ∈ gl ++ concat lls) ->
  (forall x, x ∈ refs a' -> x ∈ refs a) ->
  (exists st, slot_is s' st g 0) -> contents s' = Some v -> next s' = next s ->
  filter (here i) (refs a') = [] -> (forall x, here i x -> x ∉ live a') ->
  (forall x v, given a' !! x = Some v -> here i x -> 0 < idx_generation x <= g) ->
  match return_slot (with_slot sl i s') i cpu with
  | Ret sl' => slab_inv sl' a'
  | Panic _ => 2 ^ 46 <= tag (global_free_list sl)
  end.
Proof.
  intros Hinv Hs Hall Hl Hni Hcpu Ho Hrefs [st His] Hc Hn Hr Hli Hgi.
  pose proof (lookup_lt_Some _ _ _ Hs) as Hlt. unfold return_slot, index, with_slot, with_slots.
  cbn [slots local_free_list global_free_list]. rewrite list_lookup_insert_eq by done.
  cbn [mbind rust_bind]. destruct (clear_ok s' st g v His Hc) as (s2&->&His2&Hc2&Hn2).
  cbn [mbind rust_bind slots local_free_list global_free_list]. rewrite list_insert_insert_eq.
  assert (Hs2 : <[i := s2]> (slots sl) !! i = Some s2) by (by apply list_lookup_insert_eq).
  assert (Hl2 : lists_are (local_free_list sl) (global_free_list sl) (<[i := s2]> (slots sl)) gl lls).
  { eapply lists_update; [exact Hl|exact Hs|congruence]. }
  assert (Hlen : Z.of_nat (length (<[i := s2]> (slots sl))) < 2 ^ 18).
  { rewrite length_insert. apply Hinv. }
  assert (Hfinal : forall s3 (fr : Prop), (exists w, s3 = set_next s2 w) -> fr ->
            slot_ok a' fr i s3 Unallocated g).
  { intros s3 fr [w ->] Hfr. split; try done; [by rewrite Hr; apply slot_is_with_next| |].
    - intros x Hx Hh. assert (Hin : x ∈ filter (here i) (refs a')) by (by apply filter_here_in).
      rewrite Hr in Hin. set_solver.
    - intros x Hh. split; [intros Hx; by destruct (Hli x Hh)|by intros [? _]]. }
  case_decide as Hcp.
  - destruct (lists_push_local _ _ _ _ _ cpu i s2 Hl2 Hcpu Hs2 Hni Hlen)
      as (lf'&s3&lls'&->&Hs3&Hl3&Hperm).
    cbn [mbind rust_bind]. rewrite list_insert_insert_eq in Hl3 |- *.
    eapply (slab_inv_update sl a i s s3 _ _ a' gl lls gl lls'); try done.
    + destruct Ho as [? ? ? _]. split; try done. intros j Hj. rewrite Hperm, elem_of_cons.
      naive_solver.
    + exists Unallocated, g. apply Hfinal; [done|]. rewrite Hperm. set_solver.
    + auto.
  - destruct (decide (tag (global_free_list sl) < 2 ^ 46)) as [Ht|Ht].
    + destruct (lists_push_global _ _ _ _ _ i s2 Hl2 Hs2 Hni Hlen Ht) as (gf'&s3&->&Hs3&Hl3).
      cbn [mbind rust_bind]. rewrite list_insert_insert_eq in Hl3 |- *.
      eapply (slab_inv_update sl a i s s3 _ _ a' gl lls (i :: gl) lls); try done.
      * destruct Ho as [? ? ? _]. split; try done. intros j Hj. simpl. rewrite elem_of_cons.
        naive_solver.
      * exists Unallocated, g. apply Hfinal; [done|]. simpl. set_solver.
      * auto.
    + destruct (take_tag_overflow (global_free_list sl) i) as [w Hw]; [lia|].
      unfold global_push. rewrite Hw. simpl. lia.
Qed.

(** ** What an index refers to *)

Inductive target sl a x : option (Slot T) -> Prop :=
  | no_target : x ∉ refs a -> x ∉ live a -> target sl a x None
  | slot_target s st g gl lls :
      slots sl !! Z.to_nat (idx_index x) = Some s ->
      (forall j s, slots sl !! j = Some s ->
         exists st g, slot_ok a (j ∈ gl ++ concat lls) j s st g) ->
      lists_are (local_free_list sl) (global_free_list sl) (slots sl) gl lls ->
      slot_ok a (Z.to_nat (idx_index x) ∈ gl ++ concat lls) (Z.to_nat (idx_index x)) s st g ->
      target sl a x (Some s).

Lemma find_target sl a x :
  slab_inv sl a -> target sl a x (slots sl !! Z.to_nat (idx_index x)).
Proof.
  intros Hinv. pose proof (locate sl a x Hinv) as Hloc.
  pose proof Hinv as [_ (gl&lls&Hl&Hall) Hb].
  destruct (slots sl !! _) as [s|] eqn:E.
  - destruct (Hall _ _ E) as (st&g&Hok). by eapply slot_target.
  - constructor; intros Hx; apply Hloc, Hb; auto.
Qed.

Lemma here_valid x : idx_valid x -> here (Z.to_nat (idx_index x)) x.
Proof. intros [_ ?]. unfold here. lia. Qed.

Lemma spec_remove_id a x : x ∉ live a -> spec_remove a x = a.
Proof. intros Hx. destruct a as [gv lv rs]. unfold spec_remove. simpl in *. f_equal. set_solver. Qed.

Lemma with_slot_id sl i s : slots sl !! i = Some s -> with_slot sl i s = sl.
Proof. intros Hs. destruct sl. unfold with_slot, with_slots. simpl in *. by rewrite list_insert_id. Qed.

Lemma removed_only_at x a (fr : nat -> Prop) :
  idx_valid x -> only_at (Z.to_nat (idx_index x)) a (spec_remove a x) fr fr.
Proof.
  intros Hv. apply here_valid in Hv. split; simpl; try done.
  intros y Hy. rewrite elem_of_difference, elem_of_singleton. split; [by intros [? _]|].
  intros ?. split; [done|]. by intros ->.
Qed.

(** A removed index is not live, and no other index of its slot is. *)
Lemma removed_not_live a i fr s st g x y :
  slot_ok a fr i s st g -> idx_generation x = g -> here i x -> here i y ->
  y ∉ live (spec_remove a x).
Proof.
  intros Hok Hg Hx Hy. simpl. rewrite elem_of_difference, elem_of_singleton. intros [Hin Hne].
  apply (so_live _ _ _ _ _ _ Hok) in Hin as [_ Hgy]; [|done]. apply Hne.
  rewrite (idx_at i x), (idx_at i y) by done. congruence.
Qed.

(** A slot with references becomes a zombie. *)
Lemma zombie_slot a (fr : Prop) i s g x :
  slot_ok a fr i s Allocated g -> here i x -> idx_generation x = g ->
  Z.of_nat (length (filter (here i) (refs a))) > 0 ->
  slot_ok (spec_remove a x) fr i
    (with_word s (Lifecycle_into (lifecycle Zombie g (Z.of_nat (length (filter (here i) (refs a)))))))
    Zombie g.
Proof.
  intros Hok Hh Hg Hr. pose proof (fun y => removed_not_live a i fr s Allocated g x y Hok Hg Hh) as Hnl.
  destruct Hok as [[_ ?] Hrg Hf Hun Hz Hco Hli Hgi]. split; simpl; try done.
  - by rewrite Hf.
  - intros _ E. rewrite E in Hr. simpl in Hr. lia.
  - intros _. by apply Hco.
  - intros y Hy. split; [intros Hin; by destruct (Hnl y Hy)|by intros [? _]].
Qed.

Lemma remove_ok sl a x cpu :
  slab_inv sl a -> idx_valid x -> 0 <= cpu < MAX_PROCESSORS ->
  match remove sl x cpu with
  | Ret (sl', b) => b = bool_decide (x ∈ live a) /\ slab_inv sl' (spec_remove a x)
  | Panic _ => 2 ^ 46 <= tag (global_free_list sl)
  end.
Proof.
  intros Hinv Hx Hcpu. unfold remove.
  pose proof (here_valid _ Hx) as Hh. pose proof (find_target sl a x Hinv) as Ht.
  destruct Ht as [_ Hnl|s st g gl lls Hs Hall Hl Hok].
  { rewrite bool_decide_false, spec_remove_id by done. done. }
  set (i := Z.to_nat (idx_index x)) in *. pose proof (so_is _ _ _ _ _ _ Hok) as His.
  pose proof (so_live _ _ _ _ _ _ Hok x Hh) as Hlive.
  rewrite (mark_unallocated_ok _ _ _ _ _ His).
  destruct (decide (g <> idx_generation x)) as [Hg|Hg].
  { cbn [mbind rust_bind]. rewrite with_slot_id by done.
    rewrite bool_decide_false, spec_remove_id by (rewrite Hlive; naive_solver). done. }
  apply dec_stable in Hg. destruct (decide (st <> Allocated)) as [Hst|Hst].
  { cbn [mbind rust_bind]. rewrite with_slot_id by done.
    rewrite bool_decide_false, spec_remove_id by (rewrite Hlive; naive_solver). done. }
  apply dec_stable in Hst as ->. rewrite bool_decide_true by (by apply Hlive).
  destruct (so_contents _ _ _ _ _ _ Hok) as (v&Hc&Hv); [done|].
  assert (Hfr : i ∉ gl ++ concat lls).
  { intros Hin. by apply (so_free _ _ _ _ _ _ Hok) in Hin. }
  destruct (decide (_ > 0)) as [Hr|Hr]; cbn [mbind rust_bind].
  - split; [done|].
    eapply (slab_inv_update sl a i s _ _ _ (spec_remove a x) gl lls gl lls); try done.
    + by eapply lists_update.
    + by apply removed_only_at.
    + exists Zombie, g. by apply zombie_slot.
    + simpl. auto.
  - assert (Hnil : filter (here i) (refs a) = []) by (destruct (filter _ _); [done|simpl in Hr; lia]).
    rewrite Hnil in *.
    pose proof (return_slot_ok sl a (spec_remove a x) i s
      (with_word s (Lifecycle_into (lifecycle Unallocated g 0))) g v gl lls cpu) as Hret.
    simpl length in *. change (Z.of_nat 0) with 0 in *.
    destruct (return_slot _ i cpu) as [sl'|w]; cbn [mbind rust_bind];
      [split; [done|]|]; (apply Hret; try done).
    all: try (by apply removed_only_at); try (by intros y Hy; simpl in Hy).
    all: try (exists Unallocated; split; [done|apply His]).
    all: try (intros y Hy; by apply (removed_not_live a i (i ∈ gl ++ concat lls) s Allocated g)).
    all: intros y w' Hy1 Hy2; by apply (so_given _ _ _ _ _ _ Hok y w').
Qed.

(** Changing which references of slot [i] are out. *)
Lemma refs_only_at i a rs (fr : nat -> Prop) :
  (forall j, j <> i -> filter (here j) rs ≡ₚ filter (here j) (refs a)) ->
  only_at i a (spec_refs a rs) fr fr.
Proof. by split. Qed.

Lemma filter_here_cons i j x rs :
  here i x -> filter (here j) (x :: rs) =
    if decide (j = i) then x :: filter (here j) rs else filter (here j) rs.
Proof.
  intros Hx. rewrite filter_cons. unfold here in *.
  destruct (decide (j = i)) as [->|Hne]; [by rewrite decide_True|].
  rewrite decide_False; [done|]. lia.
Qed.

(** One more reference, one less. *)
Lemma acquired_slot a (fr : Prop) i s g x :
  slot_ok a fr i s Allocated g -> here i x -> idx_generation x = g ->
  Z.of_nat (length (filter (here i) (refs a))) + 1 < 2 ^ 16 ->
  slot_ok (spec_refs a (x :: refs a)) fr i
    (with_word s (Lifecycle_into (lifecycle Allocated g (Z.of_nat (length (filter (here i) (refs a))) + 1))))
    Allocated g.
Proof.
  intros [[_ [??]] Hrg Hf Hun Hz Hco Hli Hgi] Hh Hg Hr. split; simpl; try done.
  - rewrite (filter_here_cons i), decide_True by done. simpl. rewrite Nat2Z.inj_succ.
    split; simpl; [done|]. unfold lifecycle_ok. lia.
  - intros y [->|Hy]%elem_of_cons Hhy; [done|]. by apply Hrg.
Qed.

Lemma dropped_here a i x rs :
  refs a ≡ₚ x :: rs -> here i x ->
  length (filter (here i) (refs a)) = S (length (filter (here i) rs)) /\
  forall j, j <> i -> filter (here j) rs ≡ₚ filter (here j) (refs a).
Proof.
  intros Hrs Hh. split.
  - rewrite Hrs, (filter_here_cons i i) by done. by rewrite decide_True.
  - intros j Hj. rewrite Hrs, (filter_here_cons i j), decide_False by done. done.
Qed.

Lemma released_slot a (fr : Prop) i s st g x rs :
  slot_ok a fr i s st g -> refs a ≡ₚ x :: rs -> here i x -> st <> Unallocated ->
  ~ (st = Zombie /\ filter (here i) rs = []) ->
  slot_ok (spec_refs a rs) fr i
    (with_word s (Lifecycle_into (lifecycle st g (Z.of_nat (length (filter (here i) rs)))))) st g.
Proof.
  intros [[_ Hfit] Hrg Hf Hun Hz Hco Hli Hgi] Hrs Hh Hst Hnz.
  destruct (dropped_here a i x rs Hrs Hh) as [Hlen _]. rewrite Hlen in Hfit. split; simpl; try done.
  - split; [done|]. destruct Hfit. split; lia.
  - intros y Hy. apply Hrg. rewrite Hrs. set_solver.
  - intros -> Hnil. by apply Hnz.
Qed.

Lemma get_ok sl a x :
  slab_inv sl a -> idx_valid x ->
  match get sl x with
  | Ret (sl', o) =>
      o = (if decide (x ∈ live a) then Some x else None) /\
      slab_inv sl' (if decide (x ∈ live a) then spec_refs a (x :: refs a) else a)
  | Panic w => w = ExpectFailed /\ x ∈ live a /\
      2 ^ 16 - 1 <= Z.of_nat (length (filter (here (Z.to_nat (idx_index x))) (refs a)))
  end.
Proof.
  intros Hinv Hx. unfold get.
  pose proof (here_valid _ Hx) as Hh. pose proof (find_target sl a x Hinv) as Ht.
  destruct Ht as [_ Hnl|s st g gl lls Hs Hall Hl Hok]; [by rewrite !decide_False|].
  set (i := Z.to_nat (idx_index x)) in *. pose proof (so_is _ _ _ _ _ _ Hok) as His.
  pose proof (so_live _ _ _ _ _ _ Hok x Hh) as Hlive.
  rewrite (acquire_reference_ok _ _ _ _ _ His).
  destruct (decide (g <> idx_generation x)) as [Hg|Hg].
  { cbn [mbind rust_bind]. rewrite with_slot_id by done.
    rewrite !(decide_False (P := x ∈ live a)) by (rewrite Hlive; naive_solver). done. }
  apply dec_stable in Hg. destruct (decide (st <> Allocated)) as [Hst|Hst].
  { cbn [mbind rust_bind]. rewrite with_slot_id by done.
    rewrite !(decide_False (P := x ∈ live a)) by (rewrite Hlive; naive_solver). done. }
  apply dec_stable in Hst as ->. assert (Hin : x ∈ live a) by (by apply Hlive).
  destruct (decide (_ + 1 < 2 ^ 16)) as [Hr|Hr]; [|split_and!; [done|done|lia]].
  cbn [mbind rust_bind]. rewrite !(decide_True (P := x ∈ live a)) by done. split; [done|].
  eapply (slab_inv_update sl a i s _ _ _ (spec_refs a (x :: refs a)) gl lls gl lls); try done.
  - by eapply lists_update.
  - apply refs_only_at. intros j Hj. rewrite (filter_here_cons i) by done.
    by rewrite decide_False.
  - exists Allocated, g. by apply acquired_slot.
  - intros y [->|Hy]%elem_of_cons; auto.
Qed.

(** A reference that is out. *)
Lemma held_target sl a x :
  slab_inv sl a -> x ∈ refs a -> idx_valid x ->
  exists s st gl lls, slots sl !! Z.to_nat (idx_index x) = Some s /\
    (forall j s, slots sl !! j = Some s ->
       exists st g, slot_ok a (j ∈ gl ++ concat lls) j s st g) /\
    lists_are (local_free_list sl) (global_free_list sl) (slots sl) gl lls /\
    slot_ok a (Z.to_nat (idx_index x) ∈ gl ++ concat lls) (Z.to_nat (idx_index x)) s st
      (idx_generation x) /\ st <> Unallocated.
Proof.
  intros Hinv Hin Hx. pose proof (here_valid _ Hx) as Hh.
  pose proof (find_target sl a x Hinv) as Ht.
  destruct Ht as [Hn _|s st g gl lls Hs Hall Hl Hok]; [done|].
  rewrite (so_ref_generation _ _ _ _ _ _ Hok x Hin Hh) in *.
  pose proof (so_ref_generation _ _ _ _ _ _ Hok x Hin Hh) as <-.
  exists s, st, gl, lls. split_and!; try done. intros Hu.
  pose proof (so_unreferenced _ _ _ _ _ _ Hok Hu) as Hnil.
  assert (Hf : x ∈ filter (here (Z.to_nat (idx_index x))) (refs a)) by (by apply filter_here_in).
  rewrite Hnil in Hf. set_solver.
Qed.

Lemma ref_deref_ok sl a x :
  slab_inv sl a -> x ∈ refs a -> idx_valid x ->
  exists v, ref_deref sl x = Ret v /\ given a !! x = Some v.
Proof.
  intros Hinv Hin Hx.
  destruct (held_target sl a x Hinv Hin Hx) as (s&st&gl&lls&Hs&_&_&Hok&Hst).
  destruct (so_contents _ _ _ _ _ _ Hok Hst) as (v&Hc&Hv). exists v.
  unfold ref_deref. rewrite Hs. simpl. rewrite Hc. split; [done|].
  by rewrite (idx_at _ _ (here_valid _ Hx)).
Qed.

Lemma drop_reference_ok sl a x rs cpu :
  slab_inv sl a -> refs a ≡ₚ x :: rs -> idx_valid x -> 0 <= cpu < MAX_PROCESSORS ->
  match drop_reference sl x cpu with
  | Ret sl' => slab_inv sl' (spec_refs a rs)
  | Panic _ => 2 ^ 46 <= tag (global_free_list sl)
  end.
Proof.
  intros Hinv Hrs Hx Hcpu. assert (Hin : x ∈ refs a) by (rewrite Hrs; set_solver).
  pose proof (here_valid _ Hx) as Hh.
  destruct (held_target sl a x Hinv Hin Hx) as (s&st&gl&lls&Hs&Hall&Hl&Hok&Hst).
  set (i := Z.to_nat (idx_index x)) in *. set (g := idx_generation x) in *.
  pose proof (so_is _ _ _ _ _ _ Hok) as His. unfold drop_reference, index. fold i. rewrite Hs.
  cbn [mbind rust_bind]. rewrite (release_reference_ok _ _ _ _ _ His).
  destruct (dropped_here a i x rs Hrs Hh) as [Hlen Hothers].
  assert (Hsub : forall y, y ∈ rs -> y ∈ refs a) by (intros y Hy; rewrite Hrs; set_solver).
  pose proof His as [_ Hfit]. rewrite Hlen in Hfit |- *.
  rewrite Nat2Z.inj_succ in Hfit |- *. set (n := length (filter (here i) rs)) in *.
  fold g. rewrite (decide_False (P := g <> g)) by (intros E; by apply E).
  rewrite (decide_False (P := st = Unallocated)) by done.
  rewrite decide_True by lia. cbn [mbind rust_bind].
  replace (Z.succ (Z.of_nat n) - 1) with (Z.of_nat n) by lia.
  destruct (so_contents _ _ _ _ _ _ Hok Hst) as (v&Hc&Hv).
  assert (Hfr : i ∉ gl ++ concat lls).
  { intros Hi. by apply (so_free _ _ _ _ _ _ Hok) in Hi. }
  assert (Hok2 : lifecycle_ok g (Z.of_nat n)) by (destruct Hfit; split; lia).
  destruct (bool_decide (st = Zombie) && _) eqn:Eb.
  - apply andb_true_iff in Eb as [Ez E1]. apply bool_decide_eq_true in Ez as ->, E1.
    assert (n = 0%nat) as En by lia.
    assert (Hnil : filter (here i) rs = []) by (by apply length_zero_iff_nil).
    rewrite En in *. change (Z.of_nat 0) with 0 in *.
    pose proof (return_slot_ok sl a (spec_refs a rs) i s
      (with_word s (Lifecycle_into (lifecycle Zombie g 0))) g v gl lls cpu) as Hret.
    destruct (return_slot _ i cpu) as [sl'|w]; (apply Hret; try done).
    all: try (by apply refs_only_at).
    all: try (by exists Zombie).
    all: try (intros y Hy Hl'; by apply (so_live _ _ _ _ _ _ Hok) in Hl' as [? _]).
    all: intros y w' Hy1 Hy2; by apply (so_given _ _ _ _ _ _ Hok y w').
  - eapply (slab_inv_update sl a i s _ _ _ (spec_refs a rs) gl lls gl lls); try done.
    + by eapply lists_update.
    + exists st, g. apply (released_slot a _ i s st g x rs); try done.
      intros [-> Hnil]. apply andb_false_iff in Eb as [Eb|Eb]; apply bool_decide_eq_false in Eb;
        [done|]. apply Eb. unfold n. rewrite Hnil. done.
    + simpl. auto.
Qed.
End operations.

(** * A new slab *)

Section creation.
Context {prof : Profile} {bits : ModularBitfield} {topology : Topology} {T : Type}.

Definition fresh_slot (n : Z) : Slot T :=
  MkSlot (Lifecycle_into (lifecycle Unallocated 0 0)) None n None.

Definition fresh_next (SIZE i : nat) : Z :=
  if decide (i = SIZE - 1)%nat then EMPTY else Z.of_nat (i + 1).

Definition fresh_slots (SIZE : nat) : list (Slot T) :=
  (fun i => fresh_slot (fresh_next SIZE i)) <$> seq 0 SIZE.

Definition new_slab (SIZE : nat) : Slab T :=
  MkSlab per_processor_new (global_new 0) (fresh_slots SIZE).

Lemma mapM_Ret {A B} (f : A -> rust B) (g : A -> B) l :
  (forall x, f x = Ret (g x)) -> mapM f l = Ret (g <$> l).
Proof. intros Hf. induction l as [|x l IH]; [done|]. simpl. rewrite Hf. simpl. by rewrite IH. Qed.

Lemma slab_new_eq SIZE :
  slab_new SIZE = if decide (Z.of_nat SIZE < 2 ^ 18) then Ret (new_slab SIZE) else Panic AssertFailed.
Proof.
  unfold slab_new. case_decide.
  - rewrite bool_decide_true by done. cbn [rassert mbind rust_bind].
    by rewrite (mapM_Ret _ (fun i => fresh_slot (fresh_next SIZE i))).
  - by rewrite bool_decide_false.
Qed.

Lemma fresh_slots_lookup SIZE i :
  (i < SIZE)%nat -> fresh_slots SIZE !! i = Some (fresh_slot (fresh_next SIZE i)).
Proof. intros Hi. unfold fresh_slots. rewrite list_lookup_fmap, lookup_seq_lt by done. done. Qed.

Lemma fresh_chain SIZE k i :
  Z.of_nat SIZE < 2 ^ 18 -> (i + S k = SIZE)%nat ->
  chain head_index (fresh_slots SIZE) (Z.of_nat i) (seq i (S k)).
Proof.
  intros Hsz. revert i. induction k as [|k IH]; intros i Hi; cbn [seq chain].
  - split; [unfold EMPTY; lia|]. split.
    { unfold head_index. rewrite Entry_from_small by lia. simpl. lia. }
    eexists. split; [apply fresh_slots_lookup; lia|]. simpl. unfold fresh_next.
    by rewrite decide_True by lia.
  - split; [unfold EMPTY; lia|]. split.
    { unfold head_index. rewrite Entry_from_small by lia. simpl. lia. }
    eexists. split; [apply fresh_slots_lookup; lia|]. simpl next. unfold fresh_next.
    rewrite decide_False by lia. rewrite Nat.add_1_r. apply (IH (S i)). lia.
Qed.

Lemma concat_replicate_nil n : concat (replicate n ([] : list nat)) = [].
Proof. by induction n. Qed.

Lemma new_slab_lists SIZE :
  (0 < SIZE)%nat -> Z.of_nat SIZE < 2 ^ 18 ->
  lists_are (local_free_list (new_slab SIZE)) (global_free_list (new_slab SIZE))
    (slots (new_slab SIZE)) (seq 0 SIZE) (replicate (Z.to_nat MAX_PROCESSORS) []).
Proof.
  intros Hpos Hsz. split; simpl.
  - unfold per_processor_new. apply length_replicate.
  - destruct SIZE as [|k]; [lia|]. by apply (fresh_chain (S k) k 0).
  - unfold per_processor_new. apply Forall2_replicate. done.
  - rewrite concat_replicate_nil, app_nil_r. apply NoDup_seq.
  - done.
Qed.

Lemma new_slab_inv SIZE :
  (0 < SIZE)%nat -> Z.of_nat SIZE < 2 ^ 18 -> slab_inv (new_slab SIZE) (MkSpec ∅ ∅ []).
Proof.
  intros Hpos Hsz. assert (Hlen : length (fresh_slots SIZE) = SIZE).
  { unfold fresh_slots. by rewrite length_fmap, length_seq. }
  split.
  - simpl. by rewrite Hlen.
  - exists (seq 0 SIZE), (replicate (Z.to_nat MAX_PROCESSORS) []). split.
    + by apply new_slab_lists.
    + intros i s Hs. simpl in Hs. pose proof (lookup_lt_Some _ _ _ Hs) as Hi.
      rewrite Hlen in Hi. rewrite fresh_slots_lookup in Hs by done. injection Hs as <-.
      exists Unallocated, 0. split; try done.
      * simpl. intros x Hx. set_solver.
      * rewrite concat_replicate_nil, app_nil_r, elem_of_seq. split; [done|]. lia.
      * intros x _. simpl. split; [set_solver|by intros [? _]].
  - intros x [Hx|[Hx|[v Hx]]]; simpl in Hx; [set_solver..|]. by rewrite lookup_empty in Hx.
Qed.

(** On a new slab every processor can insert. *)
Lemma new_slab_insert SIZE (v : T) cpu :
  (0 < SIZE)%nat -> Z.of_nat SIZE < 2 ^ 18 -> 0 <= cpu < MAX_PROCESSORS ->
  exists sl x, insert (new_slab SIZE) v cpu = Ret (sl, Ok x).
Proof.
  intros Hpos Hsz Hcpu. pose proof (new_slab_inv SIZE Hpos Hsz) as Hinv.
  pose proof (insert_ok (new_slab SIZE) _ v cpu Hinv Hcpu) as H.
  destruct (insert (new_slab SIZE) v cpu) as [[sl [x|v']]|w] eqn:E; [by exists sl, x|exfalso..].
  - destruct (pop_slot_ok (new_slab SIZE) cpu _ _ (new_slab_lists SIZE Hpos Hsz) Hcpu)
      as (lf&gf&gl'&lls'&o&Ep&_&_&Ho).
    unfold insert in E. rewrite Ep in E. cbn [mbind rust_bind] in E. destruct o as [i|].
    + rust_inv E. destruct x0 as [s g]. rust_inv E. done.
    + destruct Ho as (_&_&Hnil&_). destruct SIZE; [lia|done].
  - destruct H as (_&i&s&Hs&His). simpl in Hs. pose proof (lookup_lt_Some _ _ _ Hs) as Hi.
    unfold fresh_slots in Hi. rewrite length_fmap, length_seq in Hi.
    rewrite fresh_slots_lookup in Hs by done. injection Hs as <-.
    assert (H0 : slot_is (fresh_slot (fresh_next SIZE i)) Unallocated 0 0) by done.
    destruct (slot_is_inj _ _ _ _ _ _ _ H0 His) as (_&?&_). done.
Qed.
End creation.

(** * Sequences of calls *)

(** The calls of the slab's interface; [Ref]s are only dereferenced and
    dropped by whoever holds them. *)
Inductive call (T : Type) :=
  | Insert (value : T)
  | Remove (x : Idx)
  | Get (x : Idx)
  | Deref (r : Idx)
  | DropRef (r : Idx).
Arguments Insert {T}.
Arguments Remove {T}.
Arguments Get {T}.
Arguments Deref {T}.
Arguments DropRef {T}.

Inductive outcome (T : Type) :=
  | Inserted (x : Idx)
  | Full (value : T)
  | Removed (b : bool)
  | Got (o : option Idx)
  | Value (value : T)
  | Dropped.
Arguments Inserted {T}.
Arguments Full {T}.
Arguments Removed {T}.
Arguments Got {T}.
Arguments Value {T}.
Arguments Dropped {T}.

Section refinement.
Context {prof : Profile} {bits : ModularBitfield} {topology : Topology} {T : Type}.
Implicit Types (sl : Slab T) (a : spec T).

Definition run_call sl (cpu : Z) (c : call T) : rust (Slab T * outcome T) :=
  match c with
  | Insert v =>
      '(sl, r) ← insert sl v cpu;
      Ret (sl, match r with Ok x => Inserted x | Err v => Full v end)
  | Remove x => '(sl, b) ← remove sl x cpu; Ret (sl, Removed b)
  | Get x => '(sl, o) ← get sl x; Ret (sl, Got o)
  | Deref r => v ← ref_deref sl r; Ret (sl, Value v)
  | DropRef r => sl ← drop_reference sl r cpu; Ret (sl, Dropped)
  end.

(** What each call promises. *)
Inductive spec_step : spec T -> call T -> outcome T -> spec T -> Prop :=
  | spec_inserts a v x :
      given a !! x = None -> idx_valid x -> 0 < idx_generation x ->
      spec_step a (Insert v) (Inserted x) (spec_insert a x v)
  | spec_full a v : spec_step a (Insert v) (Full v) a
  | spec_removes a x :
      idx_valid x -> spec_step a (Remove x) (Removed (bool_decide (x ∈ live a))) (spec_remove a x)
  | spec_gets a x :
      idx_valid x -> x ∈ live a -> spec_step a (Get x) (Got (Some x)) (spec_refs a (x :: refs a))
  | spec_misses a x :
      idx_valid x -> x ∉ live a -> spec_step a (Get x) (Got None) a
  | spec_derefs a r v :
      r ∈ refs a -> given a !! r = Some v -> spec_step a (Deref r) (Value v) a
  | spec_drops a r rs :
      refs a ≡ₚ r :: rs -> spec_step a (DropRef r) Dropped (spec_refs a rs).

(** The calls a client can make: any 64-bit index may be looked up or
    removed, but only a reference that is out can be used. *)
Definition may_call a (c : call T) : Prop :=
  match c with
  | Insert _ => True
  | Remove x | Get x => idx_valid x
  | Deref r | DropRef r => r ∈ refs a /\ idx_valid r
  end.

(** The counters that the slab panics on rather than wrap. *)
Definition counter_exhausted sl a : Prop :=
  (exists i, exhausted sl i) \/ 2 ^ 46 <= tag (global_free_list sl) \/
  exists i, 2 ^ 16 - 1 <= Z.of_nat (length (filter (here i) (refs a))).

Lemma run_call_ok sl a cpu c :
  slab_inv sl a -> 0 <= cpu < MAX_PROCESSORS -> may_call a c ->
  match run_call sl cpu c with
  | Ret (sl', o) => exists a', spec_step a c o a' /\ slab_inv sl' a'
  | Panic _ => counter_exhausted sl a
  end.
Proof.
  intros Hi Hcpu Hmay. unfold counter_exhausted. destruct c as [v|x|x|r|r]; simpl in *.
  - pose proof (insert_ok sl a v cpu Hi Hcpu) as H.
    destruct (insert sl v cpu) as [[sl' [x|v']]|w]; simpl.
    + destruct H as (?&?&?&?). eexists. split; [by constructor|done].
    + destruct H as (->&?&_). eexists. split; [by constructor|done].
    + left. apply H.
  - pose proof (remove_ok sl a x cpu Hi Hmay Hcpu) as H.
    destruct (remove sl x cpu) as [[sl' b]|w]; simpl; [|auto].
    destruct H as [-> ?]. eexists. split; [by constructor|done].
  - pose proof (get_ok sl a x Hi Hmay) as H.
    destruct (get sl x) as [[sl' o]|w]; simpl; [|right; right; by eexists; apply H].
    destruct H as [-> H]. case_decide; eexists; (split; [by constructor|done]).
  - destruct Hmay as [Hr Hv]. destruct (ref_deref_ok sl a r Hi Hr Hv) as (v&->&Hg). simpl.
    eexists. split; [by constructor|done].
  - destruct Hmay as [Hr Hv]. apply list_elem_of_split in Hr as (l1&l2&Hl).
    pose proof (drop_reference_ok sl a r (l1 ++ l2) cpu Hi) as H.
    rewrite Hl in H. specialize (H ltac:(solve_Permutation) Hv Hcpu).
    destruct (drop_reference sl r cpu) as [sl'|w]; simpl; [|auto].
    eexists. split; [|exact H]. constructor. rewrite Hl. solve_Permutation.
Qed.

(** The references that a client holds: a successful [get] yields one,
    dropping gives it up, and only held ones can be used. *)
Inductive held_step : list Idx -> call T -> outcome T -> list Idx -> Prop :=
  | held_insert held v o : held_step held (Insert v) o held
  | held_remove held x o : idx_valid x -> held_step held (Remove x) o held
  | held_get held x y : idx_valid x -> held_step held (Get x) (Got (Some y)) (y :: held)
  | held_miss held x : idx_valid x -> held_step held (Get x) (Got None) held
  | held_deref held r o : r ∈ held -> held_step held (Deref r) o held
  | held_drop held r held' o : held ≡ₚ r :: held' -> held_step held (DropRef r) o held'.

(** Sequences of calls, each by some processor, with their outcomes. *)
Inductive runs : Slab T -> list Idx -> list (call T * outcome T) -> Slab T -> list Idx -> Prop :=
  | runs_nil sl held : runs sl held [] sl held
  | runs_cons sl held cpu c o sl1 held1 tr sl2 held2 :
      0 <= cpu < MAX_PROCESSORS -> run_call sl cpu c = Ret (sl1, o) ->
      held_step held c o held1 -> runs sl1 held1 tr sl2 held2 ->
      runs sl held ((c, o) :: tr) sl2 held2.

Inductive spec_trace : spec T -> list (call T * outcome T) -> spec T -> Prop :=
  | trace_nil a : spec_trace a [] a
  | trace_cons a c o a1 tr a2 :
      spec_step a c o a1 -> spec_trace a1 tr a2 -> spec_trace a ((c, o) :: tr) a2.

(** A client's references are those the specification knows. *)
Record client_ok sl a (held : list Idx) : Prop := {
  client_slab : slab_inv sl a;
  client_held : refs a ≡ₚ held;
  client_valid : Forall idx_valid held;
}.

Lemma step_refines sl a held cpu c o sl1 held1 :
  client_ok sl a held -> 0 <= cpu < MAX_PROCESSORS ->
  run_call sl cpu c = Ret (sl1, o) -> held_step held c o held1 ->
  exists a1, spec_step a c o a1 /\ client_ok sl1 a1 held1.
Proof.
  intros [Hi Hh Hv] Hcpu E Hs. rewrite Forall_forall in Hv.
  assert (Hin : forall r, r ∈ held -> r ∈ refs a) by (intros r; by rewrite Hh).
  destruct Hs as [held v o|held x o Hx|held x y Hx|held x Hx|held r o Hr|held r held' o Hp].
  - pose proof (run_call_ok sl a cpu (Insert v) Hi Hcpu I) as H. rewrite E in H.
    destruct H as (a1&Hs&?). exists a1. split; [done|].
    inversion Hs; subst; split; try done; by apply Forall_forall.
  - pose proof (run_call_ok sl a cpu (Remove x) Hi Hcpu Hx) as H. rewrite E in H.
    destruct H as (a1&Hs&?). exists a1. split; [done|].
    inversion Hs; subst. split; try done. by apply Forall_forall.
  - pose proof (run_call_ok sl a cpu (Get x) Hi Hcpu Hx) as H. rewrite E in H.
    destruct H as (a1&Hs&?). exists a1. split; [done|].
    inversion Hs; subst. split; try done; [simpl; by rewrite Hh|].
    apply Forall_cons. split; [done|]. by apply Forall_forall.
  - pose proof (run_call_ok sl a cpu (Get x) Hi Hcpu Hx) as H. rewrite E in H.
    destruct H as (a1&Hs&?). exists a1. split; [done|].
    inversion Hs; subst. split; try done. by apply Forall_forall.
  - pose proof (run_call_ok sl a cpu (Deref r) Hi Hcpu (conj (Hin r Hr) (Hv r Hr))) as H.
    rewrite E in H. destruct H as (a1&Hs&?). exists a1. split; [done|].
    inversion Hs; subst. split; try done. by apply Forall_forall.
  - assert (Hr : r ∈ held) by (rewrite Hp; set_solver).
    pose proof (drop_reference_ok sl a r held' cpu Hi) as H. simpl in E.
    rewrite Hh, Hp in H. specialize (H ltac:(done) (Hv r Hr) Hcpu).
    destruct (drop_reference sl r cpu) as [sl2|w]; [|discriminate E]. injection E as <- <-.
    exists (spec_refs a held'). split; [constructor; by rewrite Hh|]. split; try done.
    apply Forall_forall. intros y Hy. apply Hv. rewrite Hp. set_solver.
Qed.

Lemma runs_refine sl a held tr sl' held' :
  runs sl held tr sl' held' -> client_ok sl a held ->
  exists a', spec_trace a tr a' /\ client_ok sl' a' held'.
Proof.
  intros Hr. revert a. induction Hr as [|sl held cpu c o sl1 held1 tr sl2 held2 Hcpu E Hs _ IH];
    intros a Hc; [exists a; split; [constructor|done]|].
  destruct (step_refines _ _ _ _ _ _ _ _ Hc Hcpu E Hs) as (a1&Ha1&Hc1).
  destruct (IH _ Hc1) as (a2&?&?). exists a2. split; [by econstructor|done].
Qed.

Lemma new_client_ok SIZE :
  (0 < SIZE)%nat -> Z.of_nat SIZE < 2 ^ 18 -> client_ok (new_slab (T := T) SIZE) (MkSpec ∅ ∅ []) [].
Proof. intros. split; [by apply new_slab_inv|done|constructor]. Qed.

(** In a trace of the specification, a value is what was inserted. *)
Lemma trace_given a tr a' x v :
  spec_trace a tr a' -> given a' !! x = Some v ->
  given a !! x = Some v \/ (Insert v, Inserted x) ∈ tr.
Proof.
  induction 1 as [|a c o a1 tr a2 Hs _ IH]; [by left|]. intros Hx.
  destruct (IH Hx) as [Hg|Hin]; [|right; by right].
  inversion Hs; subst; try (by left). simpl in Hg.
  apply lookup_insert_Some in Hg as [[-> ->]|[_ ?]]; [right; by left|by left].
Qed.

(** Indices are never handed out twice. *)
Lemma trace_given_mono a tr a' x v :
  spec_trace a tr a' -> given a !! x = Some v -> given a' !! x = Some v.
Proof.
  induction 1 as [|a c o a1 tr a2 Hs _ IH]; [done|]. intros Hx. apply IH.
  inversion Hs; subst; try done. simpl. rewrite lookup_insert_ne; [done|]. intros ->. congruence.
Qed.
End refinement.

(** * Facts about specification traces *)

Section traces.
Context {T : Type}.
Implicit Types (a : spec T) (tr : list (call T * outcome T)).

Definition spec_empty : spec T := MkSpec ∅ ∅ [].

Definition live_given a : Prop := forall x, x ∈ live a -> is_Some (given a !! x).

Lemma live_given_step a c o a' : spec_step a c o a' -> live_given a -> live_given a'.
Proof.
  intros Hs Hl. destruct Hs; try done; intros y Hy; simpl in *.
  - rewrite elem_of_union, elem_of_singleton in Hy.
    destruct (decide (y = x)) as [->|]; [by rewrite lookup_insert_eq|].
    rewrite lookup_insert_ne by done. destruct Hy; [done|by apply Hl].
  - apply Hl. set_solver.
Qed.

Lemma live_given_trace a tr a' : spec_trace a tr a' -> live_given a -> live_given a'.
Proof. induction 1; [done|]. intros. by eauto using live_given_step. Qed.

Lemma live_given_empty : live_given spec_empty.
Proof. intros x Hx. simpl in Hx. set_solver. Qed.

Lemma spec_trace_app a tr1 tr2 a2 :
  spec_trace a (tr1 ++ tr2) a2 -> exists a1, spec_trace a tr1 a1 /\ spec_trace a1 tr2 a2.
Proof.
  revert a. induction tr1 as [|[c o] tr1 IH]; intros a; simpl.
  - intros Ht. exists a. split; [constructor|done].
  - inversion 1 as [|? ? ? a1 ? ? Hs Ht]; subst. destruct (IH _ Ht) as (a3&?&?).
    exists a3. split; [by econstructor|done].
Qed.

(** Once given out and not live any more, an index stays dead. *)
Definition dead a x : Prop := is_Some (given a !! x) /\ x ∉ live a.

Lemma dead_step a c o a' x : spec_step a c o a' -> dead a x -> dead a' x.
Proof.
  intros Hs [[v Hg] Hl]. destruct Hs as [a v' y Hn _ _| | | | | |]; try (by split).
  - assert (y <> x) by congruence. split; simpl; [rewrite lookup_insert_ne by done; by eexists|].
    set_solver.
  - split; simpl; [by eexists|set_solver].
Qed.

Lemma dead_events a tr a' x :
  spec_trace a tr a' -> dead a x ->
  Forall (fun e => e.1 = Get x -> e.2 = Got None) tr /\
  Forall (fun e => e.1 = Remove x -> e.2 = Removed false) tr /\
  Forall (fun e => e.2 <> Inserted x) tr.
Proof.
  induction 1 as [|a c o a1 tr a2 Hs _ IH]; [intros _; split_and!; constructor|].
  intros Hd. destruct (IH (dead_step _ _ _ _ _ Hs Hd)) as (?&?&?). destruct Hd as [[v Hg] Hl].
  split_and!; constructor; try done; simpl.
  - intros ->. by inversion Hs; subst.
  - intros ->. inversion Hs; subst. by rewrite bool_decide_false.
  - intros ->. inversion Hs; subst. congruence.
Qed.
End traces.

(** * Properties *)

Section slab_properties.
Context {prof : Profile} {bits : ModularBitfield} {topology : Topology} {T : Type}.
Implicit Types (sl : Slab T) (tr : list (call T * outcome T)) (held : list Idx).

Lemma new_runs SIZE sl tr sl' held :
  (0 < SIZE)%nat -> slab_new SIZE = Ret sl -> runs sl [] tr sl' held ->
  exists a, spec_trace spec_empty tr a /\ client_ok sl' a held.
Proof.
  intros Hpos E Hr. rewrite slab_new_eq in E. case_decide; [|done]. injection E as <-.
  by apply (runs_refine _ _ _ _ _ _ Hr), new_client_ok.
Qed.

(** C3. Every sequence of calls on a new slab, made by any processors in
    any order, with its outcomes, is a sequence of the abstract slab: an
    insertion returns an index never returned before, a lookup succeeds
    exactly on the indices inserted and not removed, a removal reports
    whether the index was live, and a reference reads the value that was
    inserted under its index, also when it was removed in the meantime. *)
Theorem slab_refines_spec SIZE sl tr sl' held :
  (0 < SIZE)%nat -> slab_new SIZE = Ret sl -> runs sl [] tr sl' held ->
  exists a, spec_trace spec_empty tr a /\ refs a ≡ₚ held.
Proof.
  intros Hpos E Hr. destruct (new_runs _ _ _ _ _ Hpos E Hr) as (a&?&Hc).
  exists a. split; [done|apply Hc].
Qed.

(** C12. References are safe: after any calls, dereferencing a held
    reference neither panics nor reads uninitialised contents, and yields
    the value whose insertion returned that index. *)
Theorem slab_deref_safe SIZE sl tr sl' held r :
  (0 < SIZE)%nat -> slab_new SIZE = Ret sl -> runs sl [] tr sl' held -> r ∈ held ->
  exists v, ref_deref sl' r = Ret v /\ (Insert v, Inserted r) ∈ tr.
Proof.
  intros Hpos E Hr Hin. destruct (new_runs _ _ _ _ _ Hpos E Hr) as (a&Ht&[Hi Hh Hv]).
  rewrite Forall_forall in Hv.
  destruct (ref_deref_ok sl' a r Hi) as (v&Ed&Hg); [by rewrite Hh|by apply Hv|].
  exists v. split; [done|]. destruct (trace_given _ _ _ _ _ Ht Hg) as [Hg'|]; [|done].
  exfalso; exact (lookup_empty_Some r v Hg').
Qed.

(** Nothing is ever freed twice and no call runs into undefined
    behaviour: after any calls, a further call returns unless one of the
    slab's counters (a slot's 46-bit generation, the 46-bit push tag, a
    16-bit reference count) is used up. *)
Theorem slab_progress SIZE sl tr sl' held cpu c :
  (0 < SIZE)%nat -> slab_new SIZE = Ret sl -> runs sl [] tr sl' held ->
  0 <= cpu < MAX_PROCESSORS ->
  match c with
  | Insert _ => True
  | Remove x | Get x => idx_valid x
  | Deref r | DropRef r => r ∈ held
  end ->
  match run_call sl' cpu c with
  | Ret _ => True
  | Panic _ => (exists i, exhausted sl' i) \/ 2 ^ 46 <= tag (global_free_list sl') \/
               2 ^ 16 - 1 <= Z.of_nat (length held)
  end.
Proof.
  intros Hpos E Hr Hcpu Hc. destruct (new_runs _ _ _ _ _ Hpos E Hr) as (a&Ht&[Hi Hh Hv]).
  rewrite Forall_forall in Hv.
  assert (Hmay : may_call a c).
  { destruct c; simpl; try done; (split; [by rewrite Hh|by apply Hv]). }
  pose proof (run_call_ok sl' a cpu c Hi Hcpu Hmay) as Hrun.
  destruct (run_call sl' cpu c); [done|]. destruct Hrun as [?|[?|(i&Hn)]]; [by left|by auto|].
  do 2 right. etransitivity; [exact Hn|]. apply Nat2Z.inj_le. rewrite <-Hh.
  apply length_filter.
Qed.

(** A stale index is recognised: after a removal of [x] succeeded,
    [x] is never found, never removed again, and never returned by an
    insertion, although its slot may be reused many times. *)
Theorem slab_stale_index SIZE sl tr1 x tr2 sl' held :
  (0 < SIZE)%nat -> slab_new SIZE = Ret sl ->
  runs sl [] (tr1 ++ (Remove x, Removed true) :: tr2) sl' held ->
  Forall (fun e => e.1 = Get x -> e.2 = Got None) tr2 /\
  Forall (fun e => e.1 = Remove x -> e.2 = Removed false) tr2 /\
  Forall (fun e => e.2 <> Inserted x) tr2.
Proof.
  intros Hpos E Hr. destruct (new_runs _ _ _ _ _ Hpos E Hr) as (a&Ht&_).
  apply spec_trace_app in Ht as (a1&Ht1&Ht2).
  inversion Ht2 as [|? ? ? a2 ? ? Hs Ht3]; subst. eapply dead_events; [exact Ht3|].
  pose proof (live_given_trace _ _ _ Ht1 live_given_empty) as Hl.
  inversion Hs as [| |? ? Hv Eq| | | |]; subst.
  assert (Hx : x ∈ live a1) by (by apply (bool_decide_eq_true (x ∈ live a1))).
  split; simpl; [by apply Hl|set_solver].
Qed.

(** An insertion fails only when both lists that the current processor
    may take from, its own and the global one, are empty; it then gives
    the value back and changes no slot. *)
Theorem slab_insert_full SIZE sl0 tr sl held cpu v sl' v' :
  (0 < SIZE)%nat -> slab_new SIZE = Ret sl0 -> runs sl0 [] tr sl held ->
  0 <= cpu < MAX_PROCESSORS -> insert sl v cpu = Ret (sl', Err v') ->
  v' = v /\ slots sl' = slots sl /\
  exists lls, lists_are (local_free_list sl') (global_free_list sl') (slots sl') [] lls /\
    lls !! Z.to_nat cpu = Some [].
Proof.
  intros Hpos En Hr Hcpu E. destruct (new_runs _ _ _ _ _ Hpos En Hr) as (a&_&[Hi _ _]).
  pose proof (insert_ok sl a v cpu Hi Hcpu) as H. rewrite E in H.
  destruct H as (->&Hi'&Hs&Hl). split_and!; try done.
  pose proof Hi' as [_ (gl&lls&Hlist&_) _]. destruct (Hl gl lls Hlist) as [-> ?].
  by exists lls.
Qed.
End slab_properties.

Section slab_witnesses.
#[local] Existing Instance lsb_first.
#[local] Existing Instance dev_profile.
#[local] Existing Instance x86_64_topology.

(** One insertion, one reference, a removal under that reference, and a
    read through it. *)
Definition sample_calls : list (call Z) :=
  [Insert 42; Get (MkIdx 1 0); Remove (MkIdx 1 0); Deref (MkIdx 1 0)].

Fixpoint run_calls (sl : Slab Z) (cs : list (call Z)) : rust (Slab Z * list (outcome Z)) :=
  match cs with
  | [] => Ret (sl, [])
  | c :: cs =>
      '(sl, o) ← run_call sl 0 c; '(sl, os) ← run_calls sl cs; Ret (sl, o :: os)
  end.

Definition sample_slab (n : nat) : Slab Z :=
  match slab_new 4 ≫= fun sl => run_calls sl (take n sample_calls) with
  | Ret (sl, _) => sl
  | Panic _ => MkSlab [] (global_new 0) []
  end.

Definition sample_trace : list (call Z * outcome Z) :=
  [(Insert 42, Inserted (MkIdx 1 0)); (Get (MkIdx 1 0), Got (Some (MkIdx 1 0)));
   (Remove (MkIdx 1 0), Removed true); (Deref (MkIdx 1 0), Value 42)].

Lemma sample_new : slab_new 4 = Ret (sample_slab 0).
Proof. vm_compute. reflexivity. Qed.

Lemma sample_runs : runs (sample_slab 0) [] sample_trace (sample_slab 4) [MkIdx 1 0].
Proof.
  apply (runs_cons _ _ 0 _ _ (sample_slab 1) []); [done|vm_compute; reflexivity|constructor|].
  apply (runs_cons _ _ 0 _ _ (sample_slab 2) [MkIdx 1 0]);
    [done|vm_compute; reflexivity|by constructor|].
  apply (runs_cons _ _ 0 _ _ (sample_slab 3) [MkIdx 1 0]);
    [done|vm_compute; reflexivity|by constructor|].
  apply (runs_cons _ _ 0 _ _ (sample_slab 4) [MkIdx 1 0]);
    [done|vm_compute; reflexivity|constructor; set_solver|constructor].
Qed.

Lemma slab_refines_spec_witness :
  exists a : spec Z, spec_trace spec_empty sample_trace a /\ refs a ≡ₚ [MkIdx 1 0].
Proof.
  exact (slab_refines_spec 4 (sample_slab 0) sample_trace (sample_slab 4) [MkIdx 1 0]
           ltac:(lia) sample_new sample_runs).
Defined.

Lemma slab_deref_safe_witness : exists v, ref_deref (sample_slab 4) (MkIdx 1 0) = Ret v.
Proof.
  destruct (slab_deref_safe 4 (sample_slab 0) sample_trace (sample_slab 4) [MkIdx 1 0] (MkIdx 1 0)
    ltac:(lia) sample_new sample_runs ltac:(set_solver)) as (v&E&_). by exists v.
Defined.

Lemma slab_progress_witness :
  match run_call (sample_slab 4) 0 (DropRef (MkIdx 1 0)) with
  | Ret _ => True
  | Panic _ => (exists i, exhausted (sample_slab 4) i) \/
               2 ^ 46 <= tag (global_free_list (sample_slab 4)) \/ 2 ^ 16 - 1 <= 1
  end.
Proof.
  exact (slab_progress 4 (sample_slab 0) sample_trace (sample_slab 4) [MkIdx 1 0] 0
    (DropRef (MkIdx 1 0)) ltac:(lia) sample_new sample_runs ltac:(done) ltac:(set_solver)).
Defined.

Lemma slab_stale_index_witness :
  Forall (fun e : call Z * outcome Z => e.2 <> Inserted (MkIdx 1 0))
    [(Deref (MkIdx 1 0), Value 42)].
Proof.
  destruct (slab_stale_index 4 (sample_slab 0)
    [(Insert 42, Inserted (MkIdx 1 0)); (Get (MkIdx 1 0), Got (Some (MkIdx 1 0)))] (MkIdx 1 0)
    [(Deref (MkIdx 1 0), Value 42)] (sample_slab 4) [MkIdx 1 0]
    ltac:(lia) sample_new sample_runs) as (_&_&H).
  exact H.
Defined.

(** A slab of one slot, used and freed by processor 1. *)
Definition drained (n : nat) : Slab Z :=
  match
    sl ← slab_new 1;
    if decide (n = 0)%nat then Ret sl else
    '(sl, _) ← run_call sl 1 (Insert 7);
    if decide (n = 1)%nat then Ret sl else
    '(sl, _) ← run_call sl 1 (Remove (MkIdx 1 0)); Ret sl
  with
  | Ret sl => sl
  | Panic _ => MkSlab [] (global_new 0) []
  end.

Lemma drained_runs :
  runs (drained 0) [] [(Insert 7, Inserted (MkIdx 1 0)); (Remove (MkIdx 1 0), Removed true)]
    (drained 2) [].
Proof.
  apply (runs_cons _ _ 1 _ _ (drained 1) []); [done|vm_compute; reflexivity|constructor|].
  apply (runs_cons _ _ 1 _ _ (drained 2) []); [done|vm_compute; reflexivity|by constructor|].
  constructor.
Qed.

(** A freed slot is only available to the processor it was allocated
    on: here nothing is allocated in a slab of one slot, and yet an
    insertion by another processor reports that there is no space. *)
Theorem freed_slot_not_shared :
  runs (drained 0) [] [(Insert 7, Inserted (MkIdx 1 0)); (Remove (MkIdx 1 0), Removed true)]
    (drained 2) [] /\
  (exists sl, insert (drained 2) 8 0 = Ret (sl, Err 8)) /\
  (exists sl, insert (drained 2) 8 1 = Ret (sl, Ok (MkIdx 2 0))).
Proof.
  split; [exact drained_runs|]. split; eexists; vm_compute; reflexivity.
Qed.

Lemma slab_insert_full_witness :
  exists sl, insert (drained 2) 8 0 = Ret (sl, Err 8) /\ slots sl = slots (drained 2).
Proof.
  destruct (insert (drained 2) 8 0) as [[sl [x|v]]|w] eqn:E;
    [vm_compute in E; discriminate E| |vm_compute in E; discriminate E].
  destruct (slab_insert_full 1 (drained 0) _ (drained 2) [] 0 8 sl v
    ltac:(lia) ltac:(vm_compute; reflexivity) drained_runs ltac:(done) E) as (->&Hs&_).
  exists sl. split; [reflexivity|exact Hs].
Defined.
End slab_witnesses.
