(* ===== verification/SlabLocal.v ===== *)
(** The slab on one processor. The free lists are never rebalanced, so in
    general an insertion can fail although slots are free; here: not as long
    as only one processor has used the slab. *)
From S2P Require Import Prelude Bitfields Topology Slot FreeLists Slab SlabSpec.

Section local.
Context {prof : Profile} {bits : ModularBitfield} {topology : Topology} {T : Type}.
Implicit Types (sl : Slab T) (a : spec T) (held : list Idx).

(** [sl'] has as many slots as [sl], and the same lists of all processors
    but [cpu]. *)
Record stays_local (cpu : Z) sl sl' : Prop := {
  local_slots : length (slots sl') = length (slots sl);
  local_cells j : j <> Z.to_nat cpu -> local_free_list sl' !! j = local_free_list sl !! j;
}.

#[export] Instance stays_local_refl cpu : Reflexive (stays_local cpu).
Proof. by split. Qed.

#[export] Instance stays_local_trans cpu : Transitive (stays_local cpu).
Proof.
  intros sl1 sl2 sl3 [E1 H1] [E2 H2]. split; [congruence|]. intros j Hj. by rewrite H2, H1.
Qed.

Lemma with_mut_cells {A R} cpu (p p' : list (option A)) (f : option A -> rust (option A * R)) r :
  with_mut cpu p f = Ret (p', r) -> forall j, j <> Z.to_nat cpu -> p' !! j = p !! j.
Proof.
  unfold with_mut. intros E j Hj. rust_inv E. destruct x0 as [cell' r']. simplify_eq/=.
  by rewrite list_lookup_insert_ne.
Qed.

Lemma link_slot_length (storage storage' : list (Slot T)) i w :
  link_slot storage i w = Ret storage' -> length storage' = length storage.
Proof. unfold link_slot. intros E. rust_inv E. subst storage'. apply length_insert. Qed.

Lemma local_push_local sl cpu i lf st :
  local_push (local_free_list sl) cpu i (slots sl) = Ret (lf, st) ->
  stays_local cpu sl (MkSlab lf (global_free_list sl) st).
Proof.
  intros E. split; [|by apply (with_mut_cells _ _ _ _ _ E)]. simpl. unfold local_push, with_mut in E.
  rust_inv E. destruct x0 as [cell st']. simplify_eq/=. rust_inv Hx0. simplify_eq/=.
  by eapply link_slot_length.
Qed.

Lemma global_push_length f f' i (st st' : list (Slot T)) :
  global_push f i st = Ret (f', st') -> length st' = length st.
Proof.
  unfold global_push. intros E. rust_inv E. destruct x as [g w]. rust_inv E.
  destruct (exchange_head _ _ _); [|done]. simplify_eq/=. by eapply link_slot_length.
Qed.

Lemma with_slot_local cpu sl i s : stays_local cpu sl (with_slot sl i s).
Proof. split; [apply length_insert|done]. Qed.

Lemma return_slot_local sl sl' i cpu : return_slot sl i cpu = Ret sl' -> stays_local cpu sl sl'.
Proof.
  unfold return_slot. intros E. rust_inv E. destruct x0 as [s allocated_on].
  etrans; [apply (with_slot_local cpu sl i s)|]. destruct (decide (allocated_on = Some cpu)).
  - rust_inv E. destruct x0 as [lf st]. simplify_eq/=. by apply (local_push_local (with_slot sl i s) _ i).
  - rust_inv E. destruct x0 as [gf st]. simplify_eq/=. split; [|done]. simpl. by eapply global_push_length in Hx1.
Qed.

Lemma pop_slot_local sl sl' cpu o : pop_slot sl cpu = Ret (sl', o) -> stays_local cpu sl sl'.
Proof.
  unfold pop_slot. intros E. rust_inv E. destruct x as [lf popped]. pose proof (with_mut_cells _ _ _ _ _ Hx).
  destruct popped as [i|]; [by simplify_eq/=|]. rust_inv E. destruct x as [gf popped]. simplify_eq/=; done.
Qed.

Lemma insert_local sl sl' v cpu r : insert sl v cpu = Ret (sl', r) -> stays_local cpu sl sl'.
Proof.
  unfold insert. intros E. rust_inv E. destruct x as [sl1 popped]. apply pop_slot_local in Hx.
  destruct popped as [i|]; [|by simplify_eq/=]. rust_inv E. destruct x0 as [s g].
  rust_inv E. simplify_eq/=. etrans; [done|]. apply with_slot_local.
Qed.

Lemma remove_local sl sl' x cpu b : remove sl x cpu = Ret (sl', b) -> stays_local cpu sl sl'.
Proof.
  unfold remove. intros E. destruct (slots sl !! _) as [s|]; [|by simplify_eq/=].
  rust_inv E. destruct x0 as [s' [[]|e]]; [|simplify_eq/=; apply with_slot_local..].
  rust_inv E. simplify_eq/=. etrans; [apply with_slot_local|]. by eapply return_slot_local.
Qed.

Lemma get_local sl sl' x cpu o : get sl x = Ret (sl', o) -> stays_local cpu sl sl'.
Proof.
  unfold get. intros E. destruct (slots sl !! _) as [s|]; [|by simplify_eq/=].
  rust_inv E. destruct x0 as [s' [|]]; simplify_eq/=; apply with_slot_local.
Qed.

Lemma drop_reference_local sl sl' x cpu : drop_reference sl x cpu = Ret sl' -> stays_local cpu sl sl'.
Proof.
  unfold drop_reference. intros E. rust_inv E. destruct x1 as [s' [[]|e]]; [| |done].
  - etrans; [apply with_slot_local|]. by eapply return_slot_local.
  - simplify_eq/=. apply with_slot_local.
Qed.

Lemma run_call_local sl sl' cpu c o : run_call sl cpu c = Ret (sl', o) -> stays_local cpu sl sl'.
Proof.
  destruct c as [v|x|x|r|r]; simpl; intros E; rust_inv E.
  - destruct x as [sl1 r]. simplify_eq/=. by eapply insert_local.
  - destruct x0 as [sl1 b]. simplify_eq/=. by eapply remove_local.
  - destruct x0 as [sl1 b]. simplify_eq/=. by eapply get_local.
  - simplify_eq/=; done.
  - simplify_eq/=. by eapply drop_reference_local.
Qed.

(** * Calls of one processor *)

Inductive runs_on (cpu : Z) : Slab T -> list Idx -> list (call T * outcome T) -> Slab T -> list Idx -> Prop :=
  | runs_on_nil sl held : runs_on cpu sl held [] sl held
  | runs_on_cons sl held c o sl1 held1 tr sl2 held2 :
      run_call sl cpu c = Ret (sl1, o) -> held_step held c o held1 ->
      runs_on cpu sl1 held1 tr sl2 held2 -> runs_on cpu sl held ((c, o) :: tr) sl2 held2.

Lemma runs_on_runs cpu sl held tr sl' held' :
  0 <= cpu < MAX_PROCESSORS -> runs_on cpu sl held tr sl' held' -> runs sl held tr sl' held'.
Proof. intros Hcpu. induction 1; [constructor|]. by econstructor. Qed.

Lemma runs_on_local cpu sl held tr sl' held' : runs_on cpu sl held tr sl' held' -> stays_local cpu sl sl'.
Proof. induction 1 as [|sl held c o sl1 held1 tr sl2 held2 Er _ _ IH]; [done|]. etrans; [by eapply run_call_local|done]. Qed.

(** The lists of all other processors are empty. *)
Definition empty_elsewhere (cpu : Z) sl : Prop := forall j cell,
  j <> Z.to_nat cpu -> local_free_list sl !! j = Some cell -> default EMPTY cell = EMPTY.

Lemma new_empty_elsewhere cpu SIZE : empty_elsewhere cpu (new_slab (T := T) SIZE).
Proof. intros j cell _ Hc. simpl in Hc. unfold per_processor_new in Hc. by apply lookup_replicate in Hc as [-> _]. Qed.

Lemma stays_empty_elsewhere cpu sl sl' :
  stays_local cpu sl sl' -> empty_elsewhere cpu sl -> empty_elsewhere cpu sl'.
Proof. intros [_ Hc] He j cell Hj Hl. rewrite Hc in Hl by done. by apply (He j). Qed.

Lemma all_lists_empty cpu sl lls :
  empty_elsewhere cpu sl -> Forall2 (local_chain (slots sl)) (local_free_list sl) lls ->
  lls !! Z.to_nat cpu = Some [] -> concat lls = [].
Proof.
  intros He Hl Hc. assert (Hall : Forall (.= []) lls).
  { apply Forall_lookup. intros j l Hj. destruct (decide (j = Z.to_nat cpu)) as [->|Hne]; [congruence|].
    destruct (Forall2_lookup_r _ _ _ _ _ Hl Hj) as (cell&Hcell&Hch). unfold local_chain in Hch.
    rewrite (He j cell Hne Hcell) in Hch. destruct l as [|i l]; [done|]. by destruct Hch. }
  clear -Hall. induction Hall as [|l lls -> _ IH]; [done|]. exact IH.
Qed.

(** A slot on no free list is taken: by a live value, or by a removed one
    that is still referenced. *)
Lemma slot_taken a i s st g :
  slot_ok a False i s st g -> exists x, here i x /\ (x ∈ live a \/ x ∈ refs a).
Proof.
  intros Hok. assert (Hst : st <> Unallocated) by (intros E; by apply (so_free _ _ _ _ _ _ Hok)).
  destruct st; [|done|].
  - exists (MkIdx g (Z.of_nat i)). split; [done|]. left. by apply (so_live _ _ _ _ _ _ Hok).
  - pose proof (so_zombie _ _ _ _ _ _ Hok eq_refl) as Hz.
    destruct (filter (here i) (refs a)) as [|x xs] eqn:Ef; [done|].
    assert (Hx : x ∈ filter (here i) (refs a)) by (rewrite Ef; by left).
    apply list_elem_of_filter in Hx as [? ?]. exists x. auto.
Qed.

(** If every slot is taken, there are that many values. *)
Lemma count_taken a n :
  (forall i, (i < n)%nat -> exists x, here i x /\ (x ∈ live a \/ x ∈ refs a)) ->
  (n <= size (live a) + length (refs a))%nat.
Proof.
  intros Ht. set (ixs := (fun x => Z.to_nat (idx_index x)) <$> elements (live a) ++ refs a).
  assert (Hsub : seq 0 n ⊆+ ixs).
  { apply NoDup_submseteq; [apply NoDup_seq|]. intros i Hi%elem_of_seq.
    destruct (Ht i ltac:(lia)) as (x&Hx&Hin). apply list_elem_of_fmap. exists x. split.
    - rewrite Hx. lia.
    - apply elem_of_app. destruct Hin; [left; by apply elem_of_elements|by right]. }
  apply submseteq_length in Hsub. unfold ixs in Hsub. by rewrite length_seq, length_fmap, length_app in Hsub.
Qed.

Lemma local_insert_full sl a v cpu sl' v' :
  slab_inv sl a -> 0 <= cpu < MAX_PROCESSORS -> empty_elsewhere cpu sl -> insert sl v cpu = Ret (sl', Err v') ->
  (length (slots sl) <= size (live a) + length (refs a))%nat.
Proof.
  intros Hi Hcpu He E. pose proof (insert_local _ _ _ _ _ E) as Hloc.
  pose proof (insert_ok sl a v cpu Hi Hcpu) as H. rewrite E in H. destruct H as (_&Hi'&Hs&Hl).
  pose proof Hi' as [_ (gl&lls&Hlist&Hall) _]. destruct (Hl gl lls Hlist) as [-> Hc].
  pose proof (all_lists_empty cpu sl' lls (stays_empty_elsewhere _ _ _ Hloc He) (lists_local _ _ _ _ _ Hlist) Hc) as Hnil.
  apply count_taken. intros i Hlt. rewrite <-Hs in Hlt. destruct (lookup_lt_is_Some_2 _ _ Hlt) as [s Hsi].
  destruct (Hall _ _ Hsi) as (st&g&Hok). rewrite Hnil in Hok. apply (slot_taken a i s st g).
  destruct Hok as [? ? Hfree]. split; try done. rewrite <-Hfree. simpl. by split; [|intros ?%elem_of_nil].
Qed.

(** On one processor the slab is as good as its size: after any calls
    that a single processor made on a new slab, an insertion by it succeeds
    as long as fewer values than slots are live or held, unless the
    generation of the slot it picks is exhausted. *)
Theorem single_processor_insert SIZE sl0 tr sl held cpu v :
  (0 < SIZE)%nat -> slab_new SIZE = Ret sl0 -> 0 <= cpu < MAX_PROCESSORS ->
  runs_on cpu sl0 [] tr sl held ->
  exists a, spec_trace spec_empty tr a /\ refs a ≡ₚ held /\
    ((size (live a) + length held < SIZE)%nat ->
     match insert sl v cpu with
     | Ret (_, Ok _) => True
     | Ret (_, Err _) => False
     | Panic _ => exists i, exhausted sl i
     end).
Proof.
  intros Hpos En Hcpu Hr. pose proof (runs_on_runs _ _ _ _ _ _ Hcpu Hr) as Hr'.
  destruct (new_runs _ _ _ _ _ Hpos En Hr') as (a&Ht&[Hi Hh Hv]).
  exists a. split; [done|]. split; [done|]. intros Hlt.
  rewrite slab_new_eq in En. case_decide; [|done]. injection En as <-.
  pose proof (runs_on_local _ _ _ _ _ _ Hr) as Hloc.
  pose proof (stays_empty_elsewhere _ _ _ Hloc (new_empty_elsewhere cpu SIZE)) as He.
  pose proof (insert_ok sl a v cpu Hi Hcpu) as H1.
  destruct (insert sl v cpu) as [[sl' [x|v']]|w] eqn:E; [done| |by apply H1].
  pose proof (local_insert_full _ _ _ _ _ _ Hi Hcpu He E) as Hfull. rewrite (local_slots _ _ _ Hloc) in Hfull.
  rewrite Hh in Hfull. simpl in Hfull. unfold fresh_slots in Hfull. rewrite length_fmap, length_seq in Hfull. lia.
Qed.
End local.
