(* ===== verification/Treiber.v ===== *)
(** The global free list under concurrency ([slab/src/free_lists.rs]): any
    number of processors push and pop, one atomic action at a time, over
    sequentially consistent memory. Each thread's position in the loops of
    [push] and [pop] is explicit, and every action is the one that
    [FreeLists] defines. *)
From S2P Require Import Prelude Bitfields Topology Slot FreeLists Slab SlabSpec.

(** * Threads and actions *)

Inductive pc :=
  | Idle
  (** [push]: before the load, before [set_next], before the exchange *)
  | PushTagged (i : nat) (new_head : Z)
  | PushLoaded (i : nat) (new_head old_head : Z)
  | PushLinked (i : nat) (new_head old_head : Z)
  (** [pop]: before the load, before [next()], before the exchange *)
  | PopStart
  | PopLoaded (old_head : Z)
  | PopRead (old_head new_head : Z).

Inductive event :=
  | Pushed (i : nat)
  | Popped (o : option nat).

Section treiber.
Context {bits : ModularBitfield} {T : Type}.
Implicit Types (f : GlobalFreeList) (storage : list (Slot T)) (i : nat) (owned : list nat).

(** The list, the slots, and the slots that are on no list and not being
    pushed: whoever holds one may push it, or use its [next] field for a
    per-processor list. *)
Record config := MkConfig {
  list_of : GlobalFreeList;
  storage_of : list (Slot T);
  owned_of : list nat;
}.

(** One action of a thread. *)
Inductive action : config -> pc -> option event -> config -> pc -> Prop :=
  | start_push f st owned owned' i f' w :
      owned ≡ₚ i :: owned' -> take_tag f i = Ret (f', w) ->
      action (MkConfig f st owned) Idle None (MkConfig f' st owned') (PushTagged i w)
  | push_load f st owned i w :
      action (MkConfig f st owned) (PushTagged i w) None
             (MkConfig f st owned) (PushLoaded i w (head f))
  | push_link f st st' owned i w old :
      link_slot st i old = Ret st' ->
      action (MkConfig f st owned) (PushLoaded i w old) None
             (MkConfig f st' owned) (PushLinked i w old)
  | push_succeed f f' st owned i w old :
      exchange_head f old w = Some f' ->
      action (MkConfig f st owned) (PushLinked i w old) (Some (Pushed i))
             (MkConfig f' st owned) Idle
  | push_retry f st owned i w old :
      exchange_head f old w = None ->
      action (MkConfig f st owned) (PushLinked i w old) None
             (MkConfig f st owned) (PushTagged i w)
  | start_pop c :
      action c Idle None c PopStart
  | pop_empty f st owned :
      head f = EMPTY ->
      action (MkConfig f st owned) PopStart (Some (Popped None)) (MkConfig f st owned) Idle
  | pop_load f st owned :
      head f <> EMPTY ->
      action (MkConfig f st owned) PopStart None (MkConfig f st owned) (PopLoaded (head f))
  | pop_next f st owned old w :
      slot_next st (head_index old) = Ret w ->
      action (MkConfig f st owned) (PopLoaded old) None (MkConfig f st owned) (PopRead old w)
  | pop_succeed f f' st owned old w :
      exchange_head f old w = Some f' ->
      action (MkConfig f st owned) (PopRead old w) (Some (Popped (Some (head_index old))))
             (MkConfig f' st (head_index old :: owned)) Idle
  | pop_retry f st owned old w :
      exchange_head f old w = None ->
      action (MkConfig f st owned) (PopRead old w) None (MkConfig f st owned) PopStart
  | use_next f st st' owned i w :
      i ∈ owned -> link_slot st i w = Ret st' ->
      action (MkConfig f st owned) Idle None (MkConfig f st' owned) Idle.

(** A step of the system: some thread acts. *)
Inductive step : config * list pc -> option event -> config * list pc -> Prop :=
  | thread_step c c' t1 p p' t2 e :
      action c p e c' p' -> step (c, t1 ++ p :: t2) e (c', t1 ++ p' :: t2).

(** The entries of a list that is as [new] or [new_empty] made it carry tag
    0, and so does the first entry that [push] makes. That push is clear if
    no thread is in [pop] with the entry of the same slot, read from the
    initial list, in its hands. *)
Definition has_read i (p : pc) : bool :=
  match p with
  | PopLoaded old | PopRead old _ => bool_decide (head_index old = i)
  | _ => false
  end.

Definition push_clear f (others : list pc) i : bool :=
  bool_decide (tag f <> 0) || forallb (fun p => negb (has_read i p)) others.

Definition clear_at f (others : list pc) (p p' : pc) : bool :=
  match p, p' with Idle, PushTagged i _ => push_clear f others i | _, _ => true end.

Inductive clear_step : config * list pc -> option event -> config * list pc -> Prop :=
  | clear_thread_step c c' t1 p p' t2 e :
      action c p e c' p' -> clear_at (list_of c) (t1 ++ t2) p p' ->
      clear_step (c, t1 ++ p :: t2) e (c', t1 ++ p' :: t2).

Inductive execution (steps : config * list pc -> option event -> config * list pc -> Prop) :
    config * list pc -> list event -> config * list pc -> Prop :=
  | exec_nil x : execution steps x [] x
  | exec_silent x y z es : steps x None y -> execution steps y es z -> execution steps x es z
  | exec_event x y z e es :
      steps x (Some e) y -> execution steps y es z -> execution steps x (e :: es) z.

(** ** The abstract stack *)

Inductive stack_step : list nat -> event -> list nat -> Prop :=
  | stack_push l i : stack_step l (Pushed i) (i :: l)
  | stack_pop l i : stack_step (i :: l) (Popped (Some i)) l
  | stack_empty : stack_step [] (Popped None) [].

Inductive stack_trace : list nat -> list event -> list nat -> Prop :=
  | stack_nil l : stack_trace l [] l
  | stack_cons l l1 l2 e es :
      stack_step l e l1 -> stack_trace l1 es l2 -> stack_trace l (e :: es) l2.

(** ** The invariant *)

(** The words of the list, from the head on. *)
Fixpoint wchain storage (w : Z) (ws : list Z) : Prop :=
  match ws with
  | [] => w = EMPTY
  | w' :: ws => w = w' /\ w <> EMPTY /\
      exists s, storage !! head_index w = Some s /\ wchain storage (next s) ws
  end.

(** What a thread is about to push. *)
Definition pushing (p : pc) : option (nat * Z) :=
  match p with
  | PushTagged i w => Some (i, w)
  | PushLoaded i w _ => Some (i, w)
  | PushLinked i w _ => Some (i, w)
  | _ => None
  end.

Definition tag_of (w : Z) : Z := entry_tag (Entry_from w).

(** Tags below this one are used up, but for the first entry pushed. *)
Definition next_tag f : Z := Z.max 1 (tag f).

(** A thread's view, against the words [ws] of the list and the words
    [pend] that are about to be pushed. A popper's word is on the list, in
    which case it has read its current successor, or never comes back. *)
Definition pc_ok (c : config) (ws pend : list Z) (p : pc) : Prop :=
  match p with
  | Idle => True
  | PopStart => True
  | PushTagged i w => head_index w = i /\ w <> EMPTY
  | PushLoaded i w _ => head_index w = i /\ w <> EMPTY
  | PushLinked i w old => head_index w = i /\ w <> EMPTY /\
      exists s, storage_of c !! i = Some s /\ next s = old
  | PopLoaded old => old <> EMPTY /\ ~ old ∈ pend /\ tag_of old < next_tag (list_of c) /\
      (head_index old < length (storage_of c))%nat
  | PopRead old w => old <> EMPTY /\ ~ old ∈ pend /\ tag_of old < next_tag (list_of c) /\
      (old ∈ ws -> exists s, storage_of c !! head_index old = Some s /\ next s = w)
  end.

Definition pending (ts : list pc) : list (nat * Z) := omap pushing ts.

Record treiber_inv (c : config) (ts : list pc) (ws : list Z) : Prop := {
  ti_chain : wchain (storage_of c) (head (list_of c)) ws;
  ti_slots : NoDup ((head_index <$> ws) ++ (fst <$> pending ts) ++ owned_of c);
  ti_bounds : Forall (fun i => i < length (storage_of c))%nat
                ((head_index <$> ws) ++ (fst <$> pending ts) ++ owned_of c);
  ti_words : NoDup (ws ++ (snd <$> pending ts));
  ti_tags : Forall (fun w => tag_of w < next_tag (list_of c)) (ws ++ (snd <$> pending ts));
  ti_tag : 0 <= tag (list_of c);
  ti_size : Z.of_nat (length (storage_of c)) < 2 ^ 18;
  ti_threads : Forall (pc_ok c ws (snd <$> pending ts)) ts;
}.

(** ** Preservation *)

Lemma exchange_head_inv f old w f' :
  exchange_head f old w = Some f' -> head f = old /\ f' = MkGlobalFreeList w (tag f).
Proof. unfold exchange_head. case_decide; [|done]. by intros [= <-]. Qed.

Lemma link_slot_inv st i w st' :
  link_slot (T := T) st i w = Ret st' ->
  exists s, st !! i = Some s /\ st' = <[i := set_next s w]> st.
Proof.
  unfold link_slot. intros E. rust_inv E. apply index_inv in Hx. simplify_eq. by eexists.
Qed.

Lemma take_tag_inv f i f' w :
  0 <= tag f -> Z.of_nat i < 2 ^ 18 - 1 -> take_tag f i = Ret (f', w) ->
  f' = MkGlobalFreeList (head f) (tag f + 1) /\ head_index w = i /\ w <> EMPTY /\ tag_of w = tag f.
Proof.
  intros Ht Hi E. destruct (decide (tag f < 2 ^ 46)) as [Hlt|Hge].
  - rewrite take_tag_ok in E by lia. injection E as <- <-. split; [done|].
    split; [apply head_index_entry; lia|]. split; [apply Entry_into_not_empty; lia|].
    unfold tag_of. by rewrite Entry_from_into by lia.
  - destruct (take_tag_overflow f i) as [x E']; [lia|]. congruence.
Qed.

Lemma wchain_insert storage w ws i s :
  i ∉ head_index <$> ws -> wchain storage w ws -> wchain (<[i := s]> storage) w ws.
Proof.
  revert w. induction ws as [|w' ws IH]; intros w; [done|].
  rewrite fmap_cons, not_elem_of_cons. intros [Hi Hn] (->&Hw&s'&Hs&Hc).
  split; [done|]. split; [done|]. exists s'.
  rewrite list_lookup_insert_ne by done. auto.
Qed.

(** A word that no thread has read as the head of the list. *)
Definition unread (x : Z) (p : pc) : Prop :=
  match p with PopLoaded old | PopRead old _ => old <> x | _ => True end.

(** What a thread knows survives the actions of the others. *)
Lemma pc_ok_mono (c c' : config) ws ws' pend pend' p :
  pc_ok c ws pend p ->
  tag (list_of c) <= tag (list_of c') -> length (storage_of c') = length (storage_of c) ->
  (forall x, x ∈ pend' -> x ∈ pend \/ unread x p) ->
  (forall x, x ∈ ws' -> x ∈ ws \/ x ∈ pend) ->
  (forall i w, pushing p = Some (i, w) -> storage_of c' !! i = storage_of c !! i) ->
  (forall x, x ∈ ws -> storage_of c' !! head_index x = storage_of c !! head_index x) ->
  pc_ok c' ws' pend' p.
Proof.
  intros Hp Ht Hlen Hpend Hws Hst1 Hst2. destruct p as [|i w|i w old|i w old| |old|old w]; try done.
  - destruct Hp as (?&?&s&Hs&?). simpl. split; [done|]. split; [done|]. exists s.
    by rewrite (Hst1 i w).
  - destruct Hp as (?&Hn&?&?). simpl. unfold next_tag in *. split_and!; [done| |lia|lia].
    intros Hx. by destruct (Hpend _ Hx).
  - destruct Hp as (?&Hn&?&Hr). simpl. unfold next_tag in *. split_and!; [done| |lia|].
    + intros Hx. by destruct (Hpend _ Hx).
    + intros Hx. destruct (Hws _ Hx) as [Hx'|]; [|done]. rewrite Hst2 by done. by apply Hr.
Qed.

Lemma treiber_inv_perm c ts ts' ws : ts ≡ₚ ts' -> treiber_inv c ts ws -> treiber_inv c ts' ws.
Proof.
  intros Hp [? Hs Hb Hw Ht ? ? Hth].
  assert (Hpend : pending ts ≡ₚ pending ts') by (unfold pending; by rewrite Hp).
  split; try done.
  - by rewrite <-Hpend.
  - by rewrite <-Hpend.
  - by rewrite <-Hpend.
  - by rewrite <-Hpend.
  - apply Forall_forall. intros p Hin. rewrite <-Hp in Hin. rewrite Forall_forall in Hth.
    pose proof (Hth _ Hin) as Hpc. eapply pc_ok_mono; [exact Hpc|lia|done| |by left|done|done].
    intros x Hx. left. by rewrite Hpend.
Qed.

Lemma pushing_in_pending (ts : list pc) p i w :
  p ∈ ts -> pushing p = Some (i, w) -> i ∈ (fst <$> pending ts) /\ w ∈ (snd <$> pending ts).
Proof.
  intros Hp E. assert (Hin : (i, w) ∈ pending ts) by (apply list_elem_of_omap; eauto).
  split; apply list_elem_of_fmap; by exists (i, w).
Qed.

Lemma pushing_index (c : config) ws pend p i w :
  pc_ok c ws pend p -> pushing p = Some (i, w) -> head_index w = i.
Proof. destruct p; intros Hp E; simplify_eq/=; apply Hp. Qed.

Lemma pending_cons p ts :
  pending (p :: ts) = match pushing p with Some x => x :: pending ts | None => pending ts end.
Proof. done. Qed.

(** The acting thread, and a configuration for the others in which only
    what they do not rely on changed. *)
Lemma others_ok (c c' : config) ws ws' p ts pend' :
  Forall (pc_ok c ws (snd <$> pending (p :: ts))) ts ->
  tag (list_of c) <= tag (list_of c') -> length (storage_of c') = length (storage_of c) ->
  (forall x, x ∈ pend' -> x ∈ (snd <$> pending (p :: ts)) \/ Forall (unread x) ts) ->
  (forall x, x ∈ ws' -> x ∈ ws \/ x ∈ (snd <$> pending (p :: ts))) ->
  (forall i, i ∈ (head_index <$> ws) ++ (fst <$> pending ts) ->
     storage_of c' !! i = storage_of c !! i) ->
  Forall (pc_ok c' ws' pend') ts.
Proof.
  intros Hall Ht Hlen Hpend Hws Hst. apply Forall_forall. intros q Hq.
  rewrite Forall_forall in Hall. apply (pc_ok_mono c c' ws ws' _ pend' q (Hall q Hq)); try done.
  - intros x Hx. destruct (Hpend x Hx) as [?|Hu]; [by left|right].
    rewrite Forall_forall in Hu. by apply Hu.
  - intros i w E. apply Hst, elem_of_app. right. by eapply pushing_in_pending.
  - intros x Hx. apply Hst, elem_of_app. left. by apply list_elem_of_fmap_2.
Qed.

Definition stack_of (ws : list Z) : list nat := head_index <$> ws.

(** How one action changes the words of the list. *)
Inductive list_step : list Z -> option event -> list Z -> Prop :=
  | list_same ws : list_step ws None ws
  | list_push ws w : list_step ws (Some (Pushed (head_index w))) (w :: ws)
  | list_pop ws w : list_step (w :: ws) (Some (Popped (Some (head_index w)))) ws
  | list_empty : list_step [] (Some (Popped None)) [].

(** Nobody has read the word that a clear push takes. *)
Lemma push_unread f st owned pend ts ws i w :
  Forall (pc_ok (MkConfig f st owned) ws pend) ts -> push_clear f ts i -> 0 <= tag f ->
  head_index w = i -> tag_of w = tag f -> Forall (unread w) ts.
Proof.
  intros Hth Hcl Htag Hi Htw. apply Forall_forall. intros p Hp. rewrite Forall_forall in Hth.
  specialize (Hth p Hp). unfold push_clear in Hcl. apply Is_true_true, orb_true_iff in Hcl as [H0|Hr].
  - apply bool_decide_eq_true in H0.
    destruct p; try done; destruct Hth as (_&_&Hlt&_); unfold next_tag in Hlt; simpl in Hlt |- *;
      intros ->; lia.
  - rewrite forallb_forall in Hr. specialize (Hr p ltac:(by apply list_elem_of_In)).
    apply negb_true_iff in Hr.
    destruct p; try done; simpl in Hr |- *; apply bool_decide_eq_false in Hr; by intros ->.
Qed.

Lemma action_push_start f st owned owned' i f' w ts ws :
  treiber_inv (MkConfig f st owned) (Idle :: ts) ws -> push_clear f ts i ->
  owned ≡ₚ i :: owned' -> take_tag f i = Ret (f', w) ->
  treiber_inv (MkConfig f' st owned') (PushTagged i w :: ts) ws.
Proof.
  intros [Hc Hs Hb Hw Ht Htag Hsz Hth] Hcl Ho E. rewrite pending_cons in *. simpl in *.
  assert (Hi : (i < length st)%nat).
  { rewrite Ho in Hb. rewrite Forall_forall in Hb. apply Hb. set_solver. }
  destruct (take_tag_inv f i f' w) as (->&Hi'&He&Htw); [done|lia|done|].
  split; try done.
  - rewrite pending_cons. simpl. rewrite Ho in Hs.
    assert (Hp : forall l k : list nat, l ++ i :: k ++ owned' ≡ₚ l ++ k ++ i :: owned')
      by (intros; solve_Permutation). by rewrite Hp.
  - rewrite pending_cons. simpl. rewrite Ho in Hb.
    assert (Hp : forall l k : list nat, l ++ i :: k ++ owned' ≡ₚ l ++ k ++ i :: owned')
      by (intros; solve_Permutation). by rewrite Hp.
  - rewrite pending_cons. simpl. rewrite <-Permutation_middle. apply NoDup_cons. split; [|done].
    rewrite Ho in Hs. intros [Hin|Hin]%elem_of_app.
    + apply NoDup_app in Hs as (_&Hd&_). apply (Hd i); [|set_solver].
      apply list_elem_of_fmap. by exists w.
    + apply list_elem_of_fmap in Hin as ([j w']&->&Hin). simpl in Hi'.
      apply list_elem_of_omap in Hin as (p&Hp&Ep). apply Forall_cons_1 in Hth as [_ Hth].
      rewrite Forall_forall in Hth. pose proof (pushing_index _ _ _ _ _ _ (Hth p Hp) Ep) as Hj.
      apply NoDup_app in Hs as (_&_&Hs). apply NoDup_app in Hs as (_&Hd&_).
      destruct (pushing_in_pending ts p j w' Hp Ep) as [Hin _]. apply (Hd j Hin). simpl. set_solver.
  - rewrite pending_cons. simpl. unfold next_tag in *. simpl. rewrite <-Permutation_middle.
    constructor; [lia|]. eapply Forall_impl; [exact Ht|]. simpl. lia.
  - simpl. lia.
  - apply Forall_cons_1 in Hth as [_ Hth]. rewrite pending_cons. simpl. constructor; [done|].
    eapply (others_ok (MkConfig f st owned) _ ws ws Idle ts); [exact Hth| |done| |by left|done];
      simpl; [lia|]. intros x [->|Hx]%elem_of_cons; [right|by left]. by eapply push_unread.
Qed.

Lemma action_set_next f st owned i s p p' ts ws n :
  treiber_inv (MkConfig f st owned) (p :: ts) ws ->
  st !! i = Some s -> i ∉ (head_index <$> ws) ++ (fst <$> pending ts) -> pushing p' = pushing p ->
  pc_ok (MkConfig f (<[i := set_next s n]> st) owned) ws (snd <$> pending (p :: ts)) p' ->
  treiber_inv (MkConfig f (<[i := set_next s n]> st) owned) (p' :: ts) ws.
Proof.
  intros [Hc Hs Hb Hw Ht Htag Hsz Hth] Hi Hn Ep Hok.
  assert (E : pending (p' :: ts) = pending (p :: ts)) by (rewrite !pending_cons; by rewrite Ep).
  split; rewrite ?E; try done; simpl.
  - apply wchain_insert; [|done]. set_solver.
  - by rewrite length_insert.
  - by rewrite length_insert.
  - constructor; [done|]. apply Forall_cons_1 in Hth as [_ Hth].
    eapply (others_ok (MkConfig f st owned) _ ws ws p ts); [exact Hth|done|simpl; by rewrite length_insert|by left|by left|].
    intros j Hj. simpl. apply list_lookup_insert_ne. by intros ->.
Qed.

(** Actions that only move the thread. *)
Lemma action_local c p p' ts ws :
  treiber_inv c (p :: ts) ws -> pushing p' = pushing p ->
  pc_ok c ws (snd <$> pending (p :: ts)) p' -> treiber_inv c (p' :: ts) ws.
Proof.
  intros [Hc Hs Hb Hw Ht Htag Hsz Hth] Ep Hok.
  assert (E : pending (p' :: ts) = pending (p :: ts)) by (rewrite !pending_cons; by rewrite Ep).
  split; rewrite ?E; try done. apply Forall_cons_1 in Hth as [_ Hth]. by constructor.
Qed.

Lemma action_push_succeed f f' st owned i w old ts ws :
  treiber_inv (MkConfig f st owned) (PushLinked i w old :: ts) ws ->
  exchange_head f old w = Some f' ->
  treiber_inv (MkConfig f' st owned) (Idle :: ts) (w :: ws) /\ head_index w = i.
Proof.
  intros [Hc Hs Hb Hw Ht Htag Hsz Hth] E. apply exchange_head_inv in E as [<- ->].
  apply Forall_cons_1 in Hth as [(Hi&Hne&s&Hs'&Hn) Hth]. split; [|done].
  rewrite pending_cons in *. simpl in *.
  assert (Hp : (head_index <$> ws) ++ i :: (fst <$> pending ts) ++ owned ≡ₚ
               (head_index <$> w :: ws) ++ (fst <$> pending ts) ++ owned).
  { rewrite fmap_cons, Hi. simpl. solve_Permutation. }
  assert (Hpw : ws ++ w :: (snd <$> pending ts) ≡ₚ (w :: ws) ++ (snd <$> pending ts))
    by (simpl; solve_Permutation).
  rewrite Hp in Hs, Hb. rewrite Hpw in Hw, Ht.
  split; try done; simpl.
  - split; [done|]. split; [done|]. exists s. rewrite Hi, Hn. done.
  - constructor; [done|].
    eapply (others_ok (MkConfig f st owned) _ ws (w :: ws) (PushLinked i w (head f)) ts);
      rewrite ?pending_cons; simpl; [exact Hth|done|done| | |done].
    + intros x Hx. left. by right.
    + intros x [->|Hx]%elem_of_cons; [right; by left|by left].
Qed.

Lemma action_pop_succeed f f' st owned old w ts ws :
  treiber_inv (MkConfig f st owned) (PopRead old w :: ts) ws ->
  exchange_head f old w = Some f' ->
  exists ws', ws = old :: ws' /\
    treiber_inv (MkConfig f' st (head_index old :: owned)) (Idle :: ts) ws'.
Proof.
  intros [Hc Hs Hb Hw Ht Htag Hsz Hth] E. apply exchange_head_inv in E as [<- ->].
  apply Forall_cons_1 in Hth as [(Hne&Hnp&Htg&Hr) Hth]. simpl in *.
  destruct ws as [|w' ws]; [by destruct Hne|]. destruct Hc as (Hh&_&s&Hs'&Hc). subst w'.
  destruct Hr as (s2&Hs2&<-); [by left|]. rewrite Hs' in Hs2. injection Hs2 as <-.
  exists ws. split; [done|].
  assert (Hp : (head_index <$> head f :: ws) ++ (fst <$> pending ts) ++ owned ≡ₚ
               (head_index <$> ws) ++ (fst <$> pending ts) ++ head_index (head f) :: owned).
  { rewrite fmap_cons. simpl. solve_Permutation. }
  assert (Hs2 : NoDup ((head_index <$> ws) ++ (fst <$> pending ts) ++ head_index (head f) :: owned))
    by (rewrite <-Hp; exact Hs).
  assert (Hb2 : Forall (fun i => i < length st)%nat
    ((head_index <$> ws) ++ (fst <$> pending ts) ++ head_index (head f) :: owned))
    by (rewrite <-Hp; exact Hb).
  split; try done; simpl.
  - by apply NoDup_cons in Hw as [_ ?].
  - by apply Forall_cons in Ht as [_ ?].
  - constructor; [done|].
    eapply (others_ok (MkConfig f st owned) _ (head f :: ws) ws Idle ts);
      rewrite ?pending_cons; simpl; [exact Hth|done|done|by left| |].
    + intros x Hx. left. by right.
    + intros i Hx. done.
Qed.

(** Every action keeps the invariant and does to the list what its event
    says. *)
Lemma action_inv c p e c' p' ts ws :
  action c p e c' p' -> clear_at (list_of c) ts p p' -> treiber_inv c (p :: ts) ws ->
  exists ws', list_step ws e ws' /\ treiber_inv c' (p' :: ts) ws'.
Proof.
  intros Ha Hcl Hi.
  destruct Ha as [f st owned owned' i f' w Ho E|f st owned i w|f st st' owned i w old E
    |f f' st owned i w old E|f st owned i w old E|c|f st owned He|f st owned He
    |f st owned old w E|f f' st owned old w E|f st owned old w E|f st st' owned i w Hin E].
  - exists ws. split; [constructor|]. by eapply action_push_start.
  - exists ws. split; [constructor|]. eapply action_local; [exact Hi|done|].
    pose proof (ti_threads _ _ _ Hi) as Hth. by apply Forall_cons_1 in Hth as [? _].
  - exists ws. split; [constructor|]. apply link_slot_inv in E as (s&Hs&->).
    pose proof (ti_threads _ _ _ Hi) as Hth. apply Forall_cons_1 in Hth as [[Hw He] _].
    eapply action_set_next; [exact Hi|done| |done|].
    + pose proof (ti_slots _ _ _ Hi) as Hn. rewrite pending_cons in Hn. simpl in Hn.
      rewrite <-Permutation_middle in Hn. apply NoDup_cons in Hn as [Hn _]. set_solver.
    + split; [done|]. split; [done|]. exists (set_next s old). split; [|done]. simpl.
      apply list_lookup_insert_eq. by eapply lookup_lt_Some.
  - destruct (action_push_succeed _ _ _ _ _ _ _ _ _ Hi E) as [? <-].
    exists (w :: ws). split; [constructor|done].
  - exists ws. split; [constructor|]. eapply action_local; [exact Hi|done|].
    pose proof (ti_threads _ _ _ Hi) as Hth. by apply Forall_cons_1 in Hth as [(?&?&_) _].
  - exists ws. split; [constructor|]. by eapply action_local.
  - exists ws. assert (ws = []) as ->.
    { pose proof (ti_chain _ _ _ Hi) as Hc. destruct ws as [|w ws]; [done|].
      by destruct Hc as (_&?&_). }
    split; [constructor|]. by eapply action_local.
  - exists ws. split; [constructor|]. eapply action_local; [exact Hi|done|].
    pose proof (ti_chain _ _ _ Hi) as Hc. destruct ws as [|w ws]; [done|].
    destruct Hc as (Hh&_&s&Hs&_). simpl in Hh. subst w. split; [done|]. split; [|split].
    + pose proof (ti_words _ _ _ Hi) as Hw. simpl in Hw. apply NoDup_cons in Hw as [Hw _].
      set_solver.
    + pose proof (ti_tags _ _ _ Hi) as Ht. by apply Forall_cons in Ht as [? _].
    + by eapply lookup_lt_Some.
  - exists ws. split; [constructor|]. eapply action_local; [exact Hi|done|].
    pose proof (ti_threads _ _ _ Hi) as Hth. apply Forall_cons_1 in Hth as [(?&?&?&_) _].
    split; [done|]. split; [done|]. split; [done|]. intros _. simpl.
    unfold slot_next in E. rust_inv E. apply index_inv in Hx. eauto.
  - destruct (action_pop_succeed _ _ _ _ _ _ _ _ Hi E) as (ws'&->&?).
    exists ws'. split; [constructor|done].
  - exists ws. split; [constructor|]. by eapply action_local.
  - exists ws. split; [constructor|]. apply link_slot_inv in E as (s&Hs&->).
    eapply action_set_next; [exact Hi|done| |done|done].
    pose proof (ti_slots _ _ _ Hi) as Hn. rewrite app_assoc in Hn.
    apply NoDup_app in Hn as (_&Hn&_). intros Hin'. by apply (Hn i Hin').
Qed.

Lemma step_inv x e y ws :
  clear_step x e y -> treiber_inv x.1 x.2 ws ->
  exists ws', list_step ws e ws' /\ treiber_inv y.1 y.2 ws'.
Proof.
  intros [c c' t1 p p' t2 e' Ha Hcl] Hi. simpl in *.
  assert (Hp : forall q : pc, t1 ++ q :: t2 ≡ₚ q :: t1 ++ t2) by (intros; solve_Permutation).
  destruct (action_inv _ _ _ _ _ (t1 ++ t2) ws Ha Hcl) as (ws'&?&Hi').
  { eapply treiber_inv_perm; [apply Hp|exact Hi]. }
  exists ws'. split; [done|]. eapply treiber_inv_perm; [symmetry; apply Hp|exact Hi'].
Qed.

Lemma list_step_stack ws e ws' :
  list_step ws (Some e) ws' -> stack_step (stack_of ws) e (stack_of ws').
Proof. inversion 1; subst; constructor. Qed.

(** No slot is lost or duplicated: the list, the slots being pushed and
    the owned ones stay the same multiset. *)
Definition all_slots (c : config) (ts : list pc) (l : list nat) : list nat :=
  l ++ (fst <$> pending ts) ++ owned_of c.

Lemma action_slots c p e c' p' ts ws ws' :
  action c p e c' p' -> list_step ws e ws' ->
  all_slots c' (p' :: ts) (stack_of ws') ≡ₚ all_slots c (p :: ts) (stack_of ws).
Proof.
  unfold all_slots, stack_of. intros Ha Hl.
  destruct Ha as [f st owned owned' i f' w Ho E|f st owned i w|f st st' owned i w old E
    |f f' st owned i w old E|f st owned i w old E|c|f st owned He|f st owned He
    |f st owned old w E|f f' st owned old w E|f st owned old w E|f st st' owned i w Hin E];
    inversion Hl; subst; rewrite ?pending_cons; cbn [pushing owned_of fst]; try done;
    rewrite ?fmap_cons; cbn [fst].
  - rewrite Ho. solve_Permutation.
  - solve_Permutation.
  - match goal with E : head_index _ = _ |- _ => rewrite E end. solve_Permutation.
Qed.

Lemma step_slots x e y ws ws' :
  clear_step x e y -> list_step ws e ws' ->
  all_slots y.1 y.2 (stack_of ws') ≡ₚ all_slots x.1 x.2 (stack_of ws).
Proof.
  intros [c c' t1 p p' t2 e' Ha _] Hl. simpl in *.
  pose proof (action_slots _ _ _ _ _ (t1 ++ t2) _ _ Ha Hl) as H. unfold all_slots, pending in *.
  assert (Hp : forall q : pc, t1 ++ q :: t2 ≡ₚ q :: t1 ++ t2) by (intros; solve_Permutation).
  by rewrite (Hp p), (Hp p').
Qed.

Lemma execution_slots x es y ws :
  execution clear_step x es y -> treiber_inv x.1 x.2 ws ->
  exists ws', stack_trace (stack_of ws) es (stack_of ws') /\ treiber_inv y.1 y.2 ws' /\
    all_slots y.1 y.2 (stack_of ws') ≡ₚ all_slots x.1 x.2 (stack_of ws).
Proof.
  intros He. revert ws. induction He as [x|x y z es Hs _ IH|x y z e es Hs _ IH]; intros ws Hi.
  - exists ws. split; [constructor|done].
  - destruct (step_inv _ _ _ _ Hs Hi) as (ws1&Hl&Hi1). pose proof (step_slots _ _ _ _ _ Hs Hl) as Hp.
    inversion Hl; subst. destruct (IH _ Hi1) as (ws2&?&?&Hp2). exists ws2.
    split_and!; [done|done|]. by rewrite Hp2.
  - destruct (step_inv _ _ _ _ Hs Hi) as (ws1&Hl&Hi1). pose proof (step_slots _ _ _ _ _ Hs Hl) as Hp.
    destruct (IH _ Hi1) as (ws2&?&?&Hp2). exists ws2.
    split_and!; [|done|by rewrite Hp2]. econstructor; [by apply list_step_stack|done].
Qed.

(** The words of a list of at most [n] slots whose head is [w]. *)
Fixpoint words (n : nat) storage (w : Z) : list Z :=
  if decide (w = EMPTY) then []
  else match n with
       | O => []
       | S n =>
           match storage !! head_index w with
           | Some s => w :: words n storage (next s)
           | None => []
           end
       end.

Lemma chain_words storage (w : Z) l n :
  chain head_index storage w l -> (length l <= n)%nat ->
  wchain storage w (words n storage w) /\ head_index <$> words n storage w = l.
Proof.
  revert w l. induction n as [|n IH]; intros w l Hc Hn.
  - destruct l; [|simpl in Hn; lia]. simpl in Hc |- *. by rewrite decide_True.
  - destruct l as [|i l]; simpl in Hc |- *; [by rewrite decide_True|].
    destruct Hc as (Hw&<-&s&Hs&Hc). rewrite decide_False, Hs by done.
    destruct (IH (next s) l Hc) as [Hw' E]; [simpl in Hn; lia|].
    split; [|by rewrite fmap_cons, E]. split; [done|]. split; [done|]. by exists s.
Qed.

Lemma pending_idle n : pending (replicate n Idle) = [].
Proof. by induction n. Qed.

(** The list as it was made, by [new] or by [new_empty], with the slots [l]
    on it: nothing has been pushed, and all entries carry tag 0. *)
Record initial (c : config) (l : list nat) : Prop := {
  in_tag : tag (list_of c) = 0;
  in_chain : chain head_index (storage_of c) (head (list_of c)) l;
  in_entries : Forall (fun w => tag_of w = 0) (words (length l) (storage_of c) (head (list_of c)));
  in_slots : NoDup (l ++ owned_of c);
  in_owned : Forall (fun i => i < length (storage_of c))%nat (owned_of c);
  in_size : Z.of_nat (length (storage_of c)) < 2 ^ 18;
}.

Lemma initial_inv (c : config) l n :
  initial c l -> exists ws, stack_of ws = l /\ treiber_inv c (replicate n Idle) ws.
Proof.
  intros [Htag Hc Ht Hnd Hb Hsz]. destruct (chain_words _ _ _ _ Hc (le_n _)) as [Hw El].
  eexists. split; [exact El|]. split; rewrite ?pending_idle; simpl; rewrite ?El, ?app_nil_r; try done.
  - apply Forall_app. split; [by eapply chain_lt|done].
  - apply NoDup_app in Hnd as [Hnd _]. rewrite <-El in Hnd. by eapply NoDup_fmap_1.
  - unfold next_tag. eapply Forall_impl; [exact Ht|]. simpl. lia.
  - lia.
  - by apply Forall_replicate.
Qed.

(** A list that starts empty, with every slot in somebody's hands. *)
Definition start_config (st : list (Slot T)) owned : config :=
  MkConfig global_new_empty st owned.

Lemma start_initial st owned :
  NoDup owned -> Forall (fun i => i < length st)%nat owned ->
  Z.of_nat (length st) < 2 ^ 18 -> initial (start_config st owned) [].
Proof. intros. by split. Qed.

(** The list of a new slab has all its slots. *)
Definition slab_config (SIZE : nat) : config :=
  MkConfig (global_new 0) (fresh_slots SIZE) [].

Lemma slab_config_new `{Topology} SIZE (sl : Slab T) :
  slab_new SIZE = Ret sl -> slab_config SIZE = MkConfig (global_free_list sl) (slots sl) [].
Proof. rewrite slab_new_eq. case_decide; [|done]. by intros [= <-]. Qed.

Lemma new_words SIZE k i :
  Z.of_nat SIZE < 2 ^ 18 -> (i + S k = SIZE)%nat ->
  words (S k) (fresh_slots SIZE) (Z.of_nat i) = Z.of_nat <$> seq i (S k).
Proof.
  intros Hsz. assert (Hstep : forall m i, (i < SIZE)%nat ->
    words (S m) (fresh_slots SIZE) (Z.of_nat i) =
    Z.of_nat i :: words m (fresh_slots SIZE) (fresh_next SIZE i)).
  { intros m j Hj. cbn [words]. rewrite decide_False by (unfold EMPTY; lia).
    assert (Hh : head_index (Z.of_nat j) = j)
      by (unfold head_index; rewrite Entry_from_small by lia; simpl; lia).
    by rewrite Hh, fresh_slots_lookup by lia. }
  revert i. induction k as [|k IH]; intros i Hi; rewrite Hstep by lia; unfold fresh_next.
  - rewrite decide_True by lia. done.
  - rewrite decide_False by lia. rewrite Nat.add_1_r, IH by lia. done.
Qed.

Lemma slab_initial SIZE :
  (0 < SIZE)%nat -> Z.of_nat SIZE < 2 ^ 18 -> initial (slab_config SIZE) (seq 0 SIZE).
Proof.
  intros Hpos Hsz. destruct SIZE as [|k]; [lia|].
  split; cbn [slab_config list_of storage_of owned_of].
  - done.
  - by apply (fresh_chain (S k) k 0).
  - rewrite length_seq. change (head (global_new 0)) with (Z.of_nat 0). rewrite new_words by lia.
    apply Forall_fmap, Forall_forall. intros i Hi%elem_of_seq. simpl. unfold tag_of.
    by rewrite Entry_from_small by lia.
  - rewrite app_nil_r. apply NoDup_seq.
  - constructor.
  - unfold fresh_slots. by rewrite length_fmap, length_seq.
Qed.

Lemma start_inv st owned n :
  NoDup owned -> Forall (fun i => i < length st)%nat owned ->
  Z.of_nat (length st) < 2 ^ 18 -> treiber_inv (start_config st owned) (replicate n Idle) [].
Proof.
  intros Hn Hb Hsz. destruct (initial_inv _ _ n (start_initial _ _ Hn Hb Hsz)) as (ws&E&Hi).
  destruct ws; [done|discriminate E].
Qed.

(** Actions of one thread while the others stand still. *)
Inductive solo : nat -> config -> pc -> config -> pc -> Prop :=
  | solo_done c p : solo 0 c p c p
  | solo_step n c p e c1 p1 c2 p2 :
      action c p e c1 p1 -> solo n c1 p1 c2 p2 -> solo (S n) c p c2 p2.

Lemma exchange_own f w : exchange_head f (head f) w = Some (MkGlobalFreeList w (tag f)).
Proof. unfold exchange_head. by rewrite decide_True. Qed.

Lemma link_slot_ok st i s w :
  st !! i = Some s -> link_slot (T := T) st i w = Ret (<[i := set_next s w]> st).
Proof. intros Hs. unfold link_slot, index. by rewrite Hs. Qed.

Lemma pushing_slot f st own p ts ws i w :
  treiber_inv (MkConfig f st own) (p :: ts) ws -> pushing p = Some (i, w) ->
  exists s, st !! i = Some s.
Proof.
  intros Hi Ep. pose proof (ti_bounds _ _ _ Hi) as Hb. rewrite pending_cons, Ep in Hb.
  apply Forall_app in Hb as [_ [Hlt _]%Forall_app]. apply Forall_cons in Hlt as [Hlt _].
  by apply lookup_lt_is_Some_2 in Hlt.
Qed.

Lemma solo_push f st own i w s :
  st !! i = Some s -> exists c', solo 3 (MkConfig f st own) (PushTagged i w) c' Idle.
Proof.
  intros Hs. eexists. eapply solo_step; [apply push_load|].
  eapply solo_step; [apply push_link, link_slot_ok, Hs|].
  eapply solo_step; [apply push_succeed, exchange_own|]. constructor.
Qed.

Lemma solo_exchange f st own i w old s :
  st !! i = Some s ->
  exists k c', (k <= 4)%nat /\ solo k (MkConfig f st own) (PushLinked i w old) c' Idle.
Proof.
  intros Hs. destruct (exchange_head f old w) as [f'|] eqn:E.
  - do 2 eexists. split; [|eapply solo_step; [by apply push_succeed|constructor]]. lia.
  - destruct (solo_push f st own i w s Hs) as [c' Hc]. exists 4%nat, c'. split; [lia|].
    eapply solo_step; [by apply push_retry|exact Hc].
Qed.

Lemma solo_pop c ts ws :
  treiber_inv c ts ws -> exists k c', (k <= 3)%nat /\ solo k c PopStart c' Idle.
Proof.
  intros Hi. destruct c as [f st own]. pose proof (ti_chain _ _ _ Hi) as Hc. simpl in Hc.
  destruct ws as [|w ws].
  - do 2 eexists. split; [|eapply solo_step; [by apply pop_empty|constructor]]. lia.
  - destruct Hc as (<-&Hne&s&Hs&_). do 2 eexists.
    split; [|eapply solo_step; [by apply pop_load|];
             eapply solo_step; [apply pop_next; unfold slot_next, index; by rewrite Hs|];
             eapply solo_step; [apply pop_succeed, exchange_own|]; constructor]. lia.
Qed.
End treiber.
Arguments config T : clear implicits.

(** * Properties *)

Section treiber_properties.
Context {bits : ModularBitfield} {T : Type}.

(** C10. The global free list is linearizable. It starts as [new] made it
    for a new slab, with every slot on it ([slab_initial]), or as
    [new_empty] did ([start_initial]), and any number of processors push and
    pop, in any interleaving of their actions over sequentially consistent
    memory. The one condition is that the very first push be clear: while
    its entry takes tag 0, no other processor is in [pop] with the initial
    entry of the same slot in its hands; [new_slab_aba] shows that the
    property fails otherwise. Then the list behaves exactly like a stack, in
    the order of the successful exchanges (a failed pop in the order of its
    load), and every slot is at all times in exactly one place: on the list,
    being pushed, or owned by one processor. *)
Theorem treiber_linearizable n (c0 c : config T) l0 es ts :
  initial c0 l0 -> execution clear_step (c0, replicate n Idle) es (c, ts) ->
  exists l, stack_trace l0 es l /\
    l ++ (fst <$> pending ts) ++ owned_of c ≡ₚ l0 ++ owned_of c0 /\
    NoDup (l ++ (fst <$> pending ts) ++ owned_of c).
Proof.
  intros Hin He. destruct (initial_inv c0 l0 n Hin) as (ws0&<-&Hi).
  destruct (execution_slots _ _ _ ws0 He Hi) as (ws&Ht&Hi'&Hp).
  exists (stack_of ws). split; [exact Ht|]. split; [|apply Hi'].
  unfold all_slots in Hp. simpl in Hp. by rewrite pending_idle in Hp.
Qed.

(** A [push] or [pop] that is left alone finishes: in every reachable
    state, a thread inside either loop returns within six of its own
    actions once the other processors stop. *)
Theorem treiber_solo_termination n (c0 c : config T) l0 es p ts :
  initial c0 l0 -> execution clear_step (c0, replicate n Idle) es (c, p :: ts) ->
  exists k c', (k <= 6)%nat /\ solo k c p c' Idle.
Proof.
  intros Hin He. destruct (initial_inv c0 l0 n Hin) as (ws0&_&Hi0).
  destruct (execution_slots _ _ _ ws0 He Hi0) as (ws&_&Hi&_). simpl in Hi. clear He Hi0 Hin.
  destruct c as [f st' own].
  assert (Hpush : forall i w, pushing p = Some (i, w) ->
    exists s, st' !! i = Some s) by (intros; by eapply pushing_slot).
  pose proof (solo_pop _ _ _ Hi) as Hpop.
  pose proof (ti_threads _ _ _ Hi) as Hth. apply Forall_cons_1 in Hth as [Hp _].
  destruct p as [|i w|i w old|i w old| |old|old w]; simpl in Hp.
  - exists 0%nat, (MkConfig f st' own). split; [lia|constructor].
  - destruct (Hpush i w eq_refl) as [s Hs]. destruct (solo_push f st' own i w s Hs) as [c' ?].
    by exists 3%nat, c'; split; [lia|].
  - destruct (Hpush i w eq_refl) as [s Hs].
    assert (Hs2 : <[i := set_next s old]> st' !! i = Some (set_next s old))
      by (apply list_lookup_insert_eq; by eapply lookup_lt_Some).
    destruct (solo_exchange f (<[i := set_next s old]> st') own i w old _ Hs2) as (k&c'&?&?).
    exists (S k), c'. split; [lia|]. by eapply solo_step; [apply push_link, link_slot_ok, Hs|].
  - destruct (Hpush i w eq_refl) as [s Hs].
    destruct (solo_exchange f st' own i w old s Hs) as (k&c'&?&?). exists k, c'. by split; [lia|].
  - destruct Hpop as (k&c'&?&Hs). exists k, c'. split; [lia|exact Hs].
  - destruct Hp as (_&_&_&Hlt). destruct (lookup_lt_is_Some_2 _ _ Hlt) as [s Hs].
    destruct (exchange_head f old (next s)) as [f'|] eqn:E.
    + do 2 eexists. split; [|eapply solo_step;
        [apply pop_next; unfold slot_next, index; by rewrite Hs|];
        eapply solo_step; [by apply pop_succeed|constructor]]. lia.
    + destruct Hpop as (k&c'&?&Hs'). exists (S (S k)), c'. split; [lia|].
      eapply solo_step; [apply pop_next; unfold slot_next, index; by rewrite Hs|].
      eapply solo_step; [by apply pop_retry|exact Hs'].
  - destruct (exchange_head f old w) as [f'|] eqn:E.
    + do 2 eexists. split; [|eapply solo_step; [by apply pop_succeed|constructor]]. lia.
    + destruct Hpop as (k&c'&?&Hs'). exists (S k), c'. split; [lia|].
      eapply solo_step; [by apply pop_retry|exact Hs'].
Qed.
End treiber_properties.

(** * A new slab *)

Section new_slab.
#[local] Existing Instance lsb_first.
#[local] Existing Instance x86_64_topology.

Definition three_slots : config unit := slab_config 3.

(** The first thread reads the head of the list, slot 0, and its
    successor, slot 1. The second takes both slots and pushes slot 0
    back. *)
Definition aba_events : list event :=
  [Popped (Some 0); Popped (Some 1); Pushed 0; Popped (Some 0); Popped (Some 1)]%nat.

Ltac first_acts tac :=
  first [eapply exec_event; [eapply (thread_step _ _ [] _ _ [_]); tac|]
        |eapply exec_silent; [eapply (thread_step _ _ [] _ _ [_]); tac|]]; cbn [app].
Ltac second_acts tac :=
  first [eapply exec_event; [eapply (thread_step _ _ [_] _ _ []); tac|]
        |eapply exec_silent; [eapply (thread_step _ _ [_] _ _ []); tac|]]; cbn [app].

Ltac close_act := vm_compute; reflexivity.

Lemma pop_succeed_eq f f' (st : list (Slot unit)) owned old w i :
  head_index old = i -> exchange_head f old w = Some f' ->
  action (MkConfig f st owned) (PopRead old w) (Some (Popped (Some i)))
         (MkConfig f' st (i :: owned)) Idle.
Proof. intros <-. apply pop_succeed. Qed.

Lemma aba_execution :
  exists c, execution step (three_slots, [Idle; Idle]) aba_events (c, [Idle; Idle]) /\
    owned_of c = [1; 0; 1]%nat.
Proof.
  unfold aba_events. set (x := three_slots). vm_compute in x. subst x.
  eexists. split.
  - first_acts ltac:(apply start_pop).
    first_acts ltac:(apply pop_load; done).
    first_acts ltac:(apply pop_next; close_act).
    second_acts ltac:(apply start_pop).
    second_acts ltac:(apply pop_load; done).
    second_acts ltac:(apply pop_next; close_act).
    second_acts ltac:(apply pop_succeed_eq; close_act).
    second_acts ltac:(apply start_pop).
    second_acts ltac:(apply pop_load; done).
    second_acts ltac:(apply pop_next; close_act).
    second_acts ltac:(apply pop_succeed_eq; close_act).
    second_acts ltac:(eapply (start_push _ _ _ [1%nat] 0%nat); [apply Permutation_swap|close_act]).
    second_acts ltac:(apply push_load).
    second_acts ltac:(apply push_link; close_act).
    second_acts ltac:(apply push_succeed; close_act).
    first_acts ltac:(apply pop_succeed_eq; close_act).
    second_acts ltac:(apply start_pop).
    second_acts ltac:(apply pop_load; done).
    second_acts ltac:(apply pop_next; close_act).
    second_acts ltac:(apply pop_succeed_eq; close_act).
    apply exec_nil.
  - vm_compute. reflexivity.
Qed.

(** The tag does not protect a new slab: its initial list carries tag
    0, and so does the first entry that is pushed, so that entry can equal
    a word that a concurrent [pop] has read before. From a new slab of
    three slots two processors then both obtain slot 1, which no stack
    allows. *)
Theorem new_slab_aba :
  initial three_slots [0; 1; 2]%nat /\
  exists c, execution step (three_slots, [Idle; Idle]) aba_events (c, [Idle; Idle]) /\
    owned_of c = [1; 0; 1]%nat /\ ~ NoDup (owned_of c) /\
    ~ exists l, stack_trace [0; 1; 2]%nat aba_events l.
Proof.
  split; [apply (slab_initial 3); lia|]. destruct aba_execution as (c&He&Ho). exists c.
  split; [exact He|]. split; [exact Ho|]. split.
  - rewrite Ho. intros [Hn _]%NoDup_cons. set_solver.
  - intros [l Ht]. inversion Ht as [|? l1 ? ? ? H1 Ht1]; subst. inversion H1; subst.
    inversion Ht1 as [|? l2 ? ? ? H2 Ht2]; subst. inversion H2; subst.
    inversion Ht2 as [|? l3 ? ? ? H3 Ht3]; subst. inversion H3; subst.
    inversion Ht3 as [|? l4 ? ? ? H4 Ht4]; subst. inversion H4; subst.
    inversion Ht4 as [|? l5 ? ? ? H5 Ht5]; subst. inversion H5.
Qed.

(** ** Witnesses *)

Ltac clear_acts tac :=
  first [eapply exec_event;
           [first [eapply (clear_thread_step _ _ [] _ _ [_]); [tac|done]
                  |eapply (clear_thread_step _ _ [_] _ _ []); [tac|done]]|]
        |eapply exec_silent;
           [first [eapply (clear_thread_step _ _ [] _ _ [_]); [tac|done]
                  |eapply (clear_thread_step _ _ [_] _ _ []); [tac|done]]|]]; cbn [app].

(** On a new slab of three slots, one thread pops slot 0; a second pops
    slot 1 and, while the first has read the head of the list again, makes
    the first push. *)
Definition clear_events : list event := [Popped (Some 0); Popped (Some 1); Pushed 1]%nat.

Lemma clear_push :
  exists c w, execution clear_step (three_slots, [Idle; Idle]) clear_events (c, [PopRead 2 w; Idle]).
Proof.
  unfold clear_events. set (x := three_slots). vm_compute in x. subst x. do 2 eexists.
  eapply exec_silent; [eapply (clear_thread_step _ _ [] _ _ [_]); [apply start_pop|done]|]. cbn [app].
  clear_acts ltac:(apply pop_load; done).
  clear_acts ltac:(apply pop_next; close_act).
  clear_acts ltac:(apply pop_succeed_eq; close_act).
  eapply exec_silent; [eapply (clear_thread_step _ _ [_] _ _ []); [apply start_pop|done]|]. cbn [app].
  clear_acts ltac:(apply pop_load; done).
  clear_acts ltac:(apply pop_next; close_act).
  clear_acts ltac:(apply pop_succeed_eq; close_act).
  eapply exec_silent; [eapply (clear_thread_step _ _ [] _ _ [_]); [apply start_pop|done]|]. cbn [app].
  clear_acts ltac:(apply pop_load; done).
  clear_acts ltac:(apply pop_next; close_act).
  eapply exec_silent; [eapply (clear_thread_step _ _ [_] _ _ []);
    [eapply (start_push _ _ _ [0%nat] 1%nat); [done|close_act]|by vm_compute]|]. cbn [app].
  clear_acts ltac:(apply push_load).
  clear_acts ltac:(apply push_link; close_act).
  clear_acts ltac:(apply push_succeed; close_act).
  apply exec_nil.
Qed.

Lemma treiber_linearizable_witness : exists l, stack_trace [0; 1; 2]%nat clear_events l.
Proof.
  destruct clear_push as (c&w&He).
  destruct (treiber_linearizable 2 three_slots c [0; 1; 2]%nat clear_events [PopRead 2 w; Idle]
    (slab_initial 3 ltac:(lia) ltac:(lia)) He) as (l&Ht&_). by exists l.
Defined.

Lemma treiber_solo_termination_witness :
  exists c w k c', (k <= 6)%nat /\ solo (T := unit) k c (PopRead 2 w) c' Idle.
Proof.
  destruct clear_push as (c&w&He).
  destruct (treiber_solo_termination 2 three_slots c [0; 1; 2]%nat clear_events (PopRead 2 w) [Idle]
    (slab_initial 3 ltac:(lia) ltac:(lia)) He) as (k&c'&?&?). by exists c, w, k, c'.
Defined.
End new_slab.
