(* ===== verification/SlabSteps.v ===== *)
(** The slab under concurrency, action by action ([slab/src/lib.rs],
    [slot.rs], [free_lists.rs]). Every processor runs one call at a time; a
    call is a sequence of actions, each with at most one access to memory
    that other processors can reach. [act] executes the next action of a
    call, [play] interleaves the actions of all processors. The exceptions
    are the accesses to a processor's own free list, which no other
    processor reaches: a push to it or a pop from it is one action. *)
From S2P Require Import Prelude Bitfields Topology Slot FreeLists Slab SlabSpec Treiber.

(** * Calls in progress *)

(** Where a processor is in its call. A position is before the access it is
    named after; what the code holds in local variables at that position
    are its arguments. *)
Inductive thread (T : Type) :=
  | Ready
  (** [insert]: the pop from the own list, the pop from the global list,
      and [allocate]: load and store of the lifecycle, contents, processor *)
  | PopLocal (v : T)
  | PopGlobal (v : T) (p : pc)
  | AllocLoad (v : T) (i : nat)
  | AllocStore (v : T) (i : nat) (w g : Z)
  | AllocWrite (v : T) (i : nat) (g : Z)
  | AllocSign (v : T) (i : nat) (g : Z)
  (** [get]: load, exchange *)
  | GetLoad (x : Idx)
  | GetExchange (x : Idx) (prev new : Z)
  (** [drop_reference]: load, exchange *)
  | DropLoad (r : Idx)
  | DropExchange (r : Idx) (prev new : Z) (should_clear : bool)
  (** [remove]: load, exchange *)
  | RemoveLoad (x : Idx)
  | RemoveExchange (x : Idx) (prev new : Z) (was_unallocated : bool)
  (** [return_slot], with [clear]: load and store of the lifecycle,
      contents, processor, and the push to one of the lists *)
  | ClearLoad (i : nat)
  | ClearStore (i : nat) (w : Z)
  | ClearDrop (i : nat)
  | ClearSign (i : nat)
  | Return (i : nat) (allocated_on : option ProcessorId)
  | PushGlobal (p : pc).
Arguments Ready {T}.
Arguments PopLocal {T}.
Arguments PopGlobal {T}.
Arguments AllocLoad {T}.
Arguments AllocStore {T}.
Arguments AllocWrite {T}.
Arguments AllocSign {T}.
Arguments GetLoad {T}.
Arguments GetExchange {T}.
Arguments DropLoad {T}.
Arguments DropExchange {T}.
Arguments RemoveLoad {T}.
Arguments RemoveExchange {T}.
Arguments ClearLoad {T}.
Arguments ClearStore {T}.
Arguments ClearDrop {T}.
Arguments ClearSign {T}.
Arguments Return {T}.
Arguments PushGlobal {T}.

(** * Actions *)

Section actions.
Context {prof : Profile} {bits : ModularBitfield} {T : Type}.
Implicit Types (sl : Slab T) (f : GlobalFreeList) (storage : list (Slot T)) (v : T) (i : nat) (x r : Idx).

(** [GlobalFreeList::pop]: the next position, or the result. *)
Definition pop_act f storage (p : pc) : rust (GlobalFreeList * (pc + option nat)) :=
  match p with
  | PopLoaded old_head =>
      new_head ← slot_next storage (head_index old_head);
      Ret (f, inl (PopRead old_head new_head))
  | PopRead old_head new_head =>
      match exchange_head f old_head new_head with
      | Some f => Ret (f, inr (Some (head_index old_head)))
      | None => Ret (f, inl PopStart)
      end
  | _ =>
      if decide (head f = EMPTY) then Ret (f, inr None)
      else Ret (f, inl (PopLoaded (head f)))
  end.

(** [GlobalFreeList::push] after its tag was taken. *)
Definition push_act f storage (p : pc) : rust (GlobalFreeList * list (Slot T) * pc) :=
  match p with
  | PushTagged i new_head => Ret (f, storage, PushLoaded i new_head (head f))
  | PushLoaded i new_head old_head =>
      storage ← link_slot storage i old_head;
      Ret (f, storage, PushLinked i new_head old_head)
  | PushLinked i new_head old_head =>
      match exchange_head f old_head new_head with
      | Some f => Ret (f, storage, Idle)
      | None => Ret (f, storage, PushTagged i new_head)
      end
  | p => Ret (f, storage, p)
  end.

Definition slot_of x : nat := Z.to_nat (idx_index x).

Definition with_global sl f : Slab T := MkSlab (local_free_list sl) f (slots sl).

(** What a thread does next and, when its call has taken effect, the call
    and its outcome. *)
Abbreviation outcome_of T := (thread T * option (call T * outcome T))%type.

(** The loops of [acquire_reference], [release_reference] and
    [mark_unallocated]: from the word last seen to the next exchange. *)
Definition try_acquire x (w : Z) : rust (outcome_of T) :=
  u ← acquire_update (idx_generation x) w;
  Ret match u with
      | Ok (new, _) => (GetExchange x w new, None)
      | Err _ => (Ready, Some (Get x, Got None))
      end.

Definition try_release r (w : Z) : rust (outcome_of T) :=
  u ← release_update (idx_generation r) w;
  match u with
  | Ok (new, should_clear) => Ret (DropExchange r w new should_clear, None)
  | Err _ => Panic ExpectFailed
  end.

Definition try_mark x (w : Z) : rust (outcome_of T) :=
  u ← mark_update (idx_generation x) w;
  Ret match u with
      | Ok (new, was_unallocated) => (RemoveExchange x w new was_unallocated, None)
      | Err _ => (Ready, Some (Remove x, Removed false))
      end.

(** An exchange of the lifecycle of slot [i]: the new slab, or the word
    that was there instead. [weak] exchanges may fail without reason. *)
Definition exchange_lifecycle sl i (prev new : Z) (fails : bool) : rust (Slab T + Z) :=
  s ← index (slots sl) i;
  Ret (if decide (lifecycle_word s = prev /\ fails = false)
       then inl (with_slot sl i (with_word s new)) else inr (lifecycle_word s)).

Definition keep sl (o : outcome_of T) : Slab T * thread T * option (call T * outcome T) :=
  (sl, o.1, o.2).

(** The next action of a processor's call. [fails] decides about the weak
    exchange of [fetch_update]. *)
Definition act (cpu : Z) (fails : bool) sl (th : thread T)
    : rust (Slab T * thread T * option (call T * outcome T)) :=
  match th with
  | Ready => Ret (sl, Ready, None)
  | PopLocal v =>
      '(lf, popped) ← local_pop (local_free_list sl) cpu (slots sl);
      Ret (MkSlab lf (global_free_list sl) (slots sl),
           match popped with Some i => AllocLoad v i | None => PopGlobal v PopStart end, None)
  | PopGlobal v p =>
      '(f, o) ← pop_act (global_free_list sl) (slots sl) p;
      Ret match o with
          | inl p => (with_global sl f, PopGlobal v p, None)
          | inr (Some i) => (with_global sl f, AllocLoad v i, None)
          | inr None => (with_global sl f, Ready, Some (Insert v, Full v))
          end
  | AllocLoad v i =>
      s ← index (slots sl) i;
      let l := load s in
      next_generation ← expect (checked_add usize_bound (generation l) 1);
      l ← set_generation l next_generation;
      let l := set_state l Allocated in
      _ ← debug_assert (bool_decide (refcount l = 0));
      Ret (sl, AllocStore v i (Lifecycle_into l) next_generation, None)
  | AllocStore v i w g =>
      s ← index (slots sl) i;
      Ret (with_slot sl i (with_word s w), AllocWrite v i g, None)
  | AllocWrite v i g =>
      s ← index (slots sl) i;
      Ret (with_slot sl i (MkSlot (lifecycle_word s) (Some v) (next s) (processor s)),
           AllocSign v i g, None)
  | AllocSign v i g =>
      s ← index (slots sl) i;
      x ← make_idx g i;
      Ret (with_slot sl i (MkSlot (lifecycle_word s) (contents s) (next s) (Some cpu)),
           Ready, Some (Insert v, Inserted x))
  | GetLoad x =>
      match slots sl !! slot_of x with
      | None => Ret (sl, Ready, Some (Get x, Got None))
      | Some s => o ← try_acquire x (lifecycle_word s); Ret (keep sl o)
      end
  | GetExchange x prev new =>
      u ← exchange_lifecycle sl (slot_of x) prev new false;
      match u with
      | inl sl => Ret (sl, Ready, Some (Get x, Got (Some x)))
      | inr actual => o ← try_acquire x actual; Ret (keep sl o)
      end
  | DropLoad r =>
      s ← index (slots sl) (slot_of r);
      o ← try_release r (lifecycle_word s);
      Ret (keep sl o)
  | DropExchange r prev new should_clear =>
      u ← exchange_lifecycle sl (slot_of r) prev new false;
      match u with
      | inl sl => Ret (sl, if should_clear then ClearLoad (slot_of r) else Ready,
                       Some (DropRef r, Dropped))
      | inr actual => o ← try_release r actual; Ret (keep sl o)
      end
  | RemoveLoad x =>
      match slots sl !! slot_of x with
      | None => Ret (sl, Ready, Some (Remove x, Removed false))
      | Some s => o ← try_mark x (lifecycle_word s); Ret (keep sl o)
      end
  | RemoveExchange x prev new was_unallocated =>
      u ← exchange_lifecycle sl (slot_of x) prev new fails;
      match u with
      | inl sl => Ret (sl, if was_unallocated then ClearLoad (slot_of x) else Ready,
                       Some (Remove x, Removed true))
      | inr actual => o ← try_mark x actual; Ret (keep sl o)
      end
  | ClearLoad i =>
      s ← index (slots sl) i;
      let l := load s in
      _ ← debug_assert (bool_decide (refcount l = 0));
      Ret (sl, ClearStore i (Lifecycle_into (set_state l Unallocated)), None)
  | ClearStore i w =>
      s ← index (slots sl) i;
      Ret (with_slot sl i (with_word s w), ClearDrop i, None)
  | ClearDrop i =>
      s ← index (slots sl) i;
      _ ← deref (contents s);
      Ret (with_slot sl i (MkSlot (lifecycle_word s) None (next s) (processor s)),
           ClearSign i, None)
  | ClearSign i =>
      s ← index (slots sl) i;
      Ret (with_slot sl i (MkSlot (lifecycle_word s) (contents s) (next s) None),
           Return i (processor s), None)
  | Return i allocated_on =>
      if decide (allocated_on = Some cpu) then
        '(lf, storage) ← local_push (local_free_list sl) cpu i (slots sl);
        Ret (MkSlab lf (global_free_list sl) storage, Ready, None)
      else
        '(f, w) ← take_tag (global_free_list sl) i;
        Ret (with_global sl f, PushGlobal (PushTagged i w), None)
  | PushGlobal p =>
      '(f, storage, p) ← push_act (global_free_list sl) (slots sl) p;
      Ret (MkSlab (local_free_list sl) f storage,
           match p with Idle => Ready | p => PushGlobal p end, None)
  end.

(** The first position of a call. Reading through a reference is a single
    action, see [do_move]. *)
Definition begin_call (c : call T) : thread T :=
  match c with
  | Insert v => PopLocal v
  | Remove x => RemoveLoad x
  | Get x => GetLoad x
  | DropRef r => DropLoad r
  | Deref _ => Ready
  end.

(** A processor that runs its call to the end while no other does anything. *)
Fixpoint alone (fuel : nat) (cpu : Z) sl (th : thread T) : rust (Slab T * list (call T * outcome T)) :=
  match th with
  | Ready => Ret (sl, [])
  | th =>
      match fuel with
      | O => Panic EndlessLoop
      | S fuel =>
          '(sl, th, e) ← act cpu false sl th;
          '(sl, es) ← alone fuel cpu sl th;
          Ret (sl, match e with Some e => e :: es | None => es end)
      end
  end.
End actions.

(** * The system *)

(** [known_of] are the indices that insertions have returned, [held_of] the
    references that are out and not being dropped. Processor [cpu] is at
    position [threads_of !! cpu]. *)
Record world (T : Type) := MkWorld {
  slab_of : Slab T;
  threads_of : list (thread T);
  held_of : list Idx;
  known_of : list Idx;
}.
Arguments MkWorld {T}.
Arguments slab_of {T}.
Arguments threads_of {T}.
Arguments held_of {T}.
Arguments known_of {T}.

(** What can happen next: a processor begins a call, reads through a
    reference, or executes the next action of its call. *)
Inductive move (T : Type) :=
  | Begin (cpu : nat) (c : call T)
  | Read (cpu : nat) (r : Idx)
  | Act (cpu : nat) (fails : bool).
Arguments Begin {T}.
Arguments Read {T}.
Arguments Act {T}.

Section system.
Context {prof : Profile} {bits : ModularBitfield} {T : Type}.
Implicit Types (w : world T) (c : call T) (th : thread T).

(** Dropping consumes one reference. *)
Fixpoint hand_back (r : Idx) (held : list Idx) : option (list Idx) :=
  match held with
  | [] => None
  | r' :: held => if decide (r' = r) then Some held else cons r' <$> hand_back r held
  end.

Lemma hand_back_Some r held held' : hand_back r held = Some held' -> held ≡ₚ r :: held'.
Proof.
  revert held'. induction held as [|r' held IH]; intros held' E; [done|]. simpl in E.
  case_decide as Er; [by simplify_eq|]. destruct (hand_back r held) as [h|]; [|done].
  simplify_eq/=. rewrite (IH h) by done. apply Permutation_swap.
Qed.

(** The references left to the client when it begins a call; only known
    indices are looked up or removed, only held references dropped. *)
Definition may_begin w c : option (list Idx) :=
  match c with
  | Insert _ => Some (held_of w)
  | Remove x | Get x => if decide (x ∈ known_of w) then Some (held_of w) else None
  | DropRef r => hand_back r (held_of w)
  | Deref _ => None
  end.

(** What the client learns from an outcome. *)
Definition learn w sl (cpu : nat) th (e : option (call T * outcome T)) : world T :=
  MkWorld sl (<[cpu := th]> (threads_of w))
    (match e with Some (_, Got (Some x)) => [x] | _ => [] end ++ held_of w)
    (match e with Some (_, Inserted x) => [x] | _ => [] end ++ known_of w).

(** A move that is not possible has no effect. *)
Definition do_move w (m : move T) : rust (world T * list (call T * outcome T)) :=
  match m with
  | Begin cpu c =>
      Ret (match threads_of w !! cpu, may_begin w c with
           | Some Ready, Some held =>
               MkWorld (slab_of w) (<[cpu := begin_call c]> (threads_of w)) held (known_of w)
           | _, _ => w
           end, [])
  | Read cpu r =>
      match threads_of w !! cpu with
      | Some Ready =>
          if decide (r ∈ held_of w) then
            v ← ref_deref (slab_of w) r; Ret (w, [(Deref r, Value v)])
          else Ret (w, [])
      | _ => Ret (w, [])
      end
  | Act cpu fails =>
      match threads_of w !! cpu with
      | Some th =>
          '(sl, th, e) ← act (Z.of_nat cpu) fails (slab_of w) th;
          Ret (learn w sl cpu th e, option_list e)
      | None => Ret (w, [])
      end
  end.

(** An execution: any moves in any order. The events are the calls in the
    order in which they take effect. *)
Fixpoint play w (ms : list (move T)) : rust (world T * list (call T * outcome T)) :=
  match ms with
  | [] => Ret (w, [])
  | m :: ms =>
      '(w, es) ← do_move w m;
      '(w, es') ← play w ms;
      Ret (w, es ++ es')
  end.

(** All processors between calls. *)
Definition at_rest `{Topology} (sl : Slab T) (held known : list Idx) : world T :=
  MkWorld sl (replicate (Z.to_nat MAX_PROCESSORS) Ready) held known.
End system.

(** * Alone, the actions make up the calls of [Slab] *)

Section alone.
Context {prof : Profile} {bits : ModularBitfield} {T : Type}.
Implicit Types (sl : Slab T) (v : T) (i : nat).

Lemma alone_step n cpu sl (th : thread T) :
  th <> Ready ->
  alone (S n) cpu sl th =
    ('(sl, th, e) ← act cpu false sl th;
     '(sl, es) ← alone n cpu sl th;
     Ret (sl, match e with Some e => e :: es | None => es end)).
Proof. by destruct th. Qed.

Lemma alone_ready n cpu sl : alone n cpu sl (Ready : thread T) = Ret (sl, []).
Proof. by destruct n. Qed.

Lemma with_slot_lookup sl i s s' :
  slots sl !! i = Some s -> slots (with_slot sl i s') !! i = Some s'.
Proof. intros Hi. apply list_lookup_insert_eq. by eapply lookup_lt_Some. Qed.

Lemma with_slot_twice sl i s s' : with_slot (with_slot sl i s) i s' = with_slot sl i s'.
Proof. unfold with_slot, with_slots. simpl. by rewrite list_insert_insert_eq. Qed.

(** One action, when the slot it works on is [s]. *)
Ltac act_on Hs :=
  rewrite alone_step by done; cbn [act]; unfold index at 1;
  rewrite Hs; cbn [mbind rust_bind].

(** The push to the global list: four actions. *)
Lemma alone_push n cpu sl i (w : Z) :
  (3 <= n)%nat ->
  alone n cpu sl (PushGlobal (PushTagged i w) : thread T) =
    (storage ← link_slot (slots sl) i (head (global_free_list sl));
     Ret (MkSlab (local_free_list sl) (MkGlobalFreeList w (tag (global_free_list sl))) storage, [])).
Proof.
  intros Hn. do 3 (destruct n as [|n]; [lia|]).
  cbn. destruct (link_slot _ _ _) as [st|]; [|done]. cbn.
  unfold exchange_head. rewrite decide_True by done. cbn. by rewrite alone_ready.
Qed.

(** [return_slot] from the clearing on: five actions and the push. *)
Lemma alone_return n cpu sl i :
  (8 <= n)%nat ->
  alone n cpu sl (ClearLoad i : thread T) = (sl ← return_slot sl i cpu; Ret (sl, [])).
Proof.
  intros Hn. do 5 (destruct n as [|n]; [lia|]).
  unfold return_slot, index. rewrite alone_step by done. cbn [act]. unfold index.
  destruct (slots sl !! i) as [s|] eqn:Hs; [|done]. cbn [mbind rust_bind].
  unfold clear. destruct (debug_assert _); cbn [mbind rust_bind]; [|done].
  act_on Hs. set (s1 := with_word s _).
  act_on (with_slot_lookup sl i s s1 Hs). rewrite with_slot_twice.
  change (contents s1) with (contents s). destruct (contents s); [|done].
  cbn [deref mbind rust_bind]. set (s2 := MkSlot _ None _ _).
  act_on (with_slot_lookup sl i s s2 Hs). rewrite with_slot_twice.
  change (processor s2) with (processor s). set (s3 := MkSlot _ _ _ None).
  change (MkSlot (Lifecycle_into (set_state (load s) Unallocated)) None (next s) None) with s3.
  set (sl' := with_slot sl i s3). rewrite alone_step by done. cbn [act]. case_decide.
  - destruct (local_push _ _ _ _) as [[lf st]|]; [|done]. cbn [mbind rust_bind].
    by rewrite alone_ready.
  - unfold global_push. destruct (take_tag _ _) as [[f w]|] eqn:Et; [|done]. cbn [mbind rust_bind].
    rewrite alone_push by lia. cbn [with_global global_free_list slots local_free_list].
    destruct (link_slot _ _ _); [|done]. cbn [mbind rust_bind]. unfold exchange_head.
    by rewrite decide_True.
Qed.

(** The pop: one action when the own list has a slot, otherwise up to four. *)
Lemma alone_pop n cpu sl v :
  (4 <= n)%nat ->
  exists k, (n <= k + 4)%nat /\
    alone n cpu sl (PopLocal v) =
    ('(sl, popped) ← pop_slot sl cpu;
     match popped with
     | Some i => alone k cpu sl (AllocLoad v i)
     | None => Ret (sl, [(Insert v, Full v)])
     end).
Proof.
  intros Hn. do 4 (destruct n as [|n]; [lia|]). unfold pop_slot.
  destruct (local_pop (local_free_list sl) cpu (slots sl)) as [[lf [i|]]|] eqn:E;
    [exists (3 + n)%nat|exists n|exists n]; (split; [lia|]);
    rewrite alone_step by done; cbn [act]; rewrite E; cbn [mbind rust_bind]; [|clear E|done].
  { by destruct (alone _ _ _ _) as [[]|]. }
  cbn. unfold global_pop. case_decide.
  - done.
  - cbn. destruct (slot_next _ _); [|done]. cbn. unfold exchange_head.
    rewrite decide_True by done. cbn. by destruct (alone _ _ _ _) as [[]|].
Qed.

(** [allocate] and what [insert] returns: four actions. *)
Lemma alone_allocate n cpu sl v i :
  (4 <= n)%nat ->
  alone n cpu sl (AllocLoad v i) =
    (slot ← index (slots sl) i;
     '(slot, generation) ← allocate slot v cpu;
     x ← make_idx generation i;
     Ret (with_slot sl i slot, [(Insert v, Inserted x)])).
Proof.
  intros Hn. do 4 (destruct n as [|n]; [lia|]).
  unfold index. rewrite alone_step by done. cbn [act]. unfold index.
  destruct (slots sl !! i) as [s|] eqn:Hs; [|done]. cbn [mbind rust_bind]. unfold allocate.
  destruct (expect _) as [g|]; [|done]. cbn [mbind rust_bind].
  destruct (set_generation _ _) as [l|]; [|done]. cbn [mbind rust_bind].
  destruct (debug_assert _); [|done]. cbn [mbind rust_bind].
  act_on Hs. set (s1 := with_word s _).
  act_on (with_slot_lookup sl i s s1 Hs). rewrite with_slot_twice. set (s2 := MkSlot _ _ _ _).
  act_on (with_slot_lookup sl i s s2 Hs). rewrite with_slot_twice.
  destruct (make_idx g i); [|done]. cbn [mbind rust_bind]. by rewrite alone_ready.
Qed.

(** An exchange that nothing interferes with. *)
Lemma exchange_alone sl i s (new : Z) :
  slots sl !! i = Some s ->
  exchange_lifecycle sl i (lifecycle_word s) new false = Ret (inl (with_slot sl i (with_word s new))).
Proof.
  intros Hs. unfold exchange_lifecycle, index. rewrite Hs. simpl. by rewrite decide_True.
Qed.

(** Run alone, the actions of a call do what [run_call] says, in at most
    ten actions: same result, same state, same panic. *)
Lemma alone_run_call n cpu sl (c : call T) :
  (10 <= n)%nat -> (forall r, c <> Deref r) ->
  alone n cpu sl (begin_call c) = ('(sl, o) ← run_call sl cpu c; Ret (sl, [(c, o)])).
Proof.
  intros Hn Hc. destruct c as [v|x|x|r|r]; cbn [begin_call run_call].
  - unfold insert. destruct (alone_pop n cpu sl v) as (k&?&->); [lia|].
    destruct (pop_slot sl cpu) as [[sl' [i|]]|]; [|done..]. cbn [mbind rust_bind].
    rewrite alone_allocate by lia. unfold index.
    destruct (slots sl' !! i) as [s|]; [|done]. cbn [mbind rust_bind].
    destruct (allocate s v cpu) as [[s' g]|]; [|done]. cbn [mbind rust_bind].
    by destruct (make_idx g i).
  - do 2 (destruct n as [|n]; [lia|]). unfold remove. rewrite alone_step by done. cbn [act].
    change (Z.to_nat (idx_index x)) with (slot_of x).
    destruct (slots sl !! slot_of x) as [s|] eqn:Hs; [|done].
    unfold mark_unallocated. rewrite uncontended_ok. unfold try_mark.
    destruct (mark_update _ _) as [[[w freed]|e]|]; [| |done]; cbn [mbind rust_bind].
    + unfold keep; cbn [fst snd]. rewrite alone_step by done. cbn [act].
      rewrite exchange_alone by done. cbn [mbind rust_bind]. destruct freed.
      * rewrite alone_return by lia. by destruct (return_slot _ _ _).
      * by rewrite alone_ready.
    + unfold keep; cbn [fst snd]. rewrite alone_ready, with_slot_id by done. done.
  - do 2 (destruct n as [|n]; [lia|]). unfold get. rewrite alone_step by done. cbn [act].
    change (Z.to_nat (idx_index x)) with (slot_of x).
    destruct (slots sl !! slot_of x) as [s|] eqn:Hs; [|done].
    unfold acquire_reference. rewrite uncontended_ok. unfold try_acquire.
    destruct (acquire_update _ _) as [[[w []]|e]|]; [| |done]; cbn [mbind rust_bind].
    + unfold keep; cbn [fst snd]. rewrite alone_step by done. cbn [act].
      rewrite exchange_alone by done. cbn [mbind rust_bind]. by rewrite alone_ready.
    + unfold keep; cbn [fst snd]. rewrite alone_ready, with_slot_id by done. done.
  - by destruct (Hc r).
  - do 2 (destruct n as [|n]; [lia|]). unfold drop_reference. rewrite alone_step by done. cbn [act].
    change (Z.to_nat (idx_index r)) with (slot_of r). unfold index.
    destruct (slots sl !! slot_of r) as [s|] eqn:Hs; [|done]. cbn [mbind rust_bind].
    unfold release_reference. rewrite uncontended_ok. unfold try_release.
    destruct (release_update _ _) as [[[w clears]|e]|]; [|done..]; cbn [mbind rust_bind].
    unfold keep; cbn [fst snd]. rewrite alone_step by done. cbn [act].
    rewrite exchange_alone by done. cbn [mbind rust_bind]. destruct clears.
    + rewrite alone_return by lia. by destruct (return_slot _ _ _).
    + by rewrite alone_ready.
Qed.
End alone.
