(* ===== verification/SlabConcurrent.v ===== *)
(** Correctness of the slab under concurrency: the invariant that holds
    between any two actions of [SlabSteps], what every action does to the
    abstract slab of [SlabSpec], and what follows for whole executions. *)
From S2P Require Import Prelude Bitfields Topology Slot FreeLists Slab SlabSpec Treiber SlabSteps.

(** * What a call in progress has hold of *)

Section positions.
Context {T : Type}.
Implicit Types (th : thread T).

(** Its position in the global list's loops. *)
Definition list_position th : pc :=
  match th with PopGlobal _ p | PushGlobal p => p | _ => Idle end.

(** The slot that is nobody else's. *)
Definition holding th : option nat :=
  match th with
  | AllocLoad _ i | AllocStore _ i _ _ | AllocWrite _ i _ | AllocSign _ i _
  | ClearLoad i | ClearStore i _ | ClearDrop i | ClearSign i | Return i _ => Some i
  | _ => None
  end.

(** The reference that is being given up. *)
Definition dropping th : option Idx :=
  match th with DropLoad r | DropExchange r _ _ _ => Some r | _ => None end.

(** The slot whose contents or processor, which are plain memory, the next
    action writes. *)
Definition writing th : option nat :=
  match th with
  | AllocWrite _ i _ | AllocSign _ i _ | ClearDrop i | ClearSign i => Some i
  | _ => None
  end.

Definition pops (p : pc) : Prop :=
  match p with PopStart | PopLoaded _ | PopRead _ _ => True | _ => False end.

Definition pushes (p : pc) : Prop :=
  match p with PushTagged _ _ | PushLoaded _ _ _ | PushLinked _ _ _ => True | _ => False end.
End positions.

(** * The invariant *)

Section invariant.
Context {prof : Profile} {bits : ModularBitfield} {topology : Topology} {T : Type}.
Implicit Types (sl : Slab T) (a : spec T) (s : Slot T) (x r : Idx) (v : T) (i : nat)
  (th : thread T) (ths : list (thread T)) (storage : list (Slot T)) (lv : list nat).

(** Returning a slot to the global list is clear if it is not the first
    push, or if it is clear in the sense of [Treiber]: no other call is in
    [pop] with the initial entry of that slot in its hands. *)
Definition act_clear (cpu : Z) sl ths th : bool :=
  match th with
  | Return i allocated_on =>
      bool_decide (allocated_on = Some cpu) ||
      push_clear (global_free_list sl) (list_position <$> ths) i
  | _ => true
  end.

(** Nothing in the specification concerns slot [i] now, and only indices
    up to generation [b] ever did. *)
Record unlisted a i (b : Z) : Prop := {
  un_refs : filter (here i) (refs a) = [];
  un_live x : here i x -> x ∉ live a;
  un_given x v : given a !! x = Some v -> here i x -> 0 < idx_generation x <= b;
}.

(** Slot [i] has no references and nobody may use it. *)
Definition held_slot storage a i (st : State) (g b : Z) (P : option T -> Prop) : Prop :=
  exists s, storage !! i = Some s /\ slot_is s st g 0 /\ unlisted a i b /\ P (contents s).

Definition anything : option T -> Prop := fun _ => True.

(** What a position says about the memory and the specification. *)
Definition thread_ok storage a th : Prop :=
  match th with
  | Ready | PopLocal _ | DropLoad _ => True
  | PopGlobal _ p => pops p
  | AllocLoad _ i => exists g, held_slot storage a i Unallocated g g anything
  | AllocStore _ i w g =>
      w = Lifecycle_into (lifecycle Allocated g 0) /\ g < 2 ^ 46 /\
      held_slot storage a i Unallocated (g - 1) (g - 1) anything
  | AllocWrite _ i g => 0 < g /\ held_slot storage a i Allocated g (g - 1) anything
  | AllocSign v i g => 0 < g /\ held_slot storage a i Allocated g (g - 1) (fun c => c = Some v)
  | GetLoad x | RemoveLoad x => is_Some (given a !! x)
  | GetExchange x prev new =>
      is_Some (given a !! x) /\ acquire_update (idx_generation x) prev = Ret (Ok (new, tt))
  | DropExchange r prev new should_clear =>
      release_update (idx_generation r) prev = Ret (Ok (new, should_clear))
  | RemoveExchange x prev new was_unallocated =>
      is_Some (given a !! x) /\
      mark_update (idx_generation x) prev = Ret (Ok (new, was_unallocated))
  | ClearLoad i => exists st g, st <> Allocated /\ held_slot storage a i st g g is_Some
  | ClearStore i w => exists st g, st <> Allocated /\ held_slot storage a i st g g is_Some /\
      w = Lifecycle_into (lifecycle Unallocated g 0)
  | ClearDrop i => exists g, held_slot storage a i Unallocated g g is_Some
  | ClearSign i | Return i _ => exists g, held_slot storage a i Unallocated g g anything
  | PushGlobal p => pushes p
  end.

(** Memory and calls against the specification: [ws] are the words of the
    global list, [lls] the processors' lists, [lv] the slots that are
    neither on a list nor held, that is, those in use. *)
Record slab_state sl ths a (ws : list Z) (lls : list (list nat)) lv : Prop := {
  ss_global : treiber_inv (MkConfig (global_free_list sl) (slots sl)
                             (concat lls ++ omap holding ths ++ lv)) (list_position <$> ths) ws;
  ss_cells : length (local_free_list sl) = Z.to_nat MAX_PROCESSORS;
  ss_local : Forall2 (local_chain (slots sl)) (local_free_list sl) lls;
  ss_slots i s : slots sl !! i = Some s -> i ∉ omap holding ths ->
    exists st g, slot_ok a (i ∉ lv) i s st g;
  ss_threads : Forall (thread_ok (slots sl) a) ths;
  ss_given x : is_Some (given a !! x) -> idx_valid x /\ in_bounds sl x;
  ss_live x : x ∈ live a -> is_Some (given a !! x);
  ss_refs x : x ∈ refs a -> is_Some (given a !! x);
}.

(** ** Slots and the specification *)

Lemma slot_ok_unlisted a (fr : Prop) i s g :
  slot_is s Unallocated g 0 -> unlisted a i g -> fr -> slot_ok a fr i s Unallocated g.
Proof.
  intros Hs [Hr Hl Hg] Hfr. split; try done.
  - by rewrite Hr.
  - intros x Hx Hh. assert (Hin : x ∈ filter (here i) (refs a)) by (by apply filter_here_in).
    rewrite Hr in Hin. set_solver.
  - intros x Hh. split; [intros Hx; by destruct (Hl x Hh)|by intros [? _]].
Qed.

Lemma unlisted_slot_ok a (fr : Prop) i s st g :
  slot_ok a fr i s st g -> fr -> slot_is s Unallocated g 0 /\ unlisted a i g.
Proof.
  intros [His Hrg Hfr Hun Hz Hc Hli Hgi] Hf. apply Hfr in Hf as ->. specialize (Hun eq_refl).
  rewrite Hun in His. split; [done|]. split; [done| |done].
  intros x Hh. rewrite Hli by done. by intros [? _].
Qed.

Lemma slot_ok_next a (fr : Prop) i s st g n :
  slot_ok a fr i s st g -> slot_ok a fr i (set_next s n) st g.
Proof. intros [[? ?] ? ? ? ? ? ? ?]. by split. Qed.

Lemma slot_ok_fr a (fr fr' : Prop) i s st g :
  (fr <-> fr') -> slot_ok a fr i s st g -> slot_ok a fr' i s st g.
Proof. intros Hf [? ? ? ? ? ? ? ?]. split; try done. by rewrite <-Hf. Qed.

(** What every slot promises to those who know or hold an index into it,
    whoever else is working on it. *)
Record slot_view a i s (st : State) (g : Z) : Prop := {
  sv_is : slot_is s st g (Z.of_nat (length (filter (here i) (refs a))));
  sv_ref x : x ∈ refs a -> here i x -> idx_generation x = g /\ st <> Unallocated;
  sv_live x : is_Some (given a !! x) -> here i x ->
    (x ∈ live a <-> st = Allocated /\ idx_generation x = g);
}.

Lemma slot_ok_view a (fr : Prop) i s st g : slot_ok a fr i s st g -> slot_view a i s st g.
Proof.
  intros [His Hrg Hfr Hun Hz Hc Hli Hgi]. split; [done| |auto].
  intros x Hx Hh. split; [by apply Hrg|]. intros Hu.
  assert (Hin : x ∈ filter (here i) (refs a)) by (by apply filter_here_in).
  rewrite Hun in Hin by done. set_solver.
Qed.

Lemma unlisted_view a i s st g b :
  slot_is s st g 0 -> unlisted a i b -> (st = Allocated -> b < g) -> slot_view a i s st g.
Proof.
  intros Hs [Hr Hl Hg] Hb. split.
  - by rewrite Hr.
  - intros x Hx Hh. assert (Hin : x ∈ filter (here i) (refs a)) by (by apply filter_here_in).
    rewrite Hr in Hin. set_solver.
  - intros x [v Hx] Hh. split; [intros Hx'; by destruct (Hl x Hh)|].
    intros [Hst Hgen]. pose proof (Hg _ _ Hx Hh). specialize (Hb Hst). lia.
Qed.

Lemma held_view storage a th i s :
  thread_ok storage a th -> holding th = Some i -> storage !! i = Some s ->
  exists st g, slot_view a i s st g.
Proof.
  intros Hth Hh Hs.
  assert (Hv : forall st g b P, held_slot storage a i st g b P ->
    (st = Allocated -> b < g) -> exists st g, slot_view a i s st g).
  { intros st g b P (s'&Hs'&His&Hu&_) Hb. rewrite Hs in Hs'. injection Hs' as <-.
    exists st, g. by eapply unlisted_view. }
  destruct th; simplify_eq/=.
  - destruct Hth as [g Hg]. by eapply Hv.
  - destruct Hth as (_&_&Hg). by eapply Hv.
  - destruct Hth as [_ Hg]. eapply Hv; [exact Hg|lia].
  - destruct Hth as [_ Hg]. eapply Hv; [exact Hg|lia].
  - destruct Hth as (st&g&?&Hg). by eapply Hv.
  - destruct Hth as (st&g&?&Hg&_). by eapply Hv.
  - destruct Hth as [g Hg]. by eapply Hv.
  - destruct Hth as [g Hg]. by eapply Hv.
  - destruct Hth as [g Hg]. by eapply Hv.
Qed.

Lemma state_view sl ths a ws lls lv i s :
  slab_state sl ths a ws lls lv -> slots sl !! i = Some s -> exists st g, slot_view a i s st g.
Proof.
  intros Hst Hs. destruct (decide (i ∈ omap holding ths)) as [Hin|Hin].
  - apply list_elem_of_omap in Hin as (th&Hth&Hh).
    pose proof (ss_threads _ _ _ _ _ _ Hst) as Hall. rewrite Forall_forall in Hall.
    by eapply held_view; [apply Hall|..].
  - destruct (ss_slots _ _ _ _ _ _ Hst _ _ Hs Hin) as (st&g&Hok).
    exists st, g. by eapply slot_ok_view.
Qed.

(** ** What other calls see of a change *)

(** Only slot [i] is concerned by the difference of the specifications. *)
Definition only_here i a a' : Prop := only_at i a a' (fun _ => True) (fun _ => True).

Lemma only_here_at i a a' (fr fr' : nat -> Prop) :
  only_here i a a' -> (forall j, j <> i -> fr' j <-> fr j) -> only_at i a a' fr fr'.
Proof. intros [? ? ? _] ?. by split. Qed.

Lemma only_here_refl i a : only_here i a a.
Proof. by split. Qed.

Lemma held_slot_next storage a i st g b P j s n :
  storage !! j = Some s -> held_slot storage a i st g b P ->
  held_slot (<[j := set_next s n]> storage) a i st g b P.
Proof.
  intros Hj (s'&Hs'&His&Hu&HP). destruct (decide (j = i)) as [->|Hne].
  - rewrite Hj in Hs'. injection Hs' as <-. exists (set_next s n).
    split; [apply list_lookup_insert_eq; by eapply lookup_lt_Some|].
    split; [by apply slot_is_with_next|done].
  - exists s'. by rewrite list_lookup_insert_ne by done.
Qed.

Lemma thread_ok_next storage a th j s n :
  storage !! j = Some s -> thread_ok storage a th ->
  thread_ok (<[j := set_next s n]> storage) a th.
Proof.
  intros Hj. destruct th; simpl; try done; try naive_solver eauto using held_slot_next.
Qed.

Lemma held_slot_frame storage a a' i st g b P j s :
  j <> i -> only_here j a a' -> held_slot storage a i st g b P ->
  held_slot (<[j := s]> storage) a' i st g b P.
Proof.
  intros Hne [Hg Hl Hr _] (s'&Hs'&His&[Hur Hul Hug]&HP). exists s'.
  rewrite list_lookup_insert_ne by done. split; [done|]. split; [done|]. split; [|done]. split.
  - specialize (Hr i ltac:(done)). rewrite Hur in Hr. by apply Permutation_nil_r in Hr.
  - intros x Hx. rewrite Hl by (by eapply here_other). auto.
  - intros x v Hv Hx. rewrite Hg in Hv by (by eapply here_other). eauto.
Qed.

Lemma thread_ok_frame storage a a' th j s :
  holding th <> Some j -> only_here j a a' ->
  (forall x, is_Some (given a !! x) -> is_Some (given a' !! x)) ->
  thread_ok storage a th -> thread_ok (<[j := s]> storage) a' th.
Proof.
  intros Hh Ho Hg.
  assert (Hf : forall i st g b P, holding th = Some i -> held_slot storage a i st g b P ->
    held_slot (<[j := s]> storage) a' i st g b P).
  { intros i st g b P Ei. apply held_slot_frame; [congruence|done]. }
  destruct th; simpl in *; try done; naive_solver.
Qed.

(** ** Memory that the global list does not depend on *)

Lemma wchain_update storage w ws i s s' :
  storage !! i = Some s -> next s' = next s ->
  wchain storage w ws -> wchain (<[i := s']> storage) w ws.
Proof.
  intros Hi Hn. revert w. induction ws as [|w' ws IH]; intros w; [done|].
  intros (->&Hw&s0&Hs&Hc). split; [done|]. split; [done|].
  destruct (decide (i = head_index w')) as [->|].
  - exists s'. rewrite list_lookup_insert_eq by (by eapply lookup_lt_Some).
    rewrite Hi in Hs. injection Hs as <-. rewrite Hn. auto.
  - exists s0. rewrite list_lookup_insert_ne by done. auto.
Qed.

Lemma treiber_inv_owned f storage owned owned' (ts : list pc) ws :
  owned ≡ₚ owned' -> treiber_inv (MkConfig f storage owned) ts ws ->
  treiber_inv (MkConfig f storage owned') ts ws.
Proof.
  intros Hp [Hc Hs Hb Hw Ht Htag Hsz Hth]. simpl in *. rewrite Hp in Hs, Hb. by split.
Qed.

Lemma pc_ok_update f storage owned ws pend (p : pc) i s s' :
  storage !! i = Some s -> next s' = next s ->
  pc_ok (MkConfig f storage owned) ws pend p ->
  pc_ok (MkConfig f (<[i := s']> storage) owned) ws pend p.
Proof.
  intros Hi Hn.
  assert (Hk : forall j (P : Z -> Prop), (exists s0, storage !! j = Some s0 /\ P (next s0)) ->
    exists s0, <[i := s']> storage !! j = Some s0 /\ P (next s0)).
  { intros j P (s0&Hj&HP). destruct (decide (i = j)) as [->|].
    - exists s'. rewrite list_lookup_insert_eq by (by eapply lookup_lt_Some).
      split; [done|]. by simplify_eq; rewrite Hn.
    - exists s0. by rewrite list_lookup_insert_ne. }
  destruct p as [|j w|j w old|j w old| |old|old w]; simpl; try done.
  - intros (?&?&Hx). split; [done|]. split; [done|]. by apply (Hk j (fun n => n = old)).
  - by rewrite length_insert.
  - intros (?&?&?&Hx). split; [done|]. split; [done|]. split; [done|].
    intros Hin. by apply (Hk _ (fun n => n = w)), Hx.
Qed.

Lemma treiber_inv_update f storage owned (ts : list pc) ws i s s' :
  storage !! i = Some s -> next s' = next s ->
  treiber_inv (MkConfig f storage owned) ts ws ->
  treiber_inv (MkConfig f (<[i := s']> storage) owned) ts ws.
Proof.
  intros Hi Hn [Hc Hs Hb Hw Ht Htag Hsz Hth]. simpl in *.
  split; simpl; try done; rewrite ?length_insert; try done.
  - by eapply wchain_update.
  - eapply Forall_impl; [exact Hth|]. intros p. by apply pc_ok_update with s.
Qed.

Lemma local_update storage lf lls i s s' :
  storage !! i = Some s -> next s' = next s ->
  Forall2 (local_chain storage) lf lls -> Forall2 (local_chain (<[i := s']> storage)) lf lls.
Proof.
  intros Hi Hn Hl. eapply Forall2_impl; [exact Hl|]. intros cell l. by apply chain_update with s.
Qed.

(** ** Rebuilding the invariant *)

Lemma in_bounds_slots sl sl' x :
  length (slots sl') = length (slots sl) -> in_bounds sl x -> in_bounds sl' x.
Proof. unfold in_bounds. by intros ->. Qed.

(** The acting thread only changes position. *)
Lemma move_thread sl th th' ths a ws lls lv :
  slab_state sl (th :: ths) a ws lls lv ->
  holding th' = holding th -> list_position th' = list_position th ->
  thread_ok (slots sl) a th' -> slab_state sl (th' :: ths) a ws lls lv.
Proof.
  intros [Hg Hc Hl Hs Ht Hgi Hli Hr] Eh Ep Hok.
  assert (Eo : omap holding (th' :: ths) = omap holding (th :: ths)) by (simpl; by rewrite Eh).
  split; rewrite ?Eo; try done.
  - by rewrite fmap_cons, Ep.
  - apply Forall_cons_1 in Ht as [_ Ht]. by constructor.
Qed.

(** The acting thread changes slot [i], which is its own or in use, and the
    specification accordingly. *)
Lemma move_slot sl th th' ths a a' ws lls lv lv' i s s' :
  slab_state sl (th :: ths) a ws lls lv ->
  list_position th = Idle -> list_position th' = Idle ->
  slots sl !! i = Some s -> next s' = next s ->
  option_list (holding th') ++ lv' ≡ₚ option_list (holding th) ++ lv ->
  i ∈ option_list (holding th) ++ lv ->
  (forall j, holding th = Some j \/ holding th' = Some j -> j = i) ->
  only_here i a a' -> (forall x, is_Some (given a !! x) -> is_Some (given a' !! x)) ->
  thread_ok (<[i := s']> (slots sl)) a' th' ->
  (holding th' = None -> exists st g, slot_ok a' (i ∉ lv') i s' st g) ->
  (forall x, here i x -> is_Some (given a' !! x) -> idx_valid x) ->
  (forall x, x ∈ live a' -> is_Some (given a' !! x)) ->
  (forall x, x ∈ refs a' -> is_Some (given a' !! x)) ->
  slab_state (with_slot sl i s') (th' :: ths) a' ws lls lv'.
Proof.
  intros [Hg Hc Hl Hs Ht Hgi Hli Hr] Ep Ep' Hi Hn Hp Hown Hh Ho Hmono Hok Hnew Hv Hli' Hr'.
  assert (Eo : omap holding (th' :: ths) ++ lv' ≡ₚ omap holding (th :: ths) ++ lv).
  { assert (Hc' : forall t l, omap holding (t :: ths) ++ l ≡ₚ omap holding ths ++ option_list (holding t) ++ l).
    { intros t l. simpl. destruct (holding t); simpl; solve_Permutation. }
    by rewrite !Hc', Hp. }
  assert (Hnd : NoDup (omap holding (th :: ths) ++ lv)).
  { pose proof (ti_slots _ _ _ Hg) as Hnd. simpl owned_of in Hnd.
    apply NoDup_app in Hnd as (_&_&Hnd). apply NoDup_app in Hnd as (_&_&Hnd).
    by apply NoDup_app in Hnd as (_&_&Hnd). }
  assert (Hother : i ∉ omap holding ths).
  { intros Hin. simpl in Hnd. destruct (holding th) as [j|] eqn:Ej; simpl in Hnd, Hown.
    - assert (j = i) as -> by auto. apply NoDup_cons in Hnd as [Hn' _]. set_solver.
    - apply NoDup_app in Hnd as (_&Hd&_). by apply (Hd i). }
  assert (Hlv : forall j, j <> i -> j ∉ lv' <-> j ∉ lv).
  { intros j Hj. assert (Hiff : j ∈ option_list (holding th') ++ lv' <-> j ∈ option_list (holding th) ++ lv)
      by (by rewrite Hp).
    assert (Hnone : forall t, t = th \/ t = th' -> j ∉ option_list (holding t)).
    { intros t Ht' Hin. destruct (holding t) eqn:Et; [|by apply elem_of_nil in Hin].
      apply list_elem_of_singleton in Hin as ->. apply Hj, Hh. destruct Ht' as [<-| <-]; auto. }
    rewrite !elem_of_app in Hiff. pose proof (Hnone th). pose proof (Hnone th'). naive_solver. }
  split; simpl.
  - rewrite Ep'. rewrite fmap_cons, Ep in Hg. eapply treiber_inv_owned;
      [|by eapply treiber_inv_update]. by rewrite Eo.
  - done.
  - by eapply local_update.
  - intros j sj Hj Hnj. destruct (decide (i = j)) as [<-|Hne].
    + rewrite list_lookup_insert_eq in Hj by (by eapply lookup_lt_Some). injection Hj as <-.
      apply Hnew. destruct (holding th') as [k|] eqn:Ek; [|done]. exfalso. apply Hnj.
      assert (k = i) as -> by auto. by left.
    + rewrite list_lookup_insert_ne in Hj by done. destruct (Hs _ _ Hj) as (st&g&Hok').
      { intros Hin. simpl in Hin. destruct (holding th) as [k|] eqn:Ek.
        - assert (k = i) as -> by auto. apply elem_of_cons in Hin as [->|Hin]; [done|].
          apply Hnj. simpl. destruct (holding th'); [by right|done].
        - apply Hnj. simpl. destruct (holding th'); [by right|done]. }
      exists st, g. eapply (slot_ok_frame i j a a' (fun j => j ∉ lv) (fun j => j ∉ lv')); [|done|done].
      by apply only_here_at.
  - constructor; [done|]. apply Forall_cons_1 in Ht as [_ Ht]. apply Forall_forall.
    intros t Hin. rewrite Forall_forall in Ht. eapply thread_ok_frame; try done; [|by apply Ht].
    intros Et. apply Hother, list_elem_of_omap. by exists t.
  - intros x Hx. destruct (decide (here i x)) as [Hhx|Hhx].
    + split; [by apply Hv|]. unfold in_bounds. simpl. rewrite length_insert.
      unfold here in Hhx. pose proof (lookup_lt_Some _ _ _ Hi). lia.
    + rewrite (oa_given _ _ _ _ _ Ho) in Hx by done. destruct (Hgi _ Hx) as [? Hb].
      split; [done|]. eapply in_bounds_slots; [|exact Hb]. apply length_insert.
  - done.
  - done.
Qed.

(** ** The lists *)

Lemma pop_act_action f storage owned (p : pc) ts ws :
  pops p -> treiber_inv (MkConfig f storage owned) (p :: ts) ws ->
  match pop_act f storage p with
  | Ret (f', inl p') =>
      pops p' /\ action (MkConfig f storage owned) p None (MkConfig f' storage owned) p'
  | Ret (f', inr o) =>
      action (MkConfig f storage owned) p (Some (Popped o))
             (MkConfig f' storage (option_list o ++ owned)) Idle
  | Panic _ => False
  end.
Proof.
  intros Hp Hi. destruct p as [|i w|i w old|i w old| |old|old w]; try done; cbn [pop_act].
  - case_decide as He; [by apply pop_empty|]. split; [done|by apply pop_load].
  - pose proof (ti_threads _ _ _ Hi) as Hth. apply Forall_cons_1 in Hth as [(_&_&_&Hlt) _].
    destruct (lookup_lt_is_Some_2 _ _ Hlt) as [s Hs]. simpl in Hs.
    assert (E : slot_next storage (head_index old) = Ret (next s))
      by (unfold slot_next, index; by rewrite Hs).
    rewrite E. cbn [mbind rust_bind]. split; [done|by apply pop_next].
  - destruct (exchange_head f old w) as [f'|] eqn:E; [by apply pop_succeed|].
    split; [done|by apply pop_retry].
Qed.

Lemma pop_act_ok f storage owned (p : pc) ts ws :
  pops p -> treiber_inv (MkConfig f storage owned) (p :: ts) ws ->
  match pop_act f storage p with
  | Ret (f', inl p') => pops p' /\ treiber_inv (MkConfig f' storage owned) (p' :: ts) ws
  | Ret (f', inr (Some i)) =>
      exists ws', treiber_inv (MkConfig f' storage (i :: owned)) (Idle :: ts) ws'
  | Ret (f', inr None) => treiber_inv (MkConfig f' storage owned) (Idle :: ts) ws
  | Panic _ => False
  end.
Proof.
  intros Hp Hi. pose proof (pop_act_action _ _ _ _ _ _ Hp Hi) as Ha.
  assert (Hcl : forall q, clear_at f ts p q) by (intros q; by destruct p).
  destruct (pop_act f storage p) as [[f' [p'|[i|]]]|]; [destruct Ha as [Hp' Ha]| | |done];
    destruct (action_inv _ _ _ _ _ _ _ Ha (Hcl _) Hi) as (ws'&Hl&Hi').
  - by inversion Hl; subst.
  - by exists ws'.
  - by inversion Hl; subst.
Qed.

Lemma push_act_action f storage (p : pc) f' storage' p' :
  pushes p -> push_act f storage p = Ret (f', storage', p') ->
  (p' = Idle \/ pushes p') /\
  exists e, forall owned, action (MkConfig f storage owned) p e (MkConfig f' storage' owned) p'.
Proof.
  intros Hp E. destruct p as [|i w|i w old|i w old| |old|old w]; try done; cbn [push_act] in E.
  - simplify_eq. split; [by right|]. eexists. intros. apply push_load.
  - rust_inv E. simplify_eq. split; [by right|]. eexists. intros. by apply push_link.
  - destruct (exchange_head f old w) as [f1|] eqn:Ex; simplify_eq.
    + split; [by left|]. eexists. intros. by apply push_succeed.
    + split; [by right|]. eexists. intros. by apply push_retry.
Qed.

(** A push changes the [next] field of the slot that is being pushed. *)
Lemma push_act_ok f storage owned (p : pc) ts ws :
  pushes p -> treiber_inv (MkConfig f storage owned) (p :: ts) ws ->
  match push_act f storage p with
  | Ret (f', storage', p') =>
      (p' = Idle \/ pushes p') /\
      (exists ws', treiber_inv (MkConfig f' storage' owned) (p' :: ts) ws') /\
      (storage' = storage \/ exists i s n, storage !! i = Some s /\
         storage' = <[i := set_next s n]> storage /\ i ∉ owned)
  | Panic _ => False
  end.
Proof.
  intros Hp Hi. assert (Hnotin : forall i w, pushing p = Some (i, w) -> i ∉ owned).
  { intros i w Epush Hin. pose proof (ti_slots _ _ _ Hi) as Hn. rewrite pending_cons, Epush in Hn.
    apply NoDup_app in Hn as (_&_&Hn). apply NoDup_app in Hn as (_&Hn&_).
    apply (Hn i); [by left|done]. }
  destruct (push_act f storage p) as [[[f' storage'] p']|] eqn:E.
  - destruct (push_act_action _ _ _ _ _ _ Hp E) as (Hp'&e&Ha).
    assert (Hcl : clear_at f ts p p') by (by destruct p).
    destruct (action_inv _ _ _ _ _ _ _ (Ha owned) Hcl Hi) as (ws'&_&?).
    split; [done|]. split; [by exists ws'|].
    destruct p as [|i w|i w old|i w old| |old|old w]; try done; cbn [push_act] in E.
    + simplify_eq. by left.
    + rust_inv E. apply link_slot_inv in Hx as (s&Hs&->). simplify_eq. right.
      exists i, s, old. split; [done|]. split; [done|]. by eapply Hnotin.
    + destruct (exchange_head f old w); simplify_eq; by left.
  - destruct p as [|i w|i w old|i w old| |old|old w]; try done; cbn [push_act] in E.
    + destruct (pushing_slot _ _ _ _ _ _ i w Hi eq_refl) as [s Hs].
      by rewrite (link_slot_ok _ _ _ _ Hs) in E.
    + by destruct (exchange_head f old w).
Qed.

Lemma state_owned_nodup sl ths a ws lls lv :
  slab_state sl ths a ws lls lv -> NoDup (concat lls ++ omap holding ths ++ lv).
Proof.
  intros Hst. pose proof (ti_slots _ _ _ (ss_global _ _ _ _ _ _ Hst)) as Hnd. simpl in Hnd.
  apply NoDup_app in Hnd as (_&_&Hnd). by apply NoDup_app in Hnd as (_&_&Hnd).
Qed.

(** The local lists do not notice what happens to the slots on the others. *)
Lemma local_next storage lf lls i s n :
  i ∉ concat lls -> Forall2 (local_chain storage) lf lls ->
  Forall2 (local_chain (<[i := set_next s n]> storage)) lf lls.
Proof.
  intros Hi Hl. apply Forall2_same_length_lookup. split; [by eapply Forall2_length|].
  intros j c k Hj Hk. apply chain_insert.
  - intros Hin. apply Hi. by eapply in_concat_lookup.
  - by eapply (Forall2_lookup_lr _ _ _ _ _ _ Hl).
Qed.

Lemma slots_next storage a lv i s n (held : list nat) :
  storage !! i = Some s ->
  (forall j t, storage !! j = Some t -> j ∉ held -> exists st g, slot_ok a (j ∉ lv) j t st g) ->
  forall j t, <[i := set_next s n]> storage !! j = Some t -> j ∉ held ->
    exists st g, slot_ok a (j ∉ lv) j t st g.
Proof.
  intros Hi Hs j t Hj Hn. destruct (decide (i = j)) as [<-|Hne].
  - rewrite list_lookup_insert_eq in Hj by (by eapply lookup_lt_Some). injection Hj as <-.
    destruct (Hs _ _ Hi Hn) as (st&g&?). exists st, g. by apply slot_ok_next.
  - rewrite list_lookup_insert_ne in Hj by done. by apply Hs.
Qed.

(** A slot leaves the lists for the hands of the acting thread. *)
Lemma take_slot sl a (lv held : list nat) i :
  (forall j s, slots sl !! j = Some s -> j ∉ held -> exists st g, slot_ok a (j ∉ lv) j s st g) ->
  is_Some (slots sl !! i) -> i ∉ held -> i ∉ lv ->
  exists g, held_slot (slots sl) a i Unallocated g g anything.
Proof.
  intros Hs [s Hi] Hh Hl. destruct (Hs _ _ Hi Hh) as (st&g&Hok).
  destruct (unlisted_slot_ok _ _ _ _ _ _ Hok Hl). exists g, s. done.
Qed.

Lemma step_pop_local sl v ths a ws lls lv cpu :
  slab_state sl (PopLocal v :: ths) a ws lls lv -> 0 <= cpu < MAX_PROCESSORS ->
  exists sl' th' lls', act cpu false sl (PopLocal v) = Ret (sl', th', None) /\
    slab_state sl' (th' :: ths) a ws lls' lv /\ dropping th' = None.
Proof.
  intros Hst Hcpu. pose proof (state_owned_nodup _ _ _ _ _ _ Hst) as Hnd.
  destruct Hst as [Hg Hc Hl Hs Ht Hgi Hli Hr].
  destruct (lookup_lt_is_Some_2 (local_free_list sl) (Z.to_nat cpu)) as [cell Hcell]; [lia|].
  destruct (Forall2_lookup_l _ _ _ _ _ Hl Hcell) as (l&Hll&Hch).
  pose proof (local_pop_ok _ _ _ _ _ Hcell Hch) as Hpop. cbn [act].
  apply Forall_cons_1 in Ht as [_ Ht].
  destruct l as [|i l]; destruct Hpop as (cell'&E&Hcl'); rewrite E; cbn [mbind rust_bind];
    do 2 eexists.
  - exists lls. split; [done|]. split; [|done]. split; simpl; try done.
    + simpl in Hg. destruct (action_inv _ _ _ _ _ _ _ (start_pop _) I Hg) as (ws'&Hls&?).
      by inversion Hls; subst.
    + by rewrite length_insert.
    + rewrite <-(list_insert_id lls (Z.to_nat cpu) []) by done. by apply Forall2_insert.
    + by constructor.
  - destruct (concat_insert lls (Z.to_nat cpu) (i :: l) l Hll) as (rest&E1&E2).
    assert (Hi : (i ∉ omap holding ths) /\ (i ∉ lv)).
    { rewrite E1 in Hnd. simpl in Hnd. apply NoDup_cons in Hnd as [Hnd _]. set_solver. }
    assert (Hlt : is_Some (slots sl !! i)).
    { pose proof (chain_lt _ _ _ _ Hch) as Hlt. apply Forall_cons in Hlt as [Hlt _].
      by apply lookup_lt_is_Some_2. }
    exists (<[Z.to_nat cpu := l]> lls). split; [done|]. split; [|done]. split; simpl; try done.
    + simpl in Hg. eapply treiber_inv_owned; [|exact Hg]. rewrite E1, E2. simpl. solve_Permutation.
    + by rewrite length_insert.
    + by apply Forall2_insert.
    + intros j s Hj Hn. apply Hs; [done|]. set_solver.
    + constructor; [|done]. simpl. by apply (take_slot sl a lv (omap holding ths)); [exact Hs|..]; try apply Hi.
Qed.

(** ** What an action does to the specification *)

(** A reference is given up exactly when dropping it takes effect. *)
Definition hands th th' (e : option (call T * outcome T)) : Prop :=
  match e with
  | Some (DropRef r, _) => dropping th = Some r /\ dropping th' = None
  | _ => dropping th' = dropping th
  end.

(** An action keeps the invariant and, if it completes a call, is a step of
    the specification; it panics only when a counter is used up. *)
Definition act_result sl th ths a (res : rust (Slab T * thread T * option (call T * outcome T)))
    : Prop :=
  match res with
  | Ret (sl', th', e) =>
      exists a' ws lls lv, slab_state sl' (th' :: ths) a' ws lls lv /\ hands th th' e /\
        match e with Some (c, o) => spec_step a c o a' | None => a' = a end
  | Panic _ => counter_exhausted sl a
  end.

Lemma given_slot sl ths a ws lls lv x :
  slab_state sl ths a ws lls lv -> is_Some (given a !! x) ->
  idx_valid x /\ here (slot_of x) x /\ is_Some (slots sl !! slot_of x).
Proof.
  intros Hst Hx. destruct (ss_given _ _ _ _ _ _ Hst _ Hx) as [Hv Hb].
  split; [done|]. split; [by apply here_valid|]. apply lookup_lt_is_Some_2.
  unfold in_bounds in Hb. unfold slot_of. lia.
Qed.

(** A slot in somebody's hands is nobody else's to look up. *)
Lemma held_unlisted storage a th i :
  thread_ok storage a th -> holding th = Some i -> exists b, unlisted a i b.
Proof.
  intros Hth Hh.
  assert (Hv : forall st g b P, held_slot storage a i st g b P -> exists b, unlisted a i b).
  { intros st g b P (s&_&_&Hu&_). by exists b. }
  destruct th; simplify_eq/=;
    first [by destruct Hth as (_&_&Hg); eapply Hv|by destruct Hth as (_&Hg); eapply Hv|by destruct Hth as [g Hg]; eapply Hv
          |by destruct Hth as (st&g&_&Hg); eapply Hv|by destruct Hth as (st&g&_&Hg&_); eapply Hv].
Qed.

Lemma not_held sl ths a ws lls lv i x :
  slab_state sl ths a ws lls lv -> here i x -> x ∈ live a \/ x ∈ refs a -> i ∉ omap holding ths.
Proof.
  intros Hst Hh Hx Hin. apply list_elem_of_omap in Hin as (th&Hth&Ei).
  pose proof (ss_threads _ _ _ _ _ _ Hst) as Hall. rewrite Forall_forall in Hall.
  destruct (held_unlisted _ _ _ _ (Hall _ Hth) Ei) as (b&[Hr Hl _]).
  destruct Hx as [Hx|Hx]; [by apply (Hl x)|].
  assert (Hf : x ∈ filter (here i) (refs a)) by (by apply filter_here_in).
  rewrite Hr in Hf. by apply elem_of_nil in Hf.
Qed.

(** The slot of an index that is live or referenced, as the invariant
    describes it. *)
Lemma used_slot sl ths a ws lls lv i s st g x :
  slab_state sl ths a ws lls lv -> slots sl !! i = Some s -> here i x ->
  x ∈ live a \/ x ∈ refs a -> slot_view a i s st g ->
  i ∈ lv /\ (i ∉ omap holding ths) /\ slot_ok a (i ∉ lv) i s st g.
Proof.
  intros Hst Hs Hh Hx Hv. pose proof (not_held _ _ _ _ _ _ _ _ Hst Hh Hx) as Hn.
  destruct (ss_slots _ _ _ _ _ _ Hst _ _ Hs Hn) as (st'&g'&Hok).
  destruct (slot_is_inj _ _ _ _ _ _ _ (sv_is _ _ _ _ _ Hv) (so_is _ _ _ _ _ _ Hok)) as (<-&<-&_).
  split; [|done]. apply dec_stable. intros Hl.
  assert (Hu : st = Unallocated) by (by apply (so_free _ _ _ _ _ _ Hok)).
  destruct Hx as [Hx|Hx].
  - assert (Hx' : st = Allocated /\ idx_generation x = g).
    { apply (sv_live _ _ _ _ _ Hv); [by eapply ss_live|done|done]. }
    destruct Hx' as [? _]. congruence.
  - by destruct (sv_ref _ _ _ _ _ Hv x Hx Hh) as [_ ?].
Qed.

(** An action that completes a call or goes on with it without changing
    memory. *)
Lemma quiet_result sl th th' e ths a ws lls lv :
  slab_state sl (th :: ths) a ws lls lv ->
  holding th' = holding th -> list_position th' = list_position th ->
  thread_ok (slots sl) a th' -> hands th th' e ->
  match e with Some (c, o) => spec_step a c o a | None => True end ->
  act_result sl th ths a (Ret (sl, th', e)).
Proof.
  intros Hst Eh Ep Hok Hh Hs. exists a, ws, lls, lv. split; [by eapply move_thread|].
  split; [done|]. by destruct e as [[c o]|].
Qed.

Lemma try_acquire_ok sl th ths a ws lls lv x s :
  slab_state sl (th :: ths) a ws lls lv ->
  holding th = None -> list_position th = Idle -> dropping th = None ->
  is_Some (given a !! x) -> slots sl !! slot_of x = Some s ->
  act_result sl th ths a (o ← try_acquire x (lifecycle_word s); Ret (keep sl o)).
Proof.
  intros Hst Eh Ep Ed Hx Hs. destruct (given_slot _ _ _ _ _ _ _ Hst Hx) as (Hv&Hh&_).
  destruct (state_view _ _ _ _ _ _ _ _ Hst Hs) as (st&g&Hview). unfold try_acquire.
  pose proof (acquire_update_ok _ _ _ _ (idx_generation x) (sv_is _ _ _ _ _ Hview)) as E.
  pose proof (sv_live _ _ _ _ _ Hview x Hx Hh) as Hl.
  assert (Hmiss : x ∉ live a ->
    act_result sl th ths a (Ret (sl, Ready, Some (Get x, Got None)))).
  { intros Hn. eapply quiet_result; [exact Hst|by simpl|by simpl|done|by simpl|].
    by apply spec_misses. }
  destruct (decide (g <> idx_generation x)) as [Hg|Hg].
  { rewrite E. apply Hmiss. rewrite Hl. naive_solver. }
  apply dec_stable in Hg. destruct (decide (st <> Allocated)) as [Ha|Ha].
  { rewrite E. apply Hmiss. rewrite Hl. naive_solver. }
  destruct (decide (_ < 2 ^ 16)) as [Hr|Hr].
  - rewrite E. cbn [mbind rust_bind]. unfold keep. cbn [fst snd].
    eapply quiet_result; [exact Hst|by simpl|by simpl| |by simpl|done]. simpl.
    split; [done|exact E].
  - rewrite E. simpl. right. right. exists (slot_of x). lia.
Qed.

Lemma step_get_load cpu fails sl ths a ws lls lv x :
  slab_state sl (GetLoad x :: ths) a ws lls lv ->
  act_result sl (GetLoad x) ths a (act cpu fails sl (GetLoad x)).
Proof.
  intros Hst. pose proof (ss_threads _ _ _ _ _ _ Hst) as Hth.
  apply Forall_cons_1 in Hth as [Hx _]. simpl in Hx.
  destruct (given_slot _ _ _ _ _ _ _ Hst Hx) as (_&_&s&Hs). cbn [act]. rewrite Hs.
  by eapply try_acquire_ok.
Qed.

Lemma refs_mono_cons a x : x ∈ live a -> forall y, y ∈ x :: refs a -> y ∈ live a \/ y ∈ refs a.
Proof. intros Hx y [->|Hy]%elem_of_cons; auto. Qed.

Lemma step_get_exchange cpu fails sl ths a ws lls lv x prev new :
  slab_state sl (GetExchange x prev new :: ths) a ws lls lv ->
  act_result sl (GetExchange x prev new) ths a (act cpu fails sl (GetExchange x prev new)).
Proof.
  intros Hst. pose proof (ss_threads _ _ _ _ _ _ Hst) as Hth.
  apply Forall_cons_1 in Hth as [[Hx Hup] _].
  destruct (given_slot _ _ _ _ _ _ _ Hst Hx) as (Hv&Hh&s&Hs).
  cbn [act]. unfold exchange_lifecycle, index. rewrite Hs. cbn [mbind rust_bind].
  case_decide as Hw; [|by eapply try_acquire_ok]. destruct Hw as [<- _].
  destruct (state_view _ _ _ _ _ _ _ _ Hst Hs) as (st&g&Hview).
  rewrite (acquire_update_ok _ _ _ _ _ (sv_is _ _ _ _ _ Hview)) in Hup.
  destruct (decide (g <> idx_generation x)) as [|Hg]; [done|]. apply dec_stable in Hg.
  destruct (decide (st <> Allocated)) as [|Ha]; [done|]. apply dec_stable in Ha as ->.
  destruct (decide (_ < 2 ^ 16)) as [Hr|]; [|done]. injection Hup as <-.
  assert (Hl : x ∈ live a) by (by apply (sv_live _ _ _ _ _ Hview)).
  destruct (used_slot _ _ _ _ _ _ _ _ _ _ x Hst Hs Hh (or_introl Hl) Hview) as (Hlv&_&Hok).
  exists (spec_refs a (x :: refs a)), ws, lls, lv. split; [|split; [done|by apply spec_gets]].
  eapply (move_slot sl (GetExchange x _ _) Ready ths a _ ws lls lv lv (slot_of x) s); try done.
  - by intros j [?|?].
  - apply refs_only_at. intros j Hj. rewrite (filter_here_cons (slot_of x)) by done.
    by rewrite decide_False.
  - intros _. exists Allocated, g. by apply acquired_slot.
  - simpl. intros y _ Hy. by apply (ss_given _ _ _ _ _ _ Hst).
  - apply (ss_live _ _ _ _ _ _ Hst).
  - simpl. intros y [->|Hy]%elem_of_cons; [done|by apply (ss_refs _ _ _ _ _ _ Hst)].
Qed.

(** ** Dropping a reference *)

Lemma ref_slot sl ths a ws lls lv r i s st g :
  slab_state sl ths a ws lls lv -> r ∈ refs a -> here i r -> slot_view a i s st g ->
  idx_generation r = g /\ st <> Unallocated /\
  1 <= Z.of_nat (length (filter (here i) (refs a))).
Proof.
  intros Hst Hr Hh Hv. destruct (sv_ref _ _ _ _ _ Hv r Hr Hh) as [Hg Hu].
  split; [done|]. split; [done|].
  assert (Hf : r ∈ filter (here i) (refs a)) by (by apply filter_here_in).
  destruct (filter (here i) (refs a)); [by apply elem_of_nil in Hf|]. simpl. lia.
Qed.

Lemma try_release_ok sl th ths a ws lls lv r s :
  slab_state sl (th :: ths) a ws lls lv ->
  holding th = None -> list_position th = Idle -> dropping th = Some r ->
  r ∈ refs a -> slots sl !! slot_of r = Some s ->
  act_result sl th ths a (o ← try_release r (lifecycle_word s); Ret (keep sl o)).
Proof.
  intros Hst Eh Ep Ed Hr Hs. pose proof (ss_refs _ _ _ _ _ _ Hst _ Hr) as Hx.
  destruct (given_slot _ _ _ _ _ _ _ Hst Hx) as (Hv&Hh&_).
  destruct (state_view _ _ _ _ _ _ _ _ Hst Hs) as (st&g&Hview). unfold try_release.
  destruct (ref_slot _ _ _ _ _ _ _ _ _ _ _ Hst Hr Hh Hview) as (Hg&Hu&Hn).
  pose proof (release_update_ok _ _ _ _ (idx_generation r) (sv_is _ _ _ _ _ Hview)) as E.
  rewrite (decide_False (P := g <> idx_generation r)), decide_False, decide_True in E by (done || congruence).
  rewrite E. cbn [mbind rust_bind]. unfold keep. cbn [fst snd].
  eapply quiet_result; [exact Hst|by simpl|by simpl|exact E|by simpl|done].
Qed.

Lemma step_drop_load cpu fails sl ths a ws lls lv r :
  slab_state sl (DropLoad r :: ths) a ws lls lv -> r ∈ refs a ->
  act_result sl (DropLoad r) ths a (act cpu fails sl (DropLoad r)).
Proof.
  intros Hst Hr. pose proof (ss_refs _ _ _ _ _ _ Hst _ Hr) as Hx.
  destruct (given_slot _ _ _ _ _ _ _ Hst Hx) as (_&_&s&Hs). cbn [act]. unfold index. rewrite Hs.
  by eapply (try_release_ok sl (DropLoad r)).
Qed.

Lemma step_drop_exchange cpu fails sl ths a ws lls lv r prev new c :
  slab_state sl (DropExchange r prev new c :: ths) a ws lls lv -> r ∈ refs a ->
  act_result sl (DropExchange r prev new c) ths a (act cpu fails sl (DropExchange r prev new c)).
Proof.
  intros Hst Hr. pose proof (ss_threads _ _ _ _ _ _ Hst) as Hth.
  apply Forall_cons_1 in Hth as [Hup _]. simpl in Hup.
  pose proof (ss_refs _ _ _ _ _ _ Hst _ Hr) as Hx.
  destruct (given_slot _ _ _ _ _ _ _ Hst Hx) as (Hv&Hh&s&Hs).
  cbn [act]. unfold exchange_lifecycle, index. rewrite Hs. cbn [mbind rust_bind].
  case_decide as Hw; [|by eapply (try_release_ok sl (DropExchange r _ _ _))]. destruct Hw as [<- _].
  destruct (state_view _ _ _ _ _ _ _ _ Hst Hs) as (st&g&Hview).
  destruct (ref_slot _ _ _ _ _ _ _ _ _ _ _ Hst Hr Hh Hview) as (Hg&Hu&Hn).
  rewrite (release_update_ok _ _ _ _ _ (sv_is _ _ _ _ _ Hview)) in Hup.
  rewrite (decide_False (P := g <> idx_generation r)), decide_False, decide_True in Hup by (done || congruence).
  injection Hup as <- Eb.
  destruct (used_slot _ _ _ _ _ _ _ _ _ _ r Hst Hs Hh (or_intror Hr) Hview) as (Hlv&_&Hok).
  apply elem_of_Permutation in Hr as [rs Hrs].
  destruct (dropped_here a _ r rs Hrs Hh) as [Hlen Hothers].
  assert (Hsub : forall y, y ∈ rs -> y ∈ refs a) by (intros y Hy; rewrite Hrs; set_solver).
  assert (Hgiven : forall y, y ∈ rs -> is_Some (given a !! y))
    by (intros y Hy; by apply (ss_refs _ _ _ _ _ _ Hst), Hsub).
  rewrite Hlen in Eb |- *. replace (Z.of_nat (S _) - 1) with (Z.of_nat (length (filter (here (slot_of r)) rs))) by lia.
  destruct c.
  - apply andb_true_iff in Eb as [Ez E1]. apply bool_decide_eq_true in Ez as ->, E1.
    assert (Hnil : filter (here (slot_of r)) rs = []) by (apply length_zero_iff_nil; lia).
    apply elem_of_Permutation in Hlv as [lv' Hlv].
    exists (spec_refs a rs), ws, lls, lv'. split; [|split; [done|by apply spec_drops]].
    eapply (move_slot sl (DropExchange r _ _ _) (ClearLoad _) ths a _ ws lls lv lv' (slot_of r) s);
      try done.
    + simpl. rewrite Hlv. by left.
    + intros j [?|?]; by simplify_eq/=.
    + simpl. exists Zombie, g. split; [done|]. eexists.
      split; [apply list_lookup_insert_eq; by eapply lookup_lt_Some|].
      rewrite Hnil. split; [split; [done|]|].
      { destruct (so_is _ _ _ _ _ _ Hok) as [_ [? _]]. split; [done|]. simpl; lia. }
      split; [|destruct (so_contents _ _ _ _ _ _ Hok) as (v&?&_); [done|by exists v]].
      split; simpl; [done| |by apply (so_given _ _ _ _ _ _ Hok)].
      intros y Hy Hl. by apply (so_live _ _ _ _ _ _ Hok) in Hl as [? _].
    + simpl. intros y _ Hy. by apply (ss_given _ _ _ _ _ _ Hst).
    + apply (ss_live _ _ _ _ _ _ Hst).
  - exists (spec_refs a rs), ws, lls, lv. split; [|split; [done|by apply spec_drops]].
    eapply (move_slot sl (DropExchange r _ _ _) Ready ths a _ ws lls lv lv (slot_of r) s); try done.
    + by intros j [?|?].
    + intros _. exists st, g. apply (released_slot a _ _ s st g r rs); try done.
      intros [-> Hnil]. apply andb_false_iff in Eb as [Eb|Eb]; apply bool_decide_eq_false in Eb;
        [done|]. apply Eb. by rewrite Hnil.
    + simpl. intros y _ Hy. by apply (ss_given _ _ _ _ _ _ Hst).
    + apply (ss_live _ _ _ _ _ _ Hst).
Qed.

(** ** Removing *)

Lemma spec_removes_not a x :
  idx_valid x -> x ∉ live a -> spec_step a (Remove x) (Removed false) a.
Proof.
  intros Hv Hn. pose proof (spec_removes a x Hv) as Hs.
  by rewrite bool_decide_false, spec_remove_id in Hs.
Qed.

Lemma spec_removes_live a x :
  idx_valid x -> x ∈ live a -> spec_step a (Remove x) (Removed true) (spec_remove a x).
Proof.
  intros Hv Hn. pose proof (spec_removes a x Hv) as Hs. by rewrite bool_decide_true in Hs.
Qed.

Lemma try_mark_ok sl th ths a ws lls lv x s :
  slab_state sl (th :: ths) a ws lls lv ->
  holding th = None -> list_position th = Idle -> dropping th = None ->
  is_Some (given a !! x) -> slots sl !! slot_of x = Some s ->
  act_result sl th ths a (o ← try_mark x (lifecycle_word s); Ret (keep sl o)).
Proof.
  intros Hst Eh Ep Ed Hx Hs. destruct (given_slot _ _ _ _ _ _ _ Hst Hx) as (Hv&Hh&_).
  destruct (state_view _ _ _ _ _ _ _ _ Hst Hs) as (st&g&Hview). unfold try_mark.
  pose proof (mark_update_ok _ _ _ _ (idx_generation x) (sv_is _ _ _ _ _ Hview)) as E.
  pose proof (sv_live _ _ _ _ _ Hview x Hx Hh) as Hl.
  assert (Hmiss : x ∉ live a ->
    act_result sl th ths a (Ret (sl, Ready, Some (Remove x, Removed false)))).
  { intros Hn. eapply quiet_result; [exact Hst|by simpl|by simpl|done|by simpl|].
    by apply spec_removes_not. }
  destruct (decide (g <> idx_generation x)) as [Hg|Hg].
  { rewrite E. apply Hmiss. rewrite Hl. naive_solver. }
  destruct (decide (st <> Allocated)) as [Ha|Ha].
  { rewrite E. apply Hmiss. rewrite Hl. naive_solver. }
  destruct (decide (_ > 0)); rewrite E; cbn [mbind rust_bind]; unfold keep; cbn [fst snd];
    (eapply quiet_result; [exact Hst|by simpl|by simpl|split; [done|exact E]|by simpl|done]).
Qed.

Lemma step_remove_load cpu fails sl ths a ws lls lv x :
  slab_state sl (RemoveLoad x :: ths) a ws lls lv ->
  act_result sl (RemoveLoad x) ths a (act cpu fails sl (RemoveLoad x)).
Proof.
  intros Hst. pose proof (ss_threads _ _ _ _ _ _ Hst) as Hth.
  apply Forall_cons_1 in Hth as [Hx _]. simpl in Hx.
  destruct (given_slot _ _ _ _ _ _ _ Hst Hx) as (_&_&s&Hs). cbn [act]. rewrite Hs.
  by eapply try_mark_ok.
Qed.

Lemma step_remove_exchange cpu fails sl ths a ws lls lv x prev new u :
  slab_state sl (RemoveExchange x prev new u :: ths) a ws lls lv ->
  act_result sl (RemoveExchange x prev new u) ths a (act cpu fails sl (RemoveExchange x prev new u)).
Proof.
  intros Hst. pose proof (ss_threads _ _ _ _ _ _ Hst) as Hth.
  apply Forall_cons_1 in Hth as [[Hx Hup] _].
  destruct (given_slot _ _ _ _ _ _ _ Hst Hx) as (Hv&Hh&s&Hs).
  cbn [act]. unfold exchange_lifecycle, index. rewrite Hs. cbn [mbind rust_bind].
  case_decide as Hw; [|by eapply try_mark_ok]. destruct Hw as [<- _].
  destruct (state_view _ _ _ _ _ _ _ _ Hst Hs) as (st&g&Hview).
  rewrite (mark_update_ok _ _ _ _ _ (sv_is _ _ _ _ _ Hview)) in Hup.
  destruct (decide (g <> idx_generation x)) as [|Hg]; [done|]. apply dec_stable in Hg.
  destruct (decide (st <> Allocated)) as [|Ha]; [done|]. apply dec_stable in Ha as ->.
  assert (Hl : x ∈ live a) by (by apply (sv_live _ _ _ _ _ Hview)).
  destruct (used_slot _ _ _ _ _ _ _ _ _ _ x Hst Hs Hh (or_introl Hl) Hview) as (Hlv&_&Hok).
  pose proof (fun y => removed_not_live a _ _ s Allocated g x y Hok (eq_sym Hg) Hh) as Hnl.
  assert (Hlive : forall y, y ∈ live (spec_remove a x) -> is_Some (given a !! y)).
  { simpl. intros y [Hy _]%elem_of_difference. by apply (ss_live _ _ _ _ _ _ Hst). }
  assert (Hvalid : forall y, here (slot_of x) y -> is_Some (given (spec_remove a x) !! y) -> idx_valid y).
  { intros y _ Hy. by apply (ss_given _ _ _ _ _ _ Hst). }
  destruct (decide (_ > 0)) as [Hr|Hr]; injection Hup as <- <-.
  - exists (spec_remove a x), ws, lls, lv. split; [|split; [done|by apply spec_removes_live]].
    eapply (move_slot sl (RemoveExchange x _ _ _) Ready ths a _ ws lls lv lv (slot_of x) s); try done.
    + by intros j [?|?].
    + by apply removed_only_at.
    + intros _. exists Zombie, g. by apply zombie_slot.
    + apply (ss_refs _ _ _ _ _ _ Hst).
  - assert (Hnil : filter (here (slot_of x)) (refs a) = []) by (destruct (filter _ _); [done|simpl in Hr; lia]).
    apply elem_of_Permutation in Hlv as [lv' Hlv].
    exists (spec_remove a x), ws, lls, lv'. split; [|split; [done|by apply spec_removes_live]].
    eapply (move_slot sl (RemoveExchange x _ _ _) (ClearLoad _) ths a _ ws lls lv lv' (slot_of x) s);
      try done.
    + simpl. rewrite Hlv. by left.
    + intros j [?|?]; by simplify_eq/=.
    + by apply removed_only_at.
    + simpl. exists Unallocated, g. split; [done|]. eexists.
      split; [apply list_lookup_insert_eq; by eapply lookup_lt_Some|].
      rewrite Hnil. split; [split; [done|]|].
      { destruct (so_is _ _ _ _ _ _ Hok) as [_ [? _]]. split; [done|]. simpl; lia. }
      split; [|destruct (so_contents _ _ _ _ _ _ Hok) as (v&?&_); [done|by exists v]].
      split; [done|exact Hnl|by apply (so_given _ _ _ _ _ _ Hok)].
    + apply (ss_refs _ _ _ _ _ _ Hst).
Qed.

(** ** Allocating *)

(** A change to the slot that the acting thread holds and goes on holding. *)
Lemma keep_slot sl th th' ths a ws lls lv i s s' :
  slab_state sl (th :: ths) a ws lls lv ->
  holding th = Some i -> holding th' = Some i ->
  list_position th = Idle -> list_position th' = Idle ->
  dropping th = None -> dropping th' = None ->
  slots sl !! i = Some s -> next s' = next s ->
  thread_ok (<[i := s']> (slots sl)) a th' ->
  act_result sl th ths a (Ret (with_slot sl i s', th', None)).
Proof.
  intros Hst Eh Eh' Ep Ep' Ed Ed' Hs Hn Hok. exists a, ws, lls, lv. split; [|split; [simpl; congruence|done]].
  eapply (move_slot sl th th' ths a a ws lls lv lv i s s'); try done.
  - by rewrite Eh, Eh'.
  - rewrite Eh. by left.
  - intros j [?|?]; congruence.
  - congruence.
  - intros x _ Hx. by apply (ss_given _ _ _ _ _ _ Hst).
  - apply (ss_live _ _ _ _ _ _ Hst).
  - apply (ss_refs _ _ _ _ _ _ Hst).
Qed.

Lemma insert_here storage i s s' : storage !! i = Some s -> <[i := s']> storage !! i = Some s'.
Proof. intros Hs. apply list_lookup_insert_eq. by eapply lookup_lt_Some. Qed.

Lemma step_alloc_load cpu fails sl ths a ws lls lv v i :
  slab_state sl (AllocLoad v i :: ths) a ws lls lv ->
  act_result sl (AllocLoad v i) ths a (act cpu fails sl (AllocLoad v i)).
Proof.
  intros Hst. pose proof (ss_threads _ _ _ _ _ _ Hst) as Hth.
  apply Forall_cons_1 in Hth as [(g&s&Hs&His&Hu&_) _].
  cbn [act]. unfold index. rewrite Hs. cbn [mbind rust_bind].
  rewrite (slot_is_load _ _ _ _ His). pose proof His as [_ [[??] _]]. simpl.
  unfold checked_add. rewrite decide_True by (unfold usize_bound; lia). cbn [expect mbind rust_bind].
  unfold set_generation. destruct (decide (g + 1 < 2 ^ 46)) as [Hg|Hg].
  - rewrite set_field_ok by lia. cbn [mbind rust_bind set_state refcount lifecycle].
    rewrite bool_decide_true, debug_assert_true by done. cbn [mbind rust_bind].
    eapply quiet_result; [exact Hst|done..| |done|done]. simpl. split; [done|]. split; [lia|].
    replace (g + 1 - 1) with g by lia. by exists s.
  - unfold set_field. rewrite decide_False by lia. simpl. left. exists i, s. split; [done|].
    by replace (2 ^ 46 - 1) with g by lia.
Qed.

Lemma step_alloc_store cpu fails sl ths a ws lls lv v i w g :
  slab_state sl (AllocStore v i w g :: ths) a ws lls lv ->
  act_result sl (AllocStore v i w g) ths a (act cpu fails sl (AllocStore v i w g)).
Proof.
  intros Hst. pose proof (ss_threads _ _ _ _ _ _ Hst) as Hth.
  apply Forall_cons_1 in Hth as [(->&Hg&s&Hs&His&Hu&_) _].
  cbn [act]. unfold index. rewrite Hs. cbn [mbind rust_bind].
  pose proof His as [_ [[??] _]].
  eapply keep_slot; try done. simpl. split; [lia|]. eexists. split; [by eapply insert_here|].
  split; [split; [done|]|done]. split; simpl; lia.
Qed.

Lemma step_alloc_write cpu fails sl ths a ws lls lv v i g :
  slab_state sl (AllocWrite v i g :: ths) a ws lls lv ->
  act_result sl (AllocWrite v i g) ths a (act cpu fails sl (AllocWrite v i g)).
Proof.
  intros Hst. pose proof (ss_threads _ _ _ _ _ _ Hst) as Hth.
  apply Forall_cons_1 in Hth as [(Hg&s&Hs&His&Hu&_) _].
  cbn [act]. unfold index. rewrite Hs. cbn [mbind rust_bind].
  eapply keep_slot; try done. simpl. split; [done|]. eexists. split; [by eapply insert_here|].
  split; [by destruct His|done].
Qed.

Lemma state_size sl ths a ws lls lv :
  slab_state sl ths a ws lls lv -> Z.of_nat (length (slots sl)) < 2 ^ 18.
Proof. intros Hst. apply (ti_size _ _ _ (ss_global _ _ _ _ _ _ Hst)). Qed.

Lemma inserted_only_here i a x v : here i x -> only_here i a (spec_insert a x v).
Proof.
  intros Hx. split; simpl; try done.
  - intros y Hy. rewrite lookup_insert_ne; [done|]. by intros <-.
  - intros y Hy. rewrite elem_of_union, elem_of_singleton. split; [|by right].
    intros [->|?]; [|done]. by destruct Hy.
Qed.

Lemma step_alloc_sign cpu fails sl ths a ws lls lv v i g :
  slab_state sl (AllocSign v i g :: ths) a ws lls lv ->
  act_result sl (AllocSign v i g) ths a (act cpu fails sl (AllocSign v i g)).
Proof.
  intros Hst. pose proof (ss_threads _ _ _ _ _ _ Hst) as Hth.
  apply Forall_cons_1 in Hth as [(Hg&s&Hs&His&[Hur Hul Hug]&Hc) _].
  pose proof (state_size _ _ _ _ _ _ Hst) as Hsz. pose proof (lookup_lt_Some _ _ _ Hs).
  pose proof (state_owned_nodup _ _ _ _ _ _ Hst) as Hnd. pose proof His as [_ [Hgb _]].
  cbn [act]. unfold index. rewrite Hs. cbn [mbind rust_bind].
  rewrite make_idx_ok by lia. cbn [mbind rust_bind].
  set (x := MkIdx g (Z.of_nat i)). assert (Hx : given a !! x = None).
  { destruct (given a !! x) as [v'|] eqn:Ev; [|done]. apply Hug in Ev; [simpl in Ev; lia|done]. }
  assert (Hv : idx_valid x) by (unfold idx_valid; simpl; lia).
  assert (Hmono : forall y, is_Some (given a !! y) -> is_Some (given (spec_insert a x v) !! y)).
  { simpl. intros y [u Hy]. rewrite lookup_insert_ne; [by exists u|]. by intros <-; congruence. }
  exists (spec_insert a x v), ws, lls, (i :: lv).
  split; [|split; [done|by apply spec_inserts]].
  eapply (move_slot sl (AllocSign v i g) Ready ths a _ ws lls lv (i :: lv) i s); try done.
  - by left.
  - intros j [?|?]; by simplify_eq/=.
  - by apply inserted_only_here.
  - intros _. exists Allocated, g. unfold x. replace g with (g - 1 + 1) by lia.
    apply inserted_slot; try done.
    + intros Hn. apply Hn. by left.
    + replace (g - 1 + 1) with g by lia. by destruct His.
    + lia.
  - intros y Hy [u Hyg]. simpl in Hyg. apply lookup_insert_Some in Hyg as [[<- _]|[_ Hyg]]; [done|].
    by apply (ss_given _ _ _ _ _ _ Hst).
  - simpl. intros y [->%elem_of_singleton|Hy]%elem_of_union; [by rewrite lookup_insert_eq|].
    by apply Hmono, (ss_live _ _ _ _ _ _ Hst).
  - intros y Hy. by apply Hmono, (ss_refs _ _ _ _ _ _ Hst).
Qed.

(** ** Clearing *)

Lemma step_clear_load cpu fails sl ths a ws lls lv i :
  slab_state sl (ClearLoad i :: ths) a ws lls lv ->
  act_result sl (ClearLoad i) ths a (act cpu fails sl (ClearLoad i)).
Proof.
  intros Hst. pose proof (ss_threads _ _ _ _ _ _ Hst) as Hth.
  apply Forall_cons_1 in Hth as [(st&g&Hne&s&Hs&His&Hu&Hc) _].
  cbn [act]. unfold index. rewrite Hs. cbn [mbind rust_bind].
  rewrite (slot_is_load _ _ _ _ His), bool_decide_true, debug_assert_true by done.
  cbn [mbind rust_bind]. eapply quiet_result; [exact Hst|done..| |done|done].
  exists st, g. split; [done|]. split; [by exists s|done].
Qed.

Lemma step_clear_store cpu fails sl ths a ws lls lv i w :
  slab_state sl (ClearStore i w :: ths) a ws lls lv ->
  act_result sl (ClearStore i w) ths a (act cpu fails sl (ClearStore i w)).
Proof.
  intros Hst. pose proof (ss_threads _ _ _ _ _ _ Hst) as Hth.
  apply Forall_cons_1 in Hth as [(st&g&Hne&(s&Hs&His&Hu&Hc)&->) _].
  cbn [act]. unfold index. rewrite Hs. cbn [mbind rust_bind].
  eapply keep_slot; try done. exists g. eexists. split; [by eapply insert_here|].
  split; [by destruct His|done].
Qed.

Lemma step_clear_drop cpu fails sl ths a ws lls lv i :
  slab_state sl (ClearDrop i :: ths) a ws lls lv ->
  act_result sl (ClearDrop i) ths a (act cpu fails sl (ClearDrop i)).
Proof.
  intros Hst. pose proof (ss_threads _ _ _ _ _ _ Hst) as Hth.
  apply Forall_cons_1 in Hth as [(g&s&Hs&His&Hu&[v Hc]) _].
  cbn [act]. unfold index. rewrite Hs. cbn [mbind rust_bind]. rewrite Hc. cbn [deref mbind rust_bind].
  eapply keep_slot; try done. exists g. eexists. split; [by eapply insert_here|].
  split; [by destruct His|done].
Qed.

Lemma step_clear_sign cpu fails sl ths a ws lls lv i :
  slab_state sl (ClearSign i :: ths) a ws lls lv ->
  act_result sl (ClearSign i) ths a (act cpu fails sl (ClearSign i)).
Proof.
  intros Hst. pose proof (ss_threads _ _ _ _ _ _ Hst) as Hth.
  apply Forall_cons_1 in Hth as [(g&s&Hs&His&Hu&_) _].
  cbn [act]. unfold index. rewrite Hs. cbn [mbind rust_bind].
  eapply keep_slot; try done. exists g. eexists. split; [by eapply insert_here|].
  split; [by destruct His|done].
Qed.

Lemma returned_slot sl ths a ws lls lv i o j t :
  slab_state sl (Return i o :: ths) a ws lls lv ->
  slots sl !! j = Some t -> j ∉ omap holding ths -> exists st g, slot_ok a (j ∉ lv) j t st g.
Proof.
  intros Hst Hj Hn. destruct (decide (i = j)) as [<-|Hne].
  - pose proof (ss_threads _ _ _ _ _ _ Hst) as Hth.
    apply Forall_cons_1 in Hth as [(g&s&Hs&His&Hu&_) _]. simplify_eq.
    exists Unallocated, g. apply slot_ok_unlisted; [done|done|].
    pose proof (state_owned_nodup _ _ _ _ _ _ Hst) as Hnd. simpl in Hnd.
    apply NoDup_app in Hnd as (_&_&Hnd). apply NoDup_cons in Hnd as [Hnd _]. set_solver.
  - apply (ss_slots _ _ _ _ _ _ Hst); [done|]. simpl. by apply not_elem_of_cons.
Qed.

Lemma step_return cpu fails sl ths a ws lls lv i o :
  slab_state sl (Return i o :: ths) a ws lls lv -> 0 <= cpu < MAX_PROCESSORS ->
  act_clear cpu sl ths (Return i o) ->
  act_result sl (Return i o) ths a (act cpu fails sl (Return i o)).
Proof.
  intros Hst Hcpu Hcl. pose proof (state_size _ _ _ _ _ _ Hst) as Hsz.
  pose proof (state_owned_nodup _ _ _ _ _ _ Hst) as Hnd.
  pose proof (fun j t => returned_slot _ _ _ _ _ _ _ _ j t Hst) as Hsettled.
  destruct Hst as [Hg Hc Hl Hs Ht Hgi Hli Hr].
  apply Forall_cons_1 in Ht as [(g&s&Hi&His&Hu&_) Ht]. simpl in Hnd.
  assert (Hil : i ∉ concat lls).
  { apply NoDup_app in Hnd as (_&Hd&_). intros Hin. apply (Hd i Hin). by left. }
  cbn [act]. case_decide as Ho.
  - destruct (lookup_lt_is_Some_2 (local_free_list sl) (Z.to_nat cpu)) as [cell Hcell]; [lia|].
    destruct (Forall2_lookup_l _ _ _ _ _ Hl Hcell) as (l&Hll&Hch).
    assert (Hnl : i ∉ l) by (intros Hin; apply Hil; by eapply in_concat_lookup).
    destruct (local_push_ok (local_free_list sl) cpu cell l i s (slots sl) Hcell Hch Hi Hnl Hsz) as [E Hch'].
    rewrite E. cbn [mbind rust_bind].
    destruct (concat_insert lls (Z.to_nat cpu) l (i :: l) Hll) as (rest&E1&E2).
    exists a, ws, (<[Z.to_nat cpu := i :: l]> lls), lv. split; [|done]. split; simpl; try done.
    + simpl in Hg. assert (Hin : i ∈ concat lls ++ i :: omap holding ths ++ lv) by set_solver.
      destruct (action_inv _ _ _ _ _ _ _
        (use_next _ _ _ _ _ _ Hin (link_slot_ok _ _ _ (default EMPTY cell) Hi)) I Hg) as (ws'&Hls&Hg').
      inversion Hls; subst ws'. eapply treiber_inv_owned; [|exact Hg'].
      rewrite E1, E2. simpl. solve_Permutation.
    + by rewrite length_insert.
    + apply Forall2_insert; [by apply local_next|exact Hch'].
    + by apply slots_next.
    + constructor; [done|]. eapply Forall_impl; [exact Ht|]. intros t. by apply thread_ok_next.
    + intros x Hx. destruct (Hgi _ Hx). split; [done|]. by eapply in_bounds_slots; [apply length_insert|].
  - pose proof (ti_tag _ _ _ Hg) as Htag. simpl in Htag. pose proof (lookup_lt_Some _ _ _ Hi).
    destruct (take_tag (global_free_list sl) i) as [[f w]|] eqn:E; cbn [mbind rust_bind].
    + simpl in Hg.
      assert (Hp : concat lls ++ i :: omap holding ths ++ lv ≡ₚ i :: concat lls ++ omap holding ths ++ lv)
        by solve_Permutation.
      assert (Hpc : push_clear (global_free_list sl) (list_position <$> ths) i)
        by (unfold act_clear in Hcl; by rewrite bool_decide_false in Hcl).
      destruct (action_inv _ _ _ _ _ _ _ (start_push _ _ _ _ _ _ _ Hp E) Hpc Hg) as (ws'&_&?).
      exists a, ws', lls, lv. split; [|done]. split; simpl; try done. by constructor.
    + right; left. destruct (decide (tag (global_free_list sl) < 2 ^ 46)); [|lia].
      rewrite take_tag_ok in E by lia. done.
Qed.

(** ** The loops of the global list *)

Lemma step_pop_global cpu fails sl ths a ws lls lv v p :
  slab_state sl (PopGlobal v p :: ths) a ws lls lv ->
  act_result sl (PopGlobal v p) ths a (act cpu fails sl (PopGlobal v p)).
Proof.
  intros Hst. pose proof (ss_threads _ _ _ _ _ _ Hst) as Hth.
  apply Forall_cons_1 in Hth as [Hp Ht]. simpl in Hp.
  destruct Hst as [Hg Hc Hl Hs _ Hgi Hli Hr]. simpl in Hg.
  pose proof (pop_act_ok _ _ _ _ _ _ Hp Hg) as Hact. cbn [act].
  destruct (pop_act _ _ _) as [[f [p'|[i|]]]|]; [| | |done]; cbn [mbind rust_bind].
  - destruct Hact as [Hp' Hg']. exists a, ws, lls, lv. split; [|done].
    split; try done. by constructor.
  - destruct Hact as (ws'&Hg'). exists a, ws', lls, lv. split; [|done].
    assert (Hin : (i ∉ omap holding ths) /\ (i ∉ lv)).
    { pose proof (ti_slots _ _ _ Hg') as Hnd. simpl in Hnd.
      apply NoDup_app in Hnd as (_&_&Hnd). apply NoDup_app in Hnd as (_&_&Hnd).
      apply NoDup_cons in Hnd as [Hnd _]. set_solver. }
    assert (Hlt : is_Some (slots sl !! i)).
    { apply lookup_lt_is_Some_2. pose proof (ti_bounds _ _ _ Hg') as Hb. simpl in Hb.
      rewrite Forall_forall in Hb. apply Hb. set_solver. }
    split; simpl; try done.
    + eapply treiber_inv_owned; [|exact Hg']. solve_Permutation.
    + intros j s Hj Hn. apply Hs; [done|]. set_solver.
    + constructor; [|done]. by apply (take_slot sl a lv (omap holding ths)); [exact Hs|..]; try apply Hin.
  - exists a, ws, lls, lv. split; [|split; [done|by constructor]]. split; try done. by constructor.
Qed.

Lemma step_push_global cpu fails sl ths a ws lls lv p :
  slab_state sl (PushGlobal p :: ths) a ws lls lv ->
  act_result sl (PushGlobal p) ths a (act cpu fails sl (PushGlobal p)).
Proof.
  intros Hst. pose proof (ss_threads _ _ _ _ _ _ Hst) as Hth.
  apply Forall_cons_1 in Hth as [Hp Ht]. simpl in Hp.
  destruct Hst as [Hg Hc Hl Hs _ Hgi Hli Hr]. simpl in Hg.
  pose proof (push_act_ok _ _ _ _ _ _ Hp Hg) as Hact. cbn [act].
  destruct (push_act _ _ _) as [[[f st] p']|]; [|done]; cbn [mbind rust_bind].
  destruct Hact as (Hp'&(ws'&Hg')&Hstorage).
  set (th' := match p' with Idle => Ready | _ => PushGlobal p' end).
  assert (Hth' : list_position th' = p' /\ holding th' = None /\ dropping th' = None /\
    forall storage, thread_ok storage a th').
  { unfold th'. by destruct Hp' as [->|Hp']; [|destruct p']. }
  destruct Hth' as (E1&E2&E3&E4). exists a, ws', lls, lv. split; [|done].
  assert (Eo : omap holding (th' :: ths) = omap holding ths) by (simpl; by rewrite E2).
  destruct Hstorage as [->|(i&s&n&Hi&->&Hni)].
  - split; rewrite ?Eo, ?fmap_cons, ?E1; simpl; try done. by constructor.
  - split; rewrite ?Eo, ?fmap_cons, ?E1; simpl; try done.
    + apply local_next; [|done]. set_solver.
    + by apply slots_next.
    + constructor; [done|]. eapply Forall_impl; [exact Ht|]. intros t. by apply thread_ok_next.
    + intros x Hx. destruct (Hgi _ Hx). split; [done|]. by eapply in_bounds_slots; [apply length_insert|].
Qed.

(** Every action of every call. *)
Lemma act_ok cpu fails sl th ths a ws lls lv :
  slab_state sl (th :: ths) a ws lls lv -> 0 <= cpu < MAX_PROCESSORS ->
  (forall r, dropping th = Some r -> r ∈ refs a) -> act_clear cpu sl ths th ->
  act_result sl th ths a (act cpu fails sl th).
Proof.
  intros Hst Hcpu Hr Hcl. destruct th.
  - by exists a, ws, lls, lv.
  - destruct (step_pop_local _ _ _ _ _ _ _ _ Hst Hcpu) as (sl'&th'&lls'&E&?&?).
    change (act cpu fails sl (PopLocal v)) with (act cpu false sl (PopLocal v)). rewrite E.
    by exists a, ws, lls', lv.
  - by eapply step_pop_global.
  - by eapply step_alloc_load.
  - by eapply step_alloc_store.
  - by eapply step_alloc_write.
  - by eapply step_alloc_sign.
  - by eapply step_get_load.
  - by eapply step_get_exchange.
  - eapply step_drop_load; [exact Hst|by apply Hr].
  - eapply step_drop_exchange; [exact Hst|by apply Hr].
  - by eapply step_remove_load.
  - by eapply step_remove_exchange.
  - by eapply step_clear_load.
  - by eapply step_clear_store.
  - by eapply step_clear_drop.
  - by eapply step_clear_sign.
  - by eapply step_return.
  - by eapply step_push_global.
Qed.

(** An action that panics is clear. *)
Lemma panic_clear cpu fails sl th ths a ws lls lv why :
  slab_state sl (th :: ths) a ws lls lv -> act cpu fails sl th = Panic why -> act_clear cpu sl ths th.
Proof.
  intros Hst E. destruct th as [| | | | | | | | | | | | | | | | |i o|]; try done.
  unfold act_clear. cbn [act] in E. case_decide as Ho; [by rewrite bool_decide_true|].
  unfold push_clear. destruct (decide (tag (global_free_list sl) = 0)) as [H0|H0].
  - pose proof (ss_threads _ _ _ _ _ _ Hst) as Hth. apply Forall_cons_1 in Hth as [(g&s&Hi&_) _].
    pose proof (state_size _ _ _ _ _ _ Hst). pose proof (lookup_lt_Some _ _ _ Hi).
    rewrite take_tag_ok in E by lia. done.
  - rewrite (bool_decide_true (tag _ <> 0)) by done. by rewrite orb_true_r.
Qed.
End invariant.
