(* ===== verification/SlabHistories.v ===== *)
(** Histories of the concurrent slab: the invariant of [SlabConcurrent] for
    the whole system, and the properties of its executions: they are
    sequences of the abstract slab, nobody touches a slot's contents while
    somebody else may, and a call that is left alone returns. *)
From S2P Require Import Prelude Bitfields Topology Slot FreeLists Slab SlabSpec Treiber SlabSteps.
From S2P Require Import SlabConcurrent.

(** * The invariant of the system *)

Section system.
Context {prof : Profile} {bits : ModularBitfield} {topology : Topology} {T : Type}.
Implicit Types (sl : Slab T) (a : spec T) (s : Slot T) (x r : Idx) (v : T) (i cpu : nat)
  (th : thread T) (ths : list (thread T)) (w : world T).

(** The calls [ths], which have [held] and know [known], and the slab they
    work on, against the specification. *)
Record calls_inv sl ths a (held known : list Idx) : Prop := {
  ci_state : exists ws lls lv, slab_state sl ths a ws lls lv;
  ci_refs : refs a ≡ₚ held ++ omap dropping ths;
  ci_known x : x ∈ known -> is_Some (given a !! x);
}.

(** The system, when the calls [suspended] are in progress besides those of
    [threads_of]. *)
Record system_inv w a (suspended : list (thread T)) : Prop := {
  si_calls : calls_inv (slab_of w) (threads_of w ++ suspended) a (held_of w) (known_of w);
  si_threads : length (threads_of w) = Z.to_nat MAX_PROCESSORS;
}.

Record world_inv w a : Prop := {
  wi_state : exists ws lls lv, slab_state (slab_of w) (threads_of w) a ws lls lv;
  wi_threads : length (threads_of w) = Z.to_nat MAX_PROCESSORS;
  wi_refs : refs a ≡ₚ held_of w ++ omap dropping (threads_of w);
  wi_known x : x ∈ known_of w -> is_Some (given a !! x);
}.

Lemma world_system w a : world_inv w a <-> system_inv w a [].
Proof.
  split.
  - intros [Hs Hl Hr Hk]. split; [|done]. rewrite app_nil_r. by split.
  - intros [Hc Hl]. rewrite app_nil_r in Hc. destruct Hc as [Hs Hr Hk]. by split.
Qed.

Lemma slab_state_perm sl ths ths' a ws lls lv :
  ths ≡ₚ ths' -> slab_state sl ths a ws lls lv -> slab_state sl ths' a ws lls lv.
Proof.
  intros Hp [Hg Hc Hl Hs Ht Hgi Hli Hr]. split; try done.
  - eapply treiber_inv_perm; [by apply fmap_Permutation|].
    eapply treiber_inv_owned; [|exact Hg]. by rewrite Hp.
  - intros i s Hi Hn. apply Hs; [done|]. by rewrite Hp.
  - by rewrite <-Hp.
Qed.

Lemma calls_perm sl ths ths' a held known :
  ths ≡ₚ ths' -> calls_inv sl ths a held known -> calls_inv sl ths' a held known.
Proof.
  intros Hp [(ws&lls&lv&Hst) Hr Hk]. split; [|by rewrite <-Hp|done].
  exists ws, lls, lv. by eapply slab_state_perm.
Qed.

Lemma step_given_mono a c o a' x : spec_step a c o a' -> is_Some (given a !! x) -> is_Some (given a' !! x).
Proof.
  intros Hs Hx. destruct Hs; simpl; try done. destruct (decide (x = x0)) as [->|].
  - by rewrite lookup_insert_eq.
  - by rewrite lookup_insert_ne.
Qed.

(** What a reference refers to. *)
Lemma deref_state sl ths a ws lls lv r :
  slab_state sl ths a ws lls lv -> r ∈ refs a ->
  exists v, ref_deref sl r = Ret v /\ given a !! r = Some v.
Proof.
  intros Hst Hr. pose proof (ss_refs _ _ _ _ _ _ Hst _ Hr) as Hx.
  destruct (given_slot _ _ _ _ _ _ _ Hst Hx) as (Hv&Hh&s&Hs).
  destruct (state_view _ _ _ _ _ _ _ _ Hst Hs) as (st&g&Hview).
  destruct (ref_slot _ _ _ _ _ _ _ _ _ _ _ Hst Hr Hh Hview) as (Hg&Hu&_).
  destruct (used_slot _ _ _ _ _ _ _ _ _ _ r Hst Hs Hh (or_intror Hr) Hview) as (_&_&Hok).
  destruct (so_contents _ _ _ _ _ _ Hok Hu) as (v&Hc&Hgv). exists v.
  unfold ref_deref. change (Z.to_nat (idx_index r)) with (slot_of r). rewrite Hs. simpl. rewrite Hc.
  split; [done|]. by rewrite (idx_at _ _ Hh), Hg.
Qed.

(** The references that are out after an action. *)
Lemma refs_after a a' th th' rest held (e : option (call T * outcome T)) :
  refs a ≡ₚ held ++ omap dropping (th :: rest) -> hands th th' e ->
  match e with Some (c, o) => spec_step a c o a' | None => a' = a end ->
  refs a' ≡ₚ (match e with Some (_, Got (Some x)) => [x] | _ => [] end ++ held)
               ++ omap dropping (th' :: rest).
Proof.
  intros Hp Hh Hs. destruct e as [[c o]|]; simpl in Hh, Hp; [|subst; simpl; by rewrite Hh].
  destruct Hs as [a v x ? ? ?|a v|a x ?|a x ? ?|a x ? ?|a r v ? ?|a r rs Hrs]; simpl in *;
    rewrite ?Hh; try done.
  - by rewrite Hp.
  - destruct Hh as [E E']. rewrite E'. rewrite E in Hp. simpl in Hp.
    apply (Permutation_cons_inv (a := r)). rewrite <-Hrs, Hp. solve_Permutation.
Qed.

Lemma event_given a a' (e : option (call T * outcome T)) x :
  match e with Some (c, o) => spec_step a c o a' | None => a' = a end ->
  x ∈ match e with Some (_, Inserted x) => [x] | _ => [] end -> is_Some (given a' !! x).
Proof.
  intros Hs Hx. destruct e as [[c o]|]; [|by apply elem_of_nil in Hx].
  destruct Hs; simpl in *; try (by apply elem_of_nil in Hx).
  apply list_elem_of_singleton in Hx as ->. by rewrite lookup_insert_eq.
Qed.

(** A counter of the slab is used up, when calls have or drop [rs]. *)
Definition used_up sl (rs : list Idx) : Prop :=
  (exists i, exhausted sl i) \/ 2 ^ 46 <= tag (global_free_list sl) \/
  2 ^ 16 - 1 <= Z.of_nat (length rs).

Definition counters_used w : Prop :=
  used_up (slab_of w) (held_of w ++ omap dropping (threads_of w)).

Lemma act_calls sl th rest a held known (cpu : Z) fails :
  calls_inv sl (th :: rest) a held known -> 0 <= cpu < MAX_PROCESSORS ->
  match act cpu fails sl th with
  | Ret (sl', th', e) => act_clear cpu sl rest th -> exists a',
      calls_inv sl' (th' :: rest) a'
        (match e with Some (_, Got (Some x)) => [x] | _ => [] end ++ held)
        (match e with Some (_, Inserted x) => [x] | _ => [] end ++ known) /\
      match e with Some (c, o) => spec_step a c o a' | None => a' = a end
  | Panic _ => used_up sl (held ++ omap dropping (th :: rest))
  end.
Proof.
  intros [(ws&lls&lv&Hst) Hrefs Hknown] Hcpu.
  assert (Hact : act_clear cpu sl rest th -> act_result sl th rest a (act cpu fails sl th)).
  { eapply act_ok; [exact Hst|lia|]. intros r Hr. rewrite Hrefs. simpl. rewrite Hr. set_solver. }
  destruct (act _ _ _ _) as [[[sl' th'] e]|why] eqn:E.
  - intros Hcl. destruct (Hact Hcl) as (a'&ws'&lls'&lv'&Hst2&Hh&Hs). exists a'. split; [|done]. split.
    + by exists ws', lls', lv'.
    + by eapply refs_after.
    + intros x [Hx|Hx]%elem_of_app; [by eapply event_given|].
      specialize (Hknown _ Hx). destruct e as [[c o]|]; [by eapply step_given_mono|by subst a'].
  - specialize (Hact (panic_clear _ _ _ _ _ _ _ _ _ _ Hst E)).
    destruct Hact as [?|[?|(i&Hi)]]; [by left|by right; left|]. right; right.
    etransitivity; [exact Hi|]. apply Nat2Z.inj_le. rewrite <-Hrefs. apply length_filter.
Qed.

Lemma begin_calls w rest a (c : call T) held :
  calls_inv (slab_of w) (Ready :: rest) a (held_of w) (known_of w) -> may_begin w c = Some held ->
  calls_inv (slab_of w) (begin_call c :: rest) a held (known_of w).
Proof.
  intros [(ws&lls&lv&Hst) Hrefs Hknown] Hmay.
  assert (Hc : holding (begin_call c) = None /\ list_position (begin_call c) = Idle /\
    thread_ok (slots (slab_of w)) a (begin_call c) /\
    held_of w ++ omap dropping rest ≡ₚ held ++ omap dropping (begin_call c :: rest)).
  { destruct c as [v|x|x|r|r]; simpl in Hmay |- *; try case_decide; simplify_eq; try done;
      try (by split_and!; auto).
    apply hand_back_Some in Hmay. split_and!; try done. rewrite Hmay. solve_Permutation. }
  destruct Hc as (Eh&Ep&Hok&Hheld). split; [|by rewrite <-Hheld|done].
  exists ws, lls, lv. by eapply (move_thread _ Ready).
Qed.

(** The acting thread is in no loop when it returns a slot. *)
Lemma act_clear_first (cpu : Z) sl ths th rest :
  ths ≡ₚ th :: rest -> act_clear cpu sl ths th = act_clear cpu sl rest th.
Proof.
  intros Hp. destruct th as [| | | | | | | | | | | | | | | | |i o|]; try done.
  unfold act_clear, push_clear. do 2 f_equal.
  apply eq_true_iff_eq. rewrite !forallb_forall. setoid_rewrite <-list_elem_of_In.
  setoid_rewrite Hp. rewrite fmap_cons. setoid_rewrite elem_of_cons. simpl. naive_solver.
Qed.

(** The acting processor's call first. *)
Lemma system_first w a sus cpu th th' :
  system_inv w a sus -> threads_of w !! cpu = Some th ->
  exists rest, threads_of w ++ sus ≡ₚ th :: rest /\ <[cpu := th']> (threads_of w) ++ sus ≡ₚ th' :: rest /\
    calls_inv (slab_of w) (th :: rest) a (held_of w) (known_of w) /\ 0 <= Z.of_nat cpu < MAX_PROCESSORS.
Proof.
  intros [Hc Hlen] Hth. destruct (insert_first _ _ _ th' Hth) as (rest&Hp&Hp').
  assert (Hq : threads_of w ++ sus ≡ₚ th :: rest ++ sus) by (by rewrite Hp).
  exists (rest ++ sus). split; [done|]. split; [by rewrite Hp'|].
  split; [by eapply calls_perm|apply lookup_lt_Some in Hth; lia].
Qed.

(** The first push of a slot to the global list is clear, see [Treiber];
    any other move is. *)
Definition clear_move w (sus : list (thread T)) (m : move T) : bool :=
  match m with
  | Act cpu _ =>
      match threads_of w !! cpu with
      | Some th => act_clear (Z.of_nat cpu) (slab_of w) (threads_of w ++ sus) th
      | None => true
      end
  | _ => true
  end.

Lemma act_system w a sus cpu fails th :
  system_inv w a sus -> threads_of w !! cpu = Some th ->
  match act (Z.of_nat cpu) fails (slab_of w) th with
  | Ret (sl, th', e) => clear_move w sus (Act cpu fails) -> exists a', system_inv (learn w sl cpu th' e) a' sus /\
      match e with Some (c, o) => spec_step a c o a' | None => a' = a end
  | Panic _ => used_up (slab_of w) (held_of w ++ omap dropping (threads_of w ++ sus))
  end.
Proof.
  intros Hi Hth. pose proof (system_first _ _ _ _ _ Ready Hi Hth) as (rest&Hp&_&Hc&Hcpu).
  pose proof (act_calls _ _ _ _ _ _ _ fails Hc Hcpu) as Hact.
  destruct (act _ _ _ _) as [[[sl th'] e]|].
  - unfold clear_move. rewrite Hth, (act_clear_first _ _ _ _ _ Hp). intros Hcl.
    destruct (Hact Hcl) as (a'&Hc'&Hs). exists a'. split; [|done].
    destruct (system_first _ _ _ _ _ th' Hi Hth) as (rest'&Hp1&Hp2&_&_).
    assert (Hr : rest ≡ₚ rest') by (apply (Permutation_cons_inv (a := th)); by rewrite <-Hp, Hp1).
    split; simpl; [|by rewrite length_insert; apply Hi].
    eapply calls_perm; [|exact Hc']. by rewrite Hp2, Hr.
  - unfold used_up in *. by rewrite Hp.
Qed.

Lemma begin_system w a sus cpu (c : call T) held :
  system_inv w a sus -> threads_of w !! cpu = Some Ready -> may_begin w c = Some held ->
  system_inv (MkWorld (slab_of w) (<[cpu := begin_call c]> (threads_of w)) held (known_of w)) a sus.
Proof.
  intros Hi Hth Hmay. destruct (system_first _ _ _ _ _ (begin_call c) Hi Hth) as (rest&_&Hp&Hc&_).
  split; simpl; [|by rewrite length_insert; apply Hi].
  eapply calls_perm; [symmetry; exact Hp|]. by eapply begin_calls.
Qed.

(** Every move of the system is a step of the specification for every call
    that takes effect in it, and it does not panic while the counters last. *)
Lemma move_system w a sus (m : move T) :
  system_inv w a sus ->
  match do_move w m with
  | Ret (w', es) => clear_move w sus m -> exists a', spec_trace a es a' /\ system_inv w' a' sus
  | Panic _ => used_up (slab_of w) (held_of w ++ omap dropping (threads_of w ++ sus))
  end.
Proof.
  intros Hi. assert (Hsame : true -> exists a', spec_trace a [] a' /\ system_inv w a' sus)
    by (exists a; split; [constructor|done]).
  destruct m as [cpu c|cpu r|cpu fails]; cbn [do_move].
  - intros _. exists a. split; [constructor|].
    destruct (threads_of w !! cpu) as [[]|] eqn:E; try done.
    destruct (may_begin w c) as [held|] eqn:Em; [|done]. by apply begin_system.
  - destruct (threads_of w !! cpu) as [[]|]; try done. case_decide as Hr; [|done].
    pose proof Hi as [[(ws&lls&lv&Hst) Hrefs _] _].
    assert (Hr' : r ∈ refs a) by (rewrite Hrefs; set_solver).
    destruct (deref_state _ _ _ _ _ _ _ Hst Hr') as (v&->&Hg). simpl.
    intros _. exists a. split; [|done]. econstructor; [by constructor|constructor].
  - destruct (threads_of w !! cpu) as [th|] eqn:E; [|intros _; by apply Hsame].
    pose proof (act_system _ _ _ _ fails _ Hi E) as Hact.
    destruct (act _ _ _ _) as [[[sl th'] e]|]; cbn [mbind rust_bind]; [|done].
    intros Hcl. destruct (Hact Hcl) as (a'&Hi'&Hs). exists a'. split; [|done].
    destruct e as [[c o]|]; simpl; [by econstructor; [|constructor]|subst; constructor].
Qed.

(** Without suspended calls. *)
Lemma act_world w a cpu fails th :
  world_inv w a -> threads_of w !! cpu = Some th ->
  match act (Z.of_nat cpu) fails (slab_of w) th with
  | Ret (sl, th', e) => clear_move w [] (Act cpu fails) -> exists a', world_inv (learn w sl cpu th' e) a' /\
      match e with Some (c, o) => spec_step a c o a' | None => a' = a end
  | Panic _ => counters_used w
  end.
Proof.
  intros Hi Hth. rewrite world_system in Hi. pose proof (act_system _ _ _ _ fails _ Hi Hth) as Hact.
  destruct (act _ _ _ _) as [[[sl th'] e]|]; [|by rewrite app_nil_r in Hact].
  intros Hcl. destruct (Hact Hcl) as (a'&Hi'&Hs). exists a'. by rewrite world_system.
Qed.

Lemma begin_world w a cpu (c : call T) held :
  world_inv w a -> threads_of w !! cpu = Some Ready -> may_begin w c = Some held ->
  world_inv (MkWorld (slab_of w) (<[cpu := begin_call c]> (threads_of w)) held (known_of w)) a.
Proof. rewrite !world_system. apply begin_system. Qed.

Lemma move_world w a (m : move T) :
  world_inv w a ->
  match do_move w m with
  | Ret (w', es) => clear_move w [] m -> exists a', spec_trace a es a' /\ world_inv w' a'
  | Panic _ => counters_used w
  end.
Proof.
  intros Hi. rewrite world_system in Hi. pose proof (move_system _ _ _ m Hi) as Hm.
  destruct (do_move w m) as [[w' es]|]; [|by rewrite app_nil_r in Hm].
  intros Hcl. destruct (Hm Hcl) as (a'&Ht&Hi'). exists a'. by rewrite world_system.
Qed.

(** A move that panics is clear. *)
Lemma move_panic_clear w a (m : move T) why :
  world_inv w a -> do_move w m = Panic why -> clear_move w [] m.
Proof.
  intros Hi E. destruct m as [cpu c|cpu r|cpu fails]; try done. unfold clear_move. simpl in E.
  destruct (threads_of w !! cpu) as [th|] eqn:Hth; [|done].
  apply world_system in Hi.
  destruct (system_first _ _ _ _ _ Ready Hi Hth) as (rest&Hp&_&[(ws&lls&lv&Hst) _ _]&_).
  rewrite (act_clear_first _ _ _ _ _ Hp).
  destruct (act _ _ _ _) as [[[sl th'] e]|] eqn:Ea; [done|]. by eapply panic_clear.
Qed.

Lemma spec_trace_cat a tr1 a1 tr2 a2 :
  spec_trace a tr1 a1 -> spec_trace a1 tr2 a2 -> spec_trace a (tr1 ++ tr2) a2.
Proof. induction 1; simpl; [done|]. intros. econstructor; [done|auto]. Qed.

(** The first push of an execution is clear. *)
Fixpoint clear_play w (ms : list (move T)) : bool :=
  match ms with
  | [] => true
  | m :: ms =>
      clear_move w [] m &&
      match do_move w m with Ret (w, _) => clear_play w ms | Panic _ => true end
  end.

Lemma play_world w a ms w' es :
  world_inv w a -> play w ms = Ret (w', es) -> clear_play w ms ->
  exists a', spec_trace a es a' /\ world_inv w' a'.
Proof.
  revert w a es. induction ms as [|m ms IH]; intros w a es Hi E Hcl; simpl in E, Hcl.
  - simplify_eq. exists a. split; [constructor|done].
  - pose proof (move_world w a m Hi) as Hm. rust_inv E. destruct x as [w1 es1]. rust_inv E.
    destruct x as [w2 es2]. simplify_eq. rewrite Hx in Hm, Hcl.
    apply andb_True in Hcl as [Hc Hcl]. destruct (Hm Hc) as (a1&Ht1&Hi1).
    destruct (IH _ _ _ Hi1 Hx0 Hcl) as (a2&Ht2&Hi2). exists a2. split; [|done].
    by eapply spec_trace_cat.
Qed.

(** ** The start: a slab that whole calls have led to *)

(** Every entry of the global list has a tag that the counter is past. This
    is so once every slot of the initial list has been allocated, and not
    before. *)
Definition tagged sl : bool :=
  bool_decide (Forall (fun entry => tag_of entry < tag (global_free_list sl))
    (words (length (slots sl)) (slots sl) (head (global_free_list sl)))).

(** In a new slab, and ever after, a tag may be 0 as long as the counter is. *)
Definition settled sl : Prop :=
  Forall (fun entry => tag_of entry < next_tag (global_free_list sl))
    (words (length (slots sl)) (slots sl) (head (global_free_list sl))).

Lemma omap_ready n : omap holding (replicate n (Ready : thread T)) = [] /\
  omap dropping (replicate n (Ready : thread T)) = [] /\
  list_position <$> replicate n (Ready : thread T) = replicate n Idle.
Proof. induction n as [|n (E1&E2&E3)]; [done|].
  split_and!; [exact E1|exact E2|simpl; by f_equal].
Qed.

Lemma rest_state sl a n :
  slab_inv sl a -> settled sl -> exists ws lls lv, slab_state sl (replicate n Ready) a ws lls lv.
Proof.
  intros [Hsz (gl&lls&Hl&Hall) Hb] Ht. destruct (omap_ready n) as (E1&E2&E3).
  pose proof (fun i => lists_lt _ _ _ _ _ i Hl) as Hlt. destruct Hl as [Hc Hg Hloc Hnd Htag].
  assert (Hgl : (length gl <= length (slots sl))%nat).
  { apply nodup_bounded; [by apply NoDup_app in Hnd as [? _]|]. apply Forall_forall.
    intros i Hi. apply Hlt. set_solver. }
  destruct (chain_words _ _ _ _ Hg Hgl) as [Hw Ei]. unfold settled in Ht.
  set (ws := words _ _ _) in *. set (lv := filter (fun i => i ∉ gl ++ concat lls) (seq 0 (length (slots sl)))).
  assert (Hlv : forall i, i ∈ lv <-> (i < length (slots sl))%nat /\ i ∉ gl ++ concat lls).
  { intros i. unfold lv. rewrite list_elem_of_filter, elem_of_seq. split; intros [? ?]; split; done || lia. }
  assert (Hnd' : NoDup ((head_index <$> ws) ++ concat lls ++ lv)).
  { rewrite Ei, app_assoc. apply NoDup_app. split; [done|]. split; [|apply NoDup_filter, NoDup_seq].
    intros i Hi. rewrite Hlv. by intros [_ ?]. }
  exists ws, lls, lv. split; rewrite ?E1, ?E3.
  - split; rewrite ?pending_idle; simpl; try done.
    + rewrite Forall_forall. intros i. rewrite Ei, app_assoc, elem_of_app, Hlv. intros [Hi|[? _]]; auto.
    + rewrite app_nil_r. apply NoDup_app in Hnd' as [Hw' _]. by eapply NoDup_fmap_1.
    + by rewrite app_nil_r.
    + by apply Forall_replicate.
  - done.
  - done.
  - intros i s Hi _. destruct (Hall _ _ Hi) as (st&g&Hok). exists st, g.
    eapply slot_ok_fr; [|exact Hok]. rewrite Hlv. pose proof (lookup_lt_Some _ _ _ Hi).
    split; [intros Hin [_ ?]; done|]. intros Hn. apply dec_stable. intros Hn'. by apply Hn.
  - by apply Forall_replicate.
  - intros x Hx. pose proof (Hb x (or_intror (or_intror Hx))) as Hbx. split; [|done].
    destruct (lookup_lt_is_Some_2 (slots sl) (Z.to_nat (idx_index x))) as [s Hs]; [unfold in_bounds in Hbx; lia|].
    destruct (Hall _ _ Hs) as (st&g&Hok). destruct Hx as [v Hx]. unfold in_bounds in Hbx.
    pose proof (so_given _ _ _ _ _ _ Hok x v Hx ltac:(unfold here; lia)).
    destruct (so_is _ _ _ _ _ _ Hok) as [_ [? _]]. unfold idx_valid. lia.
  - intros x Hx. pose proof (Hb x (or_intror (or_introl Hx))) as Hbx. unfold in_bounds in Hbx.
    destruct (lookup_lt_is_Some_2 (slots sl) (Z.to_nat (idx_index x))) as [s Hs]; [lia|].
    destruct (Hall _ _ Hs) as (st&g&Hok). assert (Hh : here (Z.to_nat (idx_index x)) x) by (unfold here; lia).
    apply (so_live _ _ _ _ _ _ Hok x Hh) in Hx as [-> Hgx].
    destruct (so_contents _ _ _ _ _ _ Hok ltac:(done)) as (v&_&Hv). exists v.
    by rewrite (idx_at _ _ Hh), Hgx.
  - intros x Hx. pose proof (Hb x (or_introl Hx)) as Hbx. unfold in_bounds in Hbx.
    destruct (lookup_lt_is_Some_2 (slots sl) (Z.to_nat (idx_index x))) as [s Hs]; [lia|].
    destruct (Hall _ _ Hs) as (st&g&Hok). assert (Hh : here (Z.to_nat (idx_index x)) x) by (unfold here; lia).
    destruct (slot_ok_view _ _ _ _ _ _ Hok) as [_ Hsr _]. destruct (Hsr x Hx Hh) as [Hgx Hst].
    destruct (so_contents _ _ _ _ _ _ Hok Hst) as (v&_&Hv). exists v. by rewrite (idx_at _ _ Hh), Hgx.
Qed.

Lemma new_settled SIZE : (0 < SIZE)%nat -> Z.of_nat SIZE < 2 ^ 18 -> settled (new_slab (T := T) SIZE).
Proof.
  intros Hpos Hsz. pose proof (in_entries _ _ (slab_initial (T := T) SIZE Hpos Hsz)) as He.
  rewrite length_seq in He. unfold settled, next_tag.
  assert (Hlen : length (slots (new_slab (T := T) SIZE)) = SIZE)
    by (simpl; unfold fresh_slots; by rewrite length_fmap, length_seq).
  rewrite Hlen. eapply Forall_impl; [exact He|]. simpl. lia.
Qed.

(** A new slab with all processors between calls. *)
Lemma new_world SIZE sl :
  (0 < SIZE)%nat -> slab_new SIZE = Ret sl -> world_inv (at_rest sl [] []) spec_empty.
Proof.
  intros Hpos E. rewrite slab_new_eq in E. case_decide as Hsz; [|done]. injection E as <-.
  split; simpl.
  - apply rest_state; [by apply new_slab_inv|by apply new_settled].
  - by rewrite length_replicate.
  - by destruct (omap_ready (Z.to_nat MAX_PROCESSORS)) as (_&->&_).
  - intros x Hx. by apply elem_of_nil in Hx.
Qed.

(** ** A call that is left alone *)

(** The word of slot [i] is [prev], so that an exchange will succeed. *)
Definition word_is sl i (prev : Z) : bool :=
  match slots sl !! i with Some s => bool_decide (lifecycle_word s = prev) | None => true end.

(** A bound on the actions that are left of a call. *)
Definition actions_left sl th : nat :=
  let at_head (old : Z) := bool_decide (head (global_free_list sl) = old) in
  match th with
  | Ready => 0
  | PopLocal _ => 8
  | PopGlobal _ (PopRead old _) => if at_head old then 5 else 8
  | PopGlobal _ (PopLoaded old) => if at_head old then 6 else 9
  | PopGlobal _ _ => 7
  | AllocLoad _ _ => 4
  | AllocStore _ _ _ _ => 3
  | AllocWrite _ _ _ => 2
  | AllocSign _ _ _ => 1
  | GetLoad _ => 2
  | GetExchange x prev _ => if word_is sl (slot_of x) prev then 1 else 2
  | DropLoad _ | RemoveLoad _ => 10
  | DropExchange x prev _ _ | RemoveExchange x prev _ _ =>
      if word_is sl (slot_of x) prev then 9 else 10
  | ClearLoad _ => 8
  | ClearStore _ _ => 7
  | ClearDrop _ => 6
  | ClearSign _ => 5
  | Return _ _ => 4
  | PushGlobal (PushLinked _ _ old) => if at_head old then 1 else 4
  | PushGlobal (PushLoaded _ _ old) => if at_head old then 2 else 5
  | PushGlobal _ => 3
  end.

Lemma actions_left_bound sl th : (actions_left sl th <= 10)%nat.
Proof. destruct th as [| |v []| | | | | | | | | | | | | | | |[]]; simpl; repeat case_match; lia. Qed.

Lemma word_is_own sl i s : slots sl !! i = Some s -> word_is sl i (lifecycle_word s) = true.
Proof. intros Hs. unfold word_is. rewrite Hs. by apply bool_decide_true. Qed.

(** After a failed exchange, and after a load, the next one succeeds. *)
Lemma try_acquire_left sl x n (o : thread T * option (call T * outcome T)) s :
  slots sl !! slot_of x = Some s -> (2 <= n)%nat ->
  try_acquire x (lifecycle_word s) = Ret o -> (actions_left sl o.1 < n)%nat.
Proof.
  intros Hs Hn E. unfold try_acquire in E. rust_inv E. subst o.
  destruct x0 as [[new []]|err]; simpl; [rewrite (word_is_own _ _ s) by done|]; lia.
Qed.

Lemma try_release_left sl r n (o : thread T * option (call T * outcome T)) s :
  slots sl !! slot_of r = Some s -> (10 <= n)%nat ->
  try_release r (lifecycle_word s) = Ret o -> (actions_left sl o.1 < n)%nat.
Proof.
  intros Hs Hn E. unfold try_release in E. rust_inv E.
  destruct x as [[new c]|err]; simplify_eq/=. rewrite (word_is_own _ _ s) by done. lia.
Qed.

Lemma try_mark_left sl x n (o : thread T * option (call T * outcome T)) s :
  slots sl !! slot_of x = Some s -> (10 <= n)%nat ->
  try_mark x (lifecycle_word s) = Ret o -> (actions_left sl o.1 < n)%nat.
Proof.
  intros Hs Hn E. unfold try_mark in E. rust_inv E. subst o.
  destruct x0 as [[new u]|err]; simpl; [rewrite (word_is_own _ _ s) by done|]; lia.
Qed.

(** The two outcomes of an exchange. *)
Lemma exchange_lifecycle_inv sl i prev new u :
  exchange_lifecycle sl i prev new false = Ret u ->
  exists s, slots sl !! i = Some s /\
    ((lifecycle_word s = prev /\ u = inl (with_slot sl i (with_word s new))) \/
     (lifecycle_word s <> prev /\ u = inr (lifecycle_word s))).
Proof.
  unfold exchange_lifecycle. intros E. rust_inv E. apply index_inv in Hx. exists x.
  split; [done|]. case_decide as Hw; simplify_eq; [left; naive_solver|right]. split; [naive_solver|done].
Qed.

Lemma word_is_not sl i s prev :
  slots sl !! i = Some s -> lifecycle_word s <> prev -> word_is sl i prev = false.
Proof. intros Hs Hw. unfold word_is. rewrite Hs. by apply bool_decide_false. Qed.

(** Positions inside the global list's loops. *)
Definition in_loop th : Prop :=
  match th with PopGlobal _ p => pops p | PushGlobal p => pushes p | _ => True end.

Lemma thread_ok_in_loop storage a th : thread_ok storage a th -> in_loop th.
Proof. by destruct th. Qed.

(** Without interference every action makes progress. *)
Lemma act_progress (cpu : Z) sl th sl' th' e :
  in_loop th -> th <> Ready -> act cpu false sl th = Ret (sl', th', e) ->
  (actions_left sl' th' < actions_left sl th)%nat.
Proof.
  intros Hok Hne E.
  destruct th as [|v|v p|v i|v i w g|v i g|v i g|x|x prev new|x|x prev new c|x|x prev new u|i|i w|i|i|i o|p];
    cbn [act] in E; [done|..].
  - rust_inv E. destruct x as [lf [i|]]; simplify_eq; simpl; lia.
  - destruct p as [| | | | |old|old w]; try done; cbn [pop_act] in E.
    + case_decide; cbn [mbind rust_bind] in E; simplify_eq; simpl; [lia|].
      rewrite bool_decide_true by done. lia.
    + rust_inv E. destruct x as [f [p'|o]]; rust_inv Hx; simplify_eq; simpl.
      case_bool_decide; lia.
    + destruct (exchange_head _ _ _) as [f|] eqn:Ex; cbn [mbind rust_bind] in E; simplify_eq; simpl.
      * apply exchange_head_inv in Ex as [-> _]. rewrite bool_decide_true by done. lia.
      * unfold exchange_head in Ex. case_decide; [done|]. rewrite bool_decide_false by done. lia.
  - rust_inv E. simplify_eq. simpl. lia.
  - rust_inv E. simplify_eq. simpl. lia.
  - rust_inv E. simplify_eq. simpl. lia.
  - rust_inv E. simplify_eq. simpl. lia.
  - destruct (slots sl !! _) as [s|] eqn:Hs; [|simplify_eq; simpl; lia].
    rust_inv E. simplify_eq. by eapply (try_acquire_left _ _ 2).
  - rust_inv E. apply exchange_lifecycle_inv in Hx as (s&Hs&[[<- ->]|[Hw ->]]); simpl.
    + simplify_eq. rewrite (word_is_own _ _ s) by done. simpl. lia.
    + rust_inv E. simplify_eq. rewrite (word_is_not _ _ s) by done.
      by eapply (try_acquire_left _ _ 2).
  - rust_inv E. apply index_inv in Hx. simplify_eq. by eapply (try_release_left _ _ 10).
  - rust_inv E. apply exchange_lifecycle_inv in Hx as (s&Hs&[[<- ->]|[Hw ->]]); simpl.
    + simplify_eq. rewrite (word_is_own _ _ s) by done. destruct c; simpl; lia.
    + rust_inv E. simplify_eq. rewrite (word_is_not _ _ s) by done.
      by eapply (try_release_left _ _ 10).
  - destruct (slots sl !! _) as [s|] eqn:Hs; [|simplify_eq; simpl; lia].
    rust_inv E. simplify_eq. by eapply (try_mark_left _ _ 10).
  - rust_inv E. apply exchange_lifecycle_inv in Hx as (s&Hs&[[<- ->]|[Hw ->]]); simpl.
    + simplify_eq. rewrite (word_is_own _ _ s) by done. destruct u; simpl; lia.
    + rust_inv E. simplify_eq. rewrite (word_is_not _ _ s) by done.
      by eapply (try_mark_left _ _ 10).
  - rust_inv E. simplify_eq. simpl. lia.
  - rust_inv E. simplify_eq. simpl. lia.
  - rust_inv E. simplify_eq. simpl. lia.
  - rust_inv E. simplify_eq. simpl. lia.
  - case_decide; rust_inv E; destruct x as [y z]; simplify_eq; simpl; lia.
  - destruct p as [|i w|i w old|i w old| | |]; try done; cbn [push_act] in E.
    + simplify_eq/=. rewrite bool_decide_true by done. lia.
    + rust_inv E. rust_inv Hx. simplify_eq/=. case_bool_decide; lia.
    + destruct (exchange_head _ _ _) as [f|] eqn:Ex; simplify_eq/=.
      * apply exchange_head_inv in Ex as [-> _]. rewrite bool_decide_true by done. lia.
      * unfold exchange_head in Ex. case_decide; [done|]. rewrite bool_decide_false by done. lia.
Qed.

(** The others stand still, so that it does not matter what those in [pop]
    have read: they could as well be back at its start. *)
Definition calm th : thread T :=
  match th with PopGlobal v _ => PopGlobal v PopStart | th => th end.

Definition calmed w (cpu : nat) : world T :=
  MkWorld (slab_of w)
    (match threads_of w !! cpu with
     | Some th => <[cpu := th]> (calm <$> threads_of w)
     | None => calm <$> threads_of w
     end) (held_of w) (known_of w).

Lemma calmed_lookup w cpu : threads_of (calmed w cpu) !! cpu = threads_of w !! cpu.
Proof.
  unfold calmed. simpl. destruct (threads_of w !! cpu) as [th|] eqn:E.
  - apply list_lookup_insert_eq. rewrite length_fmap. by eapply lookup_lt_Some.
  - by rewrite list_lookup_fmap, E.
Qed.

Lemma calmed_learn w cpu sl th th' e :
  threads_of w !! cpu = Some th -> learn (calmed w cpu) sl cpu th' e = calmed (learn w sl cpu th' e) cpu.
Proof.
  intros E. unfold calmed, learn. simpl. rewrite E.
  rewrite list_lookup_insert_eq by (by eapply lookup_lt_Some).
  by rewrite list_fmap_insert, !list_insert_insert_eq.
Qed.

(** Moves of the processor itself. *)
Lemma calmed_act w cpu fails :
  do_move (calmed w cpu) (Act cpu fails) =
    '(w', es) ← do_move w (Act cpu fails); Ret (calmed w' cpu, es).
Proof.
  unfold do_move. rewrite calmed_lookup. destruct (threads_of w !! cpu) as [th|] eqn:E; [|done].
  simpl slab_of. destruct (act _ _ _ _) as [[[sl th'] e]|]; [|done]. cbn [mbind rust_bind].
  by erewrite calmed_learn.
Qed.

Lemma calmed_play k w cpu :
  play (calmed w cpu) (replicate k (Act cpu false)) =
    '(w', es) ← play w (replicate k (Act cpu false)); Ret (calmed w' cpu, es).
Proof.
  revert w. induction k as [|k IH]; intros w; [done|]. cbn [replicate play].
  rewrite calmed_act. destruct (do_move w _) as [[w1 es1]|]; [|done]. cbn [mbind rust_bind].
  rewrite IH. by destruct (play w1 _) as [[w2 es2]|].
Qed.

Lemma calmed_idem w cpu : calmed (calmed w cpu) cpu = calmed w cpu.
Proof.
  assert (Hc : calm <$> (calm <$> threads_of w) = calm <$> threads_of w)
    by (rewrite <-list_fmap_compose; apply list_fmap_ext; intros i []; done).
  unfold calmed at 1. rewrite calmed_lookup. unfold calmed. simpl.
  destruct (threads_of w !! cpu) as [th|] eqn:E; rewrite ?list_fmap_insert, ?list_insert_insert_eq; by rewrite Hc.
Qed.

(** The invariant with a thread in [pop] back at its start. *)
Lemma treiber_inv_restart c p ts ws :
  treiber_inv (T := T) c (p :: ts) ws -> pushing p = None -> treiber_inv c (PopStart :: ts) ws.
Proof.
  intros [H1 H2 H3 H4 H5 H6 H7 H8] Hp. rewrite pending_cons, Hp in *.
  split; rewrite ?pending_cons; simpl; try done. apply Forall_cons_1 in H8 as [_ ?]. by constructor.
Qed.

Lemma calm_first sl th ths a ws lls lv :
  slab_state sl (th :: ths) a ws lls lv -> slab_state sl (calm th :: ths) a ws lls lv.
Proof.
  destruct th as [| |v p| | | | | | | | | | | | | | | |]; try done.
  intros [Hg Hc Hl Hs Ht Hgi Hli Hr]. pose proof Ht as [Hp Ht']%Forall_cons_1.
  split; try done; [|by constructor]. simpl in *. eapply treiber_inv_restart; [done|by destruct p].
Qed.

Lemma calm_state sl ths' ths a ws lls lv :
  slab_state sl (ths' ++ ths) a ws lls lv -> slab_state sl (ths' ++ (calm <$> ths)) a ws lls lv.
Proof.
  revert ths'. induction ths as [|th ths IH]; intros ths' Hst; [done|].
  assert (E : forall t (l : list (thread T)), ths' ++ t :: l ≡ₚ t :: ths' ++ l) by (intros; solve_Permutation).
  eapply slab_state_perm; [symmetry; apply E|]. apply (IH (calm th :: ths')).
  apply calm_first. eapply slab_state_perm; [apply E|done].
Qed.

Lemma dropping_cons th ths : omap dropping (th :: ths) = option_list (dropping th) ++ omap dropping ths.
Proof. simpl. by destruct (dropping th). Qed.

Lemma calm_dropping ths : omap dropping (calm <$> ths) = omap dropping ths.
Proof.
  induction ths as [|th ths IH]; [done|]. rewrite fmap_cons, !dropping_cons, IH. by destruct th.
Qed.

Lemma calmed_dropping w cpu : omap dropping (threads_of (calmed w cpu)) = omap dropping (threads_of w).
Proof.
  simpl. destruct (threads_of w !! cpu) as [t|] eqn:Et; [|apply calm_dropping].
  rewrite insert_take_drop by (rewrite length_fmap; by eapply lookup_lt_Some).
  rewrite <-(take_drop_middle _ _ _ Et) at 3.
  by rewrite <-fmap_take, <-fmap_drop, !omap_app, !dropping_cons, !calm_dropping.
Qed.

Lemma calm_calls sl th rest a held known :
  calls_inv sl (th :: rest) a held known -> calls_inv sl (th :: (calm <$> rest)) a held known.
Proof.
  intros [(ws&lls&lv&Hst) Hr Hk]. split; [|by rewrite dropping_cons, calm_dropping, <-dropping_cons|done].
  exists ws, lls, lv. by apply (calm_state sl [th]).
Qed.

Lemma calmed_first w cpu th :
  threads_of w !! cpu = Some th ->
  exists rest, threads_of w ≡ₚ th :: rest /\ threads_of (calmed w cpu) ≡ₚ th :: (calm <$> rest).
Proof.
  intros E. apply lookup_lt_Some in E as Hlt. exists (take cpu (threads_of w) ++ drop (S cpu) (threads_of w)).
  split.
  - rewrite <-(take_drop_middle _ _ _ E) at 1. solve_Permutation.
  - simpl. rewrite E, insert_take_drop by (by rewrite length_fmap).
    rewrite fmap_app, fmap_take, fmap_drop. solve_Permutation.
Qed.

Lemma calmed_system w a sus cpu th :
  system_inv w a sus -> threads_of w !! cpu = Some th -> system_inv (calmed w cpu) a (calm <$> sus).
Proof.
  intros [Hc Hlen] E. destruct (calmed_first _ _ _ E) as (rest&Hp&Hp'). split.
  - eapply calls_perm; [symmetry; rewrite Hp'; simpl; rewrite <-fmap_app; done|].
    apply calm_calls. eapply calls_perm; [|exact Hc]. by rewrite Hp.
  - rewrite <-Hlen. rewrite <-(length_fmap calm (threads_of w)). simpl. rewrite E.
    by rewrite length_insert.
Qed.

(** Nobody is in [pop] with anything in its hands. *)
Lemma calmed_clear w a sus cpu th fails :
  system_inv (calmed w cpu) a (calm <$> sus) -> threads_of w !! cpu = Some th ->
  clear_move (calmed w cpu) (calm <$> sus) (Act cpu fails).
Proof.
  intros [[(ws&lls&lv&Hst) _ _] _] E. pose proof (ss_threads _ _ _ _ _ _ Hst) as Hall. unfold clear_move. rewrite calmed_lookup, E.
  destruct (calmed_first _ _ _ E) as (rest&_&Hp).
  rewrite (act_clear_first _ _ _ th (calm <$> rest ++ sus)) by (by rewrite Hp, fmap_app).
  rewrite Hp, <-app_comm_cons in Hall. apply Forall_cons_1 in Hall as [_ Hall]. rewrite <-fmap_app, Forall_fmap in Hall.
  destruct th as [| | | | | | | | | | | | | | | | |i o|]; try done.
  unfold act_clear, push_clear. apply Is_true_true, orb_true_iff. right. apply orb_true_iff. right.
  apply forallb_forall. intros p Hin%list_elem_of_In.
  apply list_elem_of_fmap in Hin as (t&->&Hin). apply list_elem_of_fmap in Hin as (t'&->&Hin).
  rewrite Forall_forall in Hall. specialize (Hall _ Hin). apply negb_true_iff.
  destruct t' as [| | | | | | | | | | | | | | | | | |p]; try done. by destruct p.
Qed.
End system.

(** * Properties *)

Section properties.
Context {prof : Profile} {bits : ModularBitfield} {topology : Topology} {T : Type}.
Implicit Types (w : world T) (th : thread T) (i cpu : nat).

(** An execution: any moves of all processors, from a new slab on, of which
    the first push to the global list is clear. *)
Record concurrent_run (SIZE : nat) (ms : list (move T)) w (es : list (call T * outcome T)) : Prop := {
  cr_size : (0 < SIZE)%nat;
  cr_start : exists sl, slab_new SIZE = Ret sl /\ play (at_rest sl [] []) ms = Ret (w, es) /\
    clear_play (at_rest sl [] []) ms;
}.

Lemma run_world SIZE ms w es :
  concurrent_run SIZE ms w es -> exists a, spec_trace spec_empty es a /\ world_inv w a.
Proof.
  intros [Hpos (sl&Hnew&Hplay&Hcl)].
  by eapply play_world; [eapply new_world|..].
Qed.

(** C4. The slab is linearizable. A new slab is used by all processors at
    once, whose calls are any insertions, and lookups, removals, reads and
    drops with the indices and references that earlier calls returned; their
    actions interleave in any way over sequentially consistent memory, on
    one condition: when the very first push to the global list takes its
    tag, no other call is in [pop] with the initial entry of the pushed slot
    in its hands ([clear_play]; without it the property fails, see
    [new_slab_loses_value]). Then the calls with their outcomes, in the
    order in which they take effect, are a sequence of the abstract slab of
    [SlabSpec], the same that describes calls which follow one another; and
    the references that are out are those of the specification. *)
Theorem slab_linearizable SIZE ms w es :
  concurrent_run SIZE ms w es ->
  exists a, spec_trace spec_empty es a /\
    refs a ≡ₚ held_of w ++ omap dropping (threads_of w).
Proof.
  intros Hr. destruct (run_world _ _ _ _ Hr) as (a&Ht&Hi). exists a. split; [done|apply Hi].
Qed.

(** C13. Plain memory is not raced for, in the executions of
    [slab_linearizable]: all processors use a new slab, look up and remove
    only indices that insertions have returned, and the first push to the
    global list is clear. While a processor is about to write the contents
    or the processor field of a slot, which are not atomic, no other
    processor is about to, and no reference to the slot is out, neither in a
    client's hands nor while it is being dropped. With an index that was
    made up instead this fails, see [guessed_index_uninitialised]. *)
Theorem slab_race_free SIZE ms w es cpu th i :
  concurrent_run SIZE ms w es ->
  threads_of w !! cpu = Some th -> writing th = Some i ->
  (forall cpu' th', cpu' <> cpu -> threads_of w !! cpu' = Some th' -> writing th' <> Some i) /\
  (forall r, r ∈ held_of w ++ omap dropping (threads_of w) -> idx_index r <> Z.of_nat i).
Proof.
  intros Hr Hth Hw. destruct (run_world _ _ _ _ Hr) as (a&_&[(ws&lls&lv&Hst) Hlen Hrefs _]).
  assert (Hh : forall (t : thread T) j, writing t = Some j -> holding t = Some j) by (intros [] j; simpl; congruence).
  split.
  - intros cpu' th' Hne Hth' Hw'. pose proof (state_owned_nodup _ _ _ _ _ _ Hst) as Hnd.
    apply NoDup_app in Hnd as (_&_&Hnd). apply NoDup_app in Hnd as (Hnd&_&_).
    apply Hne. by eapply (omap_injective holding); [exact Hnd|exact Hth'|exact Hth|apply Hh..].
  - intros r Hin Hi. rewrite <-Hrefs in Hin.
    apply (not_held _ _ _ _ _ _ i r Hst Hi (or_intror Hin)).
    apply list_elem_of_omap. exists th. split; [by eapply list_elem_of_lookup_2|by apply Hh].
Qed.

(** What a call that is left alone comes to within [n] actions: it returns,
    or a counter is used up. *)
Definition finishes (n : nat) w cpu sus : Prop :=
  exists k w' es', (k <= n)%nat /\ play w (replicate k (Act cpu false)) = Ret (w', es') /\
    (threads_of w' !! cpu = Some Ready \/
     (used_up (slab_of w') (held_of w' ++ omap dropping (threads_of w' ++ sus)) /\
      exists why, do_move w' (Act cpu false) = Panic why)).

Lemma finishes_now n w cpu sus : threads_of w !! cpu = Some Ready -> finishes n w cpu sus.
Proof. intros Hr. exists 0%nat, w, []. split; [lia|]. split; [done|by left]. Qed.

(** A call that nobody interferes with, first when the others are calm. *)
Lemma calm_finishes n w a cpu th sus :
  system_inv w a (calm <$> sus) -> calmed w cpu = w ->
  threads_of w !! cpu = Some th -> (actions_left (slab_of w) th <= n)%nat ->
  finishes n w cpu (calm <$> sus).
Proof.
  revert w a th. induction n as [|n IH]; intros w a th Hi Hw Hth Hn.
  - apply finishes_now. destruct th as [| |v []| | | | | | | | | | | | | | | |[]]; simpl in Hn;
      repeat case_match; try lia; done.
  - assert (Hdec : th = Ready \/ th <> Ready) by (destruct th; (by left) || by right).
    destruct Hdec as [->|Hne]; [by apply finishes_now|].
    pose proof (act_system _ _ _ _ false _ Hi Hth) as Hact.
    pose proof Hi as [[(ws&lls&lv&Hst) _ _] _].
    assert (Hok : thread_ok (slots (slab_of w)) a th).
    { pose proof (ss_threads _ _ _ _ _ _ Hst) as Hall. rewrite Forall_forall in Hall.
      apply Hall, elem_of_app. left. by eapply list_elem_of_lookup_2. }
    destruct (act (Z.of_nat cpu) false (slab_of w) th) as [[[sl th'] e]|why] eqn:E.
    + destruct Hact as (a'&Hi'&_); [by rewrite <-Hw; eapply calmed_clear; [rewrite Hw|]|].
      pose proof (act_progress _ _ _ _ _ _ (thread_ok_in_loop _ _ _ Hok) Hne E) as Hlt.
      assert (Hth' : threads_of (learn w sl cpu th' e) !! cpu = Some th')
        by (simpl; apply list_lookup_insert_eq; by eapply lookup_lt_Some).
      destruct (IH (learn w sl cpu th' e) a' th') as (k&w'&es'&Hk&Hplay&Hres);
        [done|by rewrite <-(calmed_learn _ _ _ _ _ _ Hth), Hw|done|simpl; lia|].
      exists (S k), w', (option_list e ++ es'). split; [lia|]. split; [|done].
      simpl. rewrite Hth, E. cbn [mbind rust_bind]. by rewrite Hplay.
    + exists 0%nat, w, []. split; [lia|]. split; [done|]. right. split; [done|].
      exists why. simpl. by rewrite Hth, E.
Qed.

Lemma alone_finishes n w a cpu th sus :
  system_inv w a sus -> threads_of w !! cpu = Some th -> (actions_left (slab_of w) th <= n)%nat ->
  finishes n w cpu sus.
Proof.
  intros Hi Hth Hn. pose proof (calmed_system _ _ _ _ _ Hi Hth) as Hci.
  destruct (calm_finishes n (calmed w cpu) a cpu th sus Hci) as (k&wc&es&Hk&Hplay&Hend);
    [apply calmed_idem|by rewrite calmed_lookup|done|].
  rewrite calmed_play in Hplay. destruct (play w _) as [[w' es']|] eqn:E; [|done].
  cbn [mbind rust_bind] in Hplay. simplify_eq. exists k, w', es. split; [done|]. split; [done|].
  rewrite calmed_lookup in Hend. destruct Hend as [?|[Hu [why Ew]]]; [by left|right]. split.
  - by rewrite omap_app, calmed_dropping, calm_dropping, <-omap_app in Hu.
  - exists why. rewrite calmed_act in Ew. by destruct (do_move w' _) as [[]|].
Qed.

(** Every processor gets on: in every reachable state each move of each
    processor returns, unless a counter is used up, in particular no action
    meets undefined behaviour or fails an assertion; and a call in progress,
    wherever the others have stopped, returns within ten of its own actions
    or reaches a used-up counter. *)
Theorem slab_calls_return SIZE ms w es cpu :
  concurrent_run SIZE ms w es -> Z.of_nat cpu < MAX_PROCESSORS ->
  (forall m why, do_move w m = Panic why -> counters_used w) /\
  exists k w' es', (k <= 10)%nat /\ play w (replicate k (Act cpu false)) = Ret (w', es') /\
    (threads_of w' !! cpu = Some Ready \/
     (counters_used w' /\ exists why, do_move w' (Act cpu false) = Panic why)).
Proof.
  intros Hr Hcpu. destruct (run_world _ _ _ _ Hr) as (a&_&Hi). split.
  - intros m why E. pose proof (move_world w a m Hi) as Hm. by rewrite E in Hm.
  - destruct (lookup_lt_is_Some_2 (threads_of w) cpu) as [th Hth].
    { rewrite (wi_threads _ _ Hi). lia. }
    rewrite world_system in Hi. pose proof (alone_finishes _ _ _ _ _ _ Hi Hth (actions_left_bound _ _)) as Hf.
    unfold finishes in Hf. setoid_rewrite app_nil_r in Hf. exact Hf.
Qed.
End properties.

(** * Executions *)

Section executions.
#[local] Existing Instance lsb_first.
#[local] Existing Instance dev_profile.
#[local] Existing Instance x86_64_topology.

Definition acts (n cpu : nat) : list (move Z) := replicate n (Act cpu false).

(** A slab of two slots, which processor 0 fills. *)
Definition two_slots : world Z := at_rest (new_slab 2) [] [].

Definition filling : list (move Z) :=
  [Begin 0 (Insert 10)] ++ acts 8 0 ++ [Begin 0 (Insert 20)] ++ acts 8 0.

Definition filling_events : list (call Z * outcome Z) :=
  [(Insert 10, Inserted (MkIdx 1 0)); (Insert 20, Inserted (MkIdx 1 1))].

(** An execution that is evaluated. *)
Definition after (ms : list (move Z)) : world Z :=
  match play two_slots ms with Ret (w, _) => w | Panic _ => two_slots end.

Lemma run_after ms es :
  match play two_slots ms with Ret (_, es') => es' = es | Panic _ => False end ->
  clear_play two_slots ms -> concurrent_run 2 ms (after ms) es.
Proof.
  intros E Hc. split; [lia|]. exists (new_slab 2). split; [done|]. split; [|done].
  unfold after. change (at_rest (new_slab 2) [] []) with two_slots.
  by destruct (play two_slots ms) as [[w es']|]; [rewrite E|].
Qed.

(** Processor 1 looks up the first value and is interrupted before its
    exchange by processor 2, which removes it; processor 3 has a reference
    by then, reads through it, and gives it up last. *)
Definition crossing : list (move Z) :=
  filling ++
  [Begin 3 (Get (MkIdx 1 0))] ++ acts 2 3 ++ [Begin 1 (Get (MkIdx 1 0))] ++ acts 1 1 ++
  [Begin 2 (Remove (MkIdx 1 0))] ++ acts 1 2 ++ [Act 2 true] ++ acts 1 2 ++ acts 2 1 ++
  [Read 3 (MkIdx 1 0); Begin 3 (DropRef (MkIdx 1 0))] ++ acts 4 3.

Definition crossing_events : list (call Z * outcome Z) :=
  filling_events ++
  [(Get (MkIdx 1 0), Got (Some (MkIdx 1 0))); (Remove (MkIdx 1 0), Removed true);
   (Get (MkIdx 1 0), Got None); (Deref (MkIdx 1 0), Value 10); (DropRef (MkIdx 1 0), Dropped)].

Lemma crossing_run : concurrent_run 2 crossing (after crossing) crossing_events.
Proof. apply run_after; [vm_compute; reflexivity|by vm_compute]. Qed.

(** Processor 1 frees both slots again, the first push to the global list
    among it. Then processor 2 is in [pop], while processor 3 inserts a
    value in slot 1 and processor 4 removes it. *)
Definition racing : list (move Z) :=
  filling ++ [Begin 1 (Remove (MkIdx 1 0))] ++ acts 10 1 ++ [Begin 1 (Remove (MkIdx 1 1))] ++ acts 10 1 ++
  [Begin 2 (Insert 30)] ++ acts 2 2 ++ [Begin 3 (Insert 40)] ++ acts 8 3 ++
  [Begin 4 (Remove (MkIdx 2 1))] ++ acts 8 4.

Definition racing_events : list (call Z * outcome Z) :=
  filling_events ++
  [(Remove (MkIdx 1 0), Removed true); (Remove (MkIdx 1 1), Removed true);
   (Insert 40, Inserted (MkIdx 2 1)); (Remove (MkIdx 2 1), Removed true)].

Lemma racing_run : concurrent_run 2 racing (after racing) racing_events.
Proof. apply run_after; [vm_compute; reflexivity|by vm_compute]. Qed.

Lemma slab_linearizable_witness : exists a, spec_trace spec_empty racing_events a.
Proof.
  destruct (slab_linearizable 2 racing (after racing) racing_events racing_run) as (a&Ht&_).
  by exists a.
Defined.

(** Processor 3 is about to drop the contents of slot 0. *)
Lemma slab_race_free_witness :
  match threads_of (after crossing) !! 4%nat with
  | Some th => writing th <> Some 0%nat
  | None => False
  end.
Proof.
  assert (Hth : threads_of (after crossing) !! 3%nat = Some (ClearDrop 0)) by (vm_compute; reflexivity).
  destruct (slab_race_free 2 crossing (after crossing) crossing_events 3 (ClearDrop 0) 0
    crossing_run Hth eq_refl) as [Hothers _].
  destruct (threads_of (after crossing) !! 4%nat) as [th|] eqn:E; [by apply (Hothers 4%nat)|].
  vm_compute in E. discriminate E.
Defined.

Lemma slab_calls_return_witness :
  exists k w es, (k <= 10)%nat /\ play (after crossing) (acts k 3) = Ret (w, es).
Proof.
  destruct (slab_calls_return 2 crossing (after crossing) crossing_events 3 crossing_run ltac:(done))
    as (_&k&w&es&Hk&E&_). by exists k, w, es.
Defined.

(** A new slab of three slots, with all processors at work from the start.
    Processor 0 begins an insertion and reads the head of the list, slot 0,
    and its successor, slot 1. Processors 1 and 2 take these two slots;
    processor 3 removes the value in slot 0. *)
Definition fresh_world : world Z := at_rest (new_slab 3) [] [].

Definition overtaking : list (move Z) :=
  [Begin 0 (Insert 10)] ++ acts 3 0 ++ [Begin 1 (Insert 20)] ++ acts 8 1 ++
  [Begin 2 (Insert 30)] ++ acts 8 2 ++ [Begin 3 (Remove (MkIdx 1 0))] ++ acts 10 3 ++
  acts 5 0 ++ [Begin 4 (Insert 40)] ++ acts 8 4 ++ [Begin 5 (Get (MkIdx 1 1))] ++ acts 2 5.

Definition overtaking_events : list (call Z * outcome Z) :=
  [(Insert 20, Inserted (MkIdx 1 0)); (Insert 30, Inserted (MkIdx 1 1));
   (Remove (MkIdx 1 0), Removed true); (Insert 10, Inserted (MkIdx 2 0));
   (Insert 40, Inserted (MkIdx 2 1)); (Get (MkIdx 1 1), Got None)].

(** C18. A new slab is not linearizable. Its initial list carries tag 0, and
    so does the first slot that is pushed: a processor that read the head
    of the initial list before takes it for the same. In this execution the
    list then leads to slot 1, which is in use: a fourth insertion is given
    it, and the value that was inserted there before, and never removed, is
    gone. The condition of [slab_linearizable] excludes this, see
    [overtaking_not_clear]. *)
Theorem new_slab_loses_value :
  slab_new 3 = Ret (new_slab (T := Z) 3) /\ tagged (new_slab (T := Z) 3) = false /\
  exists w, play fresh_world overtaking = Ret (w, overtaking_events) /\
    ~ exists a, spec_trace spec_empty overtaking_events a.
Proof.
  split; [done|]. split; [by vm_compute|]. eexists. split; [vm_compute; reflexivity|].
  intros [a Ht]. unfold overtaking_events in Ht.
  repeat match goal with H : spec_trace _ (_ :: _) _ |- _ => inversion H; subst; clear H end.
  repeat match goal with H : spec_step _ _ _ _ |- _ => inversion H; subst; clear H end.
  match goal with H : MkIdx 1 1 ∉ live _ |- _ => apply H end. simpl. set_solver.
Qed.

(** The condition of [slab_linearizable] excludes it: when processor 3 returns
    slot 0, processor 0 is in [pop] with the initial entry of slot 0. *)
Lemma overtaking_not_clear : clear_play fresh_world overtaking = false.
Proof. vm_compute. reflexivity. Qed.

(** The [next] fields are plain memory too, and they are raced for: here
    processor 2 is about to read the [next] field of slot 1 in [pop], while
    processor 4 is about to write it in [push]. The exchange that follows
    in [pop] fails, so the value is not used. *)
Lemma next_field_race :
  exists old w' old', concurrent_run 2 racing (after racing) racing_events /\
    threads_of (after racing) !! 2%nat = Some (PopGlobal 30 (PopLoaded old)) /\ head_index old = 1%nat /\
    threads_of (after racing) !! 4%nat = Some (PushGlobal (PushLoaded 1 w' old')).
Proof.
  do 3 eexists. split; [exact racing_run|].
  split; [vm_compute; reflexivity|]. split; vm_compute; reflexivity.
Qed.

(** An index can be made from any 64-bit number. One that no insertion has
    returned yet may be that of an insertion under way: the generation is
    stored before the contents are written, so a lookup in between succeeds,
    and reading through the reference reads uninitialised memory. *)
Lemma guessed_index_uninitialised :
  play (MkWorld (new_slab (T := Z) 3) (replicate 16 Ready) [] [MkIdx 1 0])
    ([Begin 0 (Insert 10)] ++ acts 6 0 ++ [Begin 1 (Get (MkIdx 1 0))] ++ acts 2 1 ++
     [Read 1 (MkIdx 1 0)]) = Panic UndefinedBehaviour.
Proof. vm_compute. reflexivity. Qed.
End executions.
