(* ===== verification/SlabInterrupts.v ===== *)
(** The slab when interrupt handlers use it ([slab/src/lib.rs], whose last
    line leaves this as a TODO): an interrupt suspends the call that its
    processor is in, wherever that is, and the handler makes calls of its
    own, which may be interrupted in turn. A push to or a pop from the
    processor's own list is one action here, as in [SlabSteps]: interrupts
    are off for its few instructions. What happens if they are not is in
    [LocalInterrupts]; everything else may be interrupted. *)
From S2P Require Import Prelude Bitfields Topology Slot FreeLists Slab SlabSpec Treiber SlabSteps.
From S2P Require Import SlabConcurrent SlabHistories.

(** * Suspended calls *)

(** [running] has the call that every processor is working on, [suspended]
    those it was interrupted in, the last one first. *)
Record stacked (T : Type) := MkStacked {
  running : world T;
  suspended : list (list (thread T));
}.
Arguments MkStacked {T}.
Arguments running {T}.
Arguments suspended {T}.

(** What can happen next: a move of running code, an interrupt on a
    processor, or the return from its last one. *)
Inductive irq_move (T : Type) :=
  | Running (m : move T)
  | Interrupt (cpu : nat)
  | Resume (cpu : nat).
Arguments Running {T}.
Arguments Interrupt {T}.
Arguments Resume {T}.

Section interrupts.
Context {prof : Profile} {bits : ModularBitfield} {T : Type}.
Implicit Types (s : stacked T) (w : world T) (th : thread T) (cpu : nat).

Definition switch s cpu th (ths : list (thread T)) : stacked T :=
  let w := running s in
  MkStacked (MkWorld (slab_of w) (<[cpu := th]> (threads_of w)) (held_of w) (known_of w))
    (<[cpu := ths]> (suspended s)).

Definition do_irq s (m : irq_move T) : rust (stacked T * list (call T * outcome T)) :=
  match m with
  | Running m => '(w, es) ← do_move (running s) m; Ret (MkStacked w (suspended s), es)
  | Interrupt cpu =>
      Ret (match threads_of (running s) !! cpu, suspended s !! cpu with
           | Some th, Some ths => switch s cpu Ready (th :: ths)
           | _, _ => s
           end, [])
  | Resume cpu =>
      Ret (match threads_of (running s) !! cpu, suspended s !! cpu with
           | Some Ready, Some (th :: ths) => switch s cpu th ths
           | _, _ => s
           end, [])
  end.

Fixpoint play_irq s (ms : list (irq_move T)) : rust (stacked T * list (call T * outcome T)) :=
  match ms with
  | [] => Ret (s, [])
  | m :: ms =>
      '(s, es) ← do_irq s m;
      '(s, es') ← play_irq s ms;
      Ret (s, es ++ es')
  end.

(** All processors between calls, none in an interrupt. *)
Definition stacked_rest `{Topology} (sl : Slab T) (held known : list Idx) : stacked T :=
  MkStacked (at_rest sl held known) (replicate (Z.to_nat MAX_PROCESSORS) []).

(** Moves of running code only. *)
Lemma play_running s ms :
  play_irq s (Running <$> ms) =
    '(w, es) ← play (running s) ms; Ret (MkStacked w (suspended s), es).
Proof.
  revert s. induction ms as [|m ms IH]; intros [w sus]; [done|]. simpl.
  destruct (do_move w m) as [[w' es]|]; [|done]. cbn [mbind rust_bind]. rewrite IH. simpl.
  destruct (play w' ms) as [[w'' es']|]; done.
Qed.
End interrupts.

(** * The invariant *)

Section system.
Context {prof : Profile} {bits : ModularBitfield} {topology : Topology} {T : Type}.
Implicit Types (sl : Slab T) (a : spec T) (s : stacked T) (w : world T) (th : thread T)
  (ths : list (thread T)) (cpu : nat) (ws : list Z) (lls : list (list nat)) (lv : list nat).

Record stacked_inv s a : Prop := {
  st_system : system_inv (running s) a (concat (suspended s));
  st_stacks : length (suspended s) = Z.to_nat MAX_PROCESSORS;
}.

(** Code between calls has no part in the invariant. *)
Lemma treiber_inv_idle c ts ws : treiber_inv (T := T) c (Idle :: ts) ws <-> treiber_inv c ts ws.
Proof.
  split; intros [H1 H2 H3 H4 H5 H6 H7 H8]; rewrite ?pending_cons in *; simpl in *; split;
    rewrite ?pending_cons; simpl; try done.
  - by apply Forall_cons_1 in H8 as [_ ?].
  - by constructor.
Qed.

Lemma slab_state_ready sl ths a ws lls lv :
  slab_state sl (Ready :: ths) a ws lls lv <-> slab_state sl ths a ws lls lv.
Proof.
  split; intros [Hg Hc Hl Hs Ht Hgi Hli Hr]; split; try done.
  - by apply treiber_inv_idle.
  - by apply Forall_cons_1 in Ht as [_ ?].
  - by apply treiber_inv_idle.
  - by constructor.
Qed.

Lemma calls_ready sl ths a held known :
  calls_inv sl (Ready :: ths) a held known <-> calls_inv sl ths a held known.
Proof.
  split; intros [(ws&lls&lv&Hst) Hr Hk]; (split; [|done|done]);
    exists ws, lls, lv; by apply slab_state_ready.
Qed.

(** A switch from one call of a processor to another. *)
Lemma switch_inv s a cpu th ths th' ths' :
  stacked_inv s a -> threads_of (running s) !! cpu = Some th -> suspended s !! cpu = Some ths ->
  (forall rest, calls_inv (slab_of (running s)) (th :: ths ++ rest) a (held_of (running s)) (known_of (running s)) ->
    calls_inv (slab_of (running s)) (th' :: ths' ++ rest) a (held_of (running s)) (known_of (running s))) ->
  stacked_inv (switch s cpu th' ths') a.
Proof.
  intros [[Hc Hlen] Hst] Hth Hths Hsw. split; [split|]; simpl; rewrite ?length_insert; try done.
  destruct (insert_first _ _ _ th' Hth) as (rest&Hp&Hp').
  destruct (concat_insert _ _ _ ths' Hths) as (sus&Hq&Hq').
  eapply (calls_perm _ (th' :: ths' ++ rest ++ sus)).
  - rewrite Hp', Hq'. solve_Permutation.
  - apply Hsw. eapply calls_perm; [|exact Hc]. rewrite Hp, Hq. solve_Permutation.
Qed.

(** A counter is used up, counting the references in suspended calls too. *)
Definition irq_counters_used s : Prop :=
  let w := running s in
  used_up (slab_of w) (held_of w ++ omap dropping (threads_of w ++ concat (suspended s))).

(** The first push to the global list is clear of all other calls, the
    suspended ones among them. *)
Definition clear_irq s (m : irq_move T) : bool :=
  match m with Running m => clear_move (running s) (concat (suspended s)) m | _ => true end.

Fixpoint clear_play_irq s (ms : list (irq_move T)) : bool :=
  match ms with
  | [] => true
  | m :: ms =>
      clear_irq s m &&
      match do_irq s m with Ret (s, _) => clear_play_irq s ms | Panic _ => true end
  end.

Lemma irq_move_ok s a m :
  stacked_inv s a ->
  match do_irq s m with
  | Ret (s', es) => clear_irq s m -> exists a', spec_trace a es a' /\ stacked_inv s' a'
  | Panic _ => irq_counters_used s
  end.
Proof.
  intros Hi. assert (Hsame : forall s', stacked_inv s' a -> true -> exists a', spec_trace a [] a' /\ stacked_inv s' a')
    by (intros s' ? _; exists a; split; [constructor|done]).
  destruct m as [m|cpu|cpu]; simpl.
  - pose proof (move_system _ _ _ m (st_system _ _ Hi)) as Hm.
    destruct (do_move _ m) as [[w es]|]; [|done]. cbn [mbind rust_bind].
    intros Hcl. destruct (Hm Hcl) as (a'&Ht&Hw). exists a'. split; [done|]. split; [done|apply Hi].
  - apply Hsame. destruct (threads_of _ !! cpu) as [th|] eqn:Hth; [|done].
    destruct (suspended s !! cpu) as [ths|] eqn:Hths; [|done].
    eapply switch_inv; try done. intros rest Hc. by apply calls_ready.
  - apply Hsame. destruct (threads_of _ !! cpu) as [[]|] eqn:Hth; try done.
    destruct (suspended s !! cpu) as [[|th ths]|] eqn:Hths; try done.
    eapply switch_inv; try done. intros rest Hc. by rewrite calls_ready in Hc.
Qed.

Lemma play_irq_ok s a ms s' es :
  stacked_inv s a -> play_irq s ms = Ret (s', es) -> clear_play_irq s ms -> exists a', spec_trace a es a' /\ stacked_inv s' a'.
Proof.
  revert s a es. induction ms as [|m ms IH]; intros s a es Hi E Hcl; simpl in E, Hcl.
  - simplify_eq. exists a. split; [constructor|done].
  - pose proof (irq_move_ok s a m Hi) as Hm. rust_inv E. destruct x as [s1 es1]. rust_inv E.
    destruct x as [s2 es2]. simplify_eq. rewrite Hx in Hm, Hcl.
    apply andb_True in Hcl as [Hc Hcl]. destruct (Hm Hc) as (a1&Ht1&Hi1).
    destruct (IH _ _ _ Hi1 Hx0 Hcl) as (a2&Ht2&Hi2). exists a2. split; [|done].
    by eapply spec_trace_cat.
Qed.

Lemma new_stacked SIZE sl :
  (0 < SIZE)%nat -> slab_new SIZE = Ret sl -> stacked_inv (stacked_rest sl [] []) spec_empty.
Proof.
  intros Hpos E. pose proof (new_world _ _ Hpos E) as Hw. apply world_system in Hw.
  split; simpl; [|by rewrite length_replicate].
  assert (Ec : forall k, concat (replicate k ([] : list (thread T))) = []) by (induction k; done).
  by rewrite Ec.
Qed.
End system.

(** * Properties *)

Section properties.
Context {prof : Profile} {bits : ModularBitfield} {topology : Topology} {T : Type}.
Implicit Types (s : stacked T) (cpu : nat).

(** An execution: as for [concurrent_run], with interrupts. *)
Record interrupted_run (SIZE : nat) (ms : list (irq_move T)) s (es : list (call T * outcome T)) : Prop := {
  ir_size : (0 < SIZE)%nat;
  ir_start : exists sl, slab_new SIZE = Ret sl /\
    play_irq (stacked_rest sl [] []) ms = Ret (s, es) /\ clear_play_irq (stacked_rest sl [] []) ms;
}.

Lemma run_stacked SIZE ms s es :
  interrupted_run SIZE ms s es -> exists a, spec_trace spec_empty es a /\ stacked_inv s a.
Proof.
  intros [Hpos (sl&Hnew&Hplay&Hcl)]. by eapply play_irq_ok; [eapply new_stacked|..].
Qed.

(** C14. Interrupt handlers may use the slab. From a new slab on, processors
    are interrupted anywhere in their calls, except within the few
    instructions that access their own free list (where the code would have
    to turn interrupts off, see [LocalInterrupts]); the handlers make calls of their own and may be interrupted in turn. As
    in [slab_linearizable], only indices and references that calls returned
    are used, memory is sequentially consistent, and the first push to the
    global list is clear of all other calls, suspended ones included
    ([clear_play_irq]). Then all calls with their outcomes, in the order in
    which they take effect, are a sequence of the abstract slab, and no move
    of any code panics before a counter is used up. *)
Theorem slab_interruptible SIZE ms s es :
  interrupted_run SIZE ms s es ->
  (exists a, spec_trace spec_empty es a /\
     refs a ≡ₚ held_of (running s) ++ omap dropping (threads_of (running s) ++ concat (suspended s))) /\
  forall m why, do_irq s m = Panic why -> irq_counters_used s.
Proof.
  intros Hr. destruct (run_stacked _ _ _ _ Hr) as (a&Ht&Hi). split.
  - exists a. split; [done|]. apply Hi.
  - intros m why E. pose proof (irq_move_ok s a m Hi) as Hm. by rewrite E in Hm.
Qed.

(** C15. A handler never waits for the code that it interrupted. In every
    state that an execution of [slab_interruptible] reaches (from a new slab,
    with indices that insertions returned, the first push clear, and
    interrupts off in accesses to the own list), the running call of a
    processor, wherever the calls below it and those of other processors
    were stopped, returns within ten of its own actions, or meets a used-up
    counter. These last actions may include a first push that is not
    clear. *)
Theorem handlers_return SIZE ms s es cpu :
  interrupted_run SIZE ms s es -> Z.of_nat cpu < MAX_PROCESSORS ->
  exists k s' es', (k <= 10)%nat /\ play_irq s (replicate k (Running (Act cpu false))) = Ret (s', es') /\
    suspended s' = suspended s /\
    (threads_of (running s') !! cpu = Some Ready \/
     irq_counters_used s' /\ exists why, do_irq s' (Running (Act cpu false)) = Panic why).
Proof.
  intros Hr Hcpu. destruct (run_stacked _ _ _ _ Hr) as (a&_&[Hs _]).
  destruct (lookup_lt_is_Some_2 (threads_of (running s)) cpu) as [th Hth].
  { rewrite (si_threads _ _ _ Hs). lia. }
  destruct (alone_finishes 10 _ _ _ _ _ Hs Hth (actions_left_bound _ _)) as (k&w&es'&Hk&Hplay&Hend).
  exists k, (MkStacked w (suspended s)), es'. split; [done|]. split; [|split; [done|]].
  - rewrite <-(fmap_replicate (A := move T)), play_running, Hplay. done.
  - destruct Hend as [?|[Hu [why E]]]; [by left|right]. split; [done|]. exists why. unfold do_irq. cbn [running]. by rewrite E.
Qed.
End properties.

(** * Executions *)

Section executions.
#[local] Existing Instance lsb_first.
#[local] Existing Instance dev_profile.
#[local] Existing Instance x86_64_topology.

#[local] Definition irq_acts (n cpu : nat) : list (irq_move Z) := replicate n (Running (Act cpu false)).

#[local] Definition idle_stack : stacked Z := stacked_rest (new_slab 2) [] [].

(** Processor 0 fills the slab. Processor 1 looks up a value and is
    interrupted before its exchange. The handler removes the value, and is
    interrupted while it clears the slot; the second handler inserts another
    value and finds the slab full. Then all three return: the lookup
    fails. *)
#[local] Definition nesting : list (irq_move Z) :=
  (Running <$> filling) ++
  [Running (Begin 1 (Get (MkIdx 1 0)))] ++ irq_acts 1 1 ++
  [Interrupt 1; Running (Begin 1 (Remove (MkIdx 1 0)))] ++ irq_acts 4 1 ++
  [Interrupt 1; Running (Begin 1 (Insert 30))] ++ irq_acts 10 1 ++
  [Resume 1] ++ irq_acts 10 1 ++ [Resume 1] ++ irq_acts 1 1.

#[local] Definition nesting_events : list (call Z * outcome Z) :=
  filling_events ++
  [(Remove (MkIdx 1 0), Removed true); (Insert 30, Full 30); (Get (MkIdx 1 0), Got None)].

#[local] Definition nested : stacked Z :=
  match play_irq idle_stack nesting with Ret (s, _) => s | Panic _ => idle_stack end.

Lemma nesting_run : interrupted_run 2 nesting nested nesting_events.
Proof.
  split; [lia|]. exists (new_slab 2). split; [done|]. split; [|by vm_compute].
  vm_compute. reflexivity.
Qed.

Lemma slab_interruptible_witness : exists a, spec_trace spec_empty nesting_events a.
Proof.
  destruct (slab_interruptible 2 nesting nested nesting_events nesting_run) as [(a&Ht&_) _].
  by exists a.
Defined.

Lemma handlers_return_witness :
  exists k s es, (k <= 10)%nat /\ play_irq nested (irq_acts k 1) = Ret (s, es).
Proof.
  destruct (handlers_return 2 nesting nested nesting_events 1 nesting_run ltac:(done))
    as (k&s&es&Hk&E&_). by exists k, s, es.
Defined.
End executions.
