(* ===== verification/LocalInterrupts.v ===== *)
(** A processor's own free list and interrupts ([LocalFreeList] of
    [slab/src/free_lists.rs]). [push] and [pop] load the cell, read or write
    a [next] field and store the cell again; an interrupt handler on the same
    processor that uses the slab in between does the same to the same cell.
    This file divides the two operations at their accesses, lets handlers run
    in the gaps, interrupted themselves or not, and says which handlers do no
    harm and what others do. *)
From S2P Require Import Prelude Bitfields Topology Slot FreeLists Slab SlabSpec.

(** * Interrupted operations *)

Inductive own_op := OwnPush (i : nat) | OwnPop.

(** An operation with what handlers do after it has loaded the cell, and
    before it stores it: operations, one after the other, which may be
    interrupted in turn. *)
Inductive own_call := OwnCall (op : own_op) (after_load before_store : list own_call).

(** The cell of the processor, and the slots. *)
Record own_list (T : Type) := MkOwnList { cell : option Z; storage_of : list (Slot T) }.
Arguments MkOwnList {T}.
Arguments cell {T}.
Arguments storage_of {T}.

(** An operation and what it returned. *)
Abbreviation own_event := (own_op * option nat)%type.

Section calls.
Context {T : Type}.
Implicit Types (o : own_list T) (c : own_call) (cs : list own_call) (i : nat) (l held : list nat)
  (storage : list (Slot T)).

(** [run] in the handlers' operations, the others after it. *)
Definition run_each (run : own_call -> own_list T -> rust (own_list T * list own_event)) :=
  fix each cs o : rust (own_list T * list own_event) :=
    match cs with
    | [] => Ret (o, [])
    | c :: cs => '(o, es) ← run c o; '(o, es') ← each cs o; Ret (o, es ++ es')
    end.

(** [LocalFreeList::push] and [LocalFreeList::pop]. The events are the
    operations in the order in which they return. *)
Fixpoint run_own c o : rust (own_list T * list own_event) :=
  match c with
  | OwnCall op after_load before_store =>
      let head := cell o in
      '(o, es) ← run_each run_own after_load o;
      match op, head with
      | OwnPush i, _ =>
          storage ← link_slot (storage_of o) i (default EMPTY head);
          '(o, es') ← run_each run_own before_store (MkOwnList (cell o) storage);
          Ret (MkOwnList (Some (Z.of_nat i)) (storage_of o), es ++ es' ++ [(op, None)])
      | OwnPop, None => Ret (o, es ++ [(op, None)])
      | OwnPop, Some old_head =>
          if decide (old_head = EMPTY) then Ret (o, es ++ [(op, None)])
          else
            n ← slot_next (storage_of o) (Z.to_nat old_head);
            '(o, es') ← run_each run_own before_store o;
            Ret (MkOwnList (Some n) (storage_of o), es ++ es' ++ [(op, Some (Z.to_nat old_head))])
      end
  end.

Definition run_owns : list own_call -> own_list T -> rust (own_list T * list own_event) := run_each run_own.

(** Without interrupts these are the operations of [FreeLists]. *)
Lemma uninterrupted_pop (lf : list (option Z)) (cpu : Z) storage head :
  lf !! Z.to_nat cpu = Some head ->
  local_pop lf cpu storage =
    '(o, es) ← run_own (OwnCall OwnPop [] []) (MkOwnList head storage);
    Ret (<[Z.to_nat cpu := cell o]> lf, match es with (_, popped) :: _ => popped | [] => None end).
Proof.
  intros Hh. unfold local_pop, with_mut, index. rewrite Hh. cbn -[decide].
  destruct head as [h|]; [|done]. cbn -[decide]. case_decide; [done|].
  destruct (slot_next _ _); done.
Qed.

Lemma uninterrupted_push (lf : list (option Z)) (cpu : Z) storage head i :
  lf !! Z.to_nat cpu = Some head ->
  local_push lf cpu i storage =
    '(o, _) ← run_own (OwnCall (OwnPush i) [] []) (MkOwnList head storage);
    Ret (<[Z.to_nat cpu := cell o]> lf, storage_of o).
Proof.
  intros Hh. unfold local_push, with_mut, index. rewrite Hh. cbn.
  destruct (link_slot _ _ _); done.
Qed.

(** * Handlers that leave the list as they found it *)

(** The list that a push or a pop leaves. *)
Definition own_effect (op : own_op) l : list nat :=
  match op with OwnPush i => i :: l | OwnPop => tail l end.

Definition result_of (op : own_op) l : option nat :=
  match op with OwnPush _ => None | OwnPop => l !! 0%nat end.

(** What operations that are not interrupted make of a list. *)
Fixpoint own_history l (es : list own_event) : option (list nat) :=
  match es with
  | [] => Some l
  | (op, r) :: es => if decide (r = result_of op l) then own_history (own_effect op l) es else None
  end.

(** The list after call [c] if every gap in it, at any depth, leaves the
    list as it is, and slots are only pushed by those who have them: [held]
    are those that interrupted pushes have. [n] is the number of slots. *)
Definition leaves_each (leaves : own_call -> list nat -> option (list nat)) :=
  fix each cs l : option (list nat) :=
    match cs with [] => Some l | c :: cs => l ← leaves c l; each cs l end.

Definition may_push (n : nat) held l (op : own_op) : bool :=
  match op with
  | OwnPush i => bool_decide (i ∉ l) && bool_decide (i ∉ held) && bool_decide (i < n)%nat
  | OwnPop => true
  end.

(** The slot that code interrupted in [op] has. *)
Definition having (op : own_op) held : list nat :=
  match op with OwnPush i => i :: held | OwnPop => held end.

Fixpoint leaves (n : nat) held c l : option (list nat) :=
  match c with
  | OwnCall op after_load before_store =>
      let gap := leaves_each (leaves n (having op held)) in
      if (may_push n held l op && bool_decide (gap after_load l = Some l) && bool_decide (gap before_store l = Some l))%bool
      then Some (own_effect op l) else None
  end.

(** ** The list in memory *)

Definition word_of l : Z := match l with [] => EMPTY | i :: _ => Z.of_nat i end.

Fixpoint linked storage l : Prop :=
  match l with
  | [] => True
  | i :: l => (exists s, storage !! i = Some s /\ next s = word_of l) /\ linked storage l
  end.

Record own_inv o l : Prop := {
  oi_cell : default EMPTY (cell o) = word_of l;
  oi_linked : linked (storage_of o) l;
  oi_nodup : NoDup l;
  oi_size : Z.of_nat (length (storage_of o)) < 2 ^ 18;
}.

Lemma linked_lt storage l i : linked storage l -> i ∈ l -> (i < length storage)%nat.
Proof.
  induction l as [|j l IH]; intros Hl Hi; [by apply elem_of_nil in Hi|].
  destruct Hl as [(s&Hs&_) Hl]. apply elem_of_cons in Hi as [->|Hi]; [by eapply lookup_lt_Some|auto].
Qed.

Lemma word_not_empty i : Z.of_nat i < 2 ^ 18 -> Z.of_nat i <> EMPTY.
Proof. unfold EMPTY. lia. Qed.

(** This is how [FreeLists] has it. *)
Lemma own_local_chain o l : own_inv o l -> local_chain (storage_of o) (cell o) l.
Proof.
  intros [Hc Hl _ Hsz]. unfold local_chain. rewrite Hc. clear Hc. induction l as [|i l IH]; [done|].
  pose proof (linked_lt _ _ i Hl ltac:(set_solver)). destruct Hl as [(s&Hs&Hn) Hl].
  split; [apply word_not_empty; lia|]. split; [simpl; lia|]. exists s. rewrite Hn. auto.
Qed.

Lemma linked_insert storage l i s : i ∉ l -> linked storage l -> linked (<[i := s]> storage) l.
Proof.
  induction l as [|j l IH]; [done|]. intros [Hne Hi]%not_elem_of_cons [(s'&Hs&Hn) Hl].
  split; [|auto]. exists s'. by rewrite list_lookup_insert_ne.
Qed.

(** What a run of handlers keeps: the list is [l'], and the slots that
    interrupted code has are as they were. *)
Record handled o o' l' held (es : list own_event) l : Prop := {
  ha_inv : own_inv o' l';
  ha_history : own_history l es = Some l';
  ha_held i : i ∈ held -> (i ∉ l') /\ storage_of o' !! i = storage_of o !! i;
  ha_length : length (storage_of o') = length (storage_of o);
}.

Lemma own_history_app l es es' l1 :
  own_history l es = Some l1 -> own_history l (es ++ es') = own_history l1 es'.
Proof.
  revert l. induction es as [|[op r] es IH]; intros l E; simpl in *; [by simplify_eq|].
  case_decide; [auto|done].
Qed.

Lemma own_history_one l op : own_history l [(op, result_of op l)] = Some (own_effect op l).
Proof. simpl. by rewrite decide_True. Qed.
(** Induction over calls and the calls that interrupt them. *)
Lemma own_call_nested (P : own_call -> Prop) :
  (forall op g1 g2, Forall P g1 -> Forall P g2 -> P (OwnCall op g1 g2)) -> forall c, P c.
Proof.
  intros H. fix F 1. intros [op g1 g2]. apply H.
  - induction g1; constructor; auto.
  - induction g2; constructor; auto.
Qed.

Definition harmless (n : nat) c : Prop :=
  forall o l l' held, own_inv o l -> (forall i, i ∈ held -> i ∉ l) -> length (storage_of o) = n ->
    leaves n held c l = Some l' ->
    exists o' es, run_own c o = Ret (o', es) /\ handled o o' l' held es l.

Lemma harmless_each n cs o l l' held :
  Forall (harmless n) cs -> own_inv o l -> (forall i, i ∈ held -> i ∉ l) -> length (storage_of o) = n ->
  leaves_each (leaves n held) cs l = Some l' ->
  exists o' es, run_each run_own cs o = Ret (o', es) /\ handled o o' l' held es l.
Proof.
  intros Hcs. revert o l. induction Hcs as [|c cs Hc _ IH]; intros o l Hi Hh Hn E; simpl in E.
  - simplify_eq. exists o, []. split; [done|]. split; try done. auto.
  - destruct (leaves n held c l) as [l1|] eqn:E1; [|done]. simpl in E.
    destruct (Hc o l l1 held Hi Hh Hn E1) as (o1&es1&R1&[Hi1 Hh1 Hk1 Hl1]).
    destruct (IH o1 l1 Hi1) as (o2&es2&R2&[Hi2 Hh2 Hk2 Hl2]);
      [intros i Hx; apply (Hk1 i Hx)|by rewrite Hl1|done|].
    exists o2, (es1 ++ es2). simpl. rewrite R1. cbn [mbind rust_bind]. rewrite R2. split; [done|].
    split; [done| | |by rewrite Hl2].
    + by rewrite (own_history_app _ _ _ _ Hh1).
    + intros i Hx. destruct (Hk1 i Hx) as [_ E2]. destruct (Hk2 i Hx) as [? E3].
      split; [done|]. by rewrite E3.
Qed.

(** A push, when the gaps are harmless. *)
Lemma push_harmless n i g1 g2 :
  Forall (harmless n) g1 -> Forall (harmless n) g2 -> harmless n (OwnCall (OwnPush i) g1 g2).
Proof.
  intros Hg1 Hg2 o l l' held Hi Hh Hn E. cbn [leaves may_push having] in E.
  destruct (bool_decide (i ∉ l) && _ && _ && _ && _) eqn:Eb; [|done]. injection E as <-.
  rewrite !andb_true_iff, !bool_decide_eq_true in Eb. destruct Eb as [[[[Hil Hih] Hin] E1] E2].
  assert (Hh' : forall j, j ∈ i :: held -> j ∉ l) by (intros j [->|?]%elem_of_cons; auto).
  destruct (harmless_each n g1 o l l (i :: held) Hg1 Hi Hh' Hn E1) as (o1&es1&R1&[Hi1 Hs1 Hk1 Hl1]).
  destruct (lookup_lt_is_Some_2 (storage_of o1) i) as [s Hs]; [lia|].
  set (o1' := MkOwnList (cell o1) (<[i := set_next s (default EMPTY (cell o))]> (storage_of o1))).
  assert (Hi1' : own_inv o1' l).
  { destruct Hi1 as [Hc Hl Hnd Hsz]. split; simpl; rewrite ?length_insert; try done. by apply linked_insert. }
  destruct (harmless_each n g2 o1' l l (i :: held) Hg2 Hi1' Hh') as (o2&es2&R2&[Hi2 Hs2 Hk2 Hl2]);
    [by simpl; rewrite length_insert, Hl1|done|].
  exists (MkOwnList (Some (Z.of_nat i)) (storage_of o2)), (es1 ++ es2 ++ [(OwnPush i, None)]).
  cbn [run_own]. rewrite R1. cbn [mbind rust_bind]. unfold link_slot, index. rewrite Hs.
  cbn [mbind rust_bind]. fold o1'. rewrite R2. split; [done|].
  assert (Hlen : length (storage_of o2) = length (storage_of o)) by (rewrite Hl2; simpl; by rewrite length_insert).
  split; [split|..]; simpl; try done.
  - split; [|apply Hi2]. exists (set_next s (default EMPTY (cell o))).
    destruct (Hk2 i ltac:(set_solver)) as [_ ->]. simpl. rewrite list_lookup_insert_eq by lia.
    split; [done|]. apply Hi.
  - apply NoDup_cons. split; [done|apply Hi].
  - rewrite Hlen. apply Hi.
  - rewrite (own_history_app _ _ _ _ Hs1), (own_history_app _ _ _ _ Hs2).
    apply (own_history_one l (OwnPush i)).
  - intros j Hj. destruct (Hk1 j ltac:(set_solver)) as [? E3]. destruct (Hk2 j ltac:(set_solver)) as [_ E4].
    assert (j <> i) by (intros ->; done). split; [by apply not_elem_of_cons|].
    rewrite E4. simpl. by rewrite list_lookup_insert_ne.
Qed.

Lemma pop_harmless n g1 g2 :
  Forall (harmless n) g1 -> Forall (harmless n) g2 -> harmless n (OwnCall OwnPop g1 g2).
Proof.
  intros Hg1 Hg2 o l l' held Hi Hh Hn E. cbn [leaves may_push having andb] in E.
  destruct (bool_decide _ && _) eqn:Eb; [|done]. injection E as <-.
  rewrite andb_true_iff, !bool_decide_eq_true in Eb. destruct Eb as [E1 E2].
  destruct (harmless_each _ g1 o l l held Hg1 Hi Hh Hn E1) as (o1&es1&R1&[Hi1 Hs1 Hk1 Hl1]).
  cbn [run_own]. rewrite R1. cbn [mbind rust_bind]. destruct l as [|i l].
  - exists o1, (es1 ++ [(OwnPop, None)]). split.
    + pose proof (oi_cell _ _ Hi) as Hc. simpl in Hc. destruct (cell o) as [h|]; [|done].
      simpl in Hc. by rewrite decide_True.
    + split; try done. by rewrite (own_history_app _ _ _ _ Hs1).
  - pose proof (linked_lt _ _ i (oi_linked _ _ Hi) ltac:(set_solver)) as Hlt.
    pose proof (oi_size _ _ Hi) as Hsz. pose proof (oi_cell _ _ Hi) as Hc. simpl in Hc.
    assert (Hne : Z.of_nat i <> EMPTY) by (apply word_not_empty; lia).
    destruct (cell o) as [h|]; simpl in Hc; [subst h|by destruct Hne].
    rewrite decide_False, Nat2Z.id by done. destruct (oi_linked _ _ Hi1) as [(s&Hs&Hnx) Hl].
    unfold slot_next, index. rewrite Hs. cbn [mbind rust_bind].
    destruct (harmless_each _ g2 o1 (i :: l) (i :: l) held Hg2 Hi1 Hh ltac:(by rewrite Hl1) E2) as (o2&es2&R2&[Hi2 Hs2 Hk2 Hl2]).
    rewrite R2. eexists _, _. split; [done|]. rewrite Hnx. split; [split|..]; simpl; try done.
    + apply Hi2.
    + pose proof (oi_nodup _ _ Hi) as Hnd. by apply NoDup_cons in Hnd as [_ ?].
    + apply Hi2.
    + rewrite (own_history_app _ _ _ _ Hs1), (own_history_app _ _ _ _ Hs2).
      apply (own_history_one (i :: l) OwnPop).
    + intros j Hj. destruct (Hk1 j Hj) as [? E3]. destruct (Hk2 j Hj) as [? E4].
      split; [set_solver|]. by rewrite E4.
    + by rewrite Hl2.
Qed.

Lemma all_harmless n c : harmless n c.
Proof.
  induction c as [[i|] g1 g2 H1 H2] using own_call_nested; [by apply push_harmless|by apply pop_harmless].
Qed.
End calls.

(** * Insertions *)

Section insertions.
Context {prof : Profile} {bits : ModularBitfield} {T A : Type}.
Implicit Types (sl : Slab T) (handler : Slab T -> rust (Slab T * A)) (cpu : Z).

(** [pop_slot] from where the own list's cell was loaded. *)
Definition pop_slot_from (loaded : option Z) sl cpu : rust (Slab T * option nat) :=
  let from_global :=
    '(gf, popped) ← global_pop (global_free_list sl) (slots sl);
    Ret (MkSlab (local_free_list sl) gf (slots sl), popped) in
  match loaded with
  | None => from_global
  | Some old_head =>
      if decide (old_head = EMPTY) then from_global
      else
        n ← slot_next (slots sl) (Z.to_nat old_head);
        Ret (MkSlab (<[Z.to_nat cpu := Some n]> (local_free_list sl)) (global_free_list sl) (slots sl),
             Some (Z.to_nat old_head))
  end.

(** [Slab::insert], interrupted when it has loaded the cell. *)
Definition insert_interrupted handler sl (value : T) cpu : rust (Slab T * A * result Idx T) :=
  loaded ← index (local_free_list sl) (Z.to_nat cpu);
  '(sl, r) ← handler sl;
  '(sl, popped) ← pop_slot_from loaded sl cpu;
  match popped with
  | None => Ret (sl, r, Err value)
  | Some i =>
      slot ← index (slots sl) i;
      '(slot, generation) ← allocate slot value cpu;
      idx ← make_idx generation i;
      Ret (with_slot sl i slot, r, Ok idx)
  end.

(** A handler that does nothing. *)
Lemma uninterrupted_insert sl value cpu (r : A) :
  (Z.to_nat cpu < length (local_free_list sl))%nat ->
  insert_interrupted (fun sl => Ret (sl, r)) sl value cpu =
    '(sl, x) ← Slab.insert sl value cpu; Ret (sl, r, x).
Proof.
  intros Hcpu. destruct (lookup_lt_is_Some_2 _ _ Hcpu) as [loaded Hl].
  unfold insert_interrupted, Slab.insert, pop_slot, local_pop, with_mut, pop_slot_from, index.
  rewrite Hl. cbn -[decide].
  assert (E : <[Z.to_nat cpu := loaded]> (local_free_list sl) = local_free_list sl) by (by apply list_insert_id).
  assert (Hrest : forall p : rust (Slab T * option nat),
    ('(sl, popped) ← p;
     match popped with
     | None => Ret (sl, r, Err value)
     | Some i => slot ← index (slots sl) i; '(slot, generation) ← allocate slot value cpu;
         idx ← make_idx generation i; Ret (with_slot sl i slot, r, Ok idx)
     end) =
    '(sl, x) ← ('(sl, popped) ← p;
      match popped with
      | None => Ret (sl, Err value)
      | Some i => slot ← index (slots sl) i; '(slot, generation) ← allocate slot value cpu;
          idx ← make_idx generation i; Ret (with_slot sl i slot, Ok idx)
      end); Ret (sl, r, x)).
  { intros [[sl1 [i|]]|]; simpl; try done. destruct (index _ _) as [s|]; [|done]. simpl.
    destruct (allocate _ _ _) as [[s' g]|]; [|done]. simpl. by destruct (make_idx _ _). }
  rewrite <-Hrest. clear Hrest.
  destruct loaded as [h|]; [case_decide; subst|]; cbn -[decide]; rewrite ?E; try done.
  destruct (slot_next _ _) as [n|]; done.
Qed.

(** The slot that heads a processor's list. *)
Lemma own_head {topology : Topology} sl (a : spec T) cpu h :
  slab_inv sl a -> local_free_list sl !! Z.to_nat cpu = Some (Some h) -> h <> EMPTY ->
  exists s g, slots sl !! Z.to_nat h = Some s /\ slot_is s Unallocated g 0 /\
    Z.of_nat (Z.to_nat h) < 2 ^ 18.
Proof.
  intros [Hsz (gl&lls&Hl&Hall) _] Hc Hne.
  destruct (Forall2_lookup_l _ _ _ _ _ (lists_local _ _ _ _ _ Hl) Hc) as (l&Hll&Hch).
  destruct l as [|i l]; [done|]. destruct Hch as (_&Hi&s&Hs&_). simpl in Hi. subst i.
  destruct (Hall _ _ Hs) as (st&g&Hok). exists s, g. split; [done|].
  assert (Hin : Z.to_nat h ∈ gl ++ concat lls).
  { apply elem_of_app. right. eapply in_concat_lookup; [exact Hll|by left]. }
  assert (Hok' : slot_ok a True (Z.to_nat h) s st g) by (destruct Hok; split; auto; tauto).
  destruct (free_slot _ _ _ _ _ Hok') as (->&_&His). split; [done|].
  pose proof (lookup_lt_Some _ _ _ Hs). lia.
Qed.

(** An insertion into a slot that is already chosen. *)
Definition insert_into sl i (value : T) cpu : rust (Slab T * result Idx T) :=
  slot ← index (slots sl) i;
  '(slot, generation) ← allocate slot value cpu;
  idx ← make_idx generation i;
  Ret (with_slot sl i slot, Ok idx).

Lemma insert_into_ok sl i s st g value cpu :
  slots sl !! i = Some s -> slot_is s st g 0 -> g + 1 < 2 ^ 46 -> Z.of_nat i < 2 ^ 18 ->
  exists s', insert_into sl i value cpu = Ret (with_slot sl i s', Ok (MkIdx (g + 1) (Z.of_nat i))) /\
    slot_is s' Allocated (g + 1) 0 /\ contents s' = Some value /\ next s' = next s.
Proof.
  intros Hs His Hg Hi. unfold insert_into, index. rewrite Hs. cbn [mbind rust_bind].
  destruct (allocate_ok' s st g value cpu His Hg) as (s'&->&His'&Hc&Hn). cbn [mbind rust_bind].
  destruct His as [_ [[??] _]]. rewrite make_idx_ok by lia. by exists s'.
Qed.

Lemma own_insert sl h value cpu s :
  local_free_list sl !! Z.to_nat cpu = Some (Some h) -> h <> EMPTY -> slots sl !! Z.to_nat h = Some s ->
  Slab.insert sl value cpu =
    insert_into (MkSlab (<[Z.to_nat cpu := Some (next s)]> (local_free_list sl))
                   (global_free_list sl) (slots sl)) (Z.to_nat h) value cpu.
Proof.
  intros Hc Hne Hs. unfold Slab.insert, pop_slot, local_pop.
  erewrite (with_mut_ok _ _ _ (Some h)); [|done|rewrite decide_False by done;
    unfold slot_next, index; rewrite Hs; done]. done.
Qed.

Lemma interrupted_own_insert handler sl sl' (r : A) h value cpu s :
  local_free_list sl !! Z.to_nat cpu = Some (Some h) -> h <> EMPTY ->
  handler sl = Ret (sl', r) -> slots sl' !! Z.to_nat h = Some s ->
  insert_interrupted handler sl value cpu =
    '(sl, x) ← insert_into (MkSlab (<[Z.to_nat cpu := Some (next s)]> (local_free_list sl'))
                   (global_free_list sl') (slots sl')) (Z.to_nat h) value cpu;
    Ret (sl, r, x).
Proof.
  intros Hc Hne Hh Hs.
  assert (E1 : index (local_free_list sl) (Z.to_nat cpu) = Ret (Some h)) by (unfold index; by rewrite Hc).
  assert (E2 : slot_next (slots sl') (Z.to_nat h) = Ret (next s)) by (unfold slot_next, index; by rewrite Hs).
  unfold insert_interrupted. rewrite E1. cbn [mbind rust_bind]. rewrite Hh. cbn [mbind rust_bind].
  unfold pop_slot_from. rewrite decide_False, E2 by done. cbn [mbind rust_bind].
  unfold insert_into. cbn [slots].
  destruct (index (slots sl') (Z.to_nat h)) as [s1|]; [|done]. cbn [mbind rust_bind].
  destruct (allocate _ _ _) as [[s2 g]|]; [|done]. cbn [mbind rust_bind]. by destruct (make_idx _ _).
Qed.
End insertions.

(** * Properties *)

(** C16. Handlers that leave the list as they found it do no harm: whatever
    operations interrupt a push or a pop, at whichever access and nested as
    deep as they are, if the handlers in every gap put the list back in
    order and push no slot that is not theirs, then all operations return,
    the list is intact, and the operations in the order of returning are a
    history of a stack. *)
Theorem restoring_interrupts_harmless {T} (o : own_list T) l c l' :
  own_inv o l -> leaves (length (storage_of o)) [] c l = Some l' ->
  exists o' es, run_own c o = Ret (o', es) /\ own_inv o' l' /\ own_history l es = Some l'.
Proof.
  intros Hi E. destruct (all_harmless (length (storage_of o)) c o l l' [] Hi) as (o'&es&R&[Hi' Hh _ _]);
    [intros i []%elem_of_nil|done|done|]. by exists o', es.
Qed.

(** Handlers that do not put the list back break it, whatever is on it:
    a pop that interrupts a pop takes the slot that the interrupted one is
    about to take, and a push that interrupts a push is undone, so that its
    slot is on no list any more. *)
Theorem interrupts_break_list {T} (o : own_list T) l :
  own_inv o l ->
  (forall i k, l = i :: k -> exists o',
     run_own (OwnCall OwnPop [OwnCall OwnPop [] []] []) o =
       Ret (o', [(OwnPop, Some i); (OwnPop, Some i)]) /\ own_inv o' k) /\
  (forall i j, i ∉ l -> j ∉ l -> i <> j -> (i < length (storage_of o))%nat -> (j < length (storage_of o))%nat ->
     exists o', run_own (OwnCall (OwnPush i) [OwnCall (OwnPush j) [] []] []) o =
       Ret (o', [(OwnPush j, None); (OwnPush i, None)]) /\ own_inv o' (i :: l)).
Proof.
  intros Hi. pose proof (oi_size _ _ Hi) as Hsz. split.
  - intros i k ->. pose proof (oi_cell _ _ Hi) as Hc. simpl in Hc.
    pose proof (linked_lt _ _ i (oi_linked _ _ Hi) ltac:(set_solver)) as Hlt.
    assert (Hne : Z.of_nat i <> EMPTY) by (apply word_not_empty; lia).
    destruct (oi_linked _ _ Hi) as [(s&Hs&Hn) Hl].
    destruct (cell o) as [h|] eqn:Eh; simpl in Hc; [subst h|by destruct Hne].
    exists (MkOwnList (Some (word_of k)) (storage_of o)). split.
    + cbn -[decide]. rewrite Eh, decide_False, Nat2Z.id by done. unfold slot_next, index. rewrite Hs.
      cbn -[decide]. rewrite ?decide_False, ?Nat2Z.id by done. unfold index. rewrite Hs. simpl. by rewrite Hn.
    + pose proof (oi_nodup _ _ Hi) as Hnd. apply NoDup_cons in Hnd as [_ ?]. by split.
  - intros i j Hil Hjl Hne Hin Hjn.
    destruct (lookup_lt_is_Some_2 _ _ Hin) as [s Hs]. destruct (lookup_lt_is_Some_2 _ _ Hjn) as [s' Hs'].
    eexists. split.
    + cbn. unfold link_slot, index. rewrite Hs'. cbn. rewrite list_lookup_insert_ne, Hs by done. done.
    + destruct Hi as [Hc Hl Hnd Hsz']. split; simpl; rewrite ?length_insert; try done.
      * split; [|by apply linked_insert, linked_insert]. eexists.
        rewrite list_lookup_insert_eq by (by rewrite length_insert). done.
      * by apply NoDup_cons.
Qed.

(** C17. The slab as it is cannot be used by interrupt handlers. On any slab
    that whole calls have led to, let the own list of a processor have a
    slot, whose generation can still be counted up twice. If an insertion of
    any value on that processor is interrupted after it has loaded the head
    of the own list, and the handler inserts any value too, then both are
    given that slot, under different indices; a lookup of the handler's
    index fails afterwards, although its value was never removed, and the
    slot has the value of the interrupted call. No sequence of calls of the
    abstract slab has these outcomes. *)
Theorem interrupted_insert_loses_value {prof : Profile} {bits : ModularBitfield} {topology : Topology} {T}
    SIZE (sl0 : Slab T) tr sl held cpu h v v' :
  (0 < SIZE)%nat -> slab_new SIZE = Ret sl0 -> runs sl0 [] tr sl held -> 0 <= cpu < MAX_PROCESSORS ->
  local_free_list sl !! Z.to_nat cpu = Some (Some h) -> h <> EMPTY ->
  (forall s, slots sl !! Z.to_nat h = Some s -> generation (load s) + 2 < 2 ^ 46) ->
  exists x y sl',
    insert_interrupted (fun sl => Slab.insert sl v' cpu) sl v cpu = Ret (sl', Ok x, Ok y) /\
    idx_index x = Z.of_nat (Z.to_nat h) /\ idx_index y = Z.of_nat (Z.to_nat h) /\ x <> y /\
    get sl' x = Ret (sl', None) /\
    contents <$> slots sl' !! Z.to_nat h = Some (Some v) /\
    ~ exists a, spec_trace spec_empty
        (tr ++ [(Insert v', Inserted x); (Insert v, Inserted y); (Get x, Got None)]) a.
Proof.
  intros Hpos Hnew Hruns Hcpu Hc Hne Hgen.
  destruct (new_runs _ _ _ _ _ Hpos Hnew Hruns) as (a&_&[Hinv _ _]).
  destruct (own_head _ _ _ _ Hinv Hc Hne) as (s&g&Hs&His&Hi). specialize (Hgen s Hs).
  rewrite (slot_is_load _ _ _ _ His) in Hgen. simpl in Hgen.
  set (i := Z.to_nat h) in *. set (lf := <[Z.to_nat cpu := Some (next s)]> (local_free_list sl)).
  set (sl1 := MkSlab lf (global_free_list sl) (slots sl)).
  destruct (insert_into_ok sl1 i s _ g v' cpu Hs His) as (s1&E1&His1&_&_); [lia|lia|].
  assert (Hs1 : slots (with_slot sl1 i s1) !! i = Some s1)
    by (simpl; apply list_lookup_insert_eq; by eapply lookup_lt_Some).
  set (sl2 := MkSlab (<[Z.to_nat cpu := Some (next s1)]> lf) (global_free_list sl) (<[i := s1]> (slots sl))).
  destruct (insert_into_ok sl2 i s1 _ (g + 1) v cpu Hs1 His1) as (s2&E2&His2&Hc2&_); [lia|lia|].
  assert (Hs2 : slots (with_slot sl2 i s2) !! i = Some s2)
    by (simpl; apply list_lookup_insert_eq; rewrite length_insert; by eapply lookup_lt_Some).
  exists (MkIdx (g + 1) (Z.of_nat i)), (MkIdx (g + 1 + 1) (Z.of_nat i)), (with_slot sl2 i s2).
  split; [|split; [done|]; split; [done|]; split; [|split; [|split]]].
  - erewrite (interrupted_own_insert _ sl (with_slot sl1 i s1)); [|exact Hc|done| |exact Hs1].
    + change (MkSlab _ _ _) with sl2. fold i. by rewrite E2.
    + by rewrite (own_insert _ h _ _ s).
  - intros [= ?]. lia.
  - unfold get. cbn [idx_index idx_generation]. rewrite Nat2Z.id, Hs2.
    rewrite (acquire_reference_ok _ _ _ _ _ His2), decide_True by lia. cbn [mbind rust_bind].
    by rewrite with_slot_id.
  - rewrite Hs2. simpl. by rewrite Hc2.
  - intros [a' Ht]. apply spec_trace_app in Ht as (a1&_&Ht).
    repeat match goal with H : spec_trace _ (_ :: _) _ |- _ => inversion H; subst; clear H end.
    repeat match goal with H : spec_step _ _ _ _ |- _ => inversion H; subst; clear H end.
    match goal with H : _ ∉ live _ |- _ => apply H end. simpl. set_solver.
Qed.

(** * Executions *)

Section executions.
#[local] Existing Instance lsb_first.
#[local] Existing Instance dev_profile.
#[local] Existing Instance x86_64_topology.

(** Processor 0 fills a slab of two slots and empties it again, which puts
    both on its own list. *)
#[local] Definition own_calls : list (call Z * outcome Z) :=
  [(Insert 10, Inserted (MkIdx 1 0)); (Insert 20, Inserted (MkIdx 1 1));
   (Remove (MkIdx 1 0), Removed true); (Remove (MkIdx 1 1), Removed true)].

#[local] Definition own_slab : Slab Z :=
  match ('(sl, _) ← run_call (new_slab 2) 0 (Insert 10);
         '(sl, _) ← run_call sl 0 (Insert 20);
         '(sl, _) ← run_call sl 0 (Remove (MkIdx 1 0));
         run_call sl 0 (Remove (MkIdx 1 1))) with
  | Ret (sl, _) => sl
  | Panic _ => new_slab 2
  end.

Lemma own_runs : runs (new_slab 2) [] own_calls own_slab [].
Proof.
  repeat (eapply runs_cons with (cpu := 0); [done|vm_compute; reflexivity|by constructor|]).
  apply runs_nil.
Qed.

(** The loss on this slab. *)
Lemma interrupted_insert_loses_value_witness :
  exists x y sl', insert_interrupted (fun sl => Slab.insert sl 40 0) own_slab 30 0 = Ret (sl', Ok x, Ok y) /\
    idx_index x = 1 /\ get sl' x = Ret (sl', None).
Proof.
  destruct (interrupted_insert_loses_value 2 (new_slab 2) own_calls own_slab [] 0 1 30 40
    ltac:(lia) eq_refl own_runs ltac:(done)) as (x&y&sl'&E&Hx&_&_&Hg&_).
  - vm_compute. reflexivity.
  - vm_compute. congruence.
  - intros s Hs. vm_compute in Hs. injection Hs as <-. by vm_compute.
  - by exists x, y, sl'.
Defined.

#[local] Definition two_free : own_list Z :=
  MkOwnList (nth 0 (local_free_list own_slab) None) (slots own_slab).

Lemma two_free_inv : own_inv two_free [1; 0]%nat.
Proof.
  split; [by vm_compute| |by apply (bool_decide_unpack _)|by vm_compute].
  split; [by eexists|]. split; [by eexists|done].
Qed.

(** A pop that is interrupted twice: by a handler that pops both slots and
    pushes them back, interrupted in its own first pop, and by one that pops
    the first slot and pushes it back. *)
#[local] Definition careful : own_call :=
  OwnCall OwnPop
    [OwnCall OwnPop [] [OwnCall OwnPop [] []; OwnCall (OwnPush 1) [] []];
     OwnCall OwnPop [] []; OwnCall (OwnPush 0) [] []; OwnCall (OwnPush 1) [] []]
    [OwnCall OwnPop [] []; OwnCall (OwnPush 1) [] []].

Lemma restoring_interrupts_harmless_witness :
  exists o es, run_own careful two_free = Ret (o, es) /\ own_inv o [0%nat].
Proof.
  destruct (restoring_interrupts_harmless two_free [1; 0]%nat careful [0%nat]) as (o&es&R&Hi&_).
  - exact two_free_inv.
  - vm_compute. reflexivity.
  - by exists o, es.
Defined.

Lemma interrupts_break_list_witness :
  exists o, run_own (OwnCall OwnPop [OwnCall OwnPop [] []] []) two_free =
    Ret (o, [(OwnPop, Some 1%nat); (OwnPop, Some 1%nat)]) /\ own_inv o [0%nat].
Proof.
  destruct (interrupts_break_list two_free [1; 0]%nat two_free_inv) as [H _].
  exact (H 1%nat [0%nat] eq_refl).
Defined.
End executions.
