(* ===== verification/LoomTopology.v ===== *)
(** The topology of the concurrency tests and the test of [PerProcessor]
    ([hal/src/topology.rs], modules [loom] and [test]). Loom runs a test
    under every interleaving of its threads; here a schedule, a list of
    thread numbers, says which thread acts next, and the test passes when
    it runs without a panic under every schedule. *)
From S2P Require Import Prelude Topology.

(** [loom::MAX_THREADS], a constant of the loom crate, small enough for the
    [u16] it is cast to. *)
Class Loom := {
  MAX_THREADS : Z;
  max_threads_u16 : 0 <= MAX_THREADS < 2 ^ 16;
}.

#[export] Instance LoomTopology `{Loom} : Topology :=
  {| MAX_PROCESSORS := MAX_THREADS; max_processors_u16 := max_threads_u16 |}.

(** [NEXT_ID] and every thread's [CURRENT_ID], which is initialised by its
    first use. *)
Record LoomIds := MkLoomIds { NEXT_ID : Z; CURRENT_ID : list (option Z) }.

Definition no_ids (threads : nat) : LoomIds := MkLoomIds 0 (replicate threads None).

(** [LoomTopology::current_processor], called by thread [t]. *)
Definition current_processor (ids : LoomIds) (t : nat) : LoomIds * Z :=
  match CURRENT_ID ids !! t with
  | Some (Some c) => (ids, c)
  | _ => (MkLoomIds ((NEXT_ID ids + 1) mod 2 ^ 16) (<[t := Some (NEXT_ID ids)]> (CURRENT_ID ids)),
          NEXT_ID ids)
  end.

(** The ids that were given out are the first ones, each to one thread. *)
Definition ids_ok (ids : LoomIds) : Prop :=
  0 <= NEXT_ID ids /\ omap id (CURRENT_ID ids) ≡ₚ seqZ 0 (NEXT_ID ids).

Lemma omap_replicate_None {A} n : omap id (replicate n (None : option A)) = [].
Proof. by induction n. Qed.

Lemma no_ids_ok n : ids_ok (no_ids n).
Proof. split; [done|]. simpl. by rewrite omap_replicate_None. Qed.

Lemma omap_insert_None {A} (l : list (option A)) t x :
  l !! t = Some None -> omap id (<[t := Some x]> l) ≡ₚ x :: omap id l.
Proof.
  intros Ht. pose proof (lookup_lt_Some _ _ _ Ht).
  rewrite insert_take_drop by done. rewrite <-(take_drop_middle l t None) at 3 by done.
  rewrite !omap_app. simpl. solve_Permutation.
Qed.

Lemma length_omap_le {A} (l : list (option A)) : (length (omap id l) <= length l)%nat.
Proof.
  induction l as [|[x|] l IH]; [done|..]; change (length (omap id _)) with (S (length (omap id l)))
    || change (omap id (None :: l)) with (omap id l); simpl length; lia.
Qed.

Lemma length_omap_id {A} (l : list (option A)) t :
  l !! t = Some None -> (length (omap id l) < length l)%nat.
Proof.
  intros Ht. rewrite <-(take_drop_middle l t None) by done.
  rewrite omap_app, !length_app. change (omap id (None :: ?x)) with (omap id x). simpl length.
  pose proof (length_omap_le (take t l)). pose proof (length_omap_le (drop (S t) l)). lia.
Qed.

(** A thread that asks for its processor gets the same answer every time,
    and no two threads get the same; the number is below that of the
    threads. *)
Lemma current_processor_ok ids t :
  ids_ok ids -> (t < length (CURRENT_ID ids))%nat -> Z.of_nat (length (CURRENT_ID ids)) < 2 ^ 16 ->
  exists ids' c, current_processor ids t = (ids', c) /\ ids_ok ids' /\
    CURRENT_ID ids' = <[t := Some c]> (CURRENT_ID ids) /\
    0 <= c < Z.of_nat (length (CURRENT_ID ids)) /\
    (ids' = ids /\ CURRENT_ID ids !! t = Some (Some c) \/
     c = NEXT_ID ids /\ CURRENT_ID ids !! t = Some None /\ NEXT_ID ids' = c + 1).
Proof.
  intros [Hn Hp] Ht Hlen. unfold current_processor.
  destruct (lookup_lt_is_Some_2 _ _ Ht) as [[c|] Hc]; rewrite Hc.
  - exists ids, c. split; [done|]. split; [done|]. split; [by rewrite list_insert_id|].
    split; [|by left]. assert (Hin : c ∈ seqZ 0 (NEXT_ID ids)).
    { rewrite <-Hp. apply list_elem_of_omap. exists (Some c). split; [|done].
      by eapply list_elem_of_lookup_2. }
    apply elem_of_seqZ in Hin. apply Permutation_length in Hp. rewrite length_seqZ in Hp.
    pose proof (length_omap_le (CURRENT_ID ids)). lia.
  - pose proof (length_omap_id _ _ Hc) as Hl. rewrite Hp, length_seqZ in Hl.
    do 2 eexists. split; [done|]. simpl. rewrite Z.mod_small by lia.
    split; [|split; [done|]; split; [lia|by right]]. split; simpl; [lia|].
    rewrite omap_insert_None by done. rewrite Hp.

    rewrite seqZ_app by lia. rewrite Permutation_app_comm. done.
Qed.

Lemma ids_distinct ids t t' c :
  ids_ok ids -> CURRENT_ID ids !! t = Some (Some c) -> CURRENT_ID ids !! t' = Some (Some c) -> t = t'.
Proof.
  intros [_ Hp] Ht Ht'. pose proof (NoDup_seqZ 0 (NEXT_ID ids)) as Hnd. rewrite <-Hp in Hnd.
  by eapply (omap_injective id).
Qed.

Lemma id_below_next ids t c :
  ids_ok ids -> CURRENT_ID ids !! t = Some (Some c) -> 0 <= c < NEXT_ID ids.
Proof.
  intros [_ Hp] Ht. assert (Hin : c ∈ seqZ 0 (NEXT_ID ids)); [|apply elem_of_seqZ in Hin; lia].
  rewrite <-Hp. apply list_elem_of_omap. exists (Some c). split; [by eapply list_elem_of_lookup_2|done].
Qed.

(** * [test_per_processor] *)

(** The variable [VAR], the ids, and how many of its two accesses each
    thread has made. *)
Record PerProcessorTest := MkTest {
  ids_of : LoomIds;
  VAR : PerProcessor Z;
  made : list nat;
}.

Section per_processor_test.
Context {loom : Loom}.
Implicit Types (st : PerProcessorTest) (t : nat).

Definition per_processor_test (threads : nat) : PerProcessorTest :=
  MkTest (no_ids threads) per_processor_new (replicate threads 0%nat).

(** The next access of thread [t]: it stores its number, then asserts that
    it finds it. *)
Definition per_processor_thread st t : rust PerProcessorTest :=
  let '(ids, cpu) := current_processor (ids_of st) t in
  match made st !! t with
  | Some 0%nat =>
      '(var, _) ← with_mut cpu (VAR st) (fun _ => Ret (Some (Z.of_nat t), tt));
      Ret (MkTest ids var (<[t := 1%nat]> (made st)))
  | Some 1%nat =>
      '(var, _) ← with_mut cpu (VAR st) (fun cell =>
        _ ← rassert (bool_decide (cell = Some (Z.of_nat t))); Ret (cell, tt));
      Ret (MkTest ids var (<[t := 2%nat]> (made st)))
  | _ => Ret st
  end.

Fixpoint per_processor_run st (schedule : list nat) : rust PerProcessorTest :=
  match schedule with
  | [] => Ret st
  | t :: schedule => st ← per_processor_thread st t; per_processor_run st schedule
  end.

(** Whoever has stored its number finds it in its own cell. *)
Record test_inv (n : nat) st : Prop := {
  pt_ids : ids_ok (ids_of st);
  pt_threads : length (CURRENT_ID (ids_of st)) = n;
  pt_cells : length (VAR st) = Z.to_nat MAX_PROCESSORS;
  pt_made : length (made st) = n;
  pt_stored t k : made st !! t = Some k -> (0 < k)%nat ->
    exists c, CURRENT_ID (ids_of st) !! t = Some (Some c) /\
      VAR st !! Z.to_nat c = Some (Some (Z.of_nat t));
}.

Lemma per_processor_step n st t :
  Z.of_nat n < MAX_THREADS -> test_inv n st ->
  exists st', per_processor_thread st t = Ret st' /\ test_inv n st'.
Proof.
  intros Hn [Hids Hc Hv Hm Hst]. pose proof max_threads_u16. unfold per_processor_thread.
  destruct (made st !! t) as [k|] eqn:Hk; cycle 1.
  { destruct (current_processor _ _). by exists st. }
  pose proof (lookup_lt_Some _ _ _ Hk) as Ht. rewrite Hm, <-Hc in Ht.
  destruct (current_processor_ok _ _ Hids Ht ltac:(lia)) as (ids&c&->&Hids'&Hcur&Hb&Hcase).
  simpl in Hv. destruct (lookup_lt_is_Some_2 (VAR st) (Z.to_nat c)) as [cell Hcell]; [lia|].
  assert (Hother : forall t' c', t' <> t -> CURRENT_ID (ids_of st) !! t' = Some (Some c') -> c' <> c).
  { intros t' c' Hne Hc' ->. apply Hne. eapply (ids_distinct ids); [done|rewrite Hcur|rewrite Hcur].
    - by rewrite list_lookup_insert_ne.
    - by apply list_lookup_insert_eq. }
  assert (Hbound : forall t' c', CURRENT_ID (ids_of st) !! t' = Some (Some c') -> 0 <= c')
    by (intros t' c' Hc'; pose proof (id_below_next _ _ _ Hids Hc'); lia).
  assert (Hkeep : forall k', test_inv n (MkTest ids (<[Z.to_nat c := Some (Z.of_nat t)]> (VAR st))
                              (<[t := k']> (made st)))).
  { intros k'. split; simpl; [done|by rewrite Hcur, length_insert|by rewrite length_insert..|].
    intros t' k0 Hk0 Hpos. rewrite Hcur. destruct (decide (t' = t)) as [->|Hne].
    - exists c. rewrite !list_lookup_insert_eq by lia. done.
    - rewrite list_lookup_insert_ne in Hk0 by done.
      destruct (Hst t' k0 Hk0 Hpos) as (c'&Hc'&Hv'). exists c'.
      pose proof (Hother _ _ Hne Hc'). pose proof (Hbound _ _ Hc').
      rewrite !list_lookup_insert_ne by lia. done. }
  destruct k as [|[|k]].
  - rewrite (with_mut_ok _ _ _ cell (Some (Z.of_nat t)) tt) by done. simpl. eauto.
  - destruct (Hst t 1%nat Hk ltac:(lia)) as (c'&Hc'&Hv').
    assert (c' = c) as ->.
    { destruct Hcase as [[_ E]|[_ [E _]]]; rewrite E in Hc'; congruence. }
    rewrite (with_mut_ok _ _ _ (Some (Z.of_nat t)) (Some (Z.of_nat t)) tt); [simpl; eauto|done|].
    by rewrite bool_decide_true.
  - by exists st.
Qed.

(** [test_per_processor] passes under every schedule: no two threads
    are given the same cell, none is out of range, and every thread finds
    what it stored. *)
Theorem test_per_processor_passes n schedule :
  Z.of_nat n < MAX_THREADS ->
  exists st, per_processor_run (per_processor_test n) schedule = Ret st /\
    forall t k, made st !! t = Some k -> (0 < k)%nat ->
      exists c, CURRENT_ID (ids_of st) !! t = Some (Some c) /\
        VAR st !! Z.to_nat c = Some (Some (Z.of_nat t)).
Proof.
  intros Hn. assert (Hi : test_inv n (per_processor_test n)).
  { split; simpl; [apply no_ids_ok|apply length_replicate..|].
    intros t k Hk. apply lookup_replicate in Hk as [-> _]. lia. }
  revert Hi. generalize (per_processor_test n) as st.
  induction schedule as [|t schedule IH]; intros st Hi; simpl.
  - exists st. split; [done|apply Hi].
  - destruct (per_processor_step n st t Hn Hi) as (st'&->&Hi'). simpl. by apply IH.
Qed.
End per_processor_test.

(** Four threads at most, the main thread among them. *)
Definition four_threads : Loom.
Proof. by refine {| MAX_THREADS := 4 |}. Defined.

Lemma test_per_processor_passes_witness :
  exists st, per_processor_run (per_processor_test (loom := four_threads) 3)
    [2; 0; 2; 1; 0; 1]%nat = Ret st.
Proof.
  destruct (test_per_processor_passes (loom := four_threads) 3 [2; 0; 2; 1; 0; 1]%nat ltac:(done))
    as (st&E&_). by exists st.
Defined.
