(* ===== verification/FreeListTests.v ===== *)
(** The concurrency tests of the global free list ([slab/src/free_lists.rs],
    module [test]). The threads' pushes and pops go action by action, under
    a schedule, with the actions of [SlabSteps]. The general statements
    behind the tests hold for any number of threads and slots. *)
From stdpp Require Import sorting.
From S2P Require Import Prelude Bitfields Topology Slot FreeLists Slab SlabSpec Treiber SlabSteps.
From S2P Require Import SlabConcurrent.

Section tests.
Context {bits : ModularBitfield}.
Implicit Types (f : GlobalFreeList) (storage : list (Slot unit)) (i t : nat).

(** Storage whose slots are on no list. *)
Definition test_storage (n : nat) : rust (list (Slot unit)) :=
  mapM (fun _ => new_unallocated EMPTY) (seq 0 n).

Definition push (st : GlobalFreeList * list (Slot unit)) i : rust (GlobalFreeList * list (Slot unit)) :=
  global_push st.1 i st.2.

Definition pop (st : GlobalFreeList * list (Slot unit))
    : rust (GlobalFreeList * list (Slot unit) * option nat) :=
  '(f, o) ← global_pop st.1 st.2; Ret (f, st.2, o).

(** [assert_eq!(free_list.pop(&storage), expected)]. *)
Definition assert_pop (st : GlobalFreeList * list (Slot unit)) (expected : option nat)
    : rust (GlobalFreeList * list (Slot unit)) :=
  '(st, o) ← pop st;
  _ ← rassert (bool_decide (o = expected));
  Ret st.

(** * One thread *)

Definition test_single_processor : rust unit :=
  storage ← test_storage 6;
  let st := (global_new_empty, storage) in
  st ← push st 1%nat;
  st ← assert_pop st (Some 1%nat);
  st ← assert_pop st None;
  st ← push st 4%nat;
  st ← push st 3%nat;
  st ← push st 5%nat;
  st ← assert_pop st (Some 5%nat);
  st ← push st 0%nat;
  st ← assert_pop st (Some 0%nat);
  st ← assert_pop st (Some 3%nat);
  st ← assert_pop st (Some 4%nat);
  Ret tt.

(** * Threads that push *)

(** A thread is at some position of its current push and has slots left to
    push. *)
Record PushTest := MkPushTest {
  push_list : GlobalFreeList;
  push_storage : list (Slot unit);
  pushers : list (pc * list nat);
}.

Definition push_thread (st : PushTest) t : rust PushTest :=
  match pushers st !! t with
  | Some (Idle, i :: todo) =>
      '(f, w) ← take_tag (push_list st) i;
      Ret (MkPushTest f (push_storage st) (<[t := (PushTagged i w, todo)]> (pushers st)))
  | Some (Idle, []) | None => Ret st
  | Some (p, todo) =>
      '(f, storage, p) ← push_act (push_list st) (push_storage st) p;
      Ret (MkPushTest f storage (<[t := (p, todo)]> (pushers st)))
  end.

Fixpoint push_run (st : PushTest) (schedule : list nat) : rust PushTest :=
  match schedule with
  | [] => Ret st
  | t :: schedule => st ← push_thread st t; push_run st schedule
  end.

(** [t1.join(); t2.join()] wait for this. *)
Definition joined (st : PushTest) : Prop := Forall (fun th => th = (Idle, [])) (pushers st).

(** [while let Some(item) = free_list.pop(..)]. *)
Fixpoint pop_all (fuel : nat) (st : GlobalFreeList * list (Slot unit)) : rust (list nat) :=
  match fuel with
  | O => Panic EndlessLoop
  | S fuel =>
      '(st, o) ← pop st;
      match o with
      | Some item => items ← pop_all fuel st; Ret (item :: items)
      | None => Ret []
      end
  end.

(** What the main thread does after it has joined the others. *)
Definition check_results (st : PushTest) (expected : list nat) : rust unit :=
  results ← pop_all (S (length (push_storage st))) (push_list st, push_storage st);
  rassert (bool_decide (merge_sort (≤)%nat results = expected)).

Definition push_test (n : nat) (programs : list (list nat)) : rust PushTest :=
  storage ← test_storage n;
  Ret (MkPushTest global_new_empty storage (pair Idle <$> programs)).

Definition test_concurrent_push : rust PushTest := push_test 4 [[0; 2]; [1; 3]]%nat.

(** * Threads that pop *)

(** A thread is at some position of its only pop, or has finished. *)
Record PopTest := MkPopTest {
  pop_list : GlobalFreeList;
  pop_storage : list (Slot unit);
  poppers : list (option pc);
}.

(** A thread's assertion is the last thing it does. *)
Definition pop_thread (st : PopTest) t : rust PopTest :=
  match poppers st !! t with
  | Some (Some p) =>
      '(f, r) ← pop_act (pop_list st) (pop_storage st) p;
      match r with
      | inl p => Ret (MkPopTest f (pop_storage st) (<[t := Some p]> (poppers st)))
      | inr o =>
          _ ← rassert (bool_decide (is_Some o));
          Ret (MkPopTest f (pop_storage st) (<[t := None]> (poppers st)))
      end
  | _ => Ret st
  end.

Fixpoint pop_run (st : PopTest) (schedule : list nat) : rust PopTest :=
  match schedule with
  | [] => Ret st
  | t :: schedule => st ← pop_thread st t; pop_run st schedule
  end.

Fixpoint push_each (st : GlobalFreeList * list (Slot unit)) (l : list nat)
    : rust (GlobalFreeList * list (Slot unit)) :=
  match l with
  | [] => Ret st
  | i :: l => st ← push st i; push_each st l
  end.

Definition pop_test (n threads : nat) : rust PopTest :=
  storage ← test_storage n;
  st ← push_each (global_new_empty, storage) (seq 0 n);
  Ret (MkPopTest st.1 st.2 (replicate threads (Some PopStart))).

Definition test_concurrent_pop : rust PopTest := pop_test 2 2.
End tests.

Section facts.
Context {bits : ModularBitfield}.
Implicit Types (f : GlobalFreeList) (storage : list (Slot unit)) (i t : nat).

Definition unused_slot : Slot unit := fresh_slot EMPTY.

Lemma test_storage_eq n : test_storage n = Ret (replicate n unused_slot).
Proof.
  unfold test_storage. rewrite (mapM_Ret _ (fun _ => unused_slot)) by done.
  f_equal. generalize 0%nat. induction n as [|n IH]; intros k; [done|]. simpl. by rewrite IH.
Qed.

(** The list holds the slots [l] of [n], after [k] pushes. *)
Record holds (n : nat) (k : Z) (l : list nat) (st : GlobalFreeList * list (Slot unit)) : Prop := {
  ho_chain : chain head_index st.2 (head st.1) l;
  ho_tag : tag st.1 = k;
  ho_length : length st.2 = n;
}.

Lemma holds_new n : holds n 0 [] (global_new_empty, replicate n unused_slot).
Proof. split; [done|done|]. apply length_replicate. Qed.

Lemma push_holds n k l st i :
  holds n k l st -> Z.of_nat n < 2 ^ 18 -> 0 <= k < 2 ^ 46 -> (i < n)%nat -> i ∉ l ->
  exists st', push st i = Ret st' /\ holds n (k + 1) (i :: l) st'.
Proof.
  intros [Hc Ht Hl] Hn Hk Hi Hni. destruct (lookup_lt_is_Some_2 st.2 i) as [s Hs]; [lia|].
  destruct (global_push_ok st.1 l i s st.2 Hc Hs Hni) as (f'&E&Hc'&Ht'); [lia|lia|].
  eexists. split; [exact E|]. split; simpl; [exact Hc'|lia|by rewrite length_insert].
Qed.

Lemma pop_holds n k l st :
  holds n k l st ->
  exists st', pop st = Ret (st', List.head l) /\ holds n k (tail l) st'.
Proof.
  intros [Hc Ht Hl]. pose proof (global_pop_ok st.1 l st.2 Hc) as Hp. unfold pop.
  destruct l as [|i l]; simpl in Hp.
  - rewrite Hp. simpl. eexists. split; [done|]. by split.
  - destruct Hp as (w&->&Hc'). simpl. eexists. split; [done|]. by split.
Qed.

Lemma assert_pop_holds n k l st :
  holds n k l st -> exists st', assert_pop st (List.head l) = Ret st' /\ holds n k (tail l) st'.
Proof.
  intros H. destruct (pop_holds _ _ _ _ H) as (st'&E&H'). unfold assert_pop. rewrite E. simpl.
  rewrite bool_decide_true by done. by exists st'.
Qed.

(** The next call on a list that [H] describes. *)
Ltac list_call H :=
  let st' := fresh "st" in let E := fresh "E" in let H' := fresh "H" in
  match goal with
  | |- mbind _ (push ?st ?i) = _ =>
      destruct (push_holds _ _ _ _ i H) as (st'&E&H'); [lia|lia|lia|set_solver|]; rewrite E
  | |- mbind _ (assert_pop ?st _) = _ =>
      destruct (assert_pop_holds _ _ _ _ H) as (st'&E&H'); cbn [List.head tail] in E, H'; rewrite E
  end; cbn [mbind rust_bind]; clear H E.

(** [test_single_processor] passes. *)
Lemma test_single_processor_passes : test_single_processor = Ret tt.
Proof.
  unfold test_single_processor. rewrite test_storage_eq. cbn [mbind rust_bind].
  pose proof (holds_new 6) as H.
  repeat match goal with H : holds _ _ _ _ |- _ => list_call H end. done.
Qed.
End facts.

Section push_facts.
Context {bits : ModularBitfield}.
Implicit Types (f : GlobalFreeList) (storage : list (Slot unit)) (i t : nat)
  (st : PushTest) (ths : list (pc * list nat)).

Definition config_of st : config unit :=
  MkConfig (push_list st) (push_storage st) (concat (snd <$> pushers st)).

(** The threads' slots are those of their programs, wherever they are. *)
Record push_inv (n : nat) (programs : list (list nat)) st (ws : list Z) : Prop := {
  pi_list : treiber_inv (config_of st) (fst <$> pushers st) ws;
  pi_pushes : Forall (fun th => th.1 = Idle \/ pushes th.1) (pushers st);
  pi_slots : all_slots (config_of st) (fst <$> pushers st) (stack_of ws) ≡ₚ concat programs;
  pi_tag : tag (push_list st) + Z.of_nat (length (concat (snd <$> pushers st))) =
             Z.of_nat (length (concat programs));
  pi_storage : length (push_storage st) = n;
}.

Lemma push_act_keeps f storage (p : pc) f' storage' p' :
  push_act f storage p = Ret (f', storage', p') -> tag f' = tag f /\ length storage' = length storage.
Proof.
  intros E. destruct p as [|i w|i w old|i w old| |old|old w]; simpl in E; simplify_eq; try done.
  - rust_inv E. apply link_slot_inv in Hx as (s&_&->). simplify_eq. by rewrite length_insert.
  - destruct (exchange_head f old w) as [f1|] eqn:Ex; simplify_eq; [|done].
    by apply exchange_head_inv in Ex as [_ ->].
Qed.

(** Where nobody pops, every push is clear. *)
Lemma clear_pushers f (others : list pc) (p p' : pc) :
  Forall (fun q => q = Idle \/ pushes q) others -> clear_at f others p p'.
Proof.
  intros Hq. destruct p; try done. destruct p'; try done. simpl. unfold push_clear.
  apply Is_true_true, orb_true_iff. right. apply forallb_forall. intros q Hin%list_elem_of_In.
  rewrite Forall_forall in Hq. by destruct (Hq q Hin) as [->|]; [|destruct q].
Qed.

(** A step of thread [t], which is at [p], as a step of the system. *)
Lemma push_step_inv n programs st ws t p todo f' storage' p' todo' e :
  push_inv n programs st ws -> pushers st !! t = Some (p, todo) ->
  (forall rest, action (MkConfig (push_list st) (push_storage st) (todo ++ rest)) p e
           (MkConfig f' storage' (todo' ++ rest)) p') ->
  (p' = Idle \/ pushes p') -> length storage' = n ->
  tag f' + Z.of_nat (length todo') = tag (push_list st) + Z.of_nat (length todo) ->
  exists ws', push_inv n programs (MkPushTest f' storage' (<[t := (p', todo')]> (pushers st))) ws'.
Proof.
  intros [Hi Hp Hs Ht Hn] Hth Ha Hp' Hn' Htag.
  destruct st as [f storage ths]; simpl in *. pose proof (lookup_lt_Some _ _ _ Hth) as Hlt.
  rewrite <-(take_drop_middle ths t (p, todo)) in Hi, Hp, Hs, Ht by done.
  rewrite insert_take_drop by done. set (l1 := take t ths) in *. set (l2 := drop (S t) ths) in *.
  unfold config_of in *. simpl in *. rewrite !fmap_app, !fmap_cons in *. simpl in *.
  rewrite !concat_app in *. simpl in *.
  set (rest := concat (snd <$> l1) ++ concat (snd <$> l2)).
  assert (Hperm0 : concat (snd <$> l1) ++ todo ++ concat (snd <$> l2) ≡ₚ todo ++ rest)
    by (unfold rest; solve_Permutation).
  unfold all_slots in Hs. simpl in Hs. rewrite Hperm0 in Hs.
  apply (treiber_inv_owned _ _ _ _ _ _ Hperm0) in Hi.
  assert (Hstep : clear_step (MkConfig f storage (todo ++ rest), (fst <$> l1) ++ p :: (fst <$> l2)) e
                       (MkConfig f' storage' (todo' ++ rest), (fst <$> l1) ++ p' :: (fst <$> l2))).
  { apply clear_thread_step; [apply Ha|]. apply clear_pushers.
    rewrite <-fmap_app. apply Forall_app in Hp as [Hp1 [_ Hp2]%Forall_cons].
    apply Forall_fmap, Forall_app. by split. }
  destruct (step_inv _ _ _ _ Hstep Hi) as (ws'&Hl&Hi'). exists ws'.
  pose proof (step_slots _ _ _ _ _ Hstep Hl) as Hs'. simpl in Hi', Hs'.
  assert (Hperm : todo' ++ rest ≡ₚ concat (snd <$> l1) ++ todo' ++ concat (snd <$> l2))
    by (unfold rest; solve_Permutation).
  split; unfold config_of; simpl; rewrite ?fmap_app, ?fmap_cons, ?concat_app; simpl.
  - eapply treiber_inv_owned; [exact Hperm|done].
  - apply Forall_app in Hp as [? [_ ?]%Forall_cons]. apply Forall_app. split; [done|].
    by apply Forall_cons.
  - rewrite <-Hs. unfold all_slots in Hs' |- *. simpl in Hs' |- *. by rewrite <-Hs', Hperm.
  - rewrite <-Ht. rewrite !length_app. lia.
  - done.
Qed.

Lemma push_thread_inv n programs st ws t :
  push_inv n programs st ws -> Z.of_nat (length (concat programs)) < 2 ^ 46 ->
  match push_thread st t with
  | Ret st' => exists ws', push_inv n programs st' ws'
  | Panic _ => False
  end.
Proof.
  intros Hi Hsz. unfold push_thread. destruct (pushers st !! t) as [[p todo]|] eqn:Hth; [|by exists ws].
  pose proof Hi as [Ht Hp _ Htag Hn].
  assert (Hpt : p = Idle \/ pushes p).
  { rewrite Forall_forall in Hp. apply (Hp (p, todo)). by eapply list_elem_of_lookup_2. }
  assert (Hin : forall i, i ∈ todo -> i ∈ concat (snd <$> pushers st)).
  { intros i Hin. apply list_elem_of_In, in_concat. exists todo. split; [|by apply list_elem_of_In].
    apply list_elem_of_In, list_elem_of_fmap. exists (p, todo). split; [done|].
    by eapply list_elem_of_lookup_2. }
  destruct Hpt as [->|Hpt].
  - destruct todo as [|i todo]; [by exists ws|].
    assert (Hlt : (i < length (push_storage st))%nat).
    { pose proof (ti_bounds _ _ _ Ht) as Hb. apply Forall_app in Hb as [_ [_ Hb]%Forall_app].
      simpl in Hb. rewrite Forall_forall in Hb. apply Hb, Hin. by left. }
    pose proof (ti_size _ _ _ Ht) as Hs. pose proof (ti_tag _ _ _ Ht) as H0. simpl in Hs, H0.
    assert (Hpos : (0 < length (concat (snd <$> pushers st)))%nat).
    { destruct (concat (snd <$> pushers st)) as [|j l]; [|simpl; lia].
      destruct (not_elem_of_nil i). apply Hin. by left. }
    rewrite take_tag_ok by lia. cbn [mbind rust_bind].
    eapply push_step_inv; [exact Hi|exact Hth| |by right|done|simpl; lia].
    intros rest. eapply start_push; [done|]. apply take_tag_ok; lia.
  - assert (Hpanic : forall why, push_act (push_list st) (push_storage st) p <> Panic why).
    { intros why E. apply list_elem_of_lookup_2, list_elem_of_split in Hth as (l1&l2&Hl).
      rewrite Hl, fmap_app, fmap_cons in Ht. simpl in Ht.
      eapply treiber_inv_perm in Ht; [|symmetry; apply Permutation_middle].
      pose proof (push_act_ok _ _ _ _ _ _ Hpt Ht) as Hok. by rewrite E in Hok. }
    destruct (push_act (push_list st) (push_storage st) p) as [[[f' storage'] p']|why] eqn:E;
      [|by destruct (Hpanic why)].
    pose proof (push_act_keeps _ _ _ _ _ _ E) as [Et El].
    destruct (push_act_action _ _ _ _ _ _ Hpt E) as (Hp'&e&Ha).
    destruct p; try done; cbn [mbind rust_bind];
      (eapply push_step_inv; [exact Hi|exact Hth|intros; apply Ha|done|by rewrite El|lia]).
Qed.

Lemma push_run_inv n programs schedule st ws :
  push_inv n programs st ws -> Z.of_nat (length (concat programs)) < 2 ^ 46 ->
  exists st' ws', push_run st schedule = Ret st' /\ push_inv n programs st' ws'.
Proof.
  intros Hi Hsz. revert st ws Hi. induction schedule as [|t schedule IH]; intros st ws Hi; [by exists st, ws|].
  simpl. pose proof (push_thread_inv _ _ _ _ t Hi Hsz) as Hs.
  destruct (push_thread st t) as [st'|]; [|done]. destruct Hs as [ws' Hi']. simpl. by eapply IH.
Qed.

Lemma push_run_app st s1 s2 :
  push_run st (s1 ++ s2) = (st ← push_run st s1; push_run st s2).
Proof.
  revert st. induction s1 as [|t s1 IH]; intros st; [done|]. simpl.
  destruct (push_thread st t); simpl; [apply IH|done].
Qed.

(** The actions left of a thread that is alone. *)
Definition pushes_left f (th : pc * list nat) : nat :=
  match th.1 with
  | PushTagged _ _ => 3
  | PushLoaded _ _ old => if decide (head f = old) then 2 else 5
  | PushLinked _ _ old => if decide (head f = old) then 1 else 4
  | _ => 0
  end + 4 * length th.2.

Lemma push_thread_left st t th st' :
  pushers st !! t = Some th -> (th.1 = Idle \/ pushes th.1) -> th <> (Idle, []) ->
  push_thread st t = Ret st' ->
  exists th', pushers st' = <[t := th']> (pushers st) /\
    (pushes_left (push_list st') th' < pushes_left (push_list st) th)%nat.
Proof.
  intros Ht Hp Hne E. unfold push_thread in E. rewrite Ht in E. unfold pushes_left.
  destruct th as [[|i w|i w old|i w old| |old|old w] todo]; simpl in Hp;
    try (by destruct Hp); cbn [fst snd].
  - destruct todo as [|i todo]; [done|]. rust_inv E. destruct x as [f w]. simplify_eq/=.
    eexists. split; [done|]. simpl. lia.
  - cbn in E. simplify_eq/=. eexists. split; [done|]. simpl. rewrite decide_True by done. lia.
  - cbn [push_act] in E. destruct (link_slot _ _ _); [|done]. cbn in E. simplify_eq/=.
    eexists. split; [done|]. simpl. destruct (decide _); lia.
  - cbn [push_act] in E. destruct (exchange_head _ _ _) as [f|] eqn:Ex; cbn in E; simplify_eq/=.
    + apply exchange_head_inv in Ex as [<- ->]. eexists. split; [done|]. simpl.
      rewrite decide_True by done. lia.
    + unfold exchange_head in Ex. case_decide; [done|]. eexists. split; [done|]. simpl. lia.
Qed.

(** A thread that runs alone finishes its program. *)
Lemma push_alone n programs st ws t th :
  push_inv n programs st ws -> Z.of_nat (length (concat programs)) < 2 ^ 46 ->
  pushers st !! t = Some th ->
  exists k st' ws', push_run st (replicate k t) = Ret st' /\ push_inv n programs st' ws' /\
    pushers st' = <[t := (Idle, [])]> (pushers st).
Proof.
  intros Hi Hsz. remember (pushes_left (push_list st) th) as m eqn:Em.
  revert st ws th Hi Em. induction m as [m IH] using lt_wf_ind. intros st ws th Hi -> Hth.
  assert (Hdec : th = (Idle, []) \/ th <> (Idle, [])) by (destruct th as [[] []]; (by left) || by right).
  destruct Hdec as [->|Hne].
  - exists 0%nat, st, ws. split; [done|]. split; [done|]. by rewrite list_insert_id.
  - assert (Hp : th.1 = Idle \/ pushes th.1).
    { pose proof (pi_pushes _ _ _ _ Hi) as Hp. rewrite Forall_forall in Hp. apply Hp.
      by eapply list_elem_of_lookup_2. }
    pose proof (push_thread_inv _ _ _ _ t Hi Hsz) as Hs.
    destruct (push_thread st t) as [st1|] eqn:E; [|done]. destruct Hs as [ws1 Hi1].
    destruct (push_thread_left _ _ _ _ Hth Hp Hne E) as (th'&Et&Hless).
    destruct (IH _ Hless st1 ws1 th' Hi1 eq_refl) as (k&st'&ws'&Er&Hi'&Ep).
    { rewrite Et. apply list_lookup_insert_eq. by eapply lookup_lt_Some. }
    exists (S k), st', ws'. simpl. rewrite E. simpl. split; [done|]. split; [done|].
    by rewrite Ep, Et, list_insert_insert_eq.
Qed.

(** So all threads can be joined, from any state. *)
Lemma push_joins n programs st ws k :
  push_inv n programs st ws -> Z.of_nat (length (concat programs)) < 2 ^ 46 ->
  (k <= length (pushers st))%nat ->
  exists schedule st' ws', push_run st schedule = Ret st' /\ push_inv n programs st' ws' /\
    pushers st' = replicate k (Idle, []) ++ drop k (pushers st).
Proof.
  intros Hi Hsz. induction k as [|k IH]; intros Hk; [by exists [], st, ws|].
  destruct IH as (s1&st1&ws1&E1&Hi1&Hp1); [lia|].
  destruct (lookup_lt_is_Some_2 (pushers st) k) as [th Hth]; [lia|].
  rewrite (drop_S _ _ _ Hth) in Hp1.
  assert (Hth1 : pushers st1 !! k = Some th).
  { rewrite Hp1, lookup_app_r by (by rewrite length_replicate).
    by rewrite length_replicate, Nat.sub_diag. }
  destruct (push_alone _ _ _ _ _ _ Hi1 Hsz Hth1) as (j&st'&ws'&E&Hi'&Hp).
  exists (s1 ++ replicate j k), st', ws'. rewrite push_run_app, E1. cbn [mbind rust_bind].
  split; [done|]. split; [done|]. rewrite Hp, Hp1.
  rewrite insert_app_r_alt by (by rewrite length_replicate).
  rewrite length_replicate, Nat.sub_diag, replicate_S_end, <-app_assoc. done.
Qed.

Lemma pop_all_chain n k l fuel (st : GlobalFreeList * list (Slot unit)) :
  holds n k l st -> (length l < fuel)%nat -> pop_all fuel st = Ret l.
Proof.
  revert st fuel. induction l as [|i l IH]; intros st [|fuel] H Hf; simpl in Hf; try lia;
    destruct (pop_holds _ _ _ _ H) as (st'&E&H'); simpl; rewrite E; simpl; [done|].
  rewrite (IH st') by (done || lia). done.
Qed.

Lemma wchain_chain storage (w : Z) ws : wchain storage w ws -> chain head_index storage w (stack_of ws).
Proof.
  revert w. induction ws as [|w' ws IH]; intros w; [done|]. simpl. intros (<-&Hne&s&Hs&Hc).
  split; [done|]. split; [done|]. exists s. split; [done|by apply IH].
Qed.

(** After joining, the main thread pops exactly what was pushed. *)
Lemma joined_results n programs st ws expected :
  push_inv n programs st ws -> joined st ->
  Sorted (≤)%nat expected -> expected ≡ₚ concat programs ->
  check_results st expected = Ret tt.
Proof.
  intros [Hi _ Hs _ Hn] Hj Hsort Hperm.
  assert (Hidle : pending (fst <$> pushers st) = [] /\ concat (snd <$> pushers st) = []).
  { clear -Hj. unfold joined in Hj. induction Hj as [|th ths -> _ [IH1 IH2]]; [done|]. by split. }
  destruct Hidle as [E1 E2]. unfold all_slots, config_of in Hs. simpl in Hs.
  rewrite E1, E2 in Hs. simpl in Hs. rewrite app_nil_r in Hs.
  unfold check_results. pose proof (ti_chain _ _ _ Hi) as Hc. simpl in Hc.
  assert (Hlen : (length (stack_of ws) <= length (push_storage st))%nat).
  { pose proof (ti_slots _ _ _ Hi) as Hnd. pose proof (ti_bounds _ _ _ Hi) as Hb.
    apply NoDup_app in Hnd as [Hnd _]. apply Forall_app in Hb as [Hb _].
    by apply nodup_bounded. }
  erewrite pop_all_chain; [|by split; [apply wchain_chain|..]|lia]. simpl.
  rewrite bool_decide_true; [done|].
  apply (Sorted_unique (≤)%nat); [apply Sorted_merge_sort; intros ??; lia|done|].
  rewrite merge_sort_Permutation, Hs. by symmetry.
Qed.

Lemma push_test_inv n programs :
  NoDup (concat programs) -> Forall (fun i => i < n)%nat (concat programs) -> Z.of_nat n < 2 ^ 18 ->
  exists st, push_test n programs = Ret st /\ push_inv n programs st [] /\
    length (pushers st) = length programs.
Proof.
  intros Hnd Hb Hn. unfold push_test. rewrite test_storage_eq. simpl.
  eexists. split; [done|]. split; [|simpl; by rewrite length_fmap].
  assert (E1 : fst <$> (pair Idle <$> programs) = replicate (length programs) Idle).
  { clear. induction programs as [|p l IH]; [done|]. simpl. by f_equal. }
  assert (E2 : snd <$> (pair Idle <$> programs) = programs).
  { clear. induction programs as [|p l IH]; [done|]. simpl. by f_equal. }
  split; unfold config_of, all_slots; cbn [pushers push_list push_storage];
    rewrite ?E1, ?E2, ?pending_idle; simpl.
  - apply start_inv; [done| |]; by rewrite length_replicate.
  - apply Forall_fmap, Forall_true. intros x. by left.
  - done.
  - lia.
  - apply length_replicate.
Qed.
End push_facts.

Section pop_facts.
Context {bits : ModularBitfield}.
Implicit Types (f : GlobalFreeList) (storage : list (Slot unit)) (i t : nat) (st : PopTest).

(** The main thread pushes while the others wait. *)
Lemma push_idle_inv f storage owned i ts ws :
  treiber_inv (MkConfig f storage (i :: owned)) (Idle :: ts) ws ->
  Forall (fun p => p = Idle \/ p = PopStart) ts -> tag f < 2 ^ 46 ->
  exists f' storage' w, push (f, storage) i = Ret (f', storage') /\ tag f' = tag f + 1 /\
    treiber_inv (MkConfig f' storage' owned) (Idle :: ts) (w :: ws).
Proof.
  intros Hi Hts Ht.
  assert (Hcl : push_clear f ts i).
  { unfold push_clear. apply Is_true_true, orb_true_iff. right. apply forallb_forall.
    intros q Hin%list_elem_of_In. rewrite Forall_forall in Hts. by destruct (Hts q Hin) as [->| ->]. }
  assert (Hlt : (i < length storage)%nat).
  { pose proof (ti_bounds _ _ _ Hi) as Hb. rewrite Forall_forall in Hb. apply Hb. simpl. set_solver. }
  pose proof (ti_size _ _ _ Hi) as Hsz. pose proof (ti_tag _ _ _ Hi) as H0. simpl in Hsz, H0.
  unfold push, global_push. simpl. rewrite take_tag_ok by lia. cbn [mbind rust_bind].
  destruct (lookup_lt_is_Some_2 _ _ Hlt) as [s Hs]. simpl head. rewrite (link_slot_ok _ _ s) by done.
  cbn [mbind rust_bind]. unfold exchange_head. rewrite decide_True by done.
  do 3 eexists. split; [done|]. split; [done|].
  set (w := Entry_into _). set (f1 := MkGlobalFreeList (head f) (tag f + 1)).
  assert (Hi1 : treiber_inv (MkConfig f1 storage owned) (PushTagged i w :: ts) ws).
  { eapply action_push_start; [exact Hi|exact Hcl|done|]. apply take_tag_ok; lia. }
  destruct (action_inv _ _ _ _ _ ts ws (push_load f1 storage owned i w) I Hi1) as (ws2&Hl2&Hi2).
  inversion Hl2; subst ws2.
  destruct (action_inv _ _ _ _ _ ts ws (push_link f1 storage _ owned i w _ (link_slot_ok _ _ s _ Hs)) I Hi2)
    as (ws3&Hl3&Hi3). inversion Hl3; subst ws3.
  eapply action_push_succeed; [exact Hi3|]. apply exchange_own.
Qed.

Lemma push_each_inv f storage l ts ws :
  treiber_inv (MkConfig f storage l) (Idle :: ts) ws ->
  Forall (fun p => p = Idle \/ p = PopStart) ts -> tag f + Z.of_nat (length l) < 2 ^ 46 ->
  exists (r : GlobalFreeList * list (Slot unit)) ws', push_each (f, storage) l = Ret r /\ length ws' = (length ws + length l)%nat /\
    treiber_inv (MkConfig r.1 r.2 []) (Idle :: ts) ws'.
Proof.
  revert f storage ws. induction l as [|i l IH]; intros f storage ws Hi Hts Ht; simpl in *.
  - exists (f, storage), ws. split; [done|]. split; [lia|done].
  - destruct (push_idle_inv _ _ _ _ _ _ Hi Hts ltac:(lia)) as (f'&storage'&w&->&Ht'&Hi'). simpl.
    destruct (IH f' storage' (w :: ws) Hi' Hts ltac:(lia)) as (st'&ws'&->&Hl&Hi2).
    exists st', ws'. split; [done|]. split; [simpl in Hl; lia|done].
Qed.

(** The list has a slot for every thread that still pops. *)
Record pop_inv st (ws : list Z) : Prop := {
  po_list : exists owned, treiber_inv (MkConfig (pop_list st) (pop_storage st) owned)
              (Idle :: (default Idle <$> poppers st)) ws;
  po_pops : Forall (fun o => forall p, o = Some p -> pops p) (poppers st);
  po_enough : (length (omap id (poppers st)) <= length ws)%nat;
}.

Lemma pop_thread_inv st ws t :
  pop_inv st ws ->
  match pop_thread st t with
  | Ret st' => exists ws', pop_inv st' ws'
  | Panic _ => False
  end.
Proof.
  intros Hinv. unfold pop_thread.
  destruct (poppers st !! t) as [[p|]|] eqn:Ht; [|by exists ws..].
  destruct Hinv as [(owned&Hi) Hp Hen]. destruct st as [f storage ths]; simpl in *.
  assert (Hpp : pops p).
  { rewrite Forall_forall in Hp. apply (Hp (Some p)); [|done]. by eapply list_elem_of_lookup_2. }
  pose proof (lookup_lt_Some _ _ _ Ht) as Hlt.
  rewrite <-(take_drop_middle ths t (Some p)) in Hi, Hp, Hen by done.
  set (l1 := take t ths) in *. set (l2 := drop (S t) ths) in *.
  rewrite fmap_app, fmap_cons in Hi. simpl in Hi.
  set (ts := Idle :: (default Idle <$> l1) ++ (default Idle <$> l2)).
  assert (Hperm : forall q, Idle :: (default Idle <$> l1) ++ q :: (default Idle <$> l2) ≡ₚ q :: ts)
    by (intros q; unfold ts; solve_Permutation).
  eapply treiber_inv_perm in Hi; [|apply Hperm].
  apply Forall_app in Hp as [Hp1 [_ Hp2]%Forall_cons]. rewrite omap_app, length_app in Hen.
  change (omap id (Some p :: l2)) with (p :: omap id l2) in Hen. simpl length in Hen.
  pose proof (pop_act_action _ _ _ _ _ _ Hpp Hi) as Ha.
  assert (Hcl : forall q, clear_at f ts p q) by (intros q; by destruct p).
  destruct (pop_act f storage p) as [[f' [p'|o]]|]; [destruct Ha as [Hp' Ha]| |done];
    destruct (action_inv _ _ _ _ _ _ _ Ha (Hcl _) Hi) as (ws'&Hl&Hi'); cbn [mbind rust_bind].
  - inversion Hl; subst ws'. exists ws. rewrite insert_take_drop by done. fold l1 l2.
    split; simpl.
    + exists owned. rewrite fmap_app, fmap_cons. simpl. eapply treiber_inv_perm; [symmetry; apply Hperm|done].
    + apply Forall_app. split; [done|]. apply Forall_cons. split; [by intros ? [= <-]|done].
    + rewrite omap_app, length_app. change (omap id (Some p' :: l2)) with (p' :: omap id l2).
      simpl length. lia.
  - inversion Hl; subst; [|simpl in Hen; lia]. cbn. exists ws'. rewrite insert_take_drop by done. fold l1 l2.
    split; simpl.
    + eexists. rewrite fmap_app, fmap_cons. simpl. eapply treiber_inv_perm; [symmetry; apply Hperm|done].
    + apply Forall_app. split; [done|]. by apply Forall_cons.
    + rewrite omap_app, length_app. change (omap id (None :: l2)) with (omap id l2). simpl in Hen. lia.
Qed.

Lemma pop_run_inv st ws schedule :
  pop_inv st ws -> exists st' ws', pop_run st schedule = Ret st' /\ pop_inv st' ws'.
Proof.
  revert st ws. induction schedule as [|t schedule IH]; intros st ws Hi; [by exists st, ws|].
  simpl. pose proof (pop_thread_inv st ws t Hi) as Hs.
  destruct (pop_thread st t) as [st'|]; [|done]. destruct Hs as [ws' Hi']. simpl. by eapply IH.
Qed.

Lemma pop_test_inv n threads :
  (threads <= n)%nat -> Z.of_nat n < 2 ^ 18 ->
  exists st ws, pop_test n threads = Ret st /\ pop_inv st ws.
Proof.
  intros Hn Hsz. unfold pop_test. rewrite test_storage_eq. cbn [mbind rust_bind].
  assert (Hi : treiber_inv (MkConfig global_new_empty (replicate n unused_slot) (seq 0 n))
                 (Idle :: replicate threads PopStart) []).
  { destruct (start_inv (replicate n unused_slot) (seq 0 n) (S threads)) as [? Hs Hb Hw Htg ? ? ?].
    - apply NoDup_seq.
    - apply Forall_forall. intros i Hi%elem_of_seq. rewrite length_replicate. lia.
    - by rewrite length_replicate.
    - assert (E : pending (Idle :: replicate threads PopStart) = pending (replicate (S threads) Idle)).
      { rewrite pending_idle. unfold pending. simpl. clear. by induction threads. }
      split; rewrite ?E; try done. constructor; [done|]. by apply Forall_replicate. }
  destruct (push_each_inv _ _ _ _ _ Hi) as (st&ws&->&Hl&Hi');
    [apply Forall_replicate; by right|simpl; rewrite length_seq; lia|].
  cbn [mbind rust_bind]. eexists _, ws. split; [done|]. split; simpl.
  - exists []. assert (E : default Idle <$> replicate threads (Some PopStart) = replicate threads PopStart).
    { clear. induction threads as [|k IH]; [done|]. simpl. by f_equal. }
    by rewrite E.
  - by apply Forall_replicate; intros p [= <-].
  - rewrite Hl, length_seq. simpl. etransitivity; [|exact Hn]. clear.
    induction threads as [|k IH]; [done|].
    change (omap id (replicate (S k) (Some PopStart))) with (PopStart :: omap id (replicate k (Some PopStart))).
    simpl. lia.
Qed.
End pop_facts.

(** * The tests pass *)

Section properties.
Context {bits : ModularBitfield}.

(** [test_concurrent_push], for any threads that push different slots:
    under every schedule no thread panics, the threads can be joined from
    wherever they are, and the main thread then pops exactly what they
    pushed. *)
Theorem concurrent_push_passes n programs expected schedule :
  NoDup (concat programs) -> Forall (fun i => i < n)%nat (concat programs) -> Z.of_nat n < 2 ^ 18 ->
  Sorted (≤)%nat expected -> expected ≡ₚ concat programs ->
  exists st0 st, push_test n programs = Ret st0 /\ push_run st0 schedule = Ret st /\
    (joined st -> check_results st expected = Ret tt) /\
    exists rest st', push_run st rest = Ret st' /\ joined st' /\ check_results st' expected = Ret tt.
Proof.
  intros Hnd Hb Hn Hs Hp. destruct (push_test_inv n programs Hnd Hb Hn) as (st0&E0&Hi0&Hl0).
  assert (Hsz : Z.of_nat (length (concat programs)) < 2 ^ 46).
  { pose proof (nodup_bounded _ _ Hnd Hb). lia. }
  destruct (push_run_inv _ _ schedule _ _ Hi0 Hsz) as (st&ws&E&Hi).
  exists st0, st. split; [done|]. split; [done|].
  split; [intros Hj; by eapply joined_results|].
  destruct (push_joins _ _ _ _ (length (pushers st)) Hi Hsz) as (rest&st'&ws'&E'&Hi'&Hp'); [lia|].
  exists rest, st'. split; [done|]. assert (Hj : joined st').
  { unfold joined. rewrite Hp', drop_all, app_nil_r. by apply Forall_replicate. }
  split; [done|]. by eapply joined_results.
Qed.

(** [test_concurrent_pop], for any list and at most as many threads as
    it has slots: under every schedule every thread's pop finds a slot. *)
Theorem concurrent_pop_passes n threads schedule :
  (threads <= n)%nat -> Z.of_nat n < 2 ^ 18 ->
  exists st0 st, pop_test n threads = Ret st0 /\ pop_run st0 schedule = Ret st.
Proof.
  intros Hn Hsz. destruct (pop_test_inv n threads Hn Hsz) as (st0&ws&E&Hi).
  destruct (pop_run_inv _ _ schedule Hi) as (st&_&?&_). by exists st0, st.
Qed.
End properties.

Section witnesses.
#[local] Existing Instance lsb_first.

Lemma concurrent_push_passes_witness :
  exists st0 st, test_concurrent_push = Ret st0 /\ push_run st0 [0; 1; 0; 1; 1; 0; 1]%nat = Ret st /\
    exists rest st', push_run st rest = Ret st' /\ check_results st' [0; 1; 2; 3]%nat = Ret tt.
Proof.
  destruct (concurrent_push_passes 4 [[0; 2]; [1; 3]]%nat [0; 1; 2; 3]%nat [0; 1; 0; 1; 1; 0; 1]%nat)
    as (st0&st&E0&E&_&rest&st'&Er&_&Ec).
  - by apply (bool_decide_unpack _).
  - by apply (bool_decide_unpack _).
  - done.
  - repeat constructor; lia.
  - simpl. solve_Permutation.
  - exists st0, st. split; [exact E0|]. split; [exact E|]. by exists rest, st'.
Defined.

Lemma concurrent_pop_passes_witness :
  exists st0 st, test_concurrent_pop = Ret st0 /\ pop_run st0 [0; 1; 1; 0; 0; 1; 1; 1; 0]%nat = Ret st.
Proof. by apply (concurrent_pop_passes 2 2); [lia|]. Defined.
End witnesses.
