(* ===== verification/SlabTests.v ===== *)
(** The concurrency tests of the slab ([slab/src/lib.rs], module [test]).
    Threads run on the processors that Loom's topology gives them. *)
From S2P Require Import Prelude Bitfields Topology Slot FreeLists Slab SlabSpec SlabSteps.
From S2P Require Import LoomTopology.

(** * Threads one after the other *)

Section sequential.
Context {prof : Profile} {bits : ModularBitfield} {loom : Loom}.

(** A spawned thread (1) inserts and is joined; the main thread (0)
    removes. *)
Definition test_migrate_entries : rust unit :=
  slab ← slab_new 16;
  let '(ids, cpu) := current_processor (no_ids 2) 1 in
  '(slab, r) ← insert slab 42 cpu;
  x ← unwrap r;
  let '(_, cpu) := current_processor ids 0 in
  '(_, removed) ← remove slab x cpu;
  rassert removed.

Definition test_remove_with_references : rust unit :=
  slab ← slab_new 4;
  let '(_, cpu) := current_processor (no_ids 1) 0 in
  '(slab, r) ← insert slab 42 cpu;
  idx ← unwrap r;
  '(slab, o) ← get slab idx;
  reference ← expect o;
  value ← ref_deref slab reference;
  _ ← rassert (bool_decide (value = 42));
  '(slab, removed) ← remove slab idx cpu;
  _ ← rassert removed;
  value ← ref_deref slab reference;
  _ ← rassert (bool_decide (value = 42));
  slab ← drop_reference slab reference cpu;
  '(_, o) ← get slab idx;
  rassert (bool_decide (o = None)).
End sequential.

(** ** The push counter *)

Section tags.
Context {prof : Profile} {bits : ModularBitfield} {topology : Topology} {T : Type}.
Implicit Types (sl : Slab T).

Definition tag_in sl : Z := tag (global_free_list sl).

Lemma insert_tag sl v cpu sl' r : insert sl v cpu = Ret (sl', r) -> tag_in sl' = tag_in sl.
Proof.
  unfold insert, pop_slot, tag_in. intros E. rust_inv E. destruct x as [sl1 o]. rust_inv Hx.
  destruct x as [lf o1]. assert (Ht : tag (global_free_list sl1) = tag (global_free_list sl)).
  { destruct o1 as [i|]; [by simplify_eq|]. rust_inv Hx. destruct x as [gf o2]. simplify_eq/=.
    unfold global_pop in Hx1. case_decide; [by simplify_eq|]. rust_inv Hx1.
    destruct (exchange_head _ _ _) eqn:Ex; [|done]. unfold exchange_head in Ex.
    case_decide; [|done]. by simplify_eq. }
  destruct o as [i|]; [|by simplify_eq]. rust_inv E. destruct x0 as [s g]. rust_inv E. by simplify_eq.
Qed.

Lemma get_tag sl x sl' o : get sl x = Ret (sl', o) -> tag_in sl' = tag_in sl.
Proof.
  unfold get, tag_in. intros E. destruct (slots sl !! _); [|by simplify_eq]. rust_inv E.
  destruct x0 as [s1 []]; by simplify_eq.
Qed.

(** A push takes one tag. *)
Lemma return_slot_tag sl i cpu sl' :
  return_slot sl i cpu = Ret sl' -> 0 <= tag_in sl -> tag_in sl' <= tag_in sl + 1.
Proof.
  unfold return_slot, tag_in. intros E H0. rust_inv E. destruct x0 as [s1 on]. case_decide.
  - rust_inv E. destruct x0 as [lf st]. simplify_eq/=. lia.
  - rust_inv E. destruct x0 as [gf st]. simplify_eq/=. unfold global_push in Hx1. rust_inv Hx1.
    destruct x0 as [f w]. rust_inv Hx1. destruct (exchange_head _ _ _) eqn:Ex; [|done]. simplify_eq.
    unfold exchange_head in Ex. case_decide; [|done]. simplify_eq/=. unfold take_tag in Hx2.
    rust_inv Hx2. simplify_eq/=. apply Z.mod_le; lia.
Qed.

Lemma remove_tag sl x cpu sl' b :
  remove sl x cpu = Ret (sl', b) -> 0 <= tag_in sl -> tag_in sl' <= tag_in sl + 1.
Proof.
  unfold remove. intros E H0. destruct (slots sl !! _) as [s|]; [|simplify_eq; lia]. rust_inv E.
  destruct x0 as [s1 [[]|]]; [|simplify_eq; unfold tag_in in *; simpl; lia..]. rust_inv E. simplify_eq.
  by apply return_slot_tag in Hx0.
Qed.
End tags.

Section sequential_facts.
Context {prof : Profile} {bits : ModularBitfield} {loom : Loom}.
Implicit Types (sl : Slab Z).

(** The first insertion. *)
Lemma first_insert SIZE (v cpu : Z) :
  (0 < SIZE)%nat -> Z.of_nat SIZE < 2 ^ 18 -> 0 <= cpu < MAX_PROCESSORS ->
  exists sl x, insert (new_slab SIZE) v cpu = Ret (sl, Ok x) /\ idx_valid x /\
    slab_inv sl (spec_insert (MkSpec ∅ ∅ []) x v) /\ tag_in sl = 0.
Proof.
  intros Hpos Hsz Hcpu. destruct (new_slab_insert SIZE v cpu Hpos Hsz Hcpu) as (sl&x&E).
  exists sl, x. split; [done|].
  pose proof (insert_ok _ _ v cpu (new_slab_inv SIZE Hpos Hsz) Hcpu) as H. rewrite E in H.
  destruct H as (Hx&_&_&Hi). split; [done|]. split; [done|]. by apply insert_tag in E.
Qed.

Lemma test_migrate_entries_passes : 2 <= MAX_THREADS -> test_migrate_entries = Ret tt.
Proof.
  intros Hmax. unfold test_migrate_entries. rewrite slab_new_eq, decide_True by done.
  cbn [mbind rust_bind]. cbv [current_processor no_ids CURRENT_ID NEXT_ID]. simpl.
  destruct (first_insert 16 42 0) as (sl&x&->&Hx&Hi&Ht); [lia|done|simpl; lia|].
  cbn [mbind rust_bind unwrap]. change ((0 + 1) mod 2 ^ 16) with 1.
  pose proof (remove_ok sl _ x 1 Hi Hx ltac:(simpl; lia)) as Hr.
  destruct (remove sl x 1) as [[sl' b]|]; [|unfold tag_in in Ht; lia]. destruct Hr as [-> _].
  cbn [mbind rust_bind]. rewrite bool_decide_true by (simpl; set_solver). done.
Qed.

Lemma test_remove_with_references_passes : 1 <= MAX_THREADS -> test_remove_with_references = Ret tt.
Proof.
  intros Hmax. assert (Hcpu : 0 <= 0 < MAX_PROCESSORS) by (simpl; lia).
  unfold test_remove_with_references. rewrite slab_new_eq, decide_True by done.
  cbn [mbind rust_bind]. cbv [current_processor no_ids CURRENT_ID NEXT_ID]. simpl.
  destruct (first_insert 4 42 0) as (sl&x&->&Hx&Hi&Ht); [lia|done|done|].
  cbn [mbind rust_bind unwrap]. set (a := spec_insert (MkSpec ∅ ∅ []) x 42) in *.
  assert (Hlive : x ∈ live a) by (unfold a; simpl; set_solver).
  pose proof (get_ok sl a x Hi Hx) as Hg. destruct (get sl x) as [[sl1 o]|] eqn:Eg; cycle 1.
  { destruct Hg as (_&_&Hb). simpl in Hb. lia. }
  apply get_tag in Eg. rewrite !decide_True in Hg by done. destruct Hg as [-> Hi1].
  cbn [mbind rust_bind expect]. set (a1 := spec_refs a (x :: refs a)) in *.
  assert (Hr1 : x ∈ refs a1) by (by left).
  destruct (ref_deref_ok sl1 a1 x Hi1 Hr1 Hx) as (v&->&Hv).
  assert (v = 42) as -> by (simpl in Hv; rewrite lookup_insert_eq in Hv; congruence).
  cbn [mbind rust_bind]. rewrite bool_decide_true by done. cbn [mbind rust_bind rassert].
  pose proof (remove_ok sl1 a1 x 0 Hi1 Hx Hcpu) as Hr.
  destruct (remove sl1 x 0) as [[sl2 b]|] eqn:Er; [|unfold tag_in in *; lia].
  apply remove_tag in Er; [|lia]. destruct Hr as [-> Hi2].
  cbn [mbind rust_bind]. rewrite bool_decide_true by done. cbn [mbind rust_bind rassert].
  set (a2 := spec_remove a1 x) in *.
  destruct (ref_deref_ok sl2 a2 x Hi2 Hr1 Hx) as (v&->&Hv2).
  assert (v = 42) as -> by (simpl in Hv2; rewrite lookup_insert_eq in Hv2; congruence).
  cbn [mbind rust_bind]. rewrite bool_decide_true by done. cbn [mbind rust_bind rassert].
  pose proof (drop_reference_ok sl2 a2 x [] 0 Hi2 ltac:(done) Hx Hcpu) as Hd.
  destruct (drop_reference sl2 x 0) as [sl3|]; [|unfold tag_in in *; lia].
  cbn [mbind rust_bind].
  pose proof (get_ok sl3 _ x Hd Hx) as Hg3.
  assert (Hdead : x ∉ live (spec_refs a2 [])) by (unfold a2; simpl; set_solver).
  destruct (get sl3 x) as [[sl4 o]|]; [|by destruct Hg3 as (_&?&_)].
  rewrite decide_False in Hg3 by done. destruct Hg3 as [-> _]. done.
Qed.
End sequential_facts.
