(* ===== verification/Insertions.v ===== *)
(** Insertions into a new slab from several threads
    ([slab/src/lib.rs], [test_concurrent_insertions]), action by action. A
    new slab lacks the protection that the tag of the global list is for
    (see [SlabHistories]), but as long as nothing is removed nothing is
    pushed either: the list only ever loses its head, and every insertion
    that should succeed does. *)
From S2P Require Import Prelude Bitfields Topology Slot FreeLists Slab SlabSpec Treiber SlabSteps.
From S2P Require Import SlabConcurrent SlabHistories LoomTopology.

(** * The test *)

(** The ids, the slab with a position for each processor, what each thread
    has left to insert, and the indices it has collected. *)
Record InsertTest := MkInsertTest {
  it_ids : LoomIds;
  it_world : world Z;
  it_todo : list (list Z);
  it_got : list (list Idx);
}.

Section test.
Context {prof : Profile} {bits : ModularBitfield} {loom : Loom}.
Implicit Types (st : InsertTest) (t : nat).

(** [slab.insert(idx).unwrap()] has returned, or not yet. *)
Definition collect (got : list (list Idx)) t (es : list (call Z * outcome Z)) : rust (list (list Idx)) :=
  match es with
  | (_, Inserted x) :: _ => Ret (<[t := default [] (got !! t) ++ [x]]> got)
  | (_, Full _) :: _ => Panic ExpectFailed
  | _ => Ret got
  end.

(** The next thing thread [t] does: it begins its next insertion or acts in
    the current one. *)
Definition insert_thread st t : rust InsertTest :=
  match it_todo st !! t with
  | None => Ret st
  | Some todo =>
      let '(ids, cpu) := current_processor (it_ids st) t in
      match threads_of (it_world st) !! Z.to_nat cpu, todo with
      | Some Ready, [] => Ret st
      | Some Ready, v :: todo =>
          '(w, _) ← do_move (it_world st) (Begin (Z.to_nat cpu) (Insert v));
          Ret (MkInsertTest ids w (<[t := todo]> (it_todo st)) (it_got st))
      | _, _ =>
          '(w, es) ← do_move (it_world st) (Act (Z.to_nat cpu) false);
          got ← collect (it_got st) t es;
          Ret (MkInsertTest ids w (it_todo st) got)
      end
  end.

Fixpoint insert_run st (schedule : list nat) : rust InsertTest :=
  match schedule with
  | [] => Ret st
  | t :: schedule => st ← insert_thread st t; insert_run st schedule
  end.

Definition insert_test (SIZE : nat) (programs : list (list Z)) : rust InsertTest :=
  slab ← slab_new SIZE;
  Ret (MkInsertTest (no_ids (length programs)) (at_rest slab [] []) programs
         (replicate (length programs) [])).

Definition test_concurrent_insertions : rust InsertTest := insert_test 16 [[0; 1; 2; 3]; [5; 6; 7]].
End test.

(** * The slab while there are only insertions *)

Section insertions.
Context {prof : Profile} {bits : ModularBitfield} {topology : Topology}.
Context (SIZE : nat) (Hsize : Z.of_nat SIZE < 2 ^ 18).
Implicit Types (sl : Slab Z) (s : Slot Z) (th : thread Z) (w : world Z) (v : Z) (i k : nat)
  (storage : list (Slot Z)) (got : list Idx).

(** The head of a list that has lost its first [k] slots. *)
Definition head_at k : Z := if decide (k = SIZE) then EMPTY else Z.of_nat k.

Definition allocated_word : Z := Lifecycle_into (lifecycle Allocated 1 0).

(** Slot [i] holds a value of generation 1. *)
Definition stored storage (x : Idx) v : Prop :=
  exists s, storage !! slot_of x = Some s /\ lifecycle_word s = allocated_word /\ contents s = Some v.

(** The value that is being inserted. *)
Definition value_of th : option Z :=
  match th with
  | PopLocal v | PopGlobal v _ | AllocLoad v _ | AllocStore v _ _ _ | AllocWrite v _ _
  | AllocSign v _ _ => Some v
  | _ => None
  end.

(** It has no slot yet. *)
Definition popping th : option Z :=
  match th with PopLocal v | PopGlobal v _ => Some v | _ => None end.

Definition inserting storage th : Prop :=
  match th with
  | Ready | PopLocal _ | PopGlobal _ PopStart => True
  | PopGlobal _ (PopLoaded old) => exists j, (j < SIZE)%nat /\ old = Z.of_nat j
  | PopGlobal _ (PopRead old new) =>
      exists j, (j < SIZE)%nat /\ old = Z.of_nat j /\ new = head_at (S j)
  | AllocLoad _ i => storage !! i = Some (fresh_slot (fresh_next SIZE i))
  | AllocStore _ i w g => w = allocated_word /\ g = 1
  | AllocWrite _ i g => g = 1 /\ exists s, storage !! i = Some s /\ lifecycle_word s = allocated_word
  | AllocSign v i g => g = 1 /\ exists s, storage !! i = Some s /\
      lifecycle_word s = allocated_word /\ contents s = Some v
  | _ => False
  end.

(** The first [k] slots have been popped; they are in use ([got]) or being
    allocated, and the others are as they were. *)
Record insertions w k got : Prop := {
  in_local : local_free_list (slab_of w) = per_processor_new;
  in_global : global_free_list (slab_of w) = MkGlobalFreeList (head_at k) 0;
  in_length : length (slots (slab_of w)) = SIZE;
  in_next i s : slots (slab_of w) !! i = Some s -> next s = fresh_next SIZE i;
  in_fresh i s : slots (slab_of w) !! i = Some s -> (k <= i)%nat -> s = fresh_slot (fresh_next SIZE i);
  in_cells : length (threads_of w) = Z.to_nat MAX_PROCESSORS;
  in_threads : Forall (inserting (slots (slab_of w))) (threads_of w);
  in_slots : omap holding (threads_of w) ++ (slot_of <$> got) ≡ₚ seq 0 k;
  in_bound : (k <= SIZE)%nat;
}.

Lemma fresh_next_head i : (i < SIZE)%nat -> fresh_next SIZE i = head_at (S i).
Proof. intros Hi. unfold fresh_next, head_at. repeat case_decide; try lia. Qed.

Lemma head_at_index j : (j < SIZE)%nat -> head_index (Z.of_nat j) = j.
Proof. intros Hj. unfold head_index. rewrite Entry_from_small by lia. simpl. lia. Qed.

Lemma head_at_inj k j : (k <= SIZE)%nat -> (j < SIZE)%nat -> head_at k = Z.of_nat j -> k = j.
Proof. intros Hk Hj. unfold head_at. case_decide; unfold EMPTY; lia. Qed.

(** Writing a slot that is being allocated disturbs nobody. *)
Lemma inserting_frame storage th i s' :
  holding th <> Some i -> inserting storage th -> inserting (<[i := s']> storage) th.
Proof.
  intros Hne Hin. destruct th as [|v|v p|v j|v j w g|v j g|v j g| | | | | | | | | | | | ]; simpl in *; try done.
  - by rewrite list_lookup_insert_ne by congruence.
  - destruct Hin as (?&s&Hs&?). split; [done|]. exists s. by rewrite list_lookup_insert_ne by congruence.
  - destruct Hin as (?&s&Hs&?&?). split; [done|]. exists s. by rewrite list_lookup_insert_ne by congruence.
Qed.

Lemma stored_frame storage x v i s' :
  slot_of x <> i -> stored storage x v -> stored (<[i := s']> storage) x v.
Proof.
  intros Hne (s&Hs&?). exists s. by rewrite list_lookup_insert_ne.
Qed.

(** Replacing the acting thread and the slot it is allocating. *)
Lemma insertions_update w k got cpu th th' i s s' :
  insertions w k got -> threads_of w !! cpu = Some th -> holding th = Some i ->
  slots (slab_of w) !! i = Some s -> next s' = next s -> (i < k)%nat ->
  inserting (<[i := s']> (slots (slab_of w))) th' ->
  forall held known got', (option_list (holding th') ++ (slot_of <$> got') ≡ₚ i :: (slot_of <$> got)) ->
  insertions (MkWorld (with_slot (slab_of w) i s') (<[cpu := th']> (threads_of w)) held known) k got'.
Proof.
  intros [Hloc Hglo Hlen Hnext Hfresh Hcells Hth Hslots Hk] Hcpu Hh Hs Hn Hik Hth' held known got' Hp.
  destruct (insert_first _ _ _ th' Hcpu) as (rest&Hp1&Hp2).
  assert (Hnd : NoDup (omap holding (threads_of w) ++ (slot_of <$> got)))
    by (rewrite Hslots; apply NoDup_seq).
  split; simpl; try done.
  - by rewrite length_insert.
  - intros j s0 Hj. destruct (decide (j = i)) as [->|].
    + rewrite list_lookup_insert_eq in Hj by (by eapply lookup_lt_Some). simplify_eq. rewrite Hn. eauto.
    + rewrite list_lookup_insert_ne in Hj by done. eauto.
  - intros j s0 Hj Hkj. rewrite list_lookup_insert_ne in Hj by lia. eauto.
  - by rewrite length_insert.
  - rewrite Hp2. constructor; [done|]. rewrite Hp1 in Hth, Hnd. apply Forall_cons in Hth as [_ Hth].
    simpl in Hnd. rewrite Hh in Hnd. apply NoDup_cons in Hnd as [Hnd _].
    rewrite Forall_forall in Hth |- *. intros th0 Hin. apply inserting_frame; [|by apply Hth].
    intros Hh0. apply Hnd, elem_of_app. left. apply list_elem_of_omap. eauto.
  - rewrite Hp2. rewrite Hp1 in Hslots. simpl in Hslots |- *. rewrite Hh in Hslots.
    rewrite <-Hslots. destruct (holding th') as [j|]; simpl in Hp |- *.
    + transitivity (omap holding rest ++ j :: (slot_of <$> got')); [solve_Permutation|].
      rewrite Hp. solve_Permutation.
    + rewrite Hp. solve_Permutation.
Qed.

(** Moving on without touching a slot; a pop takes slot [k]. *)
Lemma insertions_move w k k' got cpu th th' sl' held known :
  insertions w k got -> threads_of w !! cpu = Some th ->
  local_free_list sl' = per_processor_new -> slots sl' = slots (slab_of w) ->
  global_free_list sl' = MkGlobalFreeList (head_at k') 0 ->
  (k' = k /\ holding th' = holding th \/
   k' = S k /\ (k < SIZE)%nat /\ holding th = None /\ holding th' = Some k) ->
  inserting (slots (slab_of w)) th' ->
  insertions (MkWorld sl' (<[cpu := th']> (threads_of w)) held known) k' got.
Proof.
  intros [Hloc Hglo Hlen Hnext Hfresh Hcells Hth Hslots Hk] Hcpu El Es Eg Hcase Hth'.
  destruct (insert_first _ _ _ th' Hcpu) as (rest&Hp1&Hp2).
  split; simpl; rewrite ?Es; try done.
  - intros i s Hi Hki. apply (Hfresh i); [done|]. destruct Hcase as [[-> _]|(->&_)]; lia.
  - by rewrite length_insert.
  - rewrite Hp2. rewrite Hp1 in Hth. apply Forall_cons in Hth as [_ Hth]. by constructor.
  - rewrite Hp2. rewrite Hp1 in Hslots. simpl in Hslots |- *.
    destruct Hcase as [[-> ->]|(->&_&E1&->)]; [done|]. rewrite E1 in Hslots.
    rewrite seq_S, <-Hslots. simpl. solve_Permutation.
  - destruct Hcase as [[-> _]|(->&?&_)]; lia.
Qed.

(** What one action of an insertion comes to. *)
Definition insert_result w k got cpu th
    (r : rust (Slab Z * thread Z * option (call Z * outcome Z))) : Prop :=
  exists sl' th' e, r = Ret (sl', th', e) /\
    (forall x v, x ∈ got -> stored (slots (slab_of w)) x v -> stored (slots sl') x v) /\
    match e with
    | None => value_of th' = value_of th /\ th' <> Ready /\
        exists k', (k' + length (option_list (popping th')) = k + length (option_list (popping th)))%nat /\
          forall held known, insertions (MkWorld sl' (<[cpu := th']> (threads_of w)) held known) k' got
    | Some (c, Inserted x) => exists v, c = Insert v /\ th' = Ready /\ value_of th = Some v /\
        popping th = None /\ stored (slots sl') x v /\
        forall held known got', got' ≡ₚ x :: got ->
          insertions (MkWorld sl' (<[cpu := th']> (threads_of w)) held known) k got'
    | _ => False
    end.

Lemma fresh_slot_is n : slot_is (fresh_slot n : Slot Z) Unallocated 0 0.
Proof. done. Qed.

(** An action that leaves the slots alone. *)
Lemma result_moved w k k' got cpu th th' sl' :
  insertions w k got -> threads_of w !! cpu = Some th ->
  local_free_list sl' = per_processor_new -> slots sl' = slots (slab_of w) ->
  global_free_list sl' = MkGlobalFreeList (head_at k') 0 ->
  (k' = k /\ holding th' = holding th \/
   k' = S k /\ (k < SIZE)%nat /\ holding th = None /\ holding th' = Some k) ->
  inserting (slots (slab_of w)) th' -> value_of th' = value_of th -> th' <> Ready ->
  (k' + length (option_list (popping th')) = k + length (option_list (popping th)))%nat ->
  insert_result w k got cpu th (Ret (sl', th', None)).
Proof.
  intros Hi Hcpu Hl Hs Hg Hcase Hth' Hv Hne Hk. exists sl', th', None. split; [done|].
  split; [by rewrite Hs|]. split; [done|]. split; [done|]. exists k'. split; [done|].
  intros held known. by eapply insertions_move.
Qed.

(** The slot that a thread is allocating is one of the first [k], and leads
    nowhere yet. *)
Lemma held_slot_new w k got cpu th i :
  insertions w k got -> threads_of w !! cpu = Some th -> holding th = Some i ->
  (i < k)%nat /\ (i < SIZE)%nat /\
  forall s' x v, x ∈ got -> stored (slots (slab_of w)) x v -> stored (slots (with_slot (slab_of w) i s')) x v.
Proof.
  intros Hi Hcpu Hh. pose proof (in_slots _ _ _ Hi) as Hslots. pose proof (in_bound _ _ _ Hi).
  assert (Hi' : i ∈ omap holding (threads_of w)).
  { apply list_elem_of_omap. exists th. split; [by eapply list_elem_of_lookup_2|done]. }
  assert (Hik : i ∈ seq 0 k) by (rewrite <-Hslots; set_solver). apply elem_of_seq in Hik.
  split; [lia|]. split; [lia|]. intros s' x v Hx. apply stored_frame. intros <-.
  pose proof (NoDup_seq 0 k) as Hnd. rewrite <-Hslots in Hnd. apply NoDup_app in Hnd as (_&Hnd&_).
  apply (Hnd _ Hi'). by apply list_elem_of_fmap_2.
Qed.

(** An action that writes the slot that is being allocated. *)
Lemma result_updated w k got cpu th th' i s s' :
  insertions w k got -> threads_of w !! cpu = Some th -> holding th = Some i -> holding th' = Some i ->
  slots (slab_of w) !! i = Some s -> next s' = next s ->
  inserting (<[i := s']> (slots (slab_of w))) th' ->
  value_of th' = value_of th -> th' <> Ready -> popping th = None -> popping th' = None ->
  insert_result w k got cpu th (Ret (with_slot (slab_of w) i s', th', None)).
Proof.
  intros Hi Hcpu Hh Hh' Hs Hn Hth' Hv Hne Hp Hp'.
  destruct (held_slot_new _ _ _ _ _ _ Hi Hcpu Hh) as (Hik&_&Hframe).
  do 3 eexists. split; [done|]. split; [apply Hframe|]. split; [done|]. split; [done|].
  exists k. split; [by rewrite Hp, Hp'|]. intros held known.
  eapply insertions_update; [exact Hi|exact Hcpu|exact Hh|exact Hs|done|done|done|]. by rewrite Hh'.
Qed.

(** The pop from the global list, when slots are left. *)
Lemma insert_act_global w k got cpu v p :
  insertions w k got -> threads_of w !! cpu = Some (PopGlobal v p) -> (k < SIZE)%nat ->
  insert_result w k got cpu (PopGlobal v p) (act (Z.of_nat cpu) false (slab_of w) (PopGlobal v p)).
Proof.
  intros Hi Hcpu Hpop. pose proof Hi as [Hloc Hglo Hlen Hnext Hfresh Hcells Hth Hslots Hk].
  rewrite Forall_forall in Hth. pose proof (Hth _ (list_elem_of_lookup_2 _ _ _ Hcpu)) as Hin.
  destruct p as [| | | | |old|old new]; try done; cbn [act pop_act].
  - rewrite Hglo. cbn [head]. assert (E : head_at k = Z.of_nat k) by (unfold head_at; case_decide; lia).
    rewrite decide_False by (rewrite E; unfold EMPTY; lia). cbn [mbind rust_bind].
    eapply result_moved; [exact Hi|exact Hcpu|..]; try done; [by left|]. rewrite E. by exists k.
  - destruct Hin as (j&Hj&->). rewrite head_at_index by done.
    destruct (lookup_lt_is_Some_2 (slots (slab_of w)) j) as [s Hs]; [lia|].
    unfold slot_next, index. rewrite Hs. cbn [mbind rust_bind].
    eapply result_moved; [exact Hi|exact Hcpu|..]; try done; [by left|].
    exists j. split; [done|]. split; [done|]. by rewrite (Hnext _ _ Hs), fresh_next_head.
  - destruct Hin as (j&Hj&->&->). unfold exchange_head. rewrite Hglo. cbn [head tag].
    case_decide as He; cbn [mbind rust_bind].
    + apply head_at_inj in He as <-; [|lia|done]. rewrite head_at_index by done.
      eapply (result_moved _ _ (S k)); [exact Hi|exact Hcpu|..]; try done; [by right| |simpl; lia].
      destruct (lookup_lt_is_Some_2 (slots (slab_of w)) k) as [s Hs]; [lia|].
      simpl. rewrite Hs. by rewrite (Hfresh _ _ Hs).
    + eapply result_moved; [exact Hi|exact Hcpu|..]; try done. by left.
Qed.

Lemma insert_act w k got cpu th :
  insertions w k got -> threads_of w !! cpu = Some th -> th <> Ready ->
  (forall v, popping th = Some v -> (k < SIZE)%nat) ->
  insert_result w k got cpu th (act (Z.of_nat cpu) false (slab_of w) th).
Proof.
  intros Hi Hcpu Hne Hpop. pose proof Hi as [Hloc Hglo Hlen Hnext Hfresh Hcells Hth Hslots Hk].
  rewrite Forall_forall in Hth. pose proof (Hth th (list_elem_of_lookup_2 _ _ _ Hcpu)) as Hin.
  pose proof (lookup_lt_Some _ _ _ Hcpu) as Hlt.
  pose proof (fun i => held_slot_new _ _ _ _ _ i Hi Hcpu) as Hheld.
  destruct th as [|v|v p|v i|v i w' g|v i g|v i g| | | | | | | | | | | | ]; try done;
    [|by apply insert_act_global; [..|by eapply Hpop]|..]; cbn [act].
  - unfold local_pop. rewrite Hloc, (with_mut_ok _ _ _ None None None); [|unfold per_processor_new..|done].
    2: { apply lookup_replicate_2. lia. }
    cbn [mbind rust_bind]. eapply result_moved; [exact Hi|exact Hcpu|..]; try done; [|by left].
    apply list_insert_id, lookup_replicate_2. lia.
  - simpl in Hin. unfold index. rewrite Hin. cbn [mbind rust_bind].
    rewrite (slot_is_load _ _ _ _ (fresh_slot_is _)). unfold checked_add. rewrite decide_True by done.
    cbn [expect mbind rust_bind]. unfold set_generation. rewrite set_field_ok by done.
    cbn [mbind rust_bind]. rewrite bool_decide_true by done. rewrite debug_assert_true.
    cbn [mbind rust_bind]. eapply result_moved; [exact Hi|exact Hcpu|..]; try done. by left.
  - destruct Hin as [-> ->], (Hheld i eq_refl) as (Hik&His&_).
    destruct (lookup_lt_is_Some_2 (slots (slab_of w)) i) as [s Hs]; [lia|].
    unfold index. rewrite Hs. cbn [mbind rust_bind].
    eapply (result_updated _ _ _ _ _ _ i s); try done.
    split; [done|]. exists (with_word s allocated_word). split; [|done]. apply list_lookup_insert_eq. lia.
  - destruct Hin as (->&s&Hs&Hw), (Hheld i eq_refl) as (Hik&His&_).
    unfold index. rewrite Hs. cbn [mbind rust_bind].
    eapply (result_updated _ _ _ _ _ _ i s); try done.
    split; [done|]. eexists. split; [apply list_lookup_insert_eq; lia|done].
  - destruct Hin as (->&s&Hs&Hw&Hc), (Hheld i eq_refl) as (Hik&His&Hframe).
    unfold index. rewrite Hs. cbn [mbind rust_bind]. rewrite make_idx_ok by lia. cbn [mbind rust_bind].
    assert (Ex : slot_of (MkIdx 1 (Z.of_nat i)) = i) by apply Nat2Z.id.
    do 3 eexists. split; [done|]. split; [apply Hframe|]. exists v.
    split; [done|]. split; [done|]. split; [done|]. split; [done|]. split.
    + eexists. rewrite Ex. split; [apply list_lookup_insert_eq; lia|done].
    + intros held known got' Hp.
      eapply insertions_update; [exact Hi|exact Hcpu|done|exact Hs|done|done|done|].
      simpl. by rewrite Hp, fmap_cons, Ex.
Qed.
End insertions.

(** * The test passes *)

Section test_facts.
Context {prof : Profile} {bits : ModularBitfield} {loom : Loom}.
Context (SIZE : nat) (Hsize : Z.of_nat SIZE < 2 ^ 18) (programs : list (list Z)).
Implicit Types (st : InsertTest) (t k : nat) (ids : LoomIds) (ths : list (thread Z)).

(** The value that thread [t] is inserting. *)
Definition current ids ths t : list Z :=
  match CURRENT_ID ids !! t with
  | Some (Some c) => match ths !! Z.to_nat c with Some th => option_list (value_of th) | None => [] end
  | _ => []
  end.

(** Thread [t] has inserted a first part of its program, in order, is at
    the next value, and has the rest to do. *)
Definition program_ok storage st t (p : list Z) : Prop :=
  exists g vs todo, it_got st !! t = Some g /\ it_todo st !! t = Some todo /\
    p = vs ++ current (it_ids st) (threads_of (it_world st)) t ++ todo /\
    Forall2 (stored storage) g vs.

Record test_ok st k : Prop := {
  to_ids : ids_ok (it_ids st);
  to_threads : length (CURRENT_ID (it_ids st)) = length programs;
  to_todo : length (it_todo st) = length programs;
  to_got : length (it_got st) = length programs;
  to_slab : insertions SIZE (it_world st) k (concat (it_got st));
  to_count : (k + length (omap popping (threads_of (it_world st))) + length (concat (it_todo st)) =
              length (concat programs))%nat;
  to_idle c th : threads_of (it_world st) !! c = Some th -> NEXT_ID (it_ids st) <= Z.of_nat c -> th = Ready;
  to_programs t p : programs !! t = Some p -> program_ok (slots (slab_of (it_world st))) st t p;
}.

Lemma concat_insert_length {A} (ls : list (list A)) t l l' :
  ls !! t = Some l -> (length (concat (<[t := l']> ls)) + length l = length (concat ls) + length l')%nat.
Proof.
  intros Ht. pose proof (lookup_lt_Some _ _ _ Ht). rewrite insert_take_drop by done.
  rewrite <-(take_drop_middle ls t l) at 3 by done.
  rewrite !concat_app. simpl. rewrite !length_app. lia.
Qed.

Lemma concat_insert_snoc {A} (ls : list (list A)) t l x :
  ls !! t = Some l -> concat (<[t := l ++ [x]]> ls) ≡ₚ x :: concat ls.
Proof.
  intros Ht. pose proof (lookup_lt_Some _ _ _ Ht). rewrite insert_take_drop by done.
  rewrite <-(take_drop_middle ls t l) at 3 by done. rewrite !concat_app. simpl. solve_Permutation.
Qed.

Lemma popping_insert (ths : list (thread Z)) c th th' :
  ths !! c = Some th ->
  (length (omap popping (<[c := th']> ths)) + length (option_list (popping th)) =
   length (omap popping ths) + length (option_list (popping th')))%nat.
Proof.
  intros Hc. destruct (insert_first _ _ _ th' Hc) as (rest&Hp1&Hp2). rewrite Hp2, Hp1. simpl.
  destruct (popping th), (popping th'); simpl; lia.
Qed.

(** Asking for the processor changes nothing else. *)
Lemma test_ok_ids st k t ids c :
  test_ok st k -> Z.of_nat (length programs) <= MAX_THREADS -> (t < length programs)%nat ->
  current_processor (it_ids st) t = (ids, c) ->
  test_ok (MkInsertTest ids (it_world st) (it_todo st) (it_got st)) k /\
  CURRENT_ID ids !! t = Some (Some c) /\ exists th, threads_of (it_world st) !! Z.to_nat c = Some th.
Proof.
  intros [Hids Hth Htd Hgt Hs Hc Hid Hp] Hmax Ht E. pose proof max_threads_u16.
  destruct (current_processor_ok (it_ids st) t Hids) as (ids'&c'&E'&Hids'&Hcur&Hb&Hcase); [lia..|].
  rewrite E in E'. simplify_eq. assert (Hme : CURRENT_ID ids' !! t = Some (Some c')).
  { rewrite Hcur. apply list_lookup_insert_eq. lia. }
  destruct (lookup_lt_is_Some_2 (threads_of (it_world st)) (Z.to_nat c')) as [th Hcell].
  { rewrite (in_cells _ _ _ _ Hs). simpl. lia. }
  split; [|by eauto]. split; simpl; try done.
  - by rewrite Hcur, length_insert.
  - intros c0 th0 Hth0 Hn. eapply Hid; [exact Hth0|].
    destruct Hcase as [[<- _]|(->&_&?)]; lia.
  - intros t0 p0 Hp0. destruct (Hp t0 p0 Hp0) as (g&vs&todo&?&?&->&?). exists g, vs, todo.
    split; [done|]. split; [done|]. split; [|done]. f_equal. f_equal. simpl. unfold current.
    rewrite Hcur. destruct (decide (t0 = t)) as [->|]; [|by rewrite list_lookup_insert_ne].
    rewrite list_lookup_insert_eq by lia.
    destruct Hcase as [[_ ->]|(->&->&_)]; [done|]. rewrite Hcell.
    by rewrite (Hid _ _ Hcell) by lia.
Qed.

Lemma Forall2_weaken {A B} (P Q : A -> B -> Prop) l l' :
  Forall2 P l l' -> (forall x y, x ∈ l -> P x y -> Q x y) -> Forall2 Q l l'.
Proof. induction 1 as [|x y l l' Hp _ IH]; intros H; constructor; [apply H; [by left|done]|].
  apply IH. intros ???. apply H. by right.
Qed.

(** Thread [t] moves from [th] to [th'] on its processor [c], and the
    others' programs stay as they are. *)
Lemma program_ok_other st w' todo' got' c th' t t0 (p : list Z) storage :
  ids_ok (it_ids st) -> CURRENT_ID (it_ids st) !! t = Some (Some c) -> t0 <> t ->
  threads_of w' = <[Z.to_nat c := th']> (threads_of (it_world st)) ->
  it_got st !! t0 = got' !! t0 -> it_todo st !! t0 = todo' !! t0 ->
  (forall x v, x ∈ concat (it_got st) -> stored (slots (slab_of (it_world st))) x v -> stored storage x v) ->
  program_ok (slots (slab_of (it_world st))) st t0 p ->
  program_ok storage (MkInsertTest (it_ids st) w' todo' got') t0 p.
Proof.
  intros Hids Ht Hne Ew Eg Et Hst (g&vs&todo&Hg&Htd&->&Hf). exists g, vs, todo. simpl.
  split; [by rewrite <-Eg|]. split; [by rewrite <-Et|]. split.
  - f_equal. f_equal. unfold current. destruct (CURRENT_ID (it_ids st) !! t0) as [[c0|]|] eqn:E; try done.
    rewrite Ew, list_lookup_insert_ne; [done|].
    pose proof (id_below_next _ _ _ Hids Ht). pose proof (id_below_next _ _ _ Hids E).
    intros Ec. assert (c0 = c) as -> by lia. apply Hne. by eapply ids_distinct.
  - eapply Forall2_weaken; [exact Hf|]. intros x v Hx Hs. apply Hst; [|done].
    apply list_elem_of_In, in_concat. exists g. split; [|by apply list_elem_of_In].
    apply list_elem_of_In. by eapply list_elem_of_lookup_2.
Qed.

(** Thread [t] begins its next insertion. *)
Lemma insert_begin_ok st k t c v todo :
  test_ok st k -> CURRENT_ID (it_ids st) !! t = Some (Some c) ->
  threads_of (it_world st) !! Z.to_nat c = Some Ready -> it_todo st !! t = Some (v :: todo) ->
  exists st', ('(w, _) ← do_move (it_world st) (Begin (Z.to_nat c) (Insert v));
    Ret (MkInsertTest (it_ids st) w (<[t := todo]> (it_todo st)) (it_got st))) = Ret st' /\ test_ok st' k.
Proof.
  intros [Hids Hth Htodo Hgot Hs Hcount Hidle Hprog] Hme Hcell Htd. simpl. rewrite Hcell.
  cbn [mbind rust_bind may_begin]. eexists. split; [done|].
  assert (Ht : (t < length programs)%nat) by (rewrite <-Htodo; by eapply lookup_lt_Some).
  split; simpl; try done.
  - by rewrite length_insert.
  - eapply insertions_move; [exact Hs|exact Hcell|apply Hs|done|apply Hs|by left|done].
  - pose proof (popping_insert _ _ _ (PopLocal v) Hcell).
    pose proof (concat_insert_length (it_todo st) t _ todo Htd). simpl in *. lia.
  - intros c0 th0 Hc0 Hn. pose proof (id_below_next _ _ _ Hids Hme).
    rewrite list_lookup_insert_ne in Hc0 by lia. by eapply Hidle.
  - intros t0 p0 Hp0. destruct (decide (t0 = t)) as [->|Hne].
    + destruct (Hprog t p0 Hp0) as (g&vs&todo1&Hg&Htd1&->&Hf). exists g, vs, todo.
      rewrite Htd in Htd1. injection Htd1 as <-. split; [done|].
      split; [apply list_lookup_insert_eq; lia|]. split; [|done]. unfold current. simpl.
      rewrite Hme, Hcell, list_lookup_insert_eq by (by eapply lookup_lt_Some). done.
    + eapply (program_ok_other st); try done; [|by apply Hprog]. simpl.
      by rewrite list_lookup_insert_ne.
Qed.

(** What thread [t] has inserted stays. *)
Lemma collected_stay st t g vs storage :
  it_got st !! t = Some g -> Forall2 (stored (slots (slab_of (it_world st)))) g vs ->
  (forall x v, x ∈ concat (it_got st) -> stored (slots (slab_of (it_world st))) x v -> stored storage x v) ->
  Forall2 (stored storage) g vs.
Proof.
  intros Hg Hf Hst. eapply Forall2_weaken; [exact Hf|].
  intros y u Hy. apply Hst, list_elem_of_In, in_concat. exists g.
  split; [|by apply list_elem_of_In]. by eapply list_elem_of_In, list_elem_of_lookup_2.
Qed.

(** Thread [t] acts. *)
Lemma insert_act_ok st k t c th todo :
  test_ok st k -> (length (concat programs) <= SIZE)%nat -> it_todo st !! t = Some todo ->
  CURRENT_ID (it_ids st) !! t = Some (Some c) ->
  threads_of (it_world st) !! Z.to_nat c = Some th -> th <> Ready ->
  exists st' k', ('(w, es) ← do_move (it_world st) (Act (Z.to_nat c) false);
    got ← collect (it_got st) t es;
    Ret (MkInsertTest (it_ids st) w (it_todo st) got)) = Ret st' /\ test_ok st' k'.
Proof.
  intros [Hids Hth Htodo Hgot Hs Hcount Hidle Hprog] Hfit Htd Hme Hcell Hne.
  assert (Hpop : forall v, popping th = Some v -> (k < SIZE)%nat).
  { intros v Hv. destruct (insert_first _ _ _ th Hcell) as (rest&Hp1&_).
    rewrite Hp1 in Hcount. simpl in Hcount. rewrite Hv in Hcount. simpl in Hcount. lia. }
  destruct (insert_act SIZE Hsize _ _ _ _ _ Hs Hcell Hne Hpop) as (sl'&th'&e&Ea&Hst&He).
  assert (Hidle' : forall c0 th0, <[Z.to_nat c := th']> (threads_of (it_world st)) !! c0 = Some th0 ->
    NEXT_ID (it_ids st) <= Z.of_nat c0 -> th0 = Ready).
  { intros c0 th0 Hc0 Hn. pose proof (id_below_next _ _ _ Hids Hme).
    rewrite list_lookup_insert_ne in Hc0 by lia. by eapply Hidle. }
  pose proof (popping_insert _ _ _ th' Hcell) as Hpi.
  pose proof (lookup_lt_Some _ _ _ Htd). pose proof (lookup_lt_Some _ _ _ Hcell) as Hlt.
  destruct (lookup_lt_is_Some_2 (it_got st) t) as [g Hg]; [lia|].
  destruct (lookup_lt_is_Some_2 programs t) as [p Hp]; [lia|].
  destruct (Hprog t p Hp) as (g'&vs&todo'&Hg'&Htd'&Ep&Hf).
  assert (g' = g) as -> by congruence. assert (todo' = todo) as -> by congruence.
  unfold current in Ep. rewrite Hme, Hcell in Ep.
  unfold do_move. rewrite Hcell, Ea. cbn [mbind rust_bind]. destruct e as [[cl [x|?|?|?|?|]]|]; try done.
  - destruct He as (v&->&->&Hv&Hnp&Hx&Hins). unfold collect; simpl option_list; cbv iota beta. rewrite Hg. cbn [default mbind rust_bind].
    eexists _, k. split; [done|]. split; simpl; try done.
    + by rewrite length_insert.
    + apply Hins. by apply concat_insert_snoc.
    + rewrite Hnp in Hpi. simpl in Hpi. lia.
    + intros t0 p0 Hp0. destruct (decide (t0 = t)) as [->|Hne0].
      * exists (g ++ [x]), (vs ++ [v]), todo. simpl.
        split; [apply list_lookup_insert_eq; lia|]. split; [done|]. split.
        { unfold current. simpl. rewrite Hme, list_lookup_insert_eq by done.
          rewrite Hp in Hp0. injection Hp0 as <-. rewrite Ep, Hv. simpl. by rewrite <-app_assoc. }
        apply Forall2_app; [by eapply collected_stay|by repeat constructor].
      * eapply (program_ok_other st); try done; [|by apply Hprog]. simpl.
        by rewrite list_lookup_insert_ne.
  - destruct He as (Hv&_&k'&Hk'&Hins). simpl option_list. cbn [collect mbind rust_bind].
    eexists _, k'. split; [done|]. split; simpl; try done; [apply Hins|lia|].
    intros t0 p0 Hp0. destruct (decide (t0 = t)) as [->|Hne0].
    + exists g, vs, todo. simpl. split; [done|]. split; [done|]. split; [|by eapply collected_stay].
      unfold current. simpl. rewrite Hme, list_lookup_insert_eq by done. rewrite Hv. congruence.
    + eapply (program_ok_other st); try done. by apply Hprog.
Qed.

Lemma insert_thread_ok st k t :
  Z.of_nat (length programs) <= MAX_THREADS -> (length (concat programs) <= SIZE)%nat ->
  test_ok st k -> exists st' k', insert_thread st t = Ret st' /\ test_ok st' k'.
Proof.
  intros Hmax Hfit Hok. unfold insert_thread.
  destruct (it_todo st !! t) as [todo|] eqn:Htd; [|by exists st, k].
  destruct (current_processor (it_ids st) t) as [ids c] eqn:Ec.
  assert (Ht : (t < length programs)%nat) by (rewrite <-(to_todo _ _ Hok); by eapply lookup_lt_Some).
  destruct (test_ok_ids _ _ _ _ _ Hok Hmax Ht Ec) as (Hok'&Hme&th&Hcell).
  rewrite Hcell. assert (Hstart : th = Ready \/ th <> Ready) by (destruct th; (by left) || by right).
  destruct Hstart as [->|Hne].
  - destruct todo as [|v todo]; [by exists st, k|].
    destruct (insert_begin_ok _ _ _ _ _ _ Hok' Hme Hcell Htd) as (st'&E&?). by exists st', k.
  - pose proof (insert_act_ok _ _ _ _ _ _ Hok' Hfit Htd Hme Hcell Hne). by destruct th.
Qed.

Lemma insert_run_ok st k schedule :
  Z.of_nat (length programs) <= MAX_THREADS -> (length (concat programs) <= SIZE)%nat ->
  test_ok st k -> exists st' k', insert_run st schedule = Ret st' /\ test_ok st' k'.
Proof.
  intros Hmax Hfit. revert st k. induction schedule as [|t schedule IH]; intros st k Hok; [by exists st, k|].
  destruct (insert_thread_ok st k t Hmax Hfit Hok) as (st'&k'&E&Hok'). simpl. rewrite E. simpl. by eapply IH.
Qed.

Lemma omap_replicate {A B} (f : A -> option B) n x : f x = None -> omap f (replicate n x) = [].
Proof. intros Hf. induction n as [|n IH]; [done|]. simpl. by rewrite Hf. Qed.

Lemma concat_replicate_empty {A} n : concat (replicate n ([] : list A)) = [].
Proof. by induction n. Qed.

Lemma insert_test_ok :
  (0 < SIZE)%nat -> exists st, insert_test SIZE programs = Ret st /\ test_ok st 0.
Proof.
  intros Hpos. unfold insert_test. rewrite slab_new_eq, decide_True by done. cbn [mbind rust_bind].
  eexists. split; [done|].
  assert (Hlen : length (fresh_slots (T := Z) SIZE) = SIZE) by (unfold fresh_slots; by rewrite length_fmap, length_seq).
  assert (Hs : forall i s, fresh_slots (T := Z) SIZE !! i = Some s -> s = fresh_slot (fresh_next SIZE i)).
  { intros i s Hi. pose proof (lookup_lt_Some _ _ _ Hi) as Hlt. rewrite Hlen in Hlt.
    rewrite fresh_slots_lookup in Hi by done. congruence. }
  split; simpl; rewrite ?length_replicate, ?concat_replicate_empty; try done.
  - apply no_ids_ok.
  - split; simpl; rewrite ?omap_replicate; try done; [|by intros i s ->%Hs|eauto|by rewrite length_replicate| |lia].
    + unfold head_at, global_new. by rewrite decide_False by lia.
    + by apply Forall_replicate.
  - by rewrite omap_replicate.
  - intros c th Hc _. by apply lookup_replicate in Hc as [-> _].
  - intros t p Hp. exists [], [], p. simpl. pose proof (lookup_lt_Some _ _ _ Hp).
    split; [by apply lookup_replicate_2|]. split; [done|]. split; [|done].
    unfold current. simpl. by rewrite lookup_replicate_2.
Qed.

(** ** The threads can be joined *)

(** Where thread [t] is in its insertion. *)
Definition thread_of st t : thread Z :=
  match CURRENT_ID (it_ids st) !! t with
  | Some (Some c) => default Ready (threads_of (it_world st) !! Z.to_nat c)
  | _ => Ready
  end.

Definition finished st t : Prop := it_todo st !! t = Some [] /\ thread_of st t = Ready.

(** A bound on the actions that thread [t] has left when it is alone. *)
Definition work_left st t : nat :=
  9 * length (default [] (it_todo st !! t)) + actions_left (slab_of (it_world st)) (thread_of st t).

Lemma inserting_in_loop storage th : inserting SIZE storage th -> in_loop th.
Proof. destruct th as [| |v []| | | | | | | | | | | | | | | | ]; simpl; naive_solver. Qed.

(** What a step of thread [t] leaves alone. *)
Lemma finished_other st st' t t0 c th' :
  ids_ok (it_ids st') -> CURRENT_ID (it_ids st') !! t = Some (Some c) -> t0 <> t ->
  CURRENT_ID (it_ids st') !! t0 = CURRENT_ID (it_ids st) !! t0 ->
  it_todo st' !! t0 = it_todo st !! t0 ->
  threads_of (it_world st') = <[Z.to_nat c := th']> (threads_of (it_world st)) ->
  finished st t0 -> finished st' t0.
Proof.
  intros Hids Hme Hne Ec Et Ew [Htd Hr]. split; [by rewrite Et|].
  unfold thread_of in *. rewrite Ec. destruct (CURRENT_ID (it_ids st) !! t0) as [[c0|]|] eqn:E; try done.
  pose proof (id_below_next _ _ _ Hids Hme). pose proof (id_below_next _ _ _ Hids Ec).
  rewrite Ew, list_lookup_insert_ne; [done|]. intros Hc. apply Hne.
  eapply (ids_distinct (it_ids st')); [done|exact Ec|]. by replace c0 with c by lia.
Qed.

Lemma insert_thread_work st k t st' :
  Z.of_nat (length programs) <= MAX_THREADS -> (length (concat programs) <= SIZE)%nat ->
  test_ok st k -> (t < length programs)%nat -> insert_thread st t = Ret st' -> ~ finished st t ->
  (work_left st' t < work_left st t)%nat /\ forall t0, t0 <> t -> finished st t0 -> finished st' t0.
Proof.
  intros Hmax Hfit Hok Ht E Hnf. unfold insert_thread in E.
  destruct (lookup_lt_is_Some_2 (it_todo st) t) as [todo Htd]; [by rewrite (to_todo _ _ Hok)|].
  rewrite Htd in E. destruct (current_processor (it_ids st) t) as [ids c] eqn:Ec.
  destruct (test_ok_ids _ _ _ _ _ Hok Hmax Ht Ec) as (Hok'&Hme&th&Hcell).
  assert (Hof : thread_of st t = th /\ forall t0, t0 <> t -> CURRENT_ID ids !! t0 = CURRENT_ID (it_ids st) !! t0).
  { pose proof max_threads_u16. pose proof (to_threads _ _ Hok) as Hl.
    destruct (current_processor_ok (it_ids st) t (to_ids _ _ Hok)) as (ids'&c'&E'&_&Hcur&_&Hcase); [lia..|].
    rewrite Ec in E'. injection E' as <- <-. split; [|intros; by rewrite Hcur, list_lookup_insert_ne].
    unfold thread_of. destruct Hcase as [[_ ->]|(->&->&_)]; [by rewrite Hcell|].
    by rewrite (to_idle _ _ Hok _ _ Hcell) by (destruct (to_ids _ _ Hok); lia). }
  destruct Hof as [Hof Hsame]. pose proof (lookup_lt_Some _ _ _ Hcell) as Hlt.
  pose proof (lookup_lt_Some _ _ _ Htd) as Hltd. rewrite Hcell in E.
  assert (Hready : th = Ready \/ th <> Ready) by (destruct th; (by left) || by right).
  destruct Hready as [->|Hne].
  - destruct todo as [|v todo]; [by destruct Hnf|]. simpl in E. rewrite Hcell in E. cbn in E.
    simplify_eq. split; [|intros t0 Hne; eapply finished_other; simpl; try done].
    + unfold work_left. rewrite Hof, Htd. unfold thread_of. simpl. rewrite Hme.
      rewrite !list_lookup_insert_eq by done. simpl. lia.
    + apply Hok'.
    + by apply Hsame.
    + by rewrite list_lookup_insert_ne.
  - assert (E2 : ('(w, es) ← do_move (it_world st) (Act (Z.to_nat c) false);
      got ← collect (it_got st) t es; Ret (MkInsertTest ids w (it_todo st) got)) = Ret st')
      by (by destruct th).
    clear E. unfold do_move in E2. rewrite Hcell in E2. rust_inv E2. destruct x as [w es]. rust_inv Hx.
    destruct x as [[sl' th'] e]. rust_inv E2. injection Hx as <- <-. subst st'.
    split; [|intros t0 Hne0; eapply finished_other; simpl; try done; [apply Hok'|by apply Hsame]].
    assert (Hin : inserting SIZE (slots (slab_of (it_world st))) th).
    { pose proof (in_threads _ _ _ _ (to_slab _ _ Hok)) as Hall. rewrite Forall_forall in Hall.
      apply Hall. by eapply list_elem_of_lookup_2. }
    pose proof (act_progress _ _ _ _ _ _ (inserting_in_loop _ _ Hin) Hne Hx0).
    unfold work_left. rewrite Hof, Htd. unfold thread_of. simpl. rewrite Hme.
    rewrite !list_lookup_insert_eq by done. simpl. rewrite Htd. simpl. lia.
Qed.

Lemma insert_run_app st s1 s2 :
  insert_run st (s1 ++ s2) = (st ← insert_run st s1; insert_run st s2).
Proof.
  revert st. induction s1 as [|t s1 IH]; intros st; [done|]. simpl.
  destruct (insert_thread st t); simpl; [apply IH|done].
Qed.

#[local] Instance finished_dec st t : Decision (finished st t).
Proof.
  unfold finished. destruct (thread_of st t); try (by right; intros [_ ?]);
    destruct (decide (it_todo st !! t = Some [])); (by left) || (by right; intros [? _]).
Defined.

(** A thread that runs alone finishes its program. *)
Lemma insert_alone st k t :
  Z.of_nat (length programs) <= MAX_THREADS -> (length (concat programs) <= SIZE)%nat ->
  test_ok st k -> (t < length programs)%nat ->
  exists j st' k', insert_run st (replicate j t) = Ret st' /\ test_ok st' k' /\ finished st' t /\
    forall t0, t0 <> t -> finished st t0 -> finished st' t0.
Proof.
  intros Hmax Hfit Hok Ht. remember (work_left st t) as m eqn:Em. revert st k Hok Em.
  induction m as [m IH] using lt_wf_ind. intros st k Hok ->.
  destruct (decide (finished st t)) as [Hf|Hf]; [by exists 0%nat, st, k|].
  destruct (insert_thread_ok st k t Hmax Hfit Hok) as (st1&k1&E&Hok1).
  destruct (insert_thread_work _ _ _ _ Hmax Hfit Hok Ht E Hf) as [Hless Hothers].
  destruct (IH _ Hless st1 k1 Hok1 eq_refl) as (j&st'&k'&Er&Hok'&Hf'&Ho').
  exists (S j), st', k'. simpl. rewrite E. simpl. split_and!; [done..|]. auto.
Qed.

Lemma insert_joins st k n :
  Z.of_nat (length programs) <= MAX_THREADS -> (length (concat programs) <= SIZE)%nat ->
  test_ok st k -> (n <= length programs)%nat ->
  exists rest st' k', insert_run st rest = Ret st' /\ test_ok st' k' /\
    forall t, (t < n)%nat -> finished st' t.
Proof.
  intros Hmax Hfit Hok. induction n as [|n IH]; intros Hn; [by exists [], st, k; split_and!; try done; lia|].
  destruct IH as (s1&st1&k1&E1&Hok1&Hf1); [lia|].
  destruct (insert_alone st1 k1 n Hmax Hfit Hok1) as (j&st'&k'&E&Hok'&Hf&Ho); [lia|].
  exists (s1 ++ replicate j n), st', k'. rewrite insert_run_app, E1. split; [done|]. split; [done|].
  intros t Ht. destruct (decide (t = n)) as [->|]; [done|]. apply Ho; [done|]. apply Hf1. lia.
Qed.

(** The indices collected so far. *)
Lemma collected_distinct st k : test_ok st k -> NoDup (concat (it_got st)).
Proof.
  intros Hok. apply (NoDup_fmap_1 slot_of).
  pose proof (NoDup_seq 0 k) as Hnd. rewrite <-(in_slots _ _ _ _ (to_slab _ _ Hok)) in Hnd.
  by apply NoDup_app in Hnd as (_&_&?).
Qed.

(** The values of thread [t] that are in the slab under its indices. *)
Definition inserted_values st t : rust (list Z) :=
  mapM (ref_deref (slab_of (it_world st))) (default [] (it_got st !! t)).

Lemma stored_values storage (sl : Slab Z) g vs :
  slots sl = storage -> Forall2 (stored storage) g vs -> mapM (ref_deref sl) g = Ret vs.
Proof.
  intros Es. induction 1 as [|x v g vs (s&Hs&_&Hc) _ IH]; [done|].
  assert (E : ref_deref sl x = Ret v).
  { unfold ref_deref. change (Z.to_nat (idx_index x)) with (slot_of x). by rewrite Es, Hs; simpl; rewrite Hc. }
  simpl. rewrite E. simpl. by rewrite IH.
Qed.

Lemma values_so_far st k t p :
  test_ok st k -> programs !! t = Some p ->
  exists vs, inserted_values st t = Ret vs /\ vs `prefix_of` p /\ (finished st t -> vs = p).
Proof.
  intros Hok Hp. destruct (to_programs _ _ Hok t p Hp) as (g&vs&todo&Hg&Htd&->&Hf). exists vs.
  split; [unfold inserted_values; rewrite Hg; by eapply stored_values|].
  split; [by eexists|]. intros [Htd' Hr]. rewrite Htd in Htd'. injection Htd' as ->.
  unfold thread_of in Hr. unfold current. destruct (CURRENT_ID (it_ids st) !! t) as [[c|]|];
    [|by rewrite app_nil_r..].
  destruct (threads_of (it_world st) !! Z.to_nat c) as [th|]; [|by rewrite app_nil_r].
  simpl in Hr. subst th. by rewrite app_nil_r.
Qed.
End test_facts.

Section properties.
Context {prof : Profile} {bits : ModularBitfield} {loom : Loom}.

(** C19. [test_concurrent_insertions], for any threads and values that fit:
    under every schedule every insertion succeeds, no two return the same
    index, the indices of a thread lead to its values in order, and the
    threads can be joined from wherever they are, after which every value
    is in the slab. (The test itself says that the values should be checked
    as well.) *)
Theorem concurrent_insertions_pass SIZE programs schedule :
  (0 < SIZE)%nat -> Z.of_nat SIZE < 2 ^ 18 -> Z.of_nat (length programs) <= MAX_THREADS ->
  (length (concat programs) <= SIZE)%nat ->
  exists st0 st rest st', insert_test SIZE programs = Ret st0 /\ insert_run st0 schedule = Ret st /\
    NoDup (concat (it_got st)) /\
    (forall t p, programs !! t = Some p -> exists vs, inserted_values st t = Ret vs /\ vs `prefix_of` p) /\
    insert_run st rest = Ret st' /\ NoDup (concat (it_got st')) /\
    forall t p, programs !! t = Some p -> inserted_values st' t = Ret p.
Proof.
  intros Hpos Hsz Hmax Hfit. destruct (insert_test_ok SIZE Hsz programs Hpos) as (st0&E0&Hok0).
  destruct (insert_run_ok SIZE Hsz programs st0 0 schedule Hmax Hfit Hok0) as (st&k&E&Hok).
  destruct (insert_joins SIZE Hsz programs st k (length programs) Hmax Hfit Hok ltac:(done))
    as (rest&st'&k'&E'&Hok'&Hf).
  exists st0, st, rest, st'. split; [done|]. split; [done|].
  split; [by eapply collected_distinct|]. split; [|split; [done|split; [by eapply collected_distinct|]]].
  - intros t p Hp. destruct (values_so_far _ _ _ _ _ _ Hok Hp) as (vs&?&?&_). by exists vs.
  - intros t p Hp. destruct (values_so_far _ _ _ _ _ _ Hok' Hp) as (vs&E2&_&Hall).
    by rewrite E2, Hall by (apply Hf; by eapply lookup_lt_Some).
Qed.
End properties.

Section witnesses.
#[local] Existing Instance lsb_first.
#[local] Existing Instance dev_profile.
#[local] Existing Instance four_threads.

(** The test of the repository: two threads, seven values. *)
Lemma concurrent_insertions_pass_witness :
  exists st0 st rest st', test_concurrent_insertions = Ret st0 /\
    insert_run st0 [0; 1; 0; 1; 1; 0; 0; 0; 1; 1; 1; 0; 1; 0]%nat = Ret st /\
    insert_run st rest = Ret st' /\ inserted_values st' 1 = Ret [5; 6; 7].
Proof.
  destruct (concurrent_insertions_pass 16 [[0; 1; 2; 3]; [5; 6; 7]]
    [0; 1; 0; 1; 1; 0; 0; 0; 1; 1; 1; 0; 1; 0]%nat) as (st0&st&rest&st'&E0&E&_&_&E'&_&Hv);
    [lia|done|done|simpl; lia|].
  exists st0, st, rest, st'. split; [exact E0|]. split; [exact E|]. split; [exact E'|].
  by apply (Hv 1%nat).
Defined.
End witnesses.
