(* ===== verification/Sync.v ===== *)
(** Interrupt control and synchronisation ([hal/src/interrupts.rs],
    [common/src/sync.rs]): the guard that keeps interrupts off, the mutex
    that holds one while it is locked, and the write-once global. The mutex
    is modelled as a machine of processors whose running code is interrupted
    by handlers that use the same mutex; the global by its atomic actions. *)
From S2P Require Import Prelude.

(** * [Controller] and [Guard] *)

(** Whether interrupts are enabled on the current processor is all the state
    that a [Controller] has for this purpose. *)
Record Guard := MkGuard { enable_flag : bool }.

Definition force_enable (enabled : bool) : bool := true.
Definition force_disable (enabled : bool) : bool := false.

(** [Controller::disable]: the new interrupt state and the guard. *)
Definition disable (enabled : bool) : bool * Guard :=
  let enable_flag := enabled in
  let enabled := if enable_flag then force_disable enabled else enabled in
  (enabled, MkGuard enable_flag).

(** [Guard::drop]. *)
Definition drop_guard (enabled : bool) (g : Guard) : bool :=
  if enable_flag g then force_enable enabled else enabled.

(** A stack of guards taken one inside the other. *)
Fixpoint disable_nested (n : nat) (enabled : bool) : bool * list Guard :=
  match n with
  | O => (enabled, [])
  | S n =>
      let '(enabled, g) := disable enabled in
      let '(enabled, gs) := disable_nested n enabled in (enabled, gs ++ [g])
  end.

(** Guards nest: with any number of guards taken one inside the other
    interrupts are off, and dropping them innermost first restores the
    state from before the first, with interrupts off until the last one is
    dropped. *)
Theorem guards_nest n enabled :
  let '(off, gs) := disable_nested (S n) enabled in
  off = false /\
  fold_left drop_guard gs off = enabled /\
  forall k, (k <= n)%nat -> fold_left drop_guard (take k gs) off = false.
Proof.
  enough (Hn : forall n, let '(off, gs) := disable_nested n false in
            off = false /\ gs = replicate n (MkGuard false)).
  { assert (Hf : forall k, fold_left drop_guard (replicate k (MkGuard false)) false = false)
      by (induction k; done).
    assert (E : disable_nested (S n) enabled = (false, replicate n (MkGuard false) ++ [MkGuard enabled])).
    { specialize (Hn n). destruct enabled; cbn [disable_nested disable enable_flag];
        unfold force_disable; destruct (disable_nested n false) as [off gs];
        by destruct Hn as [-> ->]. }
    rewrite E. split; [done|]. rewrite fold_left_app, Hf. split; [by destruct enabled|].
    intros k Hk. rewrite take_app_le by (by rewrite length_replicate).
    rewrite take_replicate. apply Hf. }
  clear. induction n as [|n IH]; [done|]. simpl. destruct (disable_nested n false) as [off gs].
  destruct IH as [-> ->]. split; [done|]. by rewrite <-replicate_cons_app.
Qed.

(** * [InterruptSafeMutex] *)

(** Where code on a processor is with respect to the mutex. The numbered
    phases are the steps of [lock] and of dropping the guard: the fields of
    [InterruptSafeMutexGuard] are dropped in order, the spin lock's guard
    first. *)
Inductive phase :=
  | Outside
  | Spinning (g : Guard)
  | Critical (g : Guard)
  | Unlocked (g : Guard).

(** The contexts on a processor: the running code first, below it the code
    it interrupted. *)
Record proc := MkProc { enabled : bool; contexts : list phase }.

(** The spin lock (and which processor's code locked it), and the
    processors. *)
Record machine := MkMachine { locked_by : option nat; procs : list proc }.

(** One step of the running code on processor [p]. *)
Inductive proc_step (p : nat) : option nat -> proc -> option nat -> proc -> Prop :=
  (** [self.controller.disable()] *)
  | lock_disable l e cs :
      proc_step p l (MkProc e (Outside :: cs))
                  l (MkProc (disable e).1 (Spinning (disable e).2 :: cs))
  (** [self.inner.lock()] succeeds *)
  | lock_acquire e g cs :
      proc_step p None (MkProc e (Spinning g :: cs)) (Some p) (MkProc e (Critical g :: cs))
  (** [self.inner.try_lock()] fails: the interrupt guard is dropped *)
  | try_lock_fails q e g cs :
      proc_step p (Some q) (MkProc e (Spinning g :: cs))
                  (Some q) (MkProc (drop_guard e g) (Outside :: cs))
  (** the field [inner] is dropped *)
  | drop_inner l e g cs :
      proc_step p l (MkProc e (Critical g :: cs)) None (MkProc e (Unlocked g :: cs))
  (** the field [_interrupt_guard] is dropped *)
  | drop_interrupt_guard l e g cs :
      proc_step p l (MkProc e (Unlocked g :: cs))
                  l (MkProc (drop_guard e g) (Outside :: cs))
  (** an interrupt: its handler starts with interrupts on or off *)
  | interrupted l cs e :
      proc_step p l (MkProc true cs) l (MkProc e (Outside :: cs))
  (** the handler returns to the interrupted code *)
  | handler_returns l e c cs :
      proc_step p l (MkProc e (Outside :: c :: cs)) l (MkProc true (c :: cs)).

Inductive machine_step : machine -> machine -> Prop :=
  | some_proc l l' ps p pr pr' :
      ps !! p = Some pr -> proc_step p l pr l' pr' ->
      machine_step (MkMachine l ps) (MkMachine l' (<[p := pr']> ps)).

(** Only the running code of a processor is ever anywhere but outside the
    mutex, and then interrupts are off. *)
Record proc_ok (pr : proc) : Prop := {
  proc_running : exists c cs, contexts pr = c :: cs /\ Forall (eq Outside) cs /\
                   (c <> Outside -> enabled pr = false);
}.

Definition is_critical (pr : proc) : Prop :=
  exists g cs, contexts pr = Critical g :: cs.

Record machine_inv (m : machine) : Prop := {
  mi_procs : Forall proc_ok (procs m);
  mi_owner p pr : procs m !! p = Some pr -> (is_critical pr <-> locked_by m = Some p);
  mi_locked p : locked_by m = Some p -> is_Some (procs m !! p);
}.

Lemma proc_ok_intro e c cs :
  Forall (eq Outside) cs -> (c <> Outside -> e = false) -> proc_ok (MkProc e (c :: cs)).
Proof. intros. split. by exists c, cs. Qed.

Lemma proc_step_ok p l pr l' pr' :
  proc_step p l pr l' pr' -> proc_ok pr ->
  (is_critical pr <-> l = Some p) ->
  proc_ok pr' /\ (is_critical pr' <-> l' = Some p) /\ (l' = l \/ (l = None /\ l' = Some p) \/ l' = None /\ l = Some p).
Proof.
  assert (Hcrit : forall e c cs, is_critical (MkProc e (c :: cs)) <-> exists g, c = Critical g).
  { intros. unfold is_critical. simpl. naive_solver. }
  intros Hs [(c0&cs0&Ec&Hcs&Hoff)].
  destruct Hs as [l e cs|e g cs|q e g cs|l e g cs|l e g cs|l cs e|l e c cs]; simpl in Ec;
    try (injection Ec as <- <-); simpl in Hoff; rewrite ?Hcrit; intros Hl.
  - split; [|split; [|by left]].
    + apply proc_ok_intro; [done|]. intros _. by destruct e.
    + rewrite <-Hl. naive_solver.
  - split; [|split; [|by right; left]].
    + apply proc_ok_intro; [done|]. intros _. by apply Hoff.
    + naive_solver.
  - split; [|split; [|by left]].
    + by apply proc_ok_intro.
    + rewrite <-Hl. naive_solver.
  - assert (l = Some p) as -> by naive_solver. split; [|split; [|by right; right]].
    + apply proc_ok_intro; [done|]. intros _. by apply Hoff.
    + naive_solver.
  - split; [|split; [|by left]].
    + by apply proc_ok_intro.
    + rewrite <-Hl. naive_solver.
  - subst cs. assert (c0 = Outside) as ->.
    { destruct (decide (is_Some (match c0 with Outside => None | _ => Some tt end))) as [Hx|Hx].
      - destruct c0; [done|..]; discriminate Hoff; done.
      - destruct c0; [done|..]; exfalso; apply Hx; by eexists. }
    split; [|split; [|by left]].
    + apply proc_ok_intro; [by constructor|done].
    + rewrite Hcrit in Hl. rewrite <-Hl. naive_solver.
  - apply Forall_cons in Hcs as [<- Hcs]. split; [|split; [|by left]].
    + by apply proc_ok_intro.
    + rewrite <-Hl. naive_solver.
Qed.

Lemma machine_step_inv m m' : machine_step m m' -> machine_inv m -> machine_inv m'.
Proof.
  intros [l l' ps p pr pr' Hp Hs] [Hps Ho Hlk]. simpl in *.
  pose proof (proj1 (Forall_lookup _ _) Hps p pr Hp) as Hok.
  destruct (proc_step_ok p l pr l' pr' Hs Hok (Ho p pr Hp)) as (Hok'&Hcr&Hl).
  pose proof (lookup_lt_Some _ _ _ Hp) as Hlt. split; simpl.
  - by apply Forall_insert.
  - intros q qr Hq. destruct (decide (p = q)) as [->|Hne].
    + rewrite list_lookup_insert_eq in Hq by done. by injection Hq as <-.
    + rewrite list_lookup_insert_ne in Hq by done. rewrite (Ho q qr Hq). naive_solver.
  - intros q Hq. apply lookup_lt_is_Some. rewrite length_insert.
    destruct (decide (p = q)) as [->|Hne]; [done|].
    apply lookup_lt_is_Some. apply Hlk. naive_solver.
Qed.

(** [n] processors, nothing locked, interrupts on. *)
Definition boot (n : nat) : machine := MkMachine None (replicate n (MkProc true [Outside])).

Lemma boot_inv n : machine_inv (boot n).
Proof.
  split; simpl; [|intros p pr [-> _]%lookup_replicate|done].
  - apply Forall_replicate. by apply proc_ok_intro.
  - split; [|done]. by intros (g&cs&E).
Qed.

Lemma reachable_inv n m : rtc machine_step (boot n) m -> machine_inv m.
Proof.
  intros Hr. assert (H : forall a b, rtc machine_step a b -> machine_inv a -> machine_inv b).
  { induction 1; eauto using machine_step_inv. }
  eapply H; [exact Hr|apply boot_inv].
Qed.

(** C22. Mutual exclusion: at any time at most one context on at most one
    processor is inside the mutex, however processors interleave and
    wherever interrupts arrive. *)
Theorem mutex_exclusive n m p q pr qr :
  rtc machine_step (boot n) m -> procs m !! p = Some pr -> procs m !! q = Some qr ->
  (exists g, Critical g ∈ contexts pr) -> (exists g, Critical g ∈ contexts qr) ->
  p = q /\ is_critical pr.
Proof.
  intros Hr%reachable_inv Hp Hq Hcp Hcq. destruct Hr as [Hps Ho _].
  assert (Htop : forall r rr, procs m !! r = Some rr -> (exists g, Critical g ∈ contexts rr) ->
            is_critical rr).
  { intros r rr Hrr [g Hg]. pose proof (proj1 (Forall_lookup _ _) Hps r rr Hrr) as [(c&cs&E&Hcs&_)].
    rewrite E in Hg. apply elem_of_cons in Hg as [<-|Hg]; [by exists g, cs|].
    rewrite Forall_forall in Hcs. by specialize (Hcs _ Hg). }
  pose proof (Htop _ _ Hp Hcp) as H1. pose proof (Htop _ _ Hq Hcq) as H2.
  split; [|done]. apply (Ho p pr Hp) in H1. apply (Ho q qr Hq) in H2. congruence.
Qed.

(** C23. No deadlock with interrupt handlers: whenever the lock is held, the
    code that holds it is the running code of its processor, with interrupts
    off, and can leave the mutex at once; so code that spins for the lock
    never waits for code that it interrupted. *)
Theorem mutex_no_self_deadlock n m p :
  rtc machine_step (boot n) m -> locked_by m = Some p ->
  exists pr g cs, procs m !! p = Some pr /\ contexts pr = Critical g :: cs /\
    enabled pr = false /\ Forall (eq Outside) cs /\
    machine_step m (MkMachine None (<[p := MkProc false (Unlocked g :: cs)]> (procs m))) /\
    forall g', ~ Spinning g' ∈ contexts pr.
Proof.
  intros Hr%reachable_inv Hl. destruct Hr as [Hps Ho Hlk].
  destruct (Hlk p Hl) as [pr Hp]. destruct (proj2 (Ho p pr Hp) Hl) as (g&cs&E).
  pose proof (proj1 (Forall_lookup _ _) Hps p pr Hp) as [(c&cs'&E'&Hcs&Hoff)].
  rewrite E in E'. injection E' as <- <-. assert (He : enabled pr = false) by (by apply Hoff).
  exists pr, g, cs. split_and!; try done.
  - destruct m as [l ps]. simpl in *. subst l. apply (some_proc _ _ _ p pr); [done|].
    destruct pr as [e cx]. simpl in *. subst. apply drop_inner.
  - intros g' Hg. rewrite E in Hg. apply elem_of_cons in Hg as [|Hg]; [done|].
    rewrite Forall_forall in Hcs. by specialize (Hcs _ Hg).
Qed.

Definition locked_once : machine :=
  MkMachine (Some 0%nat) [MkProc false [Critical (MkGuard true)]; MkProc true [Outside]].

Lemma locked_once_reachable : rtc machine_step (boot 2) locked_once.
Proof.
  apply (rtc_l _ _ (MkMachine None [MkProc false [Spinning (MkGuard true)]; MkProc true [Outside]])).
  - apply (some_proc None None (procs (boot 2)) 0 (MkProc true [Outside])
      (MkProc false [Spinning (MkGuard true)])); [reflexivity|apply (lock_disable 0 None true [])].
  - apply rtc_once.
    apply (some_proc None (Some 0%nat)
      [MkProc false [Spinning (MkGuard true)]; MkProc true [Outside]] 0
      (MkProc false [Spinning (MkGuard true)]) (MkProc false [Critical (MkGuard true)]));
      [reflexivity|apply lock_acquire].
Qed.

Lemma mutex_exclusive_witness : is_critical (MkProc false [Critical (MkGuard true)]).
Proof.
  destruct (mutex_exclusive 2 locked_once 0 0 (MkProc false [Critical (MkGuard true)])
    (MkProc false [Critical (MkGuard true)]) locked_once_reachable eq_refl eq_refl)
    as [_ Hc]; [exists (MkGuard true); set_solver|exists (MkGuard true); set_solver|exact Hc].
Defined.

Lemma mutex_no_self_deadlock_witness :
  exists pr, procs locked_once !! 0%nat = Some pr /\ enabled pr = false.
Proof.
  destruct (mutex_no_self_deadlock 2 locked_once 0 locked_once_reachable eq_refl)
    as (pr&g&cs&Hp&_&He&_). by exists pr.
Defined.

(** * [Global] *)

(** [initialized] and the contents, [None] while uninitialised. *)
Record Global (T : Type) := MkGlobal { initialized : bool; value : option T }.
Arguments MkGlobal {T}.
Arguments initialized {T}.
Arguments value {T}.

Section global.
Context {T : Type}.
Implicit Types (gl : Global T).

Definition global_new : Global T := MkGlobal false None.

(** The two actions of [try_init]: the exchange of the flag, and the write
    of the contents if it succeeded. *)
Definition claim gl : Global T * bool :=
  if initialized gl then (gl, false) else (MkGlobal true (value gl), true).

Definition fill gl (v : T) : Global T := MkGlobal (initialized gl) (Some v).

Definition try_init gl (v : T) : Global T * result T unit :=
  let '(gl, claimed) := claim gl in
  if claimed then (fill gl v, Ok v) else (gl, Err tt).

Definition init gl (v : T) : rust (Global T * T) :=
  match try_init gl v with
  | (gl, Ok v) => Ret (gl, v)
  | (_, Err _) => Panic ExpectFailed
  end.

(** [try_get] dereferences the contents when the flag is set. *)
Definition try_get gl : rust (option T) :=
  if initialized gl then v ← deref (value gl); Ret (Some v) else Ret None.

Definition global_get gl : rust T :=
  o ← try_get gl; expect o.

(** [Drop] drops the contents when the flag is set. *)
Definition global_drop gl : rust unit :=
  if initialized gl then _ ← deref (value gl); Ret tt else Ret tt.

(** What whole calls, one after the other, make of a new global. *)
Definition init_all (vs : list T) : Global T :=
  fold_left (fun gl v => (try_init gl v).1) vs global_new.

Lemma init_all_claimed v vs :
  fold_left (fun gl v => (try_init gl v).1) vs (MkGlobal true (Some v)) = MkGlobal true (Some v).
Proof. by induction vs. Qed.

(** A global is written once: after any sequence of completed
    initialisations it holds the value of the first, [get] returns that
    value, a further [init] panics and a further [try_init] fails, and
    neither reading nor dropping it touches uninitialised memory. *)
Theorem global_init_once vs v' :
  let gl := init_all vs in
  try_get gl = Ret (head vs) /\
  global_get gl = (match vs with [] => Panic ExpectFailed | v :: _ => Ret v end) /\
  (vs <> [] -> try_init gl v' = (gl, Err tt) /\ init gl v' = Panic ExpectFailed) /\
  (vs = [] -> init gl v' = Ret (MkGlobal true (Some v'), v')) /\
  global_drop gl = Ret tt.
Proof.
  unfold init_all. destruct vs as [|v vs]; simpl; [done|]. unfold try_init at 2. simpl.
  change (fill (MkGlobal true None) v) with (MkGlobal true (Some v)).
  rewrite !init_all_claimed. done.
Qed.

(** Reading a global while another processor is inside [try_init]
    is undefined behaviour: the flag is set before the contents are
    written, and between the two actions [try_get] finds it set. *)
Theorem global_init_race gl v :
  initialized gl = false -> value gl = None ->
  exists gl1, claim gl = (gl1, true) /\ try_get gl1 = Panic UndefinedBehaviour /\
    try_get (fill gl1 v) = Ret (Some v).
Proof.
  intros Hi Hv. unfold claim. rewrite Hi, Hv. by exists (MkGlobal true None).
Qed.
End global.

Lemma global_init_race_witness :
  exists gl1, claim (global_new (T := Z)) = (gl1, true) /\ try_get gl1 = Panic UndefinedBehaviour.
Proof.
  destruct (global_init_race (global_new (T := Z)) 5 eq_refl eq_refl) as (gl1&E&Hu&_).
  by exists gl1.
Defined.
