(* ===== verification/Locked.v ===== *)
(** Data behind an [InterruptSafeMutex] ([common/src/sync.rs]): any number
    of processors, and the interrupt handlers on them, lock the mutex, work
    on the data in as many actions as they need, and let it go. What they
    do is a sequence of whole operations, in the order of unlocking. *)
From S2P Require Import Prelude Sync.

Section locked.
(** [A] is the protected data. An operation [O] starts at [enter], makes
    one access to the data with each [advance], and ends with a result. *)
Context {A O L R : Type} (enter : O -> L) (advance : A -> L -> rust (A * (L + R))).

(** * Processors that share the data *)

(** The phases of [Sync] with what the code is doing in them. *)
Inductive place :=
  | Out
  | Spin (g : Guard) (o : O)
  | In (g : Guard) (o : O) (here : L + R)
  | Gone (g : Guard) (r : R).

Record processor := MkProcessor { interrupts_on : bool; places : list place }.

Record system := MkSystem {
  holder : option nat;
  data : A;
  processors : list processor;
}.

(** One action of the running code on processor [p]. *)
Inductive processor_step (p : nat) :
    option nat -> A -> processor -> option (O * R) -> option nat -> A -> processor -> Prop :=
  (** [lock]: interrupts off, then the spin lock *)
  | calls l d e cs o :
      processor_step p l d (MkProcessor e (Out :: cs)) None
                     l d (MkProcessor (disable e).1 (Spin (disable e).2 o :: cs))
  | acquires d e g o cs :
      processor_step p None d (MkProcessor e (Spin g o :: cs)) None
                     (Some p) d (MkProcessor e (In g o (inl (enter o)) :: cs))
  (** inside, through [DerefMut] *)
  | works l d d' e g o at_ at' cs :
      advance d at_ = Ret (d', at') ->
      processor_step p l d (MkProcessor e (In g o (inl at_) :: cs)) None
                     l d' (MkProcessor e (In g o at' :: cs))
  (** the guard is dropped: first the lock, then the interrupt guard *)
  | releases l d e g o r cs :
      processor_step p l d (MkProcessor e (In g o (inr r) :: cs)) (Some (o, r))
                     None d (MkProcessor e (Gone g r :: cs))
  | restores l d e g r cs :
      processor_step p l d (MkProcessor e (Gone g r :: cs)) None
                     l d (MkProcessor (drop_guard e g) (Out :: cs))
  (** interrupts, and their handlers' returns *)
  | is_interrupted l d cs e :
      processor_step p l d (MkProcessor true cs) None l d (MkProcessor e (Out :: cs))
  | returns l d e c cs :
      processor_step p l d (MkProcessor e (Out :: c :: cs)) None l d (MkProcessor true (c :: cs)).

Inductive system_step : system -> option (O * R) -> system -> Prop :=
  | processor_acts l d l' d' ps p pr e pr' :
      ps !! p = Some pr -> processor_step p l d pr e l' d' pr' ->
      system_step (MkSystem l d ps) e (MkSystem l' d' (<[p := pr']> ps)).

(** Executions, with the operations in the order in which they unlock. *)
Inductive system_run (m : system) : list (O * R) -> system -> Prop :=
  | run_start : system_run m [] m
  | run_step es m1 e m2 :
      system_run m es m1 -> system_step m1 e m2 -> system_run m (es ++ option_list e) m2.

Lemma run_silently m es m1 m2 : system_run m es m1 -> system_step m1 None m2 -> system_run m es m2.
Proof. intros Hr Hs. pose proof (run_step _ _ _ _ _ Hr Hs) as H. by rewrite app_nil_r in H. Qed.

Lemma run_event m es m1 o r m2 :
  system_run m es m1 -> system_step m1 (Some (o, r)) m2 -> system_run m (es ++ [(o, r)]) m2.
Proof. apply run_step. Qed.

(** [n] processors outside, with interrupts on. *)
Definition unlocked (n : nat) (a : A) : system :=
  MkSystem None a (replicate n (MkProcessor true [Out])).

(** * Whole operations *)

(** An operation, undisturbed, from its start to where it is. *)
Inductive progress (a : A) (l : L) : A -> L + R -> Prop :=
  | progress_start : progress a l a (inl l)
  | progress_step a1 l1 a2 at' :
      progress a l a1 (inl l1) -> advance a1 l1 = Ret (a2, at') -> progress a l a2 at'.

Definition whole (a : A) (o : O) (a' : A) (r : R) : Prop := progress a (enter o) a' (inr r).

(** Whole operations, one after the other. *)
Inductive sequence (a : A) : list (O * R) -> A -> Prop :=
  | sequence_nil : sequence a [] a
  | sequence_snoc es a1 o r a2 :
      sequence a es a1 -> whole a1 o a2 r -> sequence a (es ++ [(o, r)]) a2.

(** * The machine of [Sync] underneath *)

Definition phase_of (c : place) : phase :=
  match c with
  | Out => Outside
  | Spin g _ => Spinning g
  | In g _ _ => Critical g
  | Gone g _ => Unlocked g
  end.

Definition proc_of (pr : processor) : proc := MkProc (interrupts_on pr) (phase_of <$> places pr).
Definition machine_of (m : system) : machine := MkMachine (holder m) (proc_of <$> processors m).

Lemma processor_step_proc p l d pr e l' d' pr' :
  processor_step p l d pr e l' d' pr' ->
  proc_step p l (proc_of pr) l' (proc_of pr') \/ (l' = l /\ proc_of pr' = proc_of pr).
Proof.
  destruct 1; first [right; by split|left]; unfold proc_of; simpl; by econstructor.
Qed.

Lemma system_step_machine m e m' : system_step m e m' -> machine_inv (machine_of m) -> machine_inv (machine_of m').
Proof.
  intros [l d l' d' ps p pr ev pr' Hp Hs] Hi. unfold machine_of in *. simpl in *.
  rewrite list_fmap_insert. destruct (processor_step_proc _ _ _ _ _ _ _ _ Hs) as [Hs'|[-> E]].
  - eapply machine_step_inv; [|exact Hi]. econstructor; [|exact Hs'].
    by rewrite list_lookup_fmap, Hp.
  - rewrite E, list_insert_id; [done|]. by rewrite list_lookup_fmap, Hp.
Qed.

(** The data is what the completed operations have made of it, or one
    operation is on the way. *)
Definition data_ok (a : A) (es : list (O * R)) (m : system) : Prop :=
  match holder m with
  | None => sequence a es (data m)
  | Some p => exists a1 e g o at_ cs,
      processors m !! p = Some (MkProcessor e (In g o at_ :: cs)) /\
      sequence a es a1 /\ progress a1 (enter o) (data m) at_
  end.

Lemma in_critical e g o at_ cs : is_critical (proc_of (MkProcessor e (In g o at_ :: cs))).
Proof. by exists g, (phase_of <$> cs). Qed.

Lemma others_data a es l d d' ps p pr pr' :
  data_ok a es (MkSystem l d ps) -> ps !! p = Some pr -> l <> Some p -> d' = d ->
  data_ok a es (MkSystem l d' (<[p := pr']> ps)).
Proof.
  unfold data_ok. simpl. intros Hd Hp Hl ->. destruct l as [q|]; [|done].
  destruct Hd as (a1&e&g&o&at_&cs&Hq&?). exists a1, e, g, o, at_, cs.
  by rewrite list_lookup_insert_ne by congruence.
Qed.

Lemma data_step a es m e m' :
  machine_inv (machine_of m) -> system_step m e m' -> data_ok a es m ->
  data_ok a (es ++ option_list e) m'.
Proof.
  intros Hi Hs Hd. destruct Hs as [l d l' d' ps p pr ev pr' Hp Hs].
  assert (Hpm : procs (machine_of (MkSystem l d ps)) !! p = Some (proc_of pr)).
  { simpl. by rewrite list_lookup_fmap, Hp. }
  pose proof (mi_owner _ Hi _ _ Hpm) as Ho. simpl in Ho.
  assert (Hout : forall c cs, phase_of <$> places pr = c :: cs -> (forall g, c <> Critical g) -> l <> Some p).
  { intros c cs E Hc Hl. apply Ho in Hl as (g&cs'&E'). simpl in E'. rewrite E in E'.
    injection E' as -> _. by apply (Hc g). }
  pose proof (lookup_lt_Some _ _ _ Hp) as Hlt.
  destruct Hs as [l d e cs o|d e g o cs|l d d' e g o at_ at' cs Ha|l d e g o r cs|l d e g r cs|l d cs e|l d e c cs];
    simpl; rewrite ?app_nil_r.
  - eapply others_data; [exact Hd|exact Hp| |done]. by eapply Hout.
  - unfold data_ok in *. simpl in *. exists d, e, g, o, (inl (enter o)), cs.
    rewrite list_lookup_insert_eq by done. split; [done|]. split; [done|constructor].
  - assert (l = Some p) as -> by (apply Ho, in_critical). unfold data_ok in *. simpl in *.
    destruct Hd as (a1&e'&g'&o'&at_'&cs'&Hp'&Hseq&Hprog). simplify_eq.
    exists a1. do 5 eexists. rewrite list_lookup_insert_eq by done.
    split; [done|]. split; [done|]. by econstructor.
  - assert (l = Some p) as -> by (apply Ho, in_critical). unfold data_ok in *. simpl in *.
    destruct Hd as (a1&e'&g'&o'&at_'&cs'&Hp'&Hseq&Hprog). simplify_eq. by econstructor.
  - eapply others_data; [exact Hd|exact Hp| |done]. by eapply Hout.
  - eapply others_data; [exact Hd|exact Hp| |done]. intros ->.
    destruct (proj2 Ho eq_refl) as (g&cs'&E). simpl in E.
    pose proof (proj1 (Forall_lookup _ _) (mi_procs _ Hi) _ _ Hpm) as [(c&cs2&E2&_&Hoff)].
    simpl in E2, Hoff. rewrite E in E2. injection E2 as <- _. by discriminate Hoff.
  - eapply others_data; [exact Hd|exact Hp| |done]. by eapply Hout.
Qed.

Lemma unlocked_machine n a : machine_inv (machine_of (unlocked n a)).
Proof.
  unfold machine_of, unlocked. simpl. rewrite fmap_replicate. apply boot_inv.
Qed.

Lemma run_inv n a es m :
  system_run (unlocked n a) es m -> machine_inv (machine_of m) /\ data_ok a es m.
Proof.
  induction 1 as [|es m1 e m2 _ [Hi Hd] Hs].
  - split; [apply unlocked_machine|constructor].
  - split; [by eapply system_step_machine|by eapply data_step].
Qed.

(** The operations on the data are atomic: however the processors and
    their interrupt handlers interleave, and however many accesses an
    operation makes, the completed operations with their results are a
    sequence of whole operations from the initial data, and the data is
    what that sequence leaves whenever the mutex is free. *)
Lemma locked_operations_atomic n a es m :
  system_run (unlocked n a) es m ->
  exists a', sequence a es a' /\ (holder m = None -> data m = a').
Proof.
  intros Hr. destruct (run_inv _ _ _ _ Hr) as [_ Hd]. unfold data_ok in Hd.
  destruct (holder m) as [p|]; [|by exists (data m)].
  destruct Hd as (a1&_&_&_&_&_&_&Hs&_). by exists a1.
Qed.
End locked.
