(* ===== verification/SharedAllocator.v ===== *)
(** The allocator as the kernel uses it: [Allocator]
    ([kernel/src/mm/root_allocator.rs]) behind its mutex, called by all
    processors and their interrupt handlers, and [test_alloc]
    ([kernel/src/main.rs]). *)
From S2P Require Import Prelude Address IntrusiveList RootAllocator Blocks RootAllocatorLinks.
From S2P Require Import RootAllocatorSpec RootAllocatorDisplay Sync Locked.

(** * Calls under the lock *)

Section calls.
Context `{Profile}.
Implicit Types (s : AllocatorInner) (r : PageFrameRange) (live : list PageFrameRange).

(** The methods of [Allocator]; each takes the lock and calls the method of
    [AllocatorInner] with the same name. *)
Inductive allocator_call :=
  | Allocate (count : Z)
  | Deallocate (r : PageFrameRange)
  | DumpState.

Inductive allocator_reply :=
  | AllocateReply (res : result PageFrameRange Error)
  | DeallocateReply (res : result unit Error)
  | Dumped (state : string).

Definition call_inner s (c : allocator_call) : rust (AllocatorInner * allocator_reply) :=
  match c with
  | Allocate count => '(s, res) ← RootAllocator.allocate s count; Ret (s, AllocateReply res)
  | Deallocate r => '(s, res) ← deallocate s r; Ret (s, DeallocateReply res)
  | DumpState => state ← display_state s; Ret (s, Dumped ("Allocator state:" +:+ state))
  end.

(** How the code of these methods reaches the allocator while it has the
    lock: some accesses, one after the other, that amount to the call. *)
Class Accesses := {
  position : Type;
  enter : allocator_call -> position;
  advance : AllocatorInner -> position -> rust (AllocatorInner * (position + allocator_reply));
  accesses_law s c s' reply :
    whole enter advance s c s' reply -> call_inner s c = Ret (s', reply);
}.

(** The ranges that clients have been given and have not given back. *)
Definition outstanding_after live (e : allocator_call * allocator_reply) : list PageFrameRange :=
  match e with
  | (_, AllocateReply (Ok r)) => r :: live
  | (Deallocate r, DeallocateReply (Ok _)) => give_back r live
  | _ => live
  end.

Definition outstanding (es : list (allocator_call * allocator_reply)) : list PageFrameRange :=
  fold_left outstanding_after es [].

(** Page counts are [usize]. *)
Definition call_ok (c : allocator_call) : Prop :=
  match c with Allocate count => is_usize count | _ => True end.

Lemma call_inner_step s c s' reply live :
  call_ok c -> call_inner s c = Ret (s', reply) ->
  rtc step (s, live) (s', outstanding_after live (c, reply)).
Proof.
  intros Hc E. destruct c as [n|r|]; simpl in E.
  - rust_inv E. destruct x as [s1 [r|e]]; simplify_eq; apply rtc_once; by econstructor.
  - rust_inv E. destruct x as [s1 [[]|e]]; simplify_eq; apply rtc_once; by econstructor.
  - rust_inv E. simplify_eq. apply rtc_refl.
Qed.

(** * Many processors, one allocator *)

Context {accesses : Accesses}.

Abbreviation allocator_system := (system (A := AllocatorInner) (O := allocator_call)
  (L := position) (R := allocator_reply)).

Lemma sequence_steps s es s' :
  Forall (fun e => call_ok e.1) es -> sequence enter advance s es s' ->
  rtc step (s, []) (s', outstanding es).
Proof.
  intros Hes Hseq. induction Hseq as [|es s1 c reply s2 _ IH Hw]; [apply rtc_refl|].
  apply Forall_app in Hes as [Hes Hc]. apply Forall_cons in Hc as [Hc _].
  unfold outstanding. rewrite fold_left_app. simpl. etrans; [by apply IH|].
  apply call_inner_step; [done|]. by apply accesses_law.
Qed.

(** C5. The allocator is shared safely: any number of processors, each with
    its interrupt handlers, allocate and free at the same time, and however
    their accesses interleave, no page is in two ranges that are out, a page
    is marked allocated exactly when a range that is out contains it, the
    allocator is well formed whenever nobody is working on it, and no page
    gets lost. *)
Theorem shared_allocator_safe n s es (m : allocator_system) :
  client_inv (s, []) -> Forall (fun e => call_ok e.1) es ->
  system_run enter advance (unlocked n s) es m ->
  (forall pg, (length (holders pg (outstanding es)) <= 1)%nat) /\
  (holder m = None ->
     inv (data m) /\
     (forall pg, status_of (data m) pg = Some Allocated <-> exists r, r ∈ outstanding es /\ in_range pg r) /\
     managed_pages (data m) = managed_pages s).
Proof.
  intros Hc Hes Hr. destruct (locked_operations_atomic _ _ _ _ _ _ Hr) as (s'&Hseq&Hd).
  destruct (steps_client_inv _ _ (sequence_steps _ _ _ Hes Hseq) Hc) as ([Hi Hl]&_&Hm). simpl in *.
  split.
  - intros pg. unfold holders. rewrite Hl. eapply holders_at_most_one, Hi.
  - intros Hn. rewrite (Hd Hn). split_and!; [done| |done].
    intros pg. rewrite allocated_page by done. by setoid_rewrite Hl.
Qed.

(** * [test_inline] and [test_alloc] *)

Definition test_inline : rust unit := Panic PanicCalled.

Definition test_alloc s : rust AllocatorInner :=
  '(s, small_allocation) ← RootAllocator.allocate s 4;
  _ ← unwrap small_allocation;
  '(s, big_allocation) ← RootAllocator.allocate s 1000;
  big_allocation ← unwrap big_allocation;
  _ ← display_state s;
  '(s, freed) ← deallocate s big_allocation;
  _ ← unwrap freed;
  '(s, again) ← deallocate s big_allocation;
  _ ← rassert (is_err again);
  _ ← display_state s;
  Ret s.

(** Which allocation of [test_alloc] cannot be made, in the state [s1]. *)
Definition no_allocation s s1 (n : Z) : Prop :=
  (n = 4 /\ s1 = s \/ n = 1000 /\ exists r, RootAllocator.allocate s 4 = Ret (s1, Ok r)) /\
  ((forall b, b ∈ view s1 -> status b = Free -> block_size b < n) \/ ~ spare_run s1).

Lemma allocate_or_not s n :
  inv s -> 0 <= n ->
  (exists s' r, RootAllocator.allocate s n = Ret (s', Ok r) /\ inv s' /\ size r = n /\
     (forall pg, in_range pg r -> status_of s pg = Some Free) /\
     (forall pg, status_of s' pg = if decide (in_range pg r) then Some Allocated else status_of s pg) /\
     exists b, b ∈ view s' /\ range b = r /\ status b = Allocated) \/
  (((exists e, RootAllocator.allocate s n = Ret (s, Err e)) \/
    exists w, RootAllocator.allocate s n = Panic w) /\
   ((forall b, b ∈ view s -> status b = Free -> block_size b < n) \/ ~ spare_run s)).
Proof.
  intros Hi Hn. destruct (allocate_total s n Hi Hn) as [l b k p s' Ev Hb Hsz Hp Hfit Hl' _|Hno|b w ? ? ? Hs ?].
  - left. destruct (carved_pages s l b k n s' Hi Ev Hb Hsz Hl') as (?&?&?).
    exists s', (range (taken b n)). split_and!; try done. rewrite (linked_view _ _ Hl'). unfold carve.
    case_decide as En; [|exists (taken b n); set_solver].
    exists (MkRunState (range b) Allocated). subst n. rewrite taken_whole by done. set_solver.
  - right. split; [left; by eexists|]. left. by rewrite Forall_forall in Hno.
  - right. split; [right; by eexists|by right].
Qed.

(** C20. [test_alloc] on a well-formed allocator: it fails only where one of
    its two allocations cannot be made; the ranges it gets have four and a
    thousand free pages, giving the second one back always succeeds, giving
    it back again is always refused, and in the end exactly the four pages
    of the first are allocated that were free before. *)
Theorem test_alloc_spec s :
  inv s ->
  match test_alloc s with
  | Ret s' => inv s' /\ exists r, size r = 4 /\
      (forall pg, in_range pg r -> status_of s pg = Some Free) /\
      (forall pg, status_of s' pg = if decide (in_range pg r) then Some Allocated else status_of s pg)
  | Panic _ => exists s1 n, no_allocation s s1 n
  end.
Proof.
  intros Hi. unfold test_alloc.
  destruct (allocate_or_not s 4 Hi ltac:(lia)) as [(s1&r&E1&Hi1&Hr&Hf&Hst&_)|[He Hno]]; cycle 1.
  { assert (Hx : exists s1 n, no_allocation s s1 n) by (exists s, 4; split; [by left|done]).
    by destruct He as [[e ->]|[w ->]]. }
  rewrite E1. cbn [mbind rust_bind unwrap].
  destruct (allocate_or_not s1 1000 Hi1 ltac:(lia)) as [(s2&q&E2&Hi2&Hq&Hf2&Hst2&b&Hb&Hbr&Hba)|[He Hno]]; cycle 1.
  { assert (Hx : exists s1 n, no_allocation s s1 n)
      by (exists s1, 1000; split; [right; split; [done|by exists r]|done]).
    by destruct He as [[e ->]|[w ->]]. }
  rewrite E2. cbn [mbind rust_bind unwrap]. destruct (display_state_total s2 Hi2) as [t2 ->].
  cbn [mbind rust_bind].
  assert (Hpq : in_range (lo q) q) by (unfold in_range, hi; lia).
  assert (Hq0 : 0 < size q) by lia.
  assert (Hrun : ~ Forall (fun b => range b <> q) (view s2))
    by (rewrite Forall_forall; intros Hn; by apply (Hn b Hb)).
  clear b Hb Hbr Hba.
  destruct (deallocate s2 q) as [[s3 [[]|e]]|w] eqn:E3; pose proof (deallocate_total s2 q Hi2) as Hd;
    rewrite E3 in Hd; inversion Hd as [l c k s3' Ev Hc Hca Hfst Hl' Hp|l c k Ev Hc Hca Hfst|Hno]; subst; [| |done].
  - destruct (freed_pages s2 l c k s3 Hi2 Ev Hca Hl') as [Hi3 Hst3]. cbn [mbind rust_bind unwrap].
    destruct (double_free_refused _ _ _ Hi2 Hq0 E3) as [e ->].
    cbn [mbind rust_bind is_err rassert]. destruct (display_state_total s3 Hi3) as [t3 ->].
    cbn [mbind rust_bind]. split; [done|]. exists r. split_and!; try done.
    intros pg. rewrite Hst3, Hst2. destruct (decide (in_range pg (range c))) as [Hc|Hc]; [|apply Hst].
    symmetry. rewrite <-Hst. by apply Hf2.
  - exfalso. apply Hca. pose proof (inv_page_status _ l c k (lo (range c)) Hi2 Ev Hpq) as Hpg.
    rewrite Hst2, decide_True in Hpg by done. by injection Hpg.
Qed.
End calls.

(** * Witnesses *)

Section witnesses.
#[local] Existing Instance dev_profile.

(** Every call as one access, after a look at the allocator. *)
Definition advance_whole (s : AllocatorInner) (p : bool * allocator_call)
    : rust (AllocatorInner * (bool * allocator_call + allocator_reply)) :=
  if p.1 then Ret (s, inl (false, p.2))
  else '(s, reply) ← call_inner s p.2; Ret (s, inr reply).

Lemma advance_whole_start (s s' : AllocatorInner) (p : bool * allocator_call) b c :
  progress advance_whole s p s' (inl (b, c)) -> s' = s /\ c = p.2.
Proof.
  intros Hp. remember (inl (b, c)) as at_ eqn:E. revert b c E.
  induction Hp as [|s1 [b1 c1] s2 at' _ IH Ha]; intros b c E; [by injection E as ->|].
  subst at'. unfold advance_whole in Ha. simpl in Ha. destruct (IH _ _ eq_refl) as [-> ->].
  destruct b1; [by simplify_eq|]. rust_inv Ha. by destruct x.
Qed.

#[local] Instance whole_accesses : Accesses.
Proof.
  refine {| position := bool * allocator_call; enter := fun c => (true, c);
            advance := advance_whole |}.
  intros s c s' reply Hw. unfold whole in Hw. remember (inr reply) as at_ eqn:E.
  destruct Hw as [|s1 [b c1] s2 at' Hp Ha]; [done|]. subst at'.
  destruct (advance_whole_start _ _ _ _ _ Hp) as [-> ->]. unfold advance_whole in Ha. simpl in Ha.
  destruct b; [done|]. rust_inv Ha. destruct x as [s3 reply']. by simplify_eq.
Defined.

(** Two processors want three pages each; the second has to wait. *)
Definition first_reply : list (allocator_call * allocator_reply) :=
  [(Allocate 3, AllocateReply (Ok (MkAddressRange (MkPageFrame 2) 3)))].

Lemma first_reply_run :
  exists m, system_run enter advance (unlocked 2 small_state) first_reply m /\ holder m = None.
Proof.
  eexists. split.
  - unfold first_reply. eapply (run_event _ _ _ []).
    + eapply run_silently; [eapply run_silently; [eapply run_silently; [eapply run_silently;
        [eapply run_silently; [apply run_start|]|]|]|]|].
      * eapply (processor_acts _ _ _ _ _ _ _ 0); [reflexivity|apply (calls _ _ _ _ _ _ _ (Allocate 3))].
      * eapply (processor_acts _ _ _ _ _ _ _ 1); [reflexivity|apply (calls _ _ _ _ _ _ _ (Allocate 3))].
      * eapply (processor_acts _ _ _ _ _ _ _ 0); [reflexivity|apply acquires].
      * eapply (processor_acts _ _ _ _ _ _ _ 0); [reflexivity|apply works; reflexivity].
      * eapply (processor_acts _ _ _ _ _ _ _ 0); [reflexivity|apply works; vm_compute; reflexivity].
    + eapply (processor_acts _ _ _ _ _ _ _ 0); [reflexivity|apply releases].
  - reflexivity.
Qed.

Lemma shared_allocator_safe_witness :
  exists m : system (A := AllocatorInner) (O := allocator_call) (L := position) (R := allocator_reply),
    inv (data m) /\ forall pg, (length (holders pg (outstanding first_reply)) <= 1)%nat.
Proof.
  destruct first_reply_run as (m&Hr&Hn). exists m.
  assert (Hes : Forall (fun e => call_ok e.1) first_reply).
  { apply Forall_singleton. simpl. unfold is_usize, usize_bound. lia. }
  destruct (shared_allocator_safe 2 small_state first_reply m small_client_inv Hes Hr) as [Hp Hi].
  split; [apply (Hi Hn)|exact Hp].
Defined.

(** An allocator with two thousand free pages. *)
Definition roomy_state : AllocatorInner :=
  MkAllocatorInner
    {[ 0 := block 0 2 Tracking; 64 := block 2 2000 Free;
       128 := MkRunState empty Unused; 192 := MkRunState empty Unused ]}
    [0; 64] [64] [128; 192].

Lemma roomy_state_inv : inv roomy_state.
Proof.
  apply (inv_intro _ [block 0 2 Tracking; block 2 2000 Free]).
  - split.
    + by repeat constructor.
    + repeat constructor; by eexists.
    + apply (bool_decide_unpack _). by vm_compute.
    + apply (bool_decide_unpack _). by vm_compute.
    + intros p. simpl. rewrite list_elem_of_singleton. split.
      * intros ->. split; [set_solver|]. by eexists.
      * intros [[->|[->|[]%elem_of_nil]%elem_of_cons]%elem_of_cons (b&Hb&Hs)]; [|done].
        vm_compute in Hb. injection Hb as <-. discriminate Hs.
  - by vm_compute.
  - simpl. split; [|done]. intros [[Hs _] _]. discriminate Hs.
Qed.

Lemma test_alloc_spec_witness : exists s', test_alloc roomy_state = Ret s' /\ inv s'.
Proof.
  pose proof (test_alloc_spec roomy_state roomy_state_inv) as Hs.
  destruct (test_alloc roomy_state) as [s'|w] eqn:E; [|vm_compute in E; discriminate E].
  exists s'. split; [reflexivity|apply Hs].
Defined.
End witnesses.
