(* ===== verification/Proto.v ===== *)
(** The trace protocol ([ktrace/proto/src/lib.rs], [fields.rs]): messages,
    levels, the schema of known fields, the visitor that serialises recorded
    values under that schema, and the visitor that reads them back. The
    serialisation format (serde's [SerializeMap] and [MapAccess] of postcard)
    is a third-party interface and appears as two classes. *)
From Stdlib Require Import Ascii.
From S2P Require Import Prelude.

(** * Messages *)

(** [START_OF_OUTPUT]. *)
Definition START_OF_OUTPUT : list Z := [255; 0; 255; 0].

Abbreviation SpanId := Z (only parsing).
Abbreviation ProcessorId := Z (only parsing).

Inductive Parent :=
  | Root
  | Current (processor : ProcessorId)
  | Explicit (id : SpanId).

Inductive Level := LError | LWarn | LInfo | LDebug | LTrace.

#[export] Instance Parent_eq_dec : EqDecision Parent.
Proof. solve_decision. Defined.
#[export] Instance Level_eq_dec : EqDecision Level.
Proof. solve_decision. Defined.

Record Metadata := MkMetadata {
  name : string;
  target : string;
  level : Level;
  file : option string;
  line : option Z;
}.

#[export] Instance Metadata_eq_dec : EqDecision Metadata.
Proof. solve_decision. Defined.

Record SpanCreated (A : Type) := MkSpanCreated {
  created_id : SpanId;
  created_parent : Parent;
  created_metadata : Metadata;
  created_fields : A;
}.
Arguments MkSpanCreated {A}.
Arguments created_id {A}.
Arguments created_parent {A}.
Arguments created_metadata {A}.
Arguments created_fields {A}.

Record Event (E : Type) := MkEvent {
  event_span : Parent;
  event_metadata : Metadata;
  event_fields : E;
}.
Arguments MkEvent {E}.
Arguments event_span {E}.
Arguments event_metadata {E}.
Arguments event_fields {E}.

Inductive Message (E A : Type) :=
  | MSpanCreated (span : SpanCreated A)
  | MEvent (event : Event E)
  | MSpanEntered (id : SpanId) (processor : ProcessorId)
  | MSpanExited (id : SpanId) (processor : ProcessorId)
  | MSpanClosed (id : SpanId).
Arguments MSpanCreated {E A}.
Arguments MEvent {E A}.
Arguments MSpanEntered {E A}.
Arguments MSpanExited {E A}.
Arguments MSpanClosed {E A}.

(** The levels of the tracing crate and the conversion from them. *)
Inductive tracing_Level := ERROR | WARN | INFO | DEBUG | TRACE.

Definition Level_from (t : tracing_Level) : Level :=
  match t with
  | ERROR => LError | WARN => LWarn | INFO => LInfo | DEBUG => LDebug | TRACE => LTrace
  end.

Definition display_Level (l : Level) : string :=
  match l with
  | LError => "ERROR" | LWarn => "WARN" | LInfo => "INFO" | LDebug => "DEBUG" | LTrace => "TRACE"
  end.

(** What the tracing crate knows about a callsite, and
    [Metadata::from_tracing]. *)
Record tracing_Metadata := MkTracingMetadata {
  t_name : string;
  t_target : string;
  t_level : tracing_Level;
  t_file : option string;
  t_line : option Z;
}.

Definition from_tracing (m : tracing_Metadata) : Metadata :=
  MkMetadata (t_name m) (t_target m) (Level_from (t_level m)) (t_file m) (t_line m).

(** * The schema *)

Inductive FieldType :=
  | TKernelAddress | TPhysicalAddress | TVirtualAddress | TString | TU64.

#[export] Instance FieldType_eq_dec : EqDecision FieldType.
Proof. solve_decision. Defined.

(** [Value]: a field on the reading side. *)
Inductive Value :=
  | KernelAddress (x : Z)
  | PhysicalAddress (x : Z)
  | VirtualAddress (x : Z)
  | VString (s : string)
  | U64 (x : Z).

#[export] Instance Value_eq_dec : EqDecision Value.
Proof. solve_decision. Defined.

Definition TYPES : gmap string FieldType :=
  {[ "at" := TKernelAddress; "message" := TString; "count" := TU64; "size" := TU64;
     "vaddr" := TVirtualAddress; "paddr" := TPhysicalAddress; "range" := TString ]}%string.

(** ** Writing *)

(** What reaches the serialiser for one value: a [u64], or a string (a [str]
    or the rendering of a [Debug] value, which [collect_str] writes as a
    string too). *)
Inductive scalar := SU64 (x : Z) | SStr (s : string).

(** serde's [SerializeMap]: [serialize_entry] continues with a new state,
    [custom] makes an error of a message. *)
Class SerializeMap (S O E : Type) := {
  serialize_map : option Z -> result S E;
  serialize_entry : S -> string -> scalar -> result S E;
  end_map : S -> result O E;
  ser_custom : string -> E;
}.

Definition display_FieldType (t : FieldType) : string :=
  match t with
  | TKernelAddress => "KernelAddress"
  | TPhysicalAddress => "PhysicalAddress"
  | TVirtualAddress => "VirtualAddress"
  | TString => "String"
  | TU64 => "U64"
  end.

(** A recorded value, by the [Visit] method that receives it. *)
Inductive recorded :=
  | RU64 (x : Z)
  | RStr (s : string)
  | RDebug (rendered : string)
  | RF64
  | RI64 (x : Z)
  | RI128 (x : Z)
  | RU128 (x : Z)
  | RBool (b : bool).

(** The fields of an event that have a value, which are those visited. *)
Definition visited (fields : list (string * option recorded)) : list (string * recorded) :=
  omap (fun f => (fun x => (f.1, x)) <$> f.2) fields.

Section writing.
Context {S O E : Type} `{SerializeMap S O E}.

Definition write_u64 (t : FieldType) (n : string) (v : Z) (s : S) : result S E :=
  match t with
  | TKernelAddress | TU64 | TPhysicalAddress | TVirtualAddress => serialize_entry s n (SU64 v)
  | other => Err (ser_custom (n +:+ " value must be a " +:+ display_FieldType other
                               +:+ ", got u64")%string)
  end.

Definition write_str (t : FieldType) (n : string) (v : string) (s : S) : result S E :=
  match t with
  | TString => serialize_entry s n (SStr v)
  | other => Err (ser_custom (n +:+ " value must be a " +:+ display_FieldType other
                               +:+ ", got str")%string)
  end.

Definition write_debug (t : FieldType) (n : string) (rendered : string) (s : S) : result S E :=
  match t with
  | TString => serialize_entry s n (SStr rendered)
  | other => Err (ser_custom (n +:+ " value must be a " +:+ display_FieldType other
                               +:+ ", got str")%string)
  end.

(** [FieldVisitor]: after the first error nothing more is written. The
    serialiser's state is only used while [state] is [Ok]. *)
Record FieldVisitor := MkFieldVisitor { state : result unit E; serializer : S }.

Definition visitor_new (s : S) : FieldVisitor := MkFieldVisitor (Ok tt) s.

Definition finish (v : FieldVisitor) : result O E :=
  match state v with
  | Ok _ => end_map (serializer v)
  | Err e => Err e
  end.

Definition store (v : FieldVisitor) (r : result S E) : FieldVisitor :=
  match r with
  | Ok s => MkFieldVisitor (Ok tt) s
  | Err e => MkFieldVisitor (Err e) (serializer v)
  end.

Definition record_message (v : FieldVisitor) (rendered : string) : FieldVisitor :=
  match state v with
  | Ok _ => store v (write_debug TString "message" rendered (serializer v))
  | Err _ => v
  end.

(** One field: the methods of [impl Visit for FieldVisitor]. *)
Definition record_field (v : FieldVisitor) (n : string) (x : recorded) : rust FieldVisitor :=
  let known (write : FieldType -> result S E) :=
    match state v with
    | Ok _ =>
        match TYPES !! n with
        | Some ty => Ret (store v (write ty))
        | None => Panic ExpectFailed
        end
    | Err _ => Ret v
    end in
  match x with
  | RU64 z => known (fun ty => write_u64 ty n z (serializer v))
  | RStr t => known (fun ty => write_str ty n t (serializer v))
  | RDebug t => known (fun ty => write_debug ty n t (serializer v))
  | RF64 | RI64 _ | RI128 _ | RU128 _ | RBool _ => Panic ExpectFailed
  end.

Fixpoint record_all (v : FieldVisitor) (fs : list (string * recorded)) : rust FieldVisitor :=
  match fs with
  | [] => Ret v
  | (n, x) :: fs => v ← record_field v n x; record_all v fs
  end.

(** [serialize_fields], with the length that the caller announces and the
    fields that the record call visits. *)
Definition serialize_fields (len : Z) (fs : list (string * recorded)) : rust (result O E) :=
  match serialize_map (Some len) with
  | Err e => Ret (Err e)
  | Ok map => v ← record_all (visitor_new map) fs; Ret (finish v)
  end.

(** A span's attributes announce the values that are visited; an event
    announces all fields of its callsite, whether or not they have a
    value. *)
Definition serialize_attributes (fs : list (string * recorded)) : rust (result O E) :=
  serialize_fields (Z.of_nat (length fs)) fs.

Definition serialize_event (fields : list (string * option recorded)) : rust (result O E) :=
  serialize_fields (Z.of_nat (length fields)) (visited fields).

(** [InternalEvent]. *)
Definition serialize_internal (rendered : string) : result O E :=
  match serialize_map (Some 1) with
  | Err e => Err e
  | Ok map => finish (record_message (visitor_new map) rendered)
  end.
End writing.

(** ** Reading *)

(** serde's [MapAccess] (with the values already typed by the call). *)
Class MapAccess (M E : Type) := {
  next_key : M -> result (option (string * M)) E;
  next_u64 : M -> result (Z * M) E;
  next_str : M -> result (string * M) E;
  de_custom : string -> E;
}.

Section reading.
Context {M E : Type} `{MapAccess M E}.

Definition read_value (t : FieldType) (m : M) : result (Value * M) E :=
  let number (c : Z -> Value) :=
    match next_u64 m with Ok (x, m) => Ok (c x, m) | Err e => Err e end in
  match t with
  | TKernelAddress => number KernelAddress
  | TU64 => number U64
  | TPhysicalAddress => number PhysicalAddress
  | TVirtualAddress => number VirtualAddress
  | TString => match next_str m with Ok (s, m) => Ok (VString s, m) | Err e => Err e end
  end.

(** [FieldsVisitor::visit_map]: one iteration per key; [None] when the
    fuel runs out. *)
Fixpoint visit_map (fuel : nat) (m : M) (fields : list (string * Value))
    : option (result (list (string * Value)) E) :=
  match fuel with
  | O => None
  | S fuel =>
      match next_key m with
      | Err e => Some (Err e)
      | Ok None => Some (Ok fields)
      | Ok (Some (field, m)) =>
          match TYPES !! field with
          | None => Some (Err (de_custom ("unknown field " +:+ field)%string))
          | Some ty =>
              match read_value ty m with
              | Err e => Some (Err e)
              | Ok (value, m) => visit_map fuel m (fields ++ [(field, value)])
              end
          end
      end
  end.
End reading.

(** ** The schema's meaning *)

(** The value that a field of a type reads back as, if its type fits. *)
Definition typed (t : FieldType) (x : recorded) : option (scalar * Value) :=
  match t, x with
  | TKernelAddress, RU64 z => Some (SU64 z, KernelAddress z)
  | TPhysicalAddress, RU64 z => Some (SU64 z, PhysicalAddress z)
  | TVirtualAddress, RU64 z => Some (SU64 z, VirtualAddress z)
  | TU64, RU64 z => Some (SU64 z, U64 z)
  | TString, RStr s => Some (SStr s, VString s)
  | TString, RDebug s => Some (SStr s, VString s)
  | _, _ => None
  end.

(** The entry that is written for a field and the value that it stands for. *)
Definition field_entry (f : string * recorded) : option ((string * scalar) * (string * Value)) :=
  t ← TYPES !! f.1;
  p ← typed t f.2;
  Some ((f.1, p.1), (f.1, p.2)).

Lemma visited_cons n o fields :
  visited ((n, o) :: fields) =
  match o with Some x => (n, x) :: visited fields | None => visited fields end.
Proof. by destruct o. Qed.

Lemma visited_le fields : (length (visited fields) <= length fields)%nat.
Proof.
  induction fields as [|[n [x|]] l IH]; [done|..]; rewrite visited_cons; cbn [length]; lia.
Qed.

Lemma visited_all fields :
  Forall (fun f => is_Some f.2) fields -> length (visited fields) = length fields.
Proof.
  induction 1 as [|[n [x|]] l [y Hy] _ IH]; [done| |discriminate Hy].
  rewrite visited_cons. cbn [length]. by rewrite IH.
Qed.

Lemma visited_fewer fields :
  ~ Forall (fun f => is_Some f.2) fields -> (length (visited fields) < length fields)%nat.
Proof.
  induction fields as [|[n [x|]] l IH]; intros Hn; [by destruct Hn|..]; rewrite visited_cons;
    cbn [length].
  - assert (Hl : ~ Forall (fun f : string * option recorded => is_Some f.2) l).
    { intros Hl. apply Hn. constructor; [by eexists|done]. }
    specialize (IH Hl). lia.
  - pose proof (visited_le l). lia.
Qed.

(** * The wire format's contract *)

(** What reading an encoded map returns when it holds the entries [es]. *)
Inductive delivers {M E} `{MapAccess M E} : M -> list (string * scalar) -> Prop :=
  | delivers_end m : next_key m = Ok None -> delivers m []
  | delivers_u64 m m1 m2 k x es :
      next_key m = Ok (Some (k, m1)) -> next_u64 m1 = Ok (x, m2) -> delivers m2 es ->
      delivers m ((k, SU64 x) :: es)
  | delivers_str m m1 m2 k s es :
      next_key m = Ok (Some (k, m1)) -> next_str m1 = Ok (s, m2) -> delivers m2 es ->
      delivers m ((k, SStr s) :: es).

(** A format writes the announced length and then the entries; reading gives
    the entries back provided there are as many as announced. *)
Class WireFormat (S O M E : Type) `{SerializeMap S O E} `{MapAccess M E} := {
  announced : S -> Z;
  entries : S -> list (string * scalar);
  open : O -> M;
  wire_map len s : serialize_map (Some len) = Ok s -> announced s = len /\ entries s = [];
  wire_entry s n x s' :
    serialize_entry s n x = Ok s' -> announced s' = announced s /\ entries s' = entries s ++ [(n, x)];
  wire_end s o :
    end_map s = Ok o -> announced s = Z.of_nat (length (entries s)) -> delivers (open o) (entries s);
}.

Section roundtrip.
Context {S O M E : Type} `{WireFormat S O M E}.
Implicit Types (v : FieldVisitor (S := S) (E := E)) (fs : list (string * recorded)).

(** Recording a known field of fitting type writes its entry; any other
    field panics or leaves an error. *)
Lemma record_field_ok v n x v' :
  record_field v n x = Ret v' -> state v' = Ok tt ->
  exists e y, field_entry (n, x) = Some (e, y) /\
    serialize_entry (serializer v) e.1 e.2 = Ok (serializer v') /\ state v = Ok tt.
Proof.
  intros Hr Hs. unfold record_field in Hr.
  assert (Hv : state v = Ok tt).
  { destruct (state v) as [[]|e] eqn:Ev; [done|].
    destruct x; try discriminate Hr; injection Hr as <-; congruence. }
  rewrite Hv in Hr. unfold field_entry. simpl.
  destruct (TYPES !! n) as [ty|] eqn:Et; [|by destruct x].
  assert (Hstore : forall r, store v r = v' -> r = Ok (serializer v')).
  { intros r <-. unfold store in *. destruct r as [s|e]; [done|discriminate Hs]. }
  destruct x as [z|t|t| | | | |]; try discriminate Hr; injection Hr as Hr; apply Hstore in Hr;
    destruct ty; simpl in Hr; try discriminate Hr; simpl; do 2 eexists; split_and!; done.
Qed.

Lemma record_all_ok v fs v' :
  record_all v fs = Ret v' -> state v' = Ok tt ->
  state v = Ok tt /\ exists ps, mapM field_entry fs = Some ps /\
    announced (serializer v') = announced (serializer v) /\
    entries (serializer v') = entries (serializer v) ++ ps.*1.
Proof.
  revert v. induction fs as [|[n x] fs IH]; intros v Hr Hs.
  - injection Hr as <-. split; [done|]. exists []. by rewrite app_nil_r.
  - simpl in Hr. apply bind_Ret_inv in Hr as (v1&Hr1&Hr).
    destruct (IH _ Hr Hs) as (Hs1&ps&Eps&Ha&He).
    destruct (record_field_ok _ _ _ _ Hr1 Hs1) as (e&y&Ef&Ese&Hs0).
    apply wire_entry in Ese as [Ha1 He1]. split; [done|]. exists ((e, y) :: ps).
    split; [apply mapM_Some; constructor; [done|by apply mapM_Some]|].
    split; [congruence|]. rewrite He, He1, <-app_assoc. by destruct e.
Qed.

Lemma serialize_fields_ok len fs o :
  serialize_fields len fs = Ret (Ok o) ->
  exists ps s, mapM field_entry fs = Some ps /\ end_map s = Ok o /\
    announced s = len /\ entries s = ps.*1.
Proof.
  unfold serialize_fields. destruct (serialize_map (Some len)) as [s0|e] eqn:E0; [|done].
  intros Hr. apply bind_Ret_inv in Hr as (v&Hr&Hf). injection Hf as Hf. unfold finish in Hf.
  destruct (state v) as [[]|e] eqn:Ev; [|done].
  destruct (record_all_ok _ _ _ Hr Ev) as (_&ps&Eps&Ha&He). simpl in *.
  apply wire_map in E0 as [Hl Hn]. exists ps, (serializer v). split_and!; try done; [congruence|].
  by rewrite He, Hn.
Qed.

(** Reading the entries of fields that fit the schema. *)
Lemma visit_map_ok fs ps m acc fuel :
  mapM field_entry fs = Some ps -> delivers m ps.*1 -> (length fs < fuel)%nat ->
  visit_map fuel m acc = Some (Ok (acc ++ ps.*2)).
Proof.
  revert ps m acc fuel. induction fs as [|[n x] fs IH]; intros ps m acc fuel Eps Hd Hf;
    (destruct fuel as [|fuel]; [simpl in Hf; lia|]).
  - injection Eps as <-. inversion Hd as [m' Hk| |]; subst. simpl. rewrite Hk.
    by rewrite app_nil_r.
  - apply mapM_Some in Eps. inversion Eps as [|? [e y] ? ps' Ef Eps']; subst.
    apply mapM_Some in Eps'. unfold field_entry in Ef. simpl in Ef.
    destruct (TYPES !! n) as [ty|] eqn:Et; [|discriminate Ef]. simpl in Ef.
    destruct (typed ty x) as [[sc y']|] eqn:Ety; [|discriminate Ef]. simpl in Ef.
    injection Ef as <- <-. simpl in Hd, Hf. simpl.
    assert (Hread : forall m1, match sc with
        | SU64 z => forall m2, next_u64 m1 = Ok (z, m2) -> read_value ty m1 = Ok (y', m2)
        | SStr s => forall m2, next_str m1 = Ok (s, m2) -> read_value ty m1 = Ok (y', m2)
        end).
    { intros m1. destruct ty, x; try discriminate Ety; injection Ety as <- <-;
        intros m2 E2; unfold read_value; by rewrite E2. }
    inversion Hd as [|? m1 m2 ? z ? Hk Hv Hd2|? m1 m2 ? s ? Hk Hv Hd2]; subst;
      rewrite Hk, Et, (Hread m1 m2 Hv);
      (rewrite (IH ps' m2 _ fuel); [by rewrite <-app_assoc|done|done|lia]).
Qed.

(** C40. What a span's attributes are serialised to reads back as the same
    fields, in order, each as the variant that the schema gives it: if the
    sender succeeds then all fields were known and of fitting type, and the
    receiver succeeds with their values. *)
Theorem attributes_roundtrip fs o :
  serialize_attributes fs = Ret (Ok o) ->
  exists ps, mapM field_entry fs = Some ps /\
    visit_map (1 + length fs) (open o) [] = Some (Ok ps.*2) /\ (ps.*2).*1 = fs.*1.
Proof.
  intros Hs. destruct (serialize_fields_ok _ _ _ Hs) as (ps&s&Eps&He&Ha&Hen).
  exists ps. split; [done|]. assert (Hlen : length ps = length fs).
  { apply mapM_Some in Eps. symmetry. by eapply Forall2_length. }
  split.
  - apply (visit_map_ok fs ps _ [] (1 + length fs)); [done| |lia].
    rewrite <-Hen. apply (wire_end s o He). by rewrite Ha, Hen, length_fmap, Hlen.
  - clear -Eps. apply mapM_Some in Eps. induction Eps as [|[n x] [e y] fs ps Ef _ IH]; [done|].
    unfold field_entry in Ef. simpl in Ef. destruct (TYPES !! n); [|done]. simpl in Ef.
    destruct (typed _ x); [|done]. simpl in Ef. injection Ef as <- <-. simpl. by f_equal.
Qed.

(** An event that has a value for each of its fields round-trips in
    the same way; an event with an empty field announces more entries than
    it writes, so a receiver that trusts the announced length reads past
    the end of the map. *)
Theorem event_announced_length fields o :
  serialize_event fields = Ret (Ok o) ->
  exists s, end_map s = Ok o /\ announced s = Z.of_nat (length fields) /\
    (Forall (fun f => is_Some f.2) fields ->
       exists ps, mapM field_entry (visited fields) = Some ps /\
         visit_map (1 + length fields) (open o) [] = Some (Ok ps.*2)) /\
    (~ Forall (fun f => is_Some f.2) fields ->
       Z.of_nat (length (entries s)) < announced s).
Proof.
  intros Hs. destruct (serialize_fields_ok _ _ _ Hs) as (ps&s&Eps&He&Ha&Hen).
  exists s. split_and!; [done|done| |].
  - intros Hall. exists ps. split; [done|].
    assert (Hlen : length ps = length (visited fields)).
    { apply mapM_Some in Eps. symmetry. by eapply Forall2_length. }
    pose proof (visited_all _ Hall) as Hlf. rewrite <-Hlf.
    apply (visit_map_ok (visited fields) ps _ [] (1 + length (visited fields))); [done| |lia].
    rewrite <-Hen. apply (wire_end s o He). rewrite Ha, Hen, length_fmap. lia.
  - intros Hn. rewrite Ha, Hen, length_fmap.
    assert (Hlen : length ps = length (visited fields)).
    { apply mapM_Some in Eps. symmetry. by eapply Forall2_length. }
    rewrite Hlen. apply Nat2Z.inj_lt. by apply visited_fewer.
Qed.

(** Recording never writes a wrong field: a value of an unsupported
    type panics, a known field recorded with the wrong type turns into an
    error that stays the visitor's result, and an unknown field panics
    unless an error was met before it. *)
Theorem record_field_total v n x :
  match record_field v n x with
  | Panic w => w = ExpectFailed /\
      ((exists t, state v = Ok t) /\ TYPES !! n = None \/
       match x with RU64 _ | RStr _ | RDebug _ => False | _ => True end)
  | Ret v' =>
      match state v with
      | Err e => v' = v
      | Ok _ => is_Some (TYPES !! n) /\
          match field_entry (n, x) with
          | Some (e, _) => v' = store v (serialize_entry (serializer v) e.1 e.2)
          | None => serializer v' = serializer v /\ exists e, state v' = Err e
          end
      end
  end.
Proof.
  unfold record_field, field_entry.
  destruct x as [z|s|s| |z|z|z|b]; try (split; [done|by right]); simpl;
    (destruct (state v) as [t|e] eqn:Ev; [|done]);
    (destruct (TYPES !! n) as [ty|] eqn:Et; simpl; [|split; [done|left; eauto]]);
    (split; [by eexists|]); destruct ty; simpl; eauto.
Qed.
End roundtrip.

(** * A format that keeps the entries as they are *)

Section log_format.
(** The announced length with the entries so far, and what is left to be
    read, with the value that was reached. *)
#[local] Instance log_serialize :
    SerializeMap (Z * list (string * scalar)) (Z * list (string * scalar)) string := {
  serialize_map len := Ok (default 0 len, []);
  serialize_entry s n x := Ok (s.1, s.2 ++ [(n, x)]);
  end_map s := Ok s;
  ser_custom e := e;
}.

#[local] Instance log_access :
    MapAccess (option scalar * list (string * scalar)) string := {
  next_key m := Ok match m.2 with [] => None | (k, x) :: es => Some (k, (Some x, es)) end;
  next_u64 m := match m.1 with Some (SU64 z) => Ok (z, (None, m.2)) | _ => Err "not a u64"%string end;
  next_str m := match m.1 with Some (SStr s) => Ok (s, (None, m.2)) | _ => Err "not a str"%string end;
  de_custom e := e;
}.

Lemma log_delivers p es : delivers (p, es) es.
Proof.
  revert p. induction es as [|[k [z|s]] es IH]; intros p.
  - by apply delivers_end.
  - by apply (delivers_u64 _ (Some (SU64 z), es) (None, es)).
  - by apply (delivers_str _ (Some (SStr s), es) (None, es)).
Qed.

#[local] Instance log_wire :
    WireFormat (Z * list (string * scalar)) (Z * list (string * scalar))
      (option scalar * list (string * scalar)) string.
Proof.
  refine {| announced := fun s => s.1; entries := fun s => s.2; open := fun o => (None, o.2) |}.
  - by intros len s [= <-].
  - by intros s n x s' [= <-].
  - intros s o [= <-] _. apply log_delivers.
Defined.

Definition sample_fields : list (string * recorded) :=
  [("message", RDebug "hello"); ("at", RU64 4096); ("count", RU64 3)]%string.

Lemma attributes_roundtrip_witness :
  exists ps, mapM field_entry sample_fields = Some ps /\ (ps.*2).*1 = sample_fields.*1.
Proof.
  destruct (attributes_roundtrip (S := Z * list (string * scalar))
    (M := option scalar * list (string * scalar)) sample_fields
    (3, [("message", SStr "hello"); ("at", SU64 4096); ("count", SU64 3)]%string))
    as (ps&Eps&_&En); [by vm_compute|]. by exists ps.
Defined.

(** An event whose [count] is empty. *)
Lemma event_announced_length_witness :
  exists s : Z * list (string * scalar), Z.of_nat (length (entries s)) < announced s.
Proof.
  destruct (event_announced_length (S := Z * list (string * scalar))
    (M := option scalar * list (string * scalar))
    [("at", Some (RU64 4096)); ("count", None)]%string (2, [("at", SU64 4096)]%string))
    as (s&_&_&_&Hlt); [by vm_compute|]. exists s. apply Hlt.
  intros Hall. apply Forall_cons in Hall as [_ [[x Hx] _]%Forall_cons_1]. discriminate Hx.
Defined.
End log_format.
