(* ===== verification/SpanStack.v ===== *)
(** The span stack ([ktrace/src/stack.rs]). The module is not part of the
    build: [ktrace/src/lib.rs] has its declaration and its uses commented
    out. It is modelled as it stands; what it does when it is full is a
    reason to leave it out. *)
From S2P Require Import Prelude Proto.

Definition MAX_DEPTH : nat := 32.

(** [slots] are [MaybeUninit]; [None] is uninitialised. *)
Record SpanStack := MkSpanStack { end_ : Z; slots : list (option SpanId) }.

Implicit Types (st : SpanStack) (id : SpanId).

Definition stack_new : SpanStack := MkSpanStack 0 (replicate MAX_DEPTH None).

(** [Default]. *)
Definition stack_default : SpanStack := stack_new.

(** The two actions of [push]: the counter, then the slot. *)
Definition bump_end st : SpanStack * Z :=
  (MkSpanStack ((end_ st + 1) mod usize_bound) (slots st), end_ st).

Definition write_slot st (idx : Z) id : rust SpanStack :=
  _ ← index (slots st) (Z.to_nat idx);
  Ret (MkSpanStack (end_ st) (<[Z.to_nat idx := Some id]> (slots st))).

Definition push st id : rust (SpanStack * bool) :=
  let '(st, idx) := bump_end st in
  if decide (idx = Z.of_nat MAX_DEPTH) then Ret (st, false)
  else st ← write_slot st idx id; Ret (st, true).

Definition current st : rust (option SpanId) :=
  if decide (end_ st <> 0) then
    slot ← index (slots st) (Z.to_nat (end_ st - 1));
    id ← deref slot;
    Ret (Some id)
  else Ret None.

(** Spans pushed one after the other, with the results. *)
Fixpoint push_all st (ids : list SpanId) : rust (SpanStack * list bool) :=
  match ids with
  | [] => Ret (st, [])
  | id :: ids =>
      '(st, b) ← push st id;
      '(st, bs) ← push_all st ids;
      Ret (st, b :: bs)
  end.

(** The stack after [ids] were pushed. *)
Definition stack_of (ids : list SpanId) : SpanStack :=
  MkSpanStack (Z.of_nat (length ids)) ((Some <$> ids) ++ replicate (MAX_DEPTH - length ids) None).

Lemma push_stack_of ids id :
  (length ids < MAX_DEPTH)%nat -> push (stack_of ids) id = Ret (stack_of (ids ++ [id]), true).
Proof.
  intros Hn. unfold push, stack_of, bump_end. simpl end_. simpl slots.
  rewrite decide_False by lia. unfold write_slot, index. simpl.
  assert (Hs : (MAX_DEPTH - length ids = S (MAX_DEPTH - length (ids ++ [id])))%nat)
    by (rewrite length_app; simpl; lia).
  rewrite Nat2Z.id, Hs. rewrite lookup_app_r by (by rewrite length_fmap).
  rewrite length_fmap, Nat.sub_diag. simpl.
  rewrite insert_app_r_alt by (by rewrite length_fmap). rewrite length_fmap, Nat.sub_diag. simpl.
  rewrite fmap_app, <-app_assoc. simpl. unfold MAX_DEPTH in *.
  rewrite Z.mod_small by (unfold usize_bound; lia).
  replace (Z.of_nat (length ids) + 1) with (Z.of_nat (length (ids ++ [id])))
    by (rewrite length_app; simpl; lia). done.
Qed.

Lemma push_all_stack_of ids ids' :
  (length ids + length ids' <= MAX_DEPTH)%nat ->
  push_all (stack_of ids) ids' = Ret (stack_of (ids ++ ids'), replicate (length ids') true).
Proof.
  revert ids. induction ids' as [|id ids' IH]; intros ids Hn; simpl in *; [by rewrite app_nil_r|].
  rewrite push_stack_of by lia. simpl. rewrite IH by (rewrite length_app; simpl; lia).
  simpl. by rewrite <-app_assoc.
Qed.

Lemma current_stack_of ids :
  (length ids <= MAX_DEPTH)%nat -> current (stack_of ids) = Ret (last ids).
Proof.
  intros Hn. unfold current, stack_of. simpl. destruct ids as [|id ids _] using rev_ind; [done|].
  rewrite length_app in *. simpl in *. rewrite decide_True by lia. unfold index.
  rewrite lookup_app_l by (rewrite length_fmap, length_app; simpl; lia).
  rewrite list_lookup_fmap, lookup_app_r by lia.
  replace (Z.to_nat _ - length ids)%nat with 0%nat by lia. simpl. by rewrite last_snoc.
Qed.

(** C21. The span stack is a stack of at most 32 spans: that many are
    accepted, and [current] is always the last of them. The first span too
    many is refused as documented, but it is counted: from then on both
    [current] and [push] index out of bounds. *)
Theorem span_stack_spec ids :
  (length ids <= MAX_DEPTH)%nat ->
  exists st, push_all stack_new ids = Ret (st, replicate (length ids) true) /\
    current st = Ret (last ids) /\
    (length ids = MAX_DEPTH -> forall id, exists st', push st id = Ret (st', false) /\
       current st' = Panic IndexOutOfBounds /\ forall id', push st' id' = Panic IndexOutOfBounds).
Proof.
  intros Hn. exists (stack_of ids). split; [by apply (push_all_stack_of [])|].
  split; [by apply current_stack_of|]. intros Hfull id.
  unfold push, bump_end, stack_of. simpl. rewrite Hfull, decide_True by done.
  eexists. split; [done|].
  assert (Hlen : forall k, (MAX_DEPTH <= k)%nat ->
    index ((Some <$> ids) ++ replicate (MAX_DEPTH - MAX_DEPTH) None) k = Panic IndexOutOfBounds).
  { intros k Hk. unfold index. rewrite lookup_ge_None_2; [done|].
    rewrite length_app, length_fmap, length_replicate. lia. }
  split; [|intros id'].
  - unfold current. cbn [end_ slots]. rewrite decide_True by done. rewrite Hlen; [done|].
    unfold MAX_DEPTH. vm_compute. lia.
  - unfold push, bump_end, write_slot. cbn [end_ slots].
    rewrite decide_False by done. rewrite Hlen; [done|]. unfold MAX_DEPTH. vm_compute. lia.
Qed.

(** What the comment in the source fears about interrupts: between the two
    actions of [push] the current span is an uninitialised slot. *)
Lemma push_interrupted id :
  current (bump_end stack_new).1 = Panic UndefinedBehaviour /\
  exists st, write_slot (bump_end stack_new).1 (bump_end stack_new).2 id = Ret st /\
    current st = Ret (Some id).
Proof. split; [done|]. eexists. by split. Qed.

Lemma span_stack_spec_witness :
  exists st, push_all stack_new [7; 8] = Ret (st, [true; true]) /\ current st = Ret (Some 8).
Proof.
  destruct (span_stack_spec [7; 8] ltac:(vm_compute; lia)) as (st&E&Ec&_). by exists st.
Defined.
