(* ===== verification/Decoder.v ===== *)
(** The host-side decoder ([ktrace/decoder/src/lib.rs]): it passes boot
    output through until the start marker and then decodes messages out of
    whatever chunks the input arrives in. The substring search (memchr) and
    the message format (postcard) are third-party: a search function with
    its documented result, and a class for the format. *)
From S2P Require Import Prelude Proto.

(** [Read::read] into the 64-byte buffer: what the successive calls return,
    a run of bytes or an error of the reader. No bytes, or nothing left in
    the list, is the end of the input. *)
Abbreviation reads E := (list (result (list Z) E)) (only parsing).

(** [VecDeque] is the sequence it holds; it is made contiguous before each
    use. *)
Record Decoder := MkDecoder { buf : list Z; read_header : bool }.

Definition decoder_new : Decoder := MkDecoder [] false.

Inductive decode_error (E : Type) :=
  | NoMarker
  | Io (e : E)
  | Malformed (e : E)
  | Callback (e : E).
Arguments NoMarker {E}.
Arguments Io {E}.
Arguments Malformed {E}.
Arguments Callback {E}.

(** * The marker *)

(** The marker starts at position [i]. *)
Definition marker_at (s : list Z) (i : nat) : Prop :=
  take 4 (drop i s) = START_OF_OUTPUT.

#[export] Instance marker_at_dec s i : Decision (marker_at s i).
Proof. unfold marker_at. apply _. Defined.

(** What [memmem::Finder::find] returns: the first position, if any. *)
Definition finds_first (find : list Z -> option nat) : Prop :=
  forall s, match find s with
            | Some i => marker_at s i /\ forall j, (j < i)%nat -> ~ marker_at s j
            | None => forall j, ~ marker_at s j
            end.

(** [Write::write_all] of the writer that gets what comes before the marker:
    what it has got then, which after a failure may be part of the data. *)
Abbreviation writer E := (list Z -> list Z -> list Z * result unit E) (only parsing).

(** A writer that never fails. *)
Definition accepting {E} (output data : list Z) : list Z * result unit E := (output ++ data, Ok tt).

Section initial.
Context (find : list Z -> option nat).

(** [read_initial]: the decoder, the reads that are left, what was written
    to [output], and the result. What could not be written stays in the
    buffer. *)
Fixpoint read_initial_to {E} (write_all : writer E) (d : Decoder) (input : reads E) (output : list Z)
    : Decoder * reads E * list Z * result unit (decode_error E) :=
  match input with
  | Err e :: input => (d, input, output, Err (Io e))
  | [] | Ok [] :: _ => (d, input, output, Err NoMarker)
  | Ok chunk :: input =>
      let slice := buf d ++ chunk in
      match find slice with
      | Some pos =>
          match write_all output (take pos slice) with
          | (output, Err e) => (MkDecoder slice (read_header d), input, output, Err (Io e))
          | (output, Ok _) => (MkDecoder (drop (pos + length START_OF_OUTPUT) slice) true, input, output, Ok tt)
          end
      | None =>
          if decide (length START_OF_OUTPUT < length slice)%nat then
            let to_write := (length slice - length START_OF_OUTPUT)%nat in
            match write_all output (take to_write slice) with
            | (output, Err e) => (MkDecoder slice (read_header d), input, output, Err (Io e))
            | (output, Ok _) =>
                read_initial_to write_all (MkDecoder (drop to_write slice) (read_header d)) input output
            end
          else read_initial_to write_all (MkDecoder slice (read_header d)) input output
      end
  end.

Definition read_initial {E} : Decoder -> reads E -> list Z ->
    Decoder * reads E * list Z * result unit (decode_error E) := read_initial_to accepting.

(** A writer that keeps what it accepts makes no difference until it
    fails. *)
Lemma read_initial_fails {E} (write_all : writer E) d input output :
  (forall out data out', write_all out data = (out', Ok tt) -> out' = out ++ data) ->
  read_initial_to write_all d input output = read_initial d input output \/
  exists d' input' output' e, read_initial_to write_all d input output = (d', input', output', Err (Io e)).
Proof.
  intros Hw. unfold read_initial. revert d output.
  induction input as [|[[|z chunk]|e] input IH]; intros d output; [by left..| |by left].
  cbn [read_initial_to]. destruct (find _) as [pos|].
  - destruct (write_all _ _) as [out' [[]|e]] eqn:Ew; [left; by rewrite (Hw _ _ _ Ew)|right; by eexists _, _, _, e].
  - case_decide; [|apply IH].
    destruct (write_all _ _) as [out' [[]|e]] eqn:Ew; [rewrite (Hw _ _ _ Ew); apply IH|right; by eexists _, _, _, e].
Qed.

(** ** Facts about marker positions *)

Lemma marker_length s i : marker_at s i -> (i + 4 <= length s)%nat.
Proof.
  unfold marker_at. intros E. apply (f_equal length) in E.
  rewrite length_take, length_drop in E. cbn [length START_OF_OUTPUT] in E. lia.
Qed.

Lemma marker_app s t i : marker_at s i -> marker_at (s ++ t) i.
Proof.
  intros Hm. pose proof (marker_length _ _ Hm). unfold marker_at in *.
  rewrite drop_app_le by lia. rewrite take_app_le; [done|]. rewrite length_drop. lia.
Qed.

Lemma marker_app_inv s t i : (i + 4 <= length s)%nat -> marker_at (s ++ t) i -> marker_at s i.
Proof.
  intros Hi. unfold marker_at. rewrite drop_app_le by lia. rewrite take_app_le; [done|].
  rewrite length_drop. lia.
Qed.

Lemma marker_shift p s i : marker_at (p ++ s) (length p + i) <-> marker_at s i.
Proof. unfold marker_at. by rewrite drop_app_add. Qed.

Lemma marker_split s i :
  marker_at s i -> s = take i s ++ START_OF_OUTPUT ++ drop (i + length START_OF_OUTPUT) s.
Proof.
  intros Hm. change (length START_OF_OUTPUT) with 4%nat. rewrite <-Hm.
  by rewrite <-drop_drop, !take_drop.
Qed.

(** What has been read so far: the output, then the buffer; no marker in
    it. *)
Record scanning (written : list Z) (b : list Z) : Prop := {
  scan_none j : ~ marker_at (written ++ b) j;
  scan_kept : written = [] \/ (length START_OF_OUTPUT <= length b)%nat;
}.

(** A marker in the next slice is the first of the whole stream. *)
Lemma scan_first written b chunk i :
  scanning written b -> marker_at (b ++ chunk) i ->
  (forall j, (j < i)%nat -> ~ marker_at (b ++ chunk) j) ->
  forall j, (j < length written + i)%nat -> ~ marker_at (written ++ b ++ chunk) j.
Proof.
  intros [Hn Hk] Hi Hfirst j Hj Hm. destruct (decide (length written <= j)%nat) as [Hle|Hlt].
  - replace j with (length written + (j - length written))%nat in Hm by lia.
    apply marker_shift in Hm. apply (Hfirst (j - length written)%nat); [lia|done].
  - destruct Hk as [->|Hk]; [simpl in *; lia|]. cbn [length START_OF_OUTPUT] in Hk. apply (Hn j).
    rewrite app_assoc in Hm. apply marker_app_inv in Hm; [done|]. rewrite length_app. lia.
Qed.

Lemma scan_none_step written b chunk :
  scanning written b -> (forall j, ~ marker_at (b ++ chunk) j) ->
  forall j, ~ marker_at (written ++ b ++ chunk) j.
Proof.
  intros [Hn Hk] Hnone j Hm. destruct (decide (length written <= j)%nat) as [Hle|Hlt].
  - replace j with (length written + (j - length written))%nat in Hm by lia.
    apply marker_shift in Hm. by eapply Hnone.
  - destruct Hk as [->|Hk]; [simpl in *; lia|]. cbn [length START_OF_OUTPUT] in Hk. apply (Hn j).
    rewrite app_assoc in Hm. apply marker_app_inv in Hm; [done|]. rewrite length_app. lia.
Qed.

(** What [read_initial] comes to when [before] was seen already: it stops in
    the chunk that ends the first marker of the stream, or at the end of a
    stream without a marker. *)
Definition initial_result {E} (before : list Z) (chunks : list (list Z))
    (r : Decoder * reads E * list Z * result unit (decode_error E)) : Prop :=
  match r with
  | (d, rest, out, Ok _) =>
      read_header d = true /\
      (exists used left, chunks = used ++ left /\ used <> [] /\ rest = Ok <$> left /\
         before ++ concat used = out ++ START_OF_OUTPUT ++ buf d /\
         (forall i l, used = i ++ [l] -> (length (before ++ concat i) < length out + 4)%nat)) /\
      marker_at (before ++ concat chunks) (length out) /\
      forall j, (j < length out)%nat -> ~ marker_at (before ++ concat chunks) j
  | (d, rest, out, Err e) =>
      e = NoMarker /\ rest = [] /\ (forall j, ~ marker_at (before ++ concat chunks) j) /\
      before ++ concat chunks = out ++ buf d
  end.

Lemma initial_result_cons {E} before chunk chunks (r : _ * reads E * _ * _) :
  initial_result (before ++ chunk) chunks r -> initial_result before (chunk :: chunks) r.
Proof.
  unfold initial_result. destruct r as [[[d rest] out] [[]|e]]; cbn [concat]; rewrite <-?app_assoc;
    [|done].
  intros (?&(used&left&->&Hu&->&Eu&Hi)&?&?). split; [done|]. split; [|done].
  exists (chunk :: used), left. rewrite <-app_assoc in Eu. repeat split; try done.
  intros [|c i] l E1; [by simplify_eq/=|]. simpl in E1. injection E1 as <- ->.
  specialize (Hi i l eq_refl). by rewrite <-app_assoc in Hi.
Qed.

Lemma initial_result_found {E} written b chunk chunks pos :
  scanning written b -> marker_at (b ++ chunk) pos ->
  (forall j, (j < pos)%nat -> ~ marker_at (b ++ chunk) j) ->
  initial_result (written ++ b) (chunk :: chunks)
    (MkDecoder (drop (pos + length START_OF_OUTPUT) (b ++ chunk)) true,
     (Ok <$> chunks : reads E), written ++ take pos (b ++ chunk), Ok tt).
Proof.
  intros Hs Hm Hfirst. pose proof (marker_length _ _ Hm) as Hlen.
  assert (El : length (written ++ take pos (b ++ chunk)) = (length written + pos)%nat).
  { rewrite length_app, length_take. lia. }
  split; [done|]. cbn [concat]. rewrite El. split; [|rewrite <-!app_assoc; split].
  - exists [chunk], chunks. repeat split; try done.
    + cbn [concat buf]. rewrite app_nil_r, <-!app_assoc. f_equal. by apply marker_split.
    + intros i l Ei. destruct i as [|? [|]]; simplify_eq/=. rewrite app_nil_r, length_app.
      destruct (decide (pos + 4 <= length b)%nat) as [Hle|]; [|lia].
      destruct (scan_none _ _ Hs (length written + pos)%nat). apply marker_shift.
      by eapply marker_app_inv.
  - rewrite (app_assoc b). apply marker_shift. by apply marker_app.
  - intros j Hj Hj'. apply (scan_first written b chunk pos Hs Hm Hfirst j Hj).
    rewrite !app_assoc in Hj'. apply marker_app_inv in Hj'; [by rewrite <-app_assoc in Hj'|].
    rewrite !length_app. rewrite length_app in Hlen. lia.
Qed.

Lemma read_initial_ok {E} d (chunks : list (list Z)) written :
  finds_first find -> scanning written (buf d) -> Forall (fun c => c <> []) chunks ->
  initial_result (written ++ buf d) chunks (read_initial (E := E) d (Ok <$> chunks) written).
Proof.
  intros Hfind. revert d written. induction chunks as [|chunk chunks IH]; intros d written Hs Hne.
  { simpl. rewrite app_nil_r. destruct Hs. done. }
  apply Forall_cons in Hne as [Hc Hne].
  rewrite fmap_cons. unfold read_initial in *. cbn [read_initial_to]. destruct chunk as [|z chunk']; [done|].
  set (chunk := z :: chunk') in *.
  pose proof (Hfind (buf d ++ chunk)) as Hf. destruct (find (buf d ++ chunk)) as [pos|].
  { destruct Hf as [Hm Hfirst]. by apply initial_result_found. }
  pose proof (scan_none_step _ _ _ Hs Hf) as Hn.
  case_decide as Hlong; cbv zeta; apply initial_result_cons; rewrite <-app_assoc.
  - set (k := (length (buf d ++ chunk) - length START_OF_OUTPUT)%nat).
    assert (Et : written ++ buf d ++ chunk =
      (written ++ take k (buf d ++ chunk)) ++ drop k (buf d ++ chunk))
      by (by rewrite <-app_assoc, take_drop).
    pose proof (IH (MkDecoder (drop k (buf d ++ chunk)) (read_header d))
                  (written ++ take k (buf d ++ chunk))) as IHk.
    cbn [buf] in IHk. rewrite <-Et in IHk. apply IHk; [|done].
    split; [by rewrite <-Et|right]. rewrite length_drop. unfold k. lia.
  - apply (IH (MkDecoder (buf d ++ chunk) (read_header d))); [|done].
    split; [done|]. destruct Hs as [_ [->|Hk]]; [by left|right]. cbn [buf]. rewrite length_app. lia.
Qed.

(** At most the length of the marker is kept back while it is not found. *)
Lemma read_initial_kept {E} (input : reads E) d written :
  (length (buf d) <= length START_OF_OUTPUT)%nat ->
  match read_initial d input written with
  | (d', _, _, Err _) => (length (buf d') <= length START_OF_OUTPUT)%nat
  | _ => True
  end.
Proof.
  revert d written. induction input as [|[[|z chunk]|e] input IH]; intros d written Hd; try done.
  unfold read_initial in *. cbn [read_initial_to]. destruct (find _); [done|].
  case_decide; apply IH; cbn [buf]; [rewrite length_drop|]; lia.
Qed.
End initial.

(** * Messages *)

(** What [postcard::take_from_bytes] answers: a message and the unused rest
    of the input, that the input ends within the message, or another
    error. *)
Inductive taken (M E : Type) :=
  | Taken (msg : M) (unused : list Z)
  | UnexpectedEnd
  | Broken (e : E).
Arguments Taken {M E}.
Arguments UnexpectedEnd {M E}.
Arguments Broken {M E}.

(** The documented behaviour of a self-delimiting format: encoded messages
    are read back and what follows them is returned, a message uses up
    input, and more input does not change an answer already given. *)
Class Postcard (M E : Type) := {
  take_from_bytes : list Z -> taken M E;
  to_bytes : M -> list Z;
  take_to_bytes m rest : take_from_bytes (to_bytes m ++ rest) = Taken m rest;
  take_nothing : take_from_bytes [] = UnexpectedEnd;
  take_consumes s m rest :
    take_from_bytes s = Taken m rest -> exists used, s = used ++ rest /\ used <> [];
  take_more s m rest t :
    take_from_bytes s = Taken m rest -> take_from_bytes (s ++ t) = Taken m (rest ++ t);
  broken_more s e t : take_from_bytes s = Broken e -> take_from_bytes (s ++ t) = Broken e;
}.

Section decode.
Context {M E St : Type} `{!Postcard M E}.
Context (find : list Z -> option nat).
(** The callback, with the state it captures. *)
Context (f : M -> St -> St * result unit E).

(** The loop ['decode]: the messages of the buffer, until it ends within
    one. A message is drained from the buffer after the callback. *)
Fixpoint decode_buffered (fuel : nat) (d : Decoder) (st : St)
    : rust (Decoder * St * result unit (decode_error E)) :=
  match fuel with
  | O => Panic EndlessLoop
  | S fuel =>
      let slice := buf d in
      match take_from_bytes slice with
      | UnexpectedEnd => Ret (d, st, Ok tt)
      | Broken e => Ret (d, st, Err (Malformed e))
      | Taken msg unused =>
          match f msg st with
          | (st, Err e) => Ret (d, st, Err (Callback e))
          | (st, Ok _) =>
              let used := (length slice - length unused)%nat in
              decode_buffered fuel (MkDecoder (drop used slice) (read_header d)) st
          end
      end
  end.

(** The outer loop of [decode]. *)
Fixpoint decode_loop (d : Decoder) (input : reads E) (st : St)
    : rust (Decoder * St * result unit (decode_error E)) :=
  match input with
  | Err e :: _ => Ret (d, st, Err (Io e))
  | [] | Ok [] :: _ => Ret (d, st, Ok tt)
  | Ok chunk :: input =>
      let d := MkDecoder (buf d ++ chunk) (read_header d) in
      '(d, st, r) ← decode_buffered (S (length (buf d))) d st;
      match r with
      | Err e => Ret (d, st, Err e)
      | Ok _ => decode_loop d input st
      end
  end.

(** [decode]: the decoder, the callback's state, what was passed through to
    [drain], and the result. *)
Definition decode_to (write_all : writer E) (d : Decoder) (input : reads E) (st : St)
    : rust (Decoder * St * list Z * result unit (decode_error E)) :=
  match read_initial_to find write_all d input [] with
  | (d, _, out, Err e) => Ret (d, st, out, Err e)
  | (d, input, out, Ok _) =>
      '(d, st, r) ← decode_loop d input st;
      Ret (d, st, out, r)
  end.

Definition decode : Decoder -> reads E -> St ->
    rust (Decoder * St * list Z * result unit (decode_error E)) := decode_to accepting.

(** If [drain] fails, nothing is decoded: the callback is not called. *)
Lemma decode_fails (write_all : writer E) d input st :
  (forall out data out', write_all out data = (out', Ok tt) -> out' = out ++ data) ->
  decode_to write_all d input st = decode d input st \/
  exists d' out e, decode_to write_all d input st = Ret (d', st, out, Err (Io e)).
Proof.
  intros Hw. unfold decode, decode_to.
  destruct (read_initial_fails find write_all d input [] Hw) as [->|(d'&i'&o'&e&->)]; [by left|].
  right. by eexists _, _, e.
Qed.

(** ** The loop ends and is incremental *)

Lemma drained slice msg unused :
  take_from_bytes slice = Taken msg unused ->
  drop (length slice - length unused)%nat slice = unused /\
  (length unused < length slice)%nat.
Proof.
  intros (used&->&Hu)%take_consumes. rewrite length_app. split.
  - replace (length used + length unused - length unused)%nat with (length used) by lia.
    apply drop_app_length.
  - destruct used; [done|]. simpl. lia.
Qed.

(** Fuel above the length of the buffer is never used up. *)
Lemma decode_buffered_fuel n m d st :
  (length (buf d) < n)%nat -> (length (buf d) < m)%nat ->
  decode_buffered n d st = decode_buffered m d st.
Proof.
  revert m d st. induction n as [|n IH]; intros [|m] d st Hn Hm; try lia.
  simpl. destruct (take_from_bytes (buf d)) as [msg unused| |e] eqn:Et; try done.
  destruct (f msg st) as [st' [?|?]]; [|done].
  destruct (drained _ _ _ Et) as [-> Hl]. apply IH; simpl; lia.
Qed.

Lemma decode_buffered_returns n d st :
  (length (buf d) < n)%nat -> exists d' st' r, decode_buffered n d st = Ret (d', st', r).
Proof.
  revert d st. induction n as [|n IH]; intros d st Hn; [lia|].
  simpl. destruct (take_from_bytes (buf d)) as [msg unused| |e] eqn:Et; eauto.
  destruct (f msg st) as [st' [?|?]]; eauto.
  destruct (drained _ _ _ Et) as [-> Hl]. apply IH; simpl; lia.
Qed.

(** Decoding what is buffered now and the rest later is decoding it all
    later. *)
Lemma decode_buffered_app n m k d t st :
  (length (buf d) < n)%nat -> (length (buf d ++ t) < m)%nat ->
  (length (buf d ++ t) < k)%nat ->
  match decode_buffered n d st with
  | Ret (d', st', Ok _) =>
      (length (buf d') <= length (buf d))%nat /\
      decode_buffered m (MkDecoder (buf d ++ t) (read_header d)) st =
      decode_buffered k (MkDecoder (buf d' ++ t) (read_header d')) st'
  | Ret (d', st', Err e) =>
      decode_buffered m (MkDecoder (buf d ++ t) (read_header d)) st =
      Ret (MkDecoder (buf d' ++ t) (read_header d'), st', Err e)
  | Panic _ => False
  end.
Proof.
  revert m d st. induction n as [|n IH]; intros m d st Hn Hm Hk; [lia|].
  destruct m as [|m]; [lia|].
  cbn [decode_buffered]. destruct (take_from_bytes (buf d)) as [msg unused| |e] eqn:Et.
  - cbn [buf read_header]. rewrite (take_more _ _ _ t Et).
    destruct (f msg st) as [st' [?|?]]; [|done].
    destruct (drained _ _ _ Et) as [-> Hl].
    destruct (drained _ _ _ (take_more _ _ _ t Et)) as [-> _].
    rewrite length_app in Hm, Hk.
    specialize (IH m (MkDecoder unused (read_header d)) st'). cbn [buf read_header] in IH.
    rewrite length_app in IH. specialize (IH ltac:(lia) ltac:(lia) ltac:(lia)).
    destruct (decode_buffered n _ st') as [[[d' st''] [?|?]]|]; try done.
    destruct IH. split; [lia|done].
  - split; [done|].
    by apply (decode_buffered_fuel (S m) k (MkDecoder (buf d ++ t) (read_header d)) st).
  - cbn [buf]. by rewrite (broken_more _ _ t Et).
Qed.

(** The messages of a run of encoded messages are handed to the callback
    one after the other. *)
Fixpoint call_all (ms : list M) (st : St) : St * result unit E :=
  match ms with
  | [] => (st, Ok tt)
  | m :: ms =>
      match f m st with
      | (st, Err e) => (st, Err e)
      | (st, Ok _) => call_all ms st
      end
  end.

Lemma decode_buffered_messages n ms h st :
  let s := concat (to_bytes <$> ms) in
  (length s < n)%nat ->
  exists d', decode_buffered n (MkDecoder s h) st =
    Ret (d', (call_all ms st).1,
         match (call_all ms st).2 with Ok _ => Ok tt | Err e => Err (Callback e) end) /\
    ((call_all ms st).2 = Ok tt -> d' = MkDecoder [] h).
Proof.
  revert n st. induction ms as [|m ms IH]; intros [|n] st s Hn; try (simpl in Hn; lia).
  - simpl. rewrite take_nothing. by eexists.
  - assert (Es : s = to_bytes m ++ concat (to_bytes <$> ms)) by done.
    cbn [decode_buffered buf]. clearbody s. subst s. rewrite take_to_bytes.
    destruct (drained _ _ _ (take_to_bytes m (concat (to_bytes <$> ms)))) as [-> Hl].
    simpl. destruct (f m st) as [st' [[]|e]]; [|by eexists].
    apply IH. lia.
Qed.

(** Reading the messages chunk by chunk is reading them all at once. *)
Lemma decode_loop_concat k d chunks st :
  chunks <> [] -> Forall (fun c => c <> []) chunks ->
  (length (buf d ++ concat chunks) < k)%nat ->
  exists d' st' r d'', decode_loop d (Ok <$> chunks) st = Ret (d', st', r) /\
    decode_buffered k (MkDecoder (buf d ++ concat chunks) (read_header d)) st =
    Ret (d'', st', r) /\ (r = Ok tt -> d' = d'').
Proof.
  intros Hc Hne. revert d st. induction Hne as [|c chunks Hcne Hne IH]; intros d st Hk; [done|].
  destruct c as [|z c]; [done|]. rewrite fmap_cons. cbn [decode_loop]. clear Hc Hcne.
  cbn [concat] in *. remember (z :: c) as chunk eqn:Ec. clear z c Ec.
  cbn [buf]. remember (MkDecoder (buf d ++ chunk) (read_header d)) as d1 eqn:Ed1.
  assert (Eb1 : buf d ++ chunk = buf d1) by by subst.
  rewrite (app_assoc (buf d)), Eb1 in *. assert (Eh : read_header d = read_header d1) by (by rewrite Ed1). rewrite Eh.
  clear Ed1 Eb1 Eh.
  pose proof (decode_buffered_app (S (length (buf d1))) k k d1 (concat chunks) st
                ltac:(lia) Hk Hk) as Happ.
  destruct (decode_buffered (S (length (buf d1))) d1 st) as [[[d2 st2] [[]|e]]|] eqn:E1; [| |done];
    cbn [mbind rust_bind].
  - destruct Happ as [Hl Happ]. destruct chunks as [|c' chunks'].
    + exists d2, st2, (Ok tt), d2. split; [done|]. split; [|done].
      rewrite <-E1. cbn [concat] in Hk |- *. rewrite app_nil_r in Hk |- *.
      destruct d1. by apply decode_buffered_fuel; cbn [buf] in *; lia.
    + destruct (IH ltac:(done) d2 st2) as (d'&st'&r&d''&->&E2&Hd).
      { rewrite length_app in *. lia. }
      exists d', st', r, d''. split; [done|]. by rewrite Happ, E2.
  - by eexists _, _, _, _.
Qed.

(** *** Where the marker is found *)

Lemma first_marker_unique (s t : list Z) a b :
  marker_at s a -> marker_at s b ->
  (forall j, (j < a)%nat -> ~ marker_at s j) -> (forall j, (j < b)%nat -> ~ marker_at s j) ->
  a = b.
Proof.
  intros Ha Hb Fa Fb. destruct (lt_eq_lt_dec a b) as [[H| ->]|H]; [|done|].
  - by destruct (Fb a).
  - by destruct (Fa b).
Qed.

Lemma read_initial_stream (boot rest : list Z) chunks :
  finds_first find -> Forall (fun c => c <> []) chunks ->
  concat chunks = boot ++ START_OF_OUTPUT ++ rest ->
  (forall j, (j < length boot)%nat -> ~ marker_at (concat chunks) j) ->
  exists used left kept, chunks = used ++ left /\ used <> [] /\
    read_initial (E := E) find decoder_new (Ok <$> chunks) [] =
      (MkDecoder kept true, Ok <$> left, boot, Ok tt) /\
    rest = kept ++ concat left /\
    (forall i l, used = i ++ [l] -> (length (concat i) < length boot + 4)%nat).
Proof.
  intros Hf Hne Es Hboot.
  assert (Hs : scanning [] (buf decoder_new)).
  { split; [|by left]. intros j Hm%marker_length. simpl in Hm. lia. }
  assert (Hm : marker_at (concat chunks) (length boot)).
  { unfold marker_at. by rewrite Es, drop_app_length. }
  pose proof (read_initial_ok (E := E) find decoder_new chunks [] Hf Hs Hne) as H.
  unfold initial_result in H. cbn [app buf decoder_new] in H.
  destruct (read_initial find decoder_new (Ok <$> chunks) []) as [[[[b h] rs] out] [[]|e]].
  - cbn [read_header buf app decoder_new] in H.
    destruct H as (->&(used&left&->&Hu&->&Eu&Hi)&Hout&Hfirst).
    pose proof (first_marker_unique _ [] _ _ Hm Hout Hboot Hfirst) as El.
    rewrite concat_app, Eu, <-app_assoc in Es. apply app_inj_1 in Es as [-> Es]; [|done].
    rewrite <-app_assoc in Es. apply app_inv_head in Es as <-.
    by exists used, left, b.
  - destruct H as (_&_&Hno&_). by destruct (Hno (length boot)).
Qed.

(** What follows the marker is decoded as if it had been read at once, as
    long as the last chunk begins behind the marker. *)
Lemma decode_whole (boot rest : list Z) (chunks : list (list Z)) (l : list Z) (st : St) :
  finds_first find ->
  Forall (fun c => c <> []) (chunks ++ [l]) ->
  concat (chunks ++ [l]) = boot ++ START_OF_OUTPUT ++ rest ->
  (forall j, (j < length boot)%nat -> ~ marker_at (concat (chunks ++ [l])) j) ->
  (length boot + length START_OF_OUTPUT <= length (concat chunks))%nat ->
  exists d' st' r d'', decode decoder_new (Ok <$> chunks ++ [l]) st = Ret (d', st', boot, r) /\
    decode_buffered (S (length rest)) (MkDecoder rest true) st = Ret (d'', st', r) /\
    (r = Ok tt -> d' = d'').
Proof.
  intros Hf Hne Es Hboot Hlast.
  destruct (read_initial_stream _ _ _ Hf Hne Es Hboot) as (used&left&kept&Ec&Hu&Er&Ek&Hi).
  unfold decode, decode_to. fold (read_initial (E := E) find). rewrite Er.
  assert (Hleft : left <> []).
  { intros ->. rewrite app_nil_r in Ec. specialize (Hi _ _ (eq_sym Ec)).
    cbn [length START_OF_OUTPUT] in Hlast. lia. }
  assert (Hnel : Forall (fun c => c <> []) left).
  { rewrite Ec in Hne. by apply Forall_app in Hne as [_ ?]. }
  destruct (decode_loop_concat (S (length (kept ++ concat left))) (MkDecoder kept true) left st
              Hleft Hnel ltac:(simpl; lia)) as (d'&st'&r&d''&->&Eb&Hd).
  cbn [buf read_header] in Eb. rewrite <-Ek in Eb. by exists d', st', r, d''.
Qed.

(** C11. Input made of boot output, the marker and encoded messages is decoded
    to that output and those messages, whatever chunks it is read in, as
    long as the last chunk begins behind the marker: [drain] gets the boot
    output exactly, the callback gets the messages in order and each once
    (up to the first one it rejects), nothing is left in the buffer, and
    the loop ends. *)
Theorem decode_delivers (boot : list Z) (ms : list M) (chunks : list (list Z)) (l : list Z)
    (st : St) :
  finds_first find ->
  Forall (fun c => c <> []) (chunks ++ [l]) ->
  concat (chunks ++ [l]) = boot ++ START_OF_OUTPUT ++ concat (to_bytes <$> ms) ->
  (forall j, (j < length boot)%nat -> ~ marker_at (concat (chunks ++ [l])) j) ->
  (length boot + length START_OF_OUTPUT <= length (concat chunks))%nat ->
  exists d', decode decoder_new (Ok <$> chunks ++ [l]) st =
    Ret (d', (call_all ms st).1, boot,
         match (call_all ms st).2 with Ok _ => Ok tt | Err e => Err (Callback e) end) /\
    ((call_all ms st).2 = Ok tt -> d' = MkDecoder [] true).
Proof.
  intros Hf Hne Es Hboot Hlast.
  destruct (decode_whole _ _ _ _ st Hf Hne Es Hboot Hlast) as (d'&st'&r&d''&->&Eb&Hd).
  destruct (decode_buffered_messages _ ms true st (Nat.lt_succ_diag_r _)) as (d3&E3&Hd3).
  rewrite E3 in Eb. simplify_eq. exists d'. split; [done|].
  intros Eok. rewrite Hd by (by rewrite Eok). by apply Hd3.
Qed.

(** Messages that arrive in the same chunk as the end of the marker stay
    in the buffer when no further input follows: [decode] returns
    successfully and has called back for none of them. *)
Theorem decode_withholds (boot : list Z) (ms : list M) (chunks : list (list Z)) (l : list Z)
    (st : St) :
  finds_first find ->
  Forall (fun c => c <> []) (chunks ++ [l]) ->
  concat (chunks ++ [l]) = boot ++ START_OF_OUTPUT ++ concat (to_bytes <$> ms) ->
  (forall j, (j < length boot)%nat -> ~ marker_at (concat (chunks ++ [l])) j) ->
  (length (concat chunks) < length boot + length START_OF_OUTPUT)%nat ->
  decode decoder_new (Ok <$> chunks ++ [l]) st =
    Ret (MkDecoder (concat (to_bytes <$> ms)) true, st, boot, Ok tt).
Proof.
  intros Hf Hne Es Hboot Hlast.
  destruct (read_initial_stream _ _ _ Hf Hne Es Hboot) as (used&left&kept&Ec&Hu&Er&Ek&Hi).
  unfold decode, decode_to. fold (read_initial (E := E) find). rewrite Er. cbn [length START_OF_OUTPUT] in Hlast.
  assert (left = []) as ->.
  { destruct left as [|c left _] using rev_ind; [done|].
    rewrite app_assoc in Ec. apply app_inj_tail in Ec as [-> ->].
    assert (length (concat used) <= length (concat (used ++ left)))%nat
      by (rewrite concat_app, length_app; lia).
    assert (boot ++ START_OF_OUTPUT ++ kept = concat used).
    { apply (app_inv_tail (concat (left ++ [c]))). rewrite <-!app_assoc, <-Ek, <-Es.
      rewrite <-concat_app. by rewrite app_assoc. }
    assert (length (concat used) = length boot + 4 + length kept)%nat.
    { rewrite <-H0, !length_app. simpl. lia. }
    lia. }
  simpl in Ek. rewrite app_nil_r in Ek. by subst kept.
Qed.
End decode.

(** Input without the marker is an error, and all of it but at most its last
    four bytes has been passed through: those stay in the buffer. *)
Theorem decode_no_marker {M E St : Type} `{!Postcard M E} (find : list Z -> option nat)
    (f : M -> St -> St * result unit E) (chunks : list (list Z)) (st : St) :
  finds_first find -> Forall (fun c => c <> []) chunks ->
  (forall j, ~ marker_at (concat chunks) j) ->
  exists d' out, decode find f decoder_new (Ok <$> chunks) st = Ret (d', st, out, Err NoMarker) /\
    concat chunks = out ++ buf d' /\ (length (buf d') <= length START_OF_OUTPUT)%nat.
Proof.
  intros Hf Hne Hno.
  assert (Hs : scanning [] (buf decoder_new)).
  { split; [|by left]. intros j Hm%marker_length. simpl in Hm. lia. }
  pose proof (read_initial_ok (E := E) find decoder_new chunks [] Hf Hs Hne) as H.
  unfold initial_result in H. cbn [app buf decoder_new] in H.
  unfold decode, decode_to. fold (read_initial (E := E) find).
  pose proof (read_initial_kept (E := E) find (Ok <$> chunks) decoder_new [] ltac:(simpl; lia)) as Hk.
  destruct (read_initial find decoder_new (Ok <$> chunks) []) as [[[d' rs] out] [[]|e]].
  - destruct H as (_&_&Hm&_). by destruct (Hno (length out)).
  - destruct H as (->&_&_&Ec). by exists d', out.
Qed.

(** * A format and a search to run the decoder with *)

(** Booleans in two bytes: a tag and 0 or 1. *)
#[local] Instance bool_postcard : Postcard bool unit.
Proof.
  refine {|
    take_from_bytes s :=
      match s with
      | x :: y :: rest =>
          if decide (x = 7) then
            if decide (y = 1) then Taken true rest
            else if decide (y = 0) then Taken false rest else Broken tt
          else Broken tt
      | _ => UnexpectedEnd
      end;
    to_bytes m := [7; if m then 1 else 0];
  |}.
  - by intros [] rest.
  - done.
  - intros [|x [|y s]] m rest; intros; repeat case_decide; simplify_eq; by eexists [_; _].
  - intros [|x [|y s]] m rest t; simpl; repeat case_decide; intros; by simplify_eq.
  - intros [|x [|y s]] e t; simpl; repeat case_decide; intros; by simplify_eq.
Defined.

(** The first position of the marker. *)
Fixpoint find_marker (s : list Z) : option nat :=
  if decide (marker_at s 0) then Some O
  else match s with [] => None | _ :: s => S <$> find_marker s end.

Lemma find_marker_first : finds_first find_marker.
Proof.
  intros s. induction s as [|z s IH]; cbn [find_marker].
  - case_decide as H0; [by apply marker_length in H0; simpl in H0; lia|].
    intros j Hj%marker_length. simpl in Hj. lia.
  - case_decide as H0; [by split; [|lia]|].
    destruct (find_marker s) as [i|]; simpl.
    + destruct IH as [Hm Hf]. split; [done|]. intros [|j] Hj; [done|]. apply Hf. lia.
    + intros [|j]; [done|]. apply IH.
Qed.

#[local] Definition collect (m : bool) (st : list bool) : list bool * result unit unit :=
  (st ++ [m], Ok tt).

(** Boot output [9; 9], and the marker, split over three chunks; the last
    message is split too. *)
Lemma decode_delivers_witness :
  exists d', decode find_marker collect decoder_new
    (Ok <$> [[9; 9; 255]; [0; 255; 0; 7]; [1; 7]] ++ [[0]]) [] =
    Ret (d', [true; false], [9; 9], Ok tt) /\ (Ok tt = Ok tt :> result unit unit -> d' = MkDecoder [] true).
Proof.
  apply (decode_delivers find_marker collect [9; 9] [true; false]
           [[9; 9; 255]; [0; 255; 0; 7]; [1; 7]] [0] []).
  - exact find_marker_first.
  - by repeat constructor.
  - reflexivity.
  - intros j Hj. cbn [length] in Hj. assert (j = 0 \/ j = 1)%nat as [-> | ->] by lia;
      intros Hm; vm_compute in Hm; discriminate.
  - cbn. lia.
Defined.

Lemma decode_withholds_witness :
  decode find_marker collect decoder_new (Ok <$> [[9; 9; 255]] ++ [[0; 255; 0; 7; 1; 7; 0]]) [] =
  Ret (MkDecoder [7; 1; 7; 0] true, [], [9; 9], Ok tt).
Proof.
  refine (decode_withholds find_marker collect [9; 9] [true; false] [[9; 9; 255]]
            [0; 255; 0; 7; 1; 7; 0] [] _ _ _ _ _).
  - exact find_marker_first.
  - by repeat constructor.
  - reflexivity.
  - intros j Hj. cbn [length] in Hj. assert (j = 0 \/ j = 1)%nat as [-> | ->] by lia;
      intros Hm; vm_compute in Hm; discriminate.
  - cbn. lia.
Defined.

Lemma decode_no_marker_witness :
  exists d' out, decode find_marker collect decoder_new (Ok <$> [[9]; [255; 0; 9; 9]]) [] =
    Ret (d', [], out, Err NoMarker) /\
    [9; 255; 0; 9; 9] = out ++ buf d' /\ (length (buf d') <= length START_OF_OUTPUT)%nat.
Proof.
  apply (decode_no_marker find_marker collect [[9]; [255; 0; 9; 9]] []).
  - exact find_marker_first.
  - by repeat constructor.
  - intros j Hj. pose proof (marker_length _ _ Hj) as Hl. cbn in Hl.
    assert (j = 0 \/ j = 1)%nat as [-> | ->] by lia;
      vm_compute in Hj; discriminate.
Defined.
