(* ===== verification/KTrace.v ===== *)
(** The trace subscriber and the worker ([ktrace/src/lib.rs]): spans are
    kept in a slab with a reference count each, messages are serialised into
    the slots of a queue, and the worker writes what is queued to the serial
    port. The queue (thingbuf) and the serialiser (postcard) are third-party
    and appear as classes. *)
From S2P Require Import Prelude Bitfields Topology Slot FreeLists Slab SlabSpec Proto Decoder.

(** * What the tracing crate passes in *)

(** The parent of a new span or of an event: none, the current span of the
    caller's context, or a span it names. *)
Inductive tracing_Parent := TRoot | TCurrent | TExplicit (id : SpanId).

Record tracing_Attributes := MkAttributes {
  attributes_metadata : tracing_Metadata;
  attributes_parent : tracing_Parent;
  attributes_values : list (string * recorded);
}.

Record tracing_Event := MkTracingEvent {
  tevent_metadata : tracing_Metadata;
  tevent_parent : tracing_Parent;
  tevent_fields : list (string * option recorded);
}.

(** [proto::SenderMessage]. *)
Abbreviation SenderMessage :=
  (Proto.Message (list (string * option recorded)) (list (string * recorded))).

(** * State *)

Definition MAX_SPANS : nat := 128.

Record SpanState := MkSpanState {
  references : Z;
  span_metadata : tracing_Metadata;
}.

(** A queued message: its serialised form, and the error that ended the
    serialisation. *)
Record Message (E : Type) := MkMessage {
  error : option E;
  data : list Z;
}.
Arguments MkMessage {E}.
Arguments error {E}.
Arguments data {E}.

(** The capacity of [data]. *)
Definition DATA_CAPACITY : nat := 1024.

(** [Recycle<Message> for WithCapacity]. *)
Definition new_element {E} : Message E := MkMessage None [].
Definition recycle {E} (element : Message E) : Message E := MkMessage (error element) [].

(** ** The queue *)

(** [StaticThingBuf]: a bounded queue of slots that are recycled. [push_ref]
    gives a slot to write to, which is in the queue once it is written;
    [pop_ref] takes the oldest. *)
Class ThingBuf (Q E : Type) := {
  queue_new : Q;
  capacity : nat;
  queued : Q -> list (Message E);
  push_ref : Q -> option (Message E * (Message E -> Q));
  pop_ref : Q -> option (Message E * Q);
  queued_new : queued queue_new = [];
  push_ref_slot q slot commit :
    push_ref q = Some (slot, commit) ->
    (slot = new_element \/ exists m, slot = recycle m) /\
    forall m, queued (commit m) = queued q ++ [m];
  push_ref_full q : push_ref q = None <-> (capacity <= length (queued q))%nat;
  pop_ref_oldest q :
    match pop_ref q with
    | Some (m, q') => queued q = m :: queued q'
    | None => queued q = []
    end;
}.

(** ** The serialiser *)

(** [postcard::serialize_with_flavor]: the pieces that are handed to the
    flavor one after the other, and how the serialisation ends if it accepts
    them all. *)
Class Serializer (E : Type) := {
  emit : SenderMessage -> list (list Z) * rust (result unit E);
  SerializeBufferFull : E;
}.

(** [ExistingVec]: [try_extend] and [try_push] fail when the vector is
    full. *)
Definition try_extend (vec piece : list Z) : option (list Z) :=
  if decide (length vec + length piece <= DATA_CAPACITY)%nat then Some (vec ++ piece) else None.

(** The vector after the pieces that fit, and whether all did. *)
Fixpoint extend_all (vec : list Z) (pieces : list (list Z)) : list Z * bool :=
  match pieces with
  | [] => (vec, true)
  | piece :: pieces =>
      match try_extend vec piece with
      | Some vec => extend_all vec pieces
      | None => (vec, false)
      end
  end.

(** [Message::write_message]. *)
Definition write_message {E} `{Serializer E} (self : Message E) (msg : SenderMessage)
    : rust (Message E) :=
  let '(pieces, ending) := emit msg in
  let '(data, fit) := extend_all (data self) pieces in
  if fit : bool then
    r ← ending;
    Ret (MkMessage (match r with Ok _ => None | Err e => Some e end) data)
  else Ret (MkMessage (Some SerializeBufferFull) data).

(** * The subscriber *)

Section subscriber.
Context {prof : Profile} {bits : ModularBitfield} {topology : Topology}.
Context {E Q : Type} `{!Serializer E} `{!ThingBuf Q E}.
Implicit Types (spans : Slab SpanState) (queue : Q) (cpu : Slot.ProcessorId) (id : SpanId).

(** [KTrace::processor_id]. *)
Definition processor_id : Proto.ProcessorId := 0.

(** [if let Ok(mut slot) = QUEUE.push_ref() { slot.write_message(..) }]: a
    message is dropped when the queue is full. *)
Definition send queue (msg : SenderMessage) : rust Q :=
  match push_ref queue with
  | Some (slot, commit) => slot ← write_message slot msg; Ret (commit slot)
  | None => Ret queue
  end.

Definition proto_parent (p : tracing_Parent) : Parent :=
  match p with
  | TRoot => Root
  | TCurrent => Current processor_id
  | TExplicit id => Explicit id
  end.

(** The subscriber takes everything, and has no hint about levels. *)
Definition enabled (metadata : tracing_Metadata) : bool := true.
Definition event_enabled (e : tracing_Event) : bool := true.
Definition max_level_hint : option tracing_Level := None.

(** [record] and [record_follows_from] are [todo!()]. *)
Definition record (span : SpanId) (values : list (string * recorded)) : rust unit :=
  Panic NotImplemented.
Definition record_follows_from (span follows : SpanId) : rust unit := Panic NotImplemented.

(** [span::Id::from_u64] takes a number that is not zero. *)
Definition Id_from_u64 (w : Z) : rust SpanId :=
  if decide (w = 0) then Panic ExpectFailed else Ret w.

(** [new_span]. [fatal_error] is an endless loop. *)
Definition new_span spans queue cpu (span : tracing_Attributes) : rust (Slab SpanState * Q * SpanId) :=
  '(spans, inserted) ← Slab.insert spans (MkSpanState 1 (attributes_metadata span)) cpu;
  match inserted with
  | Err _ => Panic EndlessLoop
  | Ok idx =>
      id ← Id_from_u64 (Idx_into idx);
      queue ← send queue (MSpanCreated (MkSpanCreated (Idx_into idx)
                (proto_parent (attributes_parent span))
                (from_tracing (attributes_metadata span)) (attributes_values span)));
      Ret (spans, queue, id)
  end.

Definition event queue (e : tracing_Event) : rust Q :=
  send queue (MEvent (MkEvent (proto_parent (tevent_parent e))
    (from_tracing (tevent_metadata e)) (tevent_fields e))).

Definition enter queue id : rust Q := send queue (MSpanEntered id processor_id).
Definition exit queue id : rust Q := send queue (MSpanExited id processor_id).

(** [state.references.fetch_add(delta)] through a [Ref]: the counter wraps,
    and the count before is returned. [fetch_sub] adds the negative. *)
Definition fetch_add spans (r : Idx) (delta : Z) : rust (Slab SpanState * Z) :=
  state ← ref_deref spans r;
  slot ← index (slots spans) (Z.to_nat (idx_index r));
  let state' := MkSpanState ((references state + delta) mod usize_bound) (span_metadata state) in
  let slot := MkSlot (lifecycle_word slot) (Some state') (next slot) (processor slot) in
  Ret (with_slot spans (Z.to_nat (idx_index r)) slot, references state).

(** [clone_span]: the reference to the slot is dropped on return. *)
Definition clone_span spans cpu id : rust (Slab SpanState * SpanId) :=
  '(spans, state) ← get spans (Idx_from id);
  match state with
  | None => Ret (spans, id)
  | Some r =>
      '(spans, _) ← fetch_add spans r 1;
      spans ← drop_reference spans r cpu;
      Ret (spans, id)
  end.

Definition try_close spans cpu id : rust (Slab SpanState * bool) :=
  let idx := Idx_from id in
  '(spans, state) ← get spans idx;
  match state with
  | None => Ret (spans, false)
  | Some r =>
      '(spans, references) ← fetch_add spans r (-1);
      if decide (references = 1) then
        spans ← drop_reference spans r cpu;
        '(spans, _) ← remove spans idx cpu;
        Ret (spans, true)
      else
        spans ← drop_reference spans r cpu;
        Ret (spans, false)
  end.
End subscriber.

(** * The worker *)

(** The writer accepts everything: it is what was written so far. *)
Record Worker := MkWorker { writer : list Z; total_events : Z }.

Section worker.
Context {prof : Profile} {E Q : Type} `{!ThingBuf Q E}.
Implicit Types (w : Worker) (queue : Q).

Definition worker_new (writer : list Z) : Worker := MkWorker writer 0.

(** [init]: the marker is written before the worker is created. *)
Definition worker_init (writer : list Z) : Worker := worker_new (writer ++ START_OF_OUTPUT).

(** [Worker::write_message]: [to_vec] is [postcard::to_vec] with a buffer
    of the given capacity. The message is written, or the failure to
    serialise it is a panic in a build with debug assertions. *)
Definition worker_write_message (to_vec : nat -> SenderMessage -> rust (result (list Z) E))
    (CAP : nat) w (msg : SenderMessage) : rust Worker :=
  r ← to_vec CAP msg;
  match r with
  | Ok data => Ret (MkWorker (writer w ++ data) (total_events w))
  | Err _ => if debug_assertions then Panic PanicCalled else Ret w
  end.

(** The body of [report_error] is commented out. *)
Definition report_error w (err : E) : Worker := w.

(** One event of [work]. *)
Definition work_event w (event : Message E) : rust Worker :=
  total ← add_usize (total_events w) 1;
  let w := from_option (report_error w) w (error event) in
  Ret (MkWorker (if decide (data event = []) then writer w else writer w ++ data event) total).

Lemma work_event_eq w (event : Message E) :
  work_event w event =
    (total ← add_usize (total_events w) 1;
     Ret (MkWorker (if decide (data event = []) then writer w else writer w ++ data event) total)).
Proof. unfold work_event. by destruct (error event). Qed.

(** [while let Some(event) = QUEUE.pop_ref()]. *)
Fixpoint work_loop (fuel : nat) w queue : rust (Worker * Q) :=
  match pop_ref queue with
  | None => Ret (w, queue)
  | Some (event, queue) =>
      match fuel with
      | O => Panic EndlessLoop
      | S fuel => w ← work_event w event; work_loop fuel w queue
      end
  end.

Definition work w queue : rust (Worker * Q) := work_loop (length (queued queue)) w queue.

(** [Drop for Worker]. *)
Definition worker_drop w queue : rust (Worker * Q) := work w queue.
End worker.

(** * The spans *)

Section spans.
Context {prof : Profile} {bits : ModularBitfield} {topology : Topology}.
Implicit Types (spans : Slab SpanState) (a : spec SpanState) (cpu : Slot.ProcessorId) (x : Idx).

Definition bumped (v : SpanState) (delta : Z) : SpanState :=
  MkSpanState ((references v + delta) mod usize_bound) (span_metadata v).

Definition with_value a x (v : SpanState) : spec SpanState :=
  MkSpec (<[x := v]> (given a)) (live a) (refs a).

(** Replacing the contents of an allocated slot that has no references. *)
Lemma with_value_inv spans a x s v :
  slab_inv spans a -> refs a = [] -> idx_valid x -> x ∈ live a ->
  slots spans !! Z.to_nat (idx_index x) = Some s ->
  slab_inv (with_slot spans (Z.to_nat (idx_index x))
             (MkSlot (lifecycle_word s) (Some v) (next s) (processor s))) (with_value a x v).
Proof.
  intros Hi Hr Hx Hl Hs. pose proof (here_valid _ Hx) as Hh.
  pose proof (find_target spans a x Hi) as Ht. rewrite Hs in Ht.
  inversion Ht as [|? st g gl lls Hs' Hall Hli Hok]; simplify_eq.
  destruct (proj1 (so_live _ _ _ _ _ _ Hok x Hh) Hl) as [-> <-].
  eapply (slab_inv_update spans a _ s _ _ _ _ gl lls gl lls); try done.
  - by eapply lists_update.
  - split; try done. intros y Hy. simpl. rewrite lookup_insert_ne; [done|].
    intros ->. by apply Hy.
  - exists Allocated, (idx_generation x).
    destruct Hok as [[Hw Hok] Hrg Hf Hun Hz Hco Hlv Hgi]. split; try done.
    + intros _. exists v. split; [done|]. simpl.
      rewrite <-(idx_at _ _ Hh). apply lookup_insert_eq.
    + intros y w. simpl. intros [[<- <-]|[? Hy]]%lookup_insert_Some; [|by eapply Hgi].
      intros _. destruct Hco as (u&_&Hu); [done|].
      rewrite <-(idx_at _ _ Hh) in Hu. by eapply Hgi.
  - intros y Hy. by right.
Qed.

(** A live span, seen through the slab: taking a reference, changing the
    counter and dropping the reference changes the counter only. *)
Lemma bump_slab spans a x cpu delta :
  slab_inv spans a -> refs a = [] -> idx_valid x -> x ∈ live a ->
  exists s v spans1 spans2, slots spans !! Z.to_nat (idx_index x) = Some s /\
    get spans x = Ret (spans1, Some x) /\
    fetch_add spans1 x delta = Ret (spans2, references v) /\
    drop_reference spans2 x cpu = Ret (with_slot spans (Z.to_nat (idx_index x))
      (MkSlot (lifecycle_word s) (Some (bumped v delta)) (next s) (processor s))) /\
    given a !! x = Some v.
Proof.
  intros Hi Hr Hx Hl. pose proof (here_valid _ Hx) as Hh.
  pose proof (find_target spans a x Hi) as Ht.
  destruct (slots spans !! Z.to_nat (idx_index x)) as [s|] eqn:Hs; inversion Ht as
    [? Hnl|s' st g gl lls Hs' Hall Hli Hok]; [|done]. simplify_eq.
  destruct (proj1 (so_live _ _ _ _ _ _ Hok x Hh) Hl) as [-> <-].
  destruct (so_contents _ _ _ _ _ _ Hok) as (v&Hc&Hv); [done|].
  rewrite <-(idx_at _ _ Hh) in Hv. pose proof (so_is _ _ _ _ _ _ Hok) as His.
  rewrite Hr in His. simpl in His. pose proof (lookup_lt_Some _ _ _ Hs) as Hlt.
  exists s, v. unfold get, fetch_add, drop_reference, ref_deref, index. rewrite Hs.
  rewrite (acquire_reference_ok _ _ _ _ _ His), !decide_False by naive_solver.
  rewrite decide_True by lia. cbn [mbind rust_bind].
  eexists _, _. split; [done|]. split; [done|].
  simpl. rewrite list_lookup_insert_eq by done. simpl. rewrite Hc. simpl.
  split; [done|]. simpl. rewrite list_lookup_insert_eq by (by rewrite length_insert). simpl.
  change (Z.of_nat 0 + 1) with 1.
  assert (His1 : slot_is (MkSlot (Lifecycle_into (lifecycle Allocated (idx_generation x) 1))
                   (Some (bumped v delta)) (next s) (processor s)) Allocated (idx_generation x) 1).
  { split; [done|]. destruct His as [_ [??]]. split; lia. }
  unfold bumped, with_word in *. simpl.
  rewrite (release_reference_ok _ _ _ _ _ His1), !decide_False by naive_solver.
  rewrite decide_True by lia. cbn [mbind rust_bind bool_decide andb decide].
  change (1 - 1) with (Z.of_nat 0). split; [|done].
  unfold with_slot, with_slots. simpl. rewrite !list_insert_insert_eq.
  change 0 with (Z.of_nat 0). by rewrite <-(slot_word _ _ _ _ His).
Qed.

Lemma bump_ok spans a x cpu delta :
  slab_inv spans a -> refs a = [] -> idx_valid x -> x ∈ live a ->
  exists v spans1 spans2 spans3, given a !! x = Some v /\
    get spans x = Ret (spans1, Some x) /\
    fetch_add spans1 x delta = Ret (spans2, references v) /\
    drop_reference spans2 x cpu = Ret spans3 /\
    global_free_list spans3 = global_free_list spans /\
    slab_inv spans3 (with_value a x (bumped v delta)).
Proof.
  intros Hi Hr Hx Hl. destruct (bump_slab spans a x cpu delta Hi Hr Hx Hl) as (s&v&sp1&sp2&Hs&Eg&Ef&Ed&Hv).
  exists v, sp1, sp2. eexists. split_and!; try done. by apply (with_value_inv spans a x s).
Qed.

(** An index that is not live is not found, and nothing changes. *)
Lemma get_dead spans a x :
  slab_inv spans a -> idx_valid x -> x ∉ live a -> get spans x = Ret (spans, None).
Proof.
  intros Hi Hx Hn. unfold get. pose proof (here_valid _ Hx) as Hh. pose proof (find_target spans a x Hi) as Ht.
  destruct (slots spans !! Z.to_nat (idx_index x)) as [s|] eqn:Hs; [|done].
  inversion Ht as [|s' st g gl lls Hs' Hall Hl Hok]; simplify_eq.
  rewrite (acquire_reference_ok _ _ _ _ _ (so_is _ _ _ _ _ _ Hok)).
  pose proof (so_live _ _ _ _ _ _ Hok x Hh) as Hlive.
  destruct (decide (g <> idx_generation x)) as [|Hg]; [cbn [mbind rust_bind]; by rewrite with_slot_id|].
  destruct (decide (st <> Allocated)) as [|Hst]; [cbn [mbind rust_bind]; by rewrite with_slot_id|].
  exfalso. apply Hn, Hlive. split; [by apply dec_stable in Hst|by apply dec_stable in Hg].
Qed.
End spans.

(** * Runs of the whole system *)

Inductive trace_call :=
  | NewSpan (span : tracing_Attributes)
  | EventOf (e : tracing_Event)
  | Enter (id : SpanId)
  | Exit (id : SpanId)
  | CloneSpan (id : SpanId)
  | TryClose (id : SpanId)
  | Work.

Inductive trace_outcome :=
  | NewId (id : SpanId)
  | Cloned (id : SpanId)
  | Closed (b : bool)
  | Done.

(** The message of a call. *)
Definition message_of (c : trace_call) (o : trace_outcome) : option SenderMessage :=
  match c, o with
  | NewSpan span, NewId id =>
      Some (MSpanCreated (MkSpanCreated id (proto_parent (attributes_parent span))
        (from_tracing (attributes_metadata span)) (attributes_values span)))
  | EventOf e, _ =>
      Some (MEvent (MkEvent (proto_parent (tevent_parent e))
        (from_tracing (tevent_metadata e)) (tevent_fields e)))
  | Enter id, _ => Some (MSpanEntered id processor_id)
  | Exit id, _ => Some (MSpanExited id processor_id)
  | _, _ => None
  end.

(** Which spans are open, with their reference counts, and which indices
    have been given out. *)
Record span_table := MkSpanTable {
  known : gset Idx;
  open_spans : gmap Idx SpanState;
}.

Definition no_spans : span_table := MkSpanTable ∅ ∅.

(** What the subscriber promises about spans: a new one has a new identifier
    and one reference; cloning and closing count; the last close ends the
    span, and identifiers of spans that are not open are ignored. *)
Inductive span_step `{ModularBitfield} (t : span_table) : trace_call -> trace_outcome -> span_table -> Prop :=
  | span_new span x :
      x ∉ known t -> 0 < Idx_into x < 2 ^ 64 -> Idx_from (Idx_into x) = x ->
      span_step t (NewSpan span) (NewId (Idx_into x))
        (MkSpanTable ({[x]} ∪ known t)
           (<[x := MkSpanState 1 (attributes_metadata span)]> (open_spans t)))
  | span_clone id v :
      open_spans t !! Idx_from id = Some v ->
      span_step t (CloneSpan id) (Cloned id)
        (MkSpanTable (known t) (<[Idx_from id := bumped v 1]> (open_spans t)))
  | span_clone_closed id :
      open_spans t !! Idx_from id = None ->
      span_step t (CloneSpan id) (Cloned id) t
  | span_close_shared id v :
      open_spans t !! Idx_from id = Some v -> references v <> 1 ->
      span_step t (TryClose id) (Closed false)
        (MkSpanTable (known t) (<[Idx_from id := bumped v (-1)]> (open_spans t)))
  | span_close_last id v :
      open_spans t !! Idx_from id = Some v -> references v = 1 ->
      span_step t (TryClose id) (Closed true)
        (MkSpanTable (known t) (delete (Idx_from id) (open_spans t)))
  | span_close_closed id :
      open_spans t !! Idx_from id = None ->
      span_step t (TryClose id) (Closed false) t
  | span_event e : span_step t (EventOf e) Done t
  | span_enter id : span_step t (Enter id) Done t
  | span_exit id : span_step t (Exit id) Done t
  | span_work : span_step t Work Done t.

Inductive span_trace `{ModularBitfield} :
    span_table -> list (trace_call * trace_outcome) -> span_table -> Prop :=
  | spans_nil t : span_trace t [] t
  | spans_cons t c o t1 tr t2 :
      span_step t c o t1 -> span_trace t1 tr t2 -> span_trace t ((c, o) :: tr) t2.

Section run.
Context {prof : Profile} {bits : ModularBitfield} {topology : Topology}.
Context {E Q : Type} `{!Serializer E} `{!ThingBuf Q E}.
Implicit Types (a : spec SpanState) (cpu : Slot.ProcessorId) (x : Idx) (t : span_table).

Record system := MkSystem {
  spans_of : Slab SpanState;
  queue_of : Q;
  worker_of : Worker;
}.
Implicit Types (s : system).

(** [init], with the queue in its initial state. *)
Definition ktrace_init (written : list Z) : rust system :=
  let worker := worker_init written in
  spans ← slab_new MAX_SPANS;
  Ret (MkSystem spans queue_new worker).

Definition run_trace s cpu (c : trace_call) : rust (system * trace_outcome) :=
  match c with
  | NewSpan span =>
      '(spans, queue, id) ← new_span (spans_of s) (queue_of s) cpu span;
      Ret (MkSystem spans queue (worker_of s), NewId id)
  | EventOf e =>
      queue ← event (queue_of s) e;
      Ret (MkSystem (spans_of s) queue (worker_of s), Done)
  | Enter id =>
      queue ← enter (queue_of s) id;
      Ret (MkSystem (spans_of s) queue (worker_of s), Done)
  | Exit id =>
      queue ← exit (queue_of s) id;
      Ret (MkSystem (spans_of s) queue (worker_of s), Done)
  | CloneSpan id =>
      '(spans, id) ← clone_span (spans_of s) cpu id;
      Ret (MkSystem spans (queue_of s) (worker_of s), Cloned id)
  | TryClose id =>
      '(spans, b) ← try_close (spans_of s) cpu id;
      Ret (MkSystem spans (queue_of s) (worker_of s), Closed b)
  | Work =>
      '(worker, queue) ← work (worker_of s) (queue_of s);
      Ret (MkSystem (spans_of s) queue worker, Done)
  end.

Inductive traces : system -> list (trace_call * trace_outcome) -> system -> Prop :=
  | traces_nil s : traces s [] s
  | traces_cons s cpu c o s1 tr s2 :
      0 <= cpu < MAX_PROCESSORS -> run_trace s cpu c = Ret (s1, o) -> traces s1 tr s2 ->
      traces s ((c, o) :: tr) s2.

(** ** The spans of the system *)

Record tracks (spans : Slab SpanState) a t : Prop := {
  tracks_slab : slab_inv spans a;
  tracks_refs : refs a = [];
  tracks_known : known t = dom (given a);
  tracks_open x : open_spans t !! x = if decide (x ∈ live a) then given a !! x else None;
}.

(** Any identifier reads as an index of the right widths. *)
Lemma Idx_from_valid w : idx_valid (Idx_from w).
Proof.
  unfold Idx_from. rewrite !unpack_cons, unpack_nil.
  split; simpl; apply Z.mod_pos_bound; lia.
Qed.

Lemma Idx_into_valid x :
  idx_valid x -> 0 < idx_generation x ->
  0 < Idx_into x < 2 ^ 64 /\ Idx_from (Idx_into x) = x.
Proof.
  intros [Hg Hi] Hp. destruct x as [g i]; simpl in *. split; [rewrite Idx_into_eq; lia|].
  by apply Idx_from_into.
Qed.

Lemma tracks_live spans a t x v :
  tracks spans a t -> open_spans t !! x = Some v -> x ∈ live a /\ given a !! x = Some v.
Proof. intros Ht. rewrite (tracks_open _ _ _ Ht). by case_decide. Qed.

(** A live index has a value. *)
Lemma slab_live_given spans a x : slab_inv spans a -> idx_valid x -> x ∈ live a -> is_Some (given a !! x).
Proof.
  intros Hi Hx Hl. pose proof (here_valid _ Hx) as Hh. pose proof (find_target spans a x Hi) as Ht.
  inversion Ht as [? Hnl|s st g gl lls Hs Hall Hli Hok Es]; [done|].
  destruct (proj1 (so_live _ _ _ _ _ _ Hok x Hh) Hl) as [-> <-].
  destruct (so_contents _ _ _ _ _ _ Hok) as (v&_&Hv); [done|].
  rewrite <-(idx_at _ _ Hh) in Hv. by eexists.
Qed.

Lemma tracks_dead spans a t x :
  tracks spans a t -> idx_valid x -> open_spans t !! x = None -> x ∉ live a.
Proof.
  intros Ht Hx. rewrite (tracks_open _ _ _ Ht). case_decide as Hl; [|done].
  destruct (slab_live_given _ _ _ (tracks_slab _ _ _ Ht) Hx Hl) as [v ->]. done.
Qed.

Lemma tracks_bump spans a t x v delta :
  tracks spans a t -> open_spans t !! x = Some v ->
  forall spans', slab_inv spans' (with_value a x (bumped v delta)) ->
  tracks spans' (with_value a x (bumped v delta))
    (MkSpanTable (known t) (<[x := bumped v delta]> (open_spans t))).
Proof.
  intros Ht Hv spans' Hi. destruct (tracks_live _ _ _ _ _ Ht Hv) as [Hl Hg].
  destruct Ht as [_ Hr Hk Ho]. split; [done|done| |].
  - simpl. rewrite dom_insert_lookup_L; [done|]. by eexists.
  - intros y. simpl. destruct (decide (x = y)) as [<-|Hne].
    + rewrite !lookup_insert_eq. by rewrite decide_True.
    + rewrite !lookup_insert_ne by done. apply Ho.
Qed.

Lemma clone_span_ok spans a t cpu id :
  tracks spans a t ->
  exists spans' a' t', clone_span spans cpu id = Ret (spans', id) /\
    span_step t (CloneSpan id) (Cloned id) t' /\ tracks spans' a' t'.
Proof.
  intros Ht. pose proof (Idx_from_valid id) as Hx. unfold clone_span.
  destruct (open_spans t !! Idx_from id) as [v|] eqn:Ev.
  - destruct (tracks_live _ _ _ _ _ Ht Ev) as [Hl Hg].
    destruct (bump_ok spans a _ cpu 1 (tracks_slab _ _ _ Ht) (tracks_refs _ _ _ Ht) Hx Hl)
      as (v'&sp1&sp2&sp3&Hg'&Eg&Ef&Ed&_&Hi). simplify_eq.
    rewrite Eg. cbn [mbind rust_bind]. rewrite Ef. cbn [mbind rust_bind]. rewrite Ed.
    eexists _, _, _. split; [done|]. split; [by apply span_clone|]. by eapply tracks_bump.
  - pose proof (tracks_dead _ _ _ _ Ht Hx Ev) as Hn.
    pose proof (get_ok spans a _ (tracks_slab _ _ _ Ht) Hx) as Hget.
    destruct (get spans (Idx_from id)) as [[sp1 o]|w]; [|by destruct Hget as (_&?&_)].
    rewrite !decide_False in Hget by done. destruct Hget as [-> Hi]. cbn [mbind rust_bind].
    exists sp1, a, t. split; [done|]. split; [by apply span_clone_closed|].
    destruct Ht. by split.
Qed.

Lemma tracks_close spans a t x v :
  tracks spans a t -> open_spans t !! x = Some v ->
  forall spans' v', slab_inv spans' (spec_remove (with_value a x v') x) ->
  tracks spans' (spec_remove (with_value a x v') x)
    (MkSpanTable (known t) (delete x (open_spans t))).
Proof.
  intros Ht Hv spans' v' Hi. destruct (tracks_live _ _ _ _ _ Ht Hv) as [Hl Hg].
  destruct Ht as [_ Hr Hk Ho]. split; [done|done| |].
  - simpl. rewrite dom_insert_lookup_L; [done|]. by eexists.
  - intros y. simpl. destruct (decide (x = y)) as [<-|Hne].
    + rewrite lookup_delete_eq, decide_False; [done|]. set_solver.
    + rewrite lookup_delete_ne, lookup_insert_ne, Ho by done.
      by apply decide_ext; set_solver.
Qed.

(** Closing runs out only when a slot has to go back to the global list and
    its tag has no value left. *)
Lemma try_close_ok spans a t cpu id :
  tracks spans a t -> 0 <= cpu < MAX_PROCESSORS ->
  match try_close spans cpu id with
  | Ret (spans', b) => exists a' t', span_step t (TryClose id) (Closed b) t' /\ tracks spans' a' t'
  | Panic _ => 2 ^ 46 <= tag (global_free_list spans)
  end.
Proof.
  intros Ht Hcpu. pose proof (Idx_from_valid id) as Hx. unfold try_close.
  destruct (open_spans t !! Idx_from id) as [v|] eqn:Ev.
  - destruct (tracks_live _ _ _ _ _ Ht Ev) as [Hl Hg].
    destruct (bump_ok spans a _ cpu (-1) (tracks_slab _ _ _ Ht) (tracks_refs _ _ _ Ht) Hx Hl)
      as (v'&sp1&sp2&sp3&Hg'&Eg&Ef&Ed&Et&Hi). simplify_eq.
    rewrite Eg. cbn [mbind rust_bind]. rewrite Ef. cbn [mbind rust_bind].
    destruct (decide (references v = 1)) as [E1|E1]; rewrite Ed; cbn [mbind rust_bind].
    + pose proof (remove_ok sp3 _ _ cpu Hi Hx Hcpu) as Hrm.
      destruct (remove sp3 _ cpu) as [[sp4 b]|w]; cbn [mbind rust_bind]; [|by rewrite Et in Hrm].
      destruct Hrm as [_ Hi4]. eexists _, _. split; [by apply (span_close_last _ id v)|].
      by eapply tracks_close.
    + eexists _, _. split; [by apply (span_close_shared _ id v)|]. by eapply tracks_bump.
  - pose proof (tracks_dead _ _ _ _ Ht Hx Ev) as Hn.
    pose proof (get_ok spans a _ (tracks_slab _ _ _ Ht) Hx) as Hget.
    destruct (get spans (Idx_from id)) as [[sp1 o]|w]; [|by destruct Hget as (_&?&_)].
    rewrite !decide_False in Hget by done. destruct Hget as [-> Hi]. cbn [mbind rust_bind].
    exists a, t. split; [by apply span_close_closed|]. destruct Ht. by split.
Qed.

(** What a serialisation can end in besides a result. *)
Definition emission_panics (msg : SenderMessage) (w : panic) : Prop := (emit msg).2 = Panic w.

Lemma send_panics (queue : Q) msg w : send queue msg = Panic w -> emission_panics msg w.
Proof.
  unfold send, write_message, emission_panics. destruct (push_ref queue) as [[slot commit]|]; [|done].
  destruct (emit msg) as [pieces ending]. destruct (extend_all _ _) as [d [|]]; [|done].
  destruct ending; simpl; [done|]. by intros [= ->].
Qed.

(** A new span needs a free slot within reach of the processor that has
    generations left, and a serialisation that returns. *)
Definition new_span_stops (spans : Slab SpanState) cpu (span : tracing_Attributes) (w : panic) : Prop :=
  w = EndlessLoop /\
    (exists spans' v, Slab.insert spans (MkSpanState 1 (attributes_metadata span)) cpu = Ret (spans', Err v)) \/
  (exists i, exhausted spans i) \/
  exists id, emission_panics (MSpanCreated (MkSpanCreated id (proto_parent (attributes_parent span))
    (from_tracing (attributes_metadata span)) (attributes_values span))) w.

Lemma new_span_ok spans a t cpu queue span :
  tracks spans a t -> 0 <= cpu < MAX_PROCESSORS ->
  match new_span spans queue cpu span with
  | Ret (spans', queue', id) =>
      send queue (MSpanCreated (MkSpanCreated id (proto_parent (attributes_parent span))
        (from_tracing (attributes_metadata span)) (attributes_values span))) = Ret queue' /\
      exists a' t', span_step t (NewSpan span) (NewId id) t' /\ tracks spans' a' t'
  | Panic w => new_span_stops spans cpu span w
  end.
Proof.
  intros Ht Hcpu. unfold new_span, new_span_stops.
  pose proof (insert_ok spans a (MkSpanState 1 (attributes_metadata span)) cpu
                (tracks_slab _ _ _ Ht) Hcpu) as Hins.
  destruct (Slab.insert spans _ cpu) as [[sp1 [x|v]]|w]; cbn [mbind rust_bind].
  - destruct Hins as (Hx&Hp&Hn&Hi). destruct (Idx_into_valid x Hx Hp) as [Hb Hf].
    unfold Id_from_u64. rewrite decide_False by lia. cbn [mbind rust_bind].
    destruct (send queue _) as [queue'|w] eqn:Es; cbn [mbind rust_bind].
    + split; [done|]. eexists _, _. split; [apply (span_new t span x); try done|].
      { rewrite (tracks_known _ _ _ Ht). by apply not_elem_of_dom. }
      destruct Ht as [_ Hr Hk Ho]. split; [exact Hi|done| |].
      * simpl. by rewrite dom_insert_L, Hk.
      * intros y. simpl. destruct (decide (x = y)) as [<-|Hne].
        -- rewrite !lookup_insert_eq, decide_True; [done|]. set_solver.
        -- rewrite !lookup_insert_ne by done. rewrite Ho. apply decide_ext. set_solver.
    + right; right. exists (Idx_into x). by apply send_panics in Es.
  - left. split; [done|]. by eexists _, _.
  - right; left. apply Hins.
Qed.

(** ** The queue and the worker *)

(** Everything that is queued is written, oldest first. *)
Lemma work_loop_writes n w (queue : Q) w' queue' :
  (length (queued queue) <= n)%nat -> work_loop n w queue = Ret (w', queue') ->
  writer w' = writer w ++ concat (data <$> queued queue) /\ queued queue' = [].
Proof.
  revert w queue. induction n as [|n IH]; intros w queue Hn; simpl;
    pose proof (pop_ref_oldest queue) as Hpop; destruct (pop_ref queue) as [[m queue1]|].
  - rewrite Hpop in Hn. simpl in Hn. lia.
  - intros [= <- <-]. rewrite Hpop. simpl. by rewrite app_nil_r.
  - rewrite Hpop in Hn |- *. simpl in Hn. rewrite work_event_eq.
    destruct (add_usize _ _) as [total|]; [|done]. cbn [mbind rust_bind]. intros E1.
    apply IH in E1 as [-> ?]; [|lia]. split; [|done]. simpl.
    destruct (decide (data m = [])) as [->|_]; [done|]. by rewrite <-app_assoc.
  - intros [= <- <-]. rewrite Hpop. simpl. by rewrite app_nil_r.
Qed.

Lemma work_loop_returns n w (queue : Q) :
  (length (queued queue) <= n)%nat ->
  0 <= total_events w -> total_events w + Z.of_nat (length (queued queue)) < usize_bound ->
  exists r, work_loop n w queue = Ret r.
Proof.
  revert w queue. induction n as [|n IH]; intros w queue Hn Hp Hb; simpl;
    pose proof (pop_ref_oldest queue) as Hpop; destruct (pop_ref queue) as [[m queue1]|]; eauto.
  - rewrite Hpop in Hn. simpl in Hn. lia.
  - rewrite Hpop in Hn, Hb. simpl in Hn, Hb. rewrite work_event_eq.
    rewrite add_usize_ok by (split; lia). cbn [mbind rust_bind].
    apply IH; simpl; lia.
Qed.

(** *** Serialisation *)

Definition encoded (msg : SenderMessage) : list Z := concat (emit msg).1.

(** The serialisation succeeds within the capacity of a queue slot. *)
Definition fits (msg : SenderMessage) : Prop :=
  (length (encoded msg) <= DATA_CAPACITY)%nat /\ (emit msg).2 = Ret (Ok tt).

Lemma extend_all_fit vec pieces :
  (length vec + length (concat pieces) <= DATA_CAPACITY)%nat ->
  extend_all vec pieces = (vec ++ concat pieces, true).
Proof.
  revert vec. induction pieces as [|p pieces IH]; intros vec Hl; simpl.
  - by rewrite app_nil_r.
  - simpl in Hl. rewrite length_app in Hl. unfold try_extend. rewrite decide_True by lia.
    rewrite IH by (rewrite length_app; lia). by rewrite <-app_assoc.
Qed.

(** Too much does not fit, and what fits is written all the same. *)
Lemma extend_all_overflow vec pieces :
  (DATA_CAPACITY < length vec + length (concat pieces))%nat ->
  (length vec <= DATA_CAPACITY)%nat ->
  exists k, extend_all vec pieces = (vec ++ concat (take k pieces), false) /\
    (k < length pieces)%nat /\ (length vec + length (concat (take k pieces)) <= DATA_CAPACITY)%nat /\
    forall p rest, pieces = p :: rest -> (length vec + length p <= DATA_CAPACITY)%nat -> (0 < k)%nat.
Proof.
  revert vec. induction pieces as [|p pieces IH]; intros vec Hl Hv; simpl in *; [lia|].
  unfold try_extend. destruct (decide (length vec + length p <= DATA_CAPACITY)%nat) as [Hp|Hp].
  - rewrite length_app in Hl. destruct (IH (vec ++ p)) as (k&E1&Hk&Hd&_); [rewrite length_app; lia..|].
    exists (S k). rewrite E1. simpl. rewrite length_app in *. rewrite <-app_assoc.
    repeat split; lia.
  - exists 0%nat. simpl. rewrite app_nil_r. repeat split; try lia. intros p' rest [= <- <-]. lia.
Qed.

Lemma slot_empty (queue : Q) slot commit :
  push_ref queue = Some (slot, commit) ->
  data slot = [] /\ forall m, queued (commit m) = queued queue ++ [m].
Proof. by intros [[->|[m ->]] ?]%push_ref_slot. Qed.

(** A message that fits is queued whole, or dropped whole when the queue is
    full. *)
Lemma send_fits queue msg queue' :
  fits msg -> send queue msg = Ret queue' ->
  if decide (length (queued queue) < capacity)%nat
  then queued queue' = queued queue ++ [MkMessage None (encoded msg)]
  else queue' = queue.
Proof.
  intros [Hl He]. unfold send. pose proof (push_ref_full queue) as Hf.
  destruct (push_ref queue) as [[slot commit]|] eqn:Ep.
  - destruct (slot_empty _ _ _ Ep) as [Hd Hc].
    rewrite decide_True; cycle 1.
    { destruct (decide (length (queued queue) < capacity)%nat); [done|].
      assert (Some (slot, commit) = None) by (apply Hf; lia). done. }
    unfold write_message, encoded in *. destruct (emit msg) as [pieces ending]. simpl in *. subst.
    rewrite Hd, extend_all_fit by (simpl; lia). simpl. intros [= <-]. by rewrite Hc.
  - rewrite decide_False; [by intros [= <-]|]. apply proj1 in Hf. specialize (Hf eq_refl). lia.
Qed.

Lemma new_span_sends spans (queue : Q) cpu span spans' queue' id :
  new_span spans queue cpu span = Ret (spans', queue', id) ->
  send queue (MSpanCreated (MkSpanCreated id (proto_parent (attributes_parent span))
    (from_tracing (attributes_metadata span)) (attributes_values span))) = Ret queue'.
Proof.
  unfold new_span. destruct (Slab.insert _ _ _) as [[sp1 [x|]]|]; cbn [mbind rust_bind]; [|done..].
  unfold Id_from_u64. destruct (decide _); [done|]. cbn [mbind rust_bind].
  destruct (send queue _) as [q1|] eqn:Es; [|done]. by intros [= <- <- <-].
Qed.

(** *** The stream of a run *)

Definition messages (tr : list (trace_call * trace_outcome)) : list SenderMessage :=
  omap (fun '(c, o) => message_of c o) tr.

(** Between two runs of the worker no more messages arise than the queue
    holds, [n] of which are there at the start. *)
Fixpoint short_bursts (n : nat) (tr : list (trace_call * trace_outcome)) : Prop :=
  match tr with
  | [] => True
  | (Work, _) :: tr => short_bursts 0 tr
  | (c, o) :: tr =>
      match message_of c o with
      | Some _ => (n < capacity)%nat /\ short_bursts (S n) tr
      | None => short_bursts n tr
      end
  end.

(** What was written and what is queued, together, is [written] and the
    encodings of [sent]. *)
Definition streams (written : list Z) (sent : list SenderMessage) s : Prop :=
  writer (worker_of s) ++ concat (data <$> queued (queue_of s)) =
  written ++ concat (encoded <$> sent).

Lemma streams_send written sent s msg queue' :
  streams written sent s -> fits msg -> send (queue_of s) msg = Ret queue' ->
  exists more, sublist more [msg] /\
    streams written (sent ++ more) (MkSystem (spans_of s) queue' (worker_of s)) /\
    ((length (queued (queue_of s)) < capacity)%nat ->
      more = [msg] /\ length (queued queue') = S (length (queued (queue_of s)))).
Proof.
  intros Hs Hf Es. pose proof (send_fits _ _ _ Hf Es) as Hq. unfold streams in *. simpl.
  destruct (decide (length (queued (queue_of s)) < capacity)%nat).
  - exists [msg]. split; [done|]. rewrite Hq. split.
    + rewrite !fmap_app, !concat_app. simpl. rewrite !app_nil_r.
      by rewrite app_assoc, Hs, <-app_assoc.
    + intros _. split; [done|]. rewrite length_app. simpl. lia.
  - subst queue'. exists []. split; [apply sublist_nil_l|]. rewrite app_nil_r. by split.
Qed.

(** The call that sends is the call that has a message. *)
Lemma run_trace_sends s cpu c s1 o msg :
  run_trace s cpu c = Ret (s1, o) -> message_of c o = Some msg ->
  send (queue_of s) msg = Ret (queue_of s1) /\ worker_of s1 = worker_of s /\
  forall n tr, short_bursts n ((c, o) :: tr) -> (n < capacity)%nat /\ short_bursts (S n) tr.
Proof.
  intros Er Em. destruct c as [span|e|id|id|id|id|]; simpl in *.
  - destruct (new_span _ _ _ _) as [[[sp q] id]|] eqn:En; [|done]. simplify_eq/=.
    by split; [eapply new_span_sends|].
  - unfold event in Er. destruct o; simplify_eq; (destruct (send _ _) eqn:Es; [|done]); by simplify_eq/=.
  - unfold enter in Er. destruct o; simplify_eq; (destruct (send _ _) eqn:Es; [|done]); by simplify_eq/=.
  - unfold exit in Er. destruct o; simplify_eq; (destruct (send _ _) eqn:Es; [|done]); by simplify_eq/=.
  - done.
  - done.
  - done.
Qed.

(** The other calls write what is queued or leave the stream alone. *)
Lemma run_trace_quiet s cpu c s1 o :
  run_trace s cpu c = Ret (s1, o) -> message_of c o = None ->
  (c = Work /\ writer (worker_of s1) = writer (worker_of s) ++ concat (data <$> queued (queue_of s)) /\
     queued (queue_of s1) = []) \/
  (c <> Work /\ queue_of s1 = queue_of s /\ worker_of s1 = worker_of s).
Proof.
  intros Er Em. destruct c as [span|e|id|id|id|id|]; simpl in *; try done.
  - destruct (new_span _ _ _ _) as [[[sp q] id]|] eqn:En; [|done]. by simplify_eq/=.
  - right. destruct (clone_span _ _ _) as [[sp id']|]; [|done]. by simplify_eq/=.
  - right. destruct (try_close _ _ _) as [[sp b]|]; [|done]. by simplify_eq/=.
  - left. destruct (work _ _) as [[w q]|] eqn:Ew; [|done]. simplify_eq/=.
    apply work_loop_writes in Ew as [-> ->]; [done|lia].
Qed.

Lemma traces_stream s tr s1 written sent :
  traces s tr s1 -> Forall fits (messages tr) -> streams written sent s ->
  exists more, sublist more (messages tr) /\ streams written (sent ++ more) s1 /\
    (short_bursts (length (queued (queue_of s))) tr -> more = messages tr).
Proof.
  intros Htr. revert sent. induction Htr as [s|s cpu c o s1 tr s2 _ Er _ IH]; intros sent Hf Hs.
  { exists []. by rewrite app_nil_r. }
  unfold messages in *. cbn [omap list_omap] in *.
  destruct (message_of c o) as [msg|] eqn:Em.
  - apply Forall_cons in Hf as [Hfm Hf].
    destruct (run_trace_sends _ _ _ _ _ _ Er Em) as (Es&Ew&Hb).
    destruct (streams_send _ _ _ _ _ Hs Hfm Es) as (m1&Hsub1&Hs1&Hq).
    assert (Hs1' : streams written (sent ++ m1) s1) by (unfold streams in *; by rewrite Ew).
    destruct (IH _ Hf Hs1') as (m2&Hsub2&Hs2&Hb2). exists (m1 ++ m2).
    split; [by apply (sublist_app m1 [msg] m2)|]. rewrite app_assoc. split; [done|].
    intros [Hn Hbs]%Hb. destruct (Hq Hn) as [-> Hl]. simpl. f_equal. apply Hb2. by rewrite Hl.
  - destruct (run_trace_quiet _ _ _ _ _ Er Em) as [(->&Ew&Eq)|(Hc&Eq&Ew)].
    + destruct (IH sent Hf) as (m2&?&?&Hb); [unfold streams in *; by rewrite Ew, Eq, app_nil_r|].
      exists m2. split; [done|]. split; [done|]. intros Hbs. apply Hb. by rewrite Eq.
    + destruct (IH sent Hf) as (m2&?&?&Hb); [unfold streams in *; by rewrite Ew, Eq|].
      exists m2. split; [done|]. split; [done|]. intros Hbs. apply Hb. rewrite Eq.
      cbn [short_bursts] in Hbs. rewrite Em in Hbs. by destruct c.
Qed.

(** ** Every call *)

(** The ways in which a call can fail to return. *)
Definition may_stop s cpu (c : trace_call) (w : panic) : Prop :=
  match c with
  | NewSpan span => new_span_stops (spans_of s) cpu span w
  | CloneSpan _ => False
  | TryClose _ => 2 ^ 46 <= tag (global_free_list (spans_of s))
  | Work => ~ (0 <= total_events (worker_of s) /\
      total_events (worker_of s) + Z.of_nat (length (queued (queue_of s))) < usize_bound)
  | _ => exists msg, message_of c Done = Some msg /\ emission_panics msg w
  end.

Lemma send_returns (queue : Q) msg w (P : panic -> Prop) :
  (emission_panics msg w -> P w) -> send queue msg = Panic w -> P w.
Proof. intros HP Es. by apply HP, (send_panics queue). Qed.

Lemma run_trace_ok s a t cpu c :
  tracks (spans_of s) a t -> 0 <= cpu < MAX_PROCESSORS ->
  match run_trace s cpu c with
  | Ret (s', o) => exists a' t', span_step t c o t' /\ tracks (spans_of s') a' t'
  | Panic w => may_stop s cpu c w
  end.
Proof.
  intros Ht Hcpu. destruct c as [span|e|id|id|id|id|]; cbn [run_trace may_stop].
  - pose proof (new_span_ok _ _ _ cpu (queue_of s) span Ht Hcpu) as H.
    destruct (new_span _ _ _ _) as [[[sp q] id]|w]; cbn [mbind rust_bind]; [|done]. by destruct H.
  - unfold event. destruct (send _ _) as [q|w] eqn:Es; cbn [mbind rust_bind].
    + exists a, t. split; [constructor|done].
    + eexists. split; [done|]. by apply send_panics in Es.
  - unfold enter. destruct (send _ _) as [q|w] eqn:Es; cbn [mbind rust_bind].
    + exists a, t. split; [constructor|done].
    + eexists. split; [done|]. by apply send_panics in Es.
  - unfold exit. destruct (send _ _) as [q|w] eqn:Es; cbn [mbind rust_bind].
    + exists a, t. split; [constructor|done].
    + eexists. split; [done|]. by apply send_panics in Es.
  - destruct (clone_span_ok _ _ _ cpu id Ht) as (sp&a'&t'&->&?&?). cbn [mbind rust_bind]. eauto.
  - pose proof (try_close_ok _ _ _ cpu id Ht Hcpu) as H.
    by destruct (try_close _ _ _) as [[sp b]|w]; cbn [mbind rust_bind].
  - destruct (work _ _) as [[w q]|w] eqn:Ew; cbn [mbind rust_bind].
    + exists a, t. split; [constructor|done].
    + intros [H1 H2]. destruct (work_loop_returns _ _ _ (le_n _) H1 H2) as [r Er].
      unfold work in Ew. congruence.
Qed.

Lemma traces_refine s tr s1 a t :
  traces s tr s1 -> tracks (spans_of s) a t ->
  exists a1 t1, span_trace t tr t1 /\ tracks (spans_of s1) a1 t1.
Proof.
  intros Htr. revert a t. induction Htr as [s|s cpu c o s1 tr s2 Hcpu Er _ IH]; intros a t Ht.
  { exists a, t. split; [constructor|done]. }
  pose proof (run_trace_ok s a t cpu c Ht Hcpu) as H. rewrite Er in H.
  destruct H as (a1&t1&Hs&Ht1). destruct (IH _ _ Ht1) as (a2&t2&?&?).
  exists a2, t2. split; [by econstructor|done].
Qed.

Lemma init_tracks boot s :
  ktrace_init boot = Ret s ->
  tracks (spans_of s) (MkSpec ∅ ∅ []) no_spans /\ queue_of s = queue_new /\
  worker_of s = MkWorker (boot ++ START_OF_OUTPUT) 0.
Proof.
  unfold ktrace_init. rewrite slab_new_eq, decide_True by done.
  cbn [mbind rust_bind]. intros [= <-]. simpl. split; [|done].
  split; [apply new_slab_inv; unfold MAX_SPANS; lia|done|simpl; by rewrite dom_empty_L|].
  intros x. simpl. by rewrite !lookup_empty, decide_False by set_solver.
Qed.

(** C26. Spans are reference-counted as the tracing crate expects: every
    sequence of calls made by any processors, with its outcomes, is one of
    the abstract span table, in which a new span has an unused identifier and
    one reference and exactly the close that takes the last reference ends
    it. Afterwards every call returns, except that a new span needs a free
    slot within reach (otherwise the code loops forever), that serialising a
    message can panic, and that counters of 46 and 64 bits can run out. *)
Theorem spans_refine_table boot s0 tr s1 :
  ktrace_init boot = Ret s0 -> traces s0 tr s1 ->
  (exists t, span_trace no_spans tr t) /\
  forall cpu c, 0 <= cpu < MAX_PROCESSORS ->
    match run_trace s1 cpu c with
    | Ret (s2, o) => exists t, span_trace no_spans (tr ++ [(c, o)]) t
    | Panic w => may_stop s1 cpu c w
    end.
Proof.
  intros [Ht _]%init_tracks Htr. destruct (traces_refine _ _ _ _ _ Htr Ht) as (a&t&Hst&Ht1).
  split; [by exists t|]. intros cpu c Hcpu. pose proof (run_trace_ok s1 a t cpu c Ht1 Hcpu) as H.
  destruct (run_trace s1 cpu c) as [[s2 o]|w]; [|done]. destruct H as (a2&t2&Hs&_). exists t2.
  clear -Hst Hs. induction Hst; simpl;
    [eapply spans_cons; [done|constructor]|]. eapply spans_cons; [done|]. auto.
Qed.

(** ** The stream *)

(** Every field has a value; for other events the map that is sent is
    shorter than announced. *)
Definition all_valued (msg : SenderMessage) : Prop :=
  match msg with
  | MEvent e => Forall (fun f => is_Some f.2) (event_fields e)
  | _ => True
  end.

Definition sent_bytes s : list Z := writer (worker_of s).

Lemma init_streams boot s :
  ktrace_init boot = Ret s -> streams (boot ++ START_OF_OUTPUT) [] s /\ queued (queue_of s) = [].
Proof.
  intros (_&Eq&Ew)%init_tracks. unfold streams. rewrite Eq, Ew, queued_new. done.
Qed.

(** After a run of the worker nothing is queued any more. *)
Lemma worked_bytes boot s0 tr s1 cpu s2 :
  ktrace_init boot = Ret s0 -> traces s0 tr s1 -> run_trace s1 cpu Work = Ret (s2, Done) ->
  Forall fits (messages tr) ->
  exists sent, sublist sent (messages tr) /\ (short_bursts 0 tr -> sent = messages tr) /\
    sent_bytes s2 = boot ++ START_OF_OUTPUT ++ concat (encoded <$> sent).
Proof.
  intros [Hs Hq]%init_streams Htr Ew Hf.
  destruct (traces_stream _ _ _ _ _ Htr Hf Hs) as (sent&Hsub&Hs1&Hb).
  exists sent. split; [done|]. rewrite Hq in Hb. split; [exact Hb|].
  destruct (run_trace_quiet _ _ _ _ _ Ew eq_refl) as [(_&Ew2&_)|(Hc&_)]; [|done].
  unfold sent_bytes. rewrite Ew2. unfold streams in Hs1. rewrite Hs1. by rewrite <-app_assoc.
Qed.

(** A message that is too large for its slot is reported to nobody and
    still written: what fitted of it, which is not nothing and not all,
    goes out in place of the message, and the host reads what follows from
    the middle of it. *)
Theorem overflow_written queue msg w piece pieces :
  (emit msg).1 = piece :: pieces -> piece <> [] -> (length piece <= DATA_CAPACITY)%nat ->
  (DATA_CAPACITY < length (encoded msg))%nat -> (length (queued queue) < capacity)%nat ->
  0 <= total_events w -> total_events w + Z.of_nat (length (queued queue)) + 1 < usize_bound ->
  exists queue' m rest w' queue2, send queue msg = Ret queue' /\
    error m = Some SerializeBufferFull /\ data m <> [] /\ rest <> [] /\
    encoded msg = data m ++ rest /\ queued queue' = queued queue ++ [m] /\
    work w queue' = Ret (w', queue2) /\
    writer w' = writer w ++ concat (data <$> queued queue) ++ data m.
Proof.
  intros Ep Hp Hpl Hov Hq Ht0 Ht. unfold send. pose proof (proj1 (push_ref_full queue)) as Hf.
  destruct (push_ref queue) as [[slot commit]|] eqn:Epr; [|specialize (Hf eq_refl); lia].
  destruct (slot_empty _ _ _ Epr) as [Hd Hc]. unfold write_message, encoded in *.
  destruct (emit msg) as [ps ending]. simpl in Ep. subst ps. cbn [fst] in *. rewrite Hd.
  destruct (extend_all_overflow [] (piece :: pieces)) as (k&->&Hk&Hkl&Hpos); [simpl in *; lia|simpl; lia|].
  specialize (Hpos _ _ eq_refl Hpl). cbn [mbind rust_bind app].
  set (m := MkMessage (Some SerializeBufferFull) (concat (take k (piece :: pieces)))).
  destruct (work_loop_returns (length (queued (commit m))) w (commit m)) as [[w' q2] Ew];
    [lia|done|rewrite Hc, length_app; simpl; lia|].
  exists (commit m), m, (concat (drop k (piece :: pieces))), w', q2.
  split; [done|]. split; [done|]. destruct k as [|k]; [lia|].
  split; [simpl; by destruct piece|]. split.
  - intros Hnil. assert (El : length (concat (piece :: pieces)) = length (concat (take (S k) (piece :: pieces)))).
    { by rewrite <-(take_drop (S k) (piece :: pieces)) at 1; rewrite concat_app, Hnil, app_nil_r. }
    rewrite El in Hov. cbn [length] in Hkl. lia.
  - split.
    { change (concat (piece :: pieces) =
        concat (take (S k) (piece :: pieces)) ++ concat (drop (S k) (piece :: pieces))).
      by rewrite <-concat_app, take_drop. } split; [apply Hc|]. split; [done|].
    apply work_loop_writes in Ew as [-> _]; [|lia]. rewrite Hc, fmap_app, concat_app. simpl.
    by rewrite app_nil_r.
Qed.
(** A list of calls, all made by one processor. *)
Fixpoint run_all s cpu (cs : list trace_call) : rust (system * list (trace_call * trace_outcome)) :=
  match cs with
  | [] => Ret (s, [])
  | c :: cs =>
      '(s, o) ← run_trace s cpu c;
      '(s, tr) ← run_all s cpu cs;
      Ret (s, (c, o) :: tr)
  end.

Lemma run_all_traces s cpu cs s' tr :
  0 <= cpu < MAX_PROCESSORS -> run_all s cpu cs = Ret (s', tr) -> traces s tr s'.
Proof.
  intros Hcpu. revert s s' tr. induction cs as [|c cs IH]; intros s s' tr; simpl;
    [intros [= <- <-]; constructor|].
  destruct (run_trace s cpu c) as [[s1 o]|] eqn:E1; [|done]. cbn [mbind rust_bind].
  destruct (run_all s1 cpu cs) as [[s2 tr2]|] eqn:E2; [|done]. intros [= <- <-].
  eapply traces_cons; [done|exact E1|by apply IH].
Qed.
End run.

(** What the sender writes for a message is what the receiver's format
    reads as that message, given that the fields announced are there. *)
Class WireProtocol (E M E' : Type) `{Serializer E} `{Postcard M E'} := {
  receive : SenderMessage -> M;
  receive_encoded msg : all_valued msg -> fits msg -> to_bytes (receive msg) = encoded msg;
}.

Section host.
Context {prof : Profile} {bits : ModularBitfield} {topology : Topology}.
Context {E Q M E' St : Type} `{!Serializer E} `{!ThingBuf Q E} `{!Postcard M E'} `{!WireProtocol E M E'}.
Context (find : list Z -> option nat) (f : M -> St -> St * result unit E').

(** C25. From the subscriber to the host, for messages that fit: after any
    calls of the subscriber by any processors, one at a time, and a last run
    of the worker, let every message have fitted its slot of the queue (an
    encoding of at most 1024 bytes that the serialiser completes; see
    [overflow_written] for what happens to a longer one) and every field of
    an event have had a value (see [event_announced_length] for one without).
    Let the host's decoder read the serial output in chunks that are not
    empty and of which the last begins behind the start-of-output marker (see
    [decode_withholds] for a last chunk that does not), where what was sent
    before tracing does not have the marker in it. It passes that boot output
    through and calls back for messages that were sent, in the order they
    were sent, none of them twice or in part, up to the first that the
    callback rejects; and for all of them if the queue never overflowed
    between two runs of the worker. *)
Theorem messages_reach_host boot (s0 s1 s2 : system (Q := Q)) tr cpu chunks l (st : St) :
  ktrace_init boot = Ret s0 -> traces s0 tr s1 -> run_trace s1 cpu Work = Ret (s2, Done) ->
  Forall fits (messages tr) -> Forall all_valued (messages tr) ->
  finds_first find -> Forall (fun c => c <> []) (chunks ++ [l]) ->
  concat (chunks ++ [l]) = sent_bytes s2 ->
  (forall j, (j < length boot)%nat -> ~ marker_at (sent_bytes s2) j) ->
  (length boot + length START_OF_OUTPUT <= length (concat chunks))%nat ->
  exists sent d', sublist sent (messages tr) /\ (short_bursts 0 tr -> sent = messages tr) /\
    decode find f decoder_new (Ok <$> chunks ++ [l]) st =
      Ret (d', (call_all f (receive <$> sent) st).1, boot,
           match (call_all f (receive <$> sent) st).2 with
           | Ok _ => Ok tt | Err e => Err (Callback e) end).
Proof.
  intros H0 Htr Hw Hf Hv Hfind Hne Ec Hboot Hlast.
  destruct (worked_bytes _ _ _ _ _ _ H0 Htr Hw Hf) as (sent&Hsub&Hb&Es).
  assert (Em : encoded <$> sent = to_bytes <$> (receive <$> sent)).
  { rewrite <-list_fmap_compose. apply list_fmap_ext. intros i msg Hi.
    apply list_elem_of_lookup_2 in Hi. pose proof (elem_of_sublist _ _ _ Hi Hsub) as Hin.
    rewrite Forall_forall in Hf, Hv.
    symmetry. by apply receive_encoded; auto. }
  rewrite Em in Es. rewrite <-Ec in Hboot. rewrite Es in Ec.
  destruct (decode_whole find f _ _ _ _ st Hfind Hne Ec Hboot Hlast) as (d'&st'&r&d''&->&Eb&_).
  destruct (decode_buffered_messages f _ (receive <$> sent) true st (Nat.lt_succ_diag_r _))
    as (d3&E3&_).
  rewrite E3 in Eb. simplify_eq. by exists sent, d'.
Qed.
End host.

(** * A queue, a serialiser and a run *)

Section witnesses.
#[local] Existing Instance lsb_first.
#[local] Existing Instance dev_profile.
#[local] Existing Instance x86_64_topology.
#[local] Existing Instance Decoder.bool_postcard.

#[local] Instance list_queue : ThingBuf (list (Message unit)) unit.
Proof.
  refine {|
    queue_new := [];
    capacity := 64;
    queued q := q;
    push_ref q := if decide (length q < 64)%nat then Some (new_element, fun m => q ++ [m]) else None;
    pop_ref q := match q with [] => None | m :: q => Some (m, q) end;
  |}.
  - done.
  - intros q slot commit. case_decide; [|done]. intros [= <- <-]. split; [by left|done].
  - intros q. case_decide; split; (done || lia).
  - by intros [|m q].
Defined.

(** A tag byte and a byte that tells entering from the other messages; a
    closed span gives more than a slot can hold. *)
#[local] Instance toy_serializer : Serializer unit := {|
  emit msg :=
    match msg with
    | MSpanEntered _ _ => ([[7]; [1]], Ret (Ok tt))
    | MSpanClosed _ => ([replicate 600 1; replicate 600 2], Ret (Ok tt))
    | _ => ([[7; 0]], Ret (Ok tt))
    end;
  SerializeBufferFull := tt;
|}.

#[local] Instance toy_protocol : WireProtocol unit bool unit.
Proof.
  refine {| receive msg := match msg with MSpanEntered _ _ => true | _ => false end |}.
  intros [?|?|?|?|?] _ [Hl _]; try done. vm_compute in Hl. lia.
Defined.

#[local] Definition sample_metadata : tracing_Metadata := MkTracingMetadata "init" "kernel" INFO None None.

#[local] Definition sample_calls : list trace_call :=
  [NewSpan (MkAttributes sample_metadata TRoot []); Enter 1; CloneSpan 1; TryClose 1;
   EventOf (MkTracingEvent sample_metadata TCurrent [("message", Some (RStr "hello"))]);
   Exit 1; TryClose 1; TryClose 1].

#[local] Definition sample_trace : list (trace_call * trace_outcome) :=
  zip sample_calls [NewId 1; Done; Cloned 1; Closed false; Done; Done; Closed true; Closed false].

#[local] Definition started : system (Q := list (Message unit)) :=
  match ktrace_init [9] with Ret s => s | Panic _ => MkSystem (new_slab 1) [] (MkWorker [] 0) end.

#[local] Definition ran : system (Q := list (Message unit)) :=
  match run_all started 0 sample_calls with Ret (s, _) => s | Panic _ => started end.

#[local] Definition worked : system (Q := list (Message unit)) :=
  match run_trace ran 0 Work with Ret (s, _) => s | Panic _ => started end.

Lemma started_eq : ktrace_init [9] = Ret started.
Proof. vm_compute. reflexivity. Qed.

Lemma ran_traces : traces started sample_trace ran.
Proof. apply (run_all_traces _ 0 sample_calls); [done|]. vm_compute. reflexivity. Qed.

Lemma worked_eq : run_trace ran 0 Work = Ret (worked, Done).
Proof. vm_compute. reflexivity. Qed.

Lemma worked_bytes_eq : sent_bytes worked = [9; 255; 0; 255; 0; 7; 0; 7; 1; 7; 0; 7; 0].
Proof. vm_compute. reflexivity. Qed.

Lemma spans_refine_table_witness : exists t, span_trace no_spans sample_trace t.
Proof. exact (proj1 (spans_refine_table [9] started sample_trace ran started_eq ran_traces)). Defined.

Lemma overflow_written_witness :
  exists queue' m rest w' queue2, send ([] : list (Message unit)) (MSpanClosed 1) = Ret queue' /\
    error m = Some tt /\ data m <> [] /\ rest <> [] /\
    encoded (MSpanClosed 1) = data m ++ rest /\ queued queue' = queued [] ++ [m] /\
    work (MkWorker [] 0) queue' = Ret (w', queue2) /\ writer w' = [] ++ [] ++ data m.
Proof.
  refine (overflow_written ([] : list (Message unit)) (MSpanClosed 1) (MkWorker [] 0)
            (replicate 600 1) [replicate 600 2] _ _ _ _ _ _ _);
    [done|done|vm_compute; lia|vm_compute; lia|simpl; lia|done|done].
Defined.

Lemma messages_reach_host_witness :
  exists sent d', sublist sent (messages sample_trace) /\
    (short_bursts 0 sample_trace -> sent = messages sample_trace) /\
    decode find_marker Decoder.collect decoder_new (Ok <$> [[9; 255; 0; 255; 0; 7]] ++ [[0; 7; 1; 7; 0; 7; 0]]) [] =
      Ret (d', (call_all Decoder.collect (receive <$> sent) []).1, [9],
           match (call_all Decoder.collect (receive <$> sent) []).2 with
           | Ok _ => Ok tt | Err e => Err (Callback e) end).
Proof.
  refine (messages_reach_host find_marker Decoder.collect [9] started ran worked sample_trace 0
    [[9; 255; 0; 255; 0; 7]] [0; 7; 1; 7; 0; 7; 0] [] started_eq ran_traces worked_eq
    _ _ find_marker_first _ _ _ _).
  - repeat constructor; vm_compute; lia.
  - repeat constructor; by eexists.
  - by repeat constructor.
  - rewrite worked_bytes_eq. reflexivity.
  - rewrite worked_bytes_eq. intros j Hj. cbn [length] in Hj. assert (j = 0)%nat as -> by lia.
    intros Hm; vm_compute in Hm; discriminate.
  - cbn. lia.
Defined.
End witnesses.
