(* ===== verification/KTraceLocal.v ===== *)
(** The subscriber on one processor, which is how the kernel runs: no
    processor but the first is started. *)
From S2P Require Import Prelude Bitfields Topology Slot FreeLists Slab SlabSpec SlabLocal Proto.
From S2P Require Import Decoder KTrace.

Section spans.
Context {prof : Profile} {bits : ModularBitfield} {topology : Topology}.
Context {E Q : Type} {ser : Serializer E} {buf : ThingBuf Q E}.
Implicit Types (s : system (Q := Q)) (spans : Slab SpanState).

Lemma fetch_add_local cpu spans spans' r delta n :
  fetch_add spans r delta = Ret (spans', n) -> stays_local cpu spans spans'.
Proof. unfold fetch_add. intros Ef. rust_inv Ef. simplify_eq/=. apply with_slot_local. Qed.

Lemma clone_span_local cpu spans spans' id id' :
  clone_span spans cpu id = Ret (spans', id') -> stays_local cpu spans spans'.
Proof.
  unfold clone_span. intros Ec. rust_inv Ec. destruct x as [sp1 o]. apply (get_local _ _ _ cpu) in Hx.
  destruct o as [r|]; [|by simplify_eq/=]. rust_inv Ec. destruct x as [sp2 n].
  apply (fetch_add_local cpu) in Hx0. rust_inv Ec. apply drop_reference_local in Hx1. simplify_eq/=.
  by repeat (etrans; [done|]).
Qed.

Lemma try_close_local cpu spans spans' id b :
  try_close spans cpu id = Ret (spans', b) -> stays_local cpu spans spans'.
Proof.
  unfold try_close. intros Ec. rust_inv Ec. destruct x as [sp1 o]. apply (get_local _ _ _ cpu) in Hx.
  destruct o as [r|]; [|by simplify_eq/=]. rust_inv Ec. destruct x as [sp2 n].
  apply (fetch_add_local cpu) in Hx0. destruct (decide (n = 1)); rust_inv Ec; apply drop_reference_local in Hx1.
  - destruct x0 as [sp3 b']. apply remove_local in Hx2. simplify_eq/=. by repeat (etrans; [done|]).
  - simplify_eq/=. by repeat (etrans; [done|]).
Qed.

Lemma run_trace_local s cpu c s' o :
  run_trace s cpu c = Ret (s', o) -> stays_local cpu (spans_of s) (spans_of s').
Proof.
  destruct c as [span|e|id|id|id|id|]; cbn [run_trace]; intros Er; rust_inv Er; try by simplify_eq/=.
  - destruct x as [[sp q] id]. simplify_eq/=. unfold new_span in Hx. rust_inv Hx. destruct x as [sp1 [y|v]]; [|done].
    apply insert_local in Hx0. rust_inv Hx. by simplify_eq/=.
  - destruct x as [sp id']. simplify_eq/=. by eapply clone_span_local.
  - destruct x as [sp b]. simplify_eq/=. by eapply try_close_local.
  - destruct x as [w q]. by simplify_eq/=.
Qed.

Lemma run_all_local s cpu calls s' tr :
  run_all s cpu calls = Ret (s', tr) -> stays_local cpu (spans_of s) (spans_of s').
Proof.
  revert s tr. induction calls as [|c calls IH]; intros s tr Er; cbn [run_all] in Er; rust_inv Er.
  - by simplify_eq/=.
  - destruct x as [s1 o]. rust_inv Er. destruct x as [s2 tr']. simplify_eq/=.
    etrans; [by eapply run_trace_local|by eapply IH].
Qed.

Lemma live_has_value spans a x : slab_inv spans a -> x ∈ live a -> is_Some (given a !! x).
Proof.
  intros [_ (gl&lls&_&Hall) Hb] Hl. destruct (Hb x ltac:(auto)) as [H0 Hlt].
  assert (Hh : here (Z.to_nat (idx_index x)) x) by (unfold here; lia).
  destruct (lookup_lt_is_Some_2 (slots spans) (Z.to_nat (idx_index x)) ltac:(lia)) as [s Hs].
  destruct (Hall _ _ Hs) as (st&g&Hok). destruct (proj1 (so_live _ _ _ _ _ _ Hok x Hh) Hl) as [-> <-].
  destruct (so_contents _ _ _ _ _ _ Hok) as (v&_&Hv); [done|]. rewrite <-(idx_at _ _ Hh) in Hv. by eexists.
Qed.

Lemma size_open spans a t : tracks spans a t -> size (live a) = size (open_spans t).
Proof.
  intros Ht. rewrite <-size_dom. f_equal. apply set_eq. intros x. rewrite elem_of_dom, (tracks_open _ _ _ Ht).
  case_decide as Hx; [|by split; [|intros []]]. split; [|done]. intros _.
  by apply (live_has_value spans), Hx; apply Ht.
Qed.

(** Spans on one processor. After any calls of the subscriber by one
    processor, a new span can be had by it as long as fewer than
    [MAX_SPANS] are open: the search for a slot that never ends, which a
    full slab leads to, is then not entered. What else can stop the call is
    a slot whose generations are used up and a serialisation that panics. *)
Theorem one_processor_spans boot s0 cpu calls s tr :
  ktrace_init boot = Ret s0 -> 0 <= cpu < MAX_PROCESSORS -> run_all s0 cpu calls = Ret (s, tr) ->
  exists t, span_trace no_spans tr t /\ forall span, (size (open_spans t) < MAX_SPANS)%nat ->
    match run_trace s cpu (NewSpan span) with
    | Ret _ => True
    | Panic w => (exists i, exhausted (spans_of s) i) \/
        exists id, emission_panics (MSpanCreated (MkSpanCreated id (proto_parent (attributes_parent span))
          (from_tracing (attributes_metadata span)) (attributes_values span))) w
    end.
Proof.
  intros E0 Hcpu Er. destruct (init_tracks _ _ E0) as [Ht0 _].
  destruct (traces_refine _ _ _ _ _ (run_all_traces _ _ _ _ _ Hcpu Er) Ht0) as (a&t&Hst&Ht).
  exists t. split; [done|]. intros span Hlt. cbn [run_trace].
  pose proof (new_span_ok _ _ _ cpu (queue_of s) span Ht Hcpu) as Hn.
  destruct (new_span _ _ _ _) as [[[sp q] id]|w]; [done|]. cbn [mbind rust_bind].
  destruct Hn as [[_ (sp&v&Ei)]|Hn]; [exfalso|done].
  pose proof (run_all_local _ _ _ _ _ Er) as Hloc.
  assert (Hs0 : spans_of s0 = new_slab MAX_SPANS).
  { unfold ktrace_init in E0. rewrite slab_new_eq, decide_True in E0 by done. cbn [mbind rust_bind] in E0.
    by simplify_eq/=. }
  rewrite Hs0 in Hloc. pose proof (stays_empty_elsewhere _ _ _ Hloc (new_empty_elsewhere cpu MAX_SPANS)) as He.
  pose proof (local_insert_full _ _ _ _ _ _ (tracks_slab _ _ _ Ht) Hcpu He Ei) as Hfull.
  rewrite (local_slots _ _ _ Hloc), (tracks_refs _ _ _ Ht), (size_open _ _ _ Ht) in Hfull.
  cbn [slots new_slab length] in Hfull. unfold fresh_slots in Hfull. rewrite length_fmap, length_seq in Hfull. lia.
Qed.
End spans.

Section witness.
#[local] Existing Instance lsb_first.
#[local] Existing Instance dev_profile.
#[local] Existing Instance x86_64_topology.
#[local] Existing Instance KTrace.list_queue.
#[local] Existing Instance KTrace.toy_serializer.

#[local] Definition first_span : tracing_Attributes := MkAttributes KTrace.sample_metadata TRoot [].

#[local] Definition first_call : list trace_call := [NewSpan first_span].

#[local] Definition after_first : system (Q := list (KTrace.Message unit)) :=
  match run_all KTrace.started 0 first_call with Ret (s, _) => s | Panic _ => KTrace.started end.

Lemma after_first_eq : run_all KTrace.started 0 first_call = Ret (after_first, [(NewSpan first_span, NewId 1)]).
Proof. vm_compute. reflexivity. Qed.

Lemma first_open t : span_trace no_spans [(NewSpan first_span, NewId 1)] t -> (size (open_spans t) < MAX_SPANS)%nat.
Proof.
  intros Ht. inversion Ht as [|? ? ? t1 ? ? Hs Hn]; subst. inversion Hn; subst. inversion Hs; subst. simpl.
  rewrite map_size_insert_None by done. rewrite map_size_empty. apply Nat.leb_le. reflexivity.
Qed.

(** A second span while the first is open. *)
Lemma one_processor_spans_witness : exists r, run_trace after_first 0 (NewSpan first_span) = Ret r.
Proof.
  destruct (one_processor_spans [9] KTrace.started 0 first_call after_first _ KTrace.started_eq ltac:(done) after_first_eq)
    as (t&Ht&Hn).
  specialize (Hn first_span (first_open t Ht)).
  destruct (run_trace after_first 0 (NewSpan first_span)) as [r|w] eqn:E1; [by exists r|].
  exfalso. vm_compute in E1. discriminate E1.
Defined.
End witness.
