(* ===== verification/SpanGenerations.v ===== *)
(** Spans that one processor opens and closes: generations and tags grow by
    one per span at most, so that a processor which is alone and keeps fewer
    than [MAX_SPANS] open can always open another and close it again. *)
From S2P Require Import Prelude Bitfields Topology Slot FreeLists Slab SlabSpec SlabLocal Proto.
From S2P Require Import Decoder KTrace KTraceLocal.

(** * How far the counters of a slab have got *)

Section young.
Context {prof : Profile} {bits : ModularBitfield} {topology : Topology} {T : Type}.
Implicit Types (sl : Slab T) (a : spec T) (s : Slot T) (m : Z).

(** No slot has a generation above [m], and the tag of the global list is
    not above it either. *)
Record young sl m : Prop := {
  young_slots i s st g r : slots sl !! i = Some s -> slot_is s st g r -> g <= m;
  young_tag : 0 <= tag (global_free_list sl) <= m;
}.

Lemma new_young SIZE : (0 < SIZE)%nat -> young (new_slab SIZE) 0.
Proof.
  intros Hpos. split; [|done]. intros i s st g r Hs His. pose proof (lookup_lt_Some _ _ _ Hs) as Hi.
  simpl in Hs, Hi. unfold fresh_slots in Hi. rewrite length_fmap, length_seq in Hi.
  rewrite fresh_slots_lookup in Hs by done. injection Hs as <-.
  assert (H0 : slot_is (fresh_slot (T := T) (fresh_next SIZE i)) Unallocated 0 0) by done.
  by destruct (slot_is_inj _ _ _ _ _ _ _ H0 His) as (_&<-&_).
Qed.

Lemma young_le sl m m' : young sl m -> m <= m' -> young sl m'.
Proof. intros [Hs Ht] Hm. split; [|lia]. intros i s st g r Hi His. pose proof (Hs _ _ _ _ _ Hi His). lia. Qed.

(** A young slab's slots have generations left. *)
Lemma young_not_exhausted sl m i : young sl m -> m < 2 ^ 46 - 1 -> ~ exhausted sl i.
Proof. intros [Hs _] Hm (s&Hi&His). pose proof (Hs _ _ _ _ _ Hi His). lia. Qed.

(** Only slot [i] has changed. *)
Lemma young_update sl m lf gf i s' :
  young sl m -> 0 <= tag gf <= m ->
  (forall st g r, slot_is s' st g r -> g <= m) ->
  young (MkSlab lf gf (<[i := s']> (slots sl))) m.
Proof.
  intros [Hs _] Ht Hg. split; [|done]. intros j s st g r Hj His. simpl in Hj.
  apply list_lookup_insert_Some in Hj as [(<-&<-&_)|[_ Hj]]; [by eapply Hg|by eapply Hs].
Qed.

Lemma same_generation s s' st g r m :
  slot_is s st g r -> lifecycle_word s' = lifecycle_word s -> g <= m ->
  forall st' g' r', slot_is s' st' g' r' -> g' <= m.
Proof.
  intros His Ew Hg st' g' r' [E Hok]. assert (His' : slot_is s st' g' r') by (split; congruence).
  by destruct (slot_is_inj _ _ _ _ _ _ _ His His') as (_&<-&_).
Qed.

Lemma one_generation s st g r m :
  slot_is s st g r -> g <= m -> forall st' g' r', slot_is s st' g' r' -> g' <= m.
Proof. intros His. by apply (same_generation s s st g r). Qed.

(** Inserting starts one generation of one slot. *)
Lemma insert_young sl sl' a v cpu x m :
  slab_inv sl a -> 0 <= cpu < MAX_PROCESSORS -> insert sl v cpu = Ret (sl', Ok x) -> young sl m ->
  young sl' (m + 1).
Proof.
  intros [_ (gl&lls&Hl&Hall) _] Hcpu E Hy.
  destruct (pop_slot_ok sl cpu gl lls Hl Hcpu) as (lf&gf&gl'&lls'&o&Ep&Hl'&Et&Ho).
  unfold insert in E. rewrite Ep in E. cbn [mbind rust_bind] in E. destruct o as [i|]; [|done].
  assert (Hin : i ∈ gl ++ concat lls) by (rewrite Ho; set_solver).
  destruct (lookup_lt_is_Some_2 (slots sl) i) as [s Hs]; [eapply lists_lt; [exact Hl|exact Hin]|].
  destruct (Hall _ _ Hs) as (st&g&Hok).
  assert (Hok' : slot_ok a True i s st g) by (destruct Hok; split; auto; tauto).
  destruct (free_slot _ _ _ _ _ Hok') as (->&_&His).
  pose proof (young_slots _ _ Hy _ _ _ _ _ Hs His) as Hg.
  unfold index in E. cbn [slots] in E. rewrite Hs in E. cbn [mbind rust_bind] in E.
  destruct (decide (g + 1 < 2 ^ 46)) as [Hlt|Hge]; cycle 1.
  { destruct (allocate_exhausted s g v cpu His ltac:(lia)) as [_ Ex]. by rewrite Ex in E. }
  destruct (allocate_ok s g v cpu His Hlt) as (s'&Ea&His'&_). rewrite Ea in E. cbn [mbind rust_bind] in E.
  rust_inv E. simplify_eq/=. apply (young_update sl); [apply (young_le sl m); [done|lia]| |].
  - destruct Hy. simpl. lia.
  - apply (one_generation s' Allocated (g + 1) 0); [done|lia].
Qed.

(** Clearing a slot and linking it into a list starts none. *)
Lemma link_slot_young storage storage' i w m :
  link_slot storage i w = Ret storage' ->
  (forall j s st g r, storage !! j = Some s -> slot_is s st g r -> g <= m) ->
  forall j s st g r, storage' !! j = Some s -> slot_is s st g r -> g <= m.
Proof.
  unfold link_slot, index. intros E Hs. destruct (storage !! i) as [s0|] eqn:Hi; [|done].
  cbn [mbind rust_bind] in E. injection E as <-. intros j s st g r Hj His.
  apply list_lookup_insert_Some in Hj as [(<-&<-&_)|[_ Hj]]; [|by eapply Hs].
  apply (Hs i s0 st g r Hi). by destruct His.
Qed.

Lemma return_slot_young sl sl' i cpu s st g v m :
  slots sl !! i = Some s -> slot_is s st g 0 -> contents s = Some v ->
  return_slot sl i cpu = Ret sl' -> young sl m -> young sl' (m + 1).
Proof.
  intros Hs His Hc E Hy. unfold return_slot, index in E. rewrite Hs in E. cbn [mbind rust_bind] in E.
  destruct (clear_ok s st g v His Hc) as (s'&Ec&His'&_). rewrite Ec in E. cbn [mbind rust_bind] in E.
  pose proof (young_slots _ _ Hy _ _ _ _ _ Hs His) as Hg.
  assert (Hy' : young (with_slot sl i s') m).
  { apply (young_update sl); [done|apply Hy|]. by apply (one_generation s' Unallocated g 0). }
  destruct Hy' as [Hall Ht]. simpl in Hall, Ht. case_decide.
  - rust_inv E. destruct x as [lf storage]. simplify_eq/=. unfold local_push, with_mut in Hx.
    rust_inv Hx. destruct x0 as [cell st']. simplify_eq/=. rust_inv Hx1. simplify_eq/=.
    split; [|simpl; lia]. intros j sj st1 g1 r1 Hj Hisj.
    pose proof (link_slot_young _ _ _ _ m Hx Hall j sj st1 g1 r1 Hj Hisj). lia.
  - rust_inv E. destruct x as [gf storage]. simplify_eq/=. unfold global_push in Hx.
    rust_inv Hx. destruct x as [f w]. rust_inv Hx. destruct (exchange_head _ _ _) as [f'|] eqn:Ef; [|done].
    simplify_eq/=. split; simpl.
    + intros j sj st1 g1 r1 Hj Hisj.
      pose proof (link_slot_young _ _ _ _ m Hx1 Hall j sj st1 g1 r1 Hj Hisj). lia.
    + unfold exchange_head in Ef. case_decide; [|done]. injection Ef as <-. simpl.
      unfold take_tag in Hx0. rust_inv Hx0. simplify_eq/=.
      pose proof (Z.mod_le (tag (global_free_list sl) + 1) (2 ^ 64)).
      pose proof (Z.mod_pos_bound (tag (global_free_list sl) + 1) (2 ^ 64)). lia.
Qed.

Lemma remove_young sl sl' a x cpu b m :
  slab_inv sl a -> refs a = [] -> idx_valid x -> remove sl x cpu = Ret (sl', b) -> young sl m ->
  young sl' (m + 1).
Proof.
  intros Hi Hr Hx E Hy. unfold remove in E. pose proof (find_target sl a x Hi) as Ht.
  destruct (slots sl !! Z.to_nat (idx_index x)) as [s|] eqn:Hs; [|simplify_eq; apply (young_le sl' m); [done|lia]].
  inversion Ht as [|s' st g gl lls Hs' Hall Hl Hok]; simplify_eq.
  pose proof (so_is _ _ _ _ _ _ Hok) as His. rewrite Hr in His. simpl in His.
  pose proof (young_slots _ _ Hy _ _ _ _ _ Hs His) as Hg.
  rewrite (mark_unallocated_ok _ _ _ _ _ His) in E.
  destruct (decide (g <> idx_generation x)).
  { simplify_eq/=. rewrite with_slot_id by done. apply (young_le sl m); [done|lia]. }
  destruct (decide (st <> Allocated)) as [|Hst].
  { simplify_eq/=. rewrite with_slot_id by done. apply (young_le sl m); [done|lia]. }
  apply dec_stable in Hst as ->. rewrite decide_False in E by done. cbn [mbind rust_bind] in E.
  rust_inv E. simplify_eq/=. destruct (so_contents _ _ _ _ _ _ Hok) as (v&Hc&_); [done|].
  pose proof (lookup_lt_Some _ _ _ Hs) as Hlt.
  set (s' := with_word s (Lifecycle_into (lifecycle Unallocated g 0))) in *.
  assert (His' : slot_is s' Unallocated g 0) by (split; [done|apply His]).
  eapply (return_slot_young _ _ _ _ s'); [|exact His'|exact Hc|exact Hx0|].
  - simpl. by rewrite list_lookup_insert_eq.
  - apply (young_update sl); [done|apply Hy|]. by apply (one_generation s' Unallocated g 0).
Qed.
End young.

(** * Opening and closing *)

Section spans.
Context {prof : Profile} {bits : ModularBitfield} {topology : Topology}.
Context {E Q : Type} {ser : Serializer E} {buf : ThingBuf Q E}.
Implicit Types (spans : Slab SpanState) (m : Z).

Lemma new_span_young spans a t cpu (queue : Q) span spans' queue' id m :
  tracks spans a t -> 0 <= cpu < MAX_PROCESSORS ->
  new_span spans queue cpu span = Ret (spans', queue', id) -> young spans m -> young spans' (m + 1).
Proof.
  intros Ht Hcpu En Hy. unfold new_span in En. rust_inv En. destruct x as [sp1 [x|v]]; [|done].
  rust_inv En. simplify_eq/=. by eapply insert_young; [apply Ht| | |].
Qed.

(** Counting leaves the generations alone. *)
Lemma bump_young spans a x cpu delta m spans1 spans2 spans3 n :
  slab_inv spans a -> refs a = [] -> idx_valid x -> x ∈ live a ->
  get spans x = Ret (spans1, Some x) -> fetch_add spans1 x delta = Ret (spans2, n) ->
  drop_reference spans2 x cpu = Ret spans3 -> young spans m -> young spans3 m.
Proof.
  intros Hi Hr Hx Hl E1 E2 E3 Hy.
  destruct (bump_slab spans a x cpu delta Hi Hr Hx Hl) as (s&v&sp1&sp2&Hs&Eg&Ef&Ed&_).
  rewrite Eg in E1. simplify_eq. rewrite Ef in E2. simplify_eq. rewrite Ed in E3. simplify_eq.
  apply (young_update spans); [done|apply Hy|]. intros st g r [Ew Hok].
  apply (young_slots _ _ Hy _ s st g r Hs). by split.
Qed.

Lemma try_close_young spans a t cpu id spans' b m :
  tracks spans a t -> 0 <= cpu < MAX_PROCESSORS ->
  try_close spans cpu id = Ret (spans', b) -> young spans m -> young spans' (m + 1).
Proof.
  intros Ht Hcpu Ec Hy. pose proof (Idx_from_valid id) as Hx. unfold try_close in Ec.
  destruct (open_spans t !! Idx_from id) as [v|] eqn:Ev.
  - destruct (tracks_live _ _ _ _ _ Ht Ev) as [Hl Hg].
    destruct (bump_ok spans a _ cpu (-1) (tracks_slab _ _ _ Ht) (tracks_refs _ _ _ Ht) Hx Hl)
      as (v'&sp1&sp2&sp3&Hg'&Eg&Ef&Ed&Et&Hi). simplify_eq.
    pose proof (bump_young _ _ _ _ _ m _ _ _ _ (tracks_slab _ _ _ Ht) (tracks_refs _ _ _ Ht) Hx Hl Eg Ef Ed Hy) as Hy3.
    rewrite Eg in Ec. cbn [mbind rust_bind] in Ec. rewrite Ef in Ec. cbn [mbind rust_bind] in Ec.
    case_decide; rewrite Ed in Ec; cbn [mbind rust_bind] in Ec.
    + rust_inv Ec. destruct x as [sp4 b']. simplify_eq/=.
      eapply remove_young; [exact Hi|apply (tracks_refs _ _ _ Ht)|exact Hx|done|done].
    + simplify_eq. apply (young_le spans' m); [done|lia].
  - pose proof (tracks_dead _ _ _ _ Ht Hx Ev) as Hn.
    pose proof (get_dead spans a _ (tracks_slab _ _ _ Ht) Hx Hn) as Eg.
    rewrite Eg in Ec. cbn [mbind rust_bind] in Ec. simplify_eq. apply (young_le spans' m); [done|lia].
Qed.

(** Processor [cpu] is alone, these spans are open, and the counters have
    got to [m] at most. *)
Record alone cpu (s : system (Q := Q)) (opened : gmap Idx SpanState) m : Prop := {
  alone_tracks : exists a t, tracks (spans_of s) a t /\ open_spans t = opened;
  alone_elsewhere : empty_elsewhere cpu (spans_of s);
  alone_slots : length (slots (spans_of s)) = MAX_SPANS;
  alone_young : young (spans_of s) m;
}.

Lemma alone_init boot s cpu : ktrace_init boot = Ret s -> alone cpu s ∅ 0.
Proof.
  intros E0. destruct (init_tracks _ _ E0) as [Ht _]. unfold ktrace_init in E0.
  rewrite slab_new_eq, decide_True in E0 by done. cbn [mbind rust_bind] in E0. injection E0 as <-. cbn [spans_of] in Ht.
  split; cbn [spans_of].
  - by eexists _, _.
  - apply new_empty_elsewhere.
  - cbn [slots new_slab]. unfold fresh_slots. by rewrite length_fmap, length_seq.
  - apply new_young. unfold MAX_SPANS. lia.
Qed.

Lemma alone_same cpu s s' opened m : alone cpu s opened m -> spans_of s' = spans_of s -> alone cpu s' opened m.
Proof. intros [? ? ? ?] Es. split; by rewrite Es. Qed.

(** Another span can be opened. *)
Lemma alone_open cpu s opened m span :
  alone cpu s opened m -> 0 <= cpu < MAX_PROCESSORS -> (size opened < MAX_SPANS)%nat -> m < 2 ^ 46 - 1 ->
  (forall id msg, message_of (NewSpan span) (NewId id) = Some msg -> fits msg) ->
  exists s' id, run_trace s cpu (NewSpan span) = Ret (s', NewId id) /\
    opened !! Idx_from id = None /\
    alone cpu s' (<[Idx_from id := MkSpanState 1 (attributes_metadata span)]> opened) (m + 1).
Proof.
  intros [(a&t&Ht&<-) He Hn Hy] Hcpu Hsz Hm Hf.
  pose proof (run_trace_ok s a t cpu (NewSpan span) Ht Hcpu) as Hok.
  destruct (run_trace s cpu (NewSpan span)) as [[s' o]|w] eqn:Er; cycle 1.
  { exfalso. destruct Hok as [[_ (sp&v&Ei)]|[(i&Hx)|(id&Hw)]].
    - pose proof (local_insert_full _ _ _ _ _ _ (tracks_slab _ _ _ Ht) Hcpu He Ei) as Hfull.
      rewrite Hn, (tracks_refs _ _ _ Ht), (size_open _ _ _ Ht) in Hfull. simpl in Hfull. lia.
    - by apply (young_not_exhausted _ _ i Hy Hm).
    - destruct (Hf id _ eq_refl) as [_ Hr]. unfold emission_panics in Hw. by rewrite Hr in Hw. }
  destruct Hok as (a'&t'&Hs&Ht'). pose proof (run_trace_local _ _ _ _ _ Er) as Hloc.
  inversion Hs as [sp x Hk Hb Hx| | | | | | | | |]; subst. exists s', (Idx_into x).
  split; [done|]. rewrite Hx. split.
  { rewrite (tracks_open _ _ _ Ht). case_decide; [|done]. apply not_elem_of_dom.
    by rewrite <-(tracks_known _ _ _ Ht). }
  split.
  - by eexists _, _.
  - by eapply stays_empty_elsewhere.
  - by rewrite (local_slots _ _ _ Hloc).
  - cbn [run_trace] in Er. destruct (new_span _ _ _ _) as [[[sp q] id]|] eqn:En; [|done].
    cbn [mbind rust_bind] in Er. injection Er as <- _.
    eapply new_span_young; [exact Ht|exact Hcpu|exact En|exact Hy].
Qed.

(** A span that only its guard holds is closed. *)
Lemma alone_close cpu s opened m id v :
  alone cpu s opened m -> 0 <= cpu < MAX_PROCESSORS -> m < 2 ^ 46 ->
  opened !! Idx_from id = Some v -> references v = 1 ->
  exists s', run_trace s cpu (TryClose id) = Ret (s', Closed true) /\
    alone cpu s' (delete (Idx_from id) opened) (m + 1).
Proof.
  intros [(a&t&Ht&<-) He Hn Hy] Hcpu Hm Hv Href.
  pose proof (run_trace_ok s a t cpu (TryClose id) Ht Hcpu) as Hok.
  destruct (run_trace s cpu (TryClose id)) as [[s' o]|w] eqn:Er; cycle 1.
  { exfalso. pose proof (young_tag _ _ Hy). simpl in Hok. lia. }
  destruct Hok as (a'&t'&Hs&Ht'). pose proof (run_trace_local _ _ _ _ _ Er) as Hloc.
  exists s'. inversion Hs; subst; try congruence. split; [done|]. split.
  - by eexists _, _.
  - by eapply stays_empty_elsewhere.
  - by rewrite (local_slots _ _ _ Hloc).
  - cbn [run_trace] in Er. destruct (try_close _ _ _) as [[sp b]|] eqn:Ec; [|done].
    cbn [mbind rust_bind] in Er. injection Er as <- _.
    eapply try_close_young; [exact Ht|exact Hcpu|exact Ec|exact Hy].
Qed.
End spans.
