(* ===== verification/SpansConcurrent.v ===== *)
(** The subscriber's spans when several processors share them
    ([ktrace/src/lib.rs]): [new_span], [clone_span] and [try_close] as the
    slab calls they make, action by action, with the atomic additions to a
    span's reference count in between. The messages that go to the queue
    meanwhile are left out. *)
From S2P Require Import Prelude Bitfields Topology Slot FreeLists Slab SlabSpec Treiber SlabSteps.
From S2P Require Import SlabConcurrent SlabHistories Proto Decoder KTrace.

(** * Calls in progress *)

(** Where a processor is in its call of the subscriber; a position that
    belongs to a call of the slab lasts until that call has returned. *)
Inductive span_thread :=
  | Resting
  | Creating (span : tracing_Attributes)
  | CloneGetting (id : SpanId)
  | CloneAdding (id : SpanId)
  | CloneDropping (id : SpanId)
  | CloseGetting (id : SpanId)
  | CloseSubbing (id : SpanId)
  | CloseDropping (id : SpanId) (references : Z)
  | CloseRemoving (id : SpanId).

(** [counters] are the [AtomicUsize]s of the spans, [handles] the ids that
    callers have: creating and cloning yields one, closing consumes one, and
    a call of [clone_span] borrows one for as long as it runs. *)
Record spans_world := MkSpansWorld {
  slab_world : world SpanState;
  counters : gmap Idx Z;
  span_threads : list span_thread;
  handles : list Idx;
}.

Inductive span_move :=
  | CallSpans (cpu : nat) (c : trace_call)
  | StepSpans (cpu : nat) (fails : bool).

Section steps.
Context {prof : Profile} {bits : ModularBitfield}.
Implicit Types (w : spans_world) (cpu : nat) (id : SpanId) (x : Idx).

(** Processor [cpu] goes on at [th], and begins the slab call [c]. *)
Definition goes w cpu th (m : gmap Idx Z) (hs : list Idx) (c : option (call SpanState))
    : rust spans_world :=
  '(sw, _) ← match c with
             | Some c => do_move (slab_world w) (Begin cpu c)
             | None => Ret (slab_world w, [])
             end;
  Ret (MkSpansWorld sw m (<[cpu := th]> (span_threads w)) hs).

Definition call_spans w cpu (c : trace_call) : rust spans_world :=
  match span_threads w !! cpu, c with
  | Some Resting, NewSpan span =>
      goes w cpu (Creating span) (counters w) (handles w)
        (Some (Insert (MkSpanState 1 (attributes_metadata span))))
  | Some Resting, CloneSpan id =>
      match hand_back (Idx_from id) (handles w) with
      | Some hs => goes w cpu (CloneGetting id) (counters w) hs (Some (Get (Idx_from id)))
      | None => Ret w
      end
  | Some Resting, TryClose id =>
      match hand_back (Idx_from id) (handles w) with
      | Some hs => goes w cpu (CloseGetting id) (counters w) hs (Some (Get (Idx_from id)))
      | None => Ret w
      end
  | _, _ => Ret w
  end.

(** The slab call of position [th] has returned with the event [es]. *)
Definition after_slab w cpu th (es : list (call SpanState * outcome SpanState))
    : rust (spans_world * list (trace_call * trace_outcome)) :=
  match th, es with
  | Creating span, (_, Inserted x) :: _ =>
      id ← Id_from_u64 (Idx_into x);
      w ← goes w cpu Resting (<[x := 1]> (counters w)) (x :: handles w) None;
      Ret (w, [(NewSpan span, NewId id)])
  | Creating span, _ => Panic EndlessLoop
  | CloneGetting id, (_, Got (Some _)) :: _ =>
      w ← goes w cpu (CloneAdding id) (counters w) (handles w) None; Ret (w, [])
  | CloneGetting id, _ =>
      w ← goes w cpu Resting (counters w) (Idx_from id :: Idx_from id :: handles w) None;
      Ret (w, [(CloneSpan id, Cloned id)])
  | CloneDropping id, _ =>
      w ← goes w cpu Resting (counters w) (Idx_from id :: Idx_from id :: handles w) None;
      Ret (w, [])
  | CloseGetting id, (_, Got (Some _)) :: _ =>
      w ← goes w cpu (CloseSubbing id) (counters w) (handles w) None; Ret (w, [])
  | CloseGetting id, _ =>
      w ← goes w cpu Resting (counters w) (handles w) None; Ret (w, [(TryClose id, Closed false)])
  | CloseDropping id old, _ =>
      w ← if decide (old = 1) then
            goes w cpu (CloseRemoving id) (counters w) (handles w) (Some (Remove (Idx_from id)))
          else goes w cpu Resting (counters w) (handles w) None;
      Ret (w, [])
  | CloseRemoving id, _ => w ← goes w cpu Resting (counters w) (handles w) None; Ret (w, [])
  | _, _ => Ret (w, [])
  end.

(** The next action of processor [cpu]: an atomic addition, or an action of
    the slab call it is in. *)
Definition step_spans w cpu (fails : bool) : rust (spans_world * list (trace_call * trace_outcome)) :=
  match span_threads w !! cpu with
  | None | Some Resting => Ret (w, [])
  | Some (CloneAdding id) =>
      let x := Idx_from id in
      old ← deref (counters w !! x);
      w ← goes w cpu (CloneDropping id) (<[x := (old + 1) mod usize_bound]> (counters w))
            (handles w) (Some (DropRef x));
      Ret (w, [(CloneSpan id, Cloned id)])
  | Some (CloseSubbing id) =>
      let x := Idx_from id in
      old ← deref (counters w !! x);
      w ← goes w cpu (CloseDropping id old) (<[x := (old + -1) mod usize_bound]> (counters w))
            (handles w) (Some (DropRef x));
      Ret (w, [(TryClose id, Closed (bool_decide (old = 1)))])
  | Some th =>
      '(sw, es) ← do_move (slab_world w) (Act cpu fails);
      let w := MkSpansWorld sw (counters w) (span_threads w) (handles w) in
      match threads_of sw !! cpu with
      | Some Ready => after_slab w cpu th es
      | _ => Ret (w, [])
      end
  end.

Definition move_spans w (m : span_move) : rust (spans_world * list (trace_call * trace_outcome)) :=
  match m with
  | CallSpans cpu c => w ← call_spans w cpu c; Ret (w, [])
  | StepSpans cpu fails => step_spans w cpu fails
  end.

Fixpoint run_spans w (ms : list span_move) : rust (spans_world * list (trace_call * trace_outcome)) :=
  match ms with
  | [] => Ret (w, [])
  | m :: ms =>
      '(w, es) ← move_spans w m;
      '(w, es') ← run_spans w ms;
      Ret (w, es ++ es')
  end.

(** No spans, and every processor between calls. *)
Definition spans_at_rest `{Topology} (sl : Slab SpanState) (known : list Idx) : spans_world :=
  MkSpansWorld (at_rest sl [] known) ∅ (replicate (Z.to_nat MAX_PROCESSORS) Resting) [].
End steps.

(** * Calls of the slab *)

Section calls.
Context {prof : Profile} {bits : ModularBitfield} {T : Type}.
Implicit Types (th : thread T) (c : call T).

(** The position is in call [c], before it takes effect. *)
Definition calling c th : Prop :=
  match c, th with
  | Insert v, (PopLocal v' | PopGlobal v' _ | AllocLoad v' _ | AllocStore v' _ _ _
               | AllocWrite v' _ _ | AllocSign v' _ _) => v' = v
  | Get x, (GetLoad y | GetExchange y _ _) => y = x
  | DropRef x, (DropLoad y | DropExchange y _ _ _) => y = x
  | Remove x, (RemoveLoad y | RemoveExchange y _ _ _) => y = x
  | _, _ => False
  end.

(** It has taken effect, and the slot is being returned. *)
Definition returning th : Prop :=
  match th with
  | ClearLoad _ | ClearStore _ _ | ClearDrop _ | ClearSign _ | Return _ _ | PushGlobal _ => True
  | _ => False
  end.

Definition returns_slot c : Prop := match c with DropRef _ | Remove _ => True | _ => False end.

Lemma begin_calling c : (forall r, c <> Deref r) -> calling c (begin_call c).
Proof. destruct c as [| | |r|]; simpl; try done. intros H. by destruct (H r). Qed.

Lemma calling_not_ready c th : calling c th -> th <> Ready.
Proof. destruct c, th; simpl; congruence. Qed.

Lemma returning_not_ready th : returning th -> th <> Ready.
Proof. by destruct th. Qed.

Lemma begin_not_deref c th : calling c th -> forall r, c <> Deref r.
Proof. intros H r ->. by destruct th. Qed.

(** What one action does to a call. *)
Definition call_after c th' (e : option (call T * outcome T)) : Prop :=
  match e with
  | None => calling c th'
  | Some (c', _) => c' = c /\ (th' = Ready \/ returns_slot c /\ returning th')
  end.

Lemma act_calling (cpu : Z) (fails : bool) (sl : Slab T) c th sl' th' e :
  calling c th -> act cpu fails sl th = Ret (sl', th', e) -> call_after c th' e.
Proof.
  intros Hc E.
  destruct th as [|v|v p|v i|v i w g|v i g|v i g|x|x prev new|x|x prev new u|x|x prev new u|i|i w|i|i|i o|p];
    destruct c as [v'|y|y|y|y]; try done; simpl in Hc; subst; cbn [act] in E.
  - rust_inv E. destruct x as [lf [i|]]; by simplify_eq.
  - rust_inv E. destruct x as [f [p'|[i|]]]; simplify_eq; simpl; auto.
  - rust_inv E. by simplify_eq.
  - rust_inv E. by simplify_eq.
  - rust_inv E. by simplify_eq.
  - rust_inv E. simplify_eq. simpl. auto.
  - destruct (slots sl !! _); [|simplify_eq; simpl; auto]. rust_inv E. unfold try_acquire in Hx.
    rust_inv Hx. destruct x0 as [[]|]; simplify_eq; simpl; auto.
  - rust_inv E. destruct x as [sl1|w]; [simplify_eq; simpl; auto|]. rust_inv E.
    unfold try_acquire in Hx0. rust_inv Hx0. destruct x0 as [[]|]; simplify_eq; simpl; auto.
  - rust_inv E. unfold try_release in Hx0.
    rust_inv Hx0. destruct x1 as [[]|]; simplify_eq; simpl; auto.
  - rust_inv E. destruct x as [sl1|w]; [simplify_eq; destruct u; simpl; auto|]. rust_inv E.
    unfold try_release in Hx0. rust_inv Hx0. destruct x0 as [[]|]; simplify_eq; simpl; auto.
  - destruct (slots sl !! _); [|simplify_eq; simpl; auto]. rust_inv E. unfold try_mark in Hx.
    rust_inv Hx. destruct x0 as [[]|]; simplify_eq; simpl; auto.
  - rust_inv E. destruct x as [sl1|w]; [simplify_eq; destruct u; simpl; auto|]. rust_inv E.
    unfold try_mark in Hx0. rust_inv Hx0. destruct x0 as [[]|]; simplify_eq; simpl; auto.
Qed.

Lemma act_returning (cpu : Z) (fails : bool) (sl : Slab T) th sl' th' e :
  returning th -> act cpu fails sl th = Ret (sl', th', e) ->
  e = None /\ (th' = Ready \/ returning th').
Proof.
  intros Hc E. destruct th as [| | | | | | | | | | | | |i|i w|i|i|i o|p]; try done; cbn [act] in E.
  - rust_inv E. simplify_eq. simpl. auto.
  - rust_inv E. simplify_eq. simpl. auto.
  - rust_inv E. simplify_eq. simpl. auto.
  - rust_inv E. simplify_eq. simpl. auto.
  - case_decide; rust_inv E; destruct x; simplify_eq; simpl; auto.
  - rust_inv E. destruct x as [[f st] q]. simplify_eq. destruct q; simpl; auto.
Qed.
End calls.

(** * The invariant *)

Section sharing.
Context {prof : Profile} {bits : ModularBitfield} {topology : Topology}.
Implicit Types (w : spans_world) (cpu : nat) (id : SpanId) (x : Idx) (sp : span_thread)
  (st : thread SpanState) (a : spec SpanState) (t : span_table).

(** The reference of the slab that a call has. *)
Definition reading sp : option Idx :=
  match sp with CloneAdding id | CloseSubbing id => Some (Idx_from id) | _ => None end.

(** The handles that a call has taken and will give back or use up. *)
Definition taken sp : list Idx :=
  match sp with
  | CloneGetting id | CloneAdding id | CloseGetting id | CloseSubbing id => [Idx_from id]
  | CloneDropping id => [Idx_from id; Idx_from id]
  | _ => []
  end.

Definition claimed w : list Idx := handles w ++ concat (taken <$> span_threads w).

Definition occurrences x (l : list Idx) : nat := length (filter (fun y => y = x) l).

Definition claims w x : nat := occurrences x (claimed w).

(** The slab call that a position belongs to. *)
Definition call_of sp : option (call SpanState) :=
  match sp with
  | Resting | CloneAdding _ | CloseSubbing _ => None
  | Creating span => Some (Insert (MkSpanState 1 (attributes_metadata span)))
  | CloneGetting id | CloseGetting id => Some (Get (Idx_from id))
  | CloneDropping id | CloseDropping id _ => Some (DropRef (Idx_from id))
  | CloseRemoving id => Some (Remove (Idx_from id))
  end.

Definition in_call sp st : Prop :=
  match call_of sp with
  | None => st = Ready
  | Some c => calling c st \/ returns_slot c /\ returning st
  end.

(** The last reference to the span is gone. *)
Definition closing sp x : Prop :=
  match sp with
  | CloseDropping id references => references = 1 /\ Idx_from id = x
  | CloseRemoving id => Idx_from id = x
  | _ => False
  end.

(** The call will remove the span from the slab. *)
Definition ends sp st x : Prop :=
  closing sp x /\ match sp with CloseRemoving _ => calling (Remove x) st | _ => True end.

Definition ending w x : Prop :=
  exists cpu sp st, span_threads w !! cpu = Some sp /\
    threads_of (slab_world w) !! cpu = Some st /\ ends sp st x.

(** Open spans are in the slab and count the handles that there are; what
    else is in the slab is being removed. *)
Definition span_ok w a t x : Prop :=
  match open_spans t !! x with
  | Some v => x ∈ live a /\ x ∈ known_of (slab_world w) /\
      counters w !! x = Some (references v) /\ references v = Z.of_nat (claims w x) /\ (0 < claims w x)%nat
  | None => claims w x = 0%nat /\ (x ∈ live a -> ending w x)
  end.

Record shared w a t (n : nat) : Prop := {
  sh_world : world_inv (slab_world w) a;
  sh_threads : Forall2 in_call (span_threads w) (threads_of (slab_world w));
  sh_held : held_of (slab_world w) ≡ₚ omap reading (span_threads w);
  sh_known : known t = dom (given a);
  sh_span x : span_ok w a t x;
  sh_closing : Forall (fun sp => forall x, closing sp x ->
    open_spans t !! x = None /\ x ∈ known_of (slab_world w)) (span_threads w);
  sh_steps : (length (claimed w) <= n)%nat;
}.

Lemma occurrences_app x (l k : list Idx) : occurrences x (l ++ k) = (occurrences x l + occurrences x k)%nat.
Proof. unfold occurrences. by rewrite filter_app, length_app. Qed.

Lemma occurrences_perm x (l k : list Idx) : l ≡ₚ k -> occurrences x l = occurrences x k.
Proof. unfold occurrences. by intros ->. Qed.

Lemma occurrences_in x (l : list Idx) : x ∈ l -> (0 < occurrences x l)%nat.
Proof.
  intros Hx. unfold occurrences. assert (Hf : x ∈ filter (fun y => y = x) l) by (by apply list_elem_of_filter).
  destruct (filter _ l); [by apply elem_of_nil in Hf|simpl; lia].
Qed.

Lemma occurrences_le x (l : list Idx) : (occurrences x l <= length l)%nat.
Proof. apply length_filter. Qed.

(** The acting processor's part of what is claimed. *)
Lemma claimed_first w cpu sp sp' hs sw m :
  span_threads w !! cpu = Some sp ->
  exists rest, claimed w ≡ₚ (handles w ++ taken sp) ++ rest /\
    claimed (MkSpansWorld sw m (<[cpu := sp']> (span_threads w)) hs) ≡ₚ (hs ++ taken sp') ++ rest.
Proof.
  intros Hsp. destruct (insert_first _ _ _ sp' Hsp) as (rest&E1&E2).
  exists (concat (taken <$> rest)). unfold claimed. simpl. rewrite E2, E1. simpl.
  by rewrite !app_assoc.
Qed.

Lemma ending_move w cpu sp st sp' st' sw m hs x :
  span_threads w !! cpu = Some sp -> threads_of (slab_world w) !! cpu = Some st ->
  threads_of sw = <[cpu := st']> (threads_of (slab_world w)) ->
  let w' := MkSpansWorld sw m (<[cpu := sp']> (span_threads w)) hs in
  (ending w x -> ending w' x \/ ends sp st x) /\ (ends sp' st' x -> ending w' x).
Proof.
  intros Hsp Hst Ht. pose proof (lookup_lt_Some _ _ _ Hsp). pose proof (lookup_lt_Some _ _ _ Hst). split.
  - intros (cpu'&sp1&st1&H1&H2&He). destruct (decide (cpu = cpu')) as [<-|Hne].
    + right. by simplify_eq.
    + left. exists cpu', sp1, st1. simpl. by rewrite Ht, !list_lookup_insert_ne.
  - intros He. exists cpu, sp', st'. simpl. by rewrite Ht, !list_lookup_insert_eq.
Qed.

(** What does not concern a span. *)
Lemma span_ok_same w w' a a' t t' x :
  span_ok w a t x ->
  open_spans t' !! x = open_spans t !! x -> counters w' !! x = counters w !! x ->
  known_of (slab_world w) ⊆ known_of (slab_world w') -> claims w' x = claims w x ->
  (x ∈ live a' -> x ∈ live a) -> (is_Some (open_spans t !! x) -> x ∈ live a -> x ∈ live a') ->
  (x ∈ live a' -> ending w x -> ending w' x) ->
  span_ok w' a' t' x.
Proof.
  unfold span_ok. intros H -> -> Hk -> Hl Hl' He. destruct (open_spans t !! x) as [v|].
  - destruct H as (H1&H2&H). auto.
  - destruct H as [H1 H2]. auto.
Qed.

(** A move of processor [cpu] keeps the invariant if every span is accounted
    for in the end. *)
Lemma shared_move w a t n cpu sp st sw m hs sp' st' a' t' :
  shared w a t n ->
  span_threads w !! cpu = Some sp -> threads_of (slab_world w) !! cpu = Some st ->
  threads_of sw = <[cpu := st']> (threads_of (slab_world w)) ->
  let w' := MkSpansWorld sw m (<[cpu := sp']> (span_threads w)) hs in
  world_inv sw a' -> in_call sp' st' ->
  option_list (reading sp) ++ held_of sw ≡ₚ option_list (reading sp') ++ held_of (slab_world w) ->
  known_of (slab_world w) ⊆ known_of sw ->
  known t' = dom (given a') ->
  (forall x, span_ok w' a' t' x) ->
  (forall x, open_spans t !! x = None -> x ∈ known_of (slab_world w) -> open_spans t' !! x = None) ->
  (forall x, closing sp' x -> open_spans t' !! x = None /\ x ∈ known_of sw) ->
  (length (hs ++ taken sp') <= S (length (handles w ++ taken sp)))%nat ->
  shared w' a' t' (S n).
Proof.
  intros [Hw Hth Hh Hk Hs Hc Hn] Hsp Hst Et w' Hw' Hin Hh' Hks Hk' Hs' Ho Hc' Hn'.
  split; simpl; try done.
  - rewrite Et. by apply Forall2_insert.
  - destruct (insert_first _ _ _ sp' Hsp) as (rest&E1&E2). rewrite E2.
    rewrite Hh, E1 in Hh'. simpl in *. apply (Permutation_app_inv_l (option_list (reading sp))).
    rewrite Hh'. destruct (reading sp), (reading sp'); simpl; try done. apply Permutation_swap.
  - rewrite Forall_forall in Hc |- *. intros sp1 H1 x Hx. apply list_elem_of_lookup in H1 as [j Hj].
    destruct (decide (cpu = j)) as [<-|Hne].
    + rewrite list_lookup_insert_eq in Hj by (by eapply lookup_lt_Some). injection Hj as <-. by apply Hc'.
    + rewrite list_lookup_insert_ne in Hj by done.
      destruct (Hc sp1 (list_elem_of_lookup_2 _ _ _ Hj) x Hx) as [H1 H2]. auto.
  - destruct (claimed_first w cpu sp sp' hs sw m Hsp) as (rest&E1&E2). unfold w'. rewrite E2.
    rewrite E1 in Hn. rewrite length_app in Hn |- *. lia.
Qed.
Lemma shared_more w a t n : shared w a t n -> shared w a t (S n).
Proof. intros [? ? ? ? ? ? ?]. split; try done. lia. Qed.

(** A move that neither opens nor closes a span. *)
Lemma shared_quiet w a t n cpu sp st sw hs sp' st' a' :
  shared w a t n ->
  span_threads w !! cpu = Some sp -> threads_of (slab_world w) !! cpu = Some st ->
  threads_of sw = <[cpu := st']> (threads_of (slab_world w)) ->
  world_inv sw a' -> in_call sp' st' ->
  option_list (reading sp) ++ held_of sw ≡ₚ option_list (reading sp') ++ held_of (slab_world w) ->
  known_of sw = known_of (slab_world w) ->
  given a' = given a ->
  (forall x, x ∈ live a' -> x ∈ live a) ->
  (forall x, x ∈ live a -> x ∈ live a' \/ closing sp x) ->
  (forall x, x ∈ live a' -> ends sp st x -> ends sp' st' x) ->
  (forall x, closing sp' x -> closing sp x) ->
  hs ++ taken sp' ≡ₚ handles w ++ taken sp ->
  shared (MkSpansWorld sw (counters w) (<[cpu := sp']> (span_threads w)) hs) a' t (S n).
Proof.
  intros Hsh Hsp Hst Et Hw' Hin Hh Hk Hg Hl Hl' He Hc Hcl.
  assert (Hcs : forall x, closing sp x -> open_spans t !! x = None /\ x ∈ known_of (slab_world w)).
  { pose proof (sh_closing _ _ _ _ Hsh) as Hall. rewrite Forall_forall in Hall.
    apply Hall. by eapply list_elem_of_lookup_2. }
  eapply shared_move; try done.
  - by rewrite Hk.
  - by rewrite Hg, (sh_known _ _ _ _ Hsh).
  - intros x. apply (span_ok_same w _ a _ t); try done.
    + apply Hsh.
    + simpl. by rewrite Hk.
    + destruct (claimed_first w cpu sp sp' hs sw (counters w) Hsp) as (rest&E1&E2).
      apply occurrences_perm. by rewrite E1, E2, Hcl.
    + auto.
    + intros [v Hv] Hx. destruct (Hl' x Hx) as [?|Hcx]; [done|].
      destruct (Hcs x Hcx) as [Hn _]. congruence.
    + intros Hx Hex.
      destruct (ending_move w cpu sp st sp' st' sw (counters w) hs x Hsp Hst Et) as [Hm1 Hm2].
      apply Hm1 in Hex as [?|?]; auto.
  - intros x Hx. rewrite Hk. auto.
  - rewrite Hcl. lia.
Qed.

(** ** Beginning a call *)

Lemma begin_slab sw a cpu (c : call SpanState) held :
  world_inv sw a -> threads_of sw !! cpu = Some Ready -> may_begin sw c = Some held ->
  let sw' := MkWorld (slab_of sw) (<[cpu := begin_call c]> (threads_of sw)) held (known_of sw) in
  do_move sw (Begin cpu c) = Ret (sw', []) /\ world_inv sw' a.
Proof.
  intros Hw Hr Hm sw'. split; [|by apply begin_world].
  unfold do_move. by rewrite Hr, Hm.
Qed.

Lemma hand_back_is x (l : list Idx) : x ∈ l -> exists l', hand_back x l = Some l' /\ l ≡ₚ x :: l'.
Proof.
  intros Hx. assert (He : is_Some (hand_back x l)).
  { induction l as [|y l IH]; [by apply elem_of_nil in Hx|]. simpl. case_decide; [done|].
    apply elem_of_cons in Hx as [->|Hx]; [done|]. by destruct (IH Hx) as [l' ->]. }
  destruct He as [l' E]. exists l'. split; [done|by apply hand_back_Some].
Qed.

(** A handle is one of an open span. *)
Lemma claimed_open w a t n x :
  shared w a t n -> x ∈ claimed w ->
  exists v, open_spans t !! x = Some v /\ x ∈ live a /\ x ∈ known_of (slab_world w) /\
    counters w !! x = Some (references v) /\ references v = Z.of_nat (claims w x).
Proof.
  intros Hsh Hx. pose proof (sh_span _ _ _ _ Hsh x) as Hs. unfold span_ok in Hs.
  apply occurrences_in in Hx. destruct (open_spans t !! x) as [v|].
  - exists v. naive_solver.
  - destruct Hs as [Hs _]. unfold claims in Hs. lia.
Qed.

Lemma slab_thread w a t n cpu sp :
  shared w a t n -> span_threads w !! cpu = Some sp ->
  exists st, threads_of (slab_world w) !! cpu = Some st /\ in_call sp st.
Proof.
  intros Hsh Hsp. destruct (Forall2_lookup_l _ _ _ _ _ (sh_threads _ _ _ _ Hsh) Hsp) as (st&?&?).
  by exists st.
Qed.

(** A caller's handle, taken for the length of a call. *)
Lemma take_handle w a t n cpu id hs sp :
  shared w a t n -> span_threads w !! cpu = Some Resting ->
  hand_back (Idx_from id) (handles w) = Some hs ->
  taken sp = [Idx_from id] -> reading sp = None -> (forall x, ~ closing sp x) ->
  call_of sp = Some (Get (Idx_from id)) ->
  exists w', goes w cpu sp (counters w) hs (Some (Get (Idx_from id))) = Ret w' /\ shared w' a t (S n).
Proof.
  intros Hsh Hsp Hhb Hc Hr Hcl Hin. apply hand_back_Some in Hhb.
  destruct (slab_thread _ _ _ _ _ _ Hsh Hsp) as (st&Hst&Est). change (st = Ready) in Est. subst st.
  destruct (claimed_open _ _ _ _ (Idx_from id) Hsh) as (v&_&_&Hk&_).
  { unfold claimed. rewrite Hhb. set_solver. }
  destruct (begin_slab (slab_world w) a cpu (Get (Idx_from id)) (held_of (slab_world w))) as [E Hw];
    [apply Hsh|done|simpl; by rewrite decide_True|].
  unfold goes. rewrite E. eexists. split; [done|].
  eapply shared_quiet; try done; simpl; rewrite ?Hr; try done.
  - unfold in_call. rewrite Hin. by left.
  - auto.
  - by intros x _ [[] _].
  - rewrite Hc, Hhb. solve_Permutation.
Qed.

Lemma call_shared w a t n cpu (c : trace_call) :
  shared w a t n -> exists w', call_spans w cpu c = Ret w' /\ shared w' a t (S n).
Proof.
  intros Hsh. assert (Hsame : exists w', Ret w = Ret w' /\ shared w' a t (S n)).
  { exists w. split; [done|by apply shared_more]. }
  unfold call_spans. destruct (span_threads w !! cpu) as [[]|] eqn:Hsp; try done.
  destruct c as [span| | | |id|id|]; try done.
  - destruct (slab_thread _ _ _ _ _ _ Hsh Hsp) as (st&Hst&Est). change (st = Ready) in Est. subst st.
    destruct (begin_slab (slab_world w) a cpu (Insert (MkSpanState 1 (attributes_metadata span)))
      (held_of (slab_world w))) as [E Hw]; [apply Hsh|done..|].
    unfold goes. rewrite E. eexists. split; [done|].
    eapply shared_quiet; try done; simpl; auto. by left.
  - destruct (hand_back _ _) as [hs|] eqn:Hhb; [|done].
    eapply take_handle; try done. by intros x [].
  - destruct (hand_back _ _) as [hs|] eqn:Hhb; [|done].
    eapply take_handle; try done. by intros x [].
Qed.
(** ** Actions of the slab's calls *)

(** Which references and indices an outcome hands out. *)
Definition got (o : outcome SpanState) : list Idx := match o with Got (Some x) => [x] | _ => [] end.
Definition inserted (o : outcome SpanState) : list Idx := match o with Inserted x => [x] | _ => [] end.

Definition slab_moves (sw : world SpanState) a cpu (c : call SpanState) st
    (r : rust (world SpanState * list (call SpanState * outcome SpanState))) : Prop :=
  match r with
  | Panic _ => counters_used sw
  | Ret (sw', es) => exists a' st', world_inv sw' a' /\
      threads_of sw' = <[cpu := st']> (threads_of sw) /\
      ((es = [] /\ a' = a /\ held_of sw' = held_of sw /\ known_of sw' = known_of sw /\
        (calling c st /\ calling c st' \/
         returns_slot c /\ returning st /\ (st' = Ready \/ returning st'))) \/
       exists o, es = [(c, o)] /\ calling c st /\ spec_step a c o a' /\
         (st' = Ready \/ returns_slot c /\ returning st') /\
         held_of sw' = got o ++ held_of sw /\ known_of sw' = inserted o ++ known_of sw)
  end.

Lemma slab_act sw a cpu (fails : bool) (c : call SpanState) st :
  world_inv sw a -> threads_of sw !! cpu = Some st -> clear_move sw [] (Act cpu fails) ->
  calling c st \/ returns_slot c /\ returning st ->
  slab_moves sw a cpu c st (do_move sw (Act cpu fails)).
Proof.
  intros Hw Hst Hcl Hc. pose proof (act_world _ _ _ fails _ Hw Hst) as Ha.
  unfold do_move. rewrite Hst. destruct (act _ _ _ _) as [[[sl st'] e]|] eqn:E; [|done].
  destruct (Ha Hcl) as (a'&Hw'&Hs). cbn [mbind rust_bind slab_moves]. exists a', st'.
  split; [done|]. split; [done|]. destruct Hc as [Hc|[Hrs Hc]].
  - pose proof (act_calling _ _ _ _ _ _ _ _ Hc E) as Hca. destruct e as [[c' o]|]; simpl in Hca.
    + right. destruct Hca as [-> Hr]. exists o. done.
    + left. split_and!; try done. by left.
  - destruct (act_returning _ _ _ _ _ _ _ Hc E) as [-> Hr]. left. split_and!; try done. by right.
Qed.

(** An insertion fails only where the global list is empty. *)
Lemma act_full sw cpu (fails : bool) st sw' (c : call SpanState) v v' es :
  threads_of sw !! cpu = Some st -> calling (Insert v) st ->
  do_move sw (Act cpu fails) = Ret (sw', (c, Full v') :: es) ->
  head (global_free_list (slab_of sw)) = EMPTY.
Proof.
  intros Hst Hc E. unfold do_move in E. rewrite Hst in E. rust_inv E.
  destruct x as [[sl st'] e]. injection E as _ E. destruct e as [e|]; [|done]. simpl in E. injection E as E1 E2. subst e.
  destruct st as [|u|u p|u i|u i w g|u i g|u i g| | | | | | | | | | | |]; try done; cbn [act] in Hx;
    try (rust_inv Hx; by simplify_eq).
  - rust_inv Hx. destruct x as [lf o]. by simplify_eq.
  - rust_inv Hx. destruct x as [f o].
    destruct p as [| | | | |old|old w]; cbn [pop_act] in Hx0;
      try (case_decide; [done|]; by simplify_eq).
    + rust_inv Hx0. by simplify_eq.
    + destruct (exchange_head _ _ _); by simplify_eq.
Qed.

(** An action that returns a slot, and is not clear, goes on with the push. *)
Lemma unclear_act sw a cpu (fails : bool) :
  world_inv sw a -> ~ clear_move sw [] (Act cpu fails) ->
  exists sw' p, do_move sw (Act cpu fails) = Ret (sw', []) /\ threads_of sw' !! cpu = Some (PushGlobal p).
Proof.
  intros Hw Hn. unfold clear_move in Hn. destruct (threads_of sw !! cpu) as [st|] eqn:Hst; [|by destruct Hn].
  destruct (do_move sw (Act cpu fails)) as [[sw' es]|why] eqn:E.
  - unfold do_move in E. rewrite Hst in E. rust_inv E. destruct x as [[sl st'] e]. simplify_eq.
    destruct st as [| | | | | | | | | | | | | | | | |i o|]; try (by destruct Hn). cbn [act] in Hx.
    unfold act_clear in Hn. case_decide as Ho; [destruct Hn; by rewrite bool_decide_true|].
    rust_inv Hx. destruct x as [f w]. simplify_eq. do 2 eexists. split; [done|]. simpl.
    apply list_lookup_insert_eq. by eapply lookup_lt_Some.
  - destruct Hn. pose proof (move_panic_clear _ _ _ _ Hw E) as Hc. unfold clear_move in Hc.
    by rewrite Hst in Hc.
Qed.

(** The calls that give something up: a reference, or the span itself. *)
Record drops (sw : world SpanState) a cpu (c : call SpanState) st (sw' : world SpanState) a' st' : Prop := {
  dr_world : world_inv sw' a';
  dr_threads : threads_of sw' = <[cpu := st']> (threads_of sw);
  dr_held : held_of sw' = held_of sw;
  dr_known : known_of sw' = known_of sw;
  dr_given : given a' = given a;
  dr_live x : x ∈ live a' -> x ∈ live a;
  dr_kept x : x ∈ live a -> x ∈ live a' \/ c = Remove x;
  dr_calling x : x ∈ live a' -> c = Remove x -> calling c st -> calling c st';
}.

Lemma slab_drops sw a cpu (c : call SpanState) st sw' es :
  slab_moves sw a cpu c st (Ret (sw', es)) -> returns_slot c ->
  exists a' st', drops sw a cpu c st sw' a' st' /\
    (st' = Ready \/ st' <> Ready /\ (calling c st' \/ returns_slot c /\ returning st')).
Proof.
  intros (a'&st'&Hw&Ht&Hm) Hc. exists a', st'.
  destruct Hm as [(_&->&Hh&Hk&Hcase)|(o&_&Hcs&Hs&Hr&Hh&Hk)].
  - split; [split; try done; auto|].
    + intros x _ -> Hcs. destruct Hcase as [[_ ?]|(_&Hret&_)]; [done|]. by destruct st.
    + destruct Hcase as [[_ Hcs]|(_&_&[?|Hret])]; [right|by left|right].
      * split; [by eapply calling_not_ready|by left].
      * split; [by apply returning_not_ready|by right].
  - split.
    + inversion Hs; subst; try done; simpl in *; split; try done; simpl; auto.
      * set_solver.
      * intros y Hy. destruct (decide (y = x)) as [->|]; [by right|left; set_solver].
      * intros y Hy [= ->]. set_solver.
    + destruct Hr as [?|[? Hret]]; [by left|]. right. split; [by apply returning_not_ready|by right].
Qed.

(** ** Steps *)

Definition stops w sp (why : panic) : Prop :=
  counters_used (slab_world w) \/
  why = EndlessLoop /\ (exists span, sp = Creating span) /\
    head (global_free_list (slab_of (slab_world w))) = EMPTY.

Definition goes_on w t n sp (r : rust (spans_world * list (trace_call * trace_outcome))) : Prop :=
  match r with
  | Ret (w', es) => exists a' t', span_trace t es t' /\ shared w' a' t' (S n)
  | Panic why => stops w sp why
  end.

(** The first push of a slot to the global list is clear, as for the slab. *)
Definition clear_span w (m : span_move) : bool :=
  match m with
  | StepSpans cpu fails => clear_move (slab_world w) [] (Act cpu fails)
  | CallSpans _ _ => true
  end.

Lemma step_calling w cpu (fails : bool) sp c :
  span_threads w !! cpu = Some sp -> call_of sp = Some c ->
  step_spans w cpu fails =
    '(sw, es) ← do_move (slab_world w) (Act cpu fails);
    let w := MkSpansWorld sw (counters w) (span_threads w) (handles w) in
    match threads_of sw !! cpu with
    | Some Ready => after_slab w cpu sp es
    | _ => Ret (w, [])
    end.
Proof. intros Hsp Hc. unfold step_spans. rewrite Hsp. by destruct sp. Qed.

Lemma not_ready {A} st (x y : A) :
  st <> Ready -> match Some st with Some Ready => x | _ => y end = y.
Proof. by destruct st. Qed.

(** The call of the slab goes on. *)
Lemma shared_stay w a t n cpu sp st sw st' a' :
  shared w a t n ->
  span_threads w !! cpu = Some sp -> threads_of (slab_world w) !! cpu = Some st ->
  threads_of sw = <[cpu := st']> (threads_of (slab_world w)) ->
  world_inv sw a' -> in_call sp st' ->
  held_of sw = held_of (slab_world w) -> known_of sw = known_of (slab_world w) ->
  given a' = given a ->
  (forall x, x ∈ live a' -> x ∈ live a) ->
  (forall x, x ∈ live a -> x ∈ live a' \/ closing sp x) ->
  (forall x, x ∈ live a' -> ends sp st x -> ends sp st' x) ->
  shared (MkSpansWorld sw (counters w) (span_threads w) (handles w)) a' t (S n).
Proof.
  intros Hsh Hsp Hst Et Hw Hin Hh Hk Hg Hl Hl' He.
  rewrite <-(list_insert_id (span_threads w) cpu sp Hsp).
  eapply shared_quiet; try done. by rewrite Hh.
Qed.

Lemma ready_after sw cpu st (ths : list (thread SpanState)) st0 :
  ths !! cpu = Some st0 -> threads_of sw = <[cpu := st]> ths -> threads_of sw !! cpu = Some st.
Proof. intros H ->. apply list_lookup_insert_eq. by eapply lookup_lt_Some. Qed.

Lemma closing_facts w a t n cpu sp :
  shared w a t n -> span_threads w !! cpu = Some sp ->
  forall x, closing sp x -> open_spans t !! x = None /\ x ∈ known_of (slab_world w).
Proof.
  intros Hsh Hsp. pose proof (sh_closing _ _ _ _ Hsh) as Hall. rewrite Forall_forall in Hall.
  apply Hall. by eapply list_elem_of_lookup_2.
Qed.

(** Such a call has returned. *)
Lemma drop_returned w a t n cpu sp c st sw a' es :
  shared w a t n -> span_threads w !! cpu = Some sp -> call_of sp = Some c -> returns_slot c ->
  threads_of (slab_world w) !! cpu = Some st -> drops (slab_world w) a cpu c st sw a' Ready ->
  goes_on w t n sp (after_slab (MkSpansWorld sw (counters w) (span_threads w) (handles w)) cpu sp es).
Proof.
  intros Hsh Hsp Hc Hrs Hst [Hw Et Hh Hk Hg Hl Hl' He].
  destruct sp as [| | | |id| | |id old|id]; try discriminate Hc; injection Hc as <-; try done;
    cbn -[decide do_move].
  - exists a', t; split; [constructor|]. eapply shared_quiet; try done; simpl; rewrite ?Hh; auto.
    + intros x Hx. left. by destruct (Hl' x Hx).
    + rewrite app_nil_r. solve_Permutation.
  - case_decide as E1.
    + destruct (closing_facts _ _ _ _ _ _ Hsh Hsp (Idx_from id)) as [_ Hkn]; [done|].
      destruct (begin_slab sw a' cpu (Remove (Idx_from id)) (held_of sw)) as [E Hw2]; [done|..].
      { by apply (ready_after _ _ _ _ _ Hst). }
      { simpl. by rewrite Hk, decide_True. }
      rewrite E. cbn. exists a', t; split; [constructor|].
      eapply shared_quiet; try done; simpl; rewrite ?Hh; auto.
      * by rewrite Et, list_insert_insert_eq.
      * by left.
      * intros x Hx. left. by destruct (Hl' x Hx).
      * intros x _ [[_ Hx] _]. by split.
    + exists a', t; split; [constructor|]. eapply shared_quiet; try done; simpl; rewrite ?Hh; auto.
      * intros x Hx. left. by destruct (Hl' x Hx).
      * intros x _ [[? _] _]. done.
  - exists a', t; split; [constructor|]. eapply shared_quiet; try done; simpl; rewrite ?Hh; auto.
    + intros x Hx. destruct (Hl' x Hx) as [?|?]; naive_solver.
    + intros x Hx [Hx' Hcx]. simpl in Hx', Hcx. subst. by destruct (He _ Hx eq_refl Hcx).
Qed.

(** Giving up a reference, or removing a span. *)
Lemma drop_step w a t n cpu (fails : bool) sp c :
  shared w a t n -> clear_span w (StepSpans cpu fails) -> span_threads w !! cpu = Some sp -> call_of sp = Some c -> returns_slot c ->
  goes_on w t n sp (step_spans w cpu fails).
Proof.
  intros Hsh Hclear Hsp Hc Hrs. rewrite (step_calling _ _ _ _ _ Hsp Hc).
  destruct (slab_thread _ _ _ _ _ _ Hsh Hsp) as (st&Hst&Hin). unfold in_call in Hin. rewrite Hc in Hin.
  pose proof (slab_act _ _ _ fails _ _ (sh_world _ _ _ _ Hsh) Hst Hclear Hin) as Hm.
  destruct (do_move _ _) as [[sw es]|why]; [|by left]. cbn [mbind rust_bind].
  destruct (slab_drops _ _ _ _ _ _ _ Hm Hrs) as (a'&st'&Hd&Hst').
  rewrite (ready_after _ _ _ _ _ Hst (dr_threads _ _ _ _ _ _ _ _ Hd)).
  destruct Hst' as [->|[Hnr Hst']]; [by eapply drop_returned|].
  rewrite not_ready by done. destruct Hd as [Hw Et Hh Hk Hg Hl Hl' He].
  exists a', t; split; [constructor|]. eapply shared_stay; try done.
  - unfold in_call. by rewrite Hc.
  - intros x Hx. destruct (Hl' x Hx) as [?| ->]; [by left|right]. by destruct sp; simplify_eq/=.
  - intros x Hx [Hx1 Hx2]. split; [done|].
    destruct sp as [| | | |id| | |id old|id]; try discriminate Hc; injection Hc as <-; try done.
    simpl in Hx1. subst x. by apply (He (Idx_from id)).
Qed.

(** Looking a span up: the caller's handle keeps it in the slab. *)
Lemma get_step w a t n cpu (fails : bool) sp sp' id :
  shared w a t n -> clear_span w (StepSpans cpu fails) -> span_threads w !! cpu = Some sp ->
  (sp = CloneGetting id /\ sp' = CloneAdding id) \/ (sp = CloseGetting id /\ sp' = CloseSubbing id) ->
  goes_on w t n sp (step_spans w cpu fails).
Proof.
  intros Hsh Hclear Hsp Hcase.
  assert (Hf : call_of sp = Some (Get (Idx_from id)) /\ taken sp = [Idx_from id] /\
    taken sp' = [Idx_from id] /\ reading sp = None /\ reading sp' = Some (Idx_from id) /\
    call_of sp' = None /\ (forall x, ~ closing sp x) /\ (forall x, ~ closing sp' x) /\
    (forall w' c x es, after_slab w' cpu sp ((c, Got (Some x)) :: es) =
       Ret (MkSpansWorld (slab_world w') (counters w') (<[cpu := sp']> (span_threads w')) (handles w'), [])))
    by (destruct Hcase as [[-> ->]|[-> ->]]; split_and!; naive_solver).
  destruct Hf as (Hc&Hcl&Hcl'&Hr&Hr'&Hc'&Hn&Hn'&Hfin).
  rewrite (step_calling _ _ _ _ _ Hsp Hc).
  destruct (slab_thread _ _ _ _ _ _ Hsh Hsp) as (st&Hst&Hin). unfold in_call in Hin. rewrite Hc in Hin.
  pose proof (slab_act _ _ _ fails _ _ (sh_world _ _ _ _ Hsh) Hst Hclear Hin) as Hm.
  destruct (do_move _ _) as [[sw es]|why]; [|by left]. cbn [mbind rust_bind].
  destruct Hm as (a'&st'&Hw&Et&Hm). rewrite (ready_after _ _ _ _ _ Hst Et).
  destruct Hm as [(->&->&Hh&Hk&[[_ Hcs]|[[] _]])|(o&->&_&Hs&[->|[[] _]]&Hh&Hk)].
  - rewrite not_ready by (by eapply calling_not_ready). exists a, t; split; [constructor|].
    eapply shared_stay; try done; auto.
    + unfold in_call. rewrite Hc. by left.
    + intros x _ [Hx _]. by destruct (Hn x).
  - destruct (claimed_open _ _ _ _ (Idx_from id) Hsh) as (v&_&Hl&_).
    { destruct (insert_first _ _ _ sp Hsp) as (rest&E1&_). unfold claimed. rewrite E1. simpl.
      rewrite Hcl. set_solver. }
    inversion Hs; subst; [|done]. rewrite Hfin. exists (spec_refs a (Idx_from id :: refs a)), t.
    split; [constructor|]. cbn. eapply (shared_quiet w a t n cpu sp _ sw (handles w) sp'); try done; simpl; auto.
    + unfold in_call. by rewrite Hc'.
    + by rewrite Hr, Hr', Hh.
    + intros x _ [Hx _]. by destruct (Hn x).
    + intros x Hx. by destruct (Hn' x).
    + by rewrite Hcl, Hcl'.
Qed.

(** Counting: what the acting processor's step does to the claims of a span. *)
Lemma claims_move w cpu sp sp' hs sw m x :
  span_threads w !! cpu = Some sp ->
  let w' := MkSpansWorld sw m (<[cpu := sp']> (span_threads w)) hs in
  (claims w' x + occurrences x (handles w ++ taken sp) = claims w x + occurrences x (hs ++ taken sp'))%nat.
Proof.
  intros Hsp w'. destruct (claimed_first w cpu sp sp' hs sw m Hsp) as (rest&E1&E2).
  unfold claims, w'. rewrite (occurrences_perm x _ _ E1), (occurrences_perm x _ _ E2).
  rewrite !occurrences_app. lia.
Qed.

Lemma occurrences_cons x y l : occurrences x (y :: l) = ((if decide (y = x) then 1 else 0) + occurrences x l)%nat.
Proof. unfold occurrences. rewrite filter_cons. by case_decide. Qed.

Lemma occurrences_nil x : occurrences x [] = 0%nat.
Proof. done. Qed.

Lemma occurrences_all x l : Forall (fun y => y = x) l -> occurrences x l = length l.
Proof. induction 1; [done|]. rewrite occurrences_cons, decide_True by done. simpl. lia. Qed.

Lemma occurrences_none x y l : Forall (fun z => z = x) l -> y <> x -> occurrences y l = 0%nat.
Proof. intros Hl Hne. induction Hl; [done|]. rewrite occurrences_cons, decide_False by congruence. done. Qed.
(** A new span. *)
Lemma insert_span w a t n cpu sw span st x :
  shared w a t n -> span_threads w !! cpu = Some (Creating span) ->
  threads_of (slab_world w) !! cpu = Some st ->
  threads_of sw = <[cpu := Ready]> (threads_of (slab_world w)) ->
  let v := MkSpanState 1 (attributes_metadata span) in
  world_inv sw (spec_insert a x v) -> given a !! x = None ->
  held_of sw = held_of (slab_world w) -> known_of sw = x :: known_of (slab_world w) ->
  shared (MkSpansWorld sw (<[x := 1]> (counters w)) (<[cpu := Resting]> (span_threads w)) (x :: handles w))
    (spec_insert a x v) (MkSpanTable ({[x]} ∪ known t) (<[x := v]> (open_spans t))) (S n).
Proof.
  intros Hsh Hsp Hst Et v Hw Hn Hh Hk.
  assert (Hkx : x ∉ known_of (slab_world w)).
  { intros Hx. apply (wi_known _ _ (sh_world _ _ _ _ Hsh)) in Hx as [? Hx]. congruence. }
  eapply shared_move; try done; simpl.
  - by rewrite Hh.
  - rewrite Hk. set_solver.
  - by rewrite dom_insert_L, (sh_known _ _ _ _ Hsh).
  - intros y. pose proof (sh_span _ _ _ _ Hsh y) as Hy. set (w' := MkSpansWorld _ _ _ _).
    pose proof (claims_move w cpu _ Resting (x :: handles w) sw (<[x := 1]> (counters w)) y Hsp) as Hc.
    fold w' in Hc. simpl in Hc. rewrite occurrences_cons in Hc. destruct (decide (x = y)) as [<-|Hne].
    + unfold span_ok in *. simpl. rewrite !lookup_insert_eq, Hk.
      destruct (open_spans t !! x); [by destruct Hy as (_&?&_)|]. destruct Hy as [Hy _].
      split; [set_solver|]. split; [set_solver|]. split; [done|]. simpl. lia.
    + destruct (ending_move w cpu _ st Resting Ready sw (<[x := 1]> (counters w)) (x :: handles w) y Hsp Hst Et)
        as [Hm _].
      apply (span_ok_same w _ a _ t); try done; simpl.
      * by rewrite lookup_insert_ne.
      * by rewrite lookup_insert_ne.
      * rewrite Hk. set_solver.
      * lia.
      * set_solver.
      * set_solver.
      * intros _ [?|[[] _]]%Hm. done.
  - intros y Hy Hyk. rewrite lookup_insert_ne; [done|]. by intros <-.
Qed.

Lemma create_step w a t n cpu (fails : bool) span :
  shared w a t n -> clear_span w (StepSpans cpu fails) -> span_threads w !! cpu = Some (Creating span) ->
  goes_on w t n (Creating span) (step_spans w cpu fails).
Proof.
  intros Hsh Hclear Hsp. rewrite (step_calling _ _ _ _ _ Hsp eq_refl).
  destruct (slab_thread _ _ _ _ _ _ Hsh Hsp) as (st&Hst&Hin).
  pose proof (slab_act _ _ _ fails _ _ (sh_world _ _ _ _ Hsh) Hst Hclear Hin) as Hm.
  destruct (do_move _ _) as [[sw es]|why] eqn:Emove; [|by left]. cbn [mbind rust_bind].
  destruct Hm as (a'&st'&Hw&Et&Hm). rewrite (ready_after _ _ _ _ _ Hst Et).
  destruct Hm as [(->&->&Hh&Hk&[[_ Hcs]|[[] _]])|(o&->&_&Hs&[->|[[] _]]&Hh&Hk)].
  - rewrite not_ready by (by eapply calling_not_ready). exists a, t; split; [constructor|].
    eapply shared_stay; try done; auto. by left.
  - inversion Hs as [? ? x Hn Hv Hg| | | | | |]; subst.
    + destruct (Idx_into_valid x Hv Hg) as [Hb Hf]. cbn. unfold Id_from_u64.
      rewrite decide_False by lia. cbn. eexists _, _.
      split; [|eapply insert_span; done]. econstructor; [|constructor]. apply span_new; [|done..].
      rewrite (sh_known _ _ _ _ Hsh). by apply not_elem_of_dom.
    + right. split; [done|]. split; [by exists span|].
      destruct Hin as [Hin|[[] _]]. by eapply act_full.
Qed.

(** ** The reference counts *)

(** A processor that is about to count has a handle and a reference. *)
Lemma count_facts w a t n cpu sp x :
  shared w a t n -> span_threads w !! cpu = Some sp ->
  taken sp = [x] -> reading sp = Some x -> threads_of (slab_world w) !! cpu = Some Ready ->
  exists v held, open_spans t !! x = Some v /\ x ∈ live a /\ counters w !! x = Some (references v) /\
    references v = Z.of_nat (claims w x) /\ 0 < references v <= Z.of_nat n /\
    held_of (slab_world w) ≡ₚ x :: held /\
    let sw := MkWorld (slab_of (slab_world w))
      (<[cpu := DropLoad x]> (threads_of (slab_world w))) held (known_of (slab_world w)) in
    do_move (slab_world w) (Begin cpu (DropRef x)) = Ret (sw, []) /\ world_inv sw a.
Proof.
  intros Hsh Hsp Hcl Hr Hst. destruct (insert_first _ _ _ sp Hsp) as (rest&E1&_).
  assert (Hx : x ∈ claimed w) by (unfold claimed; rewrite E1; simpl; rewrite Hcl; set_solver).
  destruct (claimed_open _ _ _ _ x Hsh Hx) as (v&Hv&Hl&Hk&Hcnt&Href).
  destruct (hand_back_is x (held_of (slab_world w))) as (held&Hhb&Hp).
  { rewrite (sh_held _ _ _ _ Hsh), E1. simpl. rewrite Hr. set_solver. }
  destruct (begin_slab (slab_world w) a cpu (DropRef x) held) as [E Hw]; [apply Hsh|done|done|].
  exists v, held. split_and!; try done.
  - apply occurrences_in in Hx. unfold claims in Href. lia.
  - pose proof (occurrences_le x (claimed w)). pose proof (sh_steps _ _ _ _ Hsh).
    unfold claims in Href. lia.
Qed.

(** An addition to the count of span [x], with the drop of the reference
    that follows. *)
Lemma count_move w a t n cpu sp sp' sw x v m t' :
  shared w a t n -> span_threads w !! cpu = Some sp ->
  threads_of (slab_world w) !! cpu = Some Ready ->
  taken sp = [x] -> reading sp = Some x -> (forall y, ~ closing sp y) ->
  open_spans t !! x = Some v -> x ∈ live a ->
  threads_of sw = <[cpu := DropLoad x]> (threads_of (slab_world w)) -> world_inv sw a ->
  x :: held_of sw ≡ₚ held_of (slab_world w) -> known_of sw = known_of (slab_world w) ->
  call_of sp' = Some (DropRef x) -> reading sp' = None -> Forall (fun y => y = x) (taken sp') ->
  (length (taken sp') <= 2)%nat ->
  known t' = known t ->
  (forall y, y <> x -> open_spans t' !! y = open_spans t !! y /\ m !! y = counters w !! y) ->
  let count := (claims w x - 1 + length (taken sp'))%nat in
  match open_spans t' !! x with
  | Some v' => m !! x = Some (references v') /\ references v' = Z.of_nat count /\ (0 < count)%nat /\
      forall y, ~ closing sp' y
  | None => count = 0%nat /\ forall y, closing sp' y <-> y = x
  end ->
  shared (MkSpansWorld sw m (<[cpu := sp']> (span_threads w)) (handles w)) a t' (S n).
Proof.
  intros Hsh Hsp Hst Hcl Hr Hn Hv Hl Et Hw Hh Hk Hc' Hr' Hcl' Hlen Hkn Hoth count Hthis.
  assert (Hcp : forall y, closing sp' y -> y = x /\ open_spans t' !! x = None).
  { destruct (open_spans t' !! x); [destruct Hthis as (_&_&_&H); intros y Hy; by destruct (H y)|].
    destruct Hthis as [_ H]. intros y Hy. by apply H in Hy. }
  eapply shared_move; try done; simpl.
  - unfold in_call. rewrite Hc'. by left.
  - by rewrite Hr, Hr', <-Hh.
  - by rewrite Hk.
  - by rewrite Hkn, (sh_known _ _ _ _ Hsh).
  - intros y. pose proof (sh_span _ _ _ _ Hsh y) as Hy. set (w' := MkSpansWorld _ _ _ _).
    pose proof (claims_move w cpu _ sp' (handles w) sw m y Hsp) as Hc.
    cbv zeta in Hc. fold w' in Hc.
    rewrite !occurrences_app, Hcl, occurrences_cons, occurrences_nil in Hc.
    destruct (ending_move w cpu _ Ready sp' (DropLoad x) sw m (handles w) y Hsp Hst Et) as [Hm1 Hm2].
    fold w' in Hm1, Hm2. destruct (decide (y = x)) as [->|Hne].
    + rewrite decide_True in Hc by done. rewrite (occurrences_all x (taken sp')) in Hc by done.
      assert (Ec : claims w' x = count).
      { unfold span_ok in Hy. rewrite Hv in Hy. destruct Hy as (_&_&_&_&Hy). unfold count. lia. }
      unfold span_ok in *. rewrite Hv in Hy. rewrite Ec. simpl. rewrite Hk.
      destruct (open_spans t' !! x) as [v'|]; [naive_solver|].
      destruct Hthis as [? Hcx]. split; [done|]. intros _. apply Hm2. split; [by apply Hcx|].
      by destruct sp'.
    + rewrite decide_False in Hc by congruence. rewrite (occurrences_none x y (taken sp')) in Hc by done.
      destruct (Hoth y Hne) as [E1 E2]. apply (span_ok_same w _ a _ t); try done; simpl.
      * by rewrite Hk.
      * lia.
      * intros _ [?|[Hcy _]]%Hm1; [done|]. by destruct (Hn y).
  - intros y Hy _. destruct (decide (y = x)) as [->|Hne]; [congruence|]. by rewrite (proj1 (Hoth y Hne)).
  - intros y [-> ?]%Hcp. rewrite Hk. split; [done|].
    pose proof (sh_span _ _ _ _ Hsh x) as Hy. unfold span_ok in Hy. rewrite Hv in Hy. apply Hy.
  - rewrite !length_app, Hcl. simpl. lia.
Qed.

Lemma add_step w a t n cpu (fails : bool) id :
  shared w a t n -> Z.of_nat (S n) < usize_bound -> span_threads w !! cpu = Some (CloneAdding id) ->
  goes_on w t n (CloneAdding id) (step_spans w cpu fails).
Proof.
  intros Hsh Hb Hsp. destruct (slab_thread _ _ _ _ _ _ Hsh Hsp) as (st&Hst&Hin).
  change (st = Ready) in Hin. subst st.
  destruct (count_facts _ _ _ _ _ _ (Idx_from id) Hsh Hsp eq_refl eq_refl Hst)
    as (v&held&Hv&Hl&Hc&Hcl&Hpos&Hp&E&Hw).
  unfold step_spans, goes. rewrite Hsp, Hc. cbn -[do_move]. rewrite E. cbn. eexists a, _.
  split; [econstructor; [by apply (span_clone t id v)|constructor]|].
  eapply (count_move w a t n cpu (CloneAdding id) (CloneDropping id) _ (Idx_from id) v); try done; simpl.
  - naive_solver.
  - by repeat constructor.
  - intros y Hy. by rewrite !lookup_insert_ne.
  - rewrite !lookup_insert_eq. simpl. split; [done|].
    rewrite Z.mod_small by lia. split; [lia|]. split; [lia|]. naive_solver.
Qed.

Lemma sub_step w a t n cpu (fails : bool) id :
  shared w a t n -> Z.of_nat (S n) < usize_bound -> span_threads w !! cpu = Some (CloseSubbing id) ->
  goes_on w t n (CloseSubbing id) (step_spans w cpu fails).
Proof.
  intros Hsh Hb Hsp. destruct (slab_thread _ _ _ _ _ _ Hsh Hsp) as (st&Hst&Hin).
  change (st = Ready) in Hin. subst st.
  destruct (count_facts _ _ _ _ _ _ (Idx_from id) Hsh Hsp eq_refl eq_refl Hst)
    as (v&held&Hv&Hl&Hc&Hcl&Hpos&Hp&E&Hw).
  unfold step_spans, goes. rewrite Hsp, Hc. cbn -[do_move bool_decide]. rewrite E. cbn -[bool_decide].
  assert (Hmod : (references v + -1) mod usize_bound = references v - 1) by (apply Z.mod_small; lia).
  destruct (decide (references v = 1)) as [E1|E1].
  - rewrite bool_decide_true by done. eexists a, _.
    split; [econstructor; [by apply (span_close_last t id v)|constructor]|].
    eapply (count_move w a t n cpu (CloseSubbing id) _ _ (Idx_from id) v); try done; simpl; try lia.
    + intros y Hy. by rewrite lookup_delete_ne, lookup_insert_ne.
    + rewrite lookup_delete_eq. split; [lia|]. naive_solver.
  - rewrite bool_decide_false by done. eexists a, _.
    split; [econstructor; [by apply (span_close_shared t id v)|constructor]|].
    eapply (count_move w a t n cpu (CloseSubbing id) _ _ (Idx_from id) v); try done; simpl; try lia.
    + intros y Hy. by rewrite !lookup_insert_ne.
    + rewrite !lookup_insert_eq. simpl. split; [done|]. rewrite Hmod. split; [lia|]. split; [lia|]. naive_solver.
Qed.
(** ** Runs *)

Lemma step_shared w a t n cpu (fails : bool) :
  shared w a t n -> clear_span w (StepSpans cpu fails) -> Z.of_nat (S n) < usize_bound ->
  match step_spans w cpu fails with
  | Ret (w', es) => exists a' t', span_trace t es t' /\ shared w' a' t' (S n)
  | Panic why => exists sp, span_threads w !! cpu = Some sp /\ stops w sp why
  end.
Proof.
  intros Hsh Hclear Hb. destruct (span_threads w !! cpu) as [sp|] eqn:Hsp.
  - assert (Hsame : sp = Resting -> goes_on w t n sp (step_spans w cpu fails)).
    { intros ->. unfold step_spans. rewrite Hsp. exists a, t. split; [constructor|by apply shared_more]. }
    assert (Hgo : goes_on w t n sp (step_spans w cpu fails)).
    { destruct sp as [|span|id|id|id|id|id|id old|id]; [by apply Hsame|..].
      - by eapply create_step.
      - eapply (get_step _ _ _ _ _ _ _ (CloneAdding id)); naive_solver.
      - by eapply add_step.
      - by eapply drop_step.
      - eapply (get_step _ _ _ _ _ _ _ (CloseSubbing id)); naive_solver.
      - by eapply sub_step.
      - by eapply drop_step.
      - by eapply drop_step. }
    destruct (step_spans w cpu fails) as [[w' es]|why]; [done|by exists sp].
  - unfold step_spans. rewrite Hsp. exists a, t. split; [constructor|by apply shared_more].
Qed.

(** A step that panics is clear. *)
Lemma panic_clear_span w a t n cpu (fails : bool) why :
  shared w a t n -> step_spans w cpu fails = Panic why -> clear_span w (StepSpans cpu fails).
Proof.
  intros Hsh E. apply dec_stable. intros Hn.
  destruct (unclear_act _ _ _ _ (sh_world _ _ _ _ Hsh) Hn) as (sw&p&Em&Hp).
  unfold step_spans in E. destruct (span_threads w !! cpu) as [sp|] eqn:Hsp; [|done].
  destruct (slab_thread _ _ _ _ _ _ Hsh Hsp) as (st&Hst&Hin).
  assert (Hnr : st = Ready -> False).
  { intros ->. apply Hn. unfold clear_span, clear_move. by rewrite Hst. }
  destruct sp; try done; try (by rewrite Em in E; simpl in E; rewrite Hp in E);
    destruct (Hnr Hin).
Qed.

(** What can stop a run: a counter of the slab, or [fatal_error], which a
    processor reaches whose own list was empty, and that finds the global
    list empty too. *)
Definition cannot_go_on w (m : span_move) (why : panic) : Prop :=
  counters_used (slab_world w) \/
  why = EndlessLoop /\ exists cpu fails span, m = StepSpans cpu fails /\
    span_threads w !! cpu = Some (Creating span) /\
    head (global_free_list (slab_of (slab_world w))) = EMPTY.

Lemma move_shared w a t n (m : span_move) :
  shared w a t n -> Z.of_nat (S n) < usize_bound ->
  match move_spans w m with
  | Ret (w', es) => clear_span w m -> exists a' t', span_trace t es t' /\ shared w' a' t' (S n)
  | Panic why => cannot_go_on w m why
  end.
Proof.
  intros Hsh Hb. destruct m as [cpu c|cpu fails]; simpl.
  - destruct (call_shared w a t n cpu c Hsh) as (w'&->&Hsh'). intros _. exists a, t. split; [constructor|done].
  - pose proof (fun Hc => step_shared w a t n cpu fails Hsh Hc Hb) as Hs.
    destruct (step_spans w cpu fails) as [[w' es]|why] eqn:E; [done|].
    destruct (Hs (panic_clear_span _ _ _ _ _ _ _ Hsh E)) as (sp&Hsp&[?|[-> [[span ->] Hh]]]); [by left|].
    right. split; [done|]. by exists cpu, fails, span.
Qed.

Lemma span_trace_cat t es1 t1 es2 t2 :
  span_trace t es1 t1 -> span_trace t1 es2 t2 -> span_trace t (es1 ++ es2) t2.
Proof. induction 1; simpl; [done|]. intros. econstructor; [done|auto]. Qed.

Fixpoint clear_spans w (ms : list span_move) : bool :=
  match ms with
  | [] => true
  | m :: ms =>
      clear_span w m &&
      match move_spans w m with Ret (w, _) => clear_spans w ms | Panic _ => true end
  end.

Lemma run_shared w a t n ms w' es :
  shared w a t n -> Z.of_nat (n + length ms) < usize_bound -> run_spans w ms = Ret (w', es) ->
  clear_spans w ms ->
  exists a' t', span_trace t es t' /\ shared w' a' t' (n + length ms).
Proof.
  revert w a t n es. induction ms as [|m ms IH]; intros w a t n es Hsh Hb E Hcl; simpl in E, Hb, Hcl |- *.
  - simplify_eq. exists a, t. split; [constructor|]. by rewrite Nat.add_0_r.
  - pose proof (move_shared w a t n m Hsh ltac:(lia)) as Hm.
    destruct (move_spans w m) as [[w1 es1]|]; [|done]. cbn [mbind rust_bind] in E.
    apply andb_True in Hcl as [Hc Hcl].
    destruct (Hm Hc) as (a1&t1&Ht1&Hsh1). rust_inv E. destruct x as [w2 es2]. simplify_eq.
    destruct (IH w1 a1 t1 (S n) es2 Hsh1 ltac:(lia) Hx Hcl) as (a2&t2&Ht2&Hsh2). exists a2, t2.
    split; [by eapply span_trace_cat|]. by rewrite Nat.add_succ_r.
Qed.

(** ** The start *)

(** No slot is in use. *)
Definition all_free (sl : Slab SpanState) : Prop :=
  Forall (fun s => Bitfields.state (load s) = Ret Unallocated) (slots sl).

Lemma new_shared SIZE sl :
  (0 < SIZE)%nat -> slab_new SIZE = Ret sl ->
  shared (spans_at_rest sl []) spec_empty (no_spans) 0.
Proof.
  intros Hpos E.
  assert (Hr : forall k, Forall2 in_call (replicate k Resting) (replicate k Ready) /\
    omap reading (replicate k Resting) = [] /\ concat (taken <$> replicate k Resting) = []).
  { induction k as [|k (H1&H2&H3)]; [done|]. split_and!; [by constructor|done|done]. }
  destruct (Hr (Z.to_nat MAX_PROCESSORS)) as (H1&H2&H3).
  split; simpl.
  - by eapply new_world.
  - done.
  - by rewrite H2.
  - by rewrite dom_empty_L.
  - intros x. unfold span_ok, claims, claimed. simpl. rewrite lookup_empty, H3. split; [done|set_solver].
  - by apply Forall_replicate.
  - unfold claimed. simpl. rewrite H3. done.
Qed.
End sharing.

(** * Properties *)

Section properties.
Context {prof : Profile} {bits : ModularBitfield} {topology : Topology}.
Implicit Types (w : spans_world) (x : Idx) (sp : span_thread).

(** An execution: any moves of all processors, from the subscriber's new
    slab on, of which the first push to the slab's global list is clear, and
    fewer than the reference counts can count. *)
Record spans_run (SIZE : nat) (ms : list span_move) w (es : list (trace_call * trace_outcome)) : Prop := {
  sr_size : (0 < SIZE)%nat;
  sr_moves : Z.of_nat (S (length ms)) < usize_bound;
  sr_start : exists sl, slab_new SIZE = Ret sl /\ run_spans (spans_at_rest sl []) ms = Ret (w, es) /\
    clear_spans (spans_at_rest sl []) ms;
}.

Lemma spans_run_shared SIZE ms w es :
  spans_run SIZE ms w es ->
  exists a t, span_trace (no_spans) es t /\ shared w a t (length ms).
Proof.
  intros [Hpos Hn (sl&Hnew&Hrun&Hcl)].
  by apply (run_shared _ _ _ 0 ms _ _ (new_shared _ _ Hpos Hnew)) in Hrun; [|lia|].
Qed.

(** C6. The subscriber's spans stay what they are when processors share
    them. From the subscriber's new slab on, processors create spans, and
    clone and close those they have a handle of, in fewer than 2^64 - 1
    moves; the actions of these calls interleave in any way over
    sequentially consistent memory, on the condition of [slab_linearizable]
    that the first push to the slab's global list is clear of pops that have
    read the same slot's initial entry ([clear_spans]). Then the calls with
    their outcomes, in the order in which they take effect, are a sequence
    of the table of reference-counted spans that describes calls one after
    the other. At every moment a span is open exactly if there is a handle
    of it, and its count is the number of handles, those that calls have
    taken included. Nothing stops a processor but a used-up counter of the
    slab, or finding no free slot for a new span: neither on its own list
    before, nor now on the global one. *)
Theorem shared_spans_refine_table SIZE ms w es :
  spans_run SIZE ms w es ->
  (exists t, span_trace (no_spans) es t /\
    forall x, match open_spans t !! x with
              | Some v => references v = Z.of_nat (claims w x) /\ (0 < claims w x)%nat
              | None => claims w x = 0%nat
              end) /\
  forall m why, move_spans w m = Panic why -> cannot_go_on w m why.
Proof.
  intros Hr. destruct (spans_run_shared _ _ _ _ Hr) as (a&t&Ht&Hsh). split.
  - exists t. split; [done|]. intros x. pose proof (sh_span _ _ _ _ Hsh x) as Hx. unfold span_ok in Hx.
    destruct (open_spans t !! x); naive_solver.
  - intros m why E. pose proof (move_shared w a t _ m Hsh (sr_moves _ _ _ _ Hr)) as Hm. by rewrite E in Hm.
Qed.

Lemma resting_quiet (sps : list span_thread) ths :
  Forall (eq Resting) sps -> Forall2 in_call sps ths ->
  Forall (eq Ready) ths /\ omap reading sps = [] /\ concat (taken <$> sps) = [].
Proof.
  intros Hr. revert ths. induction Hr as [|sp sps <- _ IH]; intros ths H; inversion H as [|? st ? ths' H1 H2]; subst; [done|].
  destruct (IH _ H2) as (E1&E2&E3). split_and!; [by constructor|done|done].
Qed.

Lemma ready_quiet (ths : list (thread SpanState)) :
  Forall (eq Ready) ths -> omap holding ths = [] /\ omap dropping ths = [].
Proof. by induction 1 as [|th ths <- _ [E1 E2]]. Qed.

(** C7. No span is leaked, in the executions of [shared_spans_refine_table]:
    from the subscriber's new slab on, with the first push to the slab's
    global list clear. Whenever all processors are between calls and every
    handle was closed, every slot of the slab is free, in particular when
    the last reference to a span is given up by one processor while another
    removes it. *)
Theorem spans_not_leaked SIZE ms w es :
  spans_run SIZE ms w es -> Forall (eq Resting) (span_threads w) -> handles w = [] ->
  all_free (slab_of (slab_world w)).
Proof.
  intros Hr Hrest Hh. destruct (spans_run_shared _ _ _ _ Hr) as (a&t&_&Hsh).
  destruct (resting_quiet _ _ Hrest (sh_threads _ _ _ _ Hsh)) as (Hready&Hread&Hclaim).
  destruct (ready_quiet _ Hready) as [Hhold Hdrop].
  pose proof (sh_world _ _ _ _ Hsh) as [(ws&lls&lv&Hst) _ Hrefs _].
  pose proof (sh_held _ _ _ _ Hsh) as Hheld. rewrite Hread in Hheld.
  apply Permutation_nil_r in Hheld. rewrite Hheld, Hdrop in Hrefs. apply Permutation_nil_r in Hrefs.
  assert (Hlive : forall x, x ∉ live a).
  { intros x Hx. pose proof (sh_span _ _ _ _ Hsh x) as Hs. unfold span_ok, claims, claimed in Hs.
    rewrite Hh, Hclaim in Hs. destruct (open_spans t !! x).
    - destruct Hs as (_&_&_&_&Hs). by apply Nat.lt_irrefl in Hs.
    - destruct Hs as [_ Hs]. destruct (Hs Hx) as (cpu&sp&st&Hsp&_&[He _]).
      rewrite Forall_forall in Hrest. apply list_elem_of_lookup_2, Hrest in Hsp as <-. done. }
  apply Forall_lookup_2. intros i s Hs.
  destruct (ss_slots _ _ _ _ _ _ Hst i s Hs) as (st&g&Hok); [rewrite Hhold; by apply not_elem_of_nil|].
  rewrite (slot_is_load _ _ _ _ (so_is _ _ _ _ _ _ Hok)). destruct st; [|done|].
  - destruct (Hlive (MkIdx g (Z.of_nat i))). by apply (so_live _ _ _ _ _ _ Hok (MkIdx g (Z.of_nat i)) eq_refl).
  - destruct (so_zombie _ _ _ _ _ _ Hok eq_refl). by rewrite Hrefs.
Qed.
End properties.

(** * Executions *)

Section executions.
#[local] Existing Instance lsb_first.
#[local] Existing Instance dev_profile.
#[local] Existing Instance x86_64_topology.

#[local] Definition idle_metadata : tracing_Metadata := MkTracingMetadata "idle" "kernel" INFO None None.

#[local] Definition idle_span : tracing_Attributes := MkAttributes idle_metadata TRoot [].

#[local] Definition steps (n cpu : nat) : list span_move := replicate n (StepSpans cpu false).

#[local] Definition first_id : SpanId := Idx_into (MkIdx 1 0).

#[local] Definition idle_id : SpanId := Idx_into (MkIdx 2 0).

(** On a slab of two slots, processor 0 creates a span and processor 1
    closes it, with the first push to the global list. Processor 1 creates
    another span and processor 2 clones it. Then both close their handle:
    both look the span up before either counts, and processor 2 counts last.
    While it removes the span, processor 1 still has its reference; giving
    that up frees the slot. *)
#[local] Definition closing_together : list span_move :=
  [CallSpans 0 (NewSpan idle_span)] ++ steps 8 0 ++ [CallSpans 1 (TryClose first_id)] ++ steps 15 1 ++
  [CallSpans 1 (NewSpan idle_span)] ++ steps 8 1 ++
  [CallSpans 2 (CloneSpan idle_id)] ++ steps 5 2 ++
  [CallSpans 1 (TryClose idle_id); CallSpans 2 (TryClose idle_id)] ++
  steps 2 1 ++ steps 2 2 ++ steps 1 1 ++ steps 1 2 ++ steps 4 2 ++ steps 9 1.

#[local] Definition closing_events : list (trace_call * trace_outcome) :=
  [(NewSpan idle_span, NewId first_id); (TryClose first_id, Closed true);
   (NewSpan idle_span, NewId idle_id); (CloneSpan idle_id, Cloned idle_id);
   (TryClose idle_id, Closed false); (TryClose idle_id, Closed true)].

#[local] Definition two_spans : spans_world := spans_at_rest (new_slab 2) [].

#[local] Definition closed : spans_world :=
  match run_spans two_spans closing_together with Ret (w, _) => w | Panic _ => two_spans end.

(** A run that ends, with its events, is evaluated without the state that
    it ends in. *)
Lemma run_ends {A B} (r : rust (A * list B)) d es :
  match r with Ret (_, es') => es' = es | Panic _ => False end ->
  r = Ret (match r with Ret (w, _) => w | Panic _ => d end, es).
Proof. by destruct r as [[w es']|]; [intros ->|]. Qed.

Lemma closing_run : spans_run 2 closing_together closed closing_events.
Proof.
  split; [lia|done|]. exists (new_slab 2). split; [done|].
  split; [apply run_ends; vm_compute; reflexivity|by vm_compute].
Qed.

Lemma shared_spans_refine_table_witness : exists t, span_trace no_spans closing_events t.
Proof.
  destruct (shared_spans_refine_table 2 closing_together closed closing_events closing_run)
    as [(t&Ht&_) _]. by exists t.
Defined.

Lemma spans_not_leaked_witness : all_free (slab_of (slab_world closed)).
Proof.
  apply (spans_not_leaked 2 closing_together closed closing_events closing_run).
  - vm_compute. by repeat constructor.
  - vm_compute. reflexivity.
Defined.
End executions.
