(* ===== verification/SpansReturn.v ===== *)
(** Calls of the subscriber come to an end: a call of [new_span],
    [clone_span] or [try_close] that is in progress on a processor returns
    after a bounded number of that processor's own actions, wherever the
    calls of the others have stopped. *)
From S2P Require Import Prelude Bitfields Topology Slot FreeLists Slab SlabSpec Treiber SlabSteps.
From S2P Require Import SlabConcurrent SlabHistories Proto Decoder KTrace SpansConcurrent.

Section progress.
Context {prof : Profile} {bits : ModularBitfield} {topology : Topology}.
Implicit Types (w : spans_world) (cpu : nat) (id : SpanId) (sp : span_thread) (st : thread SpanState)
  (a : spec SpanState) (t : span_table).

(** What is left of a call behind the slab call it is in. *)
Definition calls_left sp : nat :=
  match sp with
  | Resting | Creating _ | CloneDropping _ | CloseRemoving _ => 0
  | CloneAdding _ => 11
  | CloneGetting _ => 12
  | CloseDropping _ _ => 11
  | CloseSubbing _ => 22
  | CloseGetting _ => 23
  end.

Definition thread_left (sw : world SpanState) cpu : nat :=
  match threads_of sw !! cpu with Some st => actions_left (slab_of sw) st | None => 0 end.

(** A bound on the actions that are left of the call of processor [cpu]. *)
Definition span_left w cpu : nat :=
  match span_threads w !! cpu with
  | Some sp => (calls_left sp + thread_left (slab_world w) cpu)%nat
  | None => 0
  end.

Lemma span_left_bound w cpu : (span_left w cpu <= 33)%nat.
Proof.
  unfold span_left, thread_left. destruct (span_threads w !! cpu) as [sp|]; [|lia].
  destruct (threads_of _ !! cpu) as [st|].
  - pose proof (actions_left_bound (slab_of (slab_world w)) st). destruct sp; simpl; lia.
  - destruct sp; simpl; lia.
Qed.

Lemma goes_left w cpu sp sp0 m hs c w' :
  span_threads w !! cpu = Some sp0 -> goes w cpu sp m hs c = Ret w' ->
  (span_left w' cpu <= calls_left sp + match c with Some _ => 10 | None => thread_left (slab_world w) cpu end)%nat.
Proof.
  intros Hsp E. unfold goes in E. rust_inv E. destruct x as [sw es]. injection E as <-.
  unfold span_left. simpl. rewrite list_lookup_insert_eq by (by eapply lookup_lt_Some).
  destruct c as [c|].
  - unfold thread_left. destruct (threads_of sw !! cpu) as [st|]; [|lia].
    pose proof (actions_left_bound (slab_of sw) st). lia.
  - injection Hx as <- <-. lia.
Qed.

(** An action of the slab call. *)
Lemma act_left sw a cpu st sw' es :
  world_inv sw a -> threads_of sw !! cpu = Some st -> st <> Ready ->
  do_move sw (Act cpu false) = Ret (sw', es) -> (thread_left sw' cpu < thread_left sw cpu)%nat.
Proof.
  intros [(ws&lls&lv&Hst) _ _ _] Hth Hne E. unfold do_move in E. rewrite Hth in E. rust_inv E.
  destruct x as [[sl st'] e]. injection E as <- <-. unfold thread_left. rewrite Hth. simpl.
  rewrite list_lookup_insert_eq by (by eapply lookup_lt_Some).
  assert (Hok : thread_ok (slots (slab_of sw)) a st).
  { pose proof (ss_threads _ _ _ _ _ _ Hst) as Hall. rewrite Forall_forall in Hall.
    apply Hall. by eapply list_elem_of_lookup_2. }
  by eapply act_progress; [eapply thread_ok_in_loop|..].
Qed.

(** The slab call has returned, after at least one action. *)
Lemma after_left w cpu sp c es w' es' :
  span_threads w !! cpu = Some sp -> call_of sp = Some c -> thread_left (slab_world w) cpu = 0%nat ->
  after_slab w cpu sp es = Ret (w', es') -> (span_left w' cpu < S (calls_left sp))%nat.
Proof.
  intros Hsp Hc H0 E.
  assert (Hgo : forall sp1 m hs c, goes w cpu sp1 m hs c = Ret w' ->
    (span_left w' cpu <= calls_left sp1 + match c with Some _ => 10 | None => 0 end)%nat).
  { intros sp1 m hs c1 E1. apply (goes_left _ _ _ _ _ _ _ _ Hsp) in E1. by rewrite H0 in E1. }
  destruct sp as [|span|id|id|id|id|id|id old|id]; try discriminate Hc; cbn [after_slab] in E.
  - destruct es as [|[? [y|v|b|o|v|]] ?]; try discriminate E; rust_inv E; simplify_eq;
      apply Hgo in Hx0; simpl in *; lia.
  - destruct es as [|[? [y|v|b|[y|]|v|]] ?]; rust_inv E; simplify_eq; apply Hgo in Hx; simpl in *; lia.
  - rust_inv E. simplify_eq. apply Hgo in Hx. simpl in *. lia.
  - destruct es as [|[? [y|v|b|[y|]|v|]] ?]; rust_inv E; simplify_eq; apply Hgo in Hx; simpl in *; lia.
  - rust_inv E. simplify_eq. case_decide; apply Hgo in Hx; simpl in *; lia.
  - rust_inv E. simplify_eq. apply Hgo in Hx. simpl in *. lia.
Qed.
(** Every action of a call leaves less of it. *)
Lemma step_left w a t n cpu sp w' es :
  shared w a t n -> span_threads w !! cpu = Some sp -> sp <> Resting ->
  step_spans w cpu false = Ret (w', es) -> (span_left w' cpu < span_left w cpu)%nat.
Proof.
  intros Hsh Hsp Hne E. destruct (slab_thread _ _ _ _ _ _ Hsh Hsp) as (st&Hst&Hin).
  assert (Hleft : span_left w cpu = (calls_left sp + thread_left (slab_world w) cpu)%nat)
    by (unfold span_left; by rewrite Hsp).
  destruct (call_of sp) as [c|] eqn:Hc.
  - rewrite (step_calling _ _ _ _ _ Hsp Hc) in E. rust_inv E. destruct x as [sw es1].
    unfold in_call in Hin. rewrite Hc in Hin.
    assert (Hnr : st <> Ready).
    { destruct Hin as [?|[_ ?]]; [by eapply calling_not_ready|by apply returning_not_ready]. }
    pose proof (act_left _ _ _ _ _ _ (sh_world _ _ _ _ Hsh) Hst Hnr Hx) as Hlt.
    assert (Hth : exists st', threads_of sw !! cpu = Some st').
    { unfold do_move in Hx. rewrite Hst in Hx. rust_inv Hx. destruct x as [[sl st'] e]. simplify_eq.
      exists st'. simpl. apply list_lookup_insert_eq. by eapply lookup_lt_Some. }
    destruct Hth as [st' Hst']. rewrite Hst' in E.
    assert (Hdec : st' = Ready \/ st' <> Ready) by (destruct st'; (by left) || by right).
    destruct Hdec as [->|Hnr'].
    + cbv zeta in E. apply (after_left (MkSpansWorld sw (counters w) (span_threads w) (handles w)) _ _ _ _ _ _ Hsp Hc) in E;
        [lia|]. unfold thread_left. simpl. by rewrite Hst'.
    + rewrite not_ready in E by done. simplify_eq. unfold span_left. simpl. rewrite Hsp. lia.
  - rewrite Hleft. destruct sp; try discriminate Hc; [done|..]; unfold step_spans in E; rewrite Hsp in E;
      rust_inv E; simplify_eq; apply (goes_left _ _ _ _ _ _ _ _ Hsp) in Hx0; simpl in *; lia.
Qed.

Lemma shared_length w a t n : shared w a t n -> length (span_threads w) = Z.to_nat MAX_PROCESSORS.
Proof.
  intros Hsh. rewrite (Forall2_length _ _ _ (sh_threads _ _ _ _ Hsh)).
  apply (wi_threads _ _ (sh_world _ _ _ _ Hsh)).
Qed.

Lemma actions_left_pos (sl : Slab SpanState) st : st <> Ready -> (0 < actions_left sl st)%nat.
Proof. destruct st as [| |v []| | | | | | | | | | | | | | | |[]]; simpl; intros ?; repeat case_match; done || lia. Qed.

(** ** The others stand still *)

(** As for the slab, those in [pop] could as well be back at its start. *)
Definition calmed_spans w cpu : spans_world :=
  MkSpansWorld (calmed (slab_world w) cpu) (counters w) (span_threads w) (handles w).

Lemma calmed_begin (sw : world SpanState) cpu c :
  do_move (calmed sw cpu) (Begin cpu c) =
    '(sw', es) ← do_move sw (Begin cpu c); Ret (calmed sw' cpu, es).
Proof.
  unfold do_move. rewrite calmed_lookup. change (may_begin (calmed sw cpu) c) with (may_begin sw c).
  cbn [mbind rust_bind]. destruct (threads_of sw !! cpu) as [st|] eqn:E; [|done].
  destruct st; try done. destruct (may_begin sw c) as [held|]; [|done].
  unfold calmed. simpl. rewrite E, list_lookup_insert_eq by (by eapply lookup_lt_Some).
  by rewrite list_fmap_insert, !list_insert_insert_eq.
Qed.

Lemma calmed_goes w cpu sp m hs c :
  goes (calmed_spans w cpu) cpu sp m hs c = (w' ← goes w cpu sp m hs c; Ret (calmed_spans w' cpu)).
Proof.
  unfold goes. destruct c as [c|]; [|done].
  change (slab_world (calmed_spans w cpu)) with (calmed (slab_world w) cpu). rewrite calmed_begin. by destruct (do_move _ _) as [[sw es]|].
Qed.

Lemma calmed_after w cpu sp es :
  after_slab (calmed_spans w cpu) cpu sp es =
    '(w', es') ← after_slab w cpu sp es; Ret (calmed_spans w' cpu, es').
Proof.
  assert (Hgo : forall sp1 m hs c (es' : list (trace_call * trace_outcome)),
    (w' ← goes (calmed_spans w cpu) cpu sp1 m hs c; Ret (w', es')) =
    ('(w', es') ← (w' ← goes w cpu sp1 m hs c; Ret (w', es')); Ret (calmed_spans w' cpu, es'))).
  { intros. rewrite calmed_goes. by destruct (goes _ _ _ _ _ _). }
  destruct sp as [|span|id|id|id|id|id|id old|id]; cbn -[decide goes]; try done;
    try (by apply Hgo).
  - destruct es as [|[c [y| | | | |]] es]; try done. destruct (Id_from_u64 _); [|done].
    cbn -[goes]. by apply Hgo.
  - destruct es as [|[c [y| | |[y|]| |]] es]; by apply Hgo.
  - destruct es as [|[c [y| | |[y|]| |]] es]; by apply Hgo.
  - case_decide; by apply Hgo.
Qed.

Lemma calmed_step w cpu fails :
  step_spans (calmed_spans w cpu) cpu fails =
    '(w', es) ← step_spans w cpu fails; Ret (calmed_spans w' cpu, es).
Proof.
  assert (Hslab : forall sp,
    ('(sw, es) ← do_move (slab_world (calmed_spans w cpu)) (Act cpu fails);
     let w1 := MkSpansWorld sw (counters w) (span_threads w) (handles w) in
     match threads_of sw !! cpu with
     | Some Ready => after_slab w1 cpu sp es
     | _ => Ret (w1, [])
     end) =
    ('(w', es) ← ('(sw, es) ← do_move (slab_world w) (Act cpu fails);
        let w1 := MkSpansWorld sw (counters w) (span_threads w) (handles w) in
        match threads_of sw !! cpu with
        | Some Ready => after_slab w1 cpu sp es
        | _ => Ret (w1, [])
        end); Ret (calmed_spans w' cpu, es))).
  { intros sp. change (slab_world (calmed_spans w cpu)) with (calmed (slab_world w) cpu). rewrite calmed_act.
    destruct (do_move _ _) as [[sw es]|]; [|done]. cbn [mbind rust_bind]. rewrite calmed_lookup.
    cbv zeta. set (w1 := MkSpansWorld sw _ _ _).
    change (MkSpansWorld (calmed sw cpu) _ _ _) with (calmed_spans w1 cpu).
    destruct (threads_of sw !! cpu) as [[]|]; try done. by rewrite calmed_after. }
  unfold step_spans. change (span_threads (calmed_spans w cpu)) with (span_threads w).
  change (counters (calmed_spans w cpu)) with (counters w).
  change (handles (calmed_spans w cpu)) with (handles w).
  destruct (span_threads w !! cpu) as [[|span|id|id|id|id|id|id old|id]|]; try done;
    try (by apply Hslab); destruct (counters w !! _); try done; cbn [deref mbind rust_bind];
    rewrite calmed_goes; by destruct (goes _ _ _ _ _ _).
Qed.

Lemma calmed_run k w cpu :
  run_spans (calmed_spans w cpu) (replicate k (StepSpans cpu false)) =
    '(w', es) ← run_spans w (replicate k (StepSpans cpu false)); Ret (calmed_spans w' cpu, es).
Proof.
  revert w. induction k as [|k IH]; intros w; [done|]. cbn [replicate run_spans move_spans].
  rewrite calmed_step. destruct (step_spans w cpu false) as [[w1 es1]|]; [|done].
  cbn [mbind rust_bind]. rewrite IH. by destruct (run_spans w1 _) as [[]|].
Qed.

Lemma calmed_other (sw : world SpanState) cpu j st :
  threads_of sw !! j = Some st ->
  exists st', threads_of (calmed sw cpu) !! j = Some st' /\ (st' = st \/ st' = calm st).
Proof.
  intros E. destruct (decide (cpu = j)) as [<-|Hne].
  - exists st. rewrite calmed_lookup. auto.
  - exists (calm st). split; [|by right]. unfold calmed. simpl.
    destruct (threads_of sw !! cpu); rewrite ?list_lookup_insert_ne by done;
      by rewrite list_lookup_fmap, E.
Qed.

Lemma calm_calling (c : call SpanState) st : calling c st -> calling c (calm st).
Proof. by destruct c, st. Qed.

Lemma calm_in_call sp st : in_call sp st -> in_call sp (calm st).
Proof.
  unfold in_call. destruct (call_of sp) as [c|]; [|by intros ->].
  intros [Hc|[Hr Hc]]; [left; by apply calm_calling|right]. split; [done|by destruct st].
Qed.

Lemma calmed_length (sw : world SpanState) cpu :
  length (threads_of (calmed sw cpu)) = length (threads_of sw).
Proof.
  unfold calmed. simpl. destruct (threads_of sw !! cpu); by rewrite ?length_insert, length_fmap.
Qed.

Lemma calmed_shared w a t n cpu sp :
  shared w a t n -> span_threads w !! cpu = Some sp -> shared (calmed_spans w cpu) a t n.
Proof.
  intros Hsh Hsp. destruct (slab_thread _ _ _ _ _ _ Hsh Hsp) as (st&Hst&_).
  destruct Hsh as [Hw Ht Hh Hk Hs Hc Hn].
  split; try done; change (slab_world (calmed_spans w cpu)) with (calmed (slab_world w) cpu);
    change (span_threads (calmed_spans w cpu)) with (span_threads w).
  - apply world_system. apply world_system in Hw. by apply (calmed_system _ _ [] _ st).
  - apply Forall2_same_length_lookup. split; [rewrite calmed_length; by eapply Forall2_length|].
    intros j spj stj Hj Hstj. destruct (Forall2_lookup_l _ _ _ _ _ Ht Hj) as (st1&Hst1&Hin).
    destruct (calmed_other _ cpu _ _ Hst1) as (st2&Hst2&Hor). rewrite Hstj in Hst2. injection Hst2 as <-.
    destruct Hor as [->| ->]; [done|by apply calm_in_call].
  - intros x. specialize (Hs x). unfold span_ok in *. change (claims (calmed_spans w cpu) x) with (claims w x).
    destruct (open_spans t !! x); [done|]. destruct Hs as [? He]. split; [done|].
    intros Hx. destruct (He Hx) as (j&spj&stj&Hj&Hstj&Hcl&Hrm).
    destruct (calmed_other _ cpu _ _ Hstj) as (st2&Hst2&Hor). exists j, spj, st2.
    split; [done|]. split; [done|]. split; [done|].
    destruct Hor as [->| ->]; [done|]. destruct spj; try done. by apply calm_calling.
Qed.

(** A call that is left alone, first when the others are calm. *)
Lemma calm_call_ends k w a t n cpu sp :
  shared w a t n -> calmed_spans w cpu = w -> span_threads w !! cpu = Some sp -> (span_left w cpu <= k)%nat ->
  Z.of_nat (S (n + k)) < usize_bound ->
  exists j w' es, (j <= k)%nat /\ run_spans w (replicate j (StepSpans cpu false)) = Ret (w', es) /\
    (span_threads w' !! cpu = Some Resting \/
     exists why, move_spans w' (StepSpans cpu false) = Panic why /\
       cannot_go_on w' (StepSpans cpu false) why).
Proof.
  revert w a t n sp. induction k as [|k IH]; intros w a t n sp Hsh Hcalm Hsp Hk Hb;
    (assert (Hdec : sp = Resting \/ sp <> Resting) by (destruct sp; (by left) || by right));
    destruct Hdec as [->|Hne]; try (exists 0%nat, w, []; split; [lia|]; split; [done|by left]).
  - destruct (slab_thread _ _ _ _ _ _ Hsh Hsp) as (st&Hst&Hin). unfold span_left, thread_left in Hk.
    rewrite Hsp, Hst in Hk. unfold in_call in Hin. destruct (call_of sp) as [c|] eqn:Hc.
    + assert (Hnr : st <> Ready).
      { destruct Hin as [?|[_ ?]]; [by eapply calling_not_ready|by apply returning_not_ready]. }
      pose proof (actions_left_pos (slab_of (slab_world w)) st Hnr). lia.
    + destruct sp; simpl in *; try done; lia.
  - pose proof (move_shared w a t n (StepSpans cpu false) Hsh ltac:(lia)) as Hm. cbn [move_spans] in Hm.
    destruct (step_spans w cpu false) as [[w1 es1]|why] eqn:E.
    + destruct Hm as (a1&t1&_&Hsh1).
      { destruct (slab_thread _ _ _ _ _ _ Hsh Hsp) as (st&Hst&_). rewrite <-Hcalm.
        apply (calmed_clear _ a [] _ st); [|done].
        pose proof (sh_world _ _ _ _ Hsh) as Hw. rewrite <-Hcalm in Hw. by apply world_system in Hw. }
      assert (Hcalm1 : calmed_spans w1 cpu = w1).
      { pose proof (calmed_step w cpu false) as Hs. rewrite Hcalm, E in Hs. by injection Hs as Hs. }
      pose proof (step_left _ _ _ _ _ _ _ _ Hsh Hsp Hne E) as Hlt.
      destruct (lookup_lt_is_Some_2 (span_threads w1) cpu) as [sp1 Hsp1].
      { rewrite (shared_length _ _ _ _ Hsh1), <-(shared_length _ _ _ _ Hsh). by eapply lookup_lt_Some. }
      destruct (IH w1 a1 t1 (S n) sp1 Hsh1 Hcalm1 Hsp1) as (j&w2&es2&Hj&Hrun&Hend); [lia|lia|].
      exists (S j), w2, (es1 ++ es2). split; [lia|]. split; [|done].
      cbn [replicate run_spans move_spans]. rewrite E. cbn [mbind rust_bind]. by rewrite Hrun.
    + exists 0%nat, w, []. split; [lia|]. split; [done|]. right. exists why. split; [done|exact Hm].
Qed.

Lemma calmed_spans_idem w cpu : calmed_spans (calmed_spans w cpu) cpu = calmed_spans w cpu.
Proof. unfold calmed_spans. simpl. by rewrite calmed_idem. Qed.

Lemma calmed_cannot w cpu m why : cannot_go_on (calmed_spans w cpu) m why -> cannot_go_on w m why.
Proof.
  intros [Hu|H]; [left|by right]. unfold counters_used in *.
  change (slab_world (calmed_spans w cpu)) with (calmed (slab_world w) cpu) in Hu.
  by rewrite calmed_dropping in Hu.
Qed.

Lemma span_call_ends k w a t n cpu sp :
  shared w a t n -> span_threads w !! cpu = Some sp -> (span_left w cpu <= k)%nat ->
  Z.of_nat (S (n + k)) < usize_bound ->
  exists j w' es, (j <= k)%nat /\ run_spans w (replicate j (StepSpans cpu false)) = Ret (w', es) /\
    (span_threads w' !! cpu = Some Resting \/
     exists why, move_spans w' (StepSpans cpu false) = Panic why /\
       cannot_go_on w' (StepSpans cpu false) why).
Proof.
  intros Hsh Hsp Hk Hb. pose proof (calmed_shared _ _ _ _ _ _ Hsh Hsp) as Hc.
  destruct (calm_call_ends k (calmed_spans w cpu) a t n cpu sp Hc) as (j&wc&es&Hj&Hrun&Hend);
    [apply calmed_spans_idem|done| |done|].
  - unfold span_left, thread_left in *.
    change (slab_world (calmed_spans w cpu)) with (calmed (slab_world w) cpu). by rewrite calmed_lookup.
  - rewrite calmed_run in Hrun. destruct (run_spans w _) as [[w' es']|] eqn:Erun; [|done].
    cbn [mbind rust_bind] in Hrun. simplify_eq. exists j, w', es. split; [done|]. split; [done|].
    destruct Hend as [?|(why&Em&Hcg)]; [by left|right]. exists why. split; [|by eapply calmed_cannot].
    cbn [move_spans] in *. rewrite calmed_step in Em. by destruct (step_spans w' cpu false) as [[]|].
Qed.
End progress.

(** * Properties *)

Section properties.
Context {prof : Profile} {bits : ModularBitfield} {topology : Topology}.

(** C8. A call of [new_span], [clone_span] or [try_close] never hangs. In
    every state that an execution of [shared_spans_refine_table] reaches
    (from the subscriber's new slab, in fewer than 2^64 - 34 moves, with the
    first push to the slab's global list clear), and wherever the other
    processors have stopped in their calls, the call that is in progress on
    a processor returns within 33 of its own actions, unless it meets a
    used-up counter of the slab, or creates a span and finds no free slot:
    it loops for ever in [fatal_error] if the global list is empty, its own
    list having been empty before, though other processors may have free
    slots on theirs. *)
Theorem span_calls_return SIZE ms w es cpu :
  spans_run SIZE ms w es -> Z.of_nat (length ms) + 34 < usize_bound -> Z.of_nat cpu < MAX_PROCESSORS ->
  exists k w' es', (k <= 33)%nat /\ run_spans w (replicate k (StepSpans cpu false)) = Ret (w', es') /\
    (span_threads w' !! cpu = Some Resting \/
     exists why, move_spans w' (StepSpans cpu false) = Panic why /\
       cannot_go_on w' (StepSpans cpu false) why).
Proof.
  intros Hr Hb Hcpu. destruct (spans_run_shared _ _ _ _ Hr) as (a&t&_&Hsh).
  destruct (lookup_lt_is_Some_2 (span_threads w) cpu) as [sp Hsp]; [rewrite (shared_length _ _ _ _ Hsh); lia|].
  eapply span_call_ends; [exact Hsh|exact Hsp|apply span_left_bound|lia].
Qed.
End properties.

(** * Executions *)

Section executions.
#[local] Existing Instance lsb_first.
#[local] Existing Instance dev_profile.
#[local] Existing Instance x86_64_topology.

(** Two processors that close a span together, stopped where the last close
    was counted and the span is about to be removed. *)
#[local] Definition counted : list span_move := take 50 SpansConcurrent.closing_together.

#[local] Definition stopped : spans_world :=
  match run_spans SpansConcurrent.two_spans counted with
  | Ret (w, _) => w
  | Panic _ => SpansConcurrent.two_spans
  end.

Lemma stopped_run : spans_run 2 counted stopped SpansConcurrent.closing_events.
Proof.
  split; [lia|done|]. exists (new_slab 2). split; [done|].
  split; [apply run_ends; vm_compute; reflexivity|by vm_compute].
Qed.

Lemma span_calls_return_witness :
  exists k w es, (k <= 33)%nat /\ run_spans stopped (replicate k (StepSpans 2 false)) = Ret (w, es).
Proof.
  destruct (span_calls_return 2 counted stopped SpansConcurrent.closing_events 2 stopped_run)
    as (k&w&es&Hk&E&_); [by vm_compute|by vm_compute|]. by exists k, w, es.
Defined.
End executions.
