(* ===== verification/Fmt.v ===== *)
(** The host-side formatter ([ktrace/decoder/src/fmt.rs]): the spans it
    knows, the stack of entered spans of each processor, and the text that
    it prints for every message. Colours (owo-colors) and the lookup of
    kernel symbols are parameters. *)
From Stdlib Require Import Ascii.
From S2P Require Import Prelude Address Bitfields Topology Slot FreeLists Slab SlabSpec Proto.
From S2P Require Import Decoder KTrace.

(** [proto::ReceiverMessage]. *)
Abbreviation fields := (list (string * Value)) (only parsing).
Abbreviation ReceiverMessage := (Proto.Message (list (string * Value)) (list (string * Value))).

Inductive color := Red | Yellow | Green | Blue | Dimmed | Magenta | Cyan | Bold.

(** [if_supports_color] on standard output, and [Symbolizer::symbolize],
    which can fail. *)
Class Rendering := {
  paint : color -> string -> string;
  symbolize : Z -> result string unit;
}.

(** * Text *)

Definition newline : string := String (ascii_of_nat 10) "".

(** [Indent::spaces(depth)]. *)
Fixpoint spaces (depth : nat) : string :=
  match depth with O => "" | S depth => "  " +:+ spaces depth end.

(** [str::lines]: lines end in a line feed, which is not part of them, nor
    is a carriage return before it. *)
Fixpoint strip_cr (s : string) : string :=
  match s with
  | EmptyString => ""
  | String c rest =>
      if decide (rest = "" /\ c = ascii_of_nat 13) then "" else String c (strip_cr rest)
  end.

Fixpoint lines_from (line s : string) : list string :=
  match s with
  | EmptyString => if decide (line = "") then [] else [line]
  | String c s =>
      if decide (c = ascii_of_nat 10) then strip_cr line :: lines_from "" s
      else lines_from (line +:+ String c "") s
  end.

Definition lines (s : string) : list string := lines_from "" s.

(** The loop of [write_value] over the lines of a string: every line but the
    first is indented, every line but the last is ended. *)
Fixpoint write_lines (depth : nat) (is_first : bool) (ls : list string) : string :=
  match ls with
  | [] => ""
  | line :: ls =>
      (if is_first then "" else spaces depth) +:+ line +:+
      (match ls with [] => "" | _ => newline end) +:+ write_lines depth false ls
  end.

(** * Spans *)

Record SpanState := MkSpanState {
  id : SpanId;
  depth : Z;
  name : string;
  target : string;
  level : Level;
}.

(** [SpanName]. *)
Definition span_name (s : SpanState) : string :=
  target s +:+ "::" +:+ name s +:+ "#" +:+ pretty (id s).

(** The stacks are vectors: the current span is the last. *)
Record Formatter := MkFormatter {
  spans : gmap SpanId SpanState;
  span_stacks : gmap ProcessorId (list SpanId);
}.

Definition formatter_new : Formatter := MkFormatter ∅ ∅.

(** [self.span_stacks.entry(processor).or_default()]. *)
Definition stack (f : Formatter) (processor : ProcessorId) : Formatter * list SpanId :=
  match span_stacks f !! processor with
  | Some ids => (f, ids)
  | None => (MkFormatter (spans f) (<[processor := []]> (span_stacks f)), [])
  end.

Definition set_stack (f : Formatter) (processor : ProcessorId) (ids : list SpanId) : Formatter :=
  MkFormatter (spans f) (<[processor := ids]> (span_stacks f)).

Definition resolve_parent (f : Formatter) (parent : Parent) : Formatter * option SpanId :=
  match parent with
  | Root => (f, None)
  | Current processor => let '(f, ids) := stack f processor in (f, last ids)
  | Explicit id => (f, Some id)
  end.

Section formatter.
Context {prof : Profile} {rendering : Rendering}.
Implicit Types (f : Formatter).

Definition level_color (l : Level) (text : string) : string :=
  match l with
  | LError => paint Red text
  | LWarn => paint Yellow text
  | LInfo => paint Green text
  | LDebug => paint Blue text
  | LTrace => paint Dimmed text
  end.

(** A failing [Symbolizer] makes the [println!] panic. *)
Definition write_value (v : Value) (depth : nat) : rust string :=
  match v with
  | KernelAddress address =>
      match symbolize address with Ok s => Ret s | Err _ => Panic ExpectFailed end
  | VString s => Ret (write_lines depth true (lines s))
  | U64 x => Ret (pretty x)
  | PhysicalAddress addr => Ret (paint Magenta (format_012x addr))
  | VirtualAddress addr => Ret (paint Cyan (format_012x addr))
  end.

(** [DisplayFields]. *)
Fixpoint display_fields (is_first : bool) (fs : fields) (depth : nat) : rust string :=
  match fs with
  | [] => Ret ""
  | (n, v) :: fs =>
      text ← write_value v depth;
      rest ← display_fields false fs depth;
      Ret ((if is_first then "" else " ") +:+
           (if decide (n = "message") then "" else paint Bold n +:+ ": ") +:+ text +:+ rest)
  end.

(** [receive], with the text it prints. *)
Definition receive f (message : ReceiverMessage) : rust (Formatter * string) :=
  match message with
  | MSpanCreated span =>
      let '(f, parent) := resolve_parent f (created_parent span) in
      let parent := parent ≫= fun s => spans f !! s in
      depth ← match parent with Some s => add_usize (depth s) 1 | None => Ret 0 end;
      let m := created_metadata span in
      let state := MkSpanState (created_id span) depth (Proto.name m) (Proto.target m) (Proto.level m) in
      let indent := spaces (Z.to_nat depth) in
      let created :=
        indent +:+ "╔ " +:+ level_color (Proto.level m) (display_Level (Proto.level m)) +:+ " "
        +:+ span_name state
        +:+ (match parent with Some p => " ⇜ " +:+ span_name p | None => "" end) +:+ newline in
      details ←
        match created_fields span with
        | [] => Ret ""
        | fs =>
            inner ← add_usize depth 2;
            text ← display_fields true fs (Z.to_nat inner);
            Ret (indent +:+ "  " +:+ text +:+ newline)
        end;
      Ret (MkFormatter (<[created_id span := state]> (spans f)) (span_stacks f), created +:+ details)
  | MEvent event =>
      let '(f, parent) := resolve_parent f (event_span event) in
      let m := event_metadata event in
      depth ← add_usize
        (match parent ≫= fun s => spans f !! s with Some s => depth s | None => 0 end) 1;
      inner ← add_usize depth 1;
      text ← display_fields true (event_fields event) (Z.to_nat inner);
      Ret (f, spaces (Z.to_nat depth) +:+ "└ "
              +:+ level_color (Proto.level m) (display_Level (Proto.level m)) +:+ " " +:+ text +:+ newline)
  | MSpanClosed id =>
      match spans f !! id with
      | Some span =>
          Ret (MkFormatter (delete id (spans f)) (span_stacks f),
               spaces (Z.to_nat (depth span)) +:+ "╚ " +:+ level_color (level span) "END" +:+ " "
               +:+ span_name span +:+ newline)
      | None => Ret (f, "")
      end
  | MSpanEntered id processor =>
      let '(f, ids) := stack f processor in
      Ret (set_stack f processor (ids ++ [id]), "")
  | MSpanExited id processor =>
      let '(f, ids) := stack f processor in
      let prev := last ids in
      let f := set_stack f processor (take (length ids - 1) ids) in
      _ ← rassert (bool_decide (prev = Some id));
      Ret (f, "")
  end.

(** One message after the other. *)
Fixpoint receive_all f (ms : list ReceiverMessage) : rust (Formatter * string) :=
  match ms with
  | [] => Ret (f, "")
  | m :: ms =>
      '(f, text) ← receive f m;
      '(f, rest) ← receive_all f ms;
      Ret (f, text +:+ rest)
  end.
End formatter.

(** * The stacks *)

(** What a message does to the stack of a processor. *)
Inductive mark := Opened (i : SpanId) | Left (i : SpanId).

Definition mark_of (m : ReceiverMessage) : option (ProcessorId * mark) :=
  match m with
  | MSpanEntered i p => Some (p, Opened i)
  | MSpanExited i p => Some (p, Left i)
  | _ => None
  end.

Definition marks (p : ProcessorId) (ms : list ReceiverMessage) : list mark :=
  omap (fun m => match mark_of m with
                 | Some (q, k) => if decide (q = p) then Some k else None
                 | None => None
                 end) ms.

(** Words in which every exit leaves the span entered last. *)
Inductive balanced : list mark -> Prop :=
  | balanced_nil : balanced []
  | balanced_nest i w1 w2 :
      balanced w1 -> balanced w2 -> balanced (Opened i :: w1 ++ Left i :: w2).

(** Some spans may still be entered. *)
Definition well_nested (w : list mark) : Prop := exists w', balanced (w ++ w').

Definition stack_step (ids : list SpanId) (k : mark) : option (list SpanId) :=
  match k with
  | Opened i => Some (ids ++ [i])
  | Left i => if decide (last ids = Some i) then Some (take (length ids - 1) ids) else None
  end.

Fixpoint scan (ids : list SpanId) (w : list mark) : option (list SpanId) :=
  match w with
  | [] => Some ids
  | k :: w => ids ← stack_step ids k; scan ids w
  end.

Lemma stack_step_left ids i : stack_step (ids ++ [i]) (Left i) = Some ids.
Proof.
  simpl. rewrite last_snoc, decide_True by done. f_equal.
  rewrite length_app, Nat.add_sub. apply take_app_length.
Qed.

Lemma stack_step_left_inv ids i ids' : stack_step ids (Left i) = Some ids' -> ids = ids' ++ [i].
Proof.
  intros Es. assert (Hl : last ids = Some i) by (simpl in Es; by case_decide).
  apply last_Some in Hl as [l ->]. rewrite stack_step_left in Es. by injection Es as <-.
Qed.

Lemma scan_app ids w w' : scan ids (w ++ w') = scan ids w ≫= fun ids => scan ids w'.
Proof.
  revert ids. induction w as [|k w IH]; intros ids; [done|]. simpl.
  destruct (stack_step ids k); [apply IH|done].
Qed.

Lemma balanced_scan w ids : balanced w -> scan ids w = Some ids.
Proof.
  intros Hb. revert ids. induction Hb as [|i w1 w2 _ IH1 _ IH2]; intros ids; [done|].
  cbn [scan stack_step mbind option_bind]. rewrite scan_app, IH1.
  cbn [scan mbind option_bind]. rewrite stack_step_left. apply IH2.
Qed.

(** A word that leaves the given spans, in this order, and is balanced in
    between. *)
Fixpoint unwinds (st : list SpanId) (w : list mark) : Prop :=
  match st with
  | [] => balanced w
  | i :: st => exists b rest, w = b ++ Left i :: rest /\ balanced b /\ unwinds st rest
  end.

Lemma unwinds_nest st i b rest :
  balanced b -> unwinds st rest -> unwinds st (Opened i :: b ++ Left i :: rest).
Proof.
  intros Hb. destruct st as [|j st]; simpl; [by apply balanced_nest|].
  intros (b'&rest'&->&Hb'&Hr). exists (Opened i :: b ++ Left i :: b'), rest'.
  split; [simpl; by rewrite <-app_assoc|]. split; [by apply balanced_nest|done].
Qed.

Lemma scan_unwinds ids w : scan ids w = Some [] -> unwinds (rev ids) w.
Proof.
  revert ids. induction w as [|[i|i] w IH]; intros ids; cbn [scan].
  - intros [= ->]. constructor.
  - cbn [stack_step mbind option_bind]. intros H%IH. rewrite rev_app_distr in H. simpl in H.
    destruct H as (b&rest&->&Hb&Hr). by apply unwinds_nest.
  - destruct (stack_step ids (Left i)) as [ids'|] eqn:Es; [|done].
    apply stack_step_left_inv in Es as ->. intros H%IH. rewrite rev_app_distr. simpl.
    exists [], w. split; [done|]. split; [constructor|done].
Qed.

Lemma scan_leave_all ids : scan ids (Left <$> rev ids) = Some [].
Proof.
  induction ids as [|i ids IH] using rev_ind; [done|]. rewrite rev_app_distr.
  cbn [rev app fmap list_fmap scan]. rewrite stack_step_left. apply IH.
Qed.

(** The stack never underflows or mismatches on exactly the well-nested
    words. *)
Lemma scan_well_nested w : is_Some (scan [] w) <-> well_nested w.
Proof.
  split.
  - intros [ids Hs]. exists (Left <$> rev ids). apply (scan_unwinds []).
    rewrite scan_app, Hs. apply scan_leave_all.
  - intros [w' Hb]. apply (balanced_scan _ []) in Hb. rewrite scan_app in Hb.
    by destruct (scan [] w).
Qed.

(** * Every message *)

Section receiving.
Context {prof : Profile} {rendering : Rendering}.
Implicit Types (f : Formatter) (ms : list ReceiverMessage).

Definition stack_of f (p : ProcessorId) : list SpanId := default [] (span_stacks f !! p).

Definition depths_below f (n : Z) : Prop :=
  forall i s, spans f !! i = Some s -> 0 <= depth s < n.

(** The symbolizer never fails. *)
Definition symbolizes : Prop := forall a, exists text, symbolize a = Ok text.

Lemma stack_ok f p : exists f', stack f p = (f', stack_of f p) /\ spans f' = spans f /\
  (forall q, stack_of f' q = stack_of f q) /\ forall ids q,
    stack_of (set_stack f' p ids) q = if decide (p = q) then ids else stack_of f q.
Proof.
  assert (Hset : forall f1, (forall q, stack_of f1 q = stack_of f q) -> forall ids q,
    stack_of (set_stack f1 p ids) q = if decide (p = q) then ids else stack_of f q).
  { intros f1 H1 ids q. unfold stack_of at 1. simpl. case_decide as Hq.
    - subst q. by rewrite lookup_insert_eq.
    - rewrite lookup_insert_ne by done. apply H1. }
  unfold stack. unfold stack_of at 1. destruct (span_stacks f !! p) as [ids|] eqn:Es.
  - exists f. split; [done|]. split; [done|]. split; [done|]. by apply Hset.
  - exists (MkFormatter (spans f) (<[p := []]> (span_stacks f))). split; [done|]. split; [done|].
    assert (H1 : forall q, stack_of (MkFormatter (spans f) (<[p := []]> (span_stacks f))) q = stack_of f q).
    { intros q. unfold stack_of. simpl. destruct (decide (p = q)) as [<-|Hq].
      - by rewrite lookup_insert_eq, Es.
      - by rewrite lookup_insert_ne. }
    split; [done|]. by apply Hset.
Qed.

Lemma resolve_parent_ok f parent : exists f' o, resolve_parent f parent = (f', o) /\
  spans f' = spans f /\ forall q, stack_of f' q = stack_of f q.
Proof.
  destruct parent as [|p|i]; simpl; [by eexists _, _| |by eexists _, _].
  destruct (stack_ok f p) as (f'&->&?&?&_). by eexists _, _.
Qed.

Lemma display_fields_ok first fs d : symbolizes -> exists text, display_fields first fs d = Ret text.
Proof.
  intros Hsy. revert first. induction fs as [|[n v] fs IH]; intros first; simpl; [by eexists|].
  assert (Hv : exists text, write_value v d = Ret text).
  { destruct v; simpl; try by eexists. destruct (Hsy x) as [text ->]. by eexists. }
  destruct Hv as [text ->]. cbn [mbind rust_bind]. destruct (IH false) as [rest ->]. by eexists.
Qed.

(** The second line of a new span. *)
Lemma details_ok (indent : string) fs d :
  symbolizes -> 0 <= d < 2 ^ 64 - 2 -> exists text,
    match fs with
    | [] => Ret ""%string
    | field :: fs =>
        inner ← add_usize d 2; text ← display_fields true (field :: fs) (Z.to_nat inner);
        Ret (indent +:+ "  " +:+ text +:+ newline)%string
    end = Ret text.
Proof.
  intros Hsy Hd. destruct fs as [|fd fs]; [by eexists|].
  rewrite add_usize_ok by (unfold is_usize, usize_bound; lia). cbn [mbind rust_bind].
  destruct (display_fields_ok true (fd :: fs) (Z.to_nat (d + 2)) Hsy) as [text ->]. by eexists.
Qed.

(** A message either steps the stack of its processor or, if that is not
    possible, panics. *)
Lemma receive_ok f m n :
  symbolizes -> depths_below f n -> 0 < n -> n + 3 < 2 ^ 64 ->
  match mark_of m with
  | Some (p, k) =>
      match stack_step (stack_of f p) k with
      | Some ids => exists f', receive f m = Ret (f', "") /\ depths_below f' n /\
          forall q, stack_of f' q = if decide (p = q) then ids else stack_of f q
      | None => receive f m = Panic AssertFailed
      end
  | None => exists f' text, receive f m = Ret (f', text) /\ depths_below f' (n + 1) /\
      forall q, stack_of f' q = stack_of f q
  end.
Proof.
  intros Hsy Hd Hn Hmax. destruct m as [span|event|i p|i p|i]; cbn [mark_of stack_step receive].
  - destruct (resolve_parent_ok f (created_parent span)) as (f'&o&->&Es&Hst). rewrite Es.
    set (par := o ≫= fun s => spans f !! s).
    assert (Hdep : exists d, match par with Some s => add_usize (depth s) 1 | None => Ret 0 end = Ret d /\
              0 <= d < n + 1).
    { destruct par as [s|] eqn:Ep; [|exists 0; split; [done|lia]]. unfold par in Ep.
      destruct o as [j|]; [|done]. simpl in Ep. pose proof (Hd _ _ Ep).
      rewrite add_usize_ok by (unfold is_usize, usize_bound; lia). eexists. split; [done|lia]. }
    destruct Hdep as (d&->&Hdb). cbn [mbind rust_bind].
    destruct (details_ok (spaces (Z.to_nat d)) (created_fields span) d Hsy) as [text ->]; [lia|]. cbn [mbind rust_bind].
    eexists _, _. split; [done|]. split; [|exact Hst].
    intros j s. simpl. intros [[<- <-]|[_ Hj]]%lookup_insert_Some; [done|].
    specialize (Hd _ _ Hj). lia.
  - destruct (resolve_parent_ok f (event_span event)) as (f'&o&->&Es&Hst). rewrite Es.
    assert (Hdep : 0 <= match o ≫= fun s => spans f !! s with Some s => depth s | None => 0 end < n).
    { destruct (o ≫= _) as [s|] eqn:Ep; [|lia]. destruct o as [j|]; [|done]. by eapply Hd. }
    rewrite add_usize_ok by (unfold is_usize, usize_bound; lia). cbn [mbind rust_bind].
    rewrite add_usize_ok by (unfold is_usize, usize_bound; lia). cbn [mbind rust_bind].
    destruct (display_fields_ok true (event_fields event)
      (Z.to_nat (match o ≫= fun s => spans f !! s with Some s => depth s | None => 0 end + 1 + 1)) Hsy)
      as [text ->]. cbn [mbind rust_bind].
    eexists _, _. split; [done|]. split; [|exact Hst].
    intros j s Hj. rewrite Es in Hj. specialize (Hd _ _ Hj). lia.
  - destruct (stack_ok f p) as (f'&->&Es&Hst&Hset). eexists. split; [done|].
    split; [intros j s; simpl; rewrite Es; apply Hd|]. intros q. by rewrite Hset.
  - destruct (stack_ok f p) as (f'&->&Es&Hst&Hset). case_decide as Hl.
    + rewrite bool_decide_true by done. eexists. split; [done|].
      split; [intros j s; simpl; rewrite Es; apply Hd|]. intros q. by rewrite Hset.
    + by rewrite bool_decide_false.
  - destruct (spans f !! i) as [s|] eqn:Es.
    + eexists _, _. split; [done|]. split; [|done].
      intros j s'. simpl. intros [_ Hj]%lookup_delete_Some. specialize (Hd _ _ Hj). lia.
    + eexists _, _. split; [done|]. split; [|done]. intros j s Hj. specialize (Hd _ _ Hj). lia.
Qed.

Lemma marks_cons p m ms :
  marks p (m :: ms) =
    match mark_of m with
    | Some (q, k) => if decide (q = p) then k :: marks p ms else marks p ms
    | None => marks p ms
    end.
Proof. unfold marks. simpl. destruct (mark_of m) as [[q k]|]; [|done]. by case_decide. Qed.

Lemma receive_all_ok f ms n :
  symbolizes -> depths_below f n -> 0 < n -> n + Z.of_nat (length ms) + 3 < 2 ^ 64 ->
  (exists r, receive_all f ms = Ret r) /\ (forall p, is_Some (scan (stack_of f p) (marks p ms))) \/
  receive_all f ms = Panic AssertFailed /\ exists p, scan (stack_of f p) (marks p ms) = None.
Proof.
  intros Hsy. revert f n. induction ms as [|m ms IH]; intros f n Hd Hn Hmax.
  { left. split; [by eexists|]. intros p. by eexists. }
  cbn [length] in Hmax. pose proof (receive_ok f m n Hsy Hd Hn ltac:(lia)) as Hm.
  assert (Hnext : forall f' text n', receive f m = Ret (f', text) -> depths_below f' n' ->
    0 < n' <= n + 1 -> (forall p, scan (stack_of f p) (marks p (m :: ms)) = scan (stack_of f' p) (marks p ms)) ->
    (exists r, receive_all f (m :: ms) = Ret r) /\
      (forall p, is_Some (scan (stack_of f p) (marks p (m :: ms)))) \/
    receive_all f (m :: ms) = Panic AssertFailed /\
      exists p, scan (stack_of f p) (marks p (m :: ms)) = None).
  { intros f' text n' Er Hd' Hn' Hsc. cbn [receive_all]. rewrite Er. cbn [mbind rust_bind].
    destruct (IH f' n' Hd' ltac:(lia) ltac:(lia)) as [[[[f2 rest] Er2] Hs]|[-> [p Hp]]].
    - left. rewrite Er2. split; [by eexists|]. intros p. rewrite Hsc. apply Hs.
    - right. split; [done|]. exists p. by rewrite Hsc. }
  destruct (mark_of m) as [[p k]|] eqn:Em.
  - destruct (stack_step (stack_of f p) k) as [ids|] eqn:Es.
    + destruct Hm as (f'&Er&Hd'&Hst). apply (Hnext f' "" n Er Hd'); [lia|].
      intros q. rewrite marks_cons, Em, Hst. case_decide as Hq; [|done].
      subst q. simpl. by rewrite Es.
    + right. cbn [receive_all]. rewrite Hm. split; [done|]. exists p.
      rewrite marks_cons, Em, decide_True by done. simpl. by rewrite Es.
  - destruct Hm as (f'&text&Er&Hd'&Hst). apply (Hnext f' text (n + 1) Er Hd'); [lia|].
    intros q. by rewrite marks_cons, Em, Hst.
Qed.

(** C27. The formatter survives exactly the well-nested streams: it prints
    every message of a stream if on each processor spans are left in the
    reverse order in which they were entered (whatever other messages say
    and however processors interleave), and otherwise its assertion fails. *)
Theorem receive_all_well_nested ms :
  symbolizes -> Z.of_nat (length ms) + 4 < 2 ^ 64 ->
  ((exists r, receive_all formatter_new ms = Ret r) <-> forall p, well_nested (marks p ms)) /\
  (~ (forall p, well_nested (marks p ms)) -> receive_all formatter_new ms = Panic AssertFailed).
Proof.
  intros Hsy Hlen.
  assert (Hd : depths_below formatter_new 1) by (intros i s; simpl; by rewrite lookup_empty).
  assert (Hst : forall p, stack_of formatter_new p = [])
    by (intros p; unfold stack_of; simpl; by rewrite lookup_empty).
  destruct (receive_all_ok formatter_new ms 1 Hsy Hd ltac:(lia) ltac:(lia)) as [[[r Hr] Hs]|[Hp [p Hs]]].
  - assert (Hw : forall p, well_nested (marks p ms)).
    { intros p. apply scan_well_nested. rewrite <-(Hst p). apply Hs. }
    split; [|done]. split; [done|]. intros _. by exists r.
  - split; [|done]. split; [intros [r Hr]; congruence|]. intros Hw.
    specialize (Hw p). apply scan_well_nested in Hw as [ids Hi]. rewrite Hst in Hs. congruence.
Qed.
End receiving.

(** * Lost messages *)

(** The message that the host sees, when every recorded value has the type
    of its field. *)
Definition received_fields (fs : list (string * recorded)) : option (list (string * Value)) :=
  (fun ps => ps.*2) <$> mapM field_entry fs.

Definition received (msg : SenderMessage) : option ReceiverMessage :=
  match msg with
  | MSpanCreated s =>
      (fun fs => MSpanCreated (MkSpanCreated (created_id s) (created_parent s) (created_metadata s) fs))
        <$> received_fields (created_fields s)
  | MEvent e =>
      (fun fs => MEvent (MkEvent (event_span e) (event_metadata e) fs))
        <$> received_fields (visited (event_fields e))
  | MSpanEntered i p => Some (MSpanEntered i p)
  | MSpanExited i p => Some (MSpanExited i p)
  | MSpanClosed i => Some (MSpanClosed i)
  end.

Section lost.
#[local] Existing Instance lsb_first.
#[local] Existing Instance dev_profile.
#[local] Existing Instance x86_64_topology.
#[local] Existing Instance KTrace.list_queue.

#[local] Instance plain : Rendering := {|
  paint c text := text;
  symbolize a := Ok (pretty a);
|}.

(** One byte for the kind of a message. *)
#[local] Instance kind_serializer : Serializer unit := {|
  emit msg :=
    ([[match msg with
       | MSpanCreated _ => 0 | MEvent _ => 1 | MSpanEntered _ _ => 2
       | MSpanExited _ _ => 3 | MSpanClosed _ => 4
       end]], Ret (Ok tt));
  SerializeBufferFull := tt;
|}.

(** A span is created, 63 events fill the queue, the span is entered; the
    worker runs; the span is left; the worker runs. *)
#[local] Definition burst : list trace_call :=
  NewSpan (MkAttributes KTrace.sample_metadata TRoot []) ::
  replicate 63 (EventOf (MkTracingEvent KTrace.sample_metadata TRoot [])) ++
  [Enter 1; Work; Exit 1; Work].

#[local] Definition idle : system (Q := list (KTrace.Message unit)) :=
  match ktrace_init [] with Ret s => s | Panic _ => MkSystem (new_slab 1) [] (MkWorker [] 0) end.

#[local] Definition burst_trace : list (trace_call * trace_outcome) :=
  zip burst (NewId 1 :: replicate 67 Done).

(** What is sent of it: everything but the entering of the span. *)
#[local] Definition delivered : list SenderMessage :=
  take 64 (messages burst_trace) ++ [MSpanExited 1 processor_id].

Lemma idle_eq : ktrace_init [] = Ret idle.
Proof. vm_compute. reflexivity. Qed.

#[local] Definition burst_end : system (Q := list (KTrace.Message unit)) :=
  match run_all idle 0 burst with Ret (s, _) => s | Panic _ => idle end.

Lemma burst_run : run_all idle 0 burst = Ret (burst_end, burst_trace).
Proof. vm_compute. reflexivity. Qed.

Lemma burst_bytes : sent_bytes burst_end = START_OF_OUTPUT ++ concat (encoded <$> delivered).
Proof. vm_compute. reflexivity. Qed.

Lemma burst_traces : traces idle burst_trace burst_end.
Proof. refine (run_all_traces _ _ _ _ _ _ burst_run). done. Qed.

#[local] Definition sent_all : list ReceiverMessage :=
  default [] (mapM received (messages burst_trace)).

#[local] Definition sent_some : list ReceiverMessage := default [] (mapM received delivered).

Lemma sent_all_eq : mapM received (messages burst_trace) = Some sent_all.
Proof. vm_compute. reflexivity. Qed.

Lemma sent_some_eq : mapM received delivered = Some sent_some.
Proof. vm_compute. reflexivity. Qed.

Lemma marks_elsewhere p q ms :
  Forall (fun m => forall r k, mark_of m = Some (r, k) -> r = q) ms -> p <> q -> marks p ms = [].
Proof.
  intros Hms Hp. induction Hms as [|m ms Hm _ IH]; [done|]. rewrite marks_cons.
  destruct (mark_of m) as [[r k]|]; [|done]. rewrite (Hm r k) by done. by rewrite decide_False.
Qed.

Lemma sent_all_well_nested p : well_nested (marks p sent_all).
Proof.
  destruct (decide (p = 0)) as [->|Hp].
  - exists []. vm_compute. exact (balanced_nest 1 [] [] balanced_nil balanced_nil).
  - rewrite (marks_elsewhere p 0); [exists []; constructor| |done].
    vm_compute. repeat constructor; intros r k; (discriminate || by intros [= <- <-]).
Qed.

(** A full queue can bring the host down: the queue drops the message that
    a span was entered, the message that it was left arrives, and the
    formatter's assertion fails, although on the processor the span was
    entered and left in order. *)
Theorem lost_enter_panics :
  (exists s0 s, ktrace_init [] = Ret s0 /\ traces s0 burst_trace s /\
    sent_bytes s = START_OF_OUTPUT ++ concat (encoded <$> delivered)) /\
  (exists all, mapM received (messages burst_trace) = Some all /\
    forall p, well_nested (marks p all)) /\
  exists ms, mapM received delivered = Some ms /\
    receive_all formatter_new ms = Panic AssertFailed.
Proof.
  split; [|split].
  - exists idle, burst_end. split; [exact idle_eq|]. split; [exact burst_traces|exact burst_bytes].
  - exists sent_all. split; [exact sent_all_eq|exact sent_all_well_nested].
  - exists sent_some. split; [exact sent_some_eq|]. vm_compute. reflexivity.
Qed.

(** Two spans, one inside the other, and an event with two lines. *)
#[local] Definition sample_stream : list ReceiverMessage :=
  let m := MkMetadata "init" "kernel" LInfo None None in
  [MSpanCreated (MkSpanCreated 1 Root m []); MSpanEntered 1 0;
   MSpanCreated (MkSpanCreated 2 (Current 0) m [("size", U64 7)]); MSpanEntered 2 0;
   MEvent (MkEvent (Current 0) m [("message", VString ("one" +:+ newline +:+ "two"))]);
   MSpanExited 2 0; MSpanClosed 2; MSpanExited 1 0].

Lemma receive_all_well_nested_witness :
  symbolizes /\ ((exists r, receive_all formatter_new sample_stream = Ret r) <->
    forall p, well_nested (marks p sample_stream)).
Proof.
  assert (Hs : symbolizes) by (intros a; by eexists). split; [done|].
  refine (proj1 (receive_all_well_nested sample_stream Hs _)). done.
Defined.

End lost.
