(* ===== verification/Apic.v ===== *)
(** The local APIC and the legacy interrupt controllers
    ([hal-x86_64/src/interrupts/apic.rs]). The bits of a register are handled
    by the bitvec crate, registers by the processor, and the two 8259
    controllers by the ports they are wired to: each of the three is a class
    with the laws that its documentation states, and an instance. *)
From S2P Require Import Prelude.

(** * Bits of a register *)

(** [BitArray<[u64; 1], Lsb0>]: indexing, [set], and [store] into the first
    bits. With [Lsb0] index [i] is the bit of weight [2^i]. *)
Class BitArray := {
  get_bit : Z -> Z -> bool;
  set_bit : Z -> Z -> bool -> Z;
  store_first : Z -> Z -> Z -> Z;
  get_bit_spec w i : 0 <= i < 64 -> get_bit w i = Z.testbit w i;
  set_bit_usize w i b : is_usize w -> 0 <= i < 64 -> is_usize (set_bit w i b);
  set_bit_spec w i b j : 0 <= i < 64 -> 0 <= j ->
    Z.testbit (set_bit w i b) j = if decide (j = i) then b else Z.testbit w j;
  store_first_usize w n v :
    is_usize w -> 0 <= n <= 64 -> 0 <= v < 2 ^ n -> is_usize (store_first w n v);
  store_first_spec w n v j : 0 <= n <= 64 -> 0 <= v < 2 ^ n -> 0 <= j ->
    Z.testbit (store_first w n v) j =
      if decide (j < n) then Z.testbit v j else Z.testbit w j;
}.

(** A number below [2^n] is one without bits from [n] on. *)
Lemma below_pow2 w n :
  0 <= n -> (0 <= w < 2 ^ n <-> 0 <= w /\ forall j, n <= j -> Z.testbit w j = false).
Proof.
  intros Hn. split.
  - intros Hw. split; [lia|]. intros j Hj. rewrite <-(Z.mod_small w (2 ^ n)) by done.
    apply Z.mod_pow2_bits_high. lia.
  - intros [Hw Hb]. split; [done|].
    assert (E : w = w mod 2 ^ n).
    { apply Z.bits_inj'. intros j Hj. destruct (decide (j < n)).
      - by rewrite Z.mod_pow2_bits_low by lia.
      - rewrite Z.mod_pow2_bits_high by lia. apply Hb. lia. }
    rewrite E. apply Z.mod_pos_bound. lia.
Qed.

Lemma usize_bits w : is_usize w <-> 0 <= w /\ forall j, 64 <= j -> Z.testbit w j = false.
Proof. apply (below_pow2 w 64). done. Qed.

Lemma low_byte_land w v :
  0 <= v < 256 -> (forall j, 0 <= j < 8 -> Z.testbit w j = Z.testbit v j) -> Z.land w 255 = v.
Proof.
  intros Hv Hb. change 255 with (Z.ones 8). apply Z.bits_inj'. intros j Hj.
  rewrite Z.land_spec. destruct (decide (j < 8)) as [Hlt|Hge].
  - rewrite Z.ones_spec_low by lia. rewrite andb_true_r. by apply Hb.
  - rewrite Z.ones_spec_high by lia. rewrite andb_false_r. symmetry.
    apply (below_pow2 v 8); lia.
Qed.

(** The layout itself. *)
Definition lsb0_set (w i : Z) (b : bool) : Z := if b then Z.setbit w i else Z.clearbit w i.
Definition lsb0_store (w n v : Z) : Z := Z.lor (Z.shiftl (Z.shiftr w n) n) v.

Lemma lsb0_set_spec w i b j :
  0 <= i -> 0 <= j -> Z.testbit (lsb0_set w i b) j = if decide (j = i) then b else Z.testbit w j.
Proof.
  intros. unfold lsb0_set. destruct (decide (j = i)) as [->|]; destruct b.
  - by apply Z.setbit_eq.
  - apply Z.clearbit_eq.
  - apply Z.setbit_neq; lia.
  - apply Z.clearbit_neq; lia.
Qed.

Lemma lsb0_store_spec w n v j :
  0 <= n -> 0 <= v < 2 ^ n -> 0 <= j ->
  Z.testbit (lsb0_store w n v) j = if decide (j < n) then Z.testbit v j else Z.testbit w j.
Proof.
  intros Hn Hv Hj. unfold lsb0_store. rewrite Z.lor_spec, Z.shiftl_spec by done.
  destruct (decide (j < n)).
  - by rewrite Z.testbit_neg_r by lia.
  - rewrite Z.shiftr_spec by lia. replace (j - n + n) with j by lia.
    apply below_pow2 in Hv as [_ Hv]; [|done]. by rewrite Hv, orb_false_r by lia.
Qed.

Definition lsb0 : BitArray.
Proof.
  refine {| get_bit := Z.testbit; set_bit := lsb0_set; store_first := lsb0_store |}.
  - done.
  - intros w i b Hw Hi. apply usize_bits in Hw as [Hw Hb]. apply usize_bits. split.
    + apply Z.bits_iff_nonneg_ex. exists 64. intros j Hj.
      rewrite lsb0_set_spec by lia. rewrite decide_False by lia. apply Hb. lia.
    + intros j Hj. rewrite lsb0_set_spec by lia. rewrite decide_False by lia. apply Hb. lia.
  - intros. apply lsb0_set_spec; lia.
  - intros w n v Hw Hn Hv. apply usize_bits in Hw as [Hw Hb]. apply usize_bits. split.
    + unfold lsb0_store. apply Z.lor_nonneg. split; [|lia].
      apply Z.shiftl_nonneg, Z.shiftr_nonneg. lia.
    + intros j Hj. rewrite lsb0_store_spec by lia. rewrite decide_False by lia. apply Hb. lia.
  - intros. apply lsb0_store_spec; lia.
Defined.

(** * The registers of a processor *)

Definition IA32_APIC_BASE_MSR : Z := 0x01b.
Definition IA32_SVR_MSR : Z := 0x80f.

(** The two mode bits of [IA32_APIC_BASE] (Intel SDM volume 3A, 10.12.1). *)
Definition globally_enabled (base : Z) : bool := Z.testbit base 11.
Definition in_x2apic (base : Z) : bool := Z.testbit base 10.

(** [w] has the bits of [v] outside [touched]. *)
Definition same_bits_but (touched : Z -> Prop) (v w : Z) : Prop :=
  forall j, 0 <= j < 64 -> ~ touched j -> Z.testbit w j = Z.testbit v j.

(** What a processor promises about [cpuid], [rdmsr] and [wrmsr]. The
    registers of the x2APIC range exist in x2APIC mode only, and that mode
    is entered from xAPIC mode, not from a disabled APIC (10.12.5), on a
    processor that has it. The kernel touches two registers, and only these
    are here: the local vector table and the rest of the APIC stay as the
    firmware left them. *)
Class LocalApic (Cpu : Type) := {
  has_x2apic : Cpu -> option bool;
  rdmsr : Cpu -> Z -> rust Z;
  wrmsr : Cpu -> Z -> Z -> rust Cpu;
  rdmsr_usize c r v : rdmsr c r = Ret v -> is_usize v;
  wrmsr_same c r w c' : wrmsr c r w = Ret c' -> is_usize w ->
    r = IA32_APIC_BASE_MSR \/ r = IA32_SVR_MSR -> rdmsr c' r = Ret w;
  svr_leaves_base c w c' : wrmsr c IA32_SVR_MSR w = Ret c' ->
    rdmsr c' IA32_APIC_BASE_MSR = rdmsr c IA32_APIC_BASE_MSR;
  base_readable c : exists v, rdmsr c IA32_APIC_BASE_MSR = Ret v;
  enter_x2apic c v w :
    has_x2apic c = Some true -> rdmsr c IA32_APIC_BASE_MSR = Ret v -> is_usize w ->
    same_bits_but (fun j => j = 10 \/ j = 11) v w ->
    globally_enabled v = true -> globally_enabled w = true -> in_x2apic w = true ->
    exists c', wrmsr c IA32_APIC_BASE_MSR w = Ret c' /\
      (in_x2apic v = true -> rdmsr c' IA32_SVR_MSR = rdmsr c IA32_SVR_MSR);
  disabled_to_x2apic c v w :
    rdmsr c IA32_APIC_BASE_MSR = Ret v -> globally_enabled v = false ->
    globally_enabled w = true -> in_x2apic w = true ->
    wrmsr c IA32_APIC_BASE_MSR w = Panic ProtectionFault;
  svr_outside_x2apic c v :
    rdmsr c IA32_APIC_BASE_MSR = Ret v -> in_x2apic v = false ->
    rdmsr c IA32_SVR_MSR = Panic ProtectionFault;
  svr_readable c v :
    rdmsr c IA32_APIC_BASE_MSR = Ret v -> in_x2apic v = true ->
    exists s, rdmsr c IA32_SVR_MSR = Ret s;
  svr_writable c s w :
    rdmsr c IA32_SVR_MSR = Ret s -> is_usize w ->
    same_bits_but (fun j => j < 9) s w -> exists c', wrmsr c IA32_SVR_MSR w = Ret c';
}.

Definition SPURIOUS_INTERRUPT_VECTOR : Z := 0xff.

Section registers.
Context {bits : BitArray} {Cpu : Type} {apic : LocalApic Cpu}.
Implicit Types (c cpu : Cpu) (self base svr v w : Z).

(** The generated [read] and [write] of a register's type. *)
Definition msr_read (reg : Z) cpu : rust Z := rdmsr cpu reg.
Definition msr_write (reg : Z) cpu (value : Z) : rust Cpu := wrmsr cpu reg value.

(** [IA32ApicBaseMsr]. *)
Definition is_bsp self : bool := get_bit self 8.
Definition apic_enabled self : bool := get_bit self 11.
Definition set_apic_enabled self (value : bool) : Z := set_bit self 11 value.
Definition x2apic_enabled self : bool := get_bit self 10.
Definition set_x2apic_enabled self (value : bool) : Z := set_bit self 10 value.

(** [IA32SpuriousVectorRegisterMsr]. *)
Definition svr_enabled self : bool := get_bit self 8.
Definition set_svr_enabled self (value : bool) : Z := set_bit self 8 value.
Definition set_spurious_vector self (vector : Z) : Z := store_first self 8 vector.

Definition supports_x2apic cpu : bool := default false (has_x2apic cpu).

(** [init_local]. *)
Definition apic_init_local cpu : rust Cpu :=
  if negb (supports_x2apic cpu) then Panic PanicCalled
  else
    base ← msr_read IA32_APIC_BASE_MSR cpu;
    let base := set_apic_enabled base true in
    let base := set_x2apic_enabled base true in
    cpu ← msr_write IA32_APIC_BASE_MSR cpu base;
    svr ← msr_read IA32_SVR_MSR cpu;
    let svr := set_svr_enabled svr true in
    let svr := set_spurious_vector svr SPURIOUS_INTERRUPT_VECTOR in
    msr_write IA32_SVR_MSR cpu svr.

(** The message about the state found. *)
Definition initial_state_message base : string :=
  "Initial xAPIC state: " +:+ (if is_bsp base then "is" else "is not") +:+
  " BSP, xAPIC " +:+ (if apic_enabled base then "enabled" else "disabled") +:+
  ", x2APIC " +:+ (if x2apic_enabled base then "enabled" else "disabled").

Lemma new_base_spec v :
  let w := set_x2apic_enabled (set_apic_enabled v true) true in
  is_usize v ->
  is_usize w /\ globally_enabled w = true /\ in_x2apic w = true /\
  same_bits_but (fun j => j = 10 \/ j = 11) v w.
Proof.
  intros w Hv. unfold w, set_x2apic_enabled, set_apic_enabled, globally_enabled, in_x2apic.
  split; [|split; [|split]].
  - apply set_bit_usize; [|lia]. by apply set_bit_usize; [|lia].
  - rewrite !set_bit_spec by lia. done.
  - rewrite !set_bit_spec by lia. done.
  - intros j Hj Ht. rewrite !set_bit_spec by lia. by rewrite !decide_False by tauto.
Qed.

Lemma new_svr_spec v :
  let w := set_spurious_vector (set_svr_enabled v true) SPURIOUS_INTERRUPT_VECTOR in
  is_usize v ->
  is_usize w /\ Z.testbit w 8 = true /\ Z.land w 255 = SPURIOUS_INTERRUPT_VECTOR /\
  same_bits_but (fun j => j < 9) v w.
Proof.
  intros w Hv. unfold w, set_spurious_vector, set_svr_enabled.
  assert (0 <= SPURIOUS_INTERRUPT_VECTOR < 2 ^ 8) by (unfold SPURIOUS_INTERRUPT_VECTOR; lia).
  split; [|split; [|split]].
  - apply store_first_usize; [|lia|done]. by apply set_bit_usize; [|lia].
  - rewrite store_first_spec by lia. rewrite decide_False by lia. by rewrite set_bit_spec by lia.
  - apply low_byte_land; [done|]. intros j Hj. rewrite store_first_spec by lia.
    by rewrite decide_True by lia.
  - intros j Hj Ht. rewrite store_first_spec by lia. rewrite decide_False by lia.
    rewrite set_bit_spec by lia. by rewrite decide_False by lia.
Qed.

Lemma apic_init_local_ok cpu v :
  rdmsr cpu IA32_APIC_BASE_MSR = Ret v ->
  match apic_init_local cpu with
  | Ret cpu' =>
      supports_x2apic cpu = true /\ apic_enabled v = true /\
      exists base svr,
        rdmsr cpu' IA32_APIC_BASE_MSR = Ret base /\ is_usize base /\
        apic_enabled base = true /\ x2apic_enabled base = true /\ is_bsp base = is_bsp v /\
        same_bits_but (fun j => j = 10 \/ j = 11) v base /\
        rdmsr cpu' IA32_SVR_MSR = Ret svr /\ is_usize svr /\
        svr_enabled svr = true /\ Z.land svr 255 = SPURIOUS_INTERRUPT_VECTOR /\
        (x2apic_enabled v = true -> forall svr0, rdmsr cpu IA32_SVR_MSR = Ret svr0 ->
           same_bits_but (fun j => j < 9) svr0 svr)
  | Panic why =>
      (supports_x2apic cpu = false /\ why = PanicCalled) \/
      (supports_x2apic cpu = true /\ apic_enabled v = false /\ why = ProtectionFault)
  end.
Proof.
  intros Hb. unfold apic_init_local, msr_read, msr_write, is_bsp, apic_enabled, x2apic_enabled, svr_enabled.
  rewrite !(get_bit_spec v) by lia. destruct (supports_x2apic cpu) eqn:Hs; cbn [negb]; [|by left].
  rewrite Hb. cbn [mbind rust_bind]. pose proof (rdmsr_usize _ _ _ Hb) as Hv.
  destruct (new_base_spec v Hv) as (Hw&He&Hx&Hsame). revert Hw He Hx Hsame.
  generalize (set_x2apic_enabled (set_apic_enabled v true) true) as w. intros w Hw He Hx Hsame.
  destruct (Z.testbit v 11) eqn:Hv11.
  - assert (Hx2 : has_x2apic cpu = Some true).
    { revert Hs. unfold supports_x2apic. destruct (has_x2apic cpu) as [[]|]; by intros [=]. }
    destruct (enter_x2apic cpu v w) as (c1&E1&Hkeep); [done..|].
    rewrite E1. cbn [mbind rust_bind]. pose proof (wrmsr_same _ _ _ _ E1 Hw (or_introl eq_refl)) as Eb.
    destruct (svr_readable c1 w Eb Hx) as [s Es]. rewrite Es. cbn [mbind rust_bind].
    destruct (new_svr_spec s (rdmsr_usize _ _ _ Es)) as (Hu&H8&Hlow&Hs').
    revert Hu H8 Hlow Hs'.
    generalize (set_spurious_vector (set_svr_enabled s true) SPURIOUS_INTERRUPT_VECTOR) as u.
    intros u Hu H8 Hlow Hs'. destruct (svr_writable c1 s u) as [c2 E2]; [done..|]. rewrite E2.
    pose proof (svr_leaves_base _ _ _ E2) as Eb2.
    split; [done|]. split; [done|]. exists w, u.
    rewrite !(get_bit_spec w), (get_bit_spec u) by lia. split_and!; try done.
    + by rewrite Eb2.
    + apply Hsame; lia.
    + by apply (wrmsr_same _ _ _ _ E2); [|right].
    + intros Hv10 s0 Es0. rewrite (Hkeep Hv10), Es0 in Es. by injection Es as ->.
  - rewrite (disabled_to_x2apic cpu v w) by done. by right.
Qed.
(** C31. [init_local] on every branch. A processor without x2APIC makes it
    panic before any register is touched; on a processor whose local APIC is
    globally disabled the write of [IA32_APIC_BASE] is refused by the
    processor; otherwise it returns with the APIC in x2APIC mode and
    software-enabled, spurious interrupts on vector 0xff, and every other bit
    of the two registers as it was. Both words written are 64-bit words. *)
Theorem apic_init_local_spec cpu v :
  rdmsr cpu IA32_APIC_BASE_MSR = Ret v ->
  match apic_init_local cpu with
  | Ret cpu' =>
      supports_x2apic cpu = true /\ apic_enabled v = true /\
      exists base svr,
        rdmsr cpu' IA32_APIC_BASE_MSR = Ret base /\ is_usize base /\
        apic_enabled base = true /\ x2apic_enabled base = true /\ is_bsp base = is_bsp v /\
        same_bits_but (fun j => j = 10 \/ j = 11) v base /\
        rdmsr cpu' IA32_SVR_MSR = Ret svr /\ is_usize svr /\
        svr_enabled svr = true /\ Z.land svr 255 = SPURIOUS_INTERRUPT_VECTOR /\
        (x2apic_enabled v = true -> forall svr0, rdmsr cpu IA32_SVR_MSR = Ret svr0 ->
           same_bits_but (fun j => j < 9) svr0 svr)
  | Panic why =>
      (supports_x2apic cpu = false /\ why = PanicCalled) \/
      (supports_x2apic cpu = true /\ apic_enabled v = false /\ why = ProtectionFault)
  end.
Proof. apply apic_init_local_ok. Qed.
End registers.

(** A processor with these two registers and nothing else. *)
Record IntelCpu := MkIntelCpu { cpu_x2apic : option bool; cpu_base : Z; cpu_svr : Z }.

Definition intel_rdmsr (c : IntelCpu) (r : Z) : rust Z :=
  let base := cpu_base c mod usize_bound in
  if decide (r = IA32_APIC_BASE_MSR) then Ret base
  else if decide (r = IA32_SVR_MSR) then
    if in_x2apic base then Ret (cpu_svr c mod usize_bound) else Panic ProtectionFault
  else Panic ProtectionFault.

Definition intel_wrmsr (c : IntelCpu) (r w : Z) : rust IntelCpu :=
  let base := cpu_base c mod usize_bound in
  if decide (r = IA32_APIC_BASE_MSR) then
    if in_x2apic w && negb (default false (cpu_x2apic c) && globally_enabled base && globally_enabled w)
    then Panic ProtectionFault
    else Ret (MkIntelCpu (cpu_x2apic c) w (cpu_svr c))
  else if decide (r = IA32_SVR_MSR) then
    if in_x2apic base then Ret (MkIntelCpu (cpu_x2apic c) (cpu_base c) w)
    else Panic ProtectionFault
  else Panic ProtectionFault.

Definition intel_apic : LocalApic IntelCpu.
Proof.
  assert (Hmod : forall z, is_usize (z mod usize_bound)).
  { intros z. by apply Z.mod_pos_bound. }
  refine {| has_x2apic := cpu_x2apic; rdmsr := intel_rdmsr; wrmsr := intel_wrmsr |};
    unfold intel_rdmsr, intel_wrmsr; simpl.
  - intros c r v E. repeat case_decide; [by simplify_eq| |done]. destruct in_x2apic; by simplify_eq.
  - intros c r w c' E Hw [-> | ->]; simpl in *.
    + destruct (_ && _); simplify_eq. simpl. by rewrite Z.mod_small.
    + destruct in_x2apic eqn:Ex; simplify_eq. simpl. by rewrite Ex, Z.mod_small.
  - intros c w c' E. destruct in_x2apic; by simplify_eq.
  - intros c. by eexists.
  - intros c v w Hc E Hw _ Hv He Hx. injection E as <-. rewrite Hc, Hv, He, Hx. eexists. split; [done|]. simpl.
    intros E. by rewrite E, Z.mod_small, Hx by done.
  - intros c v w E Hv He Hx. injection E as <-. by rewrite Hx, Hv, andb_false_r.
  - intros c v E Hv. injection E as <-. by rewrite Hv.
  - intros c v E Hv. injection E as <-. rewrite Hv. by eexists.
  - intros c s w E _ _. destruct in_x2apic; [by eexists|done].
Defined.

(** A bootstrap processor whose firmware left the APIC in xAPIC mode. *)
Definition boot_cpu : IntelCpu := MkIntelCpu (Some true) 0xfee00900 0x10f.

Lemma apic_init_local_spec_witness :
  exists cpu' base, apic_init_local (bits := lsb0) (apic := intel_apic) boot_cpu = Ret cpu' /\
    rdmsr (LocalApic := intel_apic) cpu' IA32_APIC_BASE_MSR = Ret base /\
    x2apic_enabled (bits := lsb0) base = true /\ is_bsp (bits := lsb0) base = true.
Proof.
  pose proof (apic_init_local_spec (bits := lsb0) (apic := intel_apic) boot_cpu 0xfee00900 eq_refl) as Hs.
  destruct (apic_init_local boot_cpu) as [cpu'|why].
  - destruct Hs as (_&_&base&svr&Hb&_&_&Hx&Hbsp&_). by exists cpu', base.
  - destruct Hs as [[Hs _]|(_&Hs&_)]; discriminate Hs.
Defined.

(** On a processor whose firmware left the APIC disabled the write faults. *)
Example disabled_apic :
  apic_init_local (bits := lsb0) (apic := intel_apic) (MkIntelCpu (Some true) 0xfee00100 0x10f)
  = Panic ProtectionFault.
Proof. reflexivity. Qed.

(** * The legacy interrupt controllers *)

(** What a 8259 expects next on its data port: the rest of the
    initialisation sequence, or an interrupt mask. *)
Inductive pic_phase := Operational | ExpectsOffset | ExpectsWiring | ExpectsMode.

(** A 8259 by its two ports and what they do to its state (Intel 8259A data
    sheet): a command with bit 4 set starts the initialisation, and with bit 0
    announces a fourth word. In 8086 mode the vector is the offset's upper
    five bits followed by the number of the line. *)
Class Pic8259 (Pic : Type) := {
  pic_command : Pic -> Z -> Pic;
  pic_data : Pic -> Z -> Pic;
  pic_state : Pic -> pic_phase;
  pic_vector : Pic -> Z -> Z;
  pic_wiring : Pic -> Z;
  pic_8086 : Pic -> bool;
  pic_mask : Pic -> Z;
  pic_icw1 p : pic_state (pic_command p 0x11) = ExpectsOffset;
  pic_icw2 p v : pic_state p = ExpectsOffset ->
    pic_state (pic_data p v) = ExpectsWiring /\
    (forall irq, 0 <= irq < 8 -> pic_vector (pic_data p v) irq = Z.land v 0xf8 + irq);
  pic_icw3 p v : pic_state p = ExpectsWiring ->
    pic_state (pic_data p v) = ExpectsMode /\
    pic_vector (pic_data p v) = pic_vector p /\ pic_wiring (pic_data p v) = v;
  pic_icw4 p v : pic_state p = ExpectsMode ->
    pic_state (pic_data p v) = Operational /\
    pic_vector (pic_data p v) = pic_vector p /\ pic_wiring (pic_data p v) = pic_wiring p /\
    pic_8086 (pic_data p v) = Z.testbit v 0;
  pic_ocw1 p v : pic_state p = Operational ->
    pic_state (pic_data p v) = Operational /\ pic_mask (pic_data p v) = v /\
    pic_vector (pic_data p v) = pic_vector p /\ pic_wiring (pic_data p v) = pic_wiring p /\
    pic_8086 (pic_data p v) = pic_8086 p;
}.

Definition PIC1_OFFSET : Z := 32.
Definition PIC2_OFFSET : Z := 40.

Definition PIC1_COMMAND : Z := 0x20.
Definition PIC1_DATA : Z := 0x21.
Definition PIC2_COMMAND : Z := 0xa0.
Definition PIC2_DATA : Z := 0xa1.

(** The two controllers of a PC and the writes to any other port. *)
Record Pics (Pic : Type) := MkPics { pic1 : Pic; pic2 : Pic; other_ports : list (Z * Z) }.
Arguments MkPics {Pic}.
Arguments pic1 {Pic}.
Arguments pic2 {Pic}.
Arguments other_ports {Pic}.

Section pics.
Context {Pic : Type} {device : Pic8259 Pic}.
Implicit Types (m : Pics Pic).

(** [u8::write_to_port]. *)
Definition write_to_port (port v : Z) m : Pics Pic :=
  let '(MkPics p1 p2 others) := m in
  if decide (port = PIC1_COMMAND) then MkPics (pic_command p1 v) p2 others
  else if decide (port = PIC1_DATA) then MkPics (pic_data p1 v) p2 others
  else if decide (port = PIC2_COMMAND) then MkPics p1 (pic_command p2 v) others
  else if decide (port = PIC2_DATA) then MkPics p1 (pic_data p2 v) others
  else MkPics p1 p2 (others ++ [(port, v)]).

Definition io_delay m : Pics Pic := write_to_port 0x80 0 m.

(** [disable_pic]: one write and one delay after the other. *)
Definition disable_pic m : Pics Pic :=
  let m := write_to_port PIC1_COMMAND 0x11 m in
  let m := io_delay m in
  let m := write_to_port PIC2_COMMAND 0x11 m in
  let m := io_delay m in
  let m := write_to_port PIC1_DATA PIC1_OFFSET m in
  let m := io_delay m in
  let m := write_to_port PIC2_DATA PIC2_OFFSET m in
  let m := io_delay m in
  let m := write_to_port PIC1_DATA 4 m in
  let m := io_delay m in
  let m := write_to_port PIC2_DATA 2 m in
  let m := io_delay m in
  let m := write_to_port PIC1_DATA 0x01 m in
  let m := io_delay m in
  let m := write_to_port PIC2_DATA 0x01 m in
  let m := io_delay m in
  let m := write_to_port PIC1_DATA 0xff m in
  let m := io_delay m in
  let m := write_to_port PIC2_DATA 0xff m in
  io_delay m.

(** The sequence as one of the two controllers sees it. *)
Definition initialized_pic (p : Pic) (offset wiring : Z) : Pic :=
  pic_data (pic_data (pic_data (pic_data (pic_command p 0x11) offset) wiring) 0x01) 0xff.

Lemma initialized_pic_spec p offset wiring :
  let p' := initialized_pic p offset wiring in
  pic_state p' = Operational /\ pic_mask p' = 0xff /\ pic_8086 p' = true /\
  pic_wiring p' = wiring /\
  forall irq, 0 <= irq < 8 -> pic_vector p' irq = Z.land offset 0xf8 + irq.
Proof.
  unfold initialized_pic. pose proof (pic_icw1 p) as H1.
  destruct (pic_icw2 _ offset H1) as [H2 Hv2]. destruct (pic_icw3 _ wiring H2) as (H3&Hv3&Hw3).
  destruct (pic_icw4 _ 0x01 H3) as (H4&Hv4&Hw4&Hm4).
  destruct (pic_ocw1 _ 0xff H4) as (H5&Hm5&Hv5&Hw5&H86).
  split; [done|]. split; [done|]. split; [by rewrite H86, Hm4|]. split; [by rewrite Hw5, Hw4|].
  intros irq Hirq. rewrite Hv5, Hv4, Hv3. by apply Hv2.
Qed.

(** The interleaved writes to the two controllers do to each what the
    sequence does alone; the ten delays are the only other writes. *)
Lemma disable_pic_eq m :
  disable_pic m = MkPics (initialized_pic (pic1 m) PIC1_OFFSET 4)
                         (initialized_pic (pic2 m) PIC2_OFFSET 2)
                         (other_ports m ++ replicate 10 (0x80, 0)).
Proof. destruct m as [p1 p2 others]. unfold disable_pic, io_delay. simpl. by rewrite <-!app_assoc. Qed.
End pics.

(** The vectors that the two controllers raise do not overlap each other or
    the processor's exceptions. *)
Definition pic_vectors : list Z :=
  (Z.add PIC1_OFFSET <$> seqZ 0 8) ++ (Z.add PIC2_OFFSET <$> seqZ 0 8).

(** A controller that does just that. *)
Record SimplePic := MkSimplePic {
  sp_phase : pic_phase; sp_offset : Z; sp_wiring : Z; sp_8086 : bool; sp_mask : Z;
}.

Definition simple_pic_command (p : SimplePic) (v : Z) : SimplePic :=
  if Z.testbit v 4 then MkSimplePic ExpectsOffset (sp_offset p) (sp_wiring p) false 0 else p.

Definition simple_pic_data (p : SimplePic) (v : Z) : SimplePic :=
  match p with
  | MkSimplePic Operational o w m _ => MkSimplePic Operational o w m v
  | MkSimplePic ExpectsOffset o w m k => MkSimplePic ExpectsWiring (Z.land v 0xf8) w m k
  | MkSimplePic ExpectsWiring o w m k => MkSimplePic ExpectsMode o v m k
  | MkSimplePic ExpectsMode o w m k => MkSimplePic Operational o w (Z.testbit v 0) k
  end.

Definition simple_pic : Pic8259 SimplePic.
Proof.
  refine {| pic_command := simple_pic_command; pic_data := simple_pic_data;
            pic_state := sp_phase; pic_vector p irq := sp_offset p + irq;
            pic_wiring := sp_wiring; pic_8086 := sp_8086; pic_mask := sp_mask |};
    by intros [[] o w m k]; intros.
Defined.

(** What a PC's firmware leaves behind. *)
Definition bios_pics : Pics SimplePic :=
  MkPics (MkSimplePic Operational 0x08 4 true 0xb8) (MkSimplePic Operational 0x70 2 true 0x8f) [].
