(* ===== verification/Hal.v ===== *)
(** The platform layer for x86-64 ([hal-x86_64/src/lib.rs],
    [interrupts.rs], [interrupts/handlers.rs]): the serial port, the
    interrupt descriptor table with its handlers, and how the interrupt
    controllers are set up for the machine and for each processor. *)
From S2P Require Import Prelude Sync Apic.

(** * The serial port *)

(** The uart_16550 crate: a port that has transmitted bytes. *)
Class Uart16550 (Uart : Type) := {
  uart_new : Z -> Uart;
  uart_init : Uart -> Uart;
  send_raw : Uart -> Z -> Uart;
  transmitted : Uart -> list Z;
  send_raw_spec u b : transmitted (send_raw u b) = transmitted u ++ [b];
}.

Section serial.
Context {Uart : Type} {uart : Uart16550 Uart}.
Implicit Types (self : Uart) (data : list Z).

(** [SerialPort::new]. *)
Definition serial_new (port : Z) : Uart := uart_init (uart_new port).

(** [write_all] and [flush]; their error type is [Infallible]. *)
Definition write_all self data : Uart * result unit False :=
  (fold_left send_raw data self, Ok tt).

Definition serial_flush self : Uart * result unit False := (self, Ok tt).

(** Every byte is sent as it is, the ones that [send] encodes included. *)
Lemma write_all_spec self data :
  transmitted (write_all self data).1 = transmitted self ++ data.
Proof.
  unfold write_all. simpl. revert self. induction data as [|b data IH]; intros self; simpl.
  - by rewrite app_nil_r.
  - by rewrite IH, send_raw_spec, <-app_assoc.
Qed.
End serial.

(** * Interrupt handlers *)

Inductive Handler := handle_remapped_pic | handle_spurious.

#[export] Instance Handler_eq_dec : EqDecision Handler.
Proof. solve_decision. Defined.

(** All that a handler does is to log. *)
Definition run_handler (h : Handler) : string :=
  match h with
  | handle_remapped_pic => "Got an interrupt from the PIC"
  | handle_spurious => "Got a spurious interrupt"
  end.

(** * The interrupt descriptor table *)

(** The x86_64 crate's table, indexed by vector. Vectors below 32 are
    exceptions, and indexing panics for some of them. *)
Class DescriptorTable (Idt : Type) := {
  idt_new : Idt;
  set_handler_fn : Idt -> Z -> Handler -> rust Idt;
  idt_handler : Idt -> Z -> option Handler;
  idt_new_empty i : idt_handler idt_new i = None;
  set_handler_spec idt i h : 32 <= i < 256 ->
    exists idt', set_handler_fn idt i h = Ret idt' /\
      forall j, idt_handler idt' j = if decide (j = i) then Some h else idt_handler idt j;
}.

(** Addition of [u8]. *)
Definition add_u8 `{Profile} (a b : Z) : rust Z :=
  if decide (0 <= a + b < 256) then Ret (a + b)
  else if debug_assertions then Panic ArithmeticOverflow
  else Ret ((a + b) mod 256).

(** [Controller] is a unit struct. The statics are the machine's. *)
Inductive Controller := TheController.

Record Machine (Pic Idt : Type) := MkMachine {
  pics : Pics Pic;
  idt_static : Global Idt;
  controller_static : Global Controller;
}.
Arguments MkMachine {Pic Idt}.
Arguments pics {Pic Idt}.
Arguments idt_static {Pic Idt}.
Arguments controller_static {Pic Idt}.

Section interrupts.
Context {prof : Profile} {bits : BitArray} {Pic Idt Cpu : Type}.
Context {device : Pic8259 Pic} {table : DescriptorTable Idt} {apic : LocalApic Cpu}.
Implicit Types (m : Machine Pic Idt) (idt : Idt) (off : Z) (cpu : Cpu).

(** The body of the loop of [init]. *)
Definition remap_line idt off : rust Idt :=
  i ← add_u8 PIC1_OFFSET off;
  idt ← set_handler_fn idt i handle_remapped_pic;
  i ← add_u8 PIC2_OFFSET off;
  set_handler_fn idt i handle_remapped_pic.

Fixpoint remap_lines idt (offs : list Z) : rust Idt :=
  match offs with
  | [] => Ret idt
  | off :: offs => idt ← remap_line idt off; remap_lines idt offs
  end.

(** [interrupts::init]. *)
Definition interrupts_init m : rust (Machine Pic Idt * Controller) :=
  let p := disable_pic (pics m) in
  idt ← remap_lines idt_new (seqZ 0 8);
  idt ← set_handler_fn idt SPURIOUS_INTERRUPT_VECTOR handle_spurious;
  '(idts, _) ← init (idt_static m) idt;
  '(controllers, c) ← init (controller_static m) TheController;
  Ret (MkMachine p idts controllers, c).

(** [interrupts::init_local] on one processor: its registers, and the table
    that it now uses. *)
Definition interrupts_init_local m cpu : rust (Cpu * Idt) :=
  cpu ← apic_init_local cpu;
  idt ← global_get (idt_static m);
  Ret (cpu, idt).

Lemma add_u8_ok a b : 0 <= a + b < 256 -> add_u8 a b = Ret (a + b).
Proof. intros. unfold add_u8. by rewrite decide_True. Qed.

Lemma remap_line_spec idt off :
  0 <= off < 8 ->
  exists idt', remap_line idt off = Ret idt' /\
    forall j, idt_handler idt' j =
      if decide (j = PIC1_OFFSET + off \/ j = PIC2_OFFSET + off)
      then Some handle_remapped_pic else idt_handler idt j.
Proof.
  intros Hoff. unfold remap_line, PIC1_OFFSET, PIC2_OFFSET. rewrite !add_u8_ok by lia.
  cbn [mbind rust_bind].
  destruct (set_handler_spec idt (32 + off) handle_remapped_pic) as (i1&->&H1); [lia|].
  cbn [mbind rust_bind].
  destruct (set_handler_spec i1 (40 + off) handle_remapped_pic) as (i2&->&H2); [lia|].
  exists i2. split; [done|]. intros j. rewrite H2, H1. repeat case_decide; tauto || lia.
Qed.

Lemma remap_lines_spec idt offs :
  Forall (fun off => 0 <= off < 8) offs ->
  exists idt', remap_lines idt offs = Ret idt' /\
    forall j, idt_handler idt' j =
      if decide (Exists (fun off => j = PIC1_OFFSET + off \/ j = PIC2_OFFSET + off) offs)
      then Some handle_remapped_pic else idt_handler idt j.
Proof.
  intros Hoffs. revert idt. induction Hoffs as [|off offs Hoff _ IH]; intros idt; cbn [remap_lines].
  - exists idt. split; [done|]. intros j. rewrite decide_False; [done|]. by intros []%Exists_nil.
  - destruct (remap_line_spec idt off Hoff) as (idt1&->&H1). cbn [mbind rust_bind].
    destruct (IH idt1) as (idt2&->&H2). exists idt2. split; [done|]. intros j. rewrite H2, H1.
    repeat case_decide; try done; exfalso; rewrite Exists_cons in *; tauto.
Qed.

(** A controller that cannot interrupt, and on the vectors from [offset] on
    if it did. *)
Definition pic_disabled (p : Pic) (offset wiring : Z) : Prop :=
  pic_state p = Operational /\ pic_mask p = 0xff /\ pic_8086 p = true /\ pic_wiring p = wiring /\
  forall irq, 0 <= irq < 8 -> pic_vector p irq = offset + irq.

Lemma initialized_pic_disabled p offset wiring :
  Z.land offset 0xf8 = offset -> pic_disabled (initialized_pic p offset wiring) offset wiring.
Proof.
  intros Ho. destruct (initialized_pic_spec p offset wiring) as (?&?&?&?&Hv).
  rewrite Ho in Hv. done.
Qed.

Lemma lines_vectors vector :
  Exists (fun off => vector = PIC1_OFFSET + off \/ vector = PIC2_OFFSET + off) (seqZ 0 8) <->
  vector ∈ pic_vectors.
Proof.
  unfold pic_vectors. rewrite Exists_exists, elem_of_app, !list_elem_of_fmap. naive_solver.
Qed.

Lemma interrupts_init_ok m :
  idt_static m = global_new -> controller_static m = global_new ->
  exists idt,
    interrupts_init m = Ret (MkMachine (disable_pic (pics m)) (MkGlobal true (Some idt))
                               (MkGlobal true (Some TheController)), TheController) /\
    forall vector, idt_handler idt vector =
      if decide (vector = SPURIOUS_INTERRUPT_VECTOR) then Some handle_spurious
      else if decide (vector ∈ pic_vectors) then Some handle_remapped_pic else None.
Proof.
  intros Hi Hc. unfold interrupts_init.
  destruct (remap_lines_spec idt_new (seqZ 0 8)) as (idt1&E1&H1).
  { apply Forall_forall. intros off ?%elem_of_seqZ. lia. }
  destruct (set_handler_spec idt1 SPURIOUS_INTERRUPT_VECTOR handle_spurious) as (idt2&E2&H2);
    [unfold SPURIOUS_INTERRUPT_VECTOR; lia|].
  rewrite E1. cbn [mbind rust_bind]. rewrite E2. cbn [mbind rust_bind]. rewrite Hi, Hc.
  exists idt2. split; [done|]. intros vector.
  by rewrite H2, H1, idt_new_empty, (decide_ext _ _ _ _ (lines_vectors vector)).
Qed.

(** [init_local] on a processor whose APIC can be used. *)
Lemma interrupts_init_local_ok m cpu v idt :
  idt_static m = MkGlobal true (Some idt) ->
  rdmsr cpu IA32_APIC_BASE_MSR = Ret v -> supports_x2apic cpu = true -> apic_enabled v = true ->
  exists cpu' svr, interrupts_init_local m cpu = Ret (cpu', idt) /\
    rdmsr cpu' IA32_SVR_MSR = Ret svr /\ Z.land svr 255 = SPURIOUS_INTERRUPT_VECTOR.
Proof.
  intros Hi Hb Hs He. pose proof (apic_init_local_ok cpu v Hb) as Hapic. unfold interrupts_init_local.
  destruct (apic_init_local cpu) as [cpu'|w].
  - destruct Hapic as (_&_&base&svr&_&_&_&_&_&_&Hsvr&_&_&Hlow&_).
    exists cpu', svr. by rewrite Hi.
  - exfalso. destruct Hapic as [[? _]|(_&?&_)]; congruence.
Qed.

(** C30. [interrupts::init], then [init_local]: the 8259 controllers' vectors
    and the spurious vector. On a machine whose statics are not initialised
    yet [init] returns, and afterwards both 8259 controllers are operational
    in 8086 mode with every line masked and the cascade wired; every vector
    they can still raise has a handler, as has the spurious vector; the table
    is empty otherwise, so that no exception vector is taken. A second [init]
    panics. On every processor whose local APIC is on and has x2APIC,
    [init_local] then loads a table that handles the spurious vector its APIC
    is set to. The other interrupts that a local APIC can raise, those of its
    local vector table (timer, LINT0 and LINT1, errors and the rest), are not
    part of this: the code leaves them as the firmware set them up, and the
    table has no handler for them. *)
Theorem interrupts_init_spec m cpu v :
  idt_static m = global_new -> controller_static m = global_new ->
  rdmsr cpu IA32_APIC_BASE_MSR = Ret v -> supports_x2apic cpu = true -> apic_enabled v = true ->
  exists m', interrupts_init m = Ret (m', TheController) /\
    pic_disabled (pic1 (pics m')) PIC1_OFFSET 4 /\
    pic_disabled (pic2 (pics m')) PIC2_OFFSET 2 /\
    interrupts_init m' = Panic ExpectFailed /\
    exists cpu' idt svr, interrupts_init_local m' cpu = Ret (cpu', idt) /\
      rdmsr cpu' IA32_SVR_MSR = Ret svr /\
      idt_handler idt (Z.land svr 255) = Some handle_spurious /\
      forall vector, idt_handler idt vector =
        if decide (vector = SPURIOUS_INTERRUPT_VECTOR) then Some handle_spurious
        else if decide (vector ∈ pic_vectors) then Some handle_remapped_pic else None.
Proof.
  intros Hi Hc Hb Hs He. destruct (interrupts_init_ok m Hi Hc) as (idt&E&Hall).
  eexists. split; [exact E|]. cbn [pics]. rewrite disable_pic_eq.
  split; [by apply initialized_pic_disabled|]. split; [by apply initialized_pic_disabled|].
  split.
  { unfold interrupts_init. destruct (remap_lines_spec idt_new (seqZ 0 8)) as (idt1&->&_).
    { apply Forall_forall. intros off ?%elem_of_seqZ. lia. }
    cbn [mbind rust_bind]. destruct (set_handler_spec idt1 SPURIOUS_INTERRUPT_VECTOR handle_spurious)
      as (idt2&->&_); [unfold SPURIOUS_INTERRUPT_VECTOR; lia|]. done. }
  match goal with |- exists _ _ _, interrupts_init_local ?m' _ = _ /\ _ =>
    destruct (interrupts_init_local_ok m' cpu v idt eq_refl Hb Hs He) as (cpu'&svr&E'&Hsvr&Hlow) end.
  exists cpu', idt, svr. split; [done|]. split; [done|]. split; [by rewrite Hlow, Hall|done].
Qed.
End interrupts.

(** A table as a finite map, whose indexing panics for exceptions. *)
Definition map_table : DescriptorTable (gmap Z Handler).
Proof.
  refine {| idt_new := empty;
            set_handler_fn idt i h :=
              if decide (32 <= i < 256) then Ret (<[i := h]> idt) else Panic IndexOutOfBounds;
            idt_handler idt i := idt !! i |}; [done|].
  intros idt i h Hi. rewrite decide_True by done. eexists. split; [done|]. intros j.
  case_decide as Hj; [by rewrite Hj, lookup_insert_eq|by rewrite lookup_insert_ne].
Defined.

Section witness.
#[local] Existing Instance dev_profile.
#[local] Existing Instance lsb0.
#[local] Existing Instance simple_pic.
#[local] Existing Instance map_table.
#[local] Existing Instance intel_apic.

Definition cold_machine : Machine SimplePic (gmap Z Handler) :=
  MkMachine bios_pics global_new global_new.

Lemma interrupts_init_spec_witness :
  exists m', interrupts_init cold_machine = Ret (m', TheController) /\
    pic_disabled (pic2 (pics m')) 40 2 /\
    exists cpu' idt, interrupts_init_local m' boot_cpu = Ret (cpu', idt) /\
      idt_handler idt 255 = Some handle_spurious.
Proof.
  destruct (interrupts_init_spec (bits := lsb0) (device := simple_pic) (table := map_table) (apic := intel_apic)
              cold_machine boot_cpu 0xfee00900 eq_refl eq_refl eq_refl eq_refl eq_refl)
    as (m'&E&_&Hp&_&cpu'&idt&svr&E'&_&_&Hall).
  exists m'. split; [exact E|]. split; [exact Hp|]. exists cpu', idt. split; [exact E'|].
  rewrite Hall. reflexivity.
Defined.
End witness.
