(* ===== verification/Entry.v ===== *)
(** What the kernel's entry point does with the bootloader's memory map
    ([kernel/src/arch/x86_64/entry.rs]): neighbouring regions that are
    functionally the same are combined and reported. *)
From S2P Require Import Prelude Address.

Implicit Types (r prev next : MemoryRegion) (rs regions : list MemoryRegion).

#[export] Instance MemoryRegion_eq_dec : EqDecision MemoryRegion.
Proof. solve_decision. Defined.

(** * Rendering a region *)

(** [DisplayRegion]. The names of the kinds that the kernel does not name
    itself are the derived [Debug] of [bootloader_api]. *)
Definition uefi_type_name (v : Z) : string :=
  match v with
  | 0 => "UEFI Reserved"
  | 1 => "UEFI Loader (Code)"
  | 2 => "UEFI Loader (Data)"
  | 3 => "UEFI Boot Services (Code)"
  | 4 => "UEFI Boot Services (Data)"
  | 5 => "UEFI Runtime Services (Code)"
  | 6 => "UEFI Runtime Services (Data)"
  | 7 => "Conventional memory"
  | 8 => "Unusable"
  | 9 => "ACPI (reclaimable)"
  | 10 => "ACPI NVS"
  | 11 => "Memory-Mapped I/O"
  | 12 => "Memory-Mapped I/O Port Space"
  | 13 => "UEFI PAL Code"
  | 14 => "Persistent memory"
  | other => "Unknown UEFI type " +:+ pretty other
  end.

Definition display_kind (debug : MemoryRegionKind -> string) (kind : MemoryRegionKind) : string :=
  match kind with
  | UnknownBios v => "Unknown BIOS type " +:+ pretty v
  | UnknownUefi v => uefi_type_name v
  | other => debug other
  end.

Section report.
Context `{Profile} (debug : MemoryRegionKind -> string).

(** The text of [log_region]; the subtraction of [u64] can overflow. *)
Definition region_text r : rust string :=
  size ← sub_usize (mr_end r) (mr_start r);
  Ret (" - " +:+ format_012x (mr_start r) +:+ " - " +:+ format_012x (mr_end r) +:+ " " +:+
       display_kind debug (mr_kind r) +:+ " (" +:+ pretty size +:+ " bytes =~ " +:+
       pretty (size / 1024) +:+ " KiB =~ " +:+ pretty (size / 1024 / 1024) +:+ " MiB)").

(** * Combining regions *)

(** The tracing event of a line has an effect on a state [K]. *)
Context {K : Type} (info : string -> K -> rust K).
Implicit Types (k : K).

Definition log_region r k : rust K := text ← region_text r; info text k.

(** The closure given to [reduce]. *)
Definition combine_or_log prev next k : rust (MemoryRegion * K) :=
  if bool_decide (mr_kind prev = mr_kind next) && bool_decide (mr_end prev = mr_start next)
  then Ret (MkMemoryRegion (mr_start prev) (mr_end next) (mr_kind prev), k)
  else k ← log_region prev k; Ret (next, k).

(** [Iterator::reduce] with a closure that has effects. *)
Fixpoint reduce_from prev rs k : rust (MemoryRegion * K) :=
  match rs with
  | [] => Ret (prev, k)
  | next :: rs => '(prev, k) ← combine_or_log prev next k; reduce_from prev rs k
  end.

Definition reduce rs k : rust (option MemoryRegion * K) :=
  match rs with
  | [] => Ret (None, k)
  | r :: rs => '(last, k) ← reduce_from r rs k; Ret (Some last, k)
  end.

(** The part of [start] from [reduce] to the report of the last region. *)
Definition report_regions rs k : rust K :=
  '(last, k) ← reduce rs k;
  match last with Some last => log_region last k | None => Ret k end.

Fixpoint log_all rs k : rust K :=
  match rs with [] => Ret k | r :: rs => k ← log_region r k; log_all rs k end.
End report.

(** * What is reported *)

(** Two neighbours that are reported as one. *)
Definition mergeable prev next : Prop := mr_kind prev = mr_kind next /\ mr_end prev = mr_start next.

#[export] Instance mergeable_dec prev next : Decision (mergeable prev next).
Proof. unfold mergeable. apply _. Defined.

(** Consecutive regions each of which continues the one before. *)
Fixpoint chain r rs : Prop :=
  match rs with [] => True | next :: rs => mergeable r next /\ chain next rs end.

(** The region that a chain makes up. *)
Definition spanned r rs : MemoryRegion :=
  MkMemoryRegion (mr_start r) (mr_end (default r (last rs))) (mr_kind r).

(** [out] is the memory map [regions] cut into chains that are as long as
    possible, each replaced by the region it makes up. *)
Inductive canonical : list MemoryRegion -> list MemoryRegion -> Prop :=
  | canonical_nil : canonical [] []
  | canonical_cons r rs regions out :
      chain r rs -> canonical regions out ->
      (forall o, head out = Some o -> ~ mergeable (spanned r rs) o) ->
      canonical (r :: rs ++ regions) (spanned r rs :: out).

Fixpoint merge_from prev rs : list MemoryRegion :=
  match rs with
  | [] => [prev]
  | next :: rs =>
      if decide (mergeable prev next) then merge_from (MkMemoryRegion (mr_start prev) (mr_end next) (mr_kind prev)) rs
      else prev :: merge_from next rs
  end.

Definition merged rs : list MemoryRegion :=
  match rs with [] => [] | r :: rs => merge_from r rs end.

Lemma spanned_nil r : spanned r [] = r.
Proof. by destruct r. Qed.

Lemma spanned_cons r next rs :
  chain r (next :: rs) ->
  spanned (MkMemoryRegion (mr_start r) (mr_end next) (mr_kind r)) rs = spanned r (next :: rs) /\
  chain (MkMemoryRegion (mr_start r) (mr_end next) (mr_kind r)) rs.
Proof.
  intros [[Hk He] Hc]. unfold spanned. destruct rs as [|n2 rs]; [done|].
  rewrite (last_cons next (n2 :: rs)). simpl. destruct Hc as [[Hk2 He2] Hc]. split.
  - destruct (last (n2 :: rs)) eqn:E; [done|]. by apply last_None in E.
  - split; [|done]. split; simpl; congruence.
Qed.

(** A chain is merged into what it spans, and merging goes on from there. *)
Lemma merge_chain r rs rest :
  chain r rs -> merge_from r (rs ++ rest) = merge_from (spanned r rs) rest.
Proof.
  revert r. induction rs as [|next rs IH]; intros r Hc; [by rewrite spanned_nil|].
  pose proof (spanned_cons _ _ _ Hc) as [<- Hc']. simpl.
  rewrite decide_True by apply Hc. by apply IH.
Qed.

Lemma merge_from_head prev rs :
  exists last out, merge_from prev rs = last :: out /\
    mr_start last = mr_start prev /\ mr_kind last = mr_kind prev.
Proof.
  revert prev. induction rs as [|next rs IH]; intros prev; simpl; [by exists prev, []|].
  case_decide; [|by exists prev, (merge_from next rs)].
  destruct (IH (MkMemoryRegion (mr_start prev) (mr_end next) (mr_kind prev))) as (l&o&E&?&?).
  by exists l, o.
Qed.

Lemma canonical_merged rs out : canonical rs out -> merged rs = out.
Proof.
  induction 1 as [|r rs regions out Hc Hcan IH Hn]; [done|]. simpl. rewrite merge_chain by done.
  destruct regions as [|next regions]; simpl in *.
  - by rewrite <-IH.
  - destruct (merge_from_head next regions) as (o&os&E&Es&Ek). rewrite E in IH. subst out.
    specialize (Hn o eq_refl). rewrite decide_False; [by rewrite E|].
    intros [Hk He]. apply Hn. split; congruence.
Qed.

Lemma merge_canonical prev rs pre r :
  chain r pre -> prev = spanned r pre -> canonical (r :: pre ++ rs) (merge_from prev rs).
Proof.
  revert prev pre r. induction rs as [|next rs IH]; intros prev pre r Hc ->; simpl.
  - apply canonical_cons; [done|constructor|done].
  - case_decide as Hm.
    + replace (pre ++ next :: rs) with ((pre ++ [next]) ++ rs) by (by rewrite <-app_assoc).
      assert (Hc' : chain r (pre ++ [next])).
      { clear IH. revert r Hc Hm. induction pre as [|x pre IHp]; intros r Hc Hm; simpl in *.
        - by rewrite spanned_nil in Hm.
        - destruct Hc as [Hx Hc]. split; [done|]. apply IHp; [done|].
          destruct Hm as [Hk He]. unfold spanned in *. simpl in *. rewrite last_cons in He.
          split; [simpl; destruct Hx; congruence|]. simpl. by destruct (last pre). }
      apply IH; [done|]. unfold spanned. by rewrite last_snoc.
    + apply canonical_cons; [done| |].
      * apply (IH next [] next); [done|by rewrite spanned_nil].
      * intros o Ho. destruct (merge_from_head next rs) as (l&os&E&Es&Ek).
        rewrite E in Ho. injection Ho as <-. intros [Hk He]. apply Hm. split; congruence.
Qed.

(** The regions' addresses of a kind. *)
Definition holds_kind (kind : MemoryRegionKind) (a : Z) rs : Prop :=
  Exists (fun r => mr_kind r = kind /\ mr_start r <= a < mr_end r) rs.

Definition ordered r : Prop := mr_start r <= mr_end r.

Lemma merge_from_holds kind a prev rs :
  Forall ordered (prev :: rs) ->
  Forall ordered (merge_from prev rs) /\
  (holds_kind kind a (merge_from prev rs) <-> holds_kind kind a (prev :: rs)).
Proof.
  unfold ordered, holds_kind. revert prev.
  induction rs as [|next rs IH]; intros prev Ho; simpl; [done|].
  apply Forall_cons in Ho as [Hp Ho]. pose proof Ho as [Hn Hrs]%Forall_cons_1.
  case_decide as Hm.
  - destruct Hm as [Hk He]. destruct (IH (MkMemoryRegion (mr_start prev) (mr_end next) (mr_kind prev))) as [? Hi].
    { constructor; simpl; [lia|done]. }
    split; [done|]. rewrite Hi, !Exists_cons. simpl. rewrite <-Hk, <-He.
    destruct (decide (a < mr_end prev)); intuition lia.
  - destruct (IH next Ho) as [? Hi]. split; [by constructor|].
    rewrite (Exists_cons _ prev (merge_from next rs)), Hi, (Exists_cons _ prev). done.
Qed.

Section report_spec.
Context `{Profile} (debug : MemoryRegionKind -> string) {K : Type} (info : string -> K -> rust K).
Implicit Types (k : K).

Lemma reduce_from_logs prev rs k :
  ('(last, k) ← reduce_from debug info prev rs k; log_region debug info last k)
  = log_all debug info (merge_from prev rs) k.
Proof.
  revert prev k. induction rs as [|next rs IH]; intros prev k; simpl.
  - by destruct (log_region debug info prev k).
  - unfold combine_or_log. case_decide as Hm.
    + destruct Hm as [Hk He]. rewrite !bool_decide_true by done. simpl. apply IH.
    + replace (bool_decide _ && bool_decide _) with false.
      * simpl. destruct (log_region debug info prev k) as [k'|]; [|done]. cbn [mbind rust_bind]. apply IH.
      * symmetry. rewrite andb_false_iff, !bool_decide_eq_false. unfold mergeable in Hm.
        destruct (decide (mr_kind prev = mr_kind next)); tauto.
Qed.

Lemma report_regions_eq regions k :
  report_regions debug info regions k = log_all debug info (merged regions) k.
Proof.
  unfold report_regions. destruct regions as [|r rs]; [done|]. simpl.
  rewrite <-reduce_from_logs. by destruct (reduce_from debug info r rs k) as [[]|].
Qed.

(** C32. The report of the memory map. Whatever logging a line does, [start]
    logs one line for each region of the canonical form of the
    bootloader's map and nothing else, in the order of the map, the last
    one included. The canonical form cuts the map into maximal runs of
    regions of one kind that continue each other; it is unique, and it
    attributes the same kind to the same addresses as the map. *)
Theorem region_report_spec regions k :
  report_regions debug info regions k = log_all debug info (merged regions) k /\
  (forall out, canonical regions out <-> out = merged regions) /\
  (Forall ordered regions -> forall kind a,
     holds_kind kind a (merged regions) <-> holds_kind kind a regions).
Proof.
  split; [|split].
  - apply report_regions_eq.
  - intros out. split; [intros Hc; symmetry; by apply canonical_merged|]. intros ->.
    destruct regions as [|r rs]; [constructor|].
    apply (merge_canonical r rs [] r); [done|by rewrite spanned_nil].
  - intros Ho kind a. destruct regions as [|r rs]; [done|]. by apply merge_from_holds.
Qed.
End report_spec.

(** A map as the bootloader gives it, and its report. *)
Definition sample_map : list MemoryRegion := [
  MkMemoryRegion 0 0x1000 RegionBootloader;
  MkMemoryRegion 0x1000 0x50000 RegionUsable;
  MkMemoryRegion 0x50000 0xa0000 RegionUsable;
  MkMemoryRegion 0x100000 0x900000 RegionUsable;
  MkMemoryRegion 0x900000 0x901000 (UnknownUefi 6) ].

Lemma region_report_spec_witness :
  holds_kind RegionUsable 0x60000 (merged sample_map) <-> holds_kind RegionUsable 0x60000 sample_map.
Proof.
  apply (region_report_spec (H := dev_profile) (fun _ => "Usable"%string) (fun line log => Ret (log ++ [line])) sample_map []).
  unfold sample_map, ordered. repeat constructor; simpl; lia.
Defined.

Example sample_report :
  report_regions (H := dev_profile)
    (fun kind => match kind with RegionUsable => "Usable" | _ => "Bootloader" end)%string
    (fun line log => Ret (log ++ [line])) sample_map [] =
  Ret [" - 0x0000000000 - 0x0000001000 Bootloader (4096 bytes =~ 4 KiB =~ 0 MiB)";
       " - 0x0000001000 - 0x00000a0000 Usable (651264 bytes =~ 636 KiB =~ 0 MiB)";
       " - 0x0000100000 - 0x0000900000 Usable (8388608 bytes =~ 8192 KiB =~ 8 MiB)";
       " - 0x0000900000 - 0x0000901000 UEFI Runtime Services (Data) (4096 bytes =~ 4 KiB =~ 0 MiB)"]%string.
Proof. vm_compute. reflexivity. Qed.
