(* ===== verification/Display.v ===== *)
(** The frame buffer as a draw target ([kernel/src/arch/x86_64/display.rs]):
    how a pixel's coordinates become an offset in the buffer, in the integer
    types the code uses for it, and what is written there. *)
From S2P Require Import Prelude.

(** * Narrower machine integers *)

Section integers.
Context `{Profile}.

(** Result of an operation of [i32] whose exact value is [z]. *)
Definition is_i32 (z : Z) : Prop := - 2 ^ 31 <= z < 2 ^ 31.

Definition i32_checked (z : Z) : rust Z :=
  if decide (- 2 ^ 31 <= z < 2 ^ 31) then Ret z
  else if debug_assertions then Panic ArithmeticOverflow
  else Ret ((z + 2 ^ 31) mod 2 ^ 32 - 2 ^ 31).

Definition add_i32 (a b : Z) : rust Z := i32_checked (a + b).
Definition mul_i32 (a b : Z) : rust Z := i32_checked (a * b).

Definition add_u32 (a b : Z) : rust Z :=
  if decide (a + b < 2 ^ 32) then Ret (a + b)
  else if debug_assertions then Panic ArithmeticOverflow
  else Ret ((a + b) mod 2 ^ 32).

(** The casts [i32 as usize], which extends the sign, and [usize as u32]. *)
Definition i32_as_usize (z : Z) : Z := z mod usize_bound.
Definition usize_as_u32 (z : Z) : Z := z mod 2 ^ 32.

(** [i32::try_from] of a [usize]. *)
Definition try_i32 (z : Z) : option Z := if decide (z < 2 ^ 31) then Some z else None.

Lemma i32_checked_ok z : is_i32 z -> i32_checked z = Ret z.
Proof. intros Hz. unfold i32_checked. by rewrite decide_True. Qed.

Lemma add_u32_ok a b : a + b < 2 ^ 32 -> add_u32 a b = Ret (a + b).
Proof. intros Hz. unfold add_u32. by rewrite decide_True. Qed.
End integers.

(** * The frame buffer *)

Inductive PixelFormat := Rgb | Bgr | OtherFormat (tag : Z).

#[export] Instance PixelFormat_eq_dec : EqDecision PixelFormat.
Proof. solve_decision. Defined.

Record FrameBufferInfo := MkInfo {
  fb_width : Z;
  fb_height : Z;
  fb_stride : Z;
  bytes_per_pixel : Z;
  pixel_format : PixelFormat;
}.

Record FrameBuffer := MkFrameBuffer { fb_info : FrameBufferInfo; fb_buffer : list Z }.

(** [Bgr888]. *)
Record Color := MkColor { c_r : Z; c_g : Z; c_b : Z }.

#[export] Instance Color_eq_dec : EqDecision Color.
Proof. solve_decision. Defined.

Record Point := MkPoint { px : Z; py : Z }.

#[export] Instance Point_eq_dec : EqDecision Point.
Proof. solve_decision. Defined.

Record Pixel := MkPixel { coord : Point; pixel_color : Color }.

Implicit Types (info : FrameBufferInfo) (fb : FrameBuffer) (buffer : list Z)
  (p q : Point) (c : Color) (pixels : list Pixel).

Section draw.
Context `{Profile}.

(** [buffer[i] = v]. *)
Definition set_byte buffer (i v : Z) : rust (list Z) :=
  if decide (i < Z.of_nat (length buffer)) then Ret (<[Z.to_nat i := v]> buffer)
  else Panic IndexOutOfBounds.

(** Three stores one after the other. *)
Definition set_bytes buffer (offset a b c : Z) : rust (list Z) :=
  buffer ← set_byte buffer offset a;
  i ← add_usize offset 1;
  buffer ← set_byte buffer i b;
  i ← add_usize offset 2;
  set_byte buffer i c.

(** The body of the loop of [draw_iter]. *)
Definition draw_pixel info (stride : Z) buffer (px' : Pixel) : rust (list Z) :=
  let '(MkPixel (MkPoint x y) color) := px' in
  row ← mul_i32 y stride;
  pixel_offset ← add_i32 row x;
  byte_offset ← mul_usize (i32_as_usize pixel_offset) (bytes_per_pixel info);
  match pixel_format info with
  | Rgb => set_bytes buffer byte_offset (c_r color) (c_g color) (c_b color)
  | Bgr => set_bytes buffer byte_offset (c_b color) (c_g color) (c_r color)
  | OtherFormat _ => Panic PanicCalled
  end.

Fixpoint draw_pixels info (stride : Z) buffer pixels : rust (list Z) :=
  match pixels with
  | [] => Ret buffer
  | px' :: pixels =>
      buffer ← draw_pixel info stride buffer px'; draw_pixels info stride buffer pixels
  end.

(** [draw_iter]; its error type is [Infallible]. *)
Definition draw_iter fb pixels : rust FrameBuffer :=
  stride ← expect (try_i32 (fb_stride (fb_info fb)));
  buffer ← draw_pixels (fb_info fb) stride (fb_buffer fb) pixels;
  Ret (MkFrameBuffer (fb_info fb) buffer).

(** [size]. *)
Definition display_size fb : Z * Z :=
  (usize_as_u32 (fb_width (fb_info fb)), usize_as_u32 (fb_height (fb_info fb))).
End draw.

(** * What a frame buffer shows *)

(** The colour that the bytes of a point encode. *)
Definition offset_of info p : Z := (py p * fb_stride info + px p) * bytes_per_pixel info.

Definition byte_at buffer (i : Z) : Z := default 0 (buffer !! Z.to_nat i).

Definition shown fb p : Color :=
  let o := offset_of (fb_info fb) p in
  let '(a, b, c) := (byte_at (fb_buffer fb) o, byte_at (fb_buffer fb) (o + 1), byte_at (fb_buffer fb) (o + 2)) in
  match pixel_format (fb_info fb) with
  | Rgb | OtherFormat _ => MkColor a b c
  | Bgr => MkColor c b a
  end.

(** A frame buffer as the bootloader describes it. *)
Record fb_ok fb : Prop := {
  ok_width : 0 <= fb_width (fb_info fb) <= fb_stride (fb_info fb);
  ok_height : 0 <= fb_height (fb_info fb);
  ok_pixels : fb_height (fb_info fb) * fb_stride (fb_info fb) < 2 ^ 31;
  ok_stride : fb_stride (fb_info fb) < 2 ^ 31;
  ok_bpp : 3 <= bytes_per_pixel (fb_info fb) <= 8;
  ok_format : pixel_format (fb_info fb) = Rgb \/ pixel_format (fb_info fb) = Bgr;
  ok_length : fb_height (fb_info fb) * fb_stride (fb_info fb) * bytes_per_pixel (fb_info fb)
              <= Z.of_nat (length (fb_buffer fb)) < 2 ^ 63;
}.

Definition in_bounds fb p : Prop :=
  0 <= px p < fb_width (fb_info fb) /\ 0 <= py p < fb_height (fb_info fb).

#[export] Instance in_bounds_dec fb p : Decision (in_bounds fb p).
Proof. unfold in_bounds. apply _. Defined.

(** The colour of the last of [pixels] at [p], or else [c]. *)
Definition drawn pixels p c : Color :=
  fold_left (fun c px' => if decide (coord px' = p) then pixel_color px' else c) pixels c.

(** [i] is one of the three bytes of a point. *)
Definition byte_of info p (i : Z) : Prop := offset_of info p <= i < offset_of info p + 3.

(** * Drawing *)

Section drawing.
Context `{Profile}.

Lemma set_bytes_ok buffer o (a b c : Z) :
  0 <= o -> o + 2 < Z.of_nat (length buffer) < 2 ^ 63 ->
  set_bytes buffer o a b c =
    Ret (<[Z.to_nat (o + 2) := c]> (<[Z.to_nat (o + 1) := b]> (<[Z.to_nat o := a]> buffer))).
Proof.
  intros Ho Hl. unfold set_bytes, set_byte. rewrite decide_True by lia. cbn [mbind rust_bind].
  rewrite !add_usize_ok by (unfold is_usize, usize_bound; lia). cbn [mbind rust_bind].
  rewrite !length_insert, !decide_True by lia. cbn [mbind rust_bind].
  by rewrite !length_insert, decide_True by lia.
Qed.

Lemma byte_at_insert buffer i j v :
  0 <= i < Z.of_nat (length buffer) -> 0 <= j ->
  byte_at (<[Z.to_nat i := v]> buffer) j = if decide (j = i) then v else byte_at buffer j.
Proof.
  intros Hi Hj. unfold byte_at. case_decide as E.
  - by rewrite E, list_lookup_insert_eq by lia.
  - by rewrite list_lookup_insert_ne by lia.
Qed.

Lemma byte_at_set_bytes buffer o (a b c : Z) j :
  0 <= o -> o + 2 < Z.of_nat (length buffer) -> 0 <= j ->
  byte_at (<[Z.to_nat (o + 2) := c]> (<[Z.to_nat (o + 1) := b]> (<[Z.to_nat o := a]> buffer))) j =
  if decide (j = o) then a else if decide (j = o + 1) then b else if decide (j = o + 2) then c
  else byte_at buffer j.
Proof.
  intros. rewrite !byte_at_insert by (rewrite ?length_insert; lia).
  repeat case_decide; done || lia.
Qed.

(** The order in which the bytes of a colour are stored. *)
Definition stored info c : Z * Z * Z :=
  match pixel_format info with
  | Bgr => (c_b c, c_g c, c_r c)
  | _ => (c_r c, c_g c, c_b c)
  end.

(** Where the arithmetic of the loop ends up when [i32] does not overflow. *)
Lemma draw_pixel_offset fb p c :
  let o := py p * fb_stride (fb_info fb) + px p in
  let '(a1, a2, a3) := stored (fb_info fb) c in
  fb_ok fb -> is_i32 (py p * fb_stride (fb_info fb)) -> is_i32 o -> 0 <= o ->
  draw_pixel (fb_info fb) (fb_stride (fb_info fb)) (fb_buffer fb) (MkPixel p c) =
  set_bytes (fb_buffer fb) (offset_of (fb_info fb) p) a1 a2 a3.
Proof.
  intros o. destruct p as [x y], (stored _ c) as [[a1 a2] a3] eqn:Es.
  intros Hok Hr Hi Ho. unfold draw_pixel, mul_i32, add_i32. simpl in *.
  rewrite i32_checked_ok by done. cbn [mbind rust_bind].
  rewrite i32_checked_ok by done. cbn [mbind rust_bind]. fold o.
  unfold i32_as_usize. rewrite Z.mod_small by (unfold usize_bound, is_i32 in *; lia).
  destruct Hok. rewrite mul_usize_ok by (unfold is_usize, usize_bound, is_i32 in *; nia).
  cbn [mbind rust_bind]. unfold offset_of. simpl. fold o. unfold stored in Es.
  by destruct ok_format0 as [E|E]; rewrite E in Es |- *; injection Es as <- <- <-.
Qed.

Lemma offset_bounds fb p :
  fb_ok fb -> in_bounds fb p ->
  0 <= py p * fb_stride (fb_info fb) + px p < fb_height (fb_info fb) * fb_stride (fb_info fb) /\
  0 <= offset_of (fb_info fb) p /\
  offset_of (fb_info fb) p + 2 < Z.of_nat (length (fb_buffer fb)).
Proof.
  intros [] [Hx Hy]. unfold offset_of. set (st := fb_stride (fb_info fb)) in *.
  assert (0 <= py p * st + px p < fb_height (fb_info fb) * st) by nia. split; [done|]. nia.
Qed.

(** Different points have different bytes. *)
Lemma offset_apart fb p q :
  fb_ok fb -> in_bounds fb p -> in_bounds fb q -> p <> q ->
  offset_of (fb_info fb) p + 2 < offset_of (fb_info fb) q \/
  offset_of (fb_info fb) q + 2 < offset_of (fb_info fb) p.
Proof.
  intros [] [Hx Hy] [Hx' Hy'] Hne. unfold offset_of. set (st := fb_stride (fb_info fb)) in *.
  assert (py p * st + px p <> py q * st + px q).
  { intros E. apply Hne. destruct p as [x y], q as [x' y']; simpl in *.
    assert (y = y') by nia. subst y'. f_equal. lia. }
  destruct (decide (py p * st + px p < py q * st + px q)); [left|right]; nia.
Qed.

Lemma stride_ok fb : fb_ok fb -> try_i32 (fb_stride (fb_info fb)) = Some (fb_stride (fb_info fb)).
Proof. intros []. unfold try_i32. by rewrite decide_True. Qed.

Lemma draw_pixel_ok fb p c :
  fb_ok fb -> in_bounds fb p ->
  exists buffer, draw_pixel (fb_info fb) (fb_stride (fb_info fb)) (fb_buffer fb) (MkPixel p c) = Ret buffer /\
    let fb' := MkFrameBuffer (fb_info fb) buffer in
    fb_ok fb' /\ length buffer = length (fb_buffer fb) /\
    (forall q, in_bounds fb q -> shown fb' q = if decide (p = q) then c else shown fb q) /\
    (forall i, 0 <= i -> ~ byte_of (fb_info fb) p i -> byte_at buffer i = byte_at (fb_buffer fb) i).
Proof.
  intros Hok Hp. pose proof (offset_bounds fb p Hok Hp) as (Ho&Hlo&Hhi).
  pose proof (draw_pixel_offset fb p c) as E. destruct (stored (fb_info fb) c) as [[a1 a2] a3] eqn:Es.
  rewrite E; [|done|destruct Hok, Hp; unfold is_i32; nia|destruct Hok; unfold is_i32; lia|lia]. clear E.
  rewrite set_bytes_ok; [|done|destruct Hok; lia]. eexists. split; [reflexivity|]. split; [|split; [|split]].
  - destruct Hok. by split; simpl; rewrite ?length_insert.
  - by rewrite !length_insert.
  - intros q Hq. unfold shown. cbn [fb_info fb_buffer].
    pose proof (offset_bounds fb q Hok Hq) as (_&?&?).
    rewrite !byte_at_set_bytes by lia. destruct (decide (p = q)) as [<-|Hne].
    + unfold stored in Es. repeat ((rewrite decide_True by lia) || (rewrite decide_False by lia)).
      destruct Hok. by destruct c, ok_format0 as [E|E]; rewrite E in Es |- *; injection Es as <- <- <-.
    + pose proof (offset_apart fb p q Hok Hp Hq Hne). by rewrite !decide_False by lia.
  - intros i Hi Hb. unfold byte_of in Hb. rewrite byte_at_set_bytes by lia. by rewrite !decide_False by lia.
Qed.

Lemma draw_pixels_ok fb pixels :
  fb_ok fb -> Forall (fun px' => in_bounds fb (coord px')) pixels ->
  exists buffer, draw_pixels (fb_info fb) (fb_stride (fb_info fb)) (fb_buffer fb) pixels = Ret buffer /\
    let fb' := MkFrameBuffer (fb_info fb) buffer in
    fb_ok fb' /\ length buffer = length (fb_buffer fb) /\
    (forall p, in_bounds fb p -> shown fb' p = drawn pixels p (shown fb p)) /\
    (forall i, 0 <= i -> Forall (fun px' => ~ byte_of (fb_info fb) (coord px') i) pixels ->
       byte_at buffer i = byte_at (fb_buffer fb) i).
Proof.
  intros Hok Hps. revert fb Hok Hps. induction pixels as [|[p c] pixels IH]; intros fb Hok Hps; cbn [draw_pixels].
  { exists (fb_buffer fb). destruct fb. done. }
  apply Forall_cons in Hps as [Hp Hps].
  destruct (draw_pixel_ok fb p c Hok Hp) as (b1&->&Hok1&Hlen1&Hsh1&Hby1). cbn [mbind rust_bind].
  destruct (IH _ Hok1 Hps) as (b2&E2&Hok2&Hlen2&Hsh2&Hby2). simpl in *. rewrite E2.
  exists b2. split; [done|]. split; [done|]. split; [lia|]. split.
  - intros q Hq. by rewrite Hsh2, Hsh1.
  - intros i Hi [Hb Hbs]%Forall_cons. by rewrite Hby2, Hby1.
Qed.

(** [draw_iter] inside the display. In both build profiles, for a frame
    buffer whose geometry fits its memory and in either byte order, drawing
    pixels within the display returns, keeps the buffer's size, shows at
    every point of the display the colour of the last pixel drawn there and
    elsewhere what it showed before, and leaves every byte that belongs to
    none of the pixels as it was. *)
Theorem draw_iter_spec fb pixels :
  fb_ok fb -> Forall (fun px' => in_bounds fb (coord px')) pixels ->
  exists fb', draw_iter fb pixels = Ret fb' /\ fb_ok fb' /\ fb_info fb' = fb_info fb /\
    length (fb_buffer fb') = length (fb_buffer fb) /\
    (forall p, in_bounds fb p -> shown fb' p = drawn pixels p (shown fb p)) /\
    (forall i, 0 <= i -> Forall (fun px' => ~ byte_of (fb_info fb) (coord px') i) pixels ->
       byte_at (fb_buffer fb') i = byte_at (fb_buffer fb) i).
Proof.
  intros Hok Hps. destruct (draw_pixels_ok fb pixels Hok Hps) as (b&E&?&?&?&?).
  unfold draw_iter. rewrite stride_ok by done. cbn [expect mbind rust_bind]. rewrite E. by eexists.
Qed.

Lemma set_bytes_panics buffer o (a b c : Z) :
  0 <= o < 2 ^ 63 -> Z.of_nat (length buffer) <= o + 2 -> exists w, set_bytes buffer o a b c = Panic w.
Proof.
  intros Ho Hl. unfold set_bytes, set_byte. case_decide; cbn [mbind rust_bind]; [|by eexists].
  rewrite !add_usize_ok by (unfold is_usize, usize_bound; lia). cbn [mbind rust_bind].
  case_decide; cbn [mbind rust_bind]; [|by eexists]. rewrite !length_insert in *.
  rewrite decide_False by lia. by eexists.
Qed.

(** A negative offset becomes one that is past the end of any buffer. *)
Lemma draw_pixel_below fb x y c :
  let o := y * fb_stride (fb_info fb) + x in
  fb_ok fb -> is_i32 (y * fb_stride (fb_info fb)) -> is_i32 o -> o < 0 ->
  exists w, draw_pixel (fb_info fb) (fb_stride (fb_info fb)) (fb_buffer fb) (MkPixel (MkPoint x y) c) = Panic w.
Proof.
  intros o [] Hr Hi Hneg. unfold draw_pixel, mul_i32, add_i32.
  rewrite i32_checked_ok by done. cbn [mbind rust_bind].
  rewrite i32_checked_ok by done. cbn [mbind rust_bind]. fold o.
  destruct (mul_usize _ _) as [off|w] eqn:Em; [|by exists w]. cbn [mbind rust_bind].
  assert (Hoff : Z.of_nat (length (fb_buffer fb)) <= off).
  { unfold mul_usize, usize_checked, i32_as_usize in Em.
    assert (Emod : o mod usize_bound = usize_bound + o).
    { symmetry. apply Z.mod_unique with (-1); unfold usize_bound, is_i32 in *; lia. }
    rewrite Emod in Em. case_decide; [unfold usize_bound, is_i32 in *; nia|].
    destruct debug_assertions; [done|]. injection Em as <-.
    replace ((usize_bound + o) * bytes_per_pixel (fb_info fb))
      with ((usize_bound + o * bytes_per_pixel (fb_info fb)) + (bytes_per_pixel (fb_info fb) - 1) * usize_bound) by lia.
    rewrite Z_mod_plus_full, Z.mod_small; unfold usize_bound, is_i32 in *; nia. }
  unfold set_bytes, set_byte. rewrite !decide_False by lia. cbn [mbind rust_bind].
  destruct (pixel_format _); by eexists.
Qed.

(** [draw_iter] does not clip. A pixel outside the display is not
    discarded: one whose offset falls before the buffer or past its end
    makes the kernel panic, in both build profiles, and any other is drawn
    at the point of the buffer that its offset denotes, to the right of the
    last column that is on the next row. *)
Theorem draw_iter_unclipped fb x y c :
  let o := y * fb_stride (fb_info fb) + x in
  fb_ok fb -> is_i32 (y * fb_stride (fb_info fb)) -> is_i32 o -> 0 < fb_stride (fb_info fb) ->
  if decide (o < 0 \/ Z.of_nat (length (fb_buffer fb)) <= o * bytes_per_pixel (fb_info fb) + 2)
  then exists w, draw_iter fb [MkPixel (MkPoint x y) c] = Panic w
  else draw_iter fb [MkPixel (MkPoint x y) c] =
       draw_iter fb [MkPixel (MkPoint (o mod fb_stride (fb_info fb)) (o / fb_stride (fb_info fb))) c].
Proof.
  intros o Hok Hr Hi Hst. unfold draw_iter. rewrite !stride_ok by done.
  cbn [expect mbind rust_bind draw_pixels].
  assert (Ed : (o / fb_stride (fb_info fb)) * fb_stride (fb_info fb) + o mod fb_stride (fb_info fb) = o).
  { rewrite (Z.div_mod o (fb_stride (fb_info fb))) at 3; lia. }
  pose proof (Z.mod_pos_bound o _ Hst) as Hmod.
  pose proof (draw_pixel_offset fb (MkPoint x y) c) as E.
  pose proof (draw_pixel_offset fb (MkPoint (o mod fb_stride (fb_info fb)) (o / fb_stride (fb_info fb))) c) as E'.
  destruct (stored _ _) as [[a1 a2] a3]. cbn [py px] in E, E'. fold o in E. rewrite Ed in E'.
  destruct (decide (o < 0)) as [Hneg|Hpos].
  { rewrite decide_True by tauto. destruct (draw_pixel_below fb x y c) as [w ->]; [done..|]. by exists w. }
  rewrite E by (done || lia).
  assert (Eo : offset_of (fb_info fb) (MkPoint x y) = o * bytes_per_pixel (fb_info fb)) by done.
  rewrite Eo. case_decide as Hout.
  - destruct (set_bytes_panics (fb_buffer fb) (o * bytes_per_pixel (fb_info fb)) a1 a2 a3) as [w ->];
      [destruct Hok; unfold is_i32 in *; nia|lia|].
    by exists w.
  - pose proof (ok_stride _ Hok). rewrite E' by (done || (unfold is_i32 in *; lia)). unfold offset_of. simpl. by rewrite Ed.
Qed.
End drawing.

(** A display of 4 by 3 pixels in a buffer with rows of 5. *)
Definition small_fb : FrameBuffer := MkFrameBuffer (MkInfo 4 3 5 4 Bgr) (replicate 60 0).

Lemma small_fb_ok : fb_ok small_fb.
Proof. by split; simpl; try lia; right. Qed.

Lemma draw_iter_spec_witness :
  exists fb, draw_iter (H := dev_profile) small_fb
    [MkPixel (MkPoint 1 2) (MkColor 1 2 3); MkPixel (MkPoint 1 2) (MkColor 4 5 6)] = Ret fb /\
    shown fb (MkPoint 1 2) = MkColor 4 5 6.
Proof.
  destruct (draw_iter_spec (H := dev_profile) small_fb
    [MkPixel (MkPoint 1 2) (MkColor 1 2 3); MkPixel (MkPoint 1 2) (MkColor 4 5 6)] small_fb_ok)
    as (fb&E&_&_&_&Hs&_); [unfold in_bounds; repeat constructor; simpl; lia|].
  exists fb. split; [exact E|]. rewrite Hs; [reflexivity|unfold in_bounds; simpl; lia].
Defined.

(** The pixel to the right of the stride appears in the next row, the one
    below the last row makes the kernel panic. *)
Lemma draw_iter_unclipped_witness :
  draw_iter (H := release_profile) small_fb [MkPixel (MkPoint 5 0) (MkColor 1 2 3)] =
  draw_iter (H := release_profile) small_fb [MkPixel (MkPoint 0 1) (MkColor 1 2 3)] /\
  exists w, draw_iter (H := release_profile) small_fb [MkPixel (MkPoint 0 3) (MkColor 1 2 3)] = Panic w.
Proof.
  split.
  - refine (draw_iter_unclipped (H := release_profile) small_fb 5 0 (MkColor 1 2 3) small_fb_ok _ _ _);
      unfold is_i32; simpl; lia.
  - refine (draw_iter_unclipped (H := release_profile) small_fb 0 3 (MkColor 1 2 3) small_fb_ok _ _ _);
      unfold is_i32; simpl; lia.
Defined.
