(* ===== verification/Console.v ===== *)
(** The text console ([kernel/src/console.rs]) on the frame buffer. Fonts,
    the measuring of text and its rasterisation belong to the
    embedded_graphics crate: the class [TextRenderer]. Characters are code
    points, and a string slice is given by positions of characters, not of
    the bytes that encode them. *)
From S2P Require Import Prelude Display.

(** * What is used of [embedded_graphics] *)

(** The characters that [Text] gives a meaning of their own. *)
Definition newline_char : Z := 10.
Definition return_char : Z := 13.

Definition printable (ch : Z) : Prop := ch <> newline_char /\ ch <> return_char.

#[export] Instance printable_dec ch : Decision (printable ch).
Proof. unfold printable. apply _. Defined.

(** A style: the width of a character, the pixels that drawing a text at a
    position sets, the position behind it, and the height of a line. Text
    without line breaks is set from left to right, so that drawing two
    pieces one behind the other is drawing both at once. [points] are the
    points of a display, that its [clear] fills one by one. *)
Class TextRenderer := {
  char_width : Z -> Z;
  text_pixels : list Z -> Point -> list Pixel;
  next_position : list Z -> Point -> Point;
  style_line_height : Z;
  points : Z * Z -> list Point;
  char_width_bounds ch : 0 <= char_width ch < 2 ^ 16;
  line_height_bounds : 0 < style_line_height < 2 ^ 16;
  next_position_nil p : next_position [] p = p;
  text_pixels_nil p : text_pixels [] p = [];
  next_position_app s t p : Forall printable (s ++ t) ->
    next_position (s ++ t) p = next_position t (next_position s p);
  text_pixels_app s t p : Forall printable (s ++ t) ->
    text_pixels (s ++ t) p = text_pixels s p ++ text_pixels t (next_position s p);
  next_position_char ch p : printable ch -> next_position [ch] p = MkPoint (px p + char_width ch) (py p);
  points_spec w h p : p ∈ points (w, h) <-> 0 <= px p < w /\ 0 <= py p < h;
}.

(** * The console *)

Definition MARGIN : Z := 5.
Definition BG_COLOR : Color := MkColor 0 0 0.

(** The two styles are constants of the class. *)
Record Console := MkConsole { cursor : Point; origin : Point; display : FrameBuffer }.

(** [saturating_as] and [saturating_cast] between [i32] and [u32]. *)
Definition saturating_u32 (z : Z) : Z := Z.max 0 (Z.min z (2 ^ 32 - 1)).
Definition saturating_i32 (z : Z) : Z := Z.max (- 2 ^ 31) (Z.min z (2 ^ 31 - 1)).

Section console.
Context `{Profile} {renderer : TextRenderer}.
Implicit Types (self : Console) (s : list Z) (ch : Z) (line_width : Z).

Definition line_height : Z := saturating_i32 style_line_height.

(** [Console::new]. *)
Definition console_new (d : FrameBuffer) : rust Console :=
  y ← add_i32 MARGIN line_height;
  let origin := MkPoint MARGIN y in
  Ret (MkConsole origin origin d).

(** [clear]. [Text::draw] and [DrawTarget::clear] reach the display through
    [draw_iter]. *)
Definition clear self : rust Console :=
  d ← draw_iter (display self) ((fun p => MkPixel p BG_COLOR) <$> points (display_size (display self)));
  Ret (MkConsole (origin self) (origin self) d).

Definition newline self : rust Console :=
  new_y ← add_i32 (py (cursor self)) line_height;
  if decide (saturating_i32 (display_size (display self)).2 < new_y)
  then clear self
  else Ret (MkConsole (MkPoint MARGIN new_y) (origin self) (display self)).

(** [self.cursor = Text::with_text_style(s, self.cursor, ..).draw(..)?]. *)
Definition draw_text self s : rust Console :=
  d ← draw_iter (display self) (text_pixels s (cursor self));
  Ret (MkConsole (next_position s (cursor self)) (origin self) d).

Definition slice s (first last : nat) : list Z := take (last - first) (drop first s).

(** [needs_line_break], with the new width of the line. *)
Definition needs_line_break (width line_width ch : Z) : rust (bool * Z) :=
  if decide (ch = newline_char) then Ret (true, line_width)
  else
    line_width ← add_u32 line_width (char_width ch);
    Ret (bool_decide (width <= line_width), line_width).

(** The loop of [write] from character [idx] on. *)
Fixpoint write_loop (width : Z) s self (idx line_start : nat) line_width (rest : list Z)
    : rust (Console * nat) :=
  match rest with
  | [] => Ret (self, line_start)
  | ch :: rest =>
      '(breaks, line_width) ← needs_line_break width line_width ch;
      if breaks : bool then
        self ← draw_text self (slice s line_start idx);
        self ← newline self;
        let line_start := if decide (ch = newline_char) then S idx else idx in
        write_loop width s self (S idx) line_start 0 rest
      else write_loop width s self (S idx) line_start line_width rest
  end.

(** [write]. *)
Definition write self s : rust Console :=
  let size := display_size (display self) in
  let line_width := saturating_u32 (px (cursor self)) in
  '(self, line_start) ← write_loop size.1 s self 0 0 line_width s;
  if decide (line_start < length s)%nat then draw_text self (slice s line_start (length s))
  else Ret self.

(** [fmt::Write::write_str]: the error type is [Infallible]. *)
Definition write_str self s : rust (result Console unit) :=
  self ← write self s; Ret (Ok self).
End console.

(** * Writing character by character *)

Section reference.
Context `{Profile} {renderer : TextRenderer}.
Implicit Types (self : Console) (s : list Z) (ch : Z) (line_width : Z).

(** The console as a terminal would be written: every character is drawn
    when it comes, after a line break if there is no room for it. *)
Fixpoint write_chars (width : Z) self line_width s : rust Console :=
  match s with
  | [] => Ret self
  | ch :: s =>
      if decide (ch = newline_char) then self ← newline self; write_chars width self 0 s
      else if decide (width <= line_width + char_width ch) then
        self ← newline self; self ← draw_text self [ch]; write_chars width self 0 s
      else
        self ← draw_text self [ch]; write_chars width self (line_width + char_width ch) s
  end.

(** A display whose size fits the types of the code. *)
Record console_ok self : Prop := {
  ok_console_stride : fb_stride (fb_info (display self)) < 2 ^ 31;
  ok_console_width : 0 <= fb_width (fb_info (display self)) < 2 ^ 31;
}.

Lemma draw_iter_info fb pixels fb' : draw_iter fb pixels = Ret fb' -> fb_info fb' = fb_info fb.
Proof. unfold draw_iter. intros E. rust_inv E. by subst fb'. Qed.

Lemma draw_pixels_app info stride buffer pixels pixels' :
  draw_pixels info stride buffer (pixels ++ pixels') =
  buffer ← draw_pixels info stride buffer pixels; draw_pixels info stride buffer pixels'.
Proof.
  revert buffer. induction pixels as [|p pixels IH]; intros buffer; simpl; [done|].
  destruct (draw_pixel info stride buffer p); [|done]. apply IH.
Qed.

Lemma draw_iter_nil fb : fb_stride (fb_info fb) < 2 ^ 31 -> draw_iter fb [] = Ret fb.
Proof. intros Hs. unfold draw_iter, try_i32. rewrite decide_True by done. by destruct fb. Qed.

Lemma draw_iter_app fb pixels pixels' :
  draw_iter fb (pixels ++ pixels') = fb ← draw_iter fb pixels; draw_iter fb pixels'.
Proof.
  unfold draw_iter. destruct (expect _) as [stride|] eqn:E; [|done]. cbn [mbind rust_bind].
  rewrite draw_pixels_app. destruct (draw_pixels _ _ _ pixels); [|done].
  cbn [mbind rust_bind fb_info fb_buffer]. by rewrite E.
Qed.

Lemma draw_text_nil self : console_ok self -> draw_text self [] = Ret self.
Proof.
  intros Hok. unfold draw_text. rewrite text_pixels_nil, draw_iter_nil by apply Hok.
  cbn [mbind rust_bind]. rewrite next_position_nil. by destruct self.
Qed.

Lemma draw_text_app self s t :
  Forall printable (s ++ t) ->
  draw_text self (s ++ t) = self ← draw_text self s; draw_text self t.
Proof.
  intros Hp. unfold draw_text. rewrite text_pixels_app, draw_iter_app, next_position_app by done.
  by destruct (draw_iter (display self) (text_pixels s (cursor self))).
Qed.

(** Neither drawing nor a line break changes the geometry or the origin. *)
Definition same_screen self self' : Prop :=
  fb_info (display self') = fb_info (display self) /\ origin self' = origin self.

Lemma draw_text_screen self s self' : draw_text self s = Ret self' -> same_screen self self'.
Proof. unfold draw_text. intros E. rust_inv E. subst self'. by apply draw_iter_info in Hx. Qed.

Lemma newline_screen self self' : newline self = Ret self' -> same_screen self self'.
Proof.
  unfold newline, clear. intros E. rust_inv E. case_decide.
  - rust_inv E. subst self'. by apply draw_iter_info in Hx0.
  - by injection E as <-.
Qed.

Lemma same_screen_ok self self' : same_screen self self' -> console_ok self -> console_ok self'.
Proof. intros [E _] []. by split; rewrite E. Qed.

Lemma line_break_ok self s self1 self2 :
  console_ok self -> draw_text self s = Ret self1 -> newline self1 = Ret self2 -> console_ok self2.
Proof.
  intros Hok E1 E2. eapply same_screen_ok; [by eapply newline_screen|].
  by eapply same_screen_ok; [eapply draw_text_screen|].
Qed.

Lemma slice_middle (pre seg rest : list Z) :
  slice (pre ++ seg ++ rest) (length pre) (length pre + length seg) = seg.
Proof.
  unfold slice. rewrite drop_app_length. replace (_ - _)%nat with (length seg) by lia.
  apply take_app_length.
Qed.

(** The loop with [seg] pending is the terminal with [seg] drawn. *)
Lemma write_loop_chars width s pre seg rest self line_width :
  s = pre ++ seg ++ rest -> width < 2 ^ 31 -> 0 <= line_width < 2 ^ 31 -> console_ok self ->
  Forall printable seg -> return_char ∉ rest ->
  ('(self, line_start) ← write_loop width s self (length pre + length seg) (length pre) line_width rest;
   if decide (line_start < length s)%nat then draw_text self (slice s line_start (length s)) else Ret self)
  = self ← draw_text self seg; write_chars width self line_width rest.
Proof.
  revert pre seg self line_width. induction rest as [|ch rest IH];
    intros pre seg self lw -> Hw Hlw Hok Hseg Hret.
  - cbn [write_loop mbind rust_bind write_chars]. rewrite app_nil_r, length_app.
    destruct seg as [|x seg].
    + simpl. rewrite decide_False, draw_text_nil by (done || lia). done.
    + rewrite decide_True by (simpl; lia).
      pose proof (slice_middle pre (x :: seg) []) as E. rewrite app_nil_r in E. rewrite E.
      by destruct (draw_text self (x :: seg)).
  - apply not_elem_of_cons in Hret as [Hch Hret]. cbn [write_loop write_chars]. unfold needs_line_break.
    assert (Es : pre ++ seg ++ ch :: rest = (pre ++ seg ++ [ch]) ++ rest) by (by rewrite <-!app_assoc).
    destruct (decide (ch = newline_char)) as [->|Hnl].
    + cbn [mbind rust_bind]. rewrite slice_middle.
      destruct (draw_text self seg) as [self1|] eqn:E1; [|done]. cbn [mbind rust_bind].
      destruct (newline self1) as [self2|] eqn:E2; [|done]. cbn [mbind rust_bind].
      pose proof (line_break_ok _ _ _ _ Hok E1 E2) as Hok2.
      specialize (IH (pre ++ seg ++ [newline_char]) [] self2 0 Es). rewrite draw_text_nil in IH by done.
      cbn [mbind rust_bind] in IH. rewrite <-IH by (done || lia). rewrite !length_app. simpl.
      by replace (length pre + (length seg + 1) + 0)%nat with (S (length pre + length seg)) by lia;
        replace (length pre + (length seg + 1))%nat with (S (length pre + length seg)) by lia.
    + pose proof (char_width_bounds ch). rewrite add_u32_ok by lia. cbn [mbind rust_bind].
      assert (Hprint : printable ch) by (by split). case_decide as Hbr.
      * rewrite bool_decide_true by done. rewrite slice_middle.
        destruct (draw_text self seg) as [self1|] eqn:E1; [|done]. cbn [mbind rust_bind].
        destruct (newline self1) as [self2|] eqn:E2; [|done]. cbn [mbind rust_bind].
        pose proof (line_break_ok _ _ _ _ Hok E1 E2) as Hok2.
        specialize (IH (pre ++ seg) [ch] self2 0). rewrite <-IH by (done || lia || (by constructor) || by rewrite <-app_assoc).
        rewrite !length_app. simpl. by replace (length pre + length seg + 1)%nat with (S (length pre + length seg)) by lia.
      * rewrite bool_decide_false by done.
        assert (Hseg' : Forall printable (seg ++ [ch])) by (apply Forall_app; by repeat constructor).
        specialize (IH pre (seg ++ [ch]) self (lw + char_width ch)).
        rewrite draw_text_app in IH by done.
        replace (length pre + length (seg ++ [ch]))%nat with (S (length pre + length seg)) in IH
          by (rewrite length_app; simpl; lia).
        rewrite IH by (done || lia || by rewrite <-app_assoc).
        by destruct (draw_text self seg).
Qed.

Lemma write_chars_eq self s :
  console_ok self -> is_i32 (px (cursor self)) -> return_char ∉ s ->
  write self s =
  write_chars (fb_width (fb_info (display self))) self (Z.max 0 (px (cursor self))) s.
Proof.
  intros Hok Hx Hret. unfold write.
  assert (Ew : (display_size (display self)).1 = fb_width (fb_info (display self))).
  { simpl. unfold usize_as_u32. apply Z.mod_small. destruct Hok. lia. }
  assert (El : saturating_u32 (px (cursor self)) = Z.max 0 (px (cursor self))).
  { unfold saturating_u32, is_i32 in *. lia. }
  rewrite Ew, El. destruct Hok as [? ?]. unfold is_i32 in Hx.
  pose proof (write_loop_chars (fb_width (fb_info (display self))) s [] [] s self (Z.max 0 (px (cursor self)))) as E.
  simpl in E. rewrite E by (done || lia || by constructor). by rewrite draw_text_nil.
Qed.

(** C33. [Console::write] is a terminal. Cutting a string into lines and
    drawing each line at once comes to the same as drawing every character
    when it is read, with a line break before it when the line is full: the
    same display, the same cursor and the same panics, on any display
    narrower than [2^31] and for any text without carriage returns. In
    particular no character is lost or drawn twice where lines break. *)
Theorem write_spec self s :
  console_ok self -> is_i32 (px (cursor self)) -> return_char ∉ s ->
  write self s =
  write_chars (fb_width (fb_info (display self))) self (Z.max 0 (px (cursor self))) s.
Proof. apply write_chars_eq. Qed.

(** ** Where the cursor can be *)

(** [wmax] bounds the width of a character. *)
Definition cursor_in (wmax bottom line_width : Z) self : Prop :=
  px (cursor self) <= line_width + MARGIN + wmax /\ py (cursor self) <= bottom.

(** The lowest a line can be set. *)
Definition bottom self : Z :=
  Z.max (py (origin self)) (saturating_i32 (display_size (display self)).2).

Lemma bottom_screen self self' : same_screen self self' -> bottom self' = bottom self.
Proof. intros [E Eo]. unfold bottom, display_size. by rewrite E, Eo. Qed.

Lemma newline_cursor self self' :
  newline self = Ret self' -> px (origin self) = MARGIN ->
  px (cursor self') = MARGIN /\ py (cursor self') <= bottom self.
Proof.
  unfold newline, clear, bottom. intros E Ho. rust_inv E. case_decide.
  - rust_inv E. subst self'. simpl. lia.
  - injection E as <-. simpl in *. lia.
Qed.

Lemma draw_char_cursor self ch self' :
  printable ch -> draw_text self [ch] = Ret self' ->
  px (cursor self') = px (cursor self) + char_width ch /\ py (cursor self') = py (cursor self).
Proof.
  intros Hp E. unfold draw_text in E. rust_inv E. subst self'. simpl. by rewrite next_position_char.
Qed.

Lemma write_chars_cursor width wmax s self line_width self' :
  (forall ch, char_width ch <= wmax) -> return_char ∉ s -> px (origin self) = MARGIN ->
  cursor_in wmax (bottom self) line_width self ->
  write_chars width self line_width s = Ret self' ->
  self' = self \/
  exists line_width', cursor_in wmax (bottom self) line_width' self' /\
    line_width' < Z.max width 1 /\ same_screen self self'.
Proof.
  intros Hw. revert self line_width. induction s as [|ch s IH]; intros self lw Hret Ho Hin E; simpl in E.
  { injection E as <-. by left. }
  apply not_elem_of_cons in Hret as [Hch Hret]. pose proof (Hw ch). pose proof (char_width_bounds ch).
  assert (Hnext : forall self1 lw1, same_screen self self1 -> cursor_in wmax (bottom self) lw1 self1 ->
            lw1 < Z.max width 1 -> write_chars width self1 lw1 s = Ret self' ->
            exists lw', cursor_in wmax (bottom self) lw' self' /\
              lw' < Z.max width 1 /\ same_screen self self').
  { intros self1 lw1 [Ei Eo] Hin1 Hlw1 E1. rewrite <-(bottom_screen self self1) in Hin1 |- * by done.
    destruct (IH self1 lw1) as [->|(lw2&Hin2&Hlw2&Ei2&Eo2)]; [done|congruence|done..| |].
    - by exists lw1.
    - exists lw2. split; [done|]. split; [done|]. split; congruence. }
  assert (Hbreak : forall self1, newline self = Ret self1 ->
            same_screen self self1 /\ px (cursor self1) = MARGIN /\ py (cursor self1) <= bottom self).
  { intros self1 E1. split; [by apply newline_screen|]. by apply newline_cursor. }
  right. repeat case_decide; rust_inv E.
  - destruct (Hbreak _ Hx) as (Hs&Hx1&Hy1). apply (Hnext x 0); [done| |lia|done].
    split; [lia|done].
  - destruct (Hbreak _ Hx) as (Hs&Hx1&Hy1). assert (Hp : printable ch) by (by split).
    destruct (draw_char_cursor _ _ _ Hp Hx0) as [Hcx Hcy]. apply (Hnext x0 0); [|split; lia|lia|done].
    destruct (draw_text_screen _ _ _ Hx0), Hs. split; congruence.
  - assert (Hp : printable ch) by (by split). destruct (draw_char_cursor _ _ _ Hp Hx) as [Hcx Hcy].
    destruct Hin. apply (Hnext x (lw + char_width ch)); [by eapply draw_text_screen|split; lia|lia|done].
Qed.

(** The cursor's bounds. Whatever is written, the cursor stays above the
    lower of the display's bottom edge and the first line, and to the left
    of the display's right edge plus the margin and one character: that
    bound is kept by every [write] that returns, in both build profiles,
    integer overflow in [newline] included. *)
Theorem cursor_bounds wmax self s self' :
  console_ok self -> (forall ch, char_width ch <= wmax) -> return_char ∉ s ->
  0 <= px (cursor self) < 2 ^ 31 -> px (origin self) = MARGIN -> 0 < fb_width (fb_info (display self)) ->
  let limit := fb_width (fb_info (display self)) + MARGIN + wmax in
  px (cursor self) <= limit -> py (cursor self) <= bottom self ->
  write self s = Ret self' ->
  px (cursor self') <= limit /\ py (cursor self') <= bottom self' /\ same_screen self self'.
Proof.
  intros Hok Hw Hret Hpx Ho Hpos limit Hl Hy E. pose proof (Hw 0). pose proof (char_width_bounds 0).
  rewrite write_chars_eq in E by (done || (unfold is_i32; lia)).
  apply (write_chars_cursor _ wmax) in E as [->|(lw&[Hx Hy']&Hlw&Hs)];
    [done| |done..|unfold cursor_in, MARGIN; lia].
  rewrite (bottom_screen self self') by done. unfold limit. split; [lia|done].
Qed.
End reference.

(** * A font of one pixel *)

Definition GREEN : Color := MkColor 0 255 0.

Definition cell_pixels (s : list Z) (p : Point) : list Pixel :=
  imap (fun i _ => MkPixel (MkPoint (px p + Z.of_nat i) (py p)) GREEN) s.

Definition cell_next (s : list Z) (p : Point) : Point :=
  MkPoint (px p + Z.of_nat (length s)) (py p).

Definition cell_points (size : Z * Z) : list Point :=
  y ← seqZ 0 size.2; (fun x => MkPoint x y) <$> seqZ 0 size.1.

Definition cell_renderer : TextRenderer.
Proof.
  refine {| char_width _ := 1; style_line_height := 1; text_pixels := cell_pixels;
            next_position := cell_next; points := cell_points |}.
  - done.
  - done.
  - intros [x y]. unfold cell_next. simpl. f_equal. lia.
  - done.
  - intros s t p _. unfold cell_next. rewrite length_app. simpl. f_equal. lia.
  - intros s t p _. unfold cell_pixels, cell_next. rewrite imap_app. f_equal. apply imap_ext.
    intros i x _. simpl. do 2 f_equal. lia.
  - done.
  - intros w h [x y]. unfold cell_points. simpl. rewrite list_elem_of_bind. split.
    + intros (y'&(x'&[= -> ->]&Hx)%list_elem_of_fmap&Hy). apply elem_of_seqZ in Hx, Hy. lia.
    + intros [Hx Hy]. exists y. rewrite list_elem_of_fmap. split; [exists x; split; [done|]|]; apply elem_of_seqZ; lia.
Defined.

Section witness.
#[local] Existing Instance dev_profile.
#[local] Existing Instance cell_renderer.

(** A screen of 12 by 9 pixels, its console, and a text of [n] characters. *)
Definition small_screen : FrameBuffer := MkFrameBuffer (MkInfo 12 9 12 3 Rgb) (replicate 324 0).
Definition small_console : Console := MkConsole (MkPoint 5 6) (MkPoint 5 6) small_screen.
Definition text (n : nat) : list Z := replicate n 65.

Lemma small_console_ok : console_ok small_console.
Proof. by split; simpl; lia. Qed.

Lemma no_return n : return_char ∉ text n.
Proof. by intros ?%elem_of_replicate_inv. Qed.

Lemma write_spec_witness : write small_console (text 3) = write_chars 12 small_console 5 (text 3).
Proof.
  refine (write_spec small_console (text 3) small_console_ok _ (no_return 3)).
  unfold is_i32. simpl. lia.
Defined.

Definition after_write : Console :=
  match write small_console (text 3) with Ret self => self | _ => small_console end.

Lemma after_write_eq : write small_console (text 3) = Ret after_write.
Proof. vm_compute. reflexivity. Qed.

Lemma cursor_bounds_witness : px (cursor after_write) <= 18 /\ py (cursor after_write) <= bottom after_write.
Proof.
  destruct (cursor_bounds 1 small_console (text 3) after_write small_console_ok) as (Hx&Hy&_);
    [done|exact (no_return 3)|simpl; lia|done|simpl; lia|simpl; unfold MARGIN; lia|
     unfold bottom; simpl; lia|exact after_write_eq|].
  split; [exact Hx|exact Hy].
Defined.
End witness.

(** Wrapped lines do not fit the display. The character that does not fit
    a line any more starts the next one, but neither it nor the margin is
    counted there, so a wrapped line is given more characters than there is
    room for: on a display 12 pixels wide text written without a line break
    puts pixels into the next row of the display, and when that happens on
    the last row the kernel panics. *)
Theorem wrapped_line_overruns :
  (exists self, write (H := dev_profile) (renderer := cell_renderer) small_console (text 18) = Ret self /\
     12 < px (cursor self) /\ py (cursor self) = 7 /\
     shown (display self) (MkPoint 0 8) = GREEN) /\
  write (H := dev_profile) (renderer := cell_renderer) small_console (text 30) = Panic IndexOutOfBounds.
Proof. split; [eexists|]; vm_compute; done. Qed.
