(* ===== verification/Boot.v ===== *)
(** The running kernel: the trace worker's static ([kernel/src/trace.rs]), the
    panic handler ([panic.rs]), the heap ([mm/heap_allocator.rs]), and the
    state that the kernel's code works on, which is its statics, the
    processor and the devices, with what the macros of the tracing crate do
    to it. [Start] has the code that starts the kernel. *)
From stdpp Require Import sorting.
From S2P Require Import Prelude Address Bitfields Topology Slot FreeLists Slab SlabSpec Sync Proto.
From S2P Require Import Decoder KTrace IntrusiveList RootAllocator Blocks RootAllocatorLinks.
From S2P Require Import RootAllocatorSpec RootAllocatorInit Apic Hal Entry Display Console.

(** * The trace worker *)

(** [InterruptSafeMutex<Worker>]: its spin lock and its contents. *)
Record LockedWorker := MkLockedWorker { worker_locked : bool; worker_inside : Worker }.

(** [tracing]'s global subscriber, and the statics [QUEUE] and [WORKER]. *)
Record TraceState (Q : Type) := MkTraceState {
  dispatch : option (Slab SpanState);
  QUEUE : Q;
  WORKER : Global LockedWorker;
}.
Arguments MkTraceState {Q}.
Arguments dispatch {Q}.
Arguments QUEUE {Q}.
Arguments WORKER {Q}.

Section tracing.
Context {prof : Profile} {bits : ModularBitfield} {topology : Topology}.
Context {E Q : Type} `{!Serializer E} `{!ThingBuf Q E}.
Implicit Types (t : TraceState Q) (cpu : Slot.ProcessorId) (e : bool).

(** [trace::init], on a port that has sent [written]. *)
Definition trace_init t (written : list Z) : rust (TraceState Q) :=
  s ← ktrace_init (E := E) (Q := Q) written;
  if dispatch t is Some _ then Panic ExpectFailed
  else
    '(w, _) ← Sync.init (WORKER t) (MkLockedWorker false (worker_of s));
    Ret (MkTraceState (Some (spans_of s)) (QUEUE t) w).

(** [trace::flush], with interrupts enabled or not: [try_lock] with its
    interrupt guard, and [work] under it. *)
Definition flush t e : rust (TraceState Q * bool) :=
  m ← try_get (WORKER t);
  match m with
  | None => Ret (t, e)
  | Some m =>
      let '(e, guard) := disable e in
      if worker_locked m then Ret (t, drop_guard e guard)
      else
        '(w, q) ← work (worker_inside m) (QUEUE t);
        let inside := MkGlobal (initialized (WORKER t)) (Some (MkLockedWorker false w)) in
        Ret (MkTraceState (dispatch t) q inside, drop_guard e guard)
  end.

(** What the macros of the tracing crate pass to the subscriber, if there
    is one. A span that is entered and its guard's drop. *)
Definition tell t (event : tracing_Event) : rust (TraceState Q) :=
  match dispatch t with
  | None => Ret t
  | Some spans => q ← KTrace.event (QUEUE t) event; Ret (MkTraceState (Some spans) q (WORKER t))
  end.

Definition entered t cpu (span : tracing_Attributes) : rust (TraceState Q * option SpanId) :=
  match dispatch t with
  | None => Ret (t, None)
  | Some spans =>
      '(spans, q, id) ← new_span spans (QUEUE t) cpu span;
      q ← enter q id;
      Ret (MkTraceState (Some spans) q (WORKER t), Some id)
  end.

Definition exited t cpu (guard : option SpanId) : rust (TraceState Q) :=
  match dispatch t, guard with
  | Some spans, Some id =>
      q ← exit (QUEUE t) id;
      '(spans, _) ← try_close spans cpu id;
      Ret (MkTraceState (Some spans) q (WORKER t))
  | _, _ => Ret t
  end.

(** [info!] and the other macros with a text; the callsite is where the
    macro stands. *)
Definition message_event (callsite : tracing_Metadata) (text : string) : tracing_Event :=
  MkTracingEvent callsite TCurrent [("message"%string, Some (RDebug text))].

(** * The panic handler *)

(** The texts that the handler reports: the panic, the addresses of at most
    [BACKTRACE_DEPTH] frames, and whether there were more. *)
Definition BACKTRACE_DEPTH : nat := 16.

Record PanicReport := MkPanicReport {
  panic_info : string;
  frames : list Z;
  frames_omitted : bool;
}.

Context (callsite : string -> tracing_Metadata).

Definition frame_event (frame : Z) : tracing_Event :=
  MkTracingEvent (callsite "backtrace") TCurrent
    [("message"%string, Some (RDebug "backtrace")); ("at"%string, Some (RU64 frame))].

Definition panic_events (r : PanicReport) : list tracing_Event :=
  message_event (callsite "{}") (panic_info r) :: (frame_event <$> frames r) ++
  (if frames_omitted r then [message_event (callsite "... <frames omitted>") "... <frames omitted>"] else []).

Fixpoint tell_all t (events : list tracing_Event) : rust (TraceState Q) :=
  match events with
  | [] => Ret t
  | event :: events => t ← tell t event; tell_all t events
  end.

(** [panic] up to [fatal_error], which waits for ever. *)
Definition panic_handler t cpu e (r : PanicReport) : rust (TraceState Q * bool) :=
  '(t, e) ← flush t e;
  '(t, span) ← entered t cpu (MkAttributes (callsite "panic") TCurrent []);
  t ← tell_all t (panic_events r);
  t ← exited t cpu span;
  flush t e.
End tracing.

(** * The heap *)

(** The linked_list_allocator crate: a heap over one slice of memory, and
    layouts as size and alignment. *)
Class LockedHeap (H : Type) := {
  heap_empty : H;
  init_from_slice : H -> Z -> H;
  heap_alloc : H -> Z * Z -> H * option Z;
  heap_dealloc : H -> Z -> Z * Z -> H;
}.

(** [KernelHeapAllocator]. *)
Record KernelHeap (H : Type) := MkKernelHeap { heap_inner : H; heap_root : Global AllocatorInner }.
Arguments MkKernelHeap {H}.
Arguments heap_inner {H}.
Arguments heap_root {H}.

Section heap.
Context {H : Type} {heap : LockedHeap H}.
Implicit Types (h : KernelHeap H) (layout : Z * Z).

Definition HEAP_SIZE : Z := 32768.

Definition heap_new : KernelHeap H := MkKernelHeap heap_empty global_new.

Definition heap_init h : KernelHeap H :=
  MkKernelHeap (init_from_slice (heap_inner h) HEAP_SIZE) (heap_root h).

Definition enable_expansion h (root : AllocatorInner) : rust (KernelHeap H) :=
  '(root, _) ← Sync.init (heap_root h) root; Ret (MkKernelHeap (heap_inner h) root).

(** [GlobalAlloc]; whether the allocation failed is only logged. *)
Definition alloc h layout : KernelHeap H * option Z :=
  let '(inner, res) := heap_alloc (heap_inner h) layout in
  (MkKernelHeap inner (heap_root h), res).

Definition dealloc h (ptr : Z) layout : KernelHeap H :=
  MkKernelHeap (heap_dealloc (heap_inner h) ptr layout) (heap_root h).

(** The heap does not use the root allocator: what an allocation returns is
    the same whether or not [enable_expansion] was called. *)
Lemma heap_never_expands h root h' layout :
  enable_expansion h root = Ret h' -> (alloc h' layout).2 = (alloc h layout).2.
Proof.
  unfold enable_expansion, alloc. intros E. rust_inv E. destruct x as [g v]. injection E as <-.
  simpl. by destruct (heap_alloc (heap_inner h) layout).
Qed.
End heap.

(** * The trace state is the subscriber's system *)

Section running.
Context {prof : Profile} {bits : ModularBitfield} {topology : Topology}.
Context {E Q : Type} {ser : Serializer E} {buf : ThingBuf Q E}.
Implicit Types (s : system (Q := Q)) (t : TraceState Q) (w : Worker) (e : bool)
  (tr : list (trace_call * trace_outcome)).

(** The state between [trace::init] and the end, with the worker at rest. *)
Definition running s : TraceState Q :=
  MkTraceState (Some (spans_of s)) (queue_of s)
    (MkGlobal true (Some (MkLockedWorker false (worker_of s)))).

Lemma flush_running s e cpu :
  flush (running s) e = '(s, _) ← run_trace s cpu Work; Ret (running s, e).
Proof.
  unfold flush, run_trace, running, disable. simpl.
  destruct (work _ _) as [[w q]|]; [|done]. by destruct e.
Qed.

Lemma tell_running s event cpu :
  tell (running s) event = '(s, _) ← run_trace s cpu (EventOf event); Ret (running s).
Proof. unfold tell. simpl. by destruct (KTrace.event _ _). Qed.

Lemma entered_running s cpu span :
  entered (running s) cpu span =
  '(s, o) ← run_trace s cpu (NewSpan span);
  match o with
  | NewId id => '(s, _) ← run_trace s cpu (Enter id); Ret (running s, Some id)
  | _ => Ret (running s, None)
  end.
Proof.
  unfold entered. simpl. destruct (new_span _ _ _ _) as [[[sp q] id]|]; [|done].
  cbn [mbind rust_bind run_trace queue_of]. by destruct (enter q id).
Qed.

Lemma exited_running s cpu id :
  exited (running s) cpu (Some id) =
  '(s, _) ← run_trace s cpu (Exit id); '(s, _) ← run_trace s cpu (TryClose id); Ret (running s).
Proof.
  unfold exited. simpl. destruct (exit _ _) as [q|]; [|done].
  cbn [mbind rust_bind spans_of]. by destruct (try_close _ _ _) as [[]|].
Qed.

(** ** How much the worker has counted *)

Definition counted s : Z := total_events (worker_of s) + Z.of_nat (length (queued (queue_of s))).

Lemma send_length (q q' : Q) msg :
  send q msg = Ret q' -> (length (queued q') <= S (length (queued q)))%nat.
Proof.
  unfold send. destruct (push_ref q) as [[slot commit]|] eqn:Ep.
  - intros Es. rust_inv Es. subst q'. destruct (slot_empty _ _ _ Ep) as [_ ->].
    rewrite length_app. simpl. lia.
  - intros [= <-]. lia.
Qed.

Lemma work_loop_total n w (q : Q) w' q' :
  0 <= total_events w -> work_loop n w q = Ret (w', q') ->
  0 <= total_events w' /\
  total_events w' + Z.of_nat (length (queued q')) <= total_events w + Z.of_nat (length (queued q)).
Proof.
  revert w q. induction n as [|n IH]; intros w q Hw; simpl;
    pose proof (pop_ref_oldest q) as Hpop; destruct (pop_ref q) as [[m q1]|];
    try (intros [= <- <-]; lia); try done.
  intros Es. rust_inv Es. rewrite work_event_eq in Hx. rust_inv Hx. subst x.
  assert (0 <= x0 <= total_events w + 1).
  { unfold add_usize, usize_checked in Hx0. destruct (decide (0 <= total_events w + 1 < _)); [simplify_eq; lia|].
    destruct debug_assertions; [done|]. simplify_eq. split.
    - by apply Z.mod_pos_bound.
    - apply Z.mod_le; [lia|done]. }
  apply IH in Es; simpl in *; [|lia]. rewrite Hpop. simpl. lia.
Qed.

Lemma run_trace_counted s cpu c s' o :
  0 <= total_events (worker_of s) -> run_trace s cpu c = Ret (s', o) ->
  0 <= total_events (worker_of s') /\ counted s' <= counted s + 1.
Proof.
  intros Hw Er. unfold counted. destruct (message_of c o) as [msg|] eqn:Em.
  - destruct (run_trace_sends _ _ _ _ _ _ Er Em) as (Es&->&_). apply send_length in Es. lia.
  - destruct c; try (destruct (run_trace_quiet _ _ _ _ _ Er Em) as [(?&_)|(_&->&->)]; [done|]; lia).
    cbn [run_trace] in Er. rust_inv Er. destruct x as [w q]. injection Er as <- <-.
    apply work_loop_total in Hx; simpl; lia.
Qed.

(** The call's message, if it has one, fits a slot of the queue. *)
Definition call_fits (co : trace_call * trace_outcome) : Prop :=
  forall msg, message_of co.1 co.2 = Some msg -> fits msg.

Lemma fits_quiet msg (why : panic) : fits msg -> ~ emission_panics msg why.
Proof. intros [_ E1] E2. unfold emission_panics in E2. by rewrite E1 in E2. Qed.

(** Calls that are not about the spans themselves. *)
Definition plain (c : trace_call) : Prop :=
  match c with EventOf _ | Enter _ | Exit _ | Work => True | _ => False end.

(** [s] is what [tr] made of a new system. *)
Record ran (written : list Z) tr s : Prop := {
  ran_traces : exists s0, ktrace_init written = Ret s0 /\ traces s0 tr s;
  ran_counted : 0 <= total_events (worker_of s) /\ counted s <= Z.of_nat (length tr);
}.

Lemma ran_nil written s : ktrace_init written = Ret s -> ran written [] s.
Proof.
  intros E0. destruct (init_tracks _ _ E0) as (_&Eq&Ew). split; [exists s; split; [done|constructor]|].
  unfold counted. rewrite Eq, Ew, queued_new. simpl. lia.
Qed.

Lemma traces_snoc s tr s1 cpu c o s2 :
  traces s tr s1 -> 0 <= cpu < MAX_PROCESSORS -> run_trace s1 cpu c = Ret (s2, o) ->
  traces s (tr ++ [(c, o)]) s2.
Proof.
  intros Htr Hcpu Er. induction Htr as [s|s cpu' c' o' s' tr s1 Hc' Er' Htr IH]; simpl.
  - apply (traces_cons s cpu c o s2 [] s2); [done..|constructor].
  - apply (traces_cons s cpu' c' o' s'); [done..|by apply IH].
Qed.

Lemma ran_step written tr s cpu c s' o :
  ran written tr s -> 0 <= cpu < MAX_PROCESSORS -> run_trace s cpu c = Ret (s', o) ->
  ran written (tr ++ [(c, o)]) s'.
Proof.
  intros [(s0&E0&Htr) [Hp Hc]] Hcpu Er. destruct (run_trace_counted _ _ _ _ _ Hp Er). split.
  - exists s0. split; [done|]. by eapply traces_snoc.
  - rewrite length_app. simpl. lia.
Qed.

(** Such a call returns. *)
Lemma ran_plain written tr s cpu c :
  ran written tr s -> 0 <= cpu < MAX_PROCESSORS -> call_fits (c, Done) -> plain c ->
  Z.of_nat (length tr) < usize_bound ->
  exists s', run_trace s cpu c = Ret (s', Done) /\ ran written (tr ++ [(c, Done)]) s'.
Proof.
  intros Hr Hcpu Hq Hc Hlen. pose proof Hr as [(s0&E0&Htr) [Hp Hcnt]].
  destruct (init_tracks _ _ E0) as [Ht _]. destruct (traces_refine _ _ _ _ _ Htr Ht) as (a&tb&_&Ht1).
  pose proof (run_trace_ok s a tb cpu c Ht1 Hcpu) as H.
  destruct (run_trace s cpu c) as [[s' o]|why] eqn:Er.
  - assert (o = Done) as ->.
    { destruct H as (a'&t'&Hs&_). destruct c; inversion Hs; done. }
    exists s'. split; [done|]. by eapply ran_step.
  - exfalso. destruct c; try done; try (destruct H as (msg&Em&Hm); by eapply fits_quiet; [apply Hq|]).
    apply H. unfold counted in Hcnt. lia.
Qed.

(** ** The panic handler *)

Context (callsite : string -> tracing_Metadata).
Implicit Types (r : PanicReport) (cs : list (trace_call * trace_outcome)).

Definition panic_span : tracing_Attributes := MkAttributes (callsite "panic") TCurrent [].

Definition event_call (event : tracing_Event) : trace_call * trace_outcome := (EventOf event, Done).

(** What the handler has the subscriber do between its two flushes, up to
    the closing of its span. *)
Definition panic_calls (id : SpanId) r : list (trace_call * trace_outcome) :=
  (NewSpan panic_span, NewId id) :: (Enter id, Done) ::
  (event_call <$> panic_events callsite r) ++ [(Exit id, Done)].

(** [cs] leads from [s0] to [s], after [tr]. *)
Record goes (written : list Z) tr s0 cs s : Prop := {
  goes_ran : ran written (tr ++ cs) s;
  goes_traces : traces s0 cs s;
}.

Lemma plain_spans s cpu c s' o : plain c -> run_trace s cpu c = Ret (s', o) -> spans_of s' = spans_of s.
Proof.
  intros Hc Er. destruct c; try done; cbn [run_trace] in Er; rust_inv Er;
    [by simplify_eq/=..|]. destruct x. by simplify_eq/=.
Qed.

Lemma ran_tracks written tr s : ran written tr s -> exists a tb, tracks (spans_of s) a tb.
Proof.
  intros [(s0&E0&Htr) _]. destruct (init_tracks _ _ E0) as [Ht _].
  destruct (traces_refine _ _ _ _ _ Htr Ht) as (a&tb&_&?). by exists a, tb.
Qed.

Lemma goes_step written tr s0 cs s cpu c s' o :
  goes written tr s0 cs s -> 0 <= cpu < MAX_PROCESSORS -> run_trace s cpu c = Ret (s', o) ->
  goes written tr s0 (cs ++ [(c, o)]) s'.
Proof.
  intros [Hr Ht] Hcpu Er. split.
  - rewrite app_assoc. by eapply ran_step.
  - by eapply traces_snoc.
Qed.

Lemma goes_plain written tr s0 cs s cpu c :
  goes written tr s0 cs s -> 0 <= cpu < MAX_PROCESSORS -> call_fits (c, Done) -> plain c ->
  Z.of_nat (length tr + length cs) < usize_bound ->
  exists s', run_trace s cpu c = Ret (s', Done) /\ goes written tr s0 (cs ++ [(c, Done)]) s' /\
    spans_of s' = spans_of s.
Proof.
  intros Hg Hcpu Hf Hc Hlen. destruct (ran_plain _ _ _ cpu c (goes_ran _ _ _ _ _ Hg) Hcpu Hf Hc)
    as (s'&E1&_); [by rewrite length_app|].
  exists s'. split; [done|]. split; [by eapply goes_step|by eapply plain_spans].
Qed.

Lemma goes_events written tr s0 cs s cpu events :
  goes written tr s0 cs s -> 0 <= cpu < MAX_PROCESSORS -> Forall call_fits (event_call <$> events) ->
  Z.of_nat (length tr + length cs + length events) < usize_bound ->
  exists s', tell_all (running s) events = Ret (running s') /\
    goes written tr s0 (cs ++ (event_call <$> events)) s' /\ spans_of s' = spans_of s.
Proof.
  revert cs s. induction events as [|ev events IH]; intros cs s Hg Hcpu Hf Hlen; simpl in *.
  { exists s. by rewrite app_nil_r. }
  apply Forall_cons in Hf as [Hf1 Hf].
  destruct (goes_plain _ _ _ _ _ cpu (EventOf ev) Hg Hcpu Hf1 I) as (s1&E1&Hg1&Es1); [lia|].
  destruct (IH _ _ Hg1 Hcpu Hf) as (s2&E2&Hg2&Es2); [rewrite length_app; simpl; lia|].
  exists s2. rewrite (tell_running _ _ cpu), E1. cbn [mbind rust_bind]. rewrite E2.
  rewrite <-app_assoc in Hg2. split; [done|]. split; [done|congruence].
Qed.

(** A message is at most one call. *)
Lemma short_events n events : (n + length events <= capacity)%nat ->
  forall cs, short_bursts (n + length events) cs -> short_bursts n ((event_call <$> events) ++ cs).
Proof.
  revert n. induction events as [|ev events IH]; intros n Hn cs Hcs; simpl in *.
  - by rewrite Nat.add_0_r in Hcs.
  - split; [lia|]. apply IH; [lia|]. by replace (S n + length events)%nat with (n + S (length events))%nat by lia.
Qed.

Lemma length_panic_events r :
  (length (frames r) <= BACKTRACE_DEPTH)%nat -> (length (panic_events callsite r) <= 18)%nat.
Proof.
  unfold panic_events, BACKTRACE_DEPTH. intros Hfr. simpl. rewrite length_app, length_fmap.
  destruct (frames_omitted r); simpl; lia.
Qed.

Lemma calls_fit tr : Forall call_fits tr -> Forall fits (messages tr).
Proof.
  unfold messages. induction 1 as [|[c o] tr Hc _ IH]; [done|]. simpl.
  destruct (message_of c o) as [msg|] eqn:Em; simpl; [|done]. constructor; [by apply Hc|done].
Qed.

(** A call without a message adds nothing. *)
Lemma short_app n cs id o : short_bursts n cs -> short_bursts n (cs ++ [(TryClose id, o)]).
Proof.
  revert n. induction cs as [|[c o'] cs IH]; intros n; [by destruct o|]. simpl.
  destruct c; simpl; try apply IH; destruct o'; simpl; naive_solver.
Qed.

Lemma panic_short id r :
  (length (frames r) <= BACKTRACE_DEPTH)%nat -> (BACKTRACE_DEPTH + 5 <= capacity)%nat ->
  short_bursts 0 (panic_calls id r).
Proof.
  intros Hfr%length_panic_events Hcap. unfold BACKTRACE_DEPTH in Hcap.
  unfold panic_calls. cbn [short_bursts message_of]. split; [lia|]. split; [lia|].
  apply (short_events 2); [lia|]. cbn [short_bursts message_of]. split; [lia|done].
Qed.

(** The worker is flushed: everything queued has been written. *)
Lemma flush_ok written tr s cpu e :
  ran written tr s -> 0 <= cpu < MAX_PROCESSORS -> Z.of_nat (length tr) < usize_bound ->
  exists s', flush (running s) e = Ret (running s', e) /\ ran written (tr ++ [(Work, Done)]) s' /\
    spans_of s' = spans_of s /\ queued (queue_of s') = [] /\
    sent_bytes s' = sent_bytes s ++ concat (data <$> queued (queue_of s)).
Proof.
  intros Hr Hcpu Hlen. destruct (ran_plain _ _ _ cpu Work Hr Hcpu) as (s'&E1&Hr'); [by intros msg [=]|done..|].
  exists s'. rewrite (flush_running _ _ cpu), E1. split; [done|]. split; [done|].
  split; [by apply (plain_spans _ cpu Work _ Done)|]. unfold sent_bytes.
  by destruct (run_trace_quiet _ _ _ _ _ E1 eq_refl) as [(_&->&->)|[? _]].
Qed.

(** The handler between its flushes. *)
Lemma panic_report_ok written tr s cpu r :
  ran written tr s -> 0 <= cpu < MAX_PROCESSORS -> queued (queue_of s) = [] ->
  (forall id, Forall call_fits (panic_calls id r)) ->
  (length (frames r) <= BACKTRACE_DEPTH)%nat -> (BACKTRACE_DEPTH + 5 <= capacity)%nat ->
  Z.of_nat (length tr + 30) < usize_bound ->
  match ('(t, span) ← entered (running s) cpu panic_span;
         t ← tell_all t (panic_events callsite r); exited t cpu span) with
  | Ret t => exists s' id more, t = running s' /\ ran written (tr ++ more) s' /\
      (length more <= 30)%nat /\
      sent_bytes s' ++ concat (data <$> queued (queue_of s')) =
      sent_bytes s ++ concat (encoded <$> messages (panic_calls id r))
  | Panic why => new_span_stops (spans_of s) cpu panic_span why \/
      exists q sl q' id, new_span (spans_of s) q cpu panic_span = Ret (sl, q', id) /\
        2 ^ 46 <= tag (global_free_list sl)
  end.
Proof.
  intros Hr Hcpu Hq Hf Hfr Hcap Hlen.
  pose proof (length_panic_events r Hfr) as Hev.
  destruct (ran_tracks _ _ _ Hr) as (a&tb&Ht1).
  assert (Hg : goes written tr s [] s) by (split; [by rewrite app_nil_r|constructor]).
  rewrite entered_running. pose proof (run_trace_ok s a tb cpu (NewSpan panic_span) Ht1 Hcpu) as Hnew.
  destruct (run_trace s cpu (NewSpan panic_span)) as [[s1 o]|why] eqn:E1; cbn [mbind rust_bind]; [|by left].
  destruct Hnew as (a1&tb1&Hstep&_).
  assert (exists id, o = NewId id) as [id ->] by (inversion Hstep; by eexists).
  pose proof (goes_step _ _ _ _ _ _ _ _ _ Hg Hcpu E1) as Hg1. specialize (Hf id).
  pose proof Hf as Hall. unfold panic_calls in Hf. apply Forall_cons in Hf as [_ Hf].
  apply Forall_cons in Hf as [Hf1 [Hf2 [Hf3 _]%Forall_cons]%Forall_app].
  destruct (goes_plain _ _ _ _ _ cpu (Enter id) Hg1 Hcpu Hf1 I) as (s2&E2&Hg2&Es2); [simpl; lia|].
  rewrite E2. cbn [mbind rust_bind].
  destruct (goes_events _ _ _ _ _ cpu _ Hg2 Hcpu Hf2) as (s3&E3&Hg3&Es3); [rewrite !length_app; cbn [length]; lia|].
  rewrite E3. cbn [mbind rust_bind]. rewrite exited_running.
  destruct (goes_plain _ _ _ _ _ cpu (Exit id) Hg3 Hcpu Hf3 I) as (s4&E4&Hg4&Es4).
  { rewrite !length_app, length_fmap. cbn [length]. lia. }
  rewrite E4. cbn [mbind rust_bind]. destruct (ran_tracks _ _ _ (goes_ran _ _ _ _ _ Hg4)) as (a4&tb4&Ht4).
  pose proof (run_trace_ok s4 a4 tb4 cpu (TryClose id) Ht4 Hcpu) as Hclose.
  destruct (run_trace s4 cpu (TryClose id)) as [[s5 o]|why] eqn:E5; cbn [mbind rust_bind].
  - pose proof (goes_step _ _ _ _ _ _ _ _ _ Hg4 Hcpu E5) as [Hr5 Ht5].
    assert (Ecs : ((([] ++ [(NewSpan panic_span, NewId id)]) ++ [(Enter id, Done)]) ++
      (event_call <$> panic_events callsite r)) ++ [(Exit id, Done)] = panic_calls id r).
    { unfold panic_calls. by rewrite <-app_assoc. }
    rewrite Ecs in Hr5, Ht5. exists s5, id, (panic_calls id r ++ [(TryClose id, o)]).
    assert (Em : messages (panic_calls id r ++ [(TryClose id, o)]) = messages (panic_calls id r)).
    { unfold messages. rewrite omap_app. simpl. by rewrite app_nil_r. }
    destruct (traces_stream _ _ _ (sent_bytes s) [] Ht5) as (msgs&_&Hs5&Hb).
    { rewrite Em. by apply calls_fit. }
    { unfold streams. by rewrite Hq. }
    rewrite Hq, Em in Hb. rewrite Hb in Hs5; [|by apply short_app, panic_short].
    split; [done|]. split; [done|]. split; [|exact Hs5].
    unfold panic_calls. rewrite length_app. cbn [length]. rewrite length_app, length_fmap. simpl in *. lia.
  - right. cbn [run_trace] in E1.
    destruct (new_span _ _ _ _) as [[[sl q'] id']|] eqn:En; cbn [mbind rust_bind] in E1; [|done].
    injection E1 as <- <-. exists (queue_of s), sl, q', id'. split; [done|]. simpl in *. congruence.
Qed.

(** While somebody else holds the worker nothing that the handler does
    touches it. *)
Lemma flush_locked t w e :
  WORKER t = MkGlobal true (Some (MkLockedWorker true w)) -> flush t e = Ret (t, e).
Proof. intros Ew. unfold flush. rewrite Ew. simpl. by destruct e. Qed.

Lemma tell_all_worker t events t' : tell_all t events = Ret t' -> WORKER t' = WORKER t.
Proof.
  revert t. induction events as [|ev events IH]; intros t Et; cbn [tell_all] in Et; [by injection Et as <-|].
  rust_inv Et. rewrite (IH _ Et). unfold tell in Hx. destruct (dispatch t); rust_inv Hx; by subst.
Qed.

Lemma entered_worker t cpu span t' id : entered t cpu span = Ret (t', id) -> WORKER t' = WORKER t.
Proof.
  unfold entered. destruct (dispatch t) as [spans|]; intros Et; rust_inv Et; [|by simplify_eq].
  destruct x as [[sp q] i]. rust_inv Et. by simplify_eq/=.
Qed.

Lemma exited_worker t cpu id t' : exited t cpu id = Ret t' -> WORKER t' = WORKER t.
Proof.
  unfold exited. destruct (dispatch t) as [spans|], id as [id|]; intros Et; rust_inv Et; try by subst.
  destruct x0 as [sp b]. rust_inv Et. by subst.
Qed.

(** C29. The panic handler, in a kernel that has run [tr] so far, fewer than
    [2^64 - 40] calls, with a queue of at least 21 slots, for a panic whose
    backtrace has at most 16 frames and whose messages all fit their slots.
    If the worker is at rest, one of three things happens. The handler
    returns to the final loop with interrupts as they were, and by then the
    serial port has sent what was queued, the panic's message, every frame
    of the backtrace and the note about omitted ones, in order and
    completely. Or the report is lost: no span can be had for it, because no
    slot is within reach of the processor, in which case [new_span] loops for
    ever, or because a slot has used up its generations. Or, with the report
    already queued but not sent, closing the span panics because the counter
    of the slab's free list has run out. If the panic happened while the
    worker's lock was held and the handler comes to its end, it has not
    touched its holder's state, and interrupts are as they were. *)
Theorem panic_handler_spec written tr s cpu e r :
  ran written tr s -> 0 <= cpu < MAX_PROCESSORS ->
  (forall id, Forall call_fits (panic_calls id r)) ->
  (length (frames r) <= BACKTRACE_DEPTH)%nat -> (BACKTRACE_DEPTH + 5 <= capacity)%nat ->
  Z.of_nat (length tr + 40) < usize_bound ->
  match panic_handler callsite (running s) cpu e r with
  | Ret (t, e') => e' = e /\ exists s' id, t = running s' /\ queued (queue_of s') = [] /\
      sent_bytes s' = sent_bytes s ++ concat (data <$> queued (queue_of s)) ++
        concat (encoded <$> messages (panic_calls id r))
  | Panic why => new_span_stops (spans_of s) cpu panic_span why \/
      exists q sl q' id, new_span (spans_of s) q cpu panic_span = Ret (sl, q', id) /\
        2 ^ 46 <= tag (global_free_list sl)
  end /\
  forall t w t' e', WORKER t = MkGlobal true (Some (MkLockedWorker true w)) ->
    panic_handler callsite t cpu e r = Ret (t', e') -> WORKER t' = WORKER t /\ e' = e.
Proof.
  intros Hr Hcpu Hf Hfr Hcap Hlen. split.
  - destruct (flush_ok _ _ _ _ e Hr Hcpu) as (s1&E1&Hr1&Es1&Hq1&Hb1); [lia|].
    unfold panic_handler. rewrite E1. cbn [mbind rust_bind].
    pose proof (panic_report_ok _ _ _ _ r Hr1 Hcpu Hq1 Hf Hfr Hcap) as Hrep. rewrite Es1 in Hrep.
    unfold panic_span in *. specialize (Hrep ltac:(rewrite length_app; simpl; lia)).
    destruct (entered (running s1) cpu _) as [[t span]|why]; cbn [mbind rust_bind] in *; [|done].
    destruct (tell_all t _) as [t1|why]; cbn [mbind rust_bind] in *; [|done].
    destruct (exited t1 cpu span) as [t2|why]; cbn [mbind rust_bind] in *; [|done].
    destruct Hrep as (s2&id&more&->&Hr2&Hmore&Hb2).
    destruct (flush_ok _ _ _ _ e Hr2 Hcpu) as (s3&E3&_&_&Hq3&Hb3);
      [rewrite !length_app; simpl; lia|].
    rewrite E3. split; [done|]. exists s3, id. split; [done|]. split; [done|].
    by rewrite Hb3, Hb2, Hb1, <-app_assoc.
  - intros t w t' e' Ew Ep. unfold panic_handler in Ep. rewrite (flush_locked _ w) in Ep by done.
    rust_inv Ep. destruct x as [t1 e1]. injection Hx as <- <-. rust_inv Ep. destruct x as [t1 span].
    rust_inv Ep. apply entered_worker in Hx. apply tell_all_worker in Hx0. apply exited_worker in Hx1.
    rewrite (flush_locked _ w) in Ep by congruence. injection Ep as <- <-. split; [congruence|done].
Qed.
End running.

(** * The kernel's state *)

(** The statics of the kernel and of its libraries, and the processor. *)
Record Kernel (Pic Idt Cpu Q H : Type) := MkKernel {
  k_machine : Machine Pic Idt;
  k_cpu : Cpu;
  k_interrupts : bool;
  k_trace : TraceState Q;
  k_heap : KernelHeap H;
  k_access : Global MemoryAccess;
  k_allocator : Global AllocatorInner;
}.
Arguments MkKernel {Pic Idt Cpu Q H}.
Arguments k_machine {Pic Idt Cpu Q H}.
Arguments k_cpu {Pic Idt Cpu Q H}.
Arguments k_interrupts {Pic Idt Cpu Q H}.
Arguments k_trace {Pic Idt Cpu Q H}.
Arguments k_heap {Pic Idt Cpu Q H}.
Arguments k_access {Pic Idt Cpu Q H}.
Arguments k_allocator {Pic Idt Cpu Q H}.


Section kernel.
Context {prof : Profile} {modular : ModularBitfield} {topology : Topology}.
Context {E Q : Type} {ser : Serializer E} {buf : ThingBuf Q E}.
Context {Pic Idt Cpu H : Type}.
Context (callsite : string -> tracing_Metadata).

Abbreviation K := (Kernel Pic Idt Cpu Q H).

(** Code that runs in the kernel: it changes the state or panics. *)
Definition Boot (A : Type) : Type := K -> rust (A * K).

#[local] Instance boot_ret : MRet Boot := fun A a k => Ret (a, k).
#[local] Instance boot_bind : MBind Boot := fun A B f m k => '(a, k) ← m k; f a k.

Definition with_trace {A} (f : TraceState Q -> rust (TraceState Q * A)) : Boot A := fun k =>
  '(t, a) ← f (k_trace k);
  Ret (a, MkKernel (k_machine k) (k_cpu k) (k_interrupts k) t (k_heap k) (k_access k) (k_allocator k)).

Definition flush_traces : Boot unit := fun k =>
  '(t, e) ← flush (k_trace k) (k_interrupts k);
  Ret (tt, MkKernel (k_machine k) (k_cpu k) e t (k_heap k) (k_access k) (k_allocator k)).

(** [info!] and [debug!]; [template] tells the places apart. *)
Definition tell_event (e : tracing_Event) : Boot unit :=
  with_trace (fun t => t ← tell t e; Ret (t, tt)).

Definition log (template text : string) : Boot unit := tell_event (message_event (callsite template) text).

(** Text that is only formatted if there is a subscriber. *)
Definition shown (text : rust string) : Boot string := fun k =>
  match dispatch (k_trace k) with
  | None => Ret (""%string, k)
  | Some _ => text ← text; Ret (text, k)
  end.

(** A span is entered, its guard is dropped. *)
Definition enter_span_with (name : string) (values : list (string * recorded)) : Boot (option SpanId) :=
  with_trace (fun t => entered t x86_64_current_processor (MkAttributes (callsite name) TCurrent values)).

Definition enter_span (name : string) : Boot (option SpanId) := enter_span_with name [].

Definition leave_span (guard : option SpanId) : Boot unit :=
  with_trace (fun t => t ← exited t x86_64_current_processor guard; Ret (t, tt)).

(** A block, or a whole function, with a guard that lives as long. *)
Definition in_span {A} (name : string) (values : list (string * recorded)) (body : Boot A) : Boot A :=
  _span ← enter_span_with name values;
  a ← body;
  leave_span _span;;
  mret a.

(** Code that does not use the state; [expect] and [unwrap]. *)
Definition in_boot {A} (m : rust A) : Boot A := fun k => a ← m; Ret (a, k).

Definition boot_expect {A} (o : option A) : Boot A := in_boot (expect o).

Definition ok_of {A B} (r : result A B) : option A := match r with Ok a => Some a | Err _ => None end.

(** What the subscriber is called with. *)
Definition text_call (template text : string) : trace_call * trace_outcome :=
  (EventOf (message_event (callsite template) text), Done).

Definition work_call : trace_call * trace_outcome := (Work, Done).

(** The current processor is one of the topology's. *)
Definition boot_processor : Prop := 0 <= x86_64_current_processor < MAX_PROCESSORS.

Lemma bind_Boot {A B} (m : Boot A) (f : A -> Boot B) (k : K) : (m ≫= f) k = '(a, k) ← m k; f a k.
Proof. done. Qed.
End kernel.

(** * A kernel to run on *)

(** A heap that hands out what it was given from the start on, and never
    reclaims anything. *)
Definition bump_heap : LockedHeap (Z * Z) := {|
  heap_empty := (0, 0);
  init_from_slice _ n := (0, n);
  heap_alloc h layout :=
    let '(used, n) := h in
    if decide (used + layout.1 <= n) then ((used + layout.1, n), Some used) else (h, None);
  heap_dealloc h _ _ := h;
|}.

Section witness.
#[local] Existing Instance lsb_first.
#[local] Existing Instance dev_profile.
#[local] Existing Instance x86_64_topology.
#[local] Existing Instance KTrace.list_queue.
#[local] Existing Instance KTrace.toy_serializer.

#[local] Definition place (_ : string) : tracing_Metadata := MkTracingMetadata "event" "kernel" INFO None None.

Lemma toy_fits (co : trace_call * trace_outcome) : call_fits (E := unit) co.
Proof.
  intros msg Em. destruct co as [[] []]; simpl in Em; try discriminate Em; injection Em as <-;
    (split; [vm_compute; lia|reflexivity]).
Qed.

#[local] Definition traced_system : system (Q := list (KTrace.Message unit)) :=
  match ktrace_init [] with Ret s => s | Panic _ => MkSystem (new_slab 1) [] (MkWorker [] 0) end.

Lemma traced_system_ran : ran [] [] traced_system.
Proof. apply ran_nil. vm_compute. reflexivity. Qed.

#[local] Definition boom : PanicReport := MkPanicReport "boom" [0x1000; 0x2000] false.

Lemma panic_handler_spec_witness :
  exists t s id, panic_handler place (running traced_system) 0 true boom = Ret (t, true) /\ t = running s /\
    sent_bytes s = sent_bytes traced_system ++ concat (encoded <$> messages (panic_calls place id boom)).
Proof.
  destruct (panic_handler_spec place [] [] traced_system 0 true boom traced_system_ran ltac:(done)) as [Hp _];
    [intros id; apply Forall_forall; intros co _; apply toy_fits|unfold BACKTRACE_DEPTH; simpl; lia|
     change (21 <= 64)%nat; lia|vm_compute; reflexivity|].
  destruct (panic_handler place (running traced_system) 0 true boom) as [[t e]|w] eqn:E1.
  - destruct Hp as (->&s&id&Et&_&Hb). exists t, s, id. split; [reflexivity|]. split; [exact Et|].
    rewrite Hb. reflexivity.
  - exfalso. vm_compute in E1. discriminate E1.
Defined.
End witness.
