(* ===== verification/Start.v ===== *)
(** Starting the kernel: [start] of [arch/x86_64/entry.rs] with everything it
    calls, the spans and messages of [root_allocator::init] and
    [apic::init_local] included, and [kmain] ([main.rs]) up to its endless
    loop. *)
From stdpp Require Import sorting.
From S2P Require Import Prelude Address Bitfields Topology Slot FreeLists Slab SlabSpec SlabLocal Sync Proto.
From S2P Require Import Decoder KTrace KTraceLocal SpanGenerations IntrusiveList RootAllocator Blocks.
From S2P Require Import RootAllocatorLinks RootAllocatorSpec RootAllocatorDisplay RootAllocatorInit.
From S2P Require Import Apic Hal Entry Display Console Boot.

Record BootInfo := MkBootInfo {
  version_major : Z;
  version_minor : Z;
  version_patch : Z;
  pre_release : bool;
  memory_regions : list MemoryRegion;
  physical_memory_offset : option Z;
  framebuffer : option FrameBuffer;
}.

(** [BootArgs]: references to statics are their contents. *)
Record BootArgs := MkBootArgs {
  args_display : option FrameBuffer;
  args_memory_access : MemoryAccess;
  args_root_allocator : AllocatorInner;
  args_interrupt_controller : Controller;
}.

(** The derived [Debug] of [mm::map::Kind]. *)
Definition debug_Kind (kind : Kind) : string :=
  match kind with
  | Usable => "Usable"
  | Reserved => "Reserved"
  | AcpiTables => "AcpiTables"
  | AcpiNonVolatile => "AcpiNonVolatile"
  | Persistent => "Persistent"
  | Uefi typ => "Uefi(" +:+ pretty typ +:+ ")"
  | Bios typ => "Bios(" +:+ pretty typ +:+ ")"
  end.

(** * The code *)

Section start.
Context {prof : Profile} {modular : ModularBitfield} {topology : Topology}.
Context {E Q : Type} {ser : Serializer E} {buf : ThingBuf Q E}.
Context {bits : BitArray} {Pic Idt Cpu : Type}.
Context {device : Pic8259 Pic} {table : DescriptorTable Idt} {apic : LocalApic Cpu}.
Context {Uart : Type} {uart : Uart16550 Uart} {H : Type} {heap : LockedHeap H}.
Context (callsite : string -> tracing_Metadata) (debug_kind : MemoryRegionKind -> string).
Context (sort_by_start : list PageFrameRange -> list PageFrameRange) (run_size : Z).

Abbreviation K := (Kernel Pic Idt Cpu Q H).
Abbreviation Code := (Boot (Q := Q) (Pic := Pic) (Idt := Idt) (Cpu := Cpu) (H := H)).

#[local] Existing Instance boot_ret.
#[local] Existing Instance boot_bind.

Definition setup_heap : Code unit := fun k =>
  Ret (tt, MkKernel (k_machine k) (k_cpu k) (k_interrupts k) (k_trace k) (heap_init (k_heap k)) (k_access k) (k_allocator k)).

Definition setup_interrupts : Code Controller := fun k =>
  '(m, ic) ← interrupts_init (k_machine k);
  Ret (ic, MkKernel m (k_cpu k) (k_interrupts k) (k_trace k) (k_heap k) (k_access k) (k_allocator k)).

Definition setup_trace : Code unit :=
  with_trace (fun t => t ← trace_init t (transmitted (serial_new (uart := uart) 0x3f8)); Ret (t, tt)).

(** [MemoryAccess::init]. *)
Definition setup_access (base : Z) : Code MemoryAccess := fun k =>
  '(a, access) ← Sync.init (k_access k) (MkMemoryAccess base);
  Ret (access, MkKernel (k_machine k) (k_cpu k) (k_interrupts k) (k_trace k) (k_heap k) a (k_allocator k)).

(** ** [root_allocator::init]

    [RootAllocator.build] is [Allocator::build] without its spans and
    messages; this is all of it. *)
Definition range_event (template text : string) : tracing_Event :=
  MkTracingEvent (callsite template) TCurrent
    [("message", Some (RDebug template)); ("range", Some (RDebug text))]%string.

Definition range_text (r : PageFrameRange) : rust string :=
  a ← address_range (A := Address.PhysicalAddress) r;
  display_range display_address a.

Definition log_range (template : string) (r : PageFrameRange) : Code unit :=
  text ← shown (range_text r);
  tell_event (range_event template text).

(** The loop over the regions; the guard of its span lives until the end of
    an iteration. *)
Definition region_span : string := "Initializing allocatable region".

Fixpoint collect_regions (initial_tracking : PageFrameRange) (memory_map : list Region)
    : Code (list PageFrameRange) :=
  match memory_map with
  | [] => mret []
  | region :: memory_map =>
      if usable region then
        text ← shown (display_region debug_Kind region);
        range ← in_span callsite region_span [("range"%string, RDebug text)]
                  (in_boot (region_pages initial_tracking region));
        ranges ← collect_regions initial_tracking memory_map;
        mret (range :: ranges)
      else collect_regions initial_tracking memory_map
  end.

Definition runs_text (range : PageFrameRange) : rust string :=
  bytes ← size_bytes range;
  text ← display_range display_frame range;
  Ret ("Allocating " +:+ pretty (bytes / run_size) +:+ " runs in " +:+ text).

Definition state_message (text : string) : string :=
  "Post-initialization allocator state:" +:+ line_feed +:+ text.

(** The closure that gets the scratch memory. *)
Definition build_with (initial_tracking : PageFrameRange) (memory_map : list Region) (access : MemoryAccess)
    : Code (result AllocatorInner Error) :=
  ranges ← collect_regions initial_tracking memory_map;
  let ranges := sort_by_start ranges in
  ranges ← in_boot (combine_loop (length ranges) ranges 1);
  text ← shown (runs_text initial_tracking);
  log callsite "Allocating {} runs in {}" text;;
  r ← in_boot (init_tracking_space run_size new_allocator access initial_tracking);
  match r with
  | (_, Err e) => mret (Err e)
  | (s, Ok _) =>
      s ← in_boot (add_allocatable_ranges s ranges);
      text ← shown (display_state s);
      log callsite "Post-initialization allocator state" (state_message text);;
      mret (Ok s)
  end.

(** Nothing is undone when [with_memory]'s closure returns. *)
Definition build_allocator (access : MemoryAccess) (memory_map : list Region) (reserved : list PageFrameRange)
    : Code (result AllocatorInner Error) :=
  in_span callsite "init" [] (
    found ← in_boot (find_scratch reserved memory_map);
    match found with
    | None => mret (Err (MkError InsufficientMemory))
    | Some (scratch, initial_tracking) =>
        log_range "Scratch space" scratch;;
        log_range "Initial tracking pages" initial_tracking;;
        mapped ← in_boot (with_memory access scratch (fun access _ _ => Ret access));
        match mapped with
        | Err e => mret (Err e)
        | Ok access => build_with initial_tracking memory_map access
        end
    end).

Definition init_allocator (s : AllocatorInner) : Code AllocatorInner := fun k =>
  '(g, s) ← Sync.init (k_allocator k) s;
  Ret (s, MkKernel (k_machine k) (k_cpu k) (k_interrupts k) (k_trace k) (k_heap k) (k_access k) g).

Definition setup_allocator (access : MemoryAccess) (memory_map : list Region)
    (reserved : list PageFrameRange) : Code (result AllocatorInner Error) :=
  built ← build_allocator access memory_map reserved;
  match built with
  | Err e => mret (Err e)
  | Ok s => s ← init_allocator s; mret (Ok s)
  end.

Definition setup_expansion (root : AllocatorInner) : Code unit := fun k =>
  h ← enable_expansion (k_heap k) root;
  Ret (tt, MkKernel (k_machine k) (k_cpu k) (k_interrupts k) (k_trace k) h (k_access k) (k_allocator k)).

(** ** [interrupts::init_local]

    [Apic.apic_init_local] is [apic::init_local] without its span and
    messages; this is all of it. *)
Definition on_cpu {A} (f : Cpu -> rust (A * Cpu)) : Code A := fun k =>
  '(a, cpu) ← f (k_cpu k);
  Ret (a, MkKernel (k_machine k) cpu (k_interrupts k) (k_trace k) (k_heap k) (k_access k) (k_allocator k)).

Definition read_register (reg : Z) : Code Z := on_cpu (fun cpu => v ← msr_read reg cpu; Ret (v, cpu)).
Definition write_register (reg v : Z) : Code unit := on_cpu (fun cpu => cpu ← msr_write reg cpu v; Ret (tt, cpu)).

Definition setup_apic : Code unit :=
  in_span callsite "init_local" [] (
    supported ← on_cpu (fun cpu => Ret (supports_x2apic cpu, cpu));
    in_boot (if supported : bool then Ret tt else Panic PanicCalled);;
    base ← read_register IA32_APIC_BASE_MSR;
    log callsite "Initial xAPIC state" (initial_state_message base);;
    write_register IA32_APIC_BASE_MSR (set_x2apic_enabled (set_apic_enabled base true) true);;
    svr ← read_register IA32_SVR_MSR;
    write_register IA32_SVR_MSR
      (set_spurious_vector (set_svr_enabled svr true) SPURIOUS_INTERRUPT_VECTOR);;
    log callsite "Enabled x2APIC mode" "Enabled x2APIC mode").

Definition load_table : Code Idt := fun k => idt ← global_get (idt_static (k_machine k)); Ret (idt, k).

Definition setup_local : Code unit :=
  setup_apic;;
  _ ← load_table;
  mret tt.

(** ** [start] *)

Definition region_line (text : string) (k : K) : rust K :=
  '(_, k) ← log callsite "region" text k; Ret k.

Definition report_memory (regions : list MemoryRegion) : Code unit := fun k =>
  k ← report_regions debug_kind region_line regions k; Ret (tt, k).

Definition version_text (info : BootInfo) : string :=
  "Booting from bootloader v" +:+ pretty (version_major info) +:+ "." +:+ pretty (version_minor info) +:+ "." +:+
  pretty (version_patch info) +:+ (if pre_release info then " (prerelease)" else "").

(** The part of [start] that reports what the bootloader passed. *)
Definition announce (info : BootInfo) : Code unit :=
  flush_traces;;
  log callsite "Booting" (version_text info);;
  log callsite "Memory Regions" "Memory Regions:";;
  flush_traces;;
  report_memory (memory_regions info);;
  flush_traces;;
  log callsite "HERE" "HERE!";;
  flush_traces.

(** A message between two flushes. *)
Definition milestone (text : string) : Code unit :=
  flush_traces;;
  log callsite text text;;
  flush_traces.

Definition complete_text : string := "Platform-specific initialization complete, entering kmain".

(** [start] up to the call of [kmain]: what comes before its span, and what
    comes behind. *)
Definition start_in_span (info : BootInfo) (ic : Controller) : Code BootArgs :=
  announce info;;
  offset ← boot_expect (physical_memory_offset info);
  access ← setup_access offset;
  milestone "Before allocator init";;
  root ← setup_allocator access (Region_from <$> memory_regions info) [];
  root ← boot_expect (ok_of root);
  milestone "After allocator init";;
  setup_expansion root;;
  setup_local;;
  log callsite complete_text complete_text;;
  flush_traces;;
  mret (MkBootArgs (framebuffer info) access root ic).

Definition start (info : BootInfo) : Code BootArgs :=
  setup_heap;;
  ic ← setup_interrupts;
  setup_trace;;
  flush_traces;;
  _ ← enter_span callsite "start";
  start_in_span info ic.

(** [kmain] up to its loop, which waits for interrupts for ever; [address]
    is where [kmain] is linked. [writeln!] hands the console its text in
    pieces. *)
Context {renderer : TextRenderer}.

Fixpoint write_pieces (c : Console) (pieces : list (list Z)) : rust Console :=
  match pieces with [] => Ret c | p :: pieces => c ← write c p; write_pieces c pieces end.

Definition greet (display : FrameBuffer) (pieces : list (list Z)) : rust Console :=
  console ← console_new display;
  console ← clear console;
  write_pieces console pieces.

Definition kmain (address : Z) (pieces : list (list Z)) (args : BootArgs) : Code Console :=
  _ ← enter_span_with callsite "kmain" [("at"%string, RU64 address)];
  flush_traces;;
  display ← boot_expect (args_display args);
  in_boot (greet display pieces).

(** * What code reports *)

Implicit Types (k ρ : K) (s : system (Q := Q)) (tr cs : list (trace_call * trace_outcome))
  (opened : gmap Idx SpanState).

(** The bytes that the port has sent before tracing starts. *)
Definition port_written : list Z := transmitted (serial_new (uart := uart) 0x3f8).

(** Flushes and messages in order, and spans with what is reported inside
    of them. *)
Inductive report :=
  | Nothing
  | Flushed (next : report)
  | Told (e : tracing_Event) (next : report)
  | Spanned (span : tracing_Attributes) (inside next : report).

Implicit Types (r : report).

Fixpoint and_then r r' : report :=
  match r with
  | Nothing => r'
  | Flushed next => Flushed (and_then next r')
  | Told e next => Told e (and_then next r')
  | Spanned span inside next => Spanned span inside (and_then next r')
  end.

(** The calls of the subscriber that a report is made with, whatever
    identifiers the spans get. *)
Inductive reported : report -> list (trace_call * trace_outcome) -> Prop :=
  | reported_nothing : reported Nothing []
  | reported_flushed r cs : reported r cs -> reported (Flushed r) (work_call :: cs)
  | reported_told e r cs : reported r cs -> reported (Told e r) (event_call e :: cs)
  | reported_spanned span id r cs r' cs' :
      reported r cs -> reported r' cs' ->
      reported (Spanned span r r') ((NewSpan span, NewId id) :: (Enter id, Done) :: cs ++
        (Exit id, Done) :: (TryClose id, Closed true) :: cs').

(** Every message fits a slot of the queue, whatever identifier a span has. *)
Definition span_fits (span : tracing_Attributes) : Prop := forall id,
  call_fits (NewSpan span, NewId id) /\ call_fits (Enter id, Done) /\ call_fits (Exit id, Done).

Fixpoint all_fit r : Prop :=
  match r with
  | Nothing => True
  | Flushed next => all_fit next
  | Told e next => call_fits (event_call e) /\ all_fit next
  | Spanned span inside next => span_fits span /\ all_fit inside /\ all_fit next
  end.

(** How many calls there are, how many spans are opened, and how many are
    open at the same time. *)
Fixpoint calls_in r : nat :=
  match r with
  | Nothing => 0
  | Flushed next | Told _ next => S (calls_in next)
  | Spanned _ inside next => 4 + calls_in inside + calls_in next
  end.

Fixpoint spans_in r : nat :=
  match r with
  | Nothing => 0
  | Flushed next | Told _ next => spans_in next
  | Spanned _ inside next => S (spans_in inside + spans_in next)
  end.

Fixpoint depth r : nat :=
  match r with
  | Nothing => 0
  | Flushed next | Told _ next => depth next
  | Spanned _ inside next => Nat.max (S (depth inside)) (depth next)
  end.

(** How many messages are queued behind a report, when [n] were before it;
    [None] if the queue is too small in between. *)
Fixpoint queue_use (n : nat) r : option nat :=
  match r with
  | Nothing => Some n
  | Flushed next => queue_use 0 next
  | Told _ next => if decide (n < capacity)%nat then queue_use (S n) next else None
  | Spanned _ inside next =>
      if decide (S (S n) <= capacity)%nat then
        n ← queue_use (S (S n)) inside;
        if decide (n < capacity)%nat then queue_use (S n) next else None
      else None
  end.

Lemma all_fit_then r r' : all_fit (and_then r r') <-> all_fit r /\ all_fit r'.
Proof. induction r as [|r IH|e r IH|span i _ r IH]; simpl; rewrite ?IH; tauto. Qed.

Lemma calls_in_then r r' : calls_in (and_then r r') = (calls_in r + calls_in r')%nat.
Proof. induction r as [|r IH|e r IH|span i _ r IH]; simpl; rewrite ?IH; lia. Qed.

Lemma spans_in_then r r' : spans_in (and_then r r') = (spans_in r + spans_in r')%nat.
Proof. induction r as [|r IH|e r IH|span i _ r IH]; simpl; rewrite ?IH; lia. Qed.

Lemma depth_then r r' : depth (and_then r r') = Nat.max (depth r) (depth r').
Proof. induction r as [|r IH|e r IH|span i _ r IH]; simpl; rewrite ?IH; lia. Qed.

Lemma and_then_assoc r1 r2 r3 : and_then (and_then r1 r2) r3 = and_then r1 (and_then r2 r3).
Proof. induction r1 as [|r IH|e r IH|span i _ r IH]; simpl; by rewrite ?IH. Qed.

Lemma queue_use_then n r r' : queue_use n (and_then r r') = queue_use n r ≫= fun n => queue_use n r'.
Proof.
  revert n. induction r as [|r IH|e r IH|span i _ r IH]; intros n; simpl; [done|apply IH|..].
  - case_decide; [apply IH|done].
  - case_decide; [|done]. destruct (queue_use _ i) as [n'|]; [|done]. simpl. case_decide; [apply IH|done].
Qed.

Lemma reported_length r cs : reported r cs -> length cs = calls_in r.
Proof. induction 1; simpl; [done|lia..|]. rewrite length_app. simpl. lia. Qed.

Lemma reported_then r r' cs cs' : reported r cs -> reported r' cs' -> reported (and_then r r') (cs ++ cs').
Proof.
  induction 1 as [|r cs _ IH|e r cs _ IH|span id r cs r1 cs1 Hr _ _ IH]; intros Hr'; simpl; [done|..].
  - constructor. by apply IH.
  - constructor. by apply IH.
  - rewrite <-app_assoc. simpl. constructor; [done|]. by apply IH.
Qed.

Lemma reported_split r r' cs :
  reported (and_then r r') cs -> exists cs1 cs2, cs = cs1 ++ cs2 /\ reported r cs1 /\ reported r' cs2.
Proof.
  revert cs. induction r as [|r IH|e r IH|span i _ r IH]; intros cs Hr; simpl in Hr.
  - exists [], cs. split; [done|]. split; [constructor|done].
  - inversion Hr as [|r1 cs1 H1| |]; subst. destruct (IH _ H1) as (c1&c2&->&?&?).
    exists (work_call :: c1), c2. split; [done|]. split; [by constructor|done].
  - inversion Hr as [| |e1 r1 cs1 H1|]; subst. destruct (IH _ H1) as (c1&c2&->&?&?).
    exists (event_call e :: c1), c2. split; [done|]. split; [by constructor|done].
  - inversion Hr as [| | |span1 id i1 ci r1 cs1 Hi H1]; subst. destruct (IH _ H1) as (c1&c2&->&?&?).
    eexists (_ :: _ :: ci ++ _ :: _ :: c1), c2. split; [|split; [by constructor|done]].
    simpl. by rewrite <-app_assoc.
Qed.

Lemma reported_fits r cs : reported r cs -> all_fit r -> Forall call_fits cs.
Proof.
  induction 1 as [|r cs _ IH|e r cs _ IH|span id r cs r1 cs1 _ IH1 _ IH2]; simpl.
  - done.
  - intros Hr. constructor; [|by apply IH]. by intros msg [=].
  - intros [He Hr]. constructor; [done|by apply IH].
  - intros (Hs&Hi&Hr). destruct (Hs id) as (?&?&?). do 2 (constructor; [done|]).
    apply Forall_app. split; [by apply IH1|]. constructor; [done|]. constructor; [|by apply IH2].
    by intros msg [=].
Qed.

(** A queue that is long enough loses nothing. *)
Lemma reported_short r cs n n' rest :
  reported r cs -> queue_use n r = Some n' -> short_bursts n' rest -> short_bursts n (cs ++ rest).
Proof.
  intros Hr. revert n n' rest. induction Hr as [|r cs _ IH|e r cs _ IH|span id r cs r1 cs1 _ IH1 _ IH2];
    intros n n' rest Hu Hrest; simpl in *.
  - by simplify_eq.
  - by eapply IH.
  - case_decide; [|done]. split; [done|]. by eapply IH.
  - case_decide; [|done]. destruct (queue_use _ r) as [n1|] eqn:Ei; [|done]. simpl in Hu.
    case_decide; [|done]. split; [lia|]. split; [lia|]. rewrite <-app_assoc. eapply IH1; [exact Ei|].
    simpl. split; [done|]. by eapply IH2.
Qed.

(** ** Code with a report *)

Context (Hcpu : boot_processor).
Abbreviation cpu0 := x86_64_current_processor.

(** [ρ] with another state of tracing. *)
Definition set_trace ρ (t : TraceState Q) : K :=
  MkKernel (k_machine ρ) (k_cpu ρ) (k_interrupts ρ) t (k_heap ρ) (k_access ρ) (k_allocator ρ).

(** What the rest of a run relies on: the subscriber was called like [tr],
    and nobody but this processor uses it. *)
Record at_trace s tr opened (m : Z) : Prop := {
  at_ran : ran port_written tr s;
  at_alone : alone cpu0 s opened m;
}.

(** There is room for a report. *)
Record room tr opened (m : Z) r : Prop := {
  room_calls : Z.of_nat (length tr + calls_in r) < usize_bound;
  room_spans : (base.size opened + depth r <= MAX_SPANS)%nat;
  room_counters : m + 2 * Z.of_nat (spans_in r) < 2 ^ 46 - 1;
}.

(** On [ρ] the code [c] ends in [o], and has made the report [r] if it
    returned. *)
Definition traced {A} (c : Code A) r ρ (o : rust (A * K)) : Prop := forall s tr opened m,
  at_trace s tr opened m -> all_fit r -> room tr opened m r ->
  match o with
  | Ret (a, ρ') => exists s' cs, c (set_trace ρ (running s)) = Ret (a, set_trace ρ' (running s')) /\
      reported r cs /\ at_trace s' (tr ++ cs) opened (m + 2 * Z.of_nat (spans_in r))
  | Panic why => c (set_trace ρ (running s)) = Panic why
  end.

Lemma room_split tr opened m r r' cs :
  room tr opened m (and_then r r') -> reported r cs ->
  room tr opened m r /\ room (tr ++ cs) opened (m + 2 * Z.of_nat (spans_in r)) r'.
Proof.
  intros [H1 H2 H3] Hr%reported_length. rewrite calls_in_then in H1. rewrite depth_then in H2.
  rewrite spans_in_then in H3. split; split; rewrite ?length_app; lia.
Qed.

Lemma room_first tr opened m r r' : room tr opened m (and_then r r') -> room tr opened m r.
Proof.
  intros [H1 H2 H3]. rewrite calls_in_then in H1. rewrite depth_then in H2.
  rewrite spans_in_then in H3. split; lia.
Qed.

Lemma traced_bind {A B} (c : Code A) (f : A -> Code B) r r' ρ a ρ1 o :
  traced c r ρ (Ret (a, ρ1)) -> traced (f a) r' ρ1 o -> traced (c ≫= f) (and_then r r') ρ o.
Proof.
  intros Hc Hf s tr opened m Hs [Hr Hr']%all_fit_then Hroom.
  destruct (Hc s tr opened m Hs Hr (room_first _ _ _ _ _ Hroom)) as (s1&cs&E1&Hcs&Hs1).
  destruct (room_split _ _ _ _ _ _ Hroom Hcs) as [_ Hroom'].
  specialize (Hf s1 _ _ _ Hs1 Hr' Hroom'). destruct o as [[b ρ2]|why].
  - destruct Hf as (s2&cs'&E2&Hcs'&Hs2). exists s2, (cs ++ cs'). rewrite bind_Boot, E1.
    split; [done|]. split; [by apply reported_then|]. rewrite app_assoc, spans_in_then.
    replace (m + 2 * Z.of_nat (spans_in r + spans_in r'))
      with (m + 2 * Z.of_nat (spans_in r) + 2 * Z.of_nat (spans_in r')) by lia. done.
  - by rewrite bind_Boot, E1.
Qed.

(** Code that does not touch tracing. *)
Lemma traced_quiet {A} (c : Code A) ρ o :
  (forall s, c (set_trace ρ (running s)) =
     match o with Ret (a, ρ') => Ret (a, set_trace ρ' (running s)) | Panic why => Panic why end) ->
  traced c Nothing ρ o.
Proof.
  intros Hc s tr opened m Hs _ _. specialize (Hc s). destruct o as [[a ρ']|why]; [|done].
  exists s, []. split; [done|]. split; [constructor|]. rewrite app_nil_r, Z.add_0_r. done.
Qed.

Lemma traced_ret {A} (a : A) ρ : traced (mret a) Nothing ρ (Ret (a, ρ)).
Proof. by apply traced_quiet. Qed.

Lemma traced_in_boot {A} (m : rust A) ρ a : m = Ret a -> traced (in_boot m) Nothing ρ (Ret (a, ρ)).
Proof. intros ->. by apply traced_quiet. Qed.

Lemma traced_shown (text : rust string) ρ a : text = Ret a -> traced (shown text) Nothing ρ (Ret (a, ρ)).
Proof. intros ->. by apply traced_quiet. Qed.

(** The next step of a run that does not report anything. *)
Lemma traced_step {A B} (c : Code A) (f : A -> Code B) r ρ a ρ1 o :
  traced c Nothing ρ (Ret (a, ρ1)) -> traced (f a) r ρ1 o -> traced (c ≫= f) r ρ o.
Proof. apply (traced_bind c f Nothing r). Qed.

Lemma at_plain s tr opened m c :
  at_trace s tr opened m -> call_fits (c, Done) -> plain c -> Z.of_nat (length tr) < usize_bound ->
  exists s', run_trace s cpu0 c = Ret (s', Done) /\ at_trace s' (tr ++ [(c, Done)]) opened m.
Proof.
  intros [Hr Ha] Hf Hc Hlen. destruct (ran_plain _ _ _ _ c Hr Hcpu Hf Hc Hlen) as (s'&E1&Hr').
  exists s'. split; [done|]. split; [done|]. eapply alone_same; [exact Ha|]. by eapply plain_spans.
Qed.

Lemma traced_flush_then {B} (f : unit -> Code B) r ρ o :
  traced (f tt) r ρ o -> traced (flush_traces ≫= f) (Flushed r) ρ o.
Proof.
  apply (traced_bind _ _ (Flushed Nothing) r). intros s tr opened m Hs _ [Hlen _ _]. simpl in Hlen.
  destruct (at_plain _ _ _ _ Work Hs) as (s'&E1&Hs'); [by intros msg [=]|done|lia|].
  exists s', [work_call]. unfold flush_traces. cbn [k_trace set_trace].
  rewrite (flush_running _ _ cpu0), E1. split; [done|]. split; [repeat constructor|].
  by rewrite Z.add_0_r.
Qed.

Lemma traced_flush ρ : traced flush_traces (Flushed Nothing) ρ (Ret (tt, ρ)).
Proof.
  intros s tr opened m Hs Hf Hroom.
  destruct (traced_flush_then mret Nothing ρ (Ret (tt, ρ)) (traced_ret tt ρ) s tr opened m Hs Hf Hroom)
    as (s'&cs&E1&?&?).
  exists s', cs. split; [|done]. rewrite bind_Boot in E1.
  destruct (flush_traces _) as [[[] k]|]; [|done]. by injection E1 as ->.
Qed.

Lemma traced_tell e ρ : traced (tell_event e) (Told e Nothing) ρ (Ret (tt, ρ)).
Proof.
  intros s tr opened m Hs [Hf _] [Hlen _ _]. simpl in Hlen.
  destruct (at_plain _ _ _ _ (EventOf e) Hs) as (s'&E1&Hs'); [done..|lia|].
  exists s', [event_call e]. unfold tell_event, with_trace. cbn [k_trace set_trace].
  rewrite (tell_running _ _ cpu0), E1. split; [done|]. split; [repeat constructor|]. by rewrite Z.add_0_r.
Qed.

Lemma traced_tell_then {B} e (f : unit -> Code B) r ρ o :
  traced (f tt) r ρ o -> traced (tell_event e ≫= f) (Told e r) ρ o.
Proof. apply (traced_bind _ _ (Told e Nothing) r). apply traced_tell. Qed.

(** A span around a block. *)
Lemma traced_span {A} name values (body : Code A) r ρ a ρ1 :
  traced body r ρ (Ret (a, ρ1)) ->
  traced (in_span callsite name values body)
    (Spanned (MkAttributes (callsite name) TCurrent values) r Nothing) ρ (Ret (a, ρ1)).
Proof.
  set (span := MkAttributes (callsite name) TCurrent values).
  intros Hb s tr opened m [Hr Ha] (Hfs&Hfb&_) [H1 H2 H3]. simpl in H1, H2, H3.
  destruct (alone_open _ _ _ _ span Ha Hcpu) as (s1&id&E1&Hid&Ha1); [lia|lia| |].
  { intros id msg Em. destruct (Hfs id) as [Hn _]. by apply Hn. }
  destruct (Hfs id) as (_&He&Hx). pose proof (ran_step _ _ _ _ _ _ _ Hr Hcpu E1) as Hr1.
  destruct (at_plain s1 _ _ _ (Enter id) (Build_at_trace _ _ _ _ Hr1 Ha1) He I) as (s2&E2&Hs2);
    [rewrite length_app; simpl; lia|].
  destruct (Hb s2 _ _ _ Hs2 Hfb) as (s3&cs&E3&Hcs&Hs3).
  { split; rewrite ?length_app, ?map_size_insert_None by done; simpl; lia. }
  pose proof (reported_length _ _ Hcs) as Hl.
  destruct (at_plain s3 _ _ _ (Exit id) Hs3 Hx I) as (s4&E4&[Hr4 Ha4]); [rewrite !length_app; simpl; lia|].
  destruct (alone_close _ _ _ _ id (MkSpanState 1 (attributes_metadata span)) Ha4 Hcpu) as (s5&E5&Ha5); [lia|apply lookup_insert_eq|done|].
  pose proof (ran_step _ _ _ _ _ _ _ Hr4 Hcpu E5) as Hr5.
  exists s5, ((NewSpan span, NewId id) :: (Enter id, Done) :: cs ++ [(Exit id, Done); (TryClose id, Closed true)]).
  split; [|split; [|split]].
  - unfold in_span. rewrite bind_Boot. unfold enter_span_with, with_trace. cbn [k_trace set_trace]. fold span.
    rewrite entered_running, E1. cbn [mbind rust_bind]. rewrite E2. cbn [mbind rust_bind]. rewrite bind_Boot.
    match goal with |- context [body ?k] => change k with (set_trace ρ (running s2)) end.
    rewrite E3. cbn [mbind rust_bind]. rewrite bind_Boot. unfold leave_span, with_trace. cbn [k_trace set_trace].
    rewrite exited_running, E4. cbn [mbind rust_bind]. by rewrite E5.
  - apply (reported_spanned span id r cs Nothing []); [done|constructor].
  - by rewrite <-!app_assoc in Hr5.
  - rewrite delete_insert_id in Ha5 by done.
    replace (m + 2 * Z.of_nat (spans_in (Spanned span r Nothing))) with (m + 1 + 2 * Z.of_nat (spans_in r) + 1)
      by (simpl; lia). done.
Qed.

Lemma traced_span_then {A B} name values (body : Code A) (f : A -> Code B) r r' ρ a ρ1 o :
  traced body r ρ (Ret (a, ρ1)) -> traced (f a) r' ρ1 o ->
  traced (in_span callsite name values body ≫= f)
    (Spanned (MkAttributes (callsite name) TCurrent values) r r') ρ o.
Proof. intros Hb. apply (traced_bind _ f (Spanned _ r Nothing) r'). by apply traced_span. Qed.

(** ** The reports of [start]'s parts *)

Definition line (template text : string) (next : report) : report :=
  Told (message_event (callsite template) text) next.

Fixpoint lines_report (lines : list string) (next : report) : report :=
  match lines with [] => next | text :: lines => line "region" text (lines_report lines next) end.

Definition announcement (info : BootInfo) (lines : list string) (next : report) : report :=
  Flushed (line "Booting" (version_text info) (line "Memory Regions" "Memory Regions:" (Flushed
    (lines_report lines (Flushed (line "HERE" "HERE!" (Flushed next))))))).

Definition milestone_report (text : string) (next : report) : report :=
  Flushed (line text text (Flushed next)).

Fixpoint regions_report (regions : list string) (next : report) : report :=
  match regions with
  | [] => next
  | text :: regions =>
      Spanned (MkAttributes (callsite region_span) TCurrent [("range"%string, RDebug text)]) Nothing
        (regions_report regions next)
  end.

(** The texts that depend on the machine: the lines of the memory map, the
    scratch pages and the initial tracking pages, the usable regions, how
    many runs there are, the state of the new allocator, and the state of
    the APIC. *)
Record Texts := MkTexts {
  memory_lines : list string;
  scratch_range : string;
  tracking_range : string;
  region_ranges : list string;
  run_count_line : string;
  state_lines : string;
  apic_line : string;
}.

Definition build_report (x : Texts) (next : report) : report :=
  Spanned (MkAttributes (callsite "init") TCurrent [])
    (Told (range_event "Scratch space" (scratch_range x))
      (Told (range_event "Initial tracking pages" (tracking_range x))
        (regions_report (region_ranges x)
          (line "Allocating {} runs in {}" (run_count_line x)
            (line "Post-initialization allocator state" (state_message (state_lines x)) Nothing)))))
    next.

Definition apic_report (x : Texts) (next : report) : report :=
  Spanned (MkAttributes (callsite "init_local") TCurrent [])
    (line "Initial xAPIC state" (apic_line x) (line "Enabled x2APIC mode" "Enabled x2APIC mode" Nothing)) next.

(** Everything that [start] reports inside its own span. *)
Definition start_report (info : BootInfo) (x : Texts) : report :=
  announcement info (memory_lines x)
    (milestone_report "Before allocator init"
      (build_report x
        (milestone_report "After allocator init"
          (apic_report x
            (line complete_text complete_text (Flushed Nothing)))))).

Lemma lines_then lines next next' :
  and_then (lines_report lines next) next' = lines_report lines (and_then next next').
Proof. induction lines as [|text lines IH]; simpl; [done|]. unfold line. simpl. by rewrite IH. Qed.

Lemma regions_then regions next next' :
  and_then (regions_report regions next) next' = regions_report regions (and_then next next').
Proof. induction regions as [|text regions IH]; simpl; [done|]. by rewrite IH. Qed.

Lemma traced_log_then {B} template text (f : unit -> Code B) r ρ o :
  traced (f tt) r ρ o -> traced (log callsite template text ≫= f) (line template text r) ρ o.
Proof. apply traced_tell_then. Qed.

(** One flush or one message after the other. *)
Ltac traced_heads := repeat first [apply traced_flush_then | apply traced_log_then | apply traced_tell_then].

(** The lines that are logged for the memory map. *)
Lemma traced_report regions lines ρ :
  Forall2 (fun (g : MemoryRegion) text => region_text debug_kind g = Ret text) (merged regions) lines ->
  traced (report_memory regions) (lines_report lines Nothing) ρ (Ret (tt, ρ)).
Proof.
  intros Hl s tr opened m. unfold report_memory. rewrite report_regions_eq. revert s tr opened m.
  induction Hl as [|r text rs lines Er _ IH].
  - by apply (traced_ret tt).
  - cbn [log_all lines_report]. intros s tr opened m Hs [Hf Hfs] Hroom.
    destruct (traced_tell (message_event (callsite "region") text) ρ s tr opened m Hs) as (s1&cs1&E1&Hr1&Hs1);
      [done|by apply (room_first _ _ _ (Told _ Nothing) (lines_report lines Nothing))|].
    destruct (room_split _ _ _ (Told _ Nothing) (lines_report lines Nothing) _ Hroom Hr1) as [_ Hroom'].
    destruct (IH s1 _ _ _ Hs1 Hfs Hroom') as (s2&cs2&E2&Hr2&Hs2).
    exists s2, (cs1 ++ cs2). unfold log_region. rewrite Er. cbn [mbind rust_bind].
    unfold region_line, log. rewrite E1. cbn [mbind rust_bind].
    split; [exact E2|]. split; [by apply (reported_then (Told _ Nothing))|].
    rewrite app_assoc. simpl in *. by rewrite Z.add_0_r in Hs2.
Qed.

Lemma traced_announce_then {B} info lines (f : unit -> Code B) r ρ o :
  Forall2 (fun (g : MemoryRegion) text => region_text debug_kind g = Ret text) (merged (memory_regions info)) lines ->
  traced (f tt) r ρ o -> traced (announce info ≫= f) (announcement info lines r) ρ o.
Proof.
  intros Hl Hf.
  assert (Er : announcement info lines r = and_then (announcement info lines Nothing) r).
  { unfold announcement, line. simpl. by rewrite lines_then. }
  rewrite Er. refine (traced_bind (announce info) f _ r ρ tt ρ o _ Hf).
  unfold announce, announcement. traced_heads.
  replace (lines_report lines (Flushed (line "HERE" "HERE!" (Flushed Nothing))))
    with (and_then (lines_report lines Nothing) (Flushed (line "HERE" "HERE!" (Flushed Nothing))))
    by apply lines_then.
  eapply traced_bind; [by apply traced_report|]. traced_heads. apply traced_flush.
Qed.

Lemma traced_milestone_then {B} text (f : unit -> Code B) r ρ o :
  traced (f tt) r ρ o -> traced (milestone text ≫= f) (milestone_report text r) ρ o.
Proof.
  apply (traced_bind (milestone text) f (milestone_report text Nothing) r ρ tt ρ o).
  unfold milestone, milestone_report. traced_heads. apply traced_flush.
Qed.

(** *** The allocator *)

Lemma traced_collect t map ranges texts ρ :
  collect_ranges t map = Ret ranges ->
  Forall2 (fun g text => display_region debug_Kind g = Ret text) (usable_regions map) texts ->
  traced (collect_regions t map) (regions_report texts Nothing) ρ (Ret (ranges, ρ)).
Proof.
  revert ranges texts. induction map as [|g map IH]; intros ranges texts Ec Ht; cbn [collect_ranges collect_regions] in *.
  - injection Ec as <-. inversion Ht; subst. apply traced_ret.
  - unfold usable_regions in Ht. rewrite filter_cons in Ht. unfold usable in *. case_decide as Hu.
    + rewrite bool_decide_true in Ec |- * by done. inversion Ht as [|? text ? texts' Eg Ht']; subst.
      rust_inv Ec. subst ranges. cbn [regions_report].
      eapply traced_step; [by apply traced_shown|].
      apply (traced_span_then _ _ _ _ Nothing _ ρ x ρ); [by apply traced_in_boot|].
      replace (regions_report texts' Nothing) with (and_then (regions_report texts' Nothing) Nothing)
        by apply regions_then.
      eapply traced_bind; [by apply IH|]. apply traced_ret.
    + rewrite bool_decide_false in Ec |- * by done. by apply IH.
Qed.

Lemma traced_range_then {B} template range text (f : unit -> Code B) r ρ o :
  range_text range = Ret text -> traced (f tt) r ρ o ->
  traced (log_range template range ≫= f) (Told (range_event template text) r) ρ o.
Proof.
  intros Et Hf. apply (traced_bind _ f (Told _ Nothing) r ρ tt ρ o); [|done].
  unfold log_range. eapply traced_step; [by apply traced_shown|]. apply traced_tell.
Qed.

(** The allocator that [build] makes is made here, too, and this is what is
    told about it. *)
Record build_texts (map : list Region) (g : Region) (root : AllocatorInner) (x : Texts) : Prop := {
  bt_scratch : range_text (scratch_pages g) = Ret (scratch_range x);
  bt_tracking : range_text (tracking_pages g) = Ret (tracking_range x);
  bt_regions : Forall2 (fun g text => display_region debug_Kind g = Ret text) (usable_regions map) (region_ranges x);
  bt_runs : runs_text (tracking_pages g) = Ret (run_count_line x);
  bt_state : display_state root = Ret (state_lines x);
}.

Lemma traced_build_with access map g ptr len root x ρ :
  build_inner sort_by_start run_size (tracking_pages g) map access ptr len = Ret (Ok root) ->
  build_texts map g root x ->
  traced (build_with (tracking_pages g) map access)
    (regions_report (region_ranges x)
      (line "Allocating {} runs in {}" (run_count_line x)
        (line "Post-initialization allocator state" (state_message (state_lines x)) Nothing)))
    ρ (Ret (Ok root, ρ)).
Proof.
  intros Eb [_ _ Hreg Hruns Hst]. unfold build_inner in Eb. rust_inv Eb.
  destruct x2 as [s [[]|e]]; [|done]. rust_inv Eb. subst.
  match goal with |- traced _ (regions_report _ ?next) _ _ =>
    replace (regions_report (region_ranges x) next) with (and_then (regions_report (region_ranges x) Nothing) next)
      by apply regions_then end.
  unfold build_with. eapply traced_bind; [by apply traced_collect|].
  eapply traced_step; [by apply traced_in_boot|].
  eapply traced_step; [by apply traced_shown|]. apply traced_log_then.
  eapply traced_step; [by apply traced_in_boot|]. cbn beta iota.
  eapply traced_step; [by apply traced_in_boot|].
  eapply traced_step; [by apply traced_shown|]. apply traced_log_then. apply traced_ret.
Qed.

Lemma traced_build access map reserved g root x ρ :
  find_scratch reserved map = Ret (Some (scratch_pages g, tracking_pages g)) ->
  build sort_by_start run_size access map reserved = Ret (Ok root) -> build_texts map g root x ->
  traced (build_allocator access map reserved) (build_report x Nothing) ρ (Ret (Ok root, ρ)).
Proof.
  intros Ef Eb Hx. unfold build in Eb. rewrite Ef in Eb. cbn [mbind rust_bind] in Eb. rust_inv Eb.
  destruct x0 as [r|e]; [|done]. injection Eb as ->. unfold with_memory in Hx0. rust_inv Hx0.
  destruct x0 as [b|e]; [|done]. rust_inv Hx0. subst.
  unfold build_allocator, build_report. apply traced_span.
  eapply traced_step; [by apply traced_in_boot|]. cbn beta iota.
  eapply traced_range_then; [apply (bt_scratch _ _ _ _ Hx)|].
  eapply traced_range_then; [apply (bt_tracking _ _ _ _ Hx)|].
  eapply (traced_step _ _ _ _ (Ok access)).
  { apply traced_in_boot. unfold with_memory. rewrite Hx1. cbn [mbind rust_bind]. rewrite Hx2. done. }
  cbn beta iota. by eapply traced_build_with.
Qed.

(** Without room for the allocator there is only the span. *)
Lemma traced_no_scratch access map reserved ρ :
  find_scratch reserved map = Ret None ->
  traced (build_allocator access map reserved)
    (Spanned (MkAttributes (callsite "init") TCurrent []) Nothing Nothing) ρ
    (Ret (Err (MkError InsufficientMemory), ρ)).
Proof.
  intros Ef. unfold build_allocator. apply traced_span.
  eapply traced_step; [by apply traced_in_boot|]. apply traced_ret.
Qed.

(** *** The local APIC *)

Definition with_cpu ρ (cpu : Cpu) : K :=
  MkKernel (k_machine ρ) cpu (k_interrupts ρ) (k_trace ρ) (k_heap ρ) (k_access ρ) (k_allocator ρ).

Lemma traced_on_cpu {A} (f : Cpu -> rust (A * Cpu)) ρ ρ' a :
  f (k_cpu ρ) = Ret (a, k_cpu ρ') -> ρ' = with_cpu ρ (k_cpu ρ') -> traced (on_cpu f) Nothing ρ (Ret (a, ρ')).
Proof. intros Ef ->. apply traced_quiet. intros s. unfold on_cpu. cbn [k_cpu set_trace]. by rewrite Ef. Qed.

(** With its span and messages [init_local] does to the processor what it
    does without. *)
Lemma traced_apic ρ cpu v x :
  apic_init_local (k_cpu ρ) = Ret cpu -> rdmsr (k_cpu ρ) IA32_APIC_BASE_MSR = Ret v ->
  apic_line x = initial_state_message v ->
  traced setup_apic (apic_report x Nothing) ρ (Ret (tt, with_cpu ρ cpu)).
Proof.
  intros Ea Ev Ex. unfold apic_init_local in Ea.
  destruct (supports_x2apic (k_cpu ρ)) eqn:Es; cbn [negb] in Ea; [|done].
  unfold msr_read, msr_write in Ea. rust_inv Ea. rewrite Ev in Hx. injection Hx as <-.
  unfold setup_apic, apic_report. rewrite Ex. apply traced_span.
  eapply (traced_step _ _ _ _ _ (with_cpu ρ (k_cpu ρ))); [by apply traced_on_cpu|]. rewrite Es.
  eapply traced_step; [by apply traced_in_boot|].
  eapply (traced_step _ _ _ _ v (with_cpu ρ (k_cpu ρ))).
  { apply traced_on_cpu; [|done]. unfold msr_read. cbn [k_cpu with_cpu]. by rewrite Ev. }
  apply traced_log_then.
  eapply (traced_step _ _ _ _ tt (with_cpu ρ x1)).
  { apply traced_on_cpu; [|done]. unfold msr_write. cbn [k_cpu with_cpu]. by rewrite Hx0. }
  eapply (traced_step _ _ _ _ x2 (with_cpu ρ x1)).
  { apply traced_on_cpu; [|done]. unfold msr_read. cbn [k_cpu with_cpu]. by rewrite Hx1. }
  eapply (traced_step _ _ _ _ tt (with_cpu ρ cpu)).
  { apply traced_on_cpu; [|done]. unfold msr_write. cbn [k_cpu with_cpu]. by rewrite Ea. }
  apply traced_tell.
Qed.

(** The processor has a local APIC that x2APIC mode can be entered with. *)
Definition apic_usable (cpu : Cpu) : Prop :=
  exists v, rdmsr cpu IA32_APIC_BASE_MSR = Ret v /\ supports_x2apic cpu = true /\ apic_enabled v = true.

(** *** The statics *)

Definition with_access ρ (access : MemoryAccess) : K :=
  MkKernel (k_machine ρ) (k_cpu ρ) (k_interrupts ρ) (k_trace ρ) (k_heap ρ) (MkGlobal true (Some access))
    (k_allocator ρ).

Definition with_allocator ρ (root : AllocatorInner) : K :=
  MkKernel (k_machine ρ) (k_cpu ρ) (k_interrupts ρ) (k_trace ρ) (k_heap ρ) (k_access ρ)
    (MkGlobal true (Some root)).

Definition with_heap ρ (h : KernelHeap H) : K :=
  MkKernel (k_machine ρ) (k_cpu ρ) (k_interrupts ρ) (k_trace ρ) h (k_access ρ) (k_allocator ρ).

Lemma traced_access ρ base :
  k_access ρ = global_new ->
  traced (setup_access base) Nothing ρ (Ret (MkMemoryAccess base, with_access ρ (MkMemoryAccess base))).
Proof. intros Ea. apply traced_quiet. intros s. unfold setup_access. cbn [k_access set_trace]. by rewrite Ea. Qed.

Lemma traced_init ρ root :
  k_allocator ρ = global_new -> traced (init_allocator root) Nothing ρ (Ret (root, with_allocator ρ root)).
Proof. intros Ea. apply traced_quiet. intros s. unfold init_allocator. cbn [k_allocator set_trace]. by rewrite Ea. Qed.

Lemma traced_expansion ρ root :
  heap_root (k_heap ρ) = global_new ->
  exists h, traced (setup_expansion root) Nothing ρ (Ret (tt, with_heap ρ h)).
Proof.
  intros Eh. eexists. apply traced_quiet. intros s. unfold setup_expansion, enable_expansion.
  cbn [k_heap set_trace]. rewrite Eh. reflexivity.
Qed.

(** ** [start] behind its span *)

(** What the code finds there. *)
Record opened_kernel ρ : Prop := {
  ok_idt : exists idt, idt_static (k_machine ρ) = MkGlobal true (Some idt);
  ok_cpu : apic_usable (k_cpu ρ);
  ok_heap : heap_root (k_heap ρ) = global_new;
  ok_access : k_access ρ = global_new;
  ok_allocator : k_allocator ρ = global_new;
}.

(** The texts of a start on a machine with a region [g] for the allocator. *)
Record start_texts (info : BootInfo) (cpu : Cpu) (root : AllocatorInner) (g : Region) (x : Texts) : Prop := {
  st_lines : Forall2 (fun (g : MemoryRegion) text => region_text debug_kind g = Ret text)
    (merged (memory_regions info)) (memory_lines x);
  st_build : build_texts (Region_from <$> memory_regions info) g root x;
  st_apic v : rdmsr cpu IA32_APIC_BASE_MSR = Ret v -> apic_line x = initial_state_message v;
}.

Lemma traced_start info ic ρ offset map g root x :
  opened_kernel ρ -> physical_memory_offset info = Some offset -> map = Region_from <$> memory_regions info ->
  find_scratch [] map = Ret (Some (scratch_pages g, tracking_pages g)) ->
  build sort_by_start run_size (MkMemoryAccess offset) map [] = Ret (Ok root) ->
  start_texts info (k_cpu ρ) root g x ->
  exists ρ', traced (start_in_span info ic) (start_report info x) ρ
      (Ret (MkBootArgs (framebuffer info) (MkMemoryAccess offset) root ic, ρ')) /\
    k_interrupts ρ' = k_interrupts ρ /\ k_allocator ρ' = MkGlobal true (Some root).
Proof.
  intros [[idt Ei] Hapic Hh Ha Hal] Eo -> Ef Eb [Hl Hb Hx].
  set (ρ2 := with_allocator (with_access ρ (MkMemoryAccess offset)) root).
  destruct (traced_expansion ρ2 root Hh) as [h Hexp].
  destruct Hapic as (v&Hapic). assert (Hu : apic_usable (k_cpu (with_heap ρ2 h))) by by exists v.
  pose proof Hapic as (Ev&Es&Hen). pose proof (apic_init_local_ok (k_cpu ρ) v Ev) as Hok.
  destruct (apic_init_local (k_cpu ρ)) as [cpu|w] eqn:Ea; [clear Hok|naive_solver congruence].
  exists (with_cpu (with_heap ρ2 h) cpu). split; [|done].
  unfold start_in_span, start_report. apply traced_announce_then; [done|].
  rewrite Eo. eapply traced_step; [by apply traced_in_boot|].
  eapply traced_step; [by apply traced_access|]. apply traced_milestone_then.
  apply (traced_bind _ _ (build_report x Nothing) _ _ (Ok root) ρ2).
  { unfold setup_allocator. apply (traced_bind _ _ (build_report x Nothing) Nothing _ (Ok root) (with_access ρ (MkMemoryAccess offset)));
      [by apply (traced_build _ _ _ g)|].
    eapply traced_step; [by apply traced_init|]. apply traced_ret. }
  eapply traced_step; [by apply traced_in_boot|]. apply traced_milestone_then.
  eapply traced_step; [exact Hexp|].
  apply (traced_bind _ _ (apic_report x Nothing) _ _ tt (with_cpu (with_heap ρ2 h) cpu)).
  { unfold setup_local. apply (traced_bind _ _ (apic_report x Nothing) Nothing _ tt (with_cpu (with_heap ρ2 h) cpu)).
    - apply (traced_apic _ _ v); [done..|by apply Hx].
    - eapply (traced_step _ _ _ _ idt (with_cpu (with_heap ρ2 h) cpu)); [|apply traced_ret].
      apply traced_quiet. intros s. unfold load_table. cbn [k_machine set_trace with_cpu with_heap].
      unfold ρ2. cbn [k_machine with_allocator with_access]. by rewrite Ei. }
  apply traced_log_then, traced_flush_then. apply traced_ret.
Qed.

(** The ways in which it stops. *)
Definition first_report (info : BootInfo) (lines : list string) : report :=
  announcement info lines (milestone_report "Before allocator init"
    (Spanned (MkAttributes (callsite "init") TCurrent []) Nothing Nothing)).

Lemma traced_no_offset info ic ρ lines :
  physical_memory_offset info = None ->
  Forall2 (fun (g : MemoryRegion) text => region_text debug_kind g = Ret text)
    (merged (memory_regions info)) lines ->
  traced (start_in_span info ic) (announcement info lines Nothing) ρ (Panic ExpectFailed).
Proof.
  intros Eo Hl. unfold start_in_span. apply traced_announce_then; [done|]. rewrite Eo. by apply traced_quiet.
Qed.

Lemma traced_no_room info ic ρ offset map lines :
  k_access ρ = global_new -> physical_memory_offset info = Some offset -> map = Region_from <$> memory_regions info ->
  find_scratch [] map = Ret None ->
  Forall2 (fun (g : MemoryRegion) text => region_text debug_kind g = Ret text)
    (merged (memory_regions info)) lines ->
  traced (start_in_span info ic) (first_report info lines) ρ (Panic ExpectFailed).
Proof.
  intros Ha Eo -> Ef Hl. unfold start_in_span, first_report. apply traced_announce_then; [done|].
  rewrite Eo. eapply traced_step; [by apply traced_in_boot|].
  eapply traced_step; [by apply traced_access|]. apply traced_milestone_then.
  set (failed := Spanned (MkAttributes (callsite "init") TCurrent []) Nothing Nothing).
  apply (traced_bind _ _ failed Nothing _ (Err (MkError InsufficientMemory)) (with_access ρ (MkMemoryAccess offset))).
  { unfold setup_allocator. apply (traced_bind _ _ failed Nothing _ (Err (MkError InsufficientMemory)) (with_access ρ (MkMemoryAccess offset)));
      [by apply traced_no_scratch|]. apply traced_ret. }
  by apply traced_quiet.
Qed.

(** ** How much is reported *)

Lemma calls_in_lines lines r : calls_in (lines_report lines r) = (length lines + calls_in r)%nat.
Proof. induction lines as [|text lines IH]; simpl; [done|]. by rewrite IH. Qed.

Lemma spans_in_lines lines r : spans_in (lines_report lines r) = spans_in r.
Proof. induction lines as [|text lines IH]; simpl; [done|]. by rewrite IH. Qed.

Lemma depth_lines lines r : depth (lines_report lines r) = depth r.
Proof. induction lines as [|text lines IH]; simpl; [done|]. by rewrite IH. Qed.

Lemma calls_in_regions regions r : calls_in (regions_report regions r) = (4 * length regions + calls_in r)%nat.
Proof. induction regions as [|text regions IH]; cbn [regions_report calls_in length]; [done|]. rewrite IH. lia. Qed.

Lemma spans_in_regions regions r : spans_in (regions_report regions r) = (length regions + spans_in r)%nat.
Proof. induction regions as [|text regions IH]; cbn [regions_report spans_in length]; [done|]. rewrite IH. lia. Qed.

Lemma depth_regions regions r : (depth (regions_report regions r) <= Nat.max 1 (depth r))%nat.
Proof. induction regions as [|text regions IH]; cbn [regions_report depth]; lia. Qed.

Lemma queue_lines n lines r :
  (n + length lines <= capacity)%nat -> queue_use n (lines_report lines r) = queue_use (n + length lines) r.
Proof.
  revert n. induction lines as [|text lines IH]; intros n Hn; simpl in *; [by rewrite Nat.add_0_r|].
  rewrite decide_True by lia. rewrite IH by lia. f_equal. lia.
Qed.

Lemma queue_regions n regions r :
  (n + 3 * length regions <= capacity)%nat ->
  queue_use n (regions_report regions r) = queue_use (n + 3 * length regions) r.
Proof.
  revert n. induction regions as [|text regions IH]; intros n Hn; cbn [regions_report queue_use length] in *.
  { by rewrite Nat.mul_0_r, Nat.add_0_r. }
  rewrite decide_True by lia. simpl. rewrite decide_True by lia. rewrite IH by lia. f_equal. lia.
Qed.

(** Room in the queue for what lies between two flushes. *)
Definition queue_holds (x : Texts) : Prop :=
  (length (memory_lines x) <= capacity)%nat /\ (7 + 3 * length (region_ranges x) <= capacity)%nat.

Lemma start_queue info x n : queue_holds x -> is_Some (queue_use n (start_report info x)).
Proof.
  intros [Hl Hr]. unfold start_report, announcement, milestone_report, build_report, apic_report, line.
  cbn [queue_use]. rewrite !decide_True by lia. rewrite queue_lines by lia. cbn [queue_use].
  rewrite !decide_True by lia. rewrite queue_regions by lia. cbn [queue_use].
  rewrite !decide_True by lia. cbn [mbind option_bind]. rewrite !decide_True by lia. by eexists.
Qed.

Lemma start_room info x tr opened m :
  Z.of_nat (length tr + length (memory_lines x) + 4 * length (region_ranges x) + 40) < usize_bound ->
  (base.size opened <= 1)%nat -> m + 2 * Z.of_nat (length (region_ranges x)) < 2 ^ 46 - 10 ->
  room tr opened m (start_report info x).
Proof.
  intros Hc Ho Hm. unfold start_report, announcement, milestone_report, build_report, apic_report, line.
  split; cbn [calls_in spans_in depth]; rewrite ?calls_in_lines, ?spans_in_lines, ?depth_lines;
    cbn [calls_in spans_in depth]; rewrite ?calls_in_regions, ?spans_in_regions; cbn [calls_in spans_in depth].
  - lia.
  - match goal with |- context [depth (regions_report ?l ?r)] => pose proof (depth_regions l r) as Hd end.
    cbn [depth] in Hd. unfold MAX_SPANS. lia.
  - lia.
Qed.

Lemma announcement_room info lines tr opened m r :
  Z.of_nat (length tr + length lines + calls_in r + 10) < usize_bound ->
  (base.size opened <= 1)%nat -> (depth r <= 1)%nat -> (spans_in r <= 1)%nat -> m <= 1 ->
  room tr opened m (announcement info lines r).
Proof.
  intros Hc Ho Hd Hs Hm. unfold announcement, line.
  split; cbn [calls_in spans_in depth]; rewrite ?calls_in_lines, ?spans_in_lines, ?depth_lines;
    cbn [calls_in spans_in depth]; unfold MAX_SPANS; lia.
Qed.

(** The last call is a flush. *)
Fixpoint ends_flushed r : Prop :=
  match r with
  | Nothing => False
  | Flushed Nothing => True
  | Flushed next | Told _ next | Spanned _ _ next => ends_flushed next
  end.

Lemma ends_flushed_lines lines r :
  ends_flushed (Flushed r) -> ends_flushed (Flushed (lines_report lines (Flushed r))).
Proof.
  intros Hr. destruct lines as [|text lines]; [done|]. change (ends_flushed (lines_report lines (Flushed r))).
  by induction lines.
Qed.

Lemma reported_last r cs : reported r cs -> ends_flushed r -> exists cs', cs = cs' ++ [work_call].
Proof.
  induction 1 as [|r cs Hr IH|e r cs _ IH|span id r cs r1 cs1 _ _ _ IH]; intros He; [done|..].
  - destruct r; try by destruct (IH He) as [cs' ->]; exists (work_call :: cs').
    inversion Hr; subst. by exists [].
  - destruct (IH He) as [cs' ->]. by exists (event_call e :: cs').
  - destruct (IH He) as [cs' ->]. eexists (_ :: _ :: cs ++ _ :: _ :: cs'). simpl. by rewrite <-app_assoc.
Qed.

Lemma start_last info x cs : reported (start_report info x) cs -> exists cs', cs = cs' ++ [work_call].
Proof. intros Hr. apply (reported_last _ _ Hr). by apply ends_flushed_lines. Qed.

Lemma traces_last_work s tr o s' : traces s (tr ++ [(Work, o)]) s' -> queued (queue_of s') = [].
Proof.
  revert s. induction tr as [|[c1 o1] tr IH]; intros s Ht; inversion Ht as [|? ? ? ? s1 ? ? _ Er Ht']; subst.
  - inversion Ht'; subst. by destruct (run_trace_quiet _ _ _ _ _ Er eq_refl) as [(_&_&Hq)|[? _]].
  - by apply (IH s1).
Qed.

(** What the port has sent by then. *)
Lemma sent_reported s tr opened m :
  at_trace s (tr ++ [work_call]) opened m -> Forall call_fits (tr ++ [work_call]) ->
  queued (queue_of s) = [] /\
  (short_bursts 0 (tr ++ [work_call]) ->
   sent_bytes s = port_written ++ START_OF_OUTPUT ++ concat (encoded <$> messages (tr ++ [work_call]))).
Proof.
  intros [[(s0&E0&Htr) _] _] Hf. pose proof (traces_last_work _ _ _ _ Htr) as Hq. split; [done|].
  intros Hs. destruct (init_streams _ _ E0) as [Hs0 Hq0].
  destruct (traces_stream _ _ _ _ _ Htr (calls_fit _ Hf) Hs0) as (sent&_&Hs1&Hb).
  rewrite Hq0 in Hb. rewrite (Hb Hs) in Hs1. unfold streams in Hs1. rewrite Hq in Hs1. simpl in Hs1.
  rewrite app_nil_r in Hs1. unfold sent_bytes. rewrite Hs1. by rewrite <-app_assoc.
Qed.

(** ** The texts *)

Lemma range_text_ok (r : PageFrameRange) :
  range_wf r -> hi r * PAGE_SIZE < usize_bound -> exists text, range_text r = Ret text.
Proof.
  intros (H1&H2&H3) Hhi. unfold range_text, address_range, start_address, page_start, hi, PAGE_SIZE in *.
  rewrite mul_usize_ok by (unfold is_usize, lo in *; nia). cbn [mbind rust_bind].
  rewrite mul_usize_ok by (unfold is_usize, lo in *; nia). cbn [mbind rust_bind].
  unfold display_range. rewrite range_end_ok; [by eexists|].
  unfold range_wf, hi, lo, from_start_size in *. cbn [Address.start size]. rewrite as_usize_new. nia.
Qed.

Lemma display_frames_ok (r : PageFrameRange) :
  range_wf r -> exists text, display_range display_frame r = Ret text.
Proof. intros Hr. unfold display_range. rewrite range_end_ok by done. by eexists. Qed.

Lemma region_texts_ok map :
  Forall region_ok map -> exists texts, Forall2 (fun (g : Region) text => display_region debug_Kind g = Ret text) map texts.
Proof.
  induction 1 as [|g map Hg _ [texts IH]]; [by exists []|].
  eexists (_ :: texts). constructor; [|done]. unfold display_region. by rewrite region_size_ok.
Qed.

Lemma build_texts_ok map g root lines state :
  map_ok map -> scratch_region [] map = Some g -> inv root ->
  exists x, memory_lines x = lines /\ apic_line x = state /\ build_texts map g root x.
Proof.
  intros Hmap Hg Hinv. destruct (scratch_facts _ _ _ Hmap Hg) as (Hok&_&Hsz).
  pose proof (tracking_pages_wf g Hok) as Ht. pose proof (hi_pages_of _ Hok) as Hhi.
  pose proof Hok as [_ _ [? ?] ?]. assert (E1 : hi (pages_of g) = lo (pages_of g) + size (pages_of g)) by done.
  assert (Hlo : 0 <= lo (pages_of g)) by (rewrite lo_pages_of; by apply Z.div_pos).
  assert (Hb : hi (pages_of g) * PAGE_SIZE <= 2 ^ 63).
  { unfold PAGE_SIZE in *. rewrite Hhi. Z.div_mod_to_equations. lia. }
  assert (Els : lo (scratch_pages g) = hi (tracking_pages g)) by (unfold lo, scratch_pages; cbn [Address.start]; apply as_usize_new).
  assert (Ehs : hi (scratch_pages g) = lo (pages_of g) + 4).
  { unfold hi at 1. rewrite Els, hi_tracking. unfold scratch_pages, MIN_TRACKING_PAGES. cbn [size]. lia. }
  assert (Hs : range_wf (scratch_pages g)).
  { unfold range_wf. rewrite Els, Ehs, hi_tracking. unfold scratch_pages, MIN_TRACKING_PAGES, usize_bound, PAGE_SIZE in *.
    cbn [size]. lia. }
  destruct (range_text_ok (scratch_pages g) Hs) as [t1 E2]; [unfold usize_bound, PAGE_SIZE in *; lia|].
  destruct (range_text_ok (tracking_pages g) Ht) as [t2 E3]; [rewrite hi_tracking; unfold usize_bound, PAGE_SIZE in *; lia|].
  destruct (region_texts_ok (usable_regions map)) as [t3 E4]; [apply Hmap|].
  destruct (display_frames_ok (tracking_pages g) Ht) as [t4 E5].
  destruct (display_state_total root Hinv) as [t5 E6].
  eexists (MkTexts lines t1 t2 t3 _ t5 state). split; [done|]. split; [done|].
  split; [done..| |done]. unfold runs_text, size_bytes.
  rewrite mul_usize_ok by (unfold is_usize, usize_bound, PAGE_SIZE, tracking_pages, SCRATCH_PAGES; cbn [size]; lia).
  cbn [mbind rust_bind]. by rewrite E5.
Qed.

(** ** From power-on to the span *)

(** Nothing has been initialised. *)
Record fresh k : Prop := {
  fresh_idt : idt_static (k_machine k) = global_new;
  fresh_controller : controller_static (k_machine k) = global_new;
  fresh_trace : k_trace k = MkTraceState None queue_new global_new;
  fresh_heap : heap_root (k_heap k) = global_new;
  fresh_access : k_access k = global_new;
  fresh_allocator : k_allocator k = global_new;
}.

Lemma trace_init_fresh written :
  exists s, trace_init (E := E) (MkTraceState None queue_new global_new) written = Ret (running s) /\
    ktrace_init written = Ret s.
Proof.
  assert (E0 : ktrace_init (Q := Q) (E := E) written =
    Ret (MkSystem (new_slab MAX_SPANS) queue_new (worker_init written))).
  { unfold ktrace_init. by rewrite slab_new_eq, decide_True by done. }
  unfold trace_init. rewrite E0. cbn [mbind rust_bind]. by exists (MkSystem (new_slab MAX_SPANS) queue_new (worker_init written)).
Qed.

Definition start_span : tracing_Attributes := MkAttributes (callsite "start") TCurrent [].

Definition opening_calls (id : SpanId) : list (trace_call * trace_outcome) :=
  [work_call; (NewSpan start_span, NewId id); (Enter id, Done)].

(** The guard of this span is never dropped: [kmain] does not return. *)
Lemma start_opening info k :
  fresh k -> apic_usable (k_cpu k) -> (forall id, Forall call_fits (opening_calls id)) ->
  exists ρ s id opened, start info k = start_in_span info TheController (set_trace ρ (running s)) /\
    opened_kernel ρ /\ k_interrupts ρ = k_interrupts k /\ k_cpu ρ = k_cpu k /\
    at_trace s (opening_calls id) opened 1 /\ base.size opened = 1%nat.
Proof.
  intros Hfresh Hapic Hf. destruct k as [mc cpu e t h acc al].
  destruct Hfresh as [Hi Hc Ht Hh Hacc Hal]. simpl in *. subst t acc al.
  destruct (interrupts_init_ok mc Hi Hc) as (idt&Ei&_).
  destruct (trace_init_fresh port_written) as (s0&Et&E0).
  assert (Hs0 : at_trace s0 [] ∅ 0) by (split; [by apply ran_nil|by eapply alone_init]).
  destruct (at_plain s0 _ _ _ Work Hs0) as (s1&E1&[Hr1 Ha1]); [by intros msg [=]|done|done|].
  destruct (alone_open _ _ _ _ start_span Ha1 Hcpu) as (s2&id&E2&Hid&Ha2);
    [rewrite map_size_empty; unfold MAX_SPANS; lia|lia| |].
  { intros id msg Em. specialize (Hf id). apply Forall_cons in Hf as [_ [Hf _]%Forall_cons]. by apply Hf. }
  pose proof (ran_step _ _ _ _ _ _ _ Hr1 Hcpu E2) as Hr2.
  destruct (at_plain s2 _ _ _ (Enter id) (Build_at_trace _ _ _ _ Hr2 Ha2)) as (s3&E3&Hs3); [|done|done|].
  { specialize (Hf id). by apply Forall_cons in Hf as [_ [_ [Hf _]%Forall_cons]%Forall_cons]. }
  match type of Ei with _ = Ret (?m, _) =>
    set (ρ := MkKernel m cpu e (running s0) (heap_init h) global_new global_new) end.
  exists ρ, s3, id. eexists. split; [|split; [|split; [|split; [|split; [exact Hs3|]]]]]; try done.
  - unfold start. rewrite bind_Boot. unfold setup_heap. cbn [k_machine k_cpu k_interrupts k_trace k_heap k_access k_allocator mbind rust_bind].
    rewrite bind_Boot. unfold setup_interrupts. cbn [k_machine k_cpu k_interrupts k_trace k_heap k_access k_allocator].
    rewrite Ei. cbn [mbind rust_bind]. rewrite bind_Boot. unfold setup_trace, with_trace. fold port_written.
    cbn [k_machine k_cpu k_interrupts k_trace k_heap k_access k_allocator]. rewrite Et. cbn [mbind rust_bind].
    rewrite bind_Boot. unfold flush_traces at 1. cbn [k_machine k_cpu k_interrupts k_trace k_heap k_access k_allocator].
    rewrite (flush_running _ _ cpu0), E1. cbn [mbind rust_bind]. rewrite bind_Boot.
    unfold enter_span, enter_span_with, with_trace. fold start_span.
    cbn [k_machine k_cpu k_interrupts k_trace k_heap k_access k_allocator].
    rewrite entered_running, E2. cbn [mbind rust_bind]. rewrite E3. done.
  - split; try done; by exists idt.
  - by rewrite map_size_insert_None, map_size_empty.
Qed.

(** With everything in place [start] returns, and this is what it sent. *)
Lemma start_returns info ρ s id opened offset map g root x :
  opened_kernel ρ -> at_trace s (opening_calls id) opened 1 -> base.size opened = 1%nat ->
  Forall call_fits (opening_calls id) ->
  physical_memory_offset info = Some offset -> map = Region_from <$> memory_regions info ->
  find_scratch [] map = Ret (Some (scratch_pages g, tracking_pages g)) ->
  build sort_by_start run_size (MkMemoryAccess offset) map [] = Ret (Ok root) ->
  start_texts info (k_cpu ρ) root g x -> all_fit (start_report info x) ->
  Z.of_nat (length (memory_lines x)) < 2 ^ 63 -> Z.of_nat (length (region_ranges x)) < 8192 ->
  exists k' s' cs,
    start_in_span info TheController (set_trace ρ (running s)) =
      Ret (MkBootArgs (framebuffer info) (MkMemoryAccess offset) root TheController, k') /\
    global_get (k_allocator k') = Ret root /\ k_interrupts k' = k_interrupts ρ /\
    k_trace k' = running s' /\ queued (queue_of s') = [] /\ reported (start_report info x) cs /\
    (queue_holds x ->
     sent_bytes s' = port_written ++ START_OF_OUTPUT ++ concat (encoded <$> messages (opening_calls id ++ cs))).
Proof.
  intros Hop Hs Hsz Hopen Eo Em Ef Eb Ht Hfit Hlines Hregs.
  destruct (traced_start info TheController ρ offset map g root x Hop Eo Em Ef Eb Ht) as (ρ'&Htr&Ei'&Ea').
  destruct (Htr s _ _ _ Hs Hfit) as (s'&cs&E'&Hcs&Hs').
  { apply start_room; [simpl; unfold usize_bound; lia|lia|lia]. }
  destruct (start_last _ _ _ Hcs) as [cs' Ecs].
  rewrite Ecs, app_assoc in Hs'. destruct (sent_reported _ _ _ _ Hs') as [Hq Hb].
  { rewrite <-app_assoc, <-Ecs. apply Forall_app. split; [done|]. by eapply reported_fits. }
  rewrite <-app_assoc, <-Ecs in Hb. exists (set_trace ρ' (running s')), s', cs. split; [done|].
  split; [cbn [k_allocator set_trace]; by rewrite Ea'|]. split; [done|]. split; [done|]. split; [done|].
  split; [done|]. intros Hh. apply Hb. destruct (start_queue info x 2 Hh) as [n Hn].
  cbn [app short_bursts opening_calls work_call message_of]. destruct Hh. split; [lia|]. split; [lia|].
  rewrite <-(app_nil_r cs). by eapply reported_short.
Qed.

(** C28. [start]. On a fresh kernel, with a memory map that the allocator can
    use and that has fewer usable regions than the tracking pages hold runs,
    on a processor whose APIC can be used and which is the only one that
    runs: if the bootloader did not map physical memory, or if no region has
    room for the allocator's own pages, [start] panics, and otherwise it
    reaches [kmain], provided that every message fits its slot of the queue.
    It then hands over the allocator in its initial state (first pages of the
    chosen region for tracking, every other usable page free), with that
    allocator in its static and interrupts as they were, and everything that
    was queued has been written. If the queue holds what is reported between
    two flushes, which is the lines of the memory map, and three messages for
    each usable region and seven more, then the serial port has sent the
    start-of-output marker and then all of [start]'s messages in order: its
    own, those of the allocator's initialization with a span around it and
    one around each region, and those of the local APIC's initialization. *)
Theorem start_spec info k lines :
  (forall rs, sort_by_start rs ≡ₚ rs) ->
  (forall rs, StronglySorted starts_before (sort_by_start rs)) ->
  0 < run_size <= PAGE_SIZE ->
  let map := Region_from <$> memory_regions info in
  map_ok map -> Z.of_nat (length (usable_regions map)) < SCRATCH_PAGES * PAGE_SIZE / run_size ->
  fresh k -> apic_usable (k_cpu k) ->
  Forall2 (fun (g : MemoryRegion) text => region_text debug_kind g = Ret text) (merged (memory_regions info)) lines ->
  Z.of_nat (length lines) < 2 ^ 63 ->
  (forall id, Forall call_fits (opening_calls id)) ->
  match physical_memory_offset info, scratch_region [] map with
  | Some offset, Some g =>
      exists root x, start_texts info (k_cpu k) root g x /\ memory_lines x = lines /\
        client_inv (root, []) /\
        (forall pg, status_of root pg =
           if decide (in_range pg (tracking_pages g)) then Some Tracking
           else if decide (covered pg (pages_of <$> usable_regions map)) then Some Free
           else None) /\
        (all_fit (start_report info x) ->
         exists k' s id cs,
           start info k = Ret (MkBootArgs (framebuffer info) (MkMemoryAccess offset) root TheController, k') /\
           global_get (k_allocator k') = Ret root /\ k_interrupts k' = k_interrupts k /\
           k_trace k' = running s /\ queued (queue_of s) = [] /\ reported (start_report info x) cs /\
           (queue_holds x ->
            sent_bytes s = port_written ++ START_OF_OUTPUT ++
              concat (encoded <$> messages (opening_calls id ++ cs))))
  | Some _, None => all_fit (first_report info lines) -> start info k = Panic ExpectFailed
  | None, _ => all_fit (announcement info lines Nothing) -> start info k = Panic ExpectFailed
  end.
Proof.
  intros Hperm Hsort Hrs map Hmap Hspare Hfresh Hapic Hl Hlen Hopen.
  destruct (start_opening info k Hfresh Hapic Hopen) as (ρ&s&id&opened&Es&Hop&Eint&Ecpu&Hs&Hsz).
  assert (Hmany : Z.of_nat (length (usable_regions map)) < 8192).
  { unfold SCRATCH_PAGES, PAGE_SIZE in Hspare. Z.div_mod_to_equations. nia. }
  pose proof (find_scratch_ok [] map (Forall_nil_2 _)) as Ef. specialize (Ef ltac:(apply Hmap)).
  destruct (physical_memory_offset info) as [offset|] eqn:Eo; [destruct (scratch_region [] map) as [g|] eqn:Eg|].
  - pose proof (build_result sort_by_start run_size (MkMemoryAccess offset) map [] Hperm Hsort Hrs Hmap
                  (Forall_nil_2 _) Hspare) as Hb. rewrite Eg in Hb. destruct Hb as (root&Eb&Hinv&Hst).
    destruct Hapic as (v&Ev&Hv).
    destruct (build_texts_ok map g root lines (initial_state_message v) Hmap Eg) as (x&Hx&Hxa&Hxb); [by destruct Hinv|].
    assert (Ht : start_texts info (k_cpu k) root g x).
    { split; [by rewrite Hx|done|]. intros v' Ev'. rewrite Ev in Ev'. injection Ev' as <-. done. }
    exists root, x. split; [done|]. split; [done|]. split; [done|]. split; [done|]. intros Hfit.
    pose proof (Forall2_length _ _ _ (bt_regions _ _ _ _ Hxb)) as Hregs.
    destruct (start_returns info ρ s id opened offset map g root x) as (k'&s'&cs&E'&Ea&Ei&?); try done;
      [by rewrite Ecpu|by rewrite Hx|lia|].
    exists k', s', id, cs. by rewrite Es, E', Ea, Ei, Eint.
  - intros Hfit. rewrite Es. refine (traced_no_room info TheController ρ offset map lines _ Eo eq_refl _ Hl s _ _ _ Hs Hfit _);
      [apply Hop|exact Ef|]. apply announcement_room; simpl; unfold usize_bound; lia.
  - intros Hfit. rewrite Es. refine (traced_no_offset info TheController ρ lines Eo Hl s _ _ _ Hs Hfit _).
    apply announcement_room; simpl; unfold usize_bound; lia.
Qed.
End start.

(** * A machine to start on *)

(** A port that only records what it sends. *)
Definition list_uart : Uart16550 (list Z).
Proof. by refine {| uart_new _ := []; uart_init u := u; send_raw u b := u ++ [b]; transmitted u := u |}. Defined.

Lemma mapM_Forall2 {A B} (f : A -> rust B) l k :
  mapM f l = Ret k -> Forall2 (fun x y => f x = Ret y) l k.
Proof.
  revert k. induction l as [|x l IH]; intros k E; [by injection E as <-|].
  cbn [mapM] in E. rust_inv E. injection E as <-. constructor; [done|]. by apply IH.
Qed.

Section witness.
#[local] Existing Instance lsb_first.
#[local] Existing Instance dev_profile.
#[local] Existing Instance x86_64_topology.
#[local] Existing Instance KTrace.list_queue.
#[local] Existing Instance KTrace.toy_serializer.
#[local] Existing Instance lsb0.
#[local] Existing Instance simple_pic.
#[local] Existing Instance map_table.
#[local] Existing Instance intel_apic.
#[local] Existing Instance list_uart.
#[local] Existing Instance bump_heap.

#[local] Definition kind_name (_ : MemoryRegionKind) : string := "Usable".

#[local] Definition boot_map : list MemoryRegion := [
  MkMemoryRegion 0x10000 0x20000 RegionUsable;
  MkMemoryRegion 0x20000 0x80000 RegionBootloader;
  MkMemoryRegion 0x80000 0x100000 RegionBootloader;
  MkMemoryRegion 0x100000 0x110000 RegionUsable ].

#[local] Definition boot_info : BootInfo := MkBootInfo 0 11 0 false boot_map (Some 0) None.

#[local] Definition boot_lines : list string :=
  match mapM (region_text kind_name) (merged boot_map) with Ret l => l | Panic _ => [] end.

#[local] Definition cold : Kernel SimplePic (gmap Z Handler) IntelCpu (list (KTrace.Message unit)) (Z * Z) :=
  MkKernel cold_machine boot_cpu false (MkTraceState None [] global_new) heap_new global_new global_new.

Lemma boot_map_ok : map_ok (Region_from <$> boot_map).
Proof.
  split.
  - repeat constructor; vm_compute; congruence.
  - apply gaps_disjoint; [by vm_compute|by repeat constructor].
Qed.

Lemma boot_spare :
  Z.of_nat (length (usable_regions (Region_from <$> boot_map))) < SCRATCH_PAGES * PAGE_SIZE / 64.
Proof. by vm_compute. Qed.

Lemma cold_fresh : fresh cold.
Proof. by split. Qed.

Lemma boot_apic : apic_usable (bits := lsb0) (apic := intel_apic) (k_cpu cold).
Proof. exists 0xfee00900. split; [reflexivity|]. split; reflexivity. Qed.

Lemma boot_lines_ok :
  Forall2 (fun (g : MemoryRegion) text => region_text kind_name g = Ret text) (merged (memory_regions boot_info)) boot_lines.
Proof. apply mapM_Forall2. vm_compute. reflexivity. Qed.

Lemma toy_all_fit (r : report) : all_fit (E := unit) r.
Proof.
  induction r; simpl; try done.
  - split; [apply toy_fits|done].
  - split; [|done]. intros id. by repeat (split; [apply toy_fits|]); apply toy_fits.
Qed.

(** This machine is handed over, with everything reported. *)
Lemma start_spec_witness :
  exists args k' s id cs x,
    start (uart := list_uart) Boot.place kind_name sort_starts 64 boot_info cold = Ret (args, k') /\
    status_of (args_root_allocator args) 0x10 = Some Tracking /\
    status_of (args_root_allocator args) 0x12 = Some Free /\
    k_trace k' = running s /\ memory_lines x = boot_lines /\
    reported (start_report Boot.place boot_info x) cs /\
    sent_bytes s = START_OF_OUTPUT ++ concat (encoded <$> messages (opening_calls Boot.place id ++ cs)).
Proof.
  pose proof (start_spec (uart := list_uart) Boot.place kind_name sort_starts 64 ltac:(done) boot_info cold boot_lines
    sort_starts_perm sort_starts_sorted sample_run_size boot_map_ok boot_spare cold_fresh boot_apic
    boot_lines_ok) as Hs.
  destruct Hs as (root&x&Hx&Hlines&_&Hst&Hrun);
    [vm_compute; reflexivity|intros id; apply Forall_forall; intros co _; apply toy_fits|].
  destruct (Hrun (toy_all_fit _)) as (k'&s&id&cs&E&_&_&Et&_&Hcs&Hb).
  eexists _, k', s, id, cs, x. split; [exact E|]. cbn [args_root_allocator]. rewrite !Hst.
  split; [vm_compute; reflexivity|]. split; [vm_compute; reflexivity|]. split; [exact Et|].
  split; [exact Hlines|]. split; [exact Hcs|]. apply Hb. split.
  - rewrite Hlines. apply Nat.leb_le. vm_compute. reflexivity.
  - destruct Hx as [_ [_ _ Hreg _ _] _]. apply Forall2_length in Hreg. rewrite <-Hreg. apply Nat.leb_le.
    vm_compute. reflexivity.
Defined.
End witness.
