(* ===== verification/Ktest.v ===== *)
(** The kernel's test harness ([ktest/src/lib.rs], [ktest/src/assertions.rs],
    the [test] attribute of [ktest/macros]), the kernel's main function when
    it is built for testing, and the kernel's own tests
    ([mm/address.rs]). A test is a computation on the kernel's state; the
    qemu_exit crate, which ends the virtual machine, is a class. *)
From Stdlib Require Import Ascii.
From S2P Require Import Prelude Address Bitfields Topology Slot FreeLists Slab SlabSpec Sync Proto.
From S2P Require Import Decoder KTrace Boot.

(** * The exit device *)

(** [qemu_exit::X86]: the exit status that QEMU ends with, for the I/O port
    of the device and the status chosen for success, which has to be odd
    because the device doubles what is written and adds one; failure
    writes 0. *)
Class QemuExit := {
  x86_status : Z -> Z -> bool -> Z;
  success_status io_base success_code :
    Z.odd success_code = true -> x86_status io_base success_code true = success_code;
  failure_status io_base success_code : x86_status io_base success_code false = 1;
}.

Definition doubling_exit : QemuExit.
Proof.
  refine {| x86_status _ code ok := 2 * (if ok then Z.shiftr code 1 else 0) + 1 |}; [|done].
  intros _ c Hc. pose proof (Z.div2_odd c) as Hd. rewrite Hc, Z.div2_spec in Hd. simpl in *. lia.
Defined.

(** [exit]. *)
Definition exit `{QemuExit} (success : bool) : Z := x86_status 0xf4 3 success.

Inductive Outcome := Pass | Fail.

#[export] Instance Outcome_eq_dec : EqDecision Outcome.
Proof. solve_decision. Defined.

Section ktest.
Context {prof : Profile} {modular : ModularBitfield} {topology : Topology}.
Context {E Q : Type} {ser : Serializer E} {buf : ThingBuf Q E}.
Context {Pic Idt Cpu H : Type} {qemu : QemuExit}.
Context (callsite : string -> tracing_Metadata).

Abbreviation K := (Kernel Pic Idt Cpu Q H).
Abbreviation Code := (Boot (Q := Q) (Pic := Pic) (Idt := Idt) (Cpu := Cpu) (H := H)).

#[local] Instance code_ret : MRet Code := fun A a k => Ret (a, k).
#[local] Instance code_bind : MBind Code := fun A B f m k => '(a, k) ← m k; f a k.

(** * Running tests *)

Record Test := MkTest { test_name : string; imp : Code Outcome }.

(** The loop of [run_tests]. *)
Fixpoint run_loop (tests : list Test) (failures : Z) : Code Z :=
  match tests with
  | [] => mret failures
  | test :: tests =>
      result ← imp test;
      match result with
      | Pass =>
          log callsite "{}... OK" (test_name test +:+ "... OK");;
          run_loop tests failures
      | Fail =>
          failures ← in_boot (add_usize failures 1);
          log callsite "{}... FAIL" (test_name test +:+ "... FAIL");;
          run_loop tests failures
      end
  end.

Definition count_tests (tests : list Test) : Z := Z.of_nat (length tests).

(** [run_tests], which does not return: the exit status of the machine. The
    guard of its span is never dropped. *)
Definition run_tests (TESTS : list Test) : Code Z :=
  _ ← enter_span callsite "run_tests";
  log callsite "Running {} kernel tests" ("Running " +:+ pretty (count_tests TESTS) +:+ " kernel tests");;
  failures ← run_loop TESTS 0;
  passed ← in_boot (sub_usize (count_tests TESTS) failures);
  log callsite "Done! {} passed and {} failed"
    ("Done! " +:+ pretty passed +:+ " passed and " +:+ pretty failures +:+ " failed");;
  mret (exit (bool_decide (failures = 0))).

(** [kmain] in a test build, up to the exit; the flush behind [run_tests]
    cannot be reached. [address] is where [kmain] is linked. *)
Definition kmain_test (address : Z) (TESTS : list Test) : Code Z :=
  _ ← enter_span_with callsite "kmain" [("at"%string, RU64 address)];
  flush_traces;;
  run_tests TESTS.

(** * Writing tests *)

(** The statements of a test: they may return an outcome early. *)
Definition Body : Type := Code (option Outcome).

Definition andthen (first rest : Body) : Body :=
  o ← first;
  match o with Some outcome => mret (Some outcome) | None => rest end.

Definition and_finally : Body := mret None.

(** Where an assertion stands: [file!()], [line!()] and [column!()]. *)
Record Position := MkPosition { file : string; line : Z; column : Z }.

Definition display_position (at_ : Position) : string :=
  file at_ +:+ ":" +:+ pretty (line at_) +:+ ":" +:+ pretty (column at_).

(** A line feed. *)
Definition LF : string := String (ascii_of_nat 10) "".

Definition report_failure (at_ : Position) (args : string) : Code unit :=
  log callsite "Assertion failed: '{}' at {}:{}:{}"
    ("Assertion failed: '" +:+ args +:+ "' at " +:+ display_position at_).

Definition report_eq_failure {T} (debug : T -> string) (at_ : Position)
    (left_expr : string) (left_value : T) (right_expr : string) (right_value : T) : Code unit :=
  log callsite "Assertion failed: '{left_expr}' did not equal '{right_expr}'"
    ("Assertion failed: '" +:+ left_expr +:+ "' did not equal '" +:+ right_expr +:+ "'" +:+ LF +:+
     "left: " +:+ debug left_value +:+ LF +:+ "right: " +:+ debug right_value +:+ LF +:+
     "at " +:+ display_position at_).

(** [ktassert!] and [ktassert_eq!] without a message of their own. The
    expressions may panic. *)
Definition ktassert (at_ : Position) (text : string) (cond : rust bool) : Body :=
  cond ← in_boot cond;
  if cond : bool then mret None
  else report_failure at_ text;; mret (Some Fail).

Definition ktassert_eq {T} `{EqDecision T} (debug : T -> string) (at_ : Position)
    (left_expr : string) (left : rust T) (right_expr : string) (right : rust T) : Body :=
  lhs ← in_boot left;
  rhs ← in_boot right;
  if decide (lhs = rhs) then mret None
  else report_eq_failure debug at_ left_expr lhs right_expr rhs;; mret (Some Fail).

(** * The [test] attribute *)

Inductive ReturnType := ReturnDefault | ReturnsType (type : string).

(** [syn::ItemFn]: the parts that are looked at, with the block as what it
    does. *)
Record ItemFn := MkItemFn {
  asyncness : bool;
  inputs : list string;
  ident : string;
  output : ReturnType;
  block : Body;
}.

(** What the attribute leaves of the function: nothing but a diagnostic, or
    a function and a static of the slice of tests. *)
Inductive expansion :=
  | Rejected (diagnostic : string)
  | Registers (static_name impl_name : string) (test : Test).

(** The generated function: the guard is dropped wherever it returns. *)
Definition test_impl (name : string) (body : Body) : Code Outcome :=
  _ktest_span ← enter_span callsite name;
  early ← body;
  leave_span _ktest_span;;
  mret (default Pass early).

Definition generate_test (module_path : string) (input : ItemFn) : expansion :=
  if asyncness input then Rejected "Tests cannot be `async`"
  else if bool_decide (inputs input <> []) then Rejected "Tests cannot take arguments"
  else
    let test_name := ident input in
    let static_name := "REGISTER_" +:+ test_name in
    let impl_name := test_name +:+ "_impl" in
    let test_full_name := module_path +:+ "::" +:+ test_name in
    match output input with
    | ReturnsType _ => Rejected "Tests cannot return anything"
    | ReturnDefault =>
        Registers static_name impl_name (MkTest test_full_name (test_impl test_name (block input)))
    end.

(** * The kernel's own tests *)

(** [test_address_ops] and [test_format], at the positions of their
    assertions. *)
Definition at_line (l : Z) : Position := MkPosition "kernel/src/mm/address.rs" l 9.

Definition debug_physical (a : Address.PhysicalAddress) : string := debug_address display_address a.

Definition physical (z : Z) : Address.PhysicalAddress := new z.
Definition virtual (z : Z) : Address.VirtualAddress := new z.

Definition test_address_ops : Body :=
  andthen (ktassert_eq debug_physical (at_line 341) "PhysicalAddress::new(123) + 5"
             (add (physical 123) 5) "PhysicalAddress::new(128)" (Ret (physical 128)))
 (andthen (ktassert_eq debug_physical (at_line 342) "PhysicalAddress::new(123) - 3"
             (sub (physical 123) 3) "PhysicalAddress::new(120)" (Ret (physical 120)))
 (andthen (ktassert_eq pretty (at_line 343) "VirtualAddress::new(1024) - VirtualAddress::new(1000)"
             (distance (virtual 1024) (virtual 1000)) "24" (Ret 24))
 (addr ← in_boot (add (physical 4096) 4096);
  andthen (ktassert_eq debug_physical (at_line 347) "addr" (Ret addr)
             "PhysicalAddress::new(8192)" (Ret (physical 8192)))
 (addr ← in_boot (sub addr 1024);
  andthen (ktassert_eq debug_physical (at_line 350) "addr" (Ret addr)
             "PhysicalAddress::new(7168)" (Ret (physical 7168)))
  and_finally)))).

Definition quoted (s : string) : string := String (ascii_of_nat 34) s +:+ String (ascii_of_nat 34) "".

Definition test_format (debug : string -> string) : Body :=
  andthen (ktassert_eq debug (at_line 355) ("format!(" +:+ quoted "{}" +:+ ", VirtualAddress::new(8192))")
             (Ret (display_address (virtual 8192))) (quoted "0x0000002000" +:+ ".into()") (Ret "0x0000002000"))
 (andthen (ktassert_eq debug (at_line 360) ("format!(" +:+ quoted "{:?}" +:+ ", VirtualAddress::new(8192))")
             (Ret (debug_address display_address (virtual 8192)))
             (quoted "VirtualAddress(0x0000002000)" +:+ ".into()") (Ret "VirtualAddress(0x0000002000)"))
  and_finally).

(** * Calls of the subscriber *)

Implicit Types (k : K) (s : system (Q := Q)) (cs : list (trace_call * trace_outcome)).

(** The subscriber and its worker are at work. *)
Definition working k : Prop := exists written tr s, k_trace k = running s /\ ran written tr s.

(** Between [k] and [k'], [cs] was called. *)
Definition did cs k k' : Prop :=
  exists s s', k_trace k = running s /\ k_trace k' = running s' /\ traces s cs s'.

(** All that [m] does to the subscriber is to make calls that satisfy [P]. *)
Definition calls_only (P : trace_call -> Prop) {A} (m : Code A) : Prop := forall k a k',
  working k -> m k = Ret (a, k') -> exists cs, did cs k k' /\ Forall P cs.*1.

Definition anything (_ : trace_call) : Prop := True.
Definition not_work (c : trace_call) : Prop := c <> Work.

Context (Hcpu : boot_processor).

Lemma running_inj s s' : running s = running s' -> s = s'.
Proof. unfold running. destruct s, s'. by intros [= -> -> ->]. Qed.

Lemma traces_app s cs s1 cs' s2 : traces s cs s1 -> traces s1 cs' s2 -> traces s (cs ++ cs') s2.
Proof. induction 1; [done|]. intros. econstructor; eauto. Qed.

Lemma did_trans cs cs' k k1 k2 : did cs k k1 -> did cs' k1 k2 -> did (cs ++ cs') k k2.
Proof.
  intros (s&s1&E1&E2&H1) (s1'&s2&E3&E4&H2). rewrite E2 in E3. apply running_inj in E3 as <-.
  exists s, s2. split; [done|]. split; [done|]. by eapply traces_app.
Qed.

Lemma did_nil k : working k -> did [] k k.
Proof. intros (w&tr&s&E1&_). exists s, s. repeat split; [done..|constructor]. Qed.

Lemma ran_extend written tr s cs s' : ran written tr s -> traces s cs s' -> ran written (tr ++ cs) s'.
Proof.
  intros Hr Ht. revert tr Hr. induction Ht as [s|s cpu c o s1 cs s2 Hc E1 Ht IH]; intros tr Hr.
  - by rewrite app_nil_r.
  - change ((c, o) :: cs) with ([(c, o)] ++ cs). rewrite app_assoc. apply IH. by eapply ran_step.
Qed.

Lemma did_working cs k k' : working k -> did cs k k' -> working k'.
Proof.
  intros (w&tr&s&E1&Hr) (s1&s2&E2&E3&Ht). rewrite E1 in E2. apply running_inj in E2 as <-.
  exists w, (tr ++ cs), s2. split; [done|]. by eapply ran_extend.
Qed.

Lemma bind_Code {A B} (m : Code A) (f : A -> Code B) k : (m ≫= f) k = '(a, k) ← m k; f a k.
Proof. done. Qed.

Lemma code_bind_inv {A B} (m : Code A) (f : A -> Code B) k b k' :
  (m ≫= f) k = Ret (b, k') -> exists a k1, m k = Ret (a, k1) /\ f a k1 = Ret (b, k').
Proof. rewrite bind_Code. destruct (m k) as [[a k1]|]; [|done]. intros. by exists a, k1. Qed.

Section calls.
Context (P : trace_call -> Prop).

Lemma calls_ret {A} (a : A) : calls_only P (mret a).
Proof. intros k a' k' Hw [= <- <-]. exists []. split; [by apply did_nil|constructor]. Qed.

Lemma calls_bind {A B} (m : Code A) (f : A -> Code B) :
  calls_only P m -> (forall a, calls_only P (f a)) -> calls_only P (m ≫= f).
Proof.
  intros Hm Hf k b k' Hw (a&k1&E1&E2)%code_bind_inv.
  destruct (Hm _ _ _ Hw E1) as (cs&Hd&Hp).
  destruct (Hf a _ _ _ (did_working _ _ _ Hw Hd) E2) as (cs'&Hd'&Hp').
  exists (cs ++ cs'). split; [by eapply did_trans|]. rewrite fmap_app. by apply Forall_app.
Qed.

Lemma calls_in_boot {A} (m : rust A) : calls_only P (in_boot m).
Proof.
  intros k a k' Hw Em. unfold in_boot in Em. destruct m; [|done]. injection Em as <- <-.
  exists []. split; [by apply did_nil|constructor].
Qed.

(** One call of the subscriber. *)
Lemma did_call k s c s' o t :
  k_trace k = running s -> run_trace s x86_64_current_processor c = Ret (s', o) ->
  t = running s' ->
  did [(c, o)] k (MkKernel (k_machine k) (k_cpu k) (k_interrupts k) t (k_heap k) (k_access k) (k_allocator k)).
Proof.
  intros Ek Ec ->. exists s, s'. split; [done|]. split; [done|].
  econstructor; [exact Hcpu|exact Ec|constructor].
Qed.

Lemma log_did template text k k' :
  working k -> log callsite template text k = Ret (tt, k') -> did [text_call callsite template text] k k'.
Proof.
  intros (w&tr&s&Ek&_) El. unfold log, tell_event, with_trace in El.
  rewrite Ek, (tell_running _ _ x86_64_current_processor) in El.
  destruct (run_trace _ _ _) as [[s1 o]|] eqn:Er; [|done]. cbn [mbind rust_bind] in El. injection El as <-.
  assert (o = Done) as -> by (cbn [run_trace] in Er; by destruct (KTrace.event _ _); simplify_eq/=).
  by eapply did_call.
Qed.

Definition span_with (name : string) (values : list (string * recorded)) : tracing_Attributes :=
  MkAttributes (callsite name) TCurrent values.

Definition span_named (name : string) : tracing_Attributes := span_with name [].

Lemma enter_span_with_did name values k o k' :
  working k -> enter_span_with callsite name values k = Ret (o, k') ->
  exists id, o = Some id /\ did [(NewSpan (span_with name values), NewId id); (Enter id, Done)] k k'.
Proof.
  intros (w&tr&s&Ek&_) El. unfold enter_span_with, with_trace in El. rewrite Ek, entered_running in El.
  destruct (run_trace _ _ _) as [[s1 o1]|] eqn:Er; [|done]. cbn [mbind rust_bind] in El.
  assert (exists id, o1 = NewId id) as [id ->].
  { cbn [run_trace] in Er. destruct (new_span _ _ _ _) as [[[? ?] id]|]; [|done].
    exists id. by simplify_eq/=. }
  destruct (run_trace s1 _ _) as [[s2 o2]|] eqn:Er2; [|done]. cbn [mbind rust_bind] in El.
  injection El as <- <-.
  assert (o2 = Done) as -> by (cbn [run_trace] in Er2; by destruct (enter _ _); simplify_eq/=).
  exists id. split; [done|]. exists s, s2. split; [done|]. split; [done|].
  econstructor; [exact Hcpu|exact Er|]. econstructor; [exact Hcpu|exact Er2|constructor].
Qed.

Lemma enter_span_did name k o k' :
  working k -> enter_span callsite name k = Ret (o, k') ->
  exists id, o = Some id /\ did [(NewSpan (span_named name), NewId id); (Enter id, Done)] k k'.
Proof. apply enter_span_with_did. Qed.

Lemma leave_span_did id k k' :
  working k -> leave_span (Some id) k = Ret (tt, k') ->
  exists b, did [(Exit id, Done); (TryClose id, Closed b)] k k'.
Proof.
  intros (w&tr&s&Ek&_) El. unfold leave_span, with_trace in El. rewrite Ek, exited_running in El.
  destruct (run_trace _ _ _) as [[s1 o1]|] eqn:Er; [|done]. cbn [mbind rust_bind] in El.
  assert (o1 = Done) as -> by (cbn [run_trace] in Er; by destruct (KTrace.exit _ _); simplify_eq/=).
  destruct (run_trace s1 _ _) as [[s2 o2]|] eqn:Er2; [|done]. cbn [mbind rust_bind] in El.
  injection El as <-.
  assert (exists b, o2 = Closed b) as [b ->].
  { cbn [run_trace] in Er2. destruct (try_close _ _ _) as [[? b]|]; [|done]. exists b. by simplify_eq/=. }
  exists b, s, s2. split; [done|]. split; [done|].
  econstructor; [exact Hcpu|exact Er|]. econstructor; [exact Hcpu|exact Er2|constructor].
Qed.

Lemma calls_log template text :
  P (EventOf (message_event (callsite template) text)) -> calls_only P (log callsite template text).
Proof.
  intros HP k [] k' Hw El. eexists. split; [by eapply log_did|]. by apply Forall_singleton.
Qed.

Lemma calls_enter name :
  P (NewSpan (span_named name)) -> (forall id, P (Enter id)) -> calls_only P (enter_span callsite name).
Proof.
  intros H1 H2 k o k' Hw El. destruct (enter_span_did _ _ _ _ Hw El) as (id&_&Hd).
  eexists. split; [done|]. cbn. by repeat (apply Forall_cons; split; [auto|]).
Qed.
End calls.

Lemma traces_worker s cs s' : traces s cs s' -> Forall not_work cs.*1 -> worker_of s' = worker_of s.
Proof.
  induction 1 as [|s cpu c o s1 cs s2 _ Er _ IH]; [done|]. intros [Hc Hcs]%Forall_cons. simpl in Hc.
  rewrite (IH Hcs). destruct (message_of c o) as [msg|] eqn:Em.
  - by destruct (run_trace_sends _ _ _ _ _ _ Er Em) as (_&->&_).
  - by destruct (run_trace_quiet _ _ _ _ _ Er Em) as [[-> _]|(_&_&->)].
Qed.

(** Messages that fit are always recorded. *)
Lemma log_returns template text k :
  working k -> call_fits (text_call callsite template text) ->
  exists k', log callsite template text k = Ret (tt, k') /\ working k' /\
    did [text_call callsite template text] k k'.
Proof.
  intros Hw Hf. pose proof Hw as (w&tr&s&Ek&Hr).
  assert (exists k', log callsite template text k = Ret (tt, k')) as [k' El].
  { unfold log, tell_event, with_trace. rewrite Ek, (tell_running _ _ x86_64_current_processor).
    destruct (ran_tracks _ _ _ Hr) as (a&tb&Ht).
    pose proof (run_trace_ok s a tb x86_64_current_processor (EventOf (message_event (callsite template) text)) Ht Hcpu) as Hok.
    destruct (run_trace _ _ _) as [[s' o]|why]; [by eexists|].
    exfalso. destruct Hok as (msg&Em&Hm). by eapply fits_quiet; [apply Hf|]. }
  pose proof (log_did _ _ _ _ Hw El). exists k'. split; [done|]. split; [|done]. by eapply did_working.
Qed.

(** * Running tests *)

Definition report_call (test : Test) (o : Outcome) : trace_call * trace_outcome :=
  match o with
  | Pass => text_call callsite "{}... OK" (test_name test +:+ "... OK")
  | Fail => text_call callsite "{}... FAIL" (test_name test +:+ "... FAIL")
  end.

(** The tests ran one after the other, with these outcomes, and between the
    two states this was called. *)
Inductive tested : list Test -> list Outcome -> list (trace_call * trace_outcome) -> K -> K -> Prop :=
  | tested_nil k : tested [] [] [] k k
  | tested_cons t o cs ts os cs' k k1 k2 k3 :
      imp t k = Ret (o, k1) -> did cs k k1 -> did [report_call t o] k1 k2 ->
      tested ts os cs' k2 k3 -> tested (t :: ts) (o :: os) (cs ++ report_call t o :: cs') k k3.

Definition fails (os : list Outcome) : Z := Z.of_nat (length (filter (.= Fail) os)).

Lemma fails_cons o os : fails (o :: os) = (if decide (o = Fail) then 1 else 0) + fails os.
Proof. unfold fails. rewrite filter_cons. case_decide; simpl; lia. Qed.

Lemma fails_bounds os : 0 <= fails os <= Z.of_nat (length os).
Proof. unfold fails. pose proof (length_filter (.= Fail) os). lia. Qed.

Lemma fails_none os : fails os = 0 <-> Forall (.= Pass) os.
Proof.
  induction os as [|o os IH]; [done|]. rewrite fails_cons, Forall_cons, <-IH.
  pose proof (fails_bounds os). destruct o; case_decide; naive_solver lia.
Qed.

Lemma tested_length ts os cs k k' : tested ts os cs k k' -> length os = length ts.
Proof. induction 1; simpl; congruence. Qed.

Lemma tested_did ts os cs k k' : tested ts os cs k k' -> working k -> did cs k k'.
Proof.
  induction 1 as [|t o cs ts os cs' k k1 k2 k3 _ Hd1 Hd2 _ IH]; intros Hw; [by apply did_nil|].
  eapply did_trans; [done|]. apply (did_trans [_]  _ _ k2); [done|]. apply IH.
  by eapply did_working, Hd2; eapply did_working.
Qed.

(** What [run_loop] reports of a test fits the queue. *)
Definition reports_fit (tests : list Test) : Prop :=
  Forall (fun t => forall o, call_fits (report_call t o)) tests.

Lemma run_loop_ok tests failures k :
  working k -> Forall (fun t => calls_only anything (imp t)) tests -> reports_fit tests ->
  0 <= failures -> failures + Z.of_nat (length tests) < usize_bound ->
  match run_loop tests failures k with
  | Ret (n, k') => exists os cs, tested tests os cs k k' /\ n = failures + fails os
  | Panic w => exists pre t post os cs k1,
      tests = pre ++ t :: post /\ tested pre os cs k k1 /\ imp t k1 = Panic w
  end.
Proof.
  intros Hw Hk. revert failures k Hw. induction Hk as [|t ts Ht _ IH]; intros failures k Hw Hf H0 Hn.
  { exists [], []. split; [constructor|]. unfold fails. simpl. lia. }
  apply Forall_cons in Hf as [Hft Hfts]. cbn [run_loop]. rewrite bind_Code. cbn [length] in Hn.
  destruct (imp t k) as [[o k1]|w] eqn:Et; cbn [mbind rust_bind]; cycle 1.
  { exists [], t, ts, [], [], k. repeat split; [constructor|done]. }
  destruct (Ht _ _ _ Hw Et) as (cs&Hd&_). pose proof (did_working _ _ _ Hw Hd) as Hw1.
  assert (exists k2, working k2 /\ did [report_call t o] k1 k2 /\
    (match o with
     | Pass => log callsite "{}... OK" (test_name t +:+ "... OK");; run_loop ts failures
     | Fail =>
         failures ← in_boot (add_usize failures 1);
         log callsite "{}... FAIL" (test_name t +:+ "... FAIL");; run_loop ts failures
     end) k1 = run_loop ts (failures + fails [o]) k2) as (k2&Hw2&Hd2&->).
  { specialize (Hft o). destruct o; cbn [report_call] in Hft;
      destruct (log_returns _ _ _ Hw1 Hft) as (k2&El&Hw2&Hd2); exists k2; (split; [done|]; split; [done|]).
    - rewrite bind_Code, El. cbn [mbind rust_bind]. by rewrite Z.add_0_r.
    - rewrite bind_Code. unfold in_boot. rewrite add_usize_ok by (unfold is_usize; lia).
      cbn [mbind rust_bind]. rewrite bind_Code, El. done. }
  pose proof (fails_bounds [o]) as Hb. cbn [length] in Hb.
  specialize (IH (failures + fails [o]) k2 Hw2 Hfts ltac:(lia) ltac:(lia)).
  destruct (run_loop ts _ k2) as [[n k']|w].
  - destruct IH as (os&cs'&Hts&->). exists (o :: os), (cs ++ report_call t o :: cs').
    split; [by econstructor|]. rewrite (fails_cons o os), fails_cons. change (fails []) with 0. lia.
  - destruct IH as (pre&t'&post&os&cs'&k3&->&Hts&Et').
    exists (t :: pre), t', post, (o :: os), (cs ++ report_call t o :: cs'), k3.
    split; [done|]. split; [by econstructor|done].
Qed.


Definition running_call (TESTS : list Test) : trace_call * trace_outcome :=
  text_call callsite "Running {} kernel tests" ("Running " +:+ pretty (count_tests TESTS) +:+ " kernel tests").

Definition done_call (TESTS : list Test) (os : list Outcome) : trace_call * trace_outcome :=
  text_call callsite "Done! {} passed and {} failed"
    ("Done! " +:+ pretty (count_tests TESTS - fails os) +:+ " passed and " +:+ pretty (fails os) +:+ " failed").

(** The calls of [run_tests], with those of the tests in [cs]. *)
Definition run_calls (TESTS : list Test) (id : SpanId) (os : list Outcome)
    (cs : list (trace_call * trace_outcome)) : list (trace_call * trace_outcome) :=
  [(NewSpan (span_named "run_tests"), NewId id); (Enter id, Done); running_call TESTS] ++ cs ++ [done_call TESTS os].

Record harness_fits (TESTS : list Test) : Prop := {
  fits_running : call_fits (running_call TESTS);
  fits_reports : reports_fit TESTS;
  fits_done os : call_fits (done_call TESTS os);
}.

(** The tests can be told apart from what the subscriber does, and there are
    not too many to count. *)
Record suite (P : trace_call -> Prop) (TESTS : list Test) : Prop := {
  suite_calls : Forall (fun t => calls_only P (imp t)) TESTS;
  suite_fits : harness_fits TESTS;
  suite_count : count_tests TESTS < usize_bound;
}.

Lemma exit_verdict os : exit (bool_decide (fails os = 0)) = 3 <-> Forall (.= Pass) os.
Proof.
  rewrite <-fails_none. unfold exit. case_bool_decide as Hd.
  - by rewrite success_status.
  - rewrite failure_status. naive_solver lia.
Qed.

Lemma run_tests_ok TESTS k :
  working k -> suite anything TESTS ->
  match run_tests TESTS k with
  | Ret (status, k') => exists id os cs k1 k2,
      tested TESTS os cs k1 k2 /\ did (run_calls TESTS id os cs) k k' /\
      (status = 3 <-> Forall (.= Pass) os)
  | Panic w =>
      enter_span callsite "run_tests" k = Panic w \/
      exists pre t post os cs k1 k2,
        TESTS = pre ++ t :: post /\ tested pre os cs k1 k2 /\ imp t k2 = Panic w
  end.
Proof.
  intros Hw [Hc [Hf1 Hf2 Hf3] Hn]. unfold run_tests. rewrite bind_Code.
  destruct (enter_span callsite "run_tests" k) as [[o k1]|w] eqn:Ee; cbn [mbind rust_bind]; [|by left].
  destruct (enter_span_did _ _ _ _ Hw Ee) as (id&_&Hd1). pose proof (did_working _ _ _ Hw Hd1) as Hw1.
  destruct (log_returns _ _ _ Hw1 Hf1) as (k2&El2&Hw2&Hd2). rewrite bind_Code, El2. cbn [mbind rust_bind].
  rewrite bind_Code. pose proof (run_loop_ok TESTS 0 k2 Hw2 Hc Hf2 ltac:(lia)) as Hl.
  specialize (Hl ltac:(unfold count_tests in Hn; lia)).
  destruct (run_loop TESTS 0 k2) as [[n k3]|w]; cbn [mbind rust_bind]; cycle 1.
  { right. destruct Hl as (pre&t&post&os&cs&k4&?). by exists pre, t, post, os, cs, k2, k4. }
  destruct Hl as (os&cs&Ht&->). rewrite Z.add_0_l. pose proof (tested_did _ _ _ _ _ Ht Hw2) as Hd3.
  pose proof (did_working _ _ _ Hw2 Hd3) as Hw3. pose proof (tested_length _ _ _ _ _ Ht) as Hlen.
  pose proof (fails_bounds os) as Hb. rewrite bind_Code. unfold in_boot.
  rewrite sub_usize_ok by (unfold is_usize, count_tests in *; lia). cbn [mbind rust_bind].
  destruct (log_returns _ _ _ Hw3 (Hf3 os)) as (k4&El4&_&Hd4).
  rewrite bind_Code, El4. cbn [mbind rust_bind].
  exists id, os, cs, k2, k3. split; [done|]. split; [|apply exit_verdict].
  apply (did_trans [_; _; _] _ k k2); [by apply (did_trans [_; _] [_] _ k1)|by eapply did_trans].
Qed.

(** * The [test] attribute *)

(** What an expanded test does: a span around the body, closed wherever the
    body returns. *)
Lemma test_impl_did name body k o k' :
  working k -> calls_only anything body -> test_impl name body k = Ret (o, k') ->
  exists early id b cs k1 k2, body k1 = Ret (early, k2) /\ o = default Pass early /\ did cs k1 k2 /\
    did ([(NewSpan (span_named name), NewId id); (Enter id, Done)] ++ cs ++
         [(Exit id, Done); (TryClose id, Closed b)]) k k'.
Proof.
  intros Hw Hb (guard&k1&E1&(early&k2&E2&([]&k3&E3&[= <- <-])%code_bind_inv)%code_bind_inv)%code_bind_inv.
  destruct (enter_span_did _ _ _ _ Hw E1) as (id&->&Hd1). pose proof (did_working _ _ _ Hw Hd1) as Hw1.
  destruct (Hb _ _ _ Hw1 E2) as (cs&Hd2&_). pose proof (did_working _ _ _ Hw1 Hd2) as Hw2.
  destruct (leave_span_did _ _ _ Hw2 E3) as (b&Hd3).
  exists early, id, b, cs, k1, k2. split; [done|]. split; [done|]. split; [done|].
  apply (did_trans _ _ _ k1); [done|]. by eapply did_trans.
Qed.

Lemma test_impl_calls P name body :
  P (NewSpan (span_named name)) -> (forall id, P (Enter id) /\ P (Exit id) /\ P (TryClose id)) ->
  calls_only P body -> calls_only P (test_impl name body).
Proof.
  intros Hn Hids Hb k o k' Hw
    (guard&k1&E1&(early&k2&E2&([]&k3&E3&[= <- <-])%code_bind_inv)%code_bind_inv)%code_bind_inv.
  destruct (enter_span_did _ _ _ _ Hw E1) as (id&->&Hd1). pose proof (did_working _ _ _ Hw Hd1) as Hw1.
  destruct (Hb _ _ _ Hw1 E2) as (cs&Hd2&Hp). pose proof (did_working _ _ _ Hw1 Hd2) as Hw2.
  destruct (leave_span_did _ _ _ Hw2 E3) as (b&Hd3). destruct (Hids id) as (?&?&?).
  eexists. split; [eapply did_trans; [exact Hd1|]; by eapply did_trans|].
  rewrite !fmap_app. cbn. repeat (apply Forall_cons; split; [done|]). apply Forall_app. split; [done|].
  by repeat (apply Forall_cons; split; [done|]).
Qed.

(** A failed assertion. *)
Lemma andthen_calls P (m n : Body) : calls_only P m -> calls_only P n -> calls_only P (andthen m n).
Proof. intros Hm Hn. apply calls_bind; [done|]. intros [o|]; [apply calls_ret|done]. Qed.

Lemma ktassert_eq_calls P {T} `{EqDecision T} (debug : T -> string) at_ le (l : rust T) re r :
  (forall template text, P (EventOf (message_event (callsite template) text))) ->
  calls_only P (ktassert_eq debug at_ le l re r).
Proof.
  intros HP. apply calls_bind; [apply calls_in_boot|]. intros x.
  apply calls_bind; [apply calls_in_boot|]. intros y. destruct (decide (x = y)); [apply calls_ret|].
  apply calls_bind; [|intros; apply calls_ret]. apply calls_log, HP.
Qed.

(** C37. The macro. It refuses exactly the functions that are [async], take
    arguments or return something, and then registers nothing. What it
    registers for any other function is a test under the function's full
    name that, whenever the body's statements return, passes unless they
    returned [Fail] early, and whose span is created and entered before the
    body, and left and released behind it on both ways out. *)
Theorem generate_test_spec module_path (f : ItemFn) :
  match generate_test module_path f with
  | Rejected _ => asyncness f = true \/ inputs f <> [] \/ output f <> ReturnDefault
  | Registers static_name impl_name test =>
      asyncness f = false /\ inputs f = [] /\ output f = ReturnDefault /\
      static_name = "REGISTER_" +:+ ident f /\ impl_name = ident f +:+ "_impl" /\
      test_name test = module_path +:+ "::" +:+ ident f /\
      forall k o k', working k -> calls_only anything (block f) -> imp test k = Ret (o, k') ->
        exists early id b cs k1 k2, block f k1 = Ret (early, k2) /\ o = default Pass early /\ did cs k1 k2 /\
          did ([(NewSpan (span_named (ident f)), NewId id); (Enter id, Done)] ++ cs ++
               [(Exit id, Done); (TryClose id, Closed b)]) k k'
  end.
Proof.
  unfold generate_test. destruct (asyncness f); [by left|].
  case_bool_decide as Hi; [by right; left|].
  destruct (output f) eqn:Eo; [|by right; right].
  repeat (split; [done|]). intros k o k' Hw Hb Ei. by eapply test_impl_did.
Qed.

(** C36. [run_tests] on any suite whose tests only talk to the subscriber and
    whose reports fit the queue's slots. It ends the machine: with status 3
    exactly if every test passed. Every test runs, in order, and the
    subscriber is told of the count, of every test's outcome right behind
    the test, and of the totals. The only other ways out are that no span
    can be had for the run or that a test panics. *)
Theorem run_tests_spec TESTS k :
  working k -> suite anything TESTS ->
  match run_tests TESTS k with
  | Ret (status, k') => exists id os cs k1 k2,
      tested TESTS os cs k1 k2 /\ did (run_calls TESTS id os cs) k k' /\
      (status = 3 <-> Forall (.= Pass) os)
  | Panic w =>
      enter_span callsite "run_tests" k = Panic w \/
      exists pre t post os cs k1 k2,
        TESTS = pre ++ t :: post /\ tested pre os cs k1 k2 /\ imp t k2 = Panic w
  end.
Proof. apply run_tests_ok. Qed.

(** ** Nothing is sent *)

Lemma run_loop_calls P tests failures :
  (forall template text, P (EventOf (message_event (callsite template) text))) ->
  Forall (fun t => calls_only P (imp t)) tests -> calls_only P (run_loop tests failures).
Proof.
  intros HP Ht. revert failures. induction Ht as [|t ts Ht _ IH]; intros failures; [apply calls_ret|].
  apply calls_bind; [done|]. intros [].
  - apply calls_bind; [apply calls_log, HP|]. intros _. apply IH.
  - apply calls_bind; [apply calls_in_boot|]. intros n.
    apply calls_bind; [apply calls_log, HP|]. intros _. apply IH.
Qed.

Lemma run_tests_quiet TESTS :
  Forall (fun t => calls_only not_work (imp t)) TESTS -> calls_only not_work (run_tests TESTS).
Proof.
  intros Ht. apply calls_bind; [by apply calls_enter|]. intros _.
  apply calls_bind; [by apply calls_log|]. intros _.
  apply calls_bind; [by apply run_loop_calls|]. intros n.
  apply calls_bind; [apply calls_in_boot|]. intros m.
  apply calls_bind; [by apply calls_log|]. intros _. apply calls_ret.
Qed.

Lemma flush_did k k' : working k -> flush_traces k = Ret (tt, k') -> did [(Work, Done)] k k'.
Proof.
  intros (w&tr&s&Ek&_) El. unfold flush_traces in El.
  rewrite Ek, (flush_running _ _ x86_64_current_processor) in El.
  destruct (run_trace _ _ _) as [[s1 o]|] eqn:Er; [|done]. cbn [mbind rust_bind] in El. injection El as <-.
  assert (o = Done) as -> by (cbn [run_trace] in Er; by destruct (work _ _) as [[]|]; simplify_eq/=).
  exists s, s1. split; [done|]. split; [done|]. econstructor; [exact Hcpu|exact Er|constructor].
Qed.

(** A test run reports to nobody: the flush behind [run_tests] cannot be
    reached, and unless a test flushes, all the messages of the run (which
    tests there were, what failed and why) are still in the queue when the
    machine ends. The port has sent what it had sent before the run. *)
Theorem test_reports_unsent address TESTS k status k' :
  working k -> Forall (fun t => calls_only not_work (imp t)) TESTS ->
  kmain_test address TESTS k = Ret (status, k') ->
  exists guard k0 k1 s1 s', enter_span_with callsite "kmain" [("at"%string, RU64 address)] k = Ret (guard, k0) /\
    flush_traces k0 = Ret (tt, k1) /\ run_tests TESTS k1 = Ret (status, k') /\
    k_trace k1 = running s1 /\ k_trace k' = running s' /\ sent_bytes s' = sent_bytes s1.
Proof.
  intros Hw Ht (guard&k0&E0&([]&k1&E1&E2)%code_bind_inv)%code_bind_inv.
  destruct (enter_span_with_did _ _ _ _ _ Hw E0) as (id&_&Hd0). pose proof (did_working _ _ _ Hw Hd0) as Hw0.
  pose proof (flush_did _ _ Hw0 E1) as Hd1. pose proof (did_working _ _ _ Hw0 Hd1) as Hw1.
  destruct (run_tests_quiet _ Ht _ _ _ Hw1 E2) as (cs&(s1&s'&Es1&Es'&Htr)&Hq).
  exists guard, k0, k1, s1, s'. repeat (split; [done|]).
  unfold sent_bytes. by rewrite (traces_worker _ _ _ Htr Hq).
Qed.

(** * The kernel's tests pass *)

Lemma ktassert_eq_holds {T} `{EqDecision T} (debug : T -> string) at_ le l re r (v : T) rest k :
  l = Ret v -> r = Ret v -> andthen (ktassert_eq debug at_ le l re r) rest k = rest k.
Proof.
  intros -> ->. unfold andthen, ktassert_eq. rewrite !bind_Code. cbn [in_boot mbind rust_bind].
  rewrite bind_Code. cbn [in_boot mbind rust_bind]. by rewrite decide_True.
Qed.

Lemma test_address_ops_holds k : test_address_ops k = Ret (None, k).
Proof.
  unfold test_address_ops. rewrite (ktassert_eq_holds _ _ _ _ _ _ (physical 128)) by done.
  rewrite (ktassert_eq_holds _ _ _ _ _ _ (physical 120)) by done.
  rewrite (ktassert_eq_holds _ _ _ _ _ _ 24) by done. rewrite bind_Code.
  change (in_boot (add (physical 4096) 4096) k) with (Ret (physical 8192, k)). cbn [mbind rust_bind].
  rewrite (ktassert_eq_holds _ _ _ _ _ _ (physical 8192)) by done. rewrite bind_Code.
  change (in_boot (sub (physical 8192) 1024) k) with (Ret (physical 7168, k)). cbn [mbind rust_bind].
  by rewrite (ktassert_eq_holds _ _ _ _ _ _ (physical 7168)).
Qed.

Lemma test_format_holds debug k : test_format debug k = Ret (None, k).
Proof.
  unfold test_format. rewrite (ktassert_eq_holds _ _ _ _ _ _ "0x0000002000") by done.
  by rewrite (ktassert_eq_holds _ _ _ _ _ _ "VirtualAddress(0x0000002000)").
Qed.

(** The slice of tests, in some order. *)
Definition kernel_items (debug : string -> string) : list ItemFn :=
  [MkItemFn false [] "test_address_ops" ReturnDefault test_address_ops;
   MkItemFn false [] "test_format" ReturnDefault (test_format debug)].

Definition registered (module_path : string) (f : ItemFn) : option Test :=
  match generate_test module_path f with Registers _ _ test => Some test | Rejected _ => None end.

Definition kernel_tests (debug : string -> string) : list Test :=
  omap (registered "platypos_kernel::mm::address::tests") (kernel_items debug).

(** No span can be had, or none can be given back. *)
Definition out_of_spans (w : panic) : Prop :=
  exists k, (exists name, enter_span callsite name k = Panic w) \/ exists guard, leave_span guard k = Panic w.

Lemma test_impl_holds name body k :
  (forall k, body k = Ret (None, k)) ->
  match test_impl name body k with Ret (o, _) => o = Pass | Panic w => out_of_spans w end.
Proof.
  intros Hb. unfold test_impl. rewrite bind_Code.
  destruct (enter_span callsite name k) as [[guard k1]|w] eqn:E1; cbn [mbind rust_bind];
    [|exists k; left; by exists name].
  rewrite bind_Code, Hb. cbn [mbind rust_bind]. rewrite bind_Code.
  destruct (leave_span guard k1) as [[[] k2]|w] eqn:E2; cbn [mbind rust_bind]; [done|].
  exists k1. right. by exists guard.
Qed.

Lemma kernel_test debug t :
  t ∈ kernel_tests debug -> exists name body, imp t = test_impl name body /\
    (forall k, body k = Ret (None, k)) /\ calls_only not_work body.
Proof.
  cbn. intros [->|[->|[]%elem_of_nil]%elem_of_cons]%elem_of_cons; eexists _, _; (split; [done|]); split.
  - apply test_address_ops_holds.
  - intros k a k' Hw. rewrite test_address_ops_holds. intros [= <- <-]. exists []. by split; [apply did_nil|].
  - apply test_format_holds.
  - intros k a k' Hw. rewrite test_format_holds. intros [= <- <-]. exists []. by split; [apply did_nil|].
Qed.

Lemma kernel_tests_quiet debug : Forall (fun t => calls_only not_work (imp t)) (kernel_tests debug).
Proof.
  apply Forall_forall. intros t (name&body&->&_&Hb)%kernel_test. by apply test_impl_calls.
Qed.

Lemma calls_anything P {A} (m : Code A) : calls_only P m -> calls_only anything m.
Proof.
  intros Hm k a k' Hw E1. destruct (Hm k a k' Hw E1) as (cs&Hd&_). exists cs. split; [done|].
  by apply Forall_forall.
Qed.

Lemma tested_pass debug ts os cs k k' :
  tested ts os cs k k' -> Forall (.∈ kernel_tests debug) ts -> Forall (.= Pass) os.
Proof.
  induction 1 as [|t o cs ts os cs' k k1 k2 k3 Et _ _ _ IH]; [done|].
  intros [(name&body&Ei&Hb&_)%kernel_test Hts]%Forall_cons. constructor; [|by apply IH].
  pose proof (test_impl_holds name body k Hb) as Hr. by rewrite <-Ei, Et in Hr.
Qed.

Lemma kernel_suite debug : harness_fits (kernel_tests debug) -> suite anything (kernel_tests debug).
Proof.
  intros Hf. split; [|done|done]. eapply Forall_impl; [apply kernel_tests_quiet|]. intros t. apply calls_anything.
Qed.

(** The kernel's own tests of addresses pass: in a run of them, whatever
    the kernel did before, the machine ends with the status for success,
    unless the subscriber is out of spans. *)
Theorem kernel_tests_pass debug k :
  working k -> harness_fits (kernel_tests debug) ->
  match run_tests (kernel_tests debug) k with
  | Ret (status, _) => status = 3
  | Panic w => out_of_spans w
  end.
Proof.
  intros Hw Hf. pose proof (run_tests_ok (kernel_tests debug) k Hw (kernel_suite debug Hf)) as Hr.
  destruct (run_tests _ k) as [[status k']|w].
  - destruct Hr as (id&os&cs&k1&k2&Ht&_&Hs).
    apply Hs. apply (tested_pass debug _ _ _ _ _ Ht). by apply Forall_forall.
  - destruct Hr as [He|(pre&t&post&os&cs&k1&k2&Ets&_&Et)].
    + exists k. left. by eexists.
    + destruct (kernel_test debug t) as (name&body&Ei&Hb&_); [rewrite Ets; set_solver|].
      pose proof (test_impl_holds name body k2 Hb) as Hr. by rewrite <-Ei, Et in Hr.
Qed.
End ktest.

(** * A run *)

Section run.
#[local] Existing Instance lsb_first.
#[local] Existing Instance dev_profile.
#[local] Existing Instance x86_64_topology.
#[local] Existing Instance KTrace.list_queue.
#[local] Existing Instance KTrace.toy_serializer.
#[local] Existing Instance doubling_exit.

#[local] Abbreviation SampleTest := (Test (Q := list (KTrace.Message unit)) (Pic := Apic.SimplePic)
  (Idt := gmap Z Hal.Handler) (Cpu := Apic.IntelCpu) (H := Z * Z)).

(** A kernel whose trace worker has just started. *)
#[local] Definition idle_kernel :
    Kernel Apic.SimplePic (gmap Z Hal.Handler) Apic.IntelCpu (list (KTrace.Message unit)) (Z * Z) :=
  MkKernel Hal.cold_machine Apic.boot_cpu false (running Boot.traced_system) (heap_new (heap := bump_heap))
    global_new global_new.

Lemma idle_working : working idle_kernel.
Proof. exists [], [], Boot.traced_system. split; [done|apply Boot.traced_system_ran]. Qed.

Lemma sample_processor : boot_processor.
Proof. done. Qed.

Lemma sample_fits (TESTS : list SampleTest) : harness_fits Boot.place TESTS.
Proof.
  split; [apply toy_fits| |intros; apply toy_fits]. apply Forall_forall. intros t _ o. apply toy_fits.
Qed.

#[local] Definition sample_tests : list SampleTest := kernel_tests Boot.place quoted.

(** A test with an assertion that fails, behind the kernel's. *)
#[local] Definition failing_test : SampleTest :=
  MkTest "tests::test_failing" (test_impl Boot.place "test_failing"
    (andthen (ktassert Boot.place (at_line 1) "false" (Ret false)) and_finally)).

#[local] Definition mixed_tests : list SampleTest := sample_tests ++ [failing_test].

Lemma failing_quiet : calls_only not_work (imp failing_test).
Proof.
  apply test_impl_calls; [done..|]. apply andthen_calls; [|apply calls_ret].
  apply calls_bind; [apply calls_in_boot|]. intros []; [apply calls_ret|].
  apply calls_bind; [by apply calls_log|]. intros _. apply calls_ret.
Qed.

Lemma mixed_quiet : Forall (fun t : SampleTest => calls_only not_work (imp t)) mixed_tests.
Proof.
  apply Forall_app. split; [by apply kernel_tests_quiet|]. apply Forall_singleton, failing_quiet.
Qed.

Lemma run_tests_spec_witness :
  exists k' id os cs k1 k2, run_tests Boot.place mixed_tests idle_kernel = Ret (1, k') /\
    tested Boot.place mixed_tests os cs k1 k2 /\
    did (run_calls Boot.place mixed_tests id os cs) idle_kernel k' /\ ~ Forall (.= Pass) os.
Proof.
  assert (Hs : suite Boot.place anything mixed_tests).
  { split; [|apply sample_fits|done]. eapply Forall_impl; [apply mixed_quiet|]. intros t. apply calls_anything. }
  pose proof (run_tests_spec Boot.place sample_processor mixed_tests idle_kernel idle_working Hs) as Hr.
  destruct (run_tests Boot.place mixed_tests idle_kernel) as [[status k']|w] eqn:E1.
  - assert (status = 1) as -> by (vm_compute in E1; congruence).
    destruct Hr as (id&os&cs&k1&k2&Ht&Hd&Hv). exists k', id, os, cs, k1, k2.
    split; [reflexivity|]. split; [exact Ht|]. split; [exact Hd|]. intros Hp. apply Hv in Hp. discriminate Hp.
  - exfalso. vm_compute in E1. discriminate E1.
Defined.

Lemma test_reports_unsent_witness :
  exists k' guard k0 k1 s1 s', kmain_test Boot.place 0x8000000000 mixed_tests idle_kernel = Ret (1, k') /\
    enter_span_with Boot.place "kmain" [("at"%string, RU64 0x8000000000)] idle_kernel = Ret (guard, k0) /\ flush_traces k0 = Ret (tt, k1) /\
    run_tests Boot.place mixed_tests k1 = Ret (1, k') /\
    k_trace k1 = running s1 /\ k_trace k' = running s' /\ sent_bytes s' = sent_bytes s1 /\
    (0 < length (queued (queue_of s')))%nat.
Proof.
  destruct (kmain_test Boot.place 0x8000000000 mixed_tests idle_kernel) as [[status k']|w] eqn:E1;
    [|exfalso; vm_compute in E1; discriminate E1].
  assert (status = 1) as -> by (vm_compute in E1; congruence).
  destruct (test_reports_unsent Boot.place sample_processor 0x8000000000 mixed_tests idle_kernel 1 k' idle_working mixed_quiet E1)
    as (guard&k0&k1&s1&s'&H0&H1&H2&H3&H4&H5).
  exists k', guard, k0, k1, s1, s'. split; [reflexivity|]. repeat (split; [assumption|]).
  assert (Eq : queued (queue_of s') = QUEUE (k_trace k')) by (rewrite H4; reflexivity).
  rewrite Eq. vm_compute in E1. injection E1 as <-. vm_compute. lia.
Defined.

Lemma kernel_tests_pass_witness :
  exists k', run_tests Boot.place sample_tests idle_kernel = Ret (3, k').
Proof.
  pose proof (kernel_tests_pass Boot.place sample_processor quoted idle_kernel idle_working (sample_fits _)) as Hr.
  change (kernel_tests Boot.place quoted) with sample_tests in Hr.
  destruct (run_tests Boot.place sample_tests idle_kernel) as [[status k']|w] eqn:E1.
  - subst status. by exists k'.
  - exfalso. vm_compute in E1. discriminate E1.
Defined.

#[local] Definition failing_item : ItemFn (Q := list (KTrace.Message unit)) (Pic := Apic.SimplePic)
    (Idt := gmap Z Hal.Handler) (Cpu := Apic.IntelCpu) (H := Z * Z) :=
  MkItemFn false [] "test_failing" ReturnDefault
    (andthen (ktassert Boot.place (at_line 1) "false" (Ret false)) and_finally).

Lemma failing_item_calls : calls_only anything (block failing_item).
Proof.
  apply andthen_calls; [|apply calls_ret]. apply calls_bind; [apply calls_in_boot|].
  intros []; [apply calls_ret|]. apply calls_bind; [by apply calls_log|]. intros _. apply calls_ret.
Qed.

Lemma failing_runs :
  match imp failing_test idle_kernel with Ret (Fail, _) => True | _ => False end.
Proof. vm_compute. exact I. Qed.

Lemma generate_test_spec_witness :
  match generate_test Boot.place "tests" failing_item with
  | Registers _ _ test =>
      test_name test = "tests::test_failing"%string /\
      exists k' early k1 k2, imp test idle_kernel = Ret (Fail, k') /\
        block failing_item k1 = Ret (early, k2) /\ Fail = default Pass early
  | Rejected _ => False
  end.
Proof.
  pose proof (generate_test_spec Boot.place sample_processor "tests" failing_item) as (_&_&_&_&_&Hn&Hi).
  split; [exact Hn|]. pose proof failing_runs as Hrun.
  destruct (imp failing_test idle_kernel) as [[[] k']|w] eqn:E1; [destruct Hrun| |destruct Hrun].
  destruct (Hi idle_kernel Fail k' idle_working failing_item_calls E1) as (early&id&b&cs&k1&k2&Hb&Ho&_).
  exists k', early, k1, k2. split; [exact E1|]. split; [exact Hb|exact Ho].
Defined.
End run.
