(* ===== verification/Host.v ===== *)
(** The host's side of the build tool: files, processes and standard output
    as the tool sees them, its logger ([xtask/src/output.rs]), the platform
    ([platform.rs]), the wrapper around cargo ([tools/cargo.rs]) and the
    debugger's files ([tools/gdb.rs]). Programs that are started, and the
    crates behind them, are a class without laws: what they do is up to
    them. *)
From Stdlib Require Import Ascii.
From S2P Require Import Prelude Address Bitfields Topology Slot FreeLists Slab SlabSpec Proto.
From S2P Require Import Decoder KTrace Fmt.


(** * Files *)

(** [Utf8Path]: whether it starts at the root, and its components. *)
Record Utf8Path := MkPath { rooted : bool; parts : list string }.

#[export] Instance Utf8Path_eq_dec : EqDecision Utf8Path.
Proof. solve_decision. Defined.

Definition display_path (p : Utf8Path) : string :=
  (if rooted p then "/" else "") +:+ String.concat "/" (parts p).

(** [Path::parent], [Path::file_name], and [Path::join] with one component. *)
Definition parent (p : Utf8Path) : option Utf8Path :=
  match parts p with
  | [] => None
  | cs => Some (MkPath (rooted p) (take (length cs - 1) cs))
  end.

Definition file_name (p : Utf8Path) : option string :=
  match last (parts p) with
  | Some c => if decide (c = "..") then None else Some c
  | None => None
  end.

Definition join (p : Utf8Path) (component : string) : Utf8Path := MkPath (rooted p) (parts p ++ [component]).

(** [io::Error]: the kind that is looked at, or another with its text. *)
Inductive io_error := NotFound | OtherIo (text : string).

Definition display_io (e : io_error) : string :=
  match e with NotFound => "No such file or directory (os error 2)" | OtherIo text => text end.

(** An [eyre::Report] is the messages of its chain, the latest context
    first. *)
Abbreviation Report := (list string).

(** What has been written to standard output: bytes and text. *)
Inductive chunk := Bytes (bs : list Z) | Text (text : string).

Inductive LevelFilter := FilterOff | FilterError | FilterWarn | FilterInfo | FilterDebug | FilterTrace.
Inductive LogLevel := LogError | LogWarn | LogInfo | LogDebug | LogTrace.

(** The contents of the files that exist; the failures that the next
    operations on files run into, if any (the error, and how much of a
    write is done before it); standard output and error; and what
    [OutputOpts::init] sets up in the libraries. *)
Record World := MkWorld {
  files : gmap string string;
  faults : list (option (string * nat));
  stdout : list chunk;
  stderr : list string;
  eyre_installed : bool;
  color_override : option bool;
  logger : option LevelFilter;
  max_level : LevelFilter;
}.

(** A call of the tool's code returns, fails with a report, or panics. *)
Inductive outcome (A : Type) :=
  | Returned (a : A)
  | Failed (report : Report)
  | Panicked (why : panic).
Arguments Returned {A}.
Arguments Failed {A}.
Arguments Panicked {A}.

Definition Tool (A : Type) : Type := World -> World * outcome A.

#[export] Instance tool_ret : MRet Tool := fun A a w => (w, Returned a).
#[export] Instance tool_bind : MBind Tool := fun A B f m w =>
  match m w with
  | (w, Returned a) => f a w
  | (w, Failed r) => (w, Failed r)
  | (w, Panicked p) => (w, Panicked p)
  end.

Definition bail {A} (text : string) : Tool A := fun w => (w, Failed [text]).

Definition unwrap {A} (o : option A) : Tool A := fun w =>
  (w, match o with Some a => Returned a | None => Panicked ExpectFailed end).

Definition ok_or {A} (o : option A) (report : Report) : Tool A := fun w =>
  (w, match o with Some a => Returned a | None => Failed report end).

(** [?] on a [Result], and [wrap_err]. *)
Definition try {A} (r : result A Report) : Tool A := fun w =>
  (w, match r with Ok a => Returned a | Err report => Failed report end).

Definition wrap_err {A} (context : string) (m : Tool A) : Tool A := fun w =>
  match m w with
  | (w, Failed report) => (w, Failed (context :: report))
  | r => r
  end.

(** [m], and [cleanup] however it ends: the drop of a value. *)
Definition finally {A} (m : Tool A) (cleanup : World -> World) : Tool A := fun w =>
  let '(w, r) := m w in (cleanup w, r).

Definition set_files (fs : gmap string string) (w : World) : World :=
  MkWorld fs (faults w) (stdout w) (stderr w) (eyre_installed w) (color_override w) (logger w) (max_level w).

Definition print (c : chunk) (w : World) : World :=
  MkWorld (files w) (faults w) (stdout w ++ [c]) (stderr w) (eyre_installed w) (color_override w) (logger w) (max_level w).

Definition eprint (text : string) (w : World) : World :=
  MkWorld (files w) (faults w) (stdout w) (stderr w ++ [text]) (eyre_installed w) (color_override w) (logger w) (max_level w).

(** The failure of the next operation on files. *)
Definition next_fault (w : World) : World * option (string * nat) :=
  (MkWorld (files w) (tail (faults w)) (stdout w) (stderr w) (eyre_installed w) (color_override w) (logger w) (max_level w),
   match faults w with f :: _ => f | [] => None end).

(** An operation that either fails before it does anything or is [f] on the
    files. *)
Definition fs_op {A} (f : gmap string string -> gmap string string * result A io_error) (w : World)
    : World * result A io_error :=
  match next_fault w with
  | (w, Some (text, _)) => (w, Err (OtherIo text))
  | (w, None) => let '(fs, r) := f (files w) in (set_files fs w, r)
  end.

(** Directories are there once they have been created. *)
Definition create_dir_all (path : string) : World -> World * result unit io_error :=
  fs_op (fun fs => (fs, Ok tt)).

Definition exists_ (path : string) (w : World) : World * bool :=
  match fs_op (fun fs => (fs, Ok (bool_decide (is_Some (fs !! path))))) w with
  | (w, Ok b) => (w, b)
  | (w, Err _) => (w, false)
  end.

Definition file_create (path : string) : World -> World * result unit io_error :=
  fs_op (fun fs => (<[path := ""]> fs, Ok tt)).

Definition fs_read (path : string) : World -> World * result string io_error :=
  fs_op (fun fs => (fs, match fs !! path with Some text => Ok text | None => Err NotFound end)).

Definition remove_file (path : string) : World -> World * result unit io_error :=
  fs_op (fun fs => match fs !! path with Some _ => (delete path fs, Ok tt) | None => (fs, Err NotFound) end).

Definition newline : string := String (ascii_of_nat 10) "".

(** [writeln!] to an open file; what fails may have been done in part. *)
Definition write_line (path line : string) (w : World) : World * result unit io_error :=
  let append text w := set_files (alter (fun old => old +:+ text) path (files w)) w in
  match next_fault w with
  | (w, Some (text, n)) => (append (String.substring 0 n (line +:+ newline)) w, Err (OtherIo text))
  | (w, None) => (append (line +:+ newline) w, Ok tt)
  end.

(** An I/O result under [?]. *)
Definition io {A} (m : World -> World * result A io_error) : Tool A := fun w =>
  match m w with
  | (w, Ok a) => (w, Returned a)
  | (w, Err e) => (w, Failed [display_io e])
  end.

(** * Programs *)

(** [ExitStatus]; a signal with its description. *)
Inductive ExitStatus := Exited (code : Z) | Signaled (signal : string).

Definition success (status : ExitStatus) : bool := match status with Exited c => bool_decide (c = 0) | _ => false end.

Definition code (status : ExitStatus) : option Z := match status with Exited c => Some c | _ => None end.

Definition display_status (status : ExitStatus) : string :=
  match status with Exited c => "exit status: " +:+ pretty c | Signaled s => "signal: " +:+ s end.

Record Command := MkCommand { program : string; args : list string; env : list (string * string) }.

(** Cargo's messages: of a compiled artifact the name of its target and the
    executable, if it is one. *)
Inductive CargoMessage := CompilerArtifact (target_name : string) (executable : option Utf8Path) | OtherMessage.

(** A run of cargo: the files it leaves, its messages as they can be read,
    and how waiting for it ends. *)
Record CargoRun := MkCargoRun {
  cargo_files : gmap string string;
  cargo_messages : list (result CargoMessage string);
  cargo_status : result ExitStatus string;
}.

(** A run of QEMU: the files once it is running, its standard output as it
    is read, how it ends, and what it does to the files when it ends by
    itself. *)
Record QemuRun := MkQemuRun {
  qemu_files : gmap string string;
  qemu_output : reads string;
  qemu_status : ExitStatus;
  qemu_finished : gmap string string -> gmap string string;
}.

(** Everything that is run: each either cannot be started or runs. The
    texts of the libraries' errors, the formatting of commands and the terminal's colours on standard error. *)
Class Programs := {
  run_cargo : Command -> gmap string string -> result CargoRun string;
  run_qemu : Command -> gmap string string -> result QemuRun string;
  run_gdb : Command -> gmap string string -> result unit string;
  create_disk_image : Utf8Path -> Utf8Path -> gmap string string -> result (gmap string string) string;
  enable_ansi_support : result unit Z;
  installed_error : string;
  logger_error : string;
  debug_command : Command -> string;
  paint_stderr : color -> string -> string;
}.

Section host.
Context {programs : Programs} {rendering : Rendering}.

(** * The logger *)

Definition filter_rank (f : LevelFilter) : Z :=
  match f with
  | FilterOff => 0 | FilterError => 1 | FilterWarn => 2 | FilterInfo => 3 | FilterDebug => 4 | FilterTrace => 5
  end.

Definition level_rank (l : LogLevel) : Z :=
  match l with LogError => 1 | LogWarn => 2 | LogInfo => 3 | LogDebug => 4 | LogTrace => 5 end.

(** [OutputLog::enabled] and [OutputLog::log], on a logger with [filter]. *)
Definition enabled (filter : LevelFilter) (l : LogLevel) : bool := bool_decide (level_rank l <= filter_rank filter).

Definition log_record (filter : LevelFilter) (l : LogLevel) (text : string) (w : World) : World :=
  if enabled filter l then
    let w :=
      match l with
      | LogError => print (Text (paint Red "🚨" +:+ " ")) w
      | LogWarn => print (Text (paint Yellow "⚠️")) w
      | _ => w
      end in
    print (Text (text +:+ newline)) w
  else w.

(** [log::info!] and the other macros. *)
Definition log_text (l : LogLevel) (text : string) : Tool unit := fun w =>
  (match logger w with
   | Some filter => if bool_decide (level_rank l <= filter_rank (max_level w)) then log_record filter l text w else w
   | None => w
   end, Returned tt).

Inductive ColorChoice := ColorAlways | ColorAuto | ColorNever.

Record OutputOpts := MkOutputOpts { color_choice : ColorChoice; verbose : bool }.

(** [OutputOpts::init]. The report handler and the logger can be installed
    once. *)
Definition install_eyre : Tool unit := fun w =>
  if eyre_installed w then (w, Failed [installed_error])
  else (MkWorld (files w) (faults w) (stdout w) (stderr w) true (color_override w) (logger w) (max_level w), Returned tt).

Definition set_override (o : option bool) : Tool unit := fun w =>
  (MkWorld (files w) (faults w) (stdout w) (stderr w) (eyre_installed w) o (logger w) (max_level w), Returned tt).

Definition set_boxed_logger (filter : LevelFilter) : Tool unit := fun w =>
  match logger w with
  | Some _ => (w, Failed [logger_error])
  | None => (MkWorld (files w) (faults w) (stdout w) (stderr w) (eyre_installed w) (color_override w) (Some filter) (max_level w), Returned tt)
  end.

Definition set_max_level (filter : LevelFilter) : Tool unit := fun w =>
  (MkWorld (files w) (faults w) (stdout w) (stderr w) (eyre_installed w) (color_override w) (logger w) filter, Returned tt).

Definition output_init (opts : OutputOpts) : Tool unit :=
  install_eyre;;
  set_override (match color_choice opts with ColorAlways => Some true | ColorAuto => None | ColorNever => Some false end);;
  (match color_choice opts with
   | ColorAlways | ColorAuto =>
       match enable_ansi_support with
       | Ok _ => mret tt
       | Err e => bail ("could not enable ANSI colors: code " +:+ pretty e)
       end
   | ColorNever => mret tt
   end);;
  let level_filter := if verbose opts then FilterTrace else FilterInfo in
  set_boxed_logger level_filter;;
  set_max_level level_filter.

(** * The platform *)

Inductive Platform := X86_64.

Definition platform_name (p : Platform) : string := match p with X86_64 => "x86_64" end.

(** * Cargo *)

Record Cargo := MkCargo { cargo : Utf8Path }.

Record BuildSpec := MkBuildSpec {
  crate_name : string;
  platform : Platform;
  test : bool;
  defmt_filter : string;
}.

Abbreviation BuildOutput := (gmap string Utf8Path).

Record Flags := MkFlags {
  target_triple : string;
  build_flags : list string;
  rust_flags : list string;
  cxx_flags : list string;
}.

(** [str::strip_prefix]. *)
Fixpoint strip_prefix (prefix s : string) : option string :=
  match prefix, s with
  | EmptyString, _ => Some s
  | String a prefix, String b s => if decide (a = b) then strip_prefix prefix s else None
  | String _ _, EmptyString => None
  end.

Definition manifest_path (crate : string) : Utf8Path :=
  join (MkPath false [default crate (strip_prefix "platypos_" crate)]) "Cargo.toml".

Definition cargo_new (cargo_override : option Utf8Path) : Cargo :=
  MkCargo (default (MkPath false ["cargo"]) cargo_override).

Definition flags_for (p : Platform) : Flags :=
  match p with
  | X86_64 => MkFlags "x86_64-unknown-none" []
      ["-Cforce-unwind-tables"; "-Clink-arg=-z"; "-Clink-arg=nostart-stop-gc"; "-Clink-arg=-T./link/eh_frame.ld"]
      ["-fno-stack-protector"]
  end.

(** A variable for the flags, unless there are none, and the message about
    it. *)
Definition flag_env (name : string) (flags : list string) : list (string * string) :=
  match flags with [] => [] | _ => [(name, String.concat " " flags)] end.

Definition log_flags (name : string) (flags : list string) : Tool unit :=
  match flags with [] => mret tt | _ => log_text LogDebug (name +:+ " = " +:+ String.concat " " flags) end.

(** The command that [build] assembles. *)
Definition build_command (c : Cargo) (spec : BuildSpec) : Command :=
  let flags := flags_for (platform spec) in
  MkCommand (display_path (cargo c))
    (["build"; "-p"; crate_name spec; "--message-format=json-render-diagnostics";
      "--target"; target_triple flags] ++ build_flags flags ++ (if test spec then ["--tests"] else []))
    (flag_env "RUSTFLAGS" (rust_flags flags) ++ flag_env "CXXFLAGS" (cxx_flags flags) ++
     [("DEFMT_LOG", defmt_filter spec)]).

(** The loop over cargo's messages. *)
Fixpoint collect_executables (messages : list (result CargoMessage string)) (executables : BuildOutput)
    : result BuildOutput Report :=
  match messages with
  | [] => Ok executables
  | Err e :: _ => Err ["unparseable Cargo message"; e]
  | Ok (CompilerArtifact name (Some executable)) :: messages =>
      collect_executables messages (<[name := executable]> executables)
  | Ok _ :: messages => collect_executables messages executables
  end.

(** [cmd.spawn()]. *)
Definition spawn_cargo (cmd : Command) : Tool CargoRun := fun w =>
  match run_cargo cmd (files w) with
  | Ok run => (set_files (cargo_files run) w, Returned run)
  | Err e => (w, Failed ["cargo execution failed"; e])
  end.

Definition cargo_build (c : Cargo) (spec : BuildSpec) : Tool BuildOutput :=
  log_text LogInfo ("Building " +:+ paint Green (crate_name spec) +:+ " for " +:+
                    paint Blue (platform_name (platform spec)));;
  let flags := flags_for (platform spec) in
  let cmd := build_command c spec in
  log_flags "RUSTFLAGS" (rust_flags flags);;
  log_flags "CXXFLAGS" (cxx_flags flags);;
  log_text LogDebug ("Cargo command line: " +:+ debug_command cmd);;
  proc ← spawn_cargo cmd;
  executables ← try (collect_executables (cargo_messages proc) ∅);
  match cargo_status proc with
  | Err e => try (Err ["waiting on Cargo failed"; e])
  | Ok status =>
      if success status then mret executables
      else bail ("cargo failed with " +:+ display_status status)
  end.

(** [BuildOutput::executable]. *)
Definition executable_of (output : BuildOutput) (crate : string) : Tool Utf8Path :=
  ok_or (output !! crate) ["no executable for crate " +:+ crate].

(** * GDB *)

Definition GDB_DIR : string := "target/gdb".
Definition SOCKET_PATH : string := "target/gdb/gdb.sock".
Definition INIT_PATH : string := "target/gdb/gdbinit".

(** [Server]: whether QEMU should wait for GDB. *)
Record Server := MkServer { should_wait : bool }.

Definition write_config (target_binary : Utf8Path) (path : string) : Tool unit :=
  io (write_line path ("target remote " +:+ SOCKET_PATH));;
  io (write_line path ("add-symbol-file " +:+ display_path target_binary));;
  io (write_line path "tui enable");;
  io (write_line path "hbreak platypos_kernel::panic::panic").

(** What is written when nothing fails. *)
Definition config_text (target_binary : Utf8Path) : string :=
  "target remote " +:+ SOCKET_PATH +:+ newline +:+
  "add-symbol-file " +:+ display_path target_binary +:+ newline +:+
  "tui enable" +:+ newline +:+ "hbreak platypos_kernel::panic::panic" +:+ newline.

(** [SOCKET_PATH.exists()]. *)
Definition path_exists (path : string) : Tool bool := fun w => let '(w, b) := exists_ path w in (w, Returned b).

Definition server_new (target_binary : Utf8Path) (wait : bool) : Tool Server :=
  io (create_dir_all GDB_DIR);;
  there ← path_exists SOCKET_PATH;
  if there : bool then bail (SOCKET_PATH +:+ " already exists - is another QEMU instance already running?")
  else
    io (file_create INIT_PATH);;
    wrap_err ("could not write GDB config file " +:+ INIT_PATH) (write_config target_binary INIT_PATH);;
    mret (MkServer wait).

Definition try_remove (path : string) (w : World) : World :=
  match remove_file path w with
  | (w, Err (OtherIo text)) =>
      eprint ("Could not remove " +:+ paint_stderr Red path +:+ ": " +:+ text +:+ newline) w
  | (w, _) => w
  end.

(** [Drop for Server]. *)
Definition drop_server (w : World) : World := try_remove INIT_PATH (try_remove SOCKET_PATH w).

(** [gdb::run]. *)
Definition gdb_run : Tool unit :=
  init ← path_exists INIT_PATH;
  if negb init then bail ("Expected GDB config at " +:+ INIT_PATH +:+ ". Is QEMU running?")
  else
    socket ← path_exists SOCKET_PATH;
    if negb socket then bail ("Expected GDB socket at " +:+ SOCKET_PATH +:+ ". Is QEMU running?")
    else fun w =>
      match run_gdb (MkCommand "rust-gdb" ["-x"; INIT_PATH] []) (files w) with
      | Ok _ => (w, Returned tt)
      | Err e => (w, Failed [e])
      end.

(** * Lemmas *)

(** The files and what will happen to them are as before. *)
Definition same_disk (w w' : World) : Prop := files w' = files w /\ faults w' = faults w.

#[local] Instance same_disk_refl : Reflexive same_disk.
Proof. done. Qed.

#[local] Instance same_disk_trans : Transitive same_disk.
Proof. intros w1 w2 w3 [E1 E2] [E3 E4]. split; congruence. Qed.

Lemma bind_Tool {A B} (m : Tool A) (f : A -> Tool B) w :
  (m ≫= f) w = match m w with
               | (w, Returned a) => f a w
               | (w, Failed r) => (w, Failed r)
               | (w, Panicked p) => (w, Panicked p)
               end.
Proof. done. Qed.

Lemma log_text_ok l text w : exists w', log_text l text w = (w', Returned tt) /\ same_disk w w'.
Proof.
  unfold log_text. eexists. split; [done|]. destruct (logger w) as [filter|]; [|done].
  case_bool_decide; [|done]. unfold log_record. destruct (enabled filter l); [|done]. by destruct l.
Qed.

Lemma log_flags_ok name flags w : exists w', log_flags name flags w = (w', Returned tt) /\ same_disk w w'.
Proof. destruct flags; [by exists w|]. apply log_text_ok. Qed.

(** Code that only prints, at the head of a computation. *)
Definition prints (m : Tool unit) : Prop := forall w, exists w', m w = (w', Returned tt) /\ same_disk w w'.

Lemma prints_bind {A} (m : Tool unit) (f : unit -> Tool A) w :
  prints m -> exists w', same_disk w w' /\ (m ≫= f) w = f tt w'.
Proof. intros Hm. destruct (Hm w) as (w'&E1&Hd). exists w'. split; [done|]. by rewrite bind_Tool, E1. Qed.

Lemma log_text_prints l text : prints (log_text l text).
Proof. intros w. apply log_text_ok. Qed.

Lemma log_flags_prints name flags : prints (log_flags name flags).
Proof. intros w. apply log_flags_ok. Qed.

#[local] Hint Resolve log_text_prints log_flags_prints : core.

Ltac print_head w w' Hd :=
  match goal with |- context [(?m ≫= ?f) w] =>
    destruct (prints_bind m f w) as (w'&Hd&->); [by auto|] end.

(** ** Cargo *)

(** The first message that cannot be read, and the last executable that is
    reported under a name. *)
Fixpoint first_unreadable (messages : list (result CargoMessage string)) : option string :=
  match messages with
  | [] => None
  | Err e :: _ => Some e
  | Ok _ :: messages => first_unreadable messages
  end.

Definition built_as (name : string) (m : result CargoMessage string) : option Utf8Path :=
  match m with
  | Ok (CompilerArtifact n (Some executable)) => if decide (n = name) then Some executable else None
  | _ => None
  end.

Definition last_built (name : string) (messages : list (result CargoMessage string)) : option Utf8Path :=
  last (omap (built_as name) messages).

Lemma collect_executables_ok messages executables :
  match first_unreadable messages with
  | Some e => collect_executables messages executables = Err ["unparseable Cargo message"; e]
  | None => exists output, collect_executables messages executables = Ok output /\
      forall name, output !! name =
        match last_built name messages with Some p => Some p | None => executables !! name end
  end.
Proof.
  revert executables. induction messages as [|m ms IH]; intros ex; [by exists ex|].
  destruct m as [[n [p|]|]|e]; cbn [first_unreadable collect_executables]; [|by apply IH..|done].
  specialize (IH (<[n := p]> ex)). destruct (first_unreadable ms); [done|].
  destruct IH as (out&->&Ho). exists out. split; [done|]. intros name. rewrite Ho.
  unfold last_built. cbn. destruct (decide (n = name)) as [<-|Hne].
  - rewrite last_cons. destruct (last (omap (built_as n) ms)); [done|]. by rewrite lookup_insert_eq.
  - destruct (last _); [done|]. by rewrite lookup_insert_ne.
Qed.

Lemma spawn_cargo_eq cmd w :
  spawn_cargo cmd w =
  match run_cargo cmd (files w) with
  | Ok run => (set_files (cargo_files run) w, Returned run)
  | Err e => (w, Failed ["cargo execution failed"; e])
  end.
Proof. done. Qed.

(** What [cargo_build] answers on a run of cargo. *)
Definition build_answers (run : CargoRun) (r : outcome BuildOutput) : Prop :=
  match first_unreadable (cargo_messages run), cargo_status run with
  | Some e, _ => r = Failed ["unparseable Cargo message"; e]
  | None, Err e => r = Failed ["waiting on Cargo failed"; e]
  | None, Ok status =>
      if success status then
        exists output, r = Returned output /\ forall name, output !! name = last_built name (cargo_messages run)
      else r = Failed ["cargo failed with " +:+ display_status status]
  end.

Lemma cargo_build_ok c spec w :
  let '(w', r) := cargo_build c spec w in
  faults w' = faults w /\
  match run_cargo (build_command c spec) (files w) with
  | Err e => files w' = files w /\ r = Failed ["cargo execution failed"; e]
  | Ok run => files w' = cargo_files run /\ build_answers run r
  end.
Proof.
  unfold cargo_build. cbv zeta.
  print_head w w1 H1. print_head w1 w2 H2. print_head w2 w3 H3. print_head w3 w4 H4.
  assert (Hd : same_disk w w4) by (do 3 (etrans; [done|]); done). clear H1 H2 H3 H4.
  destruct Hd as [Ef Eu]. rewrite bind_Tool, spawn_cargo_eq, Ef.
  destruct (run_cargo _ _) as [run|e]; [|by split].
  rewrite bind_Tool. unfold try at 1. unfold build_answers. pose proof (collect_executables_ok (cargo_messages run) ∅) as Hc.
  destruct (first_unreadable (cargo_messages run)); [by rewrite Hc|]. destruct Hc as (out&->&Ho).
  destruct (cargo_status run) as [status|e]; [|by split]. destruct (success status); [|by split].
  split; [done|]. split; [done|]. exists out. split; [done|]. intros name. rewrite Ho, lookup_empty.
  by destruct (last_built name _).
Qed.

(** A build, on every way it can end. The executables that are found are
    for every target the last one that cargo reported; a message that cannot
    be read wins over a failure to wait, which wins over a failing exit; and
    the files are what cargo left. *)
Theorem cargo_build_spec c spec w :
  let '(w', r) := cargo_build c spec w in
  faults w' = faults w /\
  match run_cargo (build_command c spec) (files w) with
  | Err e => files w' = files w /\ r = Failed ["cargo execution failed"; e]
  | Ok run => files w' = cargo_files run /\ build_answers run r
  end.
Proof. apply cargo_build_ok. Qed.

(** ** The debugger's files *)

Lemma io_fs_op {A} (f : gmap string string -> gmap string string * result A io_error) w :
  match io (fs_op f) w with
  | (w', Returned a) => f (files w) = (files w', Ok a)
  | (w', Failed _) => files w' = files w \/ exists e, f (files w) = (files w', Err e)
  | (_, Panicked _) => False
  end.
Proof.
  unfold io, fs_op, next_fault. destruct (faults w) as [|[[text n]|] fs]; simpl; try (by left);
    destruct (f (files w)) as [fs' [a|e]] eqn:Ef; simpl; try done; right; by exists e.
Qed.

Lemma io_write_line path line w :
  match io (write_line path line) w with
  | (w', Returned _) => files w' = alter (fun old => old +:+ line +:+ newline) path (files w)
  | (w', Failed _) => forall p, p <> path -> files w' !! p = files w !! p
  | (_, Panicked _) => False
  end.
Proof.
  unfold io, write_line, next_fault.
  destruct (faults w) as [|[[text n]|] fs]; simpl; try done. intros p Hp. by rewrite lookup_alter_ne.
Qed.

Lemma write_config_ok target w old :
  files w !! INIT_PATH = Some old ->
  match write_config target INIT_PATH w with
  | (w', Returned _) => files w' = <[INIT_PATH := old +:+ config_text target]> (files w)
  | (w', Failed _) => forall p, p <> INIT_PATH -> files w' !! p = files w !! p
  | (_, Panicked _) => False
  end.
Proof.
  intros Hold. unfold write_config.
  set (l1 := "target remote " +:+ SOCKET_PATH). set (l2 := "add-symbol-file " +:+ display_path target).
  rewrite bind_Tool. pose proof (io_write_line INIT_PATH l1 w) as H1.
  destruct (io (write_line INIT_PATH l1) w) as [w1 [[]|r|p]]; [|done..].
  rewrite bind_Tool. pose proof (io_write_line INIT_PATH l2 w1) as H2.
  destruct (io (write_line INIT_PATH l2) w1) as [w2 [[]|r|p]];
    [|intros q Hq; rewrite H2, H1 by done; by apply lookup_alter_ne|done].
  rewrite bind_Tool. pose proof (io_write_line INIT_PATH "tui enable" w2) as H3.
  destruct (io (write_line INIT_PATH "tui enable") w2) as [w3 [[]|r|p]];
    [|intros q Hq; rewrite H3, H2, H1 by done; by rewrite !lookup_alter_ne by done|done].
  pose proof (io_write_line INIT_PATH "hbreak platypos_kernel::panic::panic" w3) as H4.
  destruct (io (write_line INIT_PATH "hbreak platypos_kernel::panic::panic") w3) as [w4 [[]|r|p]];
    [|intros q Hq; rewrite H4, H3, H2, H1 by done; by rewrite !lookup_alter_ne by done|done].
  rewrite H4, H3, H2, H1. apply map_eq. intros q. destruct (decide (q = INIT_PATH)) as [->|Hq].
  - rewrite !lookup_alter_eq, Hold, lookup_insert_eq. simpl. f_equal. unfold config_text, l1, l2.
    by rewrite <-!string_app_assoc.
  - by rewrite !lookup_alter_ne, lookup_insert_ne by done.
Qed.

Lemma path_exists_ok p w :
  exists w' b, path_exists p w = (w', Returned b) /\ files w' = files w /\ (b = true -> is_Some (files w !! p)).
Proof.
  unfold path_exists, exists_, fs_op, next_fault.
  destruct (faults w) as [|[[text n]|] fs]; simpl; eexists _, _; (split; [done|]); (split; [done|]); try done;
    by intros ?%bool_decide_eq_true.
Qed.

Lemma server_new_ok target wait w :
  match server_new target wait w with
  | (w', Returned server) =>
      should_wait server = wait /\ files w' = <[INIT_PATH := config_text target]> (files w)
  | (w', Failed _) => forall p, p <> INIT_PATH -> files w' !! p = files w !! p
  | (_, Panicked _) => False
  end.
Proof.
  unfold server_new. rewrite bind_Tool. pose proof (io_fs_op (fun fs => (fs, Ok tt)) w) as H1.
  fold (create_dir_all GDB_DIR) in H1.
  destruct (io (create_dir_all GDB_DIR) w) as [w1 [[]|r|p]]; [|by destruct H1 as [->|[]]|done].
  injection H1 as ->. rewrite bind_Tool.
  destruct (path_exists_ok SOCKET_PATH w1) as (w2&b&->&<-&_). destruct b; [done|].
  rewrite bind_Tool. pose proof (io_fs_op (fun fs => (<[INIT_PATH := ""]> fs, Ok tt)) w2) as H2.
  fold (file_create INIT_PATH) in H2.
  destruct (io (file_create INIT_PATH) w2) as [w3 [[]|r|p]]; [|by destruct H2 as [->|[]]|done].
  injection H2 as E3. rewrite bind_Tool. unfold wrap_err.
  pose proof (write_config_ok target w3 "") as H3. rewrite <-E3, lookup_insert_eq in H3. specialize (H3 eq_refl).
  destruct (write_config target INIT_PATH w3) as [w4 [[]|r|p]].
  - split; [done|]. rewrite H3. by rewrite insert_insert_eq.
  - intros p Hp. rewrite H3 by done. by rewrite lookup_insert_ne.
  - done.
Qed.

(** Without failures of the file system. *)
Lemma no_faults w : faults w = [] -> next_fault w = (w, None).
Proof. intros E1. unfold next_fault. rewrite E1. destruct w; simpl in *. by subst. Qed.

Lemma exists_none p w : faults w = [] -> path_exists p w = (w, Returned (bool_decide (is_Some (files w !! p)))).
Proof. intros E1. unfold path_exists, exists_, fs_op. rewrite no_faults by done. by destruct w. Qed.

Lemma server_new_no_faults target wait w :
  faults w = [] ->
  match files w !! SOCKET_PATH with
  | Some _ => server_new target wait w =
      (w, Failed [SOCKET_PATH +:+ " already exists - is another QEMU instance already running?"])
  | None => server_new target wait w =
      (set_files (<[INIT_PATH := config_text target]> (files w)) w, Returned (MkServer wait))
  end.
Proof.
  intros E1. pose proof (server_new_ok target wait w) as Hok. revert Hok. unfold server_new. rewrite bind_Tool.
  assert (E2 : io (create_dir_all GDB_DIR) w = (w, Returned tt)).
  { unfold io, create_dir_all, fs_op. rewrite no_faults by done. by destruct w. }
  rewrite E2, bind_Tool, (exists_none _ _ E1). destruct (files w !! SOCKET_PATH) eqn:Es; [done|].
  rewrite bool_decide_false by by intros []. rewrite bind_Tool.
  assert (E3 : io (file_create INIT_PATH) w = (set_files (<[INIT_PATH := ""]> (files w)) w, Returned tt)).
  { unfold io, file_create, fs_op. by rewrite no_faults. }
  rewrite E3, bind_Tool. unfold wrap_err, write_config, io, write_line, next_fault, set_files. rewrite !bind_Tool.
  destruct w as [fs fa so se ey co lo ml]. simpl in *. subst fa. simpl. intros [_ ->]. done.
Qed.

Lemma drop_server_no_faults w :
  faults w = [] ->
  drop_server w = set_files (delete INIT_PATH (delete SOCKET_PATH (files w))) w.
Proof.
  intros E1. unfold drop_server, try_remove, remove_file, fs_op, next_fault.
  destruct w as [fs fa so se ey co lo ml]. simpl in *. subst fa. simpl.
  destruct (fs !! SOCKET_PATH) eqn:Es; simpl.
  - destruct (delete SOCKET_PATH fs !! INIT_PATH) eqn:Ei; simpl; [done|].
    unfold set_files. simpl. by rewrite (delete_id (delete SOCKET_PATH fs)).
  - rewrite (delete_id fs SOCKET_PATH) by done. destruct (fs !! INIT_PATH) eqn:Ei; simpl; [done|].
    unfold set_files. simpl. by rewrite (delete_id fs).
Qed.

(** Dropping never touches other files, and what is not removed is
    reported. *)
Lemma drop_server_others w p :
  p <> SOCKET_PATH -> p <> INIT_PATH -> files (drop_server w) !! p = files w !! p.
Proof.
  assert (Hr : forall q w, p <> q -> files (try_remove q w) !! p = files w !! p).
  { intros q w' Hq. unfold try_remove, remove_file, fs_op, next_fault.
    destruct (faults w') as [|[[text n]|] fs]; simpl; try done;
      (destruct (files w' !! q); simpl; [by rewrite lookup_delete_ne|done]). }
  intros. unfold drop_server. by rewrite !Hr.
Qed.
End host.
