(* ===== verification/Xtask.v ===== *)
(** The build tool's commands ([xtask/src/command.rs]) and the wrapper
    around QEMU ([tools/qemu.rs], [qemu/x86_64.rs], [qemu/symbolizer.rs]):
    build the kernel, boot it in QEMU, and print what it sends through the
    decoder and the formatter. The addr2line crate is a class. *)
From stdpp Require Import countable.
From S2P Require Import Prelude Address Bitfields Topology Slot FreeLists Slab SlabSpec Proto.
From S2P Require Import Decoder KTrace Fmt Host.

(** * Symbols *)

Record Location := MkLocation { loc_file : option string; loc_line : option Z; loc_column : option Z }.

(** A frame: its function's name as [demangle] answers, and where it is. *)
Record Frame := MkFrame { function : option (result string unit); location : option Location }.

(** [object::File::parse], [addr2line::Context], and the answers of the
    iterator over the frames of an address, which is taken to end. *)
Class Addr2line (Object Context : Type) := {
  object_parse : string -> result Object string;
  context_new : Object -> result Context string;
  find_frames : Context -> Z -> option (list (result Frame string));
}.

Section symbolizer.
Context {Object Ctx : Type} {addr2line : Addr2line Object Ctx}.

(** [GimliSymbolizer::new]. *)
Definition symbolizer_new (binary : Utf8Path) : Tool Ctx :=
  data ← wrap_err ("could not read " +:+ display_path binary) (io (fs_read (display_path binary)));
  object ← wrap_err ("could not parse " +:+ display_path binary)
    (try (match object_parse data with Ok o => Ok o | Err e => Err [e] end));
  try (match context_new object with Ok c => Ok c | Err e => Err [e] end).

(** What is written for a frame. *)
Definition frame_text (frame : Frame) : string :=
  (match function frame with Some (Ok n) => n | Some (Err _) | None => "???" end) +:+ " @ " +:+
  (match location frame with
   | Some loc =>
       default "<unknown>" (loc_file loc) +:+ ":" +:+ pretty (default 0 (loc_line loc)) +:+ ":" +:+
       pretty (default 0 (loc_column loc))
   | None => "<unknown>"
   end).

Definition inlined_by : string := " (inlined by) ".

(** The loop: [i] counts the frames, and [wrote_frame] is also set by an
    error. *)
Fixpoint write_frames (frames : list (result Frame string)) (i : nat) (wrote_frame : bool) : string * bool :=
  match frames with
  | [] => ("", wrote_frame)
  | Ok frame :: frames =>
      let '(rest, wrote_frame) := write_frames frames (S i) true in
      ((if decide (i <> 0%nat) then inlined_by else "") +:+ frame_text frame +:+ rest, wrote_frame)
  | Err e :: frames =>
      let before := if wrote_frame then inlined_by else "" in
      let '(rest, wrote_frame) := write_frames frames i true in
      (before +:+ "<malformed: " +:+ e +:+ ">" +:+ rest, wrote_frame)
  end.

(** [GimliSymbolizer::symbolize]; writing to a string does not fail. *)
Definition gimli_symbolize (c : Ctx) (address : Z) : string :=
  let '(text, wrote_frame) :=
    match find_frames c address with
    | Some frames => write_frames frames 0 false
    | None => ("", false)
    end in
  if wrote_frame then text else text +:+ "<unknown symbol @ " +:+ format_012x address +:+ ">".

(** ** What it writes *)

Definition item_text (item : result Frame string) : string :=
  match item with Ok frame => frame_text frame | Err e => "<malformed: " +:+ e +:+ ">" end.

Definition is_error (item : result Frame string) : Prop := match item with Ok _ => False | Err _ => True end.

#[local] Instance is_error_dec item : Decision (is_error item).
Proof. destruct item; simpl; apply _. Defined.

(** Every item with the separator in front. *)
Fixpoint separated (items : list (result Frame string)) : string :=
  match items with [] => "" | item :: items => inlined_by +:+ item_text item +:+ separated items end.

Lemma concat_separated item items :
  String.concat inlined_by (item_text <$> item :: items) = item_text item +:+ separated items.
Proof.
  revert item. induction items as [|x items IH]; intros item.
  - simpl. by rewrite string_app_nil_r.
  - change (item_text item +:+ inlined_by +:+ String.concat inlined_by (item_text <$> x :: items) =
      item_text item +:+ separated (x :: items)). by rewrite IH.
Qed.

Lemma write_frames_later items i : write_frames items (S i) true = (separated items, true).
Proof.
  revert i. induction items as [|[frame|e] items IH]; intros i; [done| |]; cbn [write_frames]; rewrite IH; simpl.
  - done.
  - by rewrite <-!string_app_assoc.
Qed.

Lemma write_frames_frame frame items wrote :
  write_frames (Ok frame :: items) 0 wrote = (String.concat inlined_by (item_text <$> Ok frame :: items), true).
Proof. cbn [write_frames]. rewrite write_frames_later, concat_separated. done. Qed.

(** Errors at the front leave the count of frames at 0. *)
Lemma write_frames_errors errors items wrote :
  Forall is_error errors -> (errors <> [] \/ wrote = true) ->
  write_frames (errors ++ items) 0 wrote =
  ((if wrote then separated errors else String.concat inlined_by (item_text <$> errors)) +:+
   (write_frames items 0 true).1, (write_frames items 0 true).2).
Proof.
  intros He. revert wrote. induction He as [|[frame|e] errors He1 _ IH]; intros wrote Hw; [|done|].
  - destruct Hw as [?| ->]; [done|]. simpl. by destruct (write_frames items 0 true).
  - rewrite concat_separated. cbn [app write_frames]. rewrite IH by by right.
    destruct wrote; simpl; by rewrite <-?string_app_assoc.
Qed.

(** What is printed for an address. The answers of the iterator are
    joined with the separator, be they frames or errors, with one
    exception: if the first answers are errors, the first frame behind them
    follows without one. Without any answer the address itself is shown. *)
Theorem symbolize_spec c address :
  (forall errors items, find_frames c address = Some (errors ++ items) -> Forall is_error errors ->
     errors ++ items <> [] -> match items with Err _ :: _ => False | _ => True end ->
     gimli_symbolize c address =
       String.concat inlined_by (item_text <$> errors) +:+ String.concat inlined_by (item_text <$> items)) /\
  (find_frames c address = None \/ find_frames c address = Some [] ->
     gimli_symbolize c address = "<unknown symbol @ " +:+ format_012x address +:+ ">").
Proof.
  unfold gimli_symbolize. split; [|by intros [-> | ->]]. intros errors items -> He Hne Hi.
  destruct errors as [|e errors].
  - destruct items as [|[frame|e] items]; [done| |done]. by rewrite app_nil_l, write_frames_frame.
  - rewrite write_frames_errors by (done || by left).
    destruct items as [|[frame|e'] items]; [simpl; done| |done]. by rewrite write_frames_frame.
Qed.
End symbolizer.

(** * QEMU *)

Section xtask.
Context {prof : Profile} {programs : Programs} {colors : color -> string -> string}.
Context {Object Ctx : Type} {addr2line : Addr2line Object Ctx}.
Context {postcard : Postcard ReceiverMessage string}.
Context (find : list Z -> option nat).

(** The formatter's surroundings with the symbols of a binary, and those of
    the tool's own messages, which have none. *)
Definition symbols_of (c : Ctx) : Rendering := {|
  paint := colors;
  symbolize address := Ok (gimli_symbolize c address);
|}.

Definition no_symbols : Rendering := {| paint := colors; symbolize _ := Err tt |}.
#[local] Existing Instance no_symbols.

Record Spec := MkSpec {
  spec_crate_name : string;
  binary : Utf8Path;
  spec_platform : Platform;
  memory : string;
  cpus : Z;
  debugger : option Server;
}.

Definition command_for (p : Platform) : string * list string :=
  match p with
  | X86_64 =>
      ("qemu-system-x86_64",
       ["-drive"; "if=pflash,format=raw,readonly=on,file=/usr/share/ovmf/x64/OVMF_CODE.fd";
        "-drive"; "if=pflash,format=raw,readonly=on,file=/usr/share/ovmf/x64/OVMF_VARS.fd";
        "-machine"; "q35,accel=kvm";
        "-device"; "isa-debug-exit,iobase=0xf4,iosize=0x04"])
  end.

Definition write_image (binary uefi_image_path : Utf8Path) : Tool unit := fun w =>
  match create_disk_image binary uefi_image_path (files w) with
  | Ok fs => (set_files fs w, Returned tt)
  | Err e => (w, Failed ["error creating UEFI disk image"; e])
  end.

(** [build_boot_image]. *)
Definition build_boot_image (binary : Utf8Path) : Tool Utf8Path :=
  target_dir ← ok_or (parent binary ≫= parent) ["unexpected kernel location"];
  binary_name ← unwrap (file_name binary);
  let uefi_image_path := join target_dir ("uefi-" +:+ binary_name +:+ ".img") in
  write_image binary uefi_image_path;;
  mret uefi_image_path.

(** [add_binary] and [add_gdb]: the arguments they push. *)
Definition add_binary (spec : Spec) : Tool (list string) :=
  boot_image ← build_boot_image (binary spec);
  mret ["-drive"; "format=raw,file=" +:+ display_path boot_image].

Definition add_gdb (gdb : Server) : list string :=
  ["-chardev"; "socket,path=" +:+ SOCKET_PATH +:+ ",server=on,wait=off,id=gdb0"; "-gdb"; "chardev:gdb0"] ++
  (if should_wait gdb then ["-S"] else []).

(** Every argument of QEMU but those of the boot image and of GDB. *)
Definition machine_args (spec : Spec) : list string :=
  (command_for (spec_platform spec)).2 ++
  ["--no-reboot"; "-serial"; "stdio"; "-m"; memory spec; "-smp"; "cpus=" +:+ pretty (cpus spec);
   "-d"; "cpu_reset,int"].

Definition spawn_qemu (cmd : Command) : Tool QemuRun := fun w =>
  match run_qemu cmd (files w) with
  | Ok run => (set_files (qemu_files run) w, Returned run)
  | Err e => (w, Failed ["could not start qemu"; e])
  end.

(** The callback that [decode] is given: the formatter, and what it has
    printed; once it has panicked nothing more happens. *)
Definition formatter_call (c : Ctx) (message : ReceiverMessage) (st : rust Formatter * string)
    : (rust Formatter * string) * result unit string :=
  match st.1 with
  | Panic w => (st, Ok tt)
  | Ret f =>
      match receive (rendering := symbols_of c) f message with
      | Ret (f, text) => ((Ret f, st.2 +:+ text), Ok tt)
      | Panic w => ((Panic w, st.2), Ok tt)
      end
  end.

Definition display_decode_error (e : decode_error string) : string :=
  match e with
  | NoMarker => "could not find ktrace marker"
  | Io e | Malformed e | Callback e => e
  end.

(** Reading QEMU's output to its end. QEMU is killed when this fails. *)
Definition decode_output (c : Ctx) (run : QemuRun) : Tool unit := fun w =>
  match decode find (formatter_call c) decoder_new (qemu_output run) (Ret formatter_new, "") with
  | Panic p => (w, Panicked p)
  | Ret (_, (f, text), out, r) =>
      let w := print (Text text) (print (Bytes out) w) in
      match f, r with
      | Panic p, _ => (w, Panicked p)
      | Ret _, Err e => (w, Failed [display_decode_error e])
      | Ret _, Ok _ => (w, Returned tt)
      end
  end.

Definition qemu_ends (run : QemuRun) : Tool unit := fun w =>
  (set_files (qemu_finished run (files w)) w, Returned tt).

Definition qemu_body (spec : Spec) : Tool ExitStatus :=
  image_args ← add_binary spec;
  let exe := (command_for (spec_platform spec)).1 in
  let args := machine_args spec ++ image_args ++ from_option add_gdb [] (debugger spec) in
  let cmd := MkCommand exe args [] in
  log_text LogDebug ("QEMU command: " +:+ debug_command cmd);;
  run ← spawn_qemu cmd;
  symbolizer ← symbolizer_new (binary spec);
  decode_output symbolizer run;;
  qemu_ends run;;
  mret (qemu_status run).

(** [Qemu::run]: the debugger's server is part of the specification and is
    dropped with it. *)
Definition drop_spec (spec : Spec) (w : World) : World :=
  match debugger spec with Some _ => drop_server w | None => w end.

Definition qemu_run (spec : Spec) : Tool ExitStatus := finally (qemu_body spec) (drop_spec spec).

(** * Commands *)

Definition KERNEL_CRATE : string := "platypos_kernel".

Record QemuOpts := MkQemuOpts {
  opt_cpus : Z;
  opt_memory : string;
  opt_debugger : bool;
  opt_debugger_wait : bool;
}.

(** The QEMU wrapper only keeps the cargo wrapper. *)
Record Context := MkContext {
  ctx_platform : Platform;
  ctx_cargo : Cargo;
  ctx_defmt_filter : string;
}.

Definition Context_new (p : Platform) (cargo_override : option Utf8Path) (filter : string) : Context :=
  MkContext p (cargo_new cargo_override) filter.

Definition build_spec (context : Context) (crate : string) (test : bool) : BuildSpec :=
  MkBuildSpec crate (ctx_platform context) test (ctx_defmt_filter context).

(** [Context::build]. *)
Definition context_build (context : Context) (crate : string) : Tool Utf8Path :=
  output ← cargo_build (ctx_cargo context) (build_spec context crate false);
  binary ← executable_of output crate;
  log_text LogInfo ("Built " +:+ paint Green crate +:+ " at " +:+ paint Magenta (display_path binary));;
  mret binary.

Definition do_build (context : Context) : Tool unit := _ ← context_build context KERNEL_CRATE; mret tt.

Definition gdb_server (opts : QemuOpts) (target_binary : Utf8Path) : Tool (option Server) :=
  if opt_debugger opts || opt_debugger_wait opts then
    server ← server_new target_binary (opt_debugger_wait opts);
    mret (Some server)
  else mret None.

Definition spec_for (context : Context) (opts : QemuOpts) (binary : Utf8Path) (gdb : option Server) : Spec :=
  MkSpec KERNEL_CRATE binary (ctx_platform context) (opt_memory opts) (opt_cpus opts) gdb.

Definition do_run (context : Context) (opts : QemuOpts) : Tool unit :=
  binary ← context_build context KERNEL_CRATE;
  gdb ← gdb_server opts binary;
  status ← qemu_run (spec_for context opts binary gdb);
  if negb (success status) then bail ("QEMU failed: " +:+ display_status status)
  else mret tt.

Definition do_test (context : Context) (opts : QemuOpts) : Tool unit :=
  output ← cargo_build (ctx_cargo context) (build_spec context KERNEL_CRATE true);
  test_kernel ← executable_of output KERNEL_CRATE;
  gdb ← gdb_server opts test_kernel;
  status ← qemu_run (spec_for context opts test_kernel gdb);
  match code status with
  | Some c => if decide (c <> 3) then bail "Tests failed" else mret tt
  | None => bail ("QEMU killed by signal: " +:+ display_status status)
  end.

Inductive XCommand := Build | Run (opts : QemuOpts) | Test_ (opts : QemuOpts) | Gdb.

(** [XTask]: what the command line said. *)
Record XTask := MkXTask {
  output_opts : OutputOpts;
  tool_cargo : option Utf8Path;
  tool_platform : Platform;
  tool_defmt : string;
  command : XCommand;
}.

Definition exec (x : XTask) : Tool unit :=
  output_init (output_opts x);;
  let context := Context_new (tool_platform x) (tool_cargo x) (tool_defmt x) in
  match command x with
  | Build => do_build context
  | Run opts => do_run context opts
  | Test_ opts => do_test context opts
  | Gdb => gdb_run
  end.

(** * Output *)

Lemma formatter_calls c ms f text :
  call_all (formatter_call c) ms (f, text) =
  (match f ≫= fun f => receive_all (rendering := symbols_of c) f ms with
   | Ret (f', more) => (Ret f', text +:+ more)
   | Panic p => (Panic p, (call_all (formatter_call c) ms (f, text)).1.2)
   end, Ok tt).
Proof.
  revert f text. induction ms as [|m ms IH]; intros f text.
  { destruct f as [f|p]; simpl; by rewrite ?string_app_nil_r. }
  cbn [call_all]. destruct f as [f|p]; cbn [mbind rust_bind receive_all] in *.
  - unfold formatter_call at 1 3. cbn [fst]. destruct (receive f m) as [[f' t]|p]; cbn [mbind rust_bind fst snd].
    + rewrite IH. cbn [mbind rust_bind]. destruct (receive_all f' ms) as [[f2 rest]|p]; cbn [mbind rust_bind];
        [by rewrite <-string_app_assoc|]. by rewrite IH.
    + rewrite IH. done.
  - unfold formatter_call at 1 3. cbn [fst]. by rewrite IH.
Qed.

(** Whatever chunks QEMU's output is read in, as long as it is boot
    output, the marker and encoded messages, and the last chunk begins
    behind the marker: the tool prints the boot output as it is and then the
    formatter's text for the messages, in order, and waits for QEMU; when
    the formatter's assertion fails on the messages, the tool panics. *)
Theorem decode_output_spec boot ms chunks l c run w :
  finds_first find ->
  qemu_output run = Ok <$> chunks ++ [l] ->
  Forall (fun c => c <> []) (chunks ++ [l]) ->
  concat (chunks ++ [l]) = boot ++ START_OF_OUTPUT ++ concat (to_bytes <$> ms) ->
  (forall j, (j < length boot)%nat -> ~ marker_at (concat (chunks ++ [l])) j) ->
  (length boot + length START_OF_OUTPUT <= length (concat chunks))%nat ->
  match receive_all (rendering := symbols_of c) formatter_new ms with
  | Ret (_, text) => decode_output c run w = (print (Text text) (print (Bytes boot) w), Returned tt)
  | Panic p => exists text, decode_output c run w = (print (Text text) (print (Bytes boot) w), Panicked p)
  end.
Proof.
  intros Hf Eo Hne Es Hboot Hlast. unfold decode_output. rewrite Eo.
  destruct (decode_whole find (formatter_call c) _ _ _ _ (Ret formatter_new, "") Hf Hne Es Hboot Hlast)
    as (d'&st'&r&d''&->&Eb&_).
  destruct (decode_buffered_messages (formatter_call c) _ ms true (Ret formatter_new, "") (Nat.lt_succ_diag_r _))
    as (d3&E3&_).
  rewrite E3 in Eb. rewrite formatter_calls in Eb. cbn [mbind rust_bind] in Eb.
  destruct (receive_all formatter_new ms) as [[f text]|p]; injection Eb as _ <- <-; [done|by eexists].
Qed.

(** * Debugger sessions *)

(** What [do_run] and [do_test] do with the kernel they have built. *)
Definition launch (context : Context) (opts : QemuOpts) (kernel : Utf8Path) : Tool ExitStatus :=
  gdb ← gdb_server opts kernel;
  qemu_run (spec_for context opts kernel gdb).

Definition test_kernel (context : Context) : Tool Utf8Path :=
  output ← cargo_build (ctx_cargo context) (build_spec context KERNEL_CRATE true);
  executable_of output KERNEL_CRATE.

Definition run_verdict (status : ExitStatus) : Tool unit :=
  if negb (success status) then bail ("QEMU failed: " +:+ display_status status) else mret tt.

Definition test_verdict (status : ExitStatus) : Tool unit :=
  match code status with
  | Some c => if decide (c <> 3) then bail "Tests failed" else mret tt
  | None => bail ("QEMU killed by signal: " +:+ display_status status)
  end.

Lemma bind_assoc {A B C} (m : Tool A) (f : A -> Tool B) (g : B -> Tool C) w :
  ((m ≫= f) ≫= g) w = (m ≫= fun a => f a ≫= g) w.
Proof. rewrite !bind_Tool. by destruct (m w) as [w' [a|r|p]]. Qed.

Lemma bind_ext {A B} (m : Tool A) (f g : A -> Tool B) w :
  (forall a w, f a w = g a w) -> (m ≫= f) w = (m ≫= g) w.
Proof. intros H. rewrite !bind_Tool. by destruct (m w) as [w' [a|r|p]]. Qed.

Lemma do_run_launch context opts w :
  do_run context opts w =
  (kernel ← context_build context KERNEL_CRATE; status ← launch context opts kernel; run_verdict status) w.
Proof. apply bind_ext. intros kernel w'. unfold launch. by rewrite bind_assoc. Qed.

Lemma do_test_launch context opts w :
  do_test context opts w =
  (kernel ← test_kernel context; status ← launch context opts kernel; test_verdict status) w.
Proof.
  unfold test_kernel. rewrite bind_assoc. apply bind_ext. intros output w'. apply bind_ext.
  intros kernel w''. unfold launch. by rewrite bind_assoc.
Qed.

Lemma verdict_world status w : (run_verdict status w).1 = w /\ (test_verdict status w).1 = w.
Proof.
  unfold run_verdict, test_verdict. split; [by destruct (success status)|].
  destruct (code status) as [c|]; [|done]. by destruct (decide (c <> 3)).
Qed.

(** Nothing goes wrong with the files from here on. *)
Definition stays_faultless {A} (m : Tool A) : Prop := forall w, faults w = [] -> faults (m w).1 = [].

Lemma faultless_bind {A B} (m : Tool A) (f : A -> Tool B) :
  stays_faultless m -> (forall a, stays_faultless (f a)) -> stays_faultless (m ≫= f).
Proof.
  intros Hm Hf w Hw. specialize (Hm w Hw). rewrite bind_Tool.
  destruct (m w) as [w' [a|r|p]]; simpl in *; [by apply Hf|done..].
Qed.

Lemma faultless_prints (m : Tool unit) : prints m -> stays_faultless m.
Proof. intros Hm w Hw. destruct (Hm w) as (w'&->&_&Hf). simpl. congruence. Qed.

Lemma faultless_wrap {A} context (m : Tool A) : stays_faultless m -> stays_faultless (wrap_err context m).
Proof. intros Hm w Hw. specialize (Hm w Hw). unfold wrap_err. by destruct (m w) as [w' [a|r|p]]. Qed.

Lemma faultless_ret {A} (a : A) : stays_faultless (mret a).
Proof. by intros w Hw. Qed.

Lemma faultless_try {A} (r : result A Report) : stays_faultless (try r).
Proof. by intros w Hw. Qed.

Lemma faultless_read path : stays_faultless (io (fs_read path)).
Proof.
  intros w Hw. unfold io, fs_read, fs_op. rewrite no_faults by done. simpl.
  by destruct (files w !! path).
Qed.

Lemma faultless_decode c run : stays_faultless (decode_output c run).
Proof.
  intros w Hw. unfold decode_output. destruct (decode _ _ _ _ _) as [[[[d [f text]] out] r]|p]; [|done].
  by destruct f, r.
Qed.

Lemma faultless_image spec : stays_faultless (add_binary spec).
Proof.
  intros w Hw. unfold add_binary, build_boot_image. rewrite !bind_Tool. unfold ok_or.
  destruct (parent (binary spec) ≫= parent) as [dir|]; [|done]. rewrite bind_Tool. unfold unwrap.
  destruct (file_name (binary spec)); [|done]. rewrite bind_Tool. unfold write_image.
  by destruct (create_disk_image _ _ _).
Qed.

Lemma faultless_body spec : stays_faultless (qemu_body spec).
Proof.
  apply faultless_bind; [apply faultless_image|]. intros args.
  apply faultless_bind; [apply faultless_prints, log_text_prints|]. intros [].
  apply faultless_bind; [intros w Hw; unfold spawn_qemu; by destruct (run_qemu _ _)|]. intros run.
  apply faultless_bind.
  { apply faultless_bind; [apply faultless_wrap, faultless_read|]. intros data.
    apply faultless_bind; [apply faultless_wrap, faultless_try|]. intros object. apply faultless_try. }
  intros c. apply faultless_bind; [apply faultless_decode|]. intros [].
  apply faultless_bind; [by intros w Hw|]. intros []. apply faultless_ret.
Qed.

(** No file of the debugger. *)
Definition no_session (w : World) : Prop := files w !! SOCKET_PATH = None /\ files w !! INIT_PATH = None.

Definition wants_debugger (opts : QemuOpts) : Prop := opt_debugger opts || opt_debugger_wait opts = true.

Lemma launch_session context opts kernel w :
  faults w = [] -> wants_debugger opts ->
  match files w !! SOCKET_PATH with
  | Some _ => launch context opts kernel w =
      (w, Failed [SOCKET_PATH +:+ " already exists - is another QEMU instance already running?"])
  | None => no_session (launch context opts kernel w).1
  end.
Proof.
  intros Hw Hd. unfold launch, gdb_server. rewrite Hd, bind_Tool, bind_Tool.
  pose proof (server_new_no_faults kernel (opt_debugger_wait opts) w Hw) as Hs.
  destruct (files w !! SOCKET_PATH); rewrite Hs; [done|]. cbn [mret tool_ret].
  unfold qemu_run, finally. set (w1 := set_files _ w).
  set (spec := spec_for context opts kernel (Some _)).
  pose proof (faultless_body spec w1 Hw) as Hb. destruct (qemu_body spec w1) as [w2 r]. cbn [fst] in *.
  unfold drop_spec. cbn [debugger spec_for spec]. rewrite drop_server_no_faults by done.
  split; cbn [files set_files]; [rewrite lookup_delete_ne by done|]; apply lookup_delete_eq.
Qed.

(** [run] builds with [build] and then debugs what was built. *)
Definition debugs (build : Tool Utf8Path) (run : Tool unit) : Prop := forall w,
  faults (build w).1 = [] ->
  match build w with
  | (w1, Returned kernel) =>
      match files w1 !! SOCKET_PATH with
      | Some _ => run w =
          (w1, Failed [SOCKET_PATH +:+ " already exists - is another QEMU instance already running?"])
      | None => no_session (run w).1
      end
  | (w1, Failed report) => run w = (w1, Failed report)
  | (w1, Panicked p) => run w = (w1, Panicked p)
  end.

Lemma debugs_launch context opts build verdict run :
  wants_debugger opts -> (forall status w, (verdict status w).1 = w) ->
  (forall w, run w = (kernel ← build; status ← launch context opts kernel; verdict status) w) ->
  debugs build run.
Proof.
  intros Hd Hv Hr w Hw. rewrite Hr, bind_Tool. destruct (build w) as [w1 [kernel|r|p]]; [|done..].
  cbn [fst] in Hw. pose proof (launch_session context opts kernel w1 Hw Hd) as Hl. rewrite bind_Tool.
  destruct (files w1 !! SOCKET_PATH); [by rewrite Hl|].
  destruct (launch context opts kernel w1) as [w2 [status|r|p]]; [|done..]. by rewrite Hv.
Qed.

(** C35. Debugger sessions, under the hypothesis that no operation of the
    file system fails from the end of the build on ([faults] is empty then;
    if writing GDB's init file fails, a part of it may be left behind).
    Running or testing with a debugger is refused, before anything is written
    or QEMU is started, while a socket exists; otherwise neither the socket
    nor GDB's init file is left when the run ends, be it with no boot image,
    QEMU missing, output that cannot be decoded, a panic of the formatter, a
    failing exit status, or success. *)
Theorem debug_session_spec context opts :
  wants_debugger opts ->
  debugs (context_build context KERNEL_CRATE) (do_run context opts) /\
  debugs (test_kernel context) (do_test context opts).
Proof.
  intros Hd. split.
  - apply (debugs_launch context opts _ run_verdict); [done|apply verdict_world|apply do_run_launch].
  - apply (debugs_launch context opts _ test_verdict); [done|apply verdict_world|apply do_test_launch].
Qed.

(** [do_test] succeeds only through QEMU's exit status 3. *)
Lemma do_test_ok context opts w :
  (do_test context opts w).2 = Returned tt <->
  exists w1 kernel w2, test_kernel context w = (w1, Returned kernel) /\
    launch context opts kernel w1 = (w2, Returned (Exited 3)).
Proof.
  rewrite do_test_launch, bind_Tool. destruct (test_kernel context w) as [w1 [kernel|r|p]]; cbn [snd].
  - rewrite bind_Tool. destruct (launch context opts kernel w1) as [w2 [status|r|p]] eqn:El; cbn [snd].
    + split.
      * intros Hs. exists w1, kernel, w2. split; [done|]. rewrite El. unfold test_verdict in Hs.
        destruct status as [c|sig]; [|done]. cbn [code] in Hs. destruct (decide (c <> 3)) as [|Hc]; [done|].
        apply dec_stable in Hc. by subst.
      * intros (?&?&?&[= <- <-]&Hl). rewrite El in Hl. by injection Hl as _ ->.
    + split; [done|]. intros (?&?&?&[= <- <-]&?). congruence.
    + split; [done|]. intros (?&?&?&[= <- <-]&?). congruence.
  - split; [done|]. by intros (?&?&?&?&_).
  - split; [done|]. by intros (?&?&?&?&_).
Qed.

(** QEMU is only started with the debug exit device. *)
Definition exit_device : string := "isa-debug-exit,iobase=0xf4,iosize=0x04".

Lemma machine_args_exit spec : exit_device ∈ machine_args spec.
Proof. unfold machine_args. destruct (spec_platform spec). cbn. set_solver. Qed.

(** If a launch returns, some QEMU with that device ended with the status. *)
Lemma launch_status context opts kernel w w' status :
  launch context opts kernel w = (w', Returned status) ->
  exists cmd fs run, run_qemu cmd fs = Ok run /\ exit_device ∈ args cmd /\ status = qemu_status run.
Proof.
  unfold launch. rewrite bind_Tool. destruct (gdb_server opts kernel w) as [w1 [gdb|r|p]]; [|done..].
  unfold qemu_run, finally. set (spec := spec_for context opts kernel gdb). destruct (qemu_body spec w1) as [w2 r] eqn:Eb.
  intros [= _ ->]. unfold qemu_body in Eb. rewrite bind_Tool in Eb.
  destruct (add_binary spec w1) as [w3 [image|r|p]]; [|done..].
  match type of Eb with (?m ≫= ?f) _ = _ => destruct (prints_bind m f w3) as (w4&_&E4); [apply log_text_prints|] end.
  rewrite E4, bind_Tool in Eb. clear E4. unfold spawn_qemu in Eb.
  match type of Eb with context [run_qemu ?cmd ?fs] => destruct (run_qemu cmd fs) as [run|e] eqn:Er; [|done] end.
  rewrite bind_Tool in Eb. destruct (symbolizer_new _ _) as [w5 [c|r|p]]; [|done..].
  rewrite bind_Tool in Eb. destruct (decode_output _ _ _) as [w6 [[]|r|p]]; [|done..].
  rewrite bind_Tool in Eb. cbn in Eb. injection Eb as _ <-.
  eexists _, _, run. split; [exact Er|]. split; [|done]. cbn [args].
  apply elem_of_app. left. apply machine_args_exit.
Qed.
End xtask.

(** * A format and programs to run with *)

Definition level_sum (l : Level) : nat :=
  match l with LError => 0 | LWarn => 1 | LInfo => 2 | LDebug => 3 | LTrace => 4 end.
Definition sum_level (n : nat) : Level :=
  match n with 0%nat => LError | 1%nat => LWarn | 2%nat => LInfo | 3%nat => LDebug | _ => LTrace end.
#[local] Instance Level_countable : Countable Level.
Proof. apply (inj_countable' level_sum sum_level). by intros []. Defined.

Definition parent_sum (p : Parent) : unit + Z + Z :=
  match p with Root => inl (inl tt) | Current z => inl (inr z) | Explicit z => inr z end.
Definition sum_parent (p : unit + Z + Z) : Parent :=
  match p with inl (inl _) => Root | inl (inr z) => Current z | inr z => Explicit z end.
#[local] Instance Parent_countable : Countable Parent.
Proof. apply (inj_countable' parent_sum sum_parent). by intros []. Defined.

#[local] Instance Metadata_countable : Countable Metadata.
Proof.
  apply (inj_countable'
    (fun m => (Proto.name m, Proto.target m, Proto.level m, Proto.file m, Proto.line m))
    (fun '(a, b, c, d, e) => MkMetadata a b c d e)). by intros [].
Defined.

Definition value_sum (v : Value) : Z + Z + Z + string + Z :=
  match v with
  | KernelAddress x => inl (inl (inl (inl x))) | PhysicalAddress x => inl (inl (inl (inr x)))
  | VirtualAddress x => inl (inl (inr x)) | VString x => inl (inr x) | U64 x => inr x
  end.
Definition sum_value (v : Z + Z + Z + string + Z) : Value :=
  match v with
  | inl (inl (inl (inl x))) => KernelAddress x | inl (inl (inl (inr x))) => PhysicalAddress x
  | inl (inl (inr x)) => VirtualAddress x | inl (inr x) => VString x | inr x => U64 x
  end.
#[local] Instance Value_countable : Countable Value.
Proof. apply (inj_countable' value_sum sum_value). by intros []. Defined.

#[local] Abbreviation flat_message := (SpanId * Parent * Metadata * list (string * Value) +
  Parent * Metadata * list (string * Value) + SpanId * Z + SpanId * Z + SpanId)%type.

Definition message_sum (m : ReceiverMessage) : flat_message :=
  match m with
  | MSpanCreated s =>
      inl (inl (inl (inl (created_id s, created_parent s, created_metadata s, created_fields s))))
  | MEvent e => inl (inl (inl (inr (event_span e, event_metadata e, event_fields e))))
  | MSpanEntered i p => inl (inl (inr (i, p)))
  | MSpanExited i p => inl (inr (i, p))
  | MSpanClosed i => inr i
  end.
Definition sum_message (m : flat_message) : ReceiverMessage :=
  match m with
  | inl (inl (inl (inl (a, b, c, d)))) => MSpanCreated (MkSpanCreated a b c d)
  | inl (inl (inl (inr (a, b, c)))) => MEvent (MkEvent a b c)
  | inl (inl (inr (i, p))) => MSpanEntered i p
  | inl (inr (i, p)) => MSpanExited i p
  | inr i => MSpanClosed i
  end.
Lemma sum_message_sum m : sum_message (message_sum m) = m.
Proof. by destruct m as [[]|[]| | |]. Qed.

#[local] Instance message_eq_dec : EqDecision ReceiverMessage.
Proof.
  intros m m'. refine (cast_if (decide (message_sum m = message_sum m'))).
  - rewrite <-(sum_message_sum m), <-(sum_message_sum m'). by f_equal.
  - by intros ->.
Defined.
#[local] Instance message_countable : Countable ReceiverMessage.
Proof. apply (inj_countable' message_sum sum_message). apply sum_message_sum. Defined.

(** Every message in one element. *)
Definition unit_postcard : Postcard ReceiverMessage string.
Proof.
  refine {|
    take_from_bytes s :=
      match s with
      | [] => UnexpectedEnd
      | Zpos p :: rest => match countable.decode p with Some m => Taken m rest | None => Broken "message" end
      | _ => Broken "message"
      end;
    to_bytes m := [Zpos (countable.encode m)];
  |}.
  - intros m rest. simpl. by rewrite decode_encode.
  - done.
  - intros [|[|p|p] s] m rest; try done. destruct (countable.decode p); intros; by simplify_eq; eexists [_].
  - intros [|[|p|p] s] m rest t; try done. simpl. destruct (countable.decode p); intros; by simplify_eq.
  - intros [|[|p|p] s] e t; try done. simpl. destruct (countable.decode p); intros; by simplify_eq.
Defined.

Section witness.
#[local] Existing Instance dev_profile.
#[local] Existing Instance unit_postcard.

#[local] Definition kernel_path : Utf8Path :=
  MkPath false ["target"; "x86_64-unknown-none"; "debug"; "platypos_kernel"].

(** A span that is entered and left, and the same left twice. *)
#[local] Definition told : list ReceiverMessage :=
  [MSpanCreated (MkSpanCreated 1 Root (MkMetadata "kmain" "kernel" LInfo None None) []);
   MSpanEntered 1 0;
   MEvent (MkEvent (Current 0) (MkMetadata "event" "kernel" LInfo None None) [("at", KernelAddress 4096)]);
   MSpanExited 1 0].

#[local] Definition told_chunks : list (list Z) := [[66; 255; 0]; [255; 0]].

(** Programs that work: cargo builds the kernel, QEMU boots it, tells the
    above and ends with [status]. *)
#[local] Definition programs_ending (status : ExitStatus) : Programs := {|
  run_cargo _ fs :=
    Ok (MkCargoRun (<[display_path kernel_path := "elf"]> fs)
      [Ok (CompilerArtifact "core" None); Ok (CompilerArtifact "platypos_kernel" (Some kernel_path)); Ok OtherMessage]
      (Ok (Exited 0)));
  run_qemu _ fs :=
    Ok (MkQemuRun (<[SOCKET_PATH := ""]> fs) (Ok <$> told_chunks ++ [concat (to_bytes <$> told)]) status
      (fun fs => delete SOCKET_PATH fs));
  run_gdb _ _ := Ok tt;
  create_disk_image _ image fs := Ok (<[display_path image := "image"]> fs);
  enable_ansi_support := Ok tt;
  installed_error := "installed";
  logger_error := "logger";
  debug_command cmd := program cmd;
  paint_stderr _ text := text;
|}.

#[local] Definition plain_colors (_ : color) (text : string) : string := text.

(** Debug information that is good, bad, and missing. *)
#[local] Instance sample_addr2line : Addr2line unit unit := {|
  object_parse _ := Ok tt;
  context_new _ := Ok tt;
  find_frames _ address :=
    let frame := MkFrame (Some (Ok "kernel::panic")) (Some (MkLocation (Some "panic.rs") (Some 7) None)) in
    if decide (address = 4096) then Some [Ok frame; Ok (MkFrame None None)]
    else if decide (address = 8192) then Some [Err "bad"; Ok frame] else None;
|}.

#[local] Definition idle_world : World := MkWorld ∅ [] [] [] false None None FilterOff.

Lemma symbolize_spec_witness :
  gimli_symbolize tt 4096 = "kernel::panic @ panic.rs:7:0 (inlined by) ??? @ <unknown>"%string /\
  gimli_symbolize tt 8192 = "<malformed: bad>kernel::panic @ panic.rs:7:0"%string /\
  gimli_symbolize tt 0 = "<unknown symbol @ 0x0000000000>"%string.
Proof.
  split; [|split].
  - rewrite (proj1 (symbolize_spec tt 4096) []
      [Ok (MkFrame (Some (Ok "kernel::panic")) (Some (MkLocation (Some "panic.rs") (Some 7) None))); Ok (MkFrame None None)]);
      [reflexivity|reflexivity|constructor|discriminate|exact I].
  - rewrite (proj1 (symbolize_spec tt 8192) [Err "bad"]
      [Ok (MkFrame (Some (Ok "kernel::panic")) (Some (MkLocation (Some "panic.rs") (Some 7) None)))]);
      [reflexivity|reflexivity|by repeat constructor|discriminate|exact I].
  - rewrite (proj2 (symbolize_spec tt 0)); [reflexivity|left; reflexivity].
Defined.

#[local] Definition told_run : QemuRun :=
  MkQemuRun ∅ (Ok <$> told_chunks ++ [concat (to_bytes <$> told)]) (Exited 3) (fun fs => fs).

Lemma told_received :
  match receive_all (rendering := symbols_of (colors := plain_colors) tt) formatter_new told with
  | Ret (_, text) => (0 < String.length text)%nat
  | Panic _ => False
  end.
Proof. vm_compute. lia. Qed.

Lemma decode_output_spec_witness :
  exists text, (0 < String.length text)%nat /\
    decode_output (colors := plain_colors) find_marker tt told_run idle_world =
    (print (Text text) (print (Bytes [66]) idle_world), Returned tt).
Proof.
  pose proof (decode_output_spec (colors := plain_colors) find_marker [66] told told_chunks
    (concat (to_bytes <$> told)) tt told_run idle_world find_marker_first eq_refl) as Hd.
  pose proof told_received as Ht.
  destruct (receive_all (rendering := symbols_of (colors := plain_colors) tt) formatter_new told) as [[f text]|p]; [|destruct Ht].
  exists text. split; [exact Ht|]. apply Hd.
  - by repeat constructor.
  - reflexivity.
  - intros j Hj. cbn [length] in Hj. assert (j = 0%nat) as -> by lia. intros Hm. vm_compute in Hm. discriminate Hm.
  - cbn. lia.
Defined.

#[local] Definition sample_context : Context := Context_new X86_64 None "trace".
#[local] Definition debug_opts : QemuOpts := MkQemuOpts 1 "1G" true false.

(** A session, and one that finds the socket of another. *)
#[local] Definition busy_world : World := set_files {[ SOCKET_PATH := "" ]} idle_world.

Lemma debug_session_spec_witness :
  no_session (do_test (programs := programs_ending (Exited 1)) (colors := plain_colors) find_marker
    sample_context debug_opts idle_world).1 /\
  (do_run (programs := programs_ending (Exited 0)) (colors := plain_colors) find_marker
    sample_context debug_opts busy_world).2 =
    Failed ["target/gdb/gdb.sock already exists - is another QEMU instance already running?"]%string.
Proof.
  split.
  - pose proof (proj2 (debug_session_spec (programs := programs_ending (Exited 1)) (colors := plain_colors)
      find_marker sample_context debug_opts eq_refl) idle_world) as Hd.
    set (m := do_test _ _ _ _) in *. clearbody m. vm_compute in Hd. vm_compute. exact (Hd eq_refl).
  - pose proof (proj1 (debug_session_spec (programs := programs_ending (Exited 0)) (colors := plain_colors)
      find_marker sample_context debug_opts eq_refl) busy_world eq_refl) as Hd.
    set (m := do_run _ _ _ _) in *. clearbody m. vm_compute in Hd. rewrite Hd. reflexivity.
Defined.
End witness.
