(* ===== verification/TestRun.v ===== *)
(** From the kernel's tests to the exit code of the build tool: what
    [xtask test] answers ([xtask/src/command.rs]) against what the tests in
    the booted kernel returned ([ktest/src/lib.rs]). *)
From S2P Require Import Prelude Address Bitfields Topology Slot FreeLists Slab SlabSpec Sync Proto.
From S2P Require Import Decoder KTrace Fmt Boot Ktest Host Xtask.

Section verdict.
Context {prof : Profile} {modular : ModularBitfield} {topology : Topology}.
Context {E Q : Type} {ser : Serializer E} {buf : ThingBuf Q E}.
Context {Pic Idt Cpu H : Type} {qemu : QemuExit}.
Context (callsite : string -> tracing_Metadata).
Context {programs : Programs} {colors : color -> string -> string}.
Context {Object Ctx : Type} {addr2line : Addr2line Object Ctx}.
Context {postcard : Postcard ReceiverMessage string}.
Context (find : list Z -> option nat) (address : Z).
Implicit Types (k : Kernel Pic Idt Cpu Q H) (TESTS : list (Test (Q := Q) (Pic := Pic) (Idt := Idt) (Cpu := Cpu) (H := H))).

(** QEMU, started with the debug exit device, runs the kernel from [k] on
    and exits with what the kernel writes to the device. *)
Definition runs_kernel TESTS k : Prop := forall cmd fs run status k',
  run_qemu cmd fs = Ok run -> exit_device ∈ args cmd ->
  kmain_test callsite address TESTS k = Ret (status, k') -> qemu_status run = Exited status.

(** The kernel is built, booted, and its output read to the end. *)
Definition run_completes context opts w : Prop := exists w1 kernel w2 status,
  test_kernel (colors := colors) context w = (w1, Returned kernel) /\
  launch (colors := colors) find context opts kernel w1 = (w2, Returned status).

(** C34. [xtask test] tells the truth. For a test kernel that runs its tests
    to the end, in a QEMU whose exit device works, the tool succeeds exactly
    if the run was completed (built, booted, read to the end) and every test
    of the kernel passed. *)
Theorem test_verdict_spec TESTS k status k' :
  boot_processor -> working k -> suite callsite anything TESTS -> runs_kernel TESTS k ->
  kmain_test callsite address TESTS k = Ret (status, k') ->
  exists os cs k1 k2, tested callsite TESTS os cs k1 k2 /\ forall context opts w,
    (do_test (colors := colors) find context opts w).2 = Returned tt <->
    run_completes context opts w /\ Forall (.= Pass) os.
Proof.
  intros Hcpu Hw Hs Hq Hrun. pose proof Hrun as Hrun0. unfold kmain_test in Hrun0.
  apply code_bind_inv in Hrun0 as (guard&k0&E0&([]&k1&Ef&E2)%code_bind_inv).
  destruct (enter_span_with_did callsite Hcpu _ _ _ _ _ Hw E0) as (id&_&Hd0).
  pose proof (did_working _ _ _ Hw Hd0) as Hw0.
  pose proof (did_working _ _ _ Hw0 (flush_did Hcpu _ _ Hw0 Ef)) as Hw1.
  pose proof (run_tests_ok callsite Hcpu TESTS k1 Hw1 Hs) as Hr. rewrite E2 in Hr.
  destruct Hr as (id'&os&cs&k2&k3&Ht&_&Hv). exists os, cs, k2, k3. split; [done|]. intros context opts w.
  rewrite do_test_ok, <-Hv. split.
  - intros (w1&kernel&w2&Eb&El). split; [by exists w1, kernel, w2, (Exited 3)|].
    destruct (launch_status find context opts kernel w1 w2 _ El) as (cmd&fs&run&Er&Hin&Es).
    rewrite (Hq _ _ _ _ _ Er Hin Hrun) in Es. congruence.
  - intros [(w1&kernel&w2&st&Eb&El) ->]. exists w1, kernel, w2. split; [done|].
    destruct (launch_status find context opts kernel w1 w2 _ El) as (cmd&fs&run&Er&Hin&Es).
    by rewrite El, Es, (Hq _ _ _ _ _ Er Hin Hrun).
Qed.
End verdict.

Section witness.
#[local] Existing Instance lsb_first.
#[local] Existing Instance dev_profile.
#[local] Existing Instance x86_64_topology.
#[local] Existing Instance KTrace.list_queue.
#[local] Existing Instance KTrace.toy_serializer.
#[local] Existing Instance doubling_exit.
#[local] Existing Instance unit_postcard.
#[local] Existing Instance Xtask.sample_addr2line.

Lemma sample_suite : suite Boot.place anything Ktest.sample_tests.
Proof. apply kernel_suite; [apply sample_processor|apply sample_fits]. Qed.

Lemma sample_status :
  match kmain_test Boot.place 0x8000000000 Ktest.sample_tests Ktest.idle_kernel with Ret (s, _) => s = 3 | Panic _ => False end.
Proof. vm_compute. reflexivity. Qed.

Lemma sample_runs_kernel :
  runs_kernel (programs := Xtask.programs_ending (Exited 3)) Boot.place 0x8000000000 Ktest.sample_tests Ktest.idle_kernel.
Proof.
  intros cmd fs run status k' Er _ Ek. pose proof sample_status as Hs. rewrite Ek in Hs. subst status.
  by injection Er as <-.
Qed.

Lemma sample_completes :
  run_completes (programs := Xtask.programs_ending (Exited 3)) (colors := Xtask.plain_colors) find_marker
    Xtask.sample_context (MkQemuOpts 1 "1G" false false) Xtask.idle_world.
Proof.
  destruct (test_kernel (programs := Xtask.programs_ending (Exited 3)) (colors := Xtask.plain_colors)
    Xtask.sample_context Xtask.idle_world) as [w1 [kernel|r|p]] eqn:E1;
    [|vm_compute in E1; discriminate E1..].
  vm_compute in E1. injection E1 as <- <-.
  eexists _, _, _, (Exited 3). split; vm_compute; reflexivity.
Qed.

Lemma sample_passes os cs k1 k2 :
  tested Boot.place Ktest.sample_tests os cs k1 k2 -> Forall (.= Pass) os.
Proof. intros Ht. apply (tested_pass Boot.place quoted _ _ _ _ _ Ht). by apply Forall_forall. Qed.

Lemma test_verdict_spec_witness :
  (do_test (programs := Xtask.programs_ending (Exited 3)) (colors := Xtask.plain_colors) find_marker
    Xtask.sample_context (MkQemuOpts 1 "1G" false false) Xtask.idle_world).2 = Returned tt.
Proof.
  pose proof sample_status as Hs.
  destruct (kmain_test Boot.place 0x8000000000 Ktest.sample_tests Ktest.idle_kernel) as [[status k']|w] eqn:E1; [|destruct Hs].
  destruct (test_verdict_spec (programs := Xtask.programs_ending (Exited 3)) (colors := Xtask.plain_colors)
    Boot.place find_marker 0x8000000000 Ktest.sample_tests Ktest.idle_kernel status k' sample_processor idle_working
    sample_suite sample_runs_kernel E1) as (os&cs&k1&k2&Ht&Hv).
  apply Hv. split; [exact sample_completes|exact (sample_passes _ _ _ _ Ht)].
Defined.
End witness.
